(* ===== verification/_CoqProject ===== *)
-Q . S2P
Prelude.v
Sync.v
ThreadPool.v
PoolDemo.v
BoostPool.v
FizzBuzz.v
ProducerConsumer.v
MyFuture.v
Locks.v
RwDemo.v
WriterReaders.v
Tasks.v
Futures.v
Sum.v
Posix.v
SelectServer.v
PollServer.v
EpollServer.v
LongConnection.v
EpollKernel.v
Frame.v
Asio.v
Ipc.v
Host.v
Shell.v
Text.v
Allocator.v
LogCore.v
LogSources.v
LogPrograms.v
LogDemos.v
LogQueue.v
Session.v
Conversation.v
AServer.v
Lang.v
Forwarding.v
Macro.v
ThreadDemos.v
PortShare.v
