(* ===== verification/Prelude.v ===== *)
(** * Londa: a verification development

    Londa is a collection of C and C++ programs: thread pools and
    synchronisation exercises, echo servers on [select], [poll] and [epoll],
    inter-process communication, and uses of Boost. The programs are independent
    of each other (some share a class, some are the two ends of a connection),
    so the development has one file per program or family of programs, over
    three shared files. Paths below are relative to [src/code/].

    ** Shared files

    - [Prelude]: [outcome] (a step completes, blocks or is undefined
      behaviour), labelled executable transition systems ([machine]) with
      reachability, rule induction, schedules ([exec]), quiescence and
      termination by a measure, refinement between machines: by states
      ([Refines]) and by the events that are observed along a run
      ([TraceRefines]: the observed trace is a run of the abstract machine);
      lists of thread states, and the tactics [step_inv] and [run_schedule].
    - [Sync]: [std::mutex], [std::condition_variable] with [notify_one],
      [notify_all] and spurious wake-ups; a program says where its threads wait
      through the class [CondVar].
    - [Posix]: buffers and C strings, system calls and their results, programs
      as trees of calls ([io]), their run against a list of results ([run]), a
      weakest precondition over all the results a kernel may give ([wp]),
      servers as machines whose steps are the iterations of their main loop
      ([server]), what the calls sent and received ([flow]), and invariants of
      the runs whose calls so far meet a condition ([server_trace_invariant]).

    ** How a program is modelled

    A thread is its program counter and its local state; a step is what it
    does between two points at which another thread can be seen (one mutex
    operation, one access to shared data, one notification). A label of the
    machine picks the thread that moves, or a spurious wake-up. A theorem over
    the reachable states is therefore one over all schedules. The clock is a
    free choice: sleeps and limits take any time. Undefined behaviour (a mutex
    unlocked by a thread that does not own it, an access past the end of an
    array, a use of a freed object, signed overflow, a data race) is the
    outcome [UB], never a default value. A server or client is a program of
    system calls in the order of the source; the kernel's answers are a list,
    restricted by [possible] to what the interfaces document (a read gives at
    most what was asked for, descriptors are fresh, [epoll_wait] reports
    registered descriptors only, with the events they were registered for: not
    the [EPOLLERR] and [EPOLLHUP] that Linux adds unasked). Text for the terminal that carries no data
    is reduced to a [puts].

    ** Threads

    - [ThreadPool]: [concurrent/threadpool.cpp] ([fixed_thread_pool], also used
      by [sum.cpp]). Tasks are conserved and start in the order of
      submission, the lock discipline holds, the pool comes to rest with every
      task done, and what is observed of it (submissions, starts, ends, exits) is a
      run of an abstract first-in first-out queue.
    - [PoolDemo]: the [main] of [concurrent/threadpool.cpp], thirty tasks on that
      pool: which lines they print, under every schedule.
    - [BoostPool]: [boost_doc/Function/threadpool.cpp]. The same invariants for
      a pool whose stop flag is not under the mutex; the wake-up that its
      destructor can lose, and the tasks it can drop.
    - [FizzBuzz]: [concurrent/order_print.cpp]. The words and numbers are the
      reference sequence under every schedule, the last line of each thread
      comes once among those past [n]; the program does not end.
    - [ProducerConsumer]: [concurrent/1p1c_cv.cpp], [1p1c.cpp], [1p1c_mutex.cpp].
    - [MyFuture]: [concurrent/MyFuture.cpp], as two machines: handles and their
      reference count, and the value with its waiting threads, whose calls are
      operations on a cell.
    - [Locks]: [concurrent/alternate_print_nt.cpp], [rw.cpp] (every history of
      the counter is one of a sequential counter), [tiny_rwc.cpp],
      [notify.cpp], [deadlocking.cpp], and three programs that misuse a mutex
      ([alternate_print.cpp], [order_process.cpp], [print.cpp]), up to their
      first undefined step.
    - [RwDemo]: the threads of [concurrent/rw.cpp] on the counter of [Locks]: every
      line shows the writes so far, and some thread can always move.
    - [WriterReaders]: [concurrent/1w_nr.cpp], with the data races on its list and
      the return of [main], which its detached threads may outlive; without
      its time stamps, whose [localtime] is not protected either.
    - [Tasks]: [concurrent/consume.cpp]; [Futures]: [concurrent/set_value.cpp],
      [shared_future.cpp], [wait_fororuntil.cpp], [promise.cpp],
      [atomic_bool.cpp].
    - [ThreadDemos]: [concurrent/call_once.cpp], [async.cpp],
      [package_task.cpp], [thread_param.cpp] and [lang/shared_ptr.cpp].
    - [Sum]: [concurrent/sum.cpp] and [parallel_sum.cpp]; the number of batches
      is computed in single precision, modelled as rounding of rationals to 24
      bits, and agrees with the exact one up to 2^24 numbers.

    ** Servers, clients and bytes between processes

    - [SelectServer], [PollServer], [EpollServer]: the servers and clients of
      [network/IO/multiplexing/via_select], [via_poll], [via_epoll]. Invariants
      of their tables for all the kernel's answers, freedom from undefined
      behaviour under stated conditions, what a client gets back, and the cases
      in which the conditions fail.
    - [LongConnection]: [network/TCP/long_connection.server.c] and
      [long_connection.client.c], edge-triggered, with a heap record per
      pending answer: the invariant of the table, the echo for every
      fragmentation, the size of the buffer. The test of [data.fd], a union that
      may hold a record's address, is a test of the descriptor: an address whose
      low half is the listening descriptor is left aside.
    - [Conversation]: that server and that client over a network that moves bytes
      in pieces: what the client shows is what it sent.
    - [EpollKernel]: [network/IO/multiplexing/epoll_detail.cpp], the excerpt of
      the kernel's own [epoll]: which level-triggered events are lost
      (those of a file that was ready when it was added), edge-triggered ones
      reported once. [ep_remove], [ep_modify], [ep_loop_check] and the files'
      [poll] are parameters, the first two with what they promise as
      hypotheses.
    - [Frame]: [boost_doc/IO/connection.hpp], [server.cpp], [client.cpp]. The
      archive of Boost.Serialization and the stock type (whose header is not in
      the repository) are parameters, with the round trip of the archive as the
      hypothesis.
    - [Asio]: [boost_doc/DS/time.cpp] and [boost_doc/IO/demo.cpp], driven by
      completion handlers.
    - [Ipc]: [IPC/PIPE/dpipe.cpp], [fifo_pipe.cpp], [IPC/Socket/UNIX_socket.cpp],
      [network/TCP/REUSE_PORT] (one worker of each program),
      [network/TCP/transfer_data.cpp], [IPC/SHM/Posix/mmap.cpp],
      [boost_doc/IO/port.cpp].
    - [PortShare]: the threads of [network/TCP/REUSE_PORT/client.cpp], which give
      one [cin] their buffers: no destroyed buffer is read, every run ends, and
      lines can be lost, but not by a thread alone.
    - [Session]: a client and a server together. What [PollServer]'s two programs
      promise are the classes [RelayClient] and [EchoServer]; the end-to-end
      property of a session is proved from the classes alone. The network
      between two processes ([network]) is also that of [Conversation].
    - [AServer]: [boost_doc/IO/aServer.cpp]. Its sockets die with operations
      pending and its connections share a buffer: what the handlers keep true
      for every order and result of the completions, and how they overrun and
      mix the buffer.
    - [Shell]: [IPC/SHM/SystemV/placement.cpp] (on text: a NUL in the line, where
      [strtok] would stop, is an ordinary character).
    - [Host]: [boost_doc/IO/ip.cpp] and [setnonblocking] of
      [network/TCP/long_connection.server.c].

    ** Logs

    - [LogCore]: what the programs use of Boost.Log's core, as a class of
      operations with laws over what can be observed of the core (records,
      attributes, filters, sinks and the lines they have written), and one
      instance of it; what a list of logging statements pushes ([logs]): for
      each exactly one record, when the core admits it. Boost.Log is not in the repository: the programs are
      proved against the class.
    - [LogSources]: [boost_doc/log/src/detailed/sources.cpp]. The two connection
      classes are instances of one interface; the records of a connection tell
      its history, one for each call that the core admits.
    - [LogPrograms]: [tutorial/complex_filter.cpp] (its files are those kept in
      [bin/]) and [lang/log.cpp].
    - [LogDemos]: [tutorial/trivial.cpp], [simple_filter.cpp], [sinks.cpp],
      [dedicated_log.cpp], [formatter.cpp], [Attributes.cpp],
      [detailed/record.cpp], [detailed/core.cpp], [utilities.cpp].
    - [LogQueue]: [detailed/text_ipc_backend.cpp], over a class for Boost's
      message queue: a viewer shows every line in order; [main], which starts
      none, stops for good once the queue is full.

    ** Small programs

    - [Text]: [lang/getline.cpp] (three reading loops against one reference),
      [lang/time_stump.cpp], [lang/time_stamp.cpp] and the clock texts of
      [concurrent/1p1c.cpp] and [1p1c_mutex.cpp] (calendar, texts, their buffers).
    - [Allocator]: [lang/my_allocater.cpp] under a vector of any growth.
    - [Lang]: [lang/cut_line.cpp], [redirect.cpp], [file_iterator.cpp],
      [param_iter.cpp], [static_template.cpp], [boost_doc/Function/function.cpp],
      [boost_doc/Tool/progress_bar.cpp], [boost_doc/DS/any.cpp],
      [boost_doc/IO/serlizrlisze.cpp] (the archive is a class with its round
      trip as law).
    - [Macro]: [lang/macro.cpp]: the expansion of [CONCAT], which gives the text of
      [lang/macro.cc].
    - [Forwarding]: [lang/forward.cpp] and [lang/template_func_overload.cpp]:
      reference collapsing, [std::forward], and the overloads that are called.

    ** Fuel and bounds

    Loops that run until a system call says so take fuel, and run out of it as
    [OutOfFuel], which blocks; a theorem that gives a result asks for more fuel
    than the results it lists have entries, so the loop ends before. The batches
    of [Sum], the recursion of [Tasks.Consume.factorial] and the loops of
    [Text.Getline] have fuel bounds in their theorems, enough by a measure on
    the data. Machines have no fuel: termination is well-foundedness of their
    steps ([sn_measure]). Integers that can overflow are kept at their width:
    [size_t] and [unsigned] wrap, [int] is undefined out of range (or narrowed,
    where the source converts); counters that cannot reach the limit within
    the objects they count are plain (that of [ThreadDemos.CallOnce] counts the
    threads of one run).

    ** What is not modelled

    The files that only configure a library's objects, or do not compile:
    [boost_doc/log/src/detailed/sink_backend.cpp] and [syslog_backend.cpp] are
    sequences of constructor arguments and setters, [sink_frontend.cpp] has
    statements outside a function, [logger_storage.cpp] misspells its macros.
    [IPC/SHM/SystemV/SHM_Manager.h] is commented out, [write_node.cpp] holds the
    marks of a failed merge, [boost_doc/IO/asio.cpp] uses undeclared names,
    [lang/unorderd.cpp] calls a member that its container does not have. The
    remaining demonstrations of the language ([lang/fmt.cpp], [move_iterator.cpp],
    [vector_size.cpp], [test.cpp] and the like, [boost_doc/Function/bind_function.cpp])
    show on constants what the compiler or the library does;
    [network/convert.cpp] converts one constant address. [cpplint.py] is
    third-party. Thread identifiers, time stamps and colours in messages are
    left out everywhere (except where the text is the program's subject, and the
    identity that [FizzBuzz]'s threads print), and so
    are the failures of memory allocation and of thread creation. *)

From stdpp Require Export base tactics list gmap gmultiset strings numbers relations sorting.
From Stdlib Require Export Lia.

(** * Outcomes of one step of C++ code

    A step either completes ([Ok]), has to wait ([Blocked]: a mutex that is
    held, a condition variable that was not notified, a system call that does
    not return) or has undefined behaviour ([UB]: unlocking a mutex the thread
    does not own, reading past the end of an array, using a freed object). *)
Inductive outcome (A : Type) : Type :=
  | Ok (a : A)
  | Blocked
  | UB.
Arguments Ok {A} a.
Arguments Blocked {A}.
Arguments UB {A}.

#[export] Instance outcome_ret : MRet outcome := @Ok.
#[export] Instance outcome_bind : MBind outcome := fun A B f m =>
  match m with Ok a => f a | Blocked => Blocked | UB => UB end.

#[export] Instance outcome_fmap : FMap outcome := fun A B f m => m ≫= fun a => Ok (f a).

(** [from_option_ub o]: dereferencing something that must be there. *)
Definition from_option_ub {A} (o : option A) : outcome A :=
  match o with Some a => Ok a | None => UB end.

(** A guard on which the thread blocks, and a guard whose failure is
    undefined behaviour. *)
Definition await (b : bool) : outcome unit := if b then Ok tt else Blocked.
Definition require (b : bool) : outcome unit := if b then Ok tt else UB.

Lemma bind_Ok {A B} (m : outcome A) (f : A → outcome B) b :
  m ≫= f = Ok b ↔ ∃ a, m = Ok a ∧ f a = Ok b.
Proof.
  split; [destruct m; simpl; [eauto | discriminate | discriminate] |].
  intros (a & -> & Ha). exact Ha.
Qed.

Lemma fmap_Ok {A B} (f : A → B) (m : outcome A) b : f <$> m = Ok b ↔ ∃ a, m = Ok a ∧ b = f a.
Proof. destruct m; simpl; naive_solver. Qed.

Lemma from_option_ub_Ok {A} (o : option A) a : from_option_ub o = Ok a ↔ o = Some a.
Proof. destruct o; simpl; naive_solver. Qed.

Lemma bind_UB {A B} (m : outcome A) (f : A → outcome B) :
  m ≫= f = UB ↔ m = UB ∨ ∃ a, m = Ok a ∧ f a = UB.
Proof.
  split.
  - destruct m; simpl; [eauto | discriminate | eauto].
  - by intros [-> | (a & -> & Ha)].
Qed.

(** * Machines: labelled, executable transition systems *)
Record machine := Machine {
  mstate : Type;
  mlabel : Type;
  minit : mstate → Prop;
  mstep : mlabel → mstate → outcome mstate
}.

Section machine.
Context (M : machine).
Implicit Types (s : mstate M) (l : mlabel M) (P : mlabel M → Prop).

(** One step along a label that satisfies [P], and along any label. *)
Definition msteps P : relation (mstate M) := fun s s' => ∃ l, P l ∧ mstep M l s = Ok s'.
Definition mrel : relation (mstate M) := fun s s' => ∃ l, mstep M l s = Ok s'.

Definition reachable s : Prop := ∃ s0, minit M s0 ∧ rtc mrel s0 s.

(** No label that satisfies [P] can be taken. *)
Definition quiescent P s : Prop := ∀ l, P l → ∀ s', mstep M l s ≠ Ok s'.

Definition goes_wrong s : Prop := ∃ l, mstep M l s = UB.

(** Running a schedule. *)
Fixpoint exec (ls : list (mlabel M)) s : outcome (mstate M) :=
  match ls with
  | [] => Ok s
  | l :: ls => s' ← mstep M l s; exec ls s'
  end.

Lemma reachable_init s : minit M s → reachable s.
Proof. intros H. exists s. split; [done | apply rtc_refl]. Qed.

Lemma reachable_step l s s' : reachable s → mstep M l s = Ok s' → reachable s'.
Proof.
  intros (s0 & Hi & Hr) Hs. exists s0. split; [done |].
  eapply rtc_r; [exact Hr |]. by exists l.
Qed.

Lemma exec_step l ls s s' : mstep M l s = Ok s' → exec (l :: ls) s = exec ls s'.
Proof. intros H. simpl. by rewrite H. Qed.

Lemma exec_two l1 l2 s s1 s2 :
  mstep M l1 s = Ok s1 → mstep M l2 s1 = Ok s2 → exec [l1; l2] s = Ok s2.
Proof. intros H1 H2. by rewrite (exec_step _ _ _ _ H1), (exec_step _ _ _ _ H2). Qed.

Lemma exec_app ls1 ls2 s : exec (ls1 ++ ls2) s = exec ls1 s ≫= exec ls2.
Proof.
  revert s. induction ls1 as [| l ls1 IH]; intros s; [done |]. simpl.
  destruct (mstep M l s); simpl; auto.
Qed.

Lemma exec_rtc ls s s' : exec ls s = Ok s' → rtc mrel s s'.
Proof.
  revert s. induction ls as [| l ls IH]; simpl; intros s.
  - intros [= ->]. apply rtc_refl.
  - rewrite bind_Ok. intros (s1 & H1 & H2).
    eapply rtc_l; [by exists l | auto].
Qed.

(** What an observer who sees [ev l s s'] of each step sees of a run. *)
Fixpoint observed {E} (ev : mlabel M → mstate M → mstate M → option E) (ls : list (mlabel M)) s : list E :=
  match ls with
  | [] => []
  | l :: ls =>
      match mstep M l s with
      | Ok s' => option_list (ev l s s') ++ observed ev ls s'
      | _ => []
      end
  end.

Lemma exec_msteps P ls s s' : Forall P ls → exec ls s = Ok s' → rtc (msteps P) s s'.
Proof.
  intros Hls. revert s. induction Hls as [| l ls Hl _ IH]; simpl; intros s.
  - intros [= ->]. apply rtc_refl.
  - rewrite bind_Ok. intros (s1 & H1 & H2). eapply rtc_l; [by exists l | auto].
Qed.

Lemma exec_reachable ls s s' : minit M s → exec ls s = Ok s' → reachable s'.
Proof. intros Hi He. exists s. split; [done |]. by eapply exec_rtc. Qed.

(** Rule induction over the reachable states. *)
Lemma invariant_ind (I : mstate M → Prop) :
  (∀ s, minit M s → I s) →
  (∀ l s s', reachable s → I s → mstep M l s = Ok s' → I s') →
  ∀ s, reachable s → I s.
Proof.
  intros Hinit Hstep s (s0 & Hi & Hr).
  enough (reachable s ∧ I s) by tauto. revert s Hr.
  apply (rtc_ind_r (λ s, reachable s ∧ I s)).
  - split; [by apply reachable_init | by apply Hinit].
  - intros s1 s2 _ [l Hl] [IHr IHI]. split; [by eapply reachable_step | by eapply Hstep].
Qed.

Lemma reachable_msteps P s s' : reachable s → rtc (msteps P) s s' → reachable s'.
Proof.
  intros Hr Hs. induction Hs as [| s1 s2 s3 (l & _ & Hl) _ IH]; [done |].
  apply IH. by eapply reachable_step.
Qed.

(** Steps that decrease a natural number terminate. *)
Lemma sn_measure P (f : mstate M → nat) s :
  (∀ l s1 s2, reachable s1 → P l → mstep M l s1 = Ok s2 → f s2 < f s1) →
  reachable s → sn (msteps P) s.
Proof.
  intros Hf. remember (f s) as n eqn:Hn. revert s Hn.
  induction n as [n IH] using lt_wf_ind. intros s Hn Hr. constructor. intros s' (l & Hl & Hs).
  eapply (IH (f s')); [| done | by eapply reachable_step].
  subst n. by eapply Hf.
Qed.
End machine.

Arguments reachable {M} s.
Arguments quiescent M P s : assert.
Arguments goes_wrong {M} s.
Arguments exec M ls s : assert.

(** * Refinement: a detailed machine implements an abstract one *)
Class Refines (C A : machine) := {
  ref_abs : mstate C → mstate A;
  ref_init : ∀ s, minit C s → minit A (ref_abs s);
  ref_sim : ∀ l s s', reachable s → mstep C l s = Ok s' →
    ref_abs s' = ref_abs s ∨ ∃ a, mstep A a (ref_abs s) = Ok (ref_abs s')
}.
Arguments ref_abs {C A} _ s.

Lemma refines_reachable {C A} (R : Refines C A) (s : mstate C) :
  reachable s → reachable (ref_abs R s).
Proof.
  revert s. apply invariant_ind.
  - intros s Hi. apply reachable_init. by apply ref_init.
  - intros l s s' Hr IH Hs. destruct (ref_sim l s s' Hr Hs) as [-> | [a Ha]]; [done |].
    by eapply reachable_step.
Qed.

(** Refinement of traces: the events observed of a run of the detailed machine
    are a run of the abstract one, whose labels they are. *)
Class TraceRefines (C A : machine) := {
  tr_abs : mstate C → mstate A;
  tr_event : mlabel C → mstate C → mstate C → option (mlabel A);
  tr_init : ∀ s, minit C s → minit A (tr_abs s);
  tr_sim : ∀ l s s', reachable s → mstep C l s = Ok s' →
    exec A (option_list (tr_event l s s')) (tr_abs s) = Ok (tr_abs s')
}.
Arguments tr_abs {C A} _ s.
Arguments tr_event {C A} _ l s s'.

Lemma trace_refines_exec {C A} (R : TraceRefines C A) ls (s s' : mstate C) :
  reachable s → exec C ls s = Ok s' →
  exec A (observed C (tr_event R) ls s) (tr_abs R s) = Ok (tr_abs R s').
Proof.
  revert s. induction ls as [| l ls IH]; intros s Hr He; simpl in *; [congruence |].
  apply bind_Ok in He as (s1 & Hs & He). rewrite Hs, exec_app.
  rewrite (tr_sim l s s1 Hr Hs). apply IH; [by eapply reachable_step | done].
Qed.

Lemma elem_of_options {A} (o : option A) x : x ∈ option_list o ↔ o = Some x.
Proof. destruct o; simpl; set_solver. Qed.

(** * Lists of thread states *)
Section thread_list.
Context {A B : Type}.
Implicit Types (l : list A).

(** Summing a weight over the threads after one of them moved. *)
Lemma sum_list_with_insert (f : A → nat) l i x y :
  l !! i = Some x →
  sum_list_with f (<[i:=y]> l) + f x = sum_list_with f l + f y.
Proof.
  revert i. induction l as [| a l IH]; intros [| i] Hi; simplify_eq/=; [lia |].
  specialize (IH i Hi). lia.
Qed.

(** Looking up a thread after one of them moved. *)
Lemma lookup_moved l i j x y z :
  l !! i = Some x → <[i:=y]> l !! j = Some z ↔ i = j ∧ y = z ∨ i ≠ j ∧ l !! j = Some z.
Proof.
  intros Hi. rewrite list_lookup_insert_Some. apply lookup_lt_Some in Hi. naive_solver.
Qed.

(** What the threads hold ([f] of their states) after one of them moved. *)
Lemma omap_insert_perm (f : A → option B) l i x y :
  l !! i = Some x →
  omap f (<[i:=y]> l) ++ option_list (f x) ≡ₚ option_list (f y) ++ omap f l.
Proof.
  revert i. induction l as [| a l IH]; intros [| i] Hi; simplify_eq/=.
  - destruct (f x), (f y); simpl; rewrite ?app_nil_r; try done;
      by rewrite <- Permutation_cons_append.
  - specialize (IH i Hi). destruct (f a) as [b |]; simpl; [| done].
    rewrite IH. by rewrite Permutation_middle.
Qed.

Lemma omap_insert_none (f : A → option B) l i x y :
  l !! i = Some x → f x = None → f y = None → omap f (<[i:=y]> l) ≡ₚ omap f l.
Proof.
  intros Hi Hx Hy. pose proof (omap_insert_perm f l i x y Hi) as E.
  rewrite Hx, Hy in E. simpl in E. by rewrite app_nil_r in E.
Qed.

Lemma omap_insert_add (f : A → option B) l i x y b :
  l !! i = Some x → f x = None → f y = Some b → omap f (<[i:=y]> l) ≡ₚ b :: omap f l.
Proof.
  intros Hi Hx Hy. pose proof (omap_insert_perm f l i x y Hi) as E.
  rewrite Hx, Hy in E. simpl in E. by rewrite app_nil_r in E.
Qed.

Lemma omap_insert_del (f : A → option B) l i x y b :
  l !! i = Some x → f x = Some b → f y = None → omap f l ≡ₚ b :: omap f (<[i:=y]> l).
Proof.
  intros Hi Hx Hy. pose proof (omap_insert_perm f l i x y Hi) as E.
  rewrite Hx, Hy in E. simpl in E. by rewrite <- E, <- Permutation_cons_append.
Qed.

(** A thread with property [h] remains after one of them moved, if the move
    keeps [h]; and a move that establishes [h] makes one. *)
Lemma exists_moved (h : A → Prop) l i j x y :
  l !! i = Some x → (h x → h y) →
  (∃ w, l !! j = Some w ∧ h w) → ∃ w, <[i:=y]> l !! j = Some w ∧ h w.
Proof.
  intros Hi Hxy (w & Hj & Hw). destruct (decide (i = j)) as [<- | Hne].
  - exists y. rewrite list_lookup_insert_eq by by eapply lookup_lt_Some. naive_solver.
  - exists w. by rewrite list_lookup_insert_ne.
Qed.

Lemma exists_moved_here (h : A → Prop) l i x y :
  l !! i = Some x → h y → ∃ w, <[i:=y]> l !! i = Some w ∧ h w.
Proof.
  intros Hi Hy. exists y. by rewrite list_lookup_insert_eq by by eapply lookup_lt_Some.
Qed.

Lemma omap_insert_move (f : A → option B) l i x y b :
  l !! i = Some x → f x = Some b → f y = Some b → omap f (<[i:=y]> l) ≡ₚ omap f l.
Proof.
  intros Hi Hx Hy. pose proof (omap_insert_perm f l i x y Hi) as E.
  rewrite Hx, Hy in E. simpl in E.
  rewrite <- Permutation_cons_append in E. by apply Permutation_cons_inv in E.
Qed.
End thread_list.

Lemma sum_list_with_fmap_le {A} (f : A → nat) (g : A → A) (k : nat) (l : list A) :
  (∀ x, f (g x) ≤ f x + k) → sum_list_with f (g <$> l) ≤ sum_list_with f l + k * length l.
Proof. intros H. induction l as [| a l IH]; csimpl; [lia |]. specialize (H a). nia. Qed.

(** * Tactics of the development *)

(** Case analysis of a step [H : step ... = Ok s'] or [H : step ... = UB]. *)
Ltac step_inv :=
  repeat match goal with
  | H : mbind _ _ = Ok _ |- _ => apply bind_Ok in H as (? & ? & ?)
  | H : mbind _ _ = UB |- _ => apply bind_UB in H as [H | (? & ? & H)]
  | H : await ?b = _ |- _ => unfold await in H; destruct b eqn:?; simplify_eq
  | H : require ?b = _ |- _ => unfold require in H; destruct b eqn:?; simplify_eq
  | H : from_option_ub ?o = _ |- _ => unfold from_option_ub in H; destruct o eqn:?; simplify_eq
  | H : context [match ?x with _ => _ end] |- _ =>
      lazymatch type of H with
      | _ = Ok _ => destruct x eqn:?; simplify_eq/=
      | _ = UB => destruct x eqn:?; simplify_eq/=
      end
  end.

(** [run_schedule M ls]: proves that the state a concrete schedule leads to is
    reachable, computing that state. *)
Ltac run_schedule M ls :=
  eapply (exec_reachable M ls); [reflexivity | vm_compute; reflexivity].
