(* ===== verification/Sync.v ===== *)
(** The synchronisation objects of the C++ standard library the programs use:
    [std::mutex] (with [lock], [unlock] and [try_lock]), and
    [std::condition_variable] ([notify_one], [notify_all] and spurious
    wake-ups).  A thread that waits on a condition variable is visible in its
    program counter, so a program plugs its own counters in through the class
    [CondVar]. *)

From S2P Require Import Prelude.

(** * Mutexes *)
Section mutex.
Context {A : Type} `{EqDecision A}.
Implicit Types (m : option A) (t : A).

(** Locking a mutex the thread already owns is undefined; a mutex owned by
    another thread blocks. *)
Definition mutex_lock t m : outcome (option A) :=
  match m with
  | None => Ok (Some t)
  | Some t' => if decide (t' = t) then UB else Blocked
  end.

(** Only the owner may unlock. *)
Definition mutex_unlock t m : outcome (option A) :=
  match m with
  | Some t' => if decide (t' = t) then Ok None else UB
  | None => UB
  end.

(** [try_lock] never blocks; its result says whether the mutex was taken. *)
Definition mutex_try_lock t m : outcome (bool * option A) :=
  match m with
  | None => Ok (true, Some t)
  | Some t' => if decide (t' = t) then UB else Ok (false, m)
  end.

Lemma mutex_lock_Ok t m m' : mutex_lock t m = Ok m' ↔ m = None ∧ m' = Some t.
Proof. unfold mutex_lock. destruct m; [case_decide |]; split; intros; destruct_and?; congruence || (split; congruence). Qed.

Lemma mutex_unlock_Ok t m m' : mutex_unlock t m = Ok m' ↔ m = Some t ∧ m' = None.
Proof. unfold mutex_unlock. destruct m; [case_decide |]; split; intros; destruct_and?; congruence || (split; congruence). Qed.

Lemma mutex_unlock_own t : mutex_unlock t (Some t) = Ok None.
Proof. by apply mutex_unlock_Ok. Qed.

Lemma mutex_lock_UB t m : mutex_lock t m = UB ↔ m = Some t.
Proof. unfold mutex_lock. destruct m; [case_decide |]; split; intros; destruct_and?; congruence || (split; congruence). Qed.

Lemma mutex_unlock_UB t m : mutex_unlock t m = UB ↔ m ≠ Some t.
Proof. unfold mutex_unlock. destruct m; [case_decide |]; split; intros; destruct_and?; congruence || (split; congruence). Qed.
End mutex.

(** * Condition variables *)

(** The program counters [P] of the threads that may wait: which of them are
    inside [wait], and where a thread resumes (it still has to take the mutex
    again). *)
Class CondVar (P : Type) := {
  cv_waiting : P → bool;
  cv_woken : P → P;
  cv_woken_awake : ∀ p, cv_waiting p = true → cv_waiting (cv_woken p) = false
}.

Section condvar.
Context {P : Type} `{CondVar P}.
Implicit Types (ws : list P) (p : P) (i : nat).

(** Thread [i] leaves [wait]: by a notification or spuriously. *)
Definition wake i ws : outcome (list P) :=
  match ws !! i with
  | Some p => if cv_waiting p then Ok (<[i:=cv_woken p]> ws) else Blocked
  | None => Blocked
  end.

(** [notify_one] wakes one waiter, the scheduler's choice; with no waiter it
    does nothing ([None] is the only possible choice). *)
Definition notify_one (choice : option nat) ws : outcome (list P) :=
  match choice with
  | Some i => wake i ws
  | None => if existsb cv_waiting ws then Blocked else Ok ws
  end.

Definition notify_all ws : list P :=
  (λ p, if cv_waiting p then cv_woken p else p) <$> ws.

Lemma wake_Ok i ws ws' :
  wake i ws = Ok ws' ↔
  ∃ p, ws !! i = Some p ∧ cv_waiting p = true ∧ ws' = <[i:=cv_woken p]> ws.
Proof.
  unfold wake. destruct (ws !! i) as [p |]; [| split; [done | by intros (? & ? & _)]].
  destruct (cv_waiting p) eqn:Hp; split; try done.
  - intros [= <-]. by exists p.
  - by intros (? & [= ->] & _ & ->).
  - intros (? & [= ->] & ? & _). congruence.
Qed.

Lemma wake_not_UB i ws : wake i ws ≠ UB.
Proof. unfold wake. by repeat case_match. Qed.

Lemma notify_one_Ok c ws ws' :
  notify_one c ws = Ok ws' ↔
  (c = None ∧ ws' = ws ∧ ∀ i p, ws !! i = Some p → cv_waiting p = false) ∨
  (∃ i p, c = Some i ∧ ws !! i = Some p ∧ cv_waiting p = true ∧ ws' = <[i:=cv_woken p]> ws).
Proof.
  destruct c as [i |]; simpl.
  - rewrite wake_Ok. split; [intros (p & ? & ? & ?); right; eauto 6 |].
    intros [(? & _) | (? & p & [= ->] & ? & ? & ?)]; [done | eauto].
  - destruct (existsb cv_waiting ws) eqn:E; split; try done.
    + intros [(_ & _ & Hall) | (? & ? & ? & _)]; [| done].
      apply existsb_exists in E as (p & [i Hi]%list_elem_of_In%list_elem_of_lookup & Hp).
      by rewrite (Hall i p Hi) in Hp.
    + intros [= <-]. left. split_and!; [done .. |]. intros i p Hi.
      destruct (cv_waiting p) eqn:Hp; [| done]. rewrite <- E. symmetry.
      apply existsb_exists. exists p. split; [| done].
      apply list_elem_of_In, list_elem_of_lookup. by exists i.
    + intros [(_ & -> & _) | (? & ? & ? & _)]; done.
Qed.

Lemma notify_one_not_UB c ws : notify_one c ws ≠ UB.
Proof. destruct c; simpl; [apply wake_not_UB | by case_match]. Qed.

(** Some choice is always possible. *)
Lemma notify_one_possible ws : ∃ c ws', notify_one c ws = Ok ws'.
Proof.
  destruct (existsb cv_waiting ws) eqn:E.
  - apply existsb_exists in E as (p & [i Hi]%list_elem_of_In%list_elem_of_lookup & Hp).
    exists (Some i), (<[i:=cv_woken p]> ws). apply wake_Ok. eauto.
  - exists None, ws. simpl. by rewrite E.
Qed.

Lemma notify_all_lookup ws i :
  notify_all ws !! i = (λ p, if cv_waiting p then cv_woken p else p) <$> ws !! i.
Proof. apply list_lookup_fmap. Qed.

Lemma notify_all_awake ws i p : notify_all ws !! i = Some p → cv_waiting p = false.
Proof.
  rewrite notify_all_lookup. destruct (ws !! i) as [q |]; simpl; [| done].
  intros [= <-]. destruct (cv_waiting q) eqn:E; [by apply cv_woken_awake | done].
Qed.

(** Waiters hold nothing, before and after a notification. *)
Lemma notify_all_omap {B} (f : P → option B) ws :
  (∀ p, cv_waiting p = true → f p = None ∧ f (cv_woken p) = None) →
  omap f (notify_all ws) = omap f ws.
Proof.
  intros Hf. unfold notify_all. induction ws as [| p ws IH]; csimpl; [done |].
  rewrite IH. destruct (cv_waiting p) eqn:E; [| done].
  by destruct (Hf p E) as [-> ->].
Qed.

Lemma notify_all_sum (f : P → nat) k ws :
  (∀ p, cv_waiting p = true → f (cv_woken p) ≤ f p + k) →
  sum_list_with f (notify_all ws) ≤ sum_list_with f ws + k * length ws.
Proof.
  intros Hf. apply sum_list_with_fmap_le. intros p.
  destruct (cv_waiting p) eqn:E; [by apply Hf | lia].
Qed.

Lemma notify_all_weight (f : P → nat) ws :
  (∀ p, cv_waiting p = true → f (cv_woken p) = f p) →
  sum_list_with f (notify_all ws) = sum_list_with f ws.
Proof.
  intros Hf. unfold notify_all. induction ws as [| p ws IH]; csimpl; [done |].
  rewrite IH. destruct (cv_waiting p) eqn:E; [by rewrite Hf | done].
Qed.

Lemma notify_all_length ws : length (notify_all ws) = length ws.
Proof. apply length_fmap. Qed.
End condvar.

(** The lemmas that turn a completed lock or wake-up into what it did. *)
Ltac sync_inv :=
  repeat match goal with
  | H : mutex_lock _ _ = Ok _ |- _ => apply mutex_lock_Ok in H as [? ?]
  | H : mutex_unlock _ _ = Ok _ |- _ => apply mutex_unlock_Ok in H as [? ?]
  | H : mutex_lock _ _ = UB |- _ => apply mutex_lock_UB in H
  | H : mutex_unlock _ _ = UB |- _ => apply mutex_unlock_UB in H
  | H : wake _ _ = Ok _ |- _ => apply wake_Ok in H as (? & ? & ? & ?)
  | H : wake _ _ = UB |- _ => by apply wake_not_UB in H
  | H : notify_one _ _ = UB |- _ => by apply notify_one_not_UB in H
  | H : notify_one _ _ = Ok _ |- _ =>
      apply notify_one_Ok in H as [(? & ? & ?) | (? & ? & ? & ? & ? & ?)]
  end; simplify_eq/=.

(** Looking up a thread in a goal about the threads after a step. *)
Ltac threads_simpl :=
  repeat match goal with
  | Hi : ?l !! ?i = Some _ |- context [<[?i:=_]> ?l !! _] =>
      rewrite (lookup_moved _ _ _ _ _ _ Hi)
  end;
  rewrite ?notify_all_lookup.
