(* ===== verification/ThreadPool.v ===== *)
(** [fixed_thread_pool] of [code/concurrent/threadpool.cpp] (and its copy in
    [code/concurrent/sum.cpp]): [thread_count] detached workers share a task
    queue, a mutex, a condition variable and a shutdown flag.  One owner thread
    submits tasks and finally destroys the pool. *)

From S2P Require Import Prelude Sync.

Section fixed_thread_pool.
Context {T : Type}.

(** The agents that may own [mtx_]. *)
Inductive agent := Owner | Worker (i : nat).
#[export] Instance agent_eq_dec : EqDecision agent.
Proof. solve_decision. Defined.

(** Where a worker is in the lambda of the constructor. *)
Inductive wpc :=
  | WLock                (* constructing [lk]: about to lock [mtx_] *)
  | WLoop                (* at the head of [for (;;)], [mtx_] held *)
  | WRun (current : T)   (* [mtx_] released, running [current()] *)
  | WRelock              (* task done, at [lk.lock()] *)
  | WWait                (* inside [cond_.wait(lk)] *)
  | WWoken               (* notified, taking [mtx_] again *)
  | WDone.               (* out of the loop, [mtx_] released *)

(** Where the owner thread is. *)
Inductive opc :=
  | OIdle                (* between two operations on the pool *)
  | OPush (task : T)     (* [execute]: [mtx_] held *)
  | ONotify              (* [execute]: [mtx_] released, at [notify_one] *)
  | OShutdown            (* destructor: [mtx_] held *)
  | ONotifyAll           (* destructor: at [notify_all] *)
  | ODone.               (* the pool object is destroyed *)

#[export] Instance wpc_condvar : CondVar wpc := {
  cv_waiting w := match w with WWait => true | _ => false end;
  cv_woken _ := WWoken;
  cv_woken_awake _ _ := eq_refl
}.

(** [struct data], the threads, and the history of the tasks. *)
Record pool := Pool {
  mtx_ : option agent;
  is_shutdown_ : bool;
  tasks_ : list T;
  workers : list wpc;
  owner : opc;
  submitted : list T;
  started : list T;
  finished : list T
}.

Definition pool_init (thread_count : nat) : pool :=
  Pool None false [] (replicate thread_count WLock) OIdle [] [] [].

Definition set_worker i w p :=
  Pool (mtx_ p) (is_shutdown_ p) (tasks_ p) (<[i:=w]> (workers p)) (owner p)
    (submitted p) (started p) (finished p).
Definition set_mtx m p :=
  Pool m (is_shutdown_ p) (tasks_ p) (workers p) (owner p) (submitted p) (started p) (finished p).
Definition set_owner o p :=
  Pool (mtx_ p) (is_shutdown_ p) (tasks_ p) (workers p) o (submitted p) (started p) (finished p).
Definition set_workers ws p :=
  Pool (mtx_ p) (is_shutdown_ p) (tasks_ p) ws (owner p) (submitted p) (started p) (finished p).

(** [tasks_.front()] and [tasks_.pop()]. *)
Definition pop_task (current : T) rest p :=
  Pool (mtx_ p) (is_shutdown_ p) rest (workers p) (owner p)
    (submitted p) (started p ++ [current]) (finished p).
(** [tasks_.emplace(task)]. *)
Definition emplace_task (task : T) p :=
  Pool (mtx_ p) (is_shutdown_ p) (tasks_ p ++ [task]) (workers p) (owner p)
    (submitted p ++ [task]) (started p) (finished p).
(** [current()] returned. *)
Definition finish_task (current : T) p :=
  Pool (mtx_ p) (is_shutdown_ p) (tasks_ p) (workers p) (owner p)
    (submitted p) (started p) (finished p ++ [current]).
Definition shut_down p :=
  Pool (mtx_ p) true (tasks_ p) (workers p) (owner p) (submitted p) (started p) (finished p).

(** One step of worker [i]. *)
Definition worker_step i p : outcome pool :=
  match workers p !! i with
  | None | Some WWait | Some WDone => Blocked
  | Some WLock | Some WRelock | Some WWoken =>
      m ← mutex_lock (Worker i) (mtx_ p);
      Ok (set_worker i WLoop (set_mtx m p))
  | Some WLoop =>
      m ← mutex_unlock (Worker i) (mtx_ p);
      match tasks_ p with
      | current :: rest => Ok (set_worker i (WRun current) (pop_task current rest (set_mtx m p)))
      | [] =>
          if is_shutdown_ p then Ok (set_worker i WDone (set_mtx m p))
          else Ok (set_worker i WWait (set_mtx m p))
      end
  | Some (WRun current) => Ok (set_worker i WRelock (finish_task current p))
  end.

(** [execute(task)] and the destructor, up to holding [mtx_]. *)
Definition execute task p : outcome pool :=
  match owner p with
  | OIdle => m ← mutex_lock Owner (mtx_ p); Ok (set_owner (OPush task) (set_mtx m p))
  | ODone => UB
  | _ => Blocked
  end.

Definition destroy p : outcome pool :=
  match owner p with
  | OIdle => m ← mutex_lock Owner (mtx_ p); Ok (set_owner OShutdown (set_mtx m p))
  | ODone => UB
  | _ => Blocked
  end.

(** The rest of [execute] and of the destructor; [choice] is the waiter
    [notify_one] wakes. *)
Definition owner_step choice p : outcome pool :=
  match owner p with
  | OIdle | ODone => Blocked
  | OPush task =>
      m ← mutex_unlock Owner (mtx_ p);
      Ok (set_owner ONotify (emplace_task task (set_mtx m p)))
  | ONotify =>
      ws ← notify_one choice (workers p);
      Ok (set_owner OIdle (set_workers ws p))
  | OShutdown =>
      m ← mutex_unlock Owner (mtx_ p);
      Ok (set_owner ONotifyAll (shut_down (set_mtx m p)))
  | ONotifyAll => Ok (set_owner ODone (set_workers (notify_all (workers p)) p))
  end.

Inductive label :=
  | LWorker (i : nat)
  | LOwner (choice : option nat)
  | LSpurious (i : nat)
  | LExecute (task : T)
  | LDestroy.

Definition step l p : outcome pool :=
  match l with
  | LWorker i => worker_step i p
  | LOwner choice => owner_step choice p
  | LSpurious i => ws ← wake i (workers p); Ok (set_workers ws p)
  | LExecute task => execute task p
  | LDestroy => destroy p
  end.

Definition pool_machine n : machine := Machine pool label (λ p, p = pool_init n) step.

(** The steps the pool takes on its own: not the calls of its owner, and no
    spurious wake-up. *)
Definition internal l : Prop := match l with LWorker _ | LOwner _ => True | _ => False end.

(** The tasks being run. *)
Definition running_of w : option T := match w with WRun t => Some t | _ => None end.
Definition running p : list T := omap running_of (workers p).

(** The pool has nothing left to do. *)
Definition settled p : Prop :=
  tasks_ p = [] ∧ finished p ≡ₚ submitted p ∧
  (is_shutdown_ p = true → Forall (λ w, w = WDone) (workers p)).

(** * Invariants *)

Definition lock_inv p : Prop :=
  (∀ i, workers p !! i = Some WLoop ↔ mtx_ p = Some (Worker i)) ∧
  (mtx_ p = Some Owner ↔ match owner p with OPush _ | OShutdown => True | _ => False end).

Definition task_inv p : Prop :=
  submitted p = started p ++ tasks_ p ∧ started p ≡ₚ finished p ++ running p.

Definition shutdown_inv p : Prop :=
  (is_shutdown_ p = true ↔ match owner p with ONotifyAll | ODone => True | _ => False end) ∧
  (∀ i, workers p !! i = Some WDone → is_shutdown_ p = true ∧ tasks_ p = []) ∧
  (owner p = ODone → ∀ i, workers p !! i ≠ Some WWait).

(** A worker that will look at the queue again. *)
Definition awake w : Prop := match w with WWait | WDone => False | _ => True end.

(** No wake-up is lost: while tasks are queued, a notification is due or
    some worker is awake. *)
Definition wakeup_inv p : Prop :=
  tasks_ p ≠ [] → owner p = ONotify ∨ ∃ i w, workers p !! i = Some w ∧ awake w.
End fixed_thread_pool.

Arguments wpc : clear implicits.
Arguments opc : clear implicits.
Arguments pool : clear implicits.
Arguments label : clear implicits.
Arguments pool_machine T n : clear implicits.

(** Cases of a step of the pool. *)
Ltac pool_step l :=
  destruct l; unfold step, worker_step, owner_step, execute, destroy in *;
  step_inv; sync_inv;
  try match goal with
  | Hx : context [match ?x with _ => _ end] |- _ =>
      lazymatch type of Hx with _ = true => is_var x; destruct x; simplify_eq/= end
  end.

Section proofs.
Context {T : Type} (n : nat).
Implicit Types (p : pool T) (w : wpc T).

(** Follows the state of one thread through a goal. *)
Ltac by_thread j :=
  intros j; threads_simpl;
  repeat match goal with Hj : ∀ i : nat, _ |- _ => specialize (Hj j) end;
  try match goal with |- context [_ <$> ?l !! j] => destruct (l !! j) as [[] |] eqn:? end;
  first [intuition congruence | naive_solver].

Lemma lock_inv_step l p p' : lock_inv p → step l p = Ok p' → lock_inv p'.
Proof.
  intros [Hw Ho] Hs. pool_step l; unfold lock_inv; simpl;
    (split; [by_thread j | naive_solver]).
Qed.

Lemma task_inv_step l p p' : task_inv p → step l p = Ok p' → task_inv p'.
Proof.
  intros [Hq Hr] Hs. unfold running in *.
  pool_step l; unfold task_inv, running; simpl;
    rewrite ?notify_all_omap by (by intros []); (split; [rewrite Hq, <- ?app_assoc; done || congruence |]);
    try done; try (by erewrite omap_insert_none).
  - rewrite (omap_insert_add _ _ i WLoop _ t) by done. rewrite Hr, <- app_assoc.
    by rewrite <- (Permutation_cons_append (omap _ _)).
  - rewrite Hr, <- app_assoc. simpl.
    by rewrite (omap_insert_del _ _ i (WRun current) WRelock current) by done.
Qed.

Lemma shutdown_inv_step l p p' :
  shutdown_inv p → step l p = Ok p' → shutdown_inv p'.
Proof.
  intros (Hs1 & Hs2 & Hs3) Hs. unfold shutdown_inv.
  pool_step l; simpl;
    (split_and!; [clear Hs2 Hs3; naive_solver | clear Hs3; by_thread j
                 | clear Hs2; intros Hd; try discriminate Hd;
                   rewrite ?Hd in Hs1; try specialize (Hs3 Hd); by_thread j]).
Qed.

Lemma length_step l p p' : step l p = Ok p' → length (workers p') = length (workers p).
Proof.
  intros Hs. pool_step l; rewrite ?length_insert, ?notify_all_length; congruence.
Qed.

Lemma awake_moved (ws : list (wpc T)) i x y :
  ws !! i = Some x → awake y → ∃ j w, <[i:=y]> ws !! j = Some w ∧ awake w.
Proof. intros Hi Hy. exists i, y. by rewrite list_lookup_insert_eq by by eapply lookup_lt_Some. Qed.

Lemma awake_notified (ws : list (wpc T)) j w :
  ws !! j = Some w → awake w → ∃ j w, notify_all ws !! j = Some w ∧ awake w.
Proof. intros Hj Hw. exists j, w. rewrite notify_all_lookup, Hj. by destruct w. Qed.

(** When [notify_one] finds no waiter, every worker is awake. *)
Lemma no_waiter_awake p :
  0 < length (workers p) → shutdown_inv p → owner p = ONotify →
  (∀ i w, workers p !! i = Some w → cv_waiting w = false) →
  ∃ i w, workers p !! i = Some w ∧ awake w.
Proof.
  intros Hlen (Hs1 & Hs2 & _) Ho Hnone.
  destruct (lookup_lt_is_Some_2 (workers p) 0 Hlen) as [w Hw].
  exists 0, w. split; [done |]. specialize (Hnone 0 w Hw).
  destruct w; try done. destruct (Hs2 0 Hw) as [Hd _].
  rewrite Ho in Hs1. tauto.
Qed.

Lemma wakeup_inv_step l p p' :
  0 < length (workers p) → shutdown_inv p →
  wakeup_inv p → step l p = Ok p' → wakeup_inv p'.
Proof.
  intros Hlen Hsd Hinv Hs. unfold wakeup_inv in *. pool_step l; simpl; try done;
    try (intros _; right; by eapply awake_moved); try by left.
  - intros _. right. by apply no_waiter_awake.
  - intros Ht. destruct (Hinv Ht) as [| ?]; [congruence | by right].
  - intros Ht. destruct (Hinv Ht) as [| (j & w & Hj & Hw)]; [congruence | right].
    by eapply awake_notified.
  - intros Ht. destruct (Hinv Ht) as [| ?]; [congruence | by right].
  - intros Ht. destruct (Hinv Ht) as [| ?]; [congruence | by right].
Qed.

(** All of them hold in every reachable state. *)
Record pool_inv p : Prop := {
  inv_lock : lock_inv p;
  inv_task : task_inv p;
  inv_shutdown : shutdown_inv p;
  inv_length : length (workers p) = n;
  inv_wakeup : 0 < n → wakeup_inv p
}.

Lemma pool_inv_init : pool_inv (pool_init n).
Proof.
  assert (∀ i w, workers (pool_init (T:=T) n) !! i = Some w → w = WLock) as Hall.
  { intros i w [-> _]%lookup_replicate_1. done. }
  split; simpl.
  - split; simpl; [| by split]. intros i. split; [intros Hi%Hall; discriminate | done].
  - split; [done |]. simpl. unfold running. simpl.
    replace (omap running_of (replicate n WLock)) with (@nil T); [done |].
    clear Hall. induction n as [| k IH]; [done | exact IH].
  - split_and!; simpl; [by split | | done]. intros i Hi%Hall. discriminate.
  - apply length_replicate.
  - intros _ Ht. by destruct Ht.
Qed.

Lemma pool_inv_reachable (p : mstate (pool_machine T n)) : reachable p → pool_inv p.
Proof.
  revert p. apply (invariant_ind (pool_machine T n)).
  - intros p ->. apply pool_inv_init.
  - intros l p p' _ [Hl Ht Hsd Hlen Hw] Hs. change (step l p = Ok p') in Hs. split.
    + by eapply lock_inv_step.
    + by eapply task_inv_step.
    + by eapply shutdown_inv_step.
    + by rewrite (length_step _ _ _ Hs).
    + intros Hn. eapply wakeup_inv_step; eauto. lia.
Qed.

(** * Progress and termination *)

#[local] Instance awake_dec w : Decision (awake w).
Proof. destruct w; simpl; apply _. Defined.

(** The thread that holds [mtx_] can always release it. *)
Lemma holder_steps p :
  lock_inv p → mtx_ p ≠ None → ∃ l p', internal l ∧ step l p = Ok p'.
Proof.
  intros [Hw Ho] Hm. destruct (mtx_ p) as [[| i] |] eqn:E; [| | done].
  - destruct Ho as [Ho _]. specialize (Ho eq_refl). exists (LOwner None).
    unfold step, owner_step. rewrite E, mutex_unlock_own.
    destruct (owner p); try done; simpl; eauto.
  - destruct (Hw i) as [_ Hi]. specialize (Hi eq_refl). exists (LWorker i).
    unfold step, worker_step. rewrite Hi, E, mutex_unlock_own. simpl.
    destruct (tasks_ p); [destruct (is_shutdown_ p) |]; eauto.
Qed.

(** With [mtx_] free, an awake worker can move. *)
Lemma awake_steps p i w :
  lock_inv p → mtx_ p = None → workers p !! i = Some w → awake w →
  ∃ l p', internal l ∧ step l p = Ok p'.
Proof.
  intros [Hw _] Hm Hi Ha. exists (LWorker i). unfold step, worker_step.
  rewrite Hi, Hm. destruct w; try done; simpl; eauto.
  apply Hw in Hi. congruence.
Qed.

Lemma asleep_settled p :
  pool_inv p → 0 < n → (owner p = OIdle ∨ owner p = ODone) →
  ¬ Exists awake (workers p) → settled p.
Proof.
  intros [_ [Hq Hr] (Hs1 & _ & Hs3) _ Hwk] Hn Ho Hnone.
  assert (∀ w, w ∈ workers p → ¬ awake w) as Hall.
  { intros w Hin Ha. apply Hnone, Exists_exists. eauto. }
  assert (tasks_ p = []) as Ht.
  { destruct (tasks_ p) as [| t ts] eqn:E; [done |]. exfalso.
    assert (tasks_ p ≠ []) as Hne by congruence.
    destruct (Hwk Hn Hne) as [Hnot | (i & w & Hi & Ha)]; [destruct Ho; congruence |].
    apply (Hall w); [by eapply list_elem_of_lookup_2 | done]. }
  assert (running p = []) as Hrun.
  { unfold running. clear -Hall. induction (workers p) as [| w ws IH]; [done |].
    csimpl. assert (running_of w = None) as ->.
    { destruct w; try done. destruct (Hall (WRun current)); [apply list_elem_of_here | done]. }
    apply IH. intros w' Hin. apply Hall. by apply list_elem_of_further. }
  split_and!; [done | |].
  - rewrite Hq, Ht, Hr, Hrun. by rewrite !app_nil_r.
  - intros Hsd. apply Hs1 in Hsd. destruct Ho as [Ho | Ho]; rewrite Ho in Hsd; [done |].
    apply Forall_forall. intros w Hin. pose proof (Hall w Hin) as Hna.
    apply list_elem_of_lookup in Hin as [i Hi]. specialize (Hs3 Ho i).
    by destruct w.
Qed.

Lemma pool_inv_progress p :
  pool_inv p → 0 < n → settled p ∨ ∃ l p', internal l ∧ step l p = Ok p'.
Proof.
  intros Hinv Hn. pose proof (inv_lock p Hinv) as Hl.
  destruct (mtx_ p) as [a |] eqn:Hm; [right; apply holder_steps; congruence |].
  destruct (decide (Exists awake (workers p))) as [Hex | Hnone].
  { apply Exists_exists in Hex as (w & [i Hi]%list_elem_of_lookup & Ha). right.
    by eapply awake_steps. }
  destruct (owner p) as [| task | | | |] eqn:Ho.
  - left. apply asleep_settled; auto.
  - destruct Hl as [_ Hl]. rewrite Ho in Hl. destruct Hl as [_ Hl]. specialize (Hl I). congruence.
  - right. destruct (notify_one_possible (workers p)) as (c & ws & E).
    exists (LOwner c). unfold step, owner_step. rewrite Ho, E. simpl. eauto.
  - destruct Hl as [_ Hl]. rewrite Ho in Hl. destruct Hl as [_ Hl]. specialize (Hl I). congruence.
  - right. exists (LOwner None). unfold step, owner_step. rewrite Ho. simpl. eauto.
  - left. apply asleep_settled; auto.
Qed.

(** What is left to do before the pool comes to rest. *)
Definition wweight w : nat :=
  match w with
  | WRun _ => 3 | WLock | WRelock | WWoken => 2 | WLoop => 1 | WWait | WDone => 0
  end.
Definition oweight (o : opc T) : nat :=
  match o with
  | OIdle | ODone => 0 | ONotify => 3 | OPush _ => 7
  | ONotifyAll => 2 * n + 1 | OShutdown => 2 * n + 2
  end.
Definition weight p : nat :=
  sum_list_with wweight (workers p) + 3 * length (tasks_ p) + oweight (owner p).

Lemma internal_decreases l p p' :
  length (workers p) = n → internal l → step l p = Ok p' → weight p' < weight p.
Proof.
  intros Hlen Hl Hs. unfold weight. destruct l; try done; clear Hl.
  - unfold step, worker_step in Hs. step_inv; sync_inv;
      match goal with |- context [<[?i:=?y]> _] =>
        pose proof (sum_list_with_insert wweight _ _ _ y Heqo) end; simpl in *; rewrite ?Heql; simpl; lia.
  - unfold step, owner_step in Hs. step_inv; sync_inv; rewrite ?length_app; simpl; try lia.
    + match goal with H1 : workers p !! ?i = Some ?x |- _ =>
        pose proof (sum_list_with_insert wweight _ _ _ WWoken H1) end. simpl in *. lia.
    + assert (sum_list_with wweight (notify_all (workers p)) ≤
              sum_list_with wweight (workers p) + 2 * length (workers p)) as Hsum.
      { apply notify_all_sum. intros []; simpl; lia. }
      lia.
Qed.
End proofs.

(** * The properties *)

(** C3. Whatever the interleaving, no task is lost, duplicated or overtaken:
    the tasks submitted are those started, in the order of submission, followed
    by those still queued, and every started task is either finished or being
    run by exactly one worker. *)
Theorem pool_fifo {T} n (p : mstate (pool_machine T n)) :
  reachable p →
  submitted p = started p ++ tasks_ p ∧ started p ≡ₚ finished p ++ running p.
Proof. intros [_ Ht _ _ _]%pool_inv_reachable. exact Ht. Qed.

(** C4. The pool never unlocks a mutex it does not hold nor locks one it does
    hold: the only undefined behaviour is a call on a destroyed pool. *)
Theorem pool_no_ub {T} n (p : mstate (pool_machine T n)) l :
  reachable p → step l p = UB → owner p = ODone ∧ (l = LDestroy ∨ ∃ task, l = LExecute task).
Proof.
  intros Hr%pool_inv_reachable. destruct (inv_lock n p Hr) as [Hw Ho].
  intros Hs. destruct l as [i | c | i | task |];
    unfold step, worker_step, owner_step, execute, destroy in Hs; step_inv; sync_inv;
    try (by eauto); exfalso;
    first [tauto | apply Hw in Hs; congruence | apply Hw in Heqo; congruence].
Qed.

(** C2. No deadlock and no lost wake-up: with at least one worker, from every
    reachable state the pool comes to rest after finitely many steps of its own,
    whatever the order in which they are taken, and it only rests once every
    submitted task has finished and, if it was destroyed, every worker has
    left its loop. *)
Theorem pool_completes {T} n (p : mstate (pool_machine T n)) :
  0 < n → reachable p →
  sn (msteps (pool_machine T n) internal) p ∧
  ∀ p', rtc (msteps (pool_machine T n) internal) p p' →
    settled p' ∨ ∃ p'', msteps (pool_machine T n) internal p' p''.
Proof.
  intros Hn Hr. split.
  - apply (sn_measure (pool_machine T n) internal (weight n)); [| done]. intros l p1 p2 Hr1%pool_inv_reachable Hl Hs.
    eapply internal_decreases; eauto using inv_length.
  - intros p' Hsteps.
    assert (pool_inv n p') as Hinv by (eapply pool_inv_reachable, reachable_msteps; eauto).
    destruct (pool_inv_progress n p' Hinv Hn) as [| (l & p'' & Hl & Hs)]; [by left | right].
    exists p'', l. by split.
Qed.

(** * The contract of the pool: a first-in first-out task queue with
    [n] servers *)
Section task_queue.
Context {T : Type} `{EqDecision T} (n : nat).

Record task_queue := TaskQueue {
  queued : list T;           (* submitted, not started *)
  serving : list (option T); (* what each server is busy with *)
  completed : list T;
  closed : bool
}.

(** What is seen of a pool: the calls of its owner and, on each thread, the
    start and the end of a task, and the end of the thread. *)
Inductive task_event :=
  | Submit (t : T)
  | Close
  | Start (i : nat) (t : T)
  | Complete (i : nat) (t : T)
  | Exit (i : nat).

(** A task is submitted while the queue is open; an idle server starts the
    oldest task queued and no other, completes the task it is busy with, and
    leaves only when the queue is closed and empty. *)
Definition task_step e q : outcome task_queue :=
  match e with
  | Submit t =>
      _ ← await (negb (closed q));
      Ok (TaskQueue (queued q ++ [t]) (serving q) (completed q) (closed q))
  | Close =>
      _ ← await (negb (closed q));
      Ok (TaskQueue (queued q) (serving q) (completed q) true)
  | Start i t =>
      match queued q with
      | t' :: ts =>
          _ ← await (bool_decide (t = t' ∧ serving q !! i = Some None));
          Ok (TaskQueue ts (<[i:=Some t]> (serving q)) (completed q) (closed q))
      | [] => Blocked
      end
  | Complete i t =>
      _ ← await (bool_decide (serving q !! i = Some (Some t)));
      Ok (TaskQueue (queued q) (<[i:=None]> (serving q)) (completed q ++ [t]) (closed q))
  | Exit i =>
      _ ← await (closed q && bool_decide (queued q = [] ∧ serving q !! i = Some None));
      Ok q
  end.

Definition task_queue_init : task_queue := TaskQueue [] (replicate n None) [] false.
Definition task_machine : machine :=
  Machine task_queue task_event (λ q, q = task_queue_init) task_step.

(** The tasks of a trace, in order. *)
Definition submits es : list T := omap (λ e, match e with Submit t => Some t | _ => None end) es.
Definition starts es : list T := omap (λ e, match e with Start _ t => Some t | _ => None end) es.

(** A trace of the contract starts the tasks in the order they were submitted. *)
Lemma task_queue_order es q q' :
  exec task_machine es q = Ok q' → queued q ++ submits es = starts es ++ queued q'.
Proof.
  revert q. induction es as [| e es IH]; intros q He; simpl in He.
  - simplify_eq. simpl. by rewrite app_nil_r.
  - apply bind_Ok in He as (q1 & Hs & He). specialize (IH q1 He).
    destruct e; simpl in Hs; step_inv; repeat case_bool_decide; csimpl in *;
      rewrite <- ?app_assoc in IH; simpl in *; destruct_and?; congruence.
Qed.

(** What is observed of the pool. A submission is the call of [execute] and a
    closure that of the destructor; a task starts when a thread is about to call
    it and is completed when the call returned. *)
Definition pool_event (l : label T) (p p' : pool T) : option task_event :=
  match l with
  | LExecute task => Some (Submit task)
  | LDestroy => Some Close
  | LWorker i =>
      match workers p !! i, workers p' !! i with
      | Some (WRun t), _ => Some (Complete i t)
      | _, Some (WRun t) => Some (Start i t)
      | _, Some WDone => Some (Exit i)
      | _, _ => None
      end
  | LOwner _ | LSpurious _ => None
  end.

(** The queue the pool stands for: a task whose [execute] was called is queued,
    and the pool is closed once its destructor runs. *)
Definition pool_abs (p : pool T) : task_queue :=
  TaskQueue
    (tasks_ p ++ match owner p with OPush t => [t] | _ => [] end)
    (running_of <$> workers p) (finished p)
    (match owner p with OShutdown | ONotifyAll | ODone => true | _ => false end).

(** A step of a worker that neither takes nor ends a task. *)
Lemma serving_moved (ws : list (wpc T)) i x y :
  ws !! i = Some x → running_of x = running_of y → running_of <$> <[i:=y]> ws = running_of <$> ws.
Proof.
  intros Hi Hxy. rewrite list_fmap_insert. apply list_insert_id.
  rewrite list_lookup_fmap, Hi. simpl. congruence.
Qed.

Lemma serving_notified (ws : list (wpc T)) :
  running_of <$> notify_all ws = running_of <$> ws.
Proof.
  apply list_eq. intros i. rewrite !list_lookup_fmap, notify_all_lookup.
  by destruct (ws !! i) as [[] |].
Qed.

Lemma pool_sim l (p p' : pool T) :
  shutdown_inv p → step l p = Ok p' →
  exec task_machine (option_list (pool_event l p p')) (pool_abs p) = Ok (pool_abs p').
Proof.
  intros (Hsd & _) Hs. pool_step l; cbn [pool_event option_list exec];
    try (rewrite (list_lookup_insert_eq (workers p)) by (by eapply lookup_lt_Some);
         match goal with Hi : workers p !! _ = _ |- _ => rewrite Hi end);
    unfold pool_abs; simpl;
    repeat match goal with Ho : owner p = _ |- _ => rewrite Ho in *; clear Ho end; simpl;
    rewrite ?app_nil_r, ?app_assoc, ?serving_notified;
    try reflexivity; try by erewrite serving_moved.
  - (* leaving *) rewrite Heql. destruct (owner p); try tauto; simpl;
      (rewrite bool_decide_true by (by rewrite list_lookup_fmap, Heqo));
      simpl; by erewrite serving_moved.
  - (* starting *) rewrite Heql. simpl.
    rewrite bool_decide_true by (by rewrite list_lookup_fmap, Heqo). simpl.
    by rewrite list_fmap_insert.
  - (* completing *) rewrite bool_decide_true by (by rewrite list_lookup_fmap, Heqo).
    simpl. by rewrite list_fmap_insert.
Qed.

Lemma pool_abs_init : pool_abs (pool_init n) = task_queue_init.
Proof. unfold pool_abs. simpl. by rewrite fmap_replicate. Qed.

#[export] Instance pool_refines : TraceRefines (pool_machine T n) task_machine.
Proof.
  refine {| tr_abs := pool_abs : mstate (pool_machine T n) → mstate task_machine;
            tr_event := pool_event : mlabel (pool_machine T n) → _ → _ → option (mlabel task_machine) |}.
  - intros p ->. apply pool_abs_init.
  - intros l p p' Hr. apply pool_sim. by eapply inv_shutdown, pool_inv_reachable.
Defined.
End task_queue.

(** C1. The pool implements a first-in first-out task queue with [n] servers:
    along every run, whatever the interleaving, the calls of the owner and the
    starts and ends of the tasks are a run of the abstract queue, in which an
    idle server may only start the oldest task submitted and not yet started,
    completes exactly that task, and leaves only once the queue was closed and
    is empty; so the tasks started, in the order in which their calls are
    observed, are a prefix of those submitted. *)
Theorem pool_implements_queue {T} `{EqDecision T} n (ls : list (label T)) p :
  exec (pool_machine T n) ls (pool_init n) = Ok p →
  let trace := observed (pool_machine T n) pool_event ls (pool_init n) in
  exec (task_machine n) trace (task_queue_init n) = Ok (pool_abs p) ∧
  submits trace = starts trace ++ queued (pool_abs p).
Proof.
  intros He trace.
  pose proof (trace_refines_exec (pool_refines n) ls (pool_init n) p
    (reachable_init (pool_machine T n) _ eq_refl) He) as Ht.
  simpl in Ht. rewrite pool_abs_init in Ht.
  split; [exact Ht |]. exact (task_queue_order n trace _ _ Ht).
Qed.

(** * Concrete runs *)

(** Two workers; the owner submits two tasks and destroys the pool. *)
Definition demo_schedule : list (label nat) :=
  [LExecute 10; LOwner None; LOwner None; LWorker 0; LWorker 0; LWorker 1; LWorker 1;
   LExecute 20; LOwner None; LOwner (Some 1)].

Lemma pool_fifo_witness :
  ∃ p : mstate (pool_machine nat 2), reachable p ∧ started p = [10] ∧ tasks_ p = [20] ∧
    submitted p = started p ++ tasks_ p ∧ started p ≡ₚ finished p ++ running p.
Proof.
  eexists. assert (reachable _) as Hr by run_schedule (pool_machine nat 2) demo_schedule.
  split_and!; [exact Hr | reflexivity | reflexivity | apply (pool_fifo 2 _ Hr) ..].
Defined.

Lemma pool_no_ub_witness :
  ∃ p : mstate (pool_machine nat 1), reachable p ∧ step (LExecute 7) p = UB ∧ owner p = ODone.
Proof.
  eexists. assert (reachable _) as Hr by
    run_schedule (pool_machine nat 1) ([LDestroy; LOwner None; LOwner None] : list (label nat)).
  split_and!; [exact Hr | reflexivity |].
  exact (proj1 (pool_no_ub 1 _ (LExecute 7) Hr eq_refl)).
Defined.

Lemma pool_completes_witness :
  ∃ p : mstate (pool_machine nat 2), reachable p ∧ running p = [10] ∧ tasks_ p = [20] ∧
    sn (msteps (pool_machine nat 2) internal) p.
Proof.
  eexists. assert (reachable _) as Hr by run_schedule (pool_machine nat 2) demo_schedule.
  split_and!; [exact Hr | reflexivity | reflexivity |].
  apply (pool_completes 2 _ ltac:(lia) Hr).
Defined.

(** Two tasks that overlap, the first of them completed, then the end. *)
Definition overlap_schedule : list (label nat) :=
  demo_schedule ++ [LWorker 1; LWorker 1; LWorker 0; LDestroy; LOwner None; LOwner None; LWorker 0; LWorker 0].

Lemma pool_implements_queue_witness :
  let trace := observed (pool_machine nat 2) pool_event overlap_schedule (pool_init 2) in
  trace = [Submit 10; Start 0 10; Submit 20; Start 1 20; Complete 0 10; Close; Exit 0] ∧
  exec (task_machine 2) trace (task_queue_init 2) =
    Ok (TaskQueue [] [None; Some 20] [10] true).
Proof.
  split; [vm_compute; reflexivity |].
  assert (∃ p, exec (pool_machine nat 2) overlap_schedule (pool_init 2) = Ok p ∧
    pool_abs p = TaskQueue [] [None; Some 20] [10] true) as (p & Hp & <-)
    by (eexists; split; vm_compute; reflexivity).
  exact (proj1 (pool_implements_queue 2 overlap_schedule p Hp)).
Defined.
