(* ===== verification/PoolDemo.v ===== *)
(** The [main] of [concurrent/threadpool.cpp]: a client of [fixed_thread_pool].
    Thirty tasks print the values of an atomic counter and the numbers 1 to 15.
    The pool is the machine of [ThreadPool] with the bodies of the tasks as
    steps between its own; what the pool promises about its tasks gives what the
    program prints. *)
From S2P Require Import Prelude Sync ThreadPool.
Open Scope Z_scope.

(** [print], and the lambda that captures [i]. *)
Inductive task := Print | Show (i : Z).
(** A line of the output, without the thread's identifier. *)
Inductive line := Count (v : Z) | Number (i : Z).

#[export] Instance task_eq_dec : EqDecision task.
Proof. solve_decision. Defined.
#[export] Instance line_eq_dec : EqDecision line.
Proof. solve_decision. Defined.

(** [hardware_concurrency()-1], an [unsigned int]. *)
Definition thread_count (hardware_concurrency : Z) : Z := (hardware_concurrency - 1) mod 2 ^ 32.

(** What the loop submits. *)
Definition tasks : list task := mjoin ((λ i, [Print; Show i]) <$> seqZ 1 15).

(** Where [main] is: what it has still to submit, in the pool's destructor,
    returned. *)
Inductive mpc := Submit (rest : list task) | Destroying | Exited.

Record state := State {
  thread_pool : pool task;
  global_data : Z;               (* std::atomic<int> *)
  fetched : list (option Z);     (* the value a worker in [print] has taken and not printed *)
  main_pc : mpc;
  out : list line
}.

Section program.
Context (n : nat).

Definition init : state := State (pool_init n) 100 (replicate n None) (Submit tasks) [].

(** [LMain choice]: the main thread; [LThread i]: a worker; [LSpuriousWake i]. *)
Inductive label := LMain (choice : option nat) | LThread (i : nat) | LSpuriousWake (i : nat).

Definition main_step (choice : option nat) (s : state) : outcome state :=
  let at_ m p := State p (global_data s) (fetched s) m (out s) in
  match main_pc s, owner (thread_pool s) with
  | Submit (t :: rest), OIdle => at_ (Submit rest) <$> execute t (thread_pool s)
  | Submit [], OIdle => at_ Destroying <$> destroy (thread_pool s)
  | Destroying, ODone => Ok (at_ Exited (thread_pool s))
  | m, _ => at_ m <$> owner_step choice (thread_pool s)
  end.

(** A worker in a task runs the task's body, and returns from it with its last
    statement; elsewhere it takes a step of the pool's. *)
Definition thread_step (i : nat) (s : state) : outcome state :=
  let ran f o := (λ p, State p (global_data s) f (main_pc s) (out s ++ o)) <$> worker_step i (thread_pool s) in
  match workers (thread_pool s) !! i with
  | Some (WRun Print) =>
      slot ← from_option_ub (fetched s !! i);
      match slot with
      | None => Ok (State (thread_pool s) (global_data s + 1) (<[i := Some (global_data s)]> (fetched s)) (main_pc s) (out s))
      | Some v => ran (<[i := None]> (fetched s)) [Count v]
      end
  | Some (WRun (Show k)) => ran (fetched s) [Number k]
  | _ => ran (fetched s) []
  end.

(** The workers are detached: they run until the process exits. *)
Definition step (l : label) (s : state) : outcome state :=
  match main_pc s with
  | Exited => Blocked
  | _ =>
      match l with
      | LMain choice => main_step choice s
      | LThread i => thread_step i s
      | LSpuriousWake i =>
          ws ← wake i (workers (thread_pool s));
          Ok (State (set_workers ws (thread_pool s)) (global_data s) (fetched s) (main_pc s) (out s))
      end
  end.

Definition pool_demo : machine := Machine state label (λ s, s = init) step.

(** * What the pool's steps do to the tasks being run *)

Definition pending (o : opc task) : list task := match o with OPush t => [t] | _ => [] end.
Definition unsubmitted (m : mpc) : list task := match m with Submit rest => rest | _ => [] end.
Definition shown (t : task) : option Z := match t with Show k => Some k | Print => None end.
Definition is_print (t : task) : option unit := match t with Print => Some tt | _ => None end.
Definition counted (l : line) : option Z := match l with Count v => Some v | _ => None end.
Definition numbered (l : line) : option Z := match l with Number k => Some k | _ => None end.

(** A step that does not end a task keeps the tasks that run, and those that
    have finished. *)
Lemma pool_keeps (l : ThreadPool.label task) p p' :
  ThreadPool.step l p = Ok p' → (∀ i t, l = LWorker i → workers p !! i ≠ Some (WRun t)) →
  finished p' = finished p ∧ ∀ j t, workers p !! j = Some (WRun t) → workers p' !! j = Some (WRun t).
Proof.
  intros Hs Hl. pool_step l; try (exfalso; by eapply Hl); (split; [done |]); simpl; intros j t' Hj;
    rewrite ?notify_all_lookup, ?Hj; try done; rewrite list_lookup_insert_ne; (done || congruence).
Qed.

(** Only [execute] adds to what is or will be submitted. *)
Lemma pool_submits (l : ThreadPool.label task) p p' :
  ThreadPool.step l p = Ok p' →
  submitted p' ++ pending (owner p') =
    (submitted p ++ pending (owner p)) ++ match l with LExecute t => [t] | _ => [] end.
Proof. intros Hs. pool_step l; simpl in *; rewrite ?app_nil_r; (done || congruence || by rewrite ?Heqo). Qed.

(** The program's steps, with the steps of the pool in them. *)
Definition with_pool (p : pool task) (m : mpc) (s : state) : state :=
  State p (global_data s) (fetched s) m (out s).

Inductive demo_case (s : state) : state → Prop :=
  | case_alone m :
      unsubmitted m = unsubmitted (main_pc s) → demo_case s (with_pool (thread_pool s) m s)
  | case_pool a p m :
      ThreadPool.step a (thread_pool s) = Ok p →
      (∀ i t, a = LWorker i → workers (thread_pool s) !! i ≠ Some (WRun t)) →
      unsubmitted (main_pc s) = match a with LExecute t => [t] | _ => [] end ++ unsubmitted m →
      demo_case s (with_pool p m s)
  | case_fetch i :
      workers (thread_pool s) !! i = Some (WRun Print) → fetched s !! i = Some None →
      demo_case s (State (thread_pool s) (global_data s + 1) (<[i := Some (global_data s)]> (fetched s)) (main_pc s) (out s))
  | case_task i t p f o :
      workers (thread_pool s) !! i = Some (WRun t) → ThreadPool.step (LWorker i) (thread_pool s) = Ok p →
      match t with
      | Print => ∃ v, fetched s !! i = Some (Some v) ∧ f = <[i := None]> (fetched s) ∧ o = [Count v]
      | Show k => f = fetched s ∧ o = [Number k]
      end →
      demo_case s (State p (global_data s) f (main_pc s) (out s ++ o)).

Lemma with_pool_run p s : State p (global_data s) (fetched s) (main_pc s) (out s ++ []) = with_pool p (main_pc s) s.
Proof. unfold with_pool. by rewrite app_nil_r. Qed.

Lemma main_step_cases c s s' : main_step c s = Ok s' → demo_case s s'.
Proof.
  intros Hs. unfold main_step in Hs.
  assert (∀ a m, match a with LWorker _ => False | _ => True end →
    unsubmitted (main_pc s) = match a with LExecute t => [t] | _ => [] end ++ unsubmitted m →
    (λ p, State p (global_data s) (fetched s) m (out s)) <$> ThreadPool.step a (thread_pool s) = Ok s' →
    demo_case s s') as Hpool.
  { intros a m Ha Hm (p & Hp & ->)%fmap_Ok. apply (case_pool s a p m); [done | | done]. by intros i t ->. }
  destruct (main_pc s) as [[| t rest] | |] eqn:Em; destruct (owner (thread_pool s)) eqn:Ho;
    first [ by apply (Hpool (LExecute t) (Submit rest)) | by apply (Hpool LDestroy Destroying)
          | by apply (Hpool (LOwner c) (Submit [])) | by apply (Hpool (LOwner c) (Submit (t :: rest)))
          | by apply (Hpool (LOwner c) Destroying) | by apply (Hpool (LOwner c) Exited)
          | idtac ].
  injection Hs as <-. apply (case_alone s Exited). by rewrite Em.
Qed.

Lemma thread_step_cases i s s' : thread_step i s = Ok s' → demo_case s s'.
Proof.
  intros Hs. unfold thread_step in Hs.
  assert ((∀ t, workers (thread_pool s) !! i ≠ Some (WRun t)) →
    (λ p, State p (global_data s) (fetched s) (main_pc s) (out s ++ [])) <$> worker_step i (thread_pool s) = Ok s' →
    demo_case s s') as Hpool.
  { intros Ht (p & Hp & ->)%fmap_Ok. rewrite with_pool_run. apply (case_pool s (LWorker i)); [done | | done].
    by intros j t [= <-]. }
  destruct (workers (thread_pool s) !! i) as [[| | [| k] | | | |] |] eqn:Hi; try by apply Hpool.
  - apply bind_Ok in Hs as ([v |] & Hf%from_option_ub_Ok & Hs).
    + apply fmap_Ok in Hs as (p & Hp & ->). by apply (case_task s i Print); [| | exists v].
    + injection Hs as <-. by apply case_fetch.
  - apply fmap_Ok in Hs as (p & Hp & ->). by apply (case_task s i (Show k)).
Qed.

Lemma step_cases l s s' : step l s = Ok s' → demo_case s s'.
Proof.
  intros Hs. unfold step in Hs. destruct (main_pc s) eqn:Em; [| | done]; destruct l as [c | i | i];
    first [by eapply main_step_cases | by eapply thread_step_cases | idtac];
    apply bind_Ok in Hs as (ws & Hw & [= <-]); rewrite <- Em; apply (case_pool s (LSpurious i) _ (main_pc s)); try done;
    simpl; by rewrite Hw.
Qed.

(** The pool inside is the pool on its own. *)
#[export] Instance demo_runs_pool : Refines pool_demo (pool_machine task n).
Proof.
  refine {| ref_abs := (thread_pool : mstate pool_demo → mstate (pool_machine task n)) |}.
  - by intros s ->.
  - intros l s s' _ Hs%step_cases. destruct Hs; eauto.
Defined.

(** * The output follows the tasks *)
Record inv (s : state) : Prop := {
  inv_tasks : (submitted (thread_pool s) ++ pending (owner (thread_pool s))) ++ unsubmitted (main_pc s) = tasks;
  inv_data : 100 <= global_data s;
  inv_counts : omap counted (out s) ++ omap id (fetched s) ≡ₚ seqZ 100 (global_data s - 100);
  inv_numbers : omap numbered (out s) ≡ₚ omap shown (finished (thread_pool s));
  inv_prints : length (omap counted (out s)) = length (omap is_print (finished (thread_pool s)));
  inv_fetched : ∀ i v, fetched s !! i = Some (Some v) → workers (thread_pool s) !! i = Some (WRun Print)
}.

Lemma omap_id_none k : omap id (replicate k (@None Z)) = [].
Proof. by induction k. Qed.

Lemma demo_inv_init : inv init.
Proof.
  split; simpl; try done.
  - by rewrite omap_id_none.
  - by intros i v [? ?]%lookup_replicate.
Qed.

(** A task that ends: its line is one of its kind. *)
Lemma demo_inv_task i t p f o s :
  inv s → workers (thread_pool s) !! i = Some (WRun t) → ThreadPool.step (LWorker i) (thread_pool s) = Ok p →
  match t with
  | Print => ∃ v, fetched s !! i = Some (Some v) ∧ f = <[i := None]> (fetched s) ∧ o = [Count v]
  | Show k => f = fetched s ∧ o = [Number k]
  end →
  inv (State p (global_data s) f (main_pc s) (out s ++ o)).
Proof.
  intros [Ht Hd Hc Hn Hp Hf] Hi Hs Hbody.
  pose proof (pool_submits _ _ _ Hs) as Hsub. simpl in Hsub. rewrite app_nil_r in Hsub.
  simpl in Hs. unfold worker_step in Hs. rewrite Hi in Hs. injection Hs as <-.
  split; cbn [thread_pool global_data fetched main_pc out]; rewrite ?Hsub, ?omap_app; try done.
  - destruct t as [| k]; [destruct Hbody as (v & Hv & -> & ->) | destruct Hbody as [-> ->]]; simpl; rewrite <- Hc.
    + rewrite <- (assoc_L (++)). simpl. by rewrite (omap_insert_del id (fetched s) i (Some v) None v Hv).
    + by rewrite app_nil_r.
  - simpl. rewrite omap_app, Hn. destruct t; [destruct Hbody as (v & _ & _ & ->) | destruct Hbody as [_ ->]]; done.
  - simpl. rewrite omap_app, !length_app, Hp. destruct t; [destruct Hbody as (v & _ & _ & ->) | destruct Hbody as [_ ->]]; done.
  - simpl. intros j v Hj. destruct (decide (i = j)) as [<- | Hne].
    + destruct t as [| k].
      * destruct Hbody as (v' & Hv & -> & _). rewrite list_lookup_insert_eq in Hj by by eapply lookup_lt_Some. done.
      * destruct Hbody as [-> _]. apply Hf in Hj. congruence.
    + rewrite list_lookup_insert_ne by done. apply (Hf j v).
      destruct t; [destruct Hbody as (v' & Hv & -> & _); by rewrite list_lookup_insert_ne in Hj | by destruct Hbody as [-> _]].
Qed.

Lemma demo_inv_step l s s' : inv s → step l s = Ok s' → inv s'.
Proof.
  intros Hinv Hs%step_cases. destruct Hs as [m Hm | a p m Hs Ha Hm | i Hi Hslot | i t p f o Hi Hs Hbody].
  - destruct Hinv. split; simpl; rewrite ?Hm; done.
  - destruct Hinv as [Ht Hd Hc Hn Hp Hf]. destruct (pool_keeps _ _ _ Hs Ha) as [Hfin Hkeep].
    split; simpl; rewrite ?Hfin; try done; [| by eauto].
    rewrite (pool_submits _ _ _ Hs), <- Ht, Hm. by rewrite !(assoc_L (++)).
  - destruct Hinv as [Ht Hd Hc Hn Hp Hf]. split; simpl; try done; [lia | |].
    + rewrite (omap_insert_add id (fetched s) i None (Some (global_data s)) (global_data s) Hslot) by done.
      replace (global_data s + 1 - 100) with (global_data s - 100 + 1) by lia.
      rewrite seqZ_app, <- Hc by lia. replace (100 + (global_data s - 100)) with (global_data s) by lia.
      assert (seqZ (global_data s) 1 = [global_data s]) as -> by done.
      by rewrite <- (assoc_L (++)), <- Permutation_cons_append.
    + intros j v [(-> & _ & _) | [_ Hj]]%list_lookup_insert_Some; [done | by eapply Hf].
  - by eapply demo_inv_task.
Qed.

Lemma demo_inv_reachable (s : mstate pool_demo) : reachable s → inv s.
Proof.
  revert s. apply invariant_ind.
  - intros s ->. apply demo_inv_init.
  - intros l s s' _ Hi Hs. by eapply demo_inv_step.
Qed.

(** Every value taken and not printed belongs to a running [print]. *)
Lemma fetched_running (ws : list (wpc task)) (fs : list (option Z)) :
  (∀ i v, fs !! i = Some (Some v) → ws !! i = Some (WRun Print)) →
  (length (omap id fs) ≤ length (omap is_print (omap running_of ws)))%nat.
Proof.
  revert ws. induction fs as [| o fs IH]; intros ws Hf; simpl; [lia |].
  assert (∀ i v, fs !! i = Some (Some v) → tail ws !! i = Some (WRun Print)) as Ht.
  { intros i v Hi. rewrite <- (Hf (S i) v Hi). by destruct ws. }
  specialize (IH _ Ht). destruct o as [v |].
  - destruct ws as [| w ws]; [by specialize (Hf 0%nat v eq_refl) |]. specialize (Hf 0%nat v eq_refl). simplify_eq/=. lia.
  - destruct ws as [| w ws]; [exact IH |]. etrans; [exact IH |].
    csimpl. destruct (running_of w) as [[] |]; csimpl; lia.
Qed.

(** The tasks that run or have finished are among those of the program. *)
Lemma demo_tasks (s : mstate pool_demo) :
  reachable s → ∃ rest, tasks ≡ₚ finished (thread_pool s) ++ running (thread_pool s) ++ rest.
Proof.
  intros Hr. destruct (demo_inv_reachable s Hr) as [Ht _ _ _ _ _].
  pose proof (refines_reachable demo_runs_pool s Hr) as Hp. apply pool_inv_reachable in Hp.
  destruct (inv_task _ _ Hp) as [Hsub Hst].
  change (ref_abs demo_runs_pool s) with (thread_pool s) in *.
  eexists. rewrite <- Ht, Hsub, Hst. by rewrite <- !(assoc_L (++)).
Qed.
End program.

Lemma lines_split (l : list line) : l ≡ₚ (Count <$> omap counted l) ++ (Number <$> omap numbered l).
Proof.
  induction l as [| [v | k] l IH]; csimpl; [done | by rewrite <- IH |].
  rewrite IH at 1. by rewrite Permutation_middle.
Qed.

(** What the invariant says of the two kinds of lines. *)
Lemma demo_lines (n : nat) (s : mstate (pool_demo n)) :
  reachable s →
  ∃ k c r, omap counted (out s) ++ c ≡ₚ seqZ 100 (Z.of_nat k) ∧ (k <= 15)%nat ∧
    omap numbered (out s) ++ r ≡ₚ seqZ 1 15 ∧
    (finished (thread_pool s) ≡ₚ tasks → k = 15%nat ∧ c = [] ∧ r = []).
Proof.
  intros Hr. pose proof (demo_inv_reachable n s Hr) as [_ Hd Hc Hn Hp Hf].
  destruct (demo_tasks n s Hr) as (rest & Hrest). pose proof (fetched_running _ _ Hf) as Hrun.
  fold (running (thread_pool s)) in Hrun.
  assert (length (omap is_print tasks) = 15%nat) as H15 by done. rewrite Hrest, !omap_app, !length_app in H15.
  pose proof (Permutation_length Hc) as Hlen. rewrite length_app, length_seqZ in Hlen.
  exists (Z.to_nat (global_data s - 100)), (omap id (fetched s)), (omap shown (running (thread_pool s) ++ rest)).
  rewrite Z2Nat.id by lia. split_and!; [done | lia | |].
  - rewrite Hn, <- omap_app, <- Hrest. reflexivity.
  - intros Hall. assert (running (thread_pool s) ++ rest = []) as Hnil.
    { apply length_zero_iff_nil. apply Permutation_length in Hrest, Hall. rewrite length_app in Hrest. lia. }
    rewrite Hall in Hp. change (length (omap is_print tasks)) with 15%nat in Hp.
    apply app_eq_nil in Hnil as [E ->]. rewrite E in *. cbn [omap list_omap app length] in *. split_and!; [lia | | done].
    apply length_zero_iff_nil. lia.
Qed.

(** C14. Whatever the schedule and the number of threads, the lines printed are
    distinct and among the counter's values 100 to 114 and the numbers 1 to 15;
    when all the tasks have finished, each of those thirty lines has been
    printed once. *)
Theorem pool_demo_output (n : nat) (s : mstate (pool_demo n)) :
  reachable s →
  NoDup (out s) ∧
  (∀ l, l ∈ out s → match l with Count v => 100 <= v < 115 | Number k => 1 <= k <= 15 end) ∧
  (finished (thread_pool s) ≡ₚ tasks → out s ≡ₚ (Count <$> seqZ 100 15) ++ (Number <$> seqZ 1 15)).
Proof.
  intros (k & c & r & Hc & Hk & Hn & Hall)%demo_lines.
  assert (NoDup (omap counted (out s) ++ c)) as [HNc _]%NoDup_app by (rewrite Hc; apply NoDup_seqZ).
  assert (NoDup (omap numbered (out s) ++ r)) as [HNn _]%NoDup_app by (rewrite Hn; apply NoDup_seqZ).
  split_and!.
  - rewrite lines_split. apply NoDup_app. split_and!.
    + by apply NoDup_fmap; [intros ?? [=] |].
    + by intros ? (v & -> & _)%list_elem_of_fmap (w & ? & _)%list_elem_of_fmap.
    + by apply NoDup_fmap; [intros ?? [=] |].
  - intros [v | v] Hv.
    + assert (v ∈ seqZ 100 (Z.of_nat k)) as Hin%elem_of_seqZ; [| lia].
      rewrite <- Hc. apply elem_of_app. left. apply list_elem_of_omap. by exists (Count v).
    + assert (v ∈ seqZ 1 15) as Hin%elem_of_seqZ; [| lia].
      rewrite <- Hn. apply elem_of_app. left. apply list_elem_of_omap. by exists (Number v).
  - intros (-> & -> & ->)%Hall. rewrite !app_nil_r in *. by rewrite lines_split, Hc, Hn.
Qed.

(** * Runs *)
Definition run_demo (n : nat) (ls : list label) : state :=
  match exec (pool_demo n) ls (init n) with Ok s => s | _ => init n end.
Lemma run_demo_reachable n ls :
  (∃ s, exec (pool_demo n) ls (init n) = Ok s) → reachable (M := pool_demo n) (run_demo n ls).
Proof. unfold run_demo. intros [s Hs]. rewrite Hs. by apply (exec_reachable (pool_demo n) ls (init n)). Qed.

(** [main] up to the end of the destructor, while the threads have not started. *)
Definition main_only : list label := replicate 93 (LMain None).

(** The thread then takes all the tasks, in the order they were submitted. *)
Definition all_printed : list label := main_only ++ replicate 106 (LThread 0) ++ [LMain None].

Lemma pool_demo_output_witness :
  let s := run_demo 1 all_printed in
  reachable (M := pool_demo 1) s ∧ main_pc s = Exited ∧ NoDup (out s) ∧
  out s = mjoin ((λ k, [Count (99 + k); Number k]) <$> seqZ 1 15).
Proof.
  assert (reachable (M := pool_demo 1) (run_demo 1 all_printed)) as Hr.
  { apply run_demo_reachable. eexists. by vm_compute. }
  split_and!; [exact Hr | by vm_compute | apply (pool_demo_output 1 _ Hr) | by vm_compute].
Defined.

(** The destructor does not wait for the detached threads: [main] may return
    before any of them has printed. *)
Theorem pool_demo_silent :
  ∃ s : mstate (pool_demo 2), reachable s ∧ main_pc s = Exited ∧ out s = [].
Proof.
  exists (run_demo 2 (main_only ++ [LMain None])). split_and!; [| by vm_compute ..].
  apply run_demo_reachable. eexists. by vm_compute.
Qed.

(** On a machine with one processor the pool has no thread, and nothing is ever
    printed; where the number of processors is not known, the pool has as many
    threads as an [unsigned int] can count. *)
Theorem pool_demo_counts :
  thread_count 1 = 0 ∧ thread_count 0 = 2 ^ 32 - 1 ∧
  ∀ s : mstate (pool_demo 0), reachable s → out s = [].
Proof.
  split_and!; [done | done |]. apply invariant_ind; [by intros s -> |].
  intros l s s' Hr Hout Hs%step_cases.
  pose proof (inv_length _ _ (pool_inv_reachable 0 _ (refines_reachable (demo_runs_pool 0) s Hr))) as Hlen.
  destruct Hs as [| | | i t p f o Hi _ _]; try done.
  apply lookup_lt_Some in Hi. change (ref_abs (demo_runs_pool 0) s) with (thread_pool s) in Hlen. lia.
Qed.
