(* ===== verification/BoostPool.v ===== *)
(** The class [threadpool] of [code/boost_doc/Function/threadpool.cpp].  Unlike
    [fixed_thread_pool] its workers are joined by the destructor, the stop flag
    is an atomic read at the head of the worker loop, and the destructor sets
    it without taking the mutex. *)

From S2P Require Import Prelude Sync.

Section threadpool.
Context {T : Type}.

Inductive agent := Owner | Worker (i : nat).
#[export] Instance agent_eq_dec : EqDecision agent.
Proof. solve_decision. Defined.

(** Where a worker is in the lambda of the constructor. *)
Inductive wpc :=
  | WTop                 (* at [while (!this->stoped)] *)
  | WLock                (* constructing [lock] *)
  | WCheck               (* [m_lock] held, evaluating the predicate of [wait] *)
  | WSleepy              (* the predicate was false; about to release and sleep *)
  | WWait                (* asleep in [cv_task.wait] *)
  | WWoken               (* notified, taking [m_lock] again *)
  | WGot                 (* out of [wait], [m_lock] held *)
  | WDec (task : T)      (* [m_lock] released, at [idlThrNum--] *)
  | WRun (task : T)      (* running [task()] *)
  | WInc                 (* at [idlThrNum++] *)
  | WDone.               (* returned *)

(** Where the owner of the pool is. *)
Inductive opc :=
  | OIdle
  | OCommit (task : T)   (* [commit]: the stop flag was read false *)
  | OEmplace (task : T)  (* [commit]: [m_lock] held *)
  | ONotify              (* [commit]: at [notify_one] *)
  | ONotifyAll           (* destructor: [stoped] set, at [notify_all] *)
  | OJoin (k : nat)      (* destructor: joining worker [k] *)
  | ODone.

#[export] Instance wpc_condvar : CondVar wpc := {
  cv_waiting w := match w with WWait => true | _ => false end;
  cv_woken _ := WWoken;
  cv_woken_awake _ _ := eq_refl
}.

Record pool := Pool {
  m_lock : option agent;
  stoped : bool;
  idlThrNum : Z;
  tasks : list T;
  workers : list wpc;
  owner : opc;
  thrown : nat;          (* calls of [commit] that threw *)
  submitted : list T;
  started : list T;
  finished : list T
}.

(** [idlThrNum = size < 1 ? 1 : size], then that many workers. *)
Definition pool_size (size : nat) : nat := if decide (size < 1) then 1 else size.
Definition pool_init (size : nat) : pool :=
  Pool None false (Z.of_nat (pool_size size)) [] (replicate (pool_size size) WTop) OIdle 0 [] [] [].

Definition set_lock m p :=
  Pool m (stoped p) (idlThrNum p) (tasks p) (workers p) (owner p) (thrown p)
    (submitted p) (started p) (finished p).
Definition set_workers ws p :=
  Pool (m_lock p) (stoped p) (idlThrNum p) (tasks p) ws (owner p) (thrown p)
    (submitted p) (started p) (finished p).
Definition set_worker i w p := set_workers (<[i:=w]> (workers p)) p.
Definition set_owner o p :=
  Pool (m_lock p) (stoped p) (idlThrNum p) (tasks p) (workers p) o (thrown p)
    (submitted p) (started p) (finished p).
Definition set_idle z p :=
  Pool (m_lock p) (stoped p) z (tasks p) (workers p) (owner p) (thrown p)
    (submitted p) (started p) (finished p).
Definition throw_stopped p :=
  Pool (m_lock p) (stoped p) (idlThrNum p) (tasks p) (workers p) (owner p) (S (thrown p))
    (submitted p) (started p) (finished p).
Definition store_stoped p :=
  Pool (m_lock p) true (idlThrNum p) (tasks p) (workers p) (owner p) (thrown p)
    (submitted p) (started p) (finished p).
Definition pop_task task rest p :=
  Pool (m_lock p) (stoped p) (idlThrNum p) rest (workers p) (owner p) (thrown p)
    (submitted p) (started p ++ [task]) (finished p).
Definition emplace_task task p :=
  Pool (m_lock p) (stoped p) (idlThrNum p) (tasks p ++ [task]) (workers p) (owner p) (thrown p)
    (submitted p ++ [task]) (started p) (finished p).
Definition finish_task task p :=
  Pool (m_lock p) (stoped p) (idlThrNum p) (tasks p) (workers p) (owner p) (thrown p)
    (submitted p) (started p) (finished p ++ [task]).

Definition is_empty (l : list T) : bool := match l with [] => true | _ => false end.

(** [this->stoped.load() || !this->tasks.empty()] *)
Definition wait_pred p : bool := stoped p || negb (is_empty (tasks p)).

Definition worker_step i p : outcome pool :=
  match workers p !! i with
  | None | Some WWait | Some WDone => Blocked
  | Some WTop => if stoped p then Ok (set_worker i WDone p) else Ok (set_worker i WLock p)
  | Some WLock | Some WWoken =>
      m ← mutex_lock (Worker i) (m_lock p);
      Ok (set_worker i WCheck (set_lock m p))
  | Some WCheck => if wait_pred p then Ok (set_worker i WGot p) else Ok (set_worker i WSleepy p)
  | Some WSleepy =>
      m ← mutex_unlock (Worker i) (m_lock p);
      Ok (set_worker i WWait (set_lock m p))
  | Some WGot =>
      m ← mutex_unlock (Worker i) (m_lock p);
      if stoped p && is_empty (tasks p) then Ok (set_worker i WDone (set_lock m p))
      else
        match tasks p with
        | task :: rest => Ok (set_worker i (WDec task) (pop_task task rest (set_lock m p)))
        | [] => UB
        end
  | Some (WDec task) => Ok (set_worker i (WRun task) (set_idle (idlThrNum p - 1) p))
  | Some (WRun task) => Ok (set_worker i WInc (finish_task task p))
  | Some WInc => Ok (set_worker i WTop (set_idle (idlThrNum p + 1) p))
  end.

(** [commit] throws on a stopped pool. *)
Definition commit task p : outcome pool :=
  match owner p with
  | OIdle => if stoped p then Ok (throw_stopped p) else Ok (set_owner (OCommit task) p)
  | ODone => UB
  | _ => Blocked
  end.

(** [~threadpool]: [stoped.store(true)], without the mutex. *)
Definition destroy p : outcome pool :=
  match owner p with
  | OIdle => Ok (set_owner ONotifyAll (store_stoped p))
  | ODone => UB
  | _ => Blocked
  end.

Definition owner_step choice p : outcome pool :=
  match owner p with
  | OIdle | ODone => Blocked
  | OCommit task =>
      m ← mutex_lock Owner (m_lock p); Ok (set_owner (OEmplace task) (set_lock m p))
  | OEmplace task =>
      m ← mutex_unlock Owner (m_lock p);
      Ok (set_owner ONotify (emplace_task task (set_lock m p)))
  | ONotify => ws ← notify_one choice (workers p); Ok (set_owner OIdle (set_workers ws p))
  | ONotifyAll => Ok (set_owner (OJoin 0) (set_workers (notify_all (workers p)) p))
  | OJoin k =>
      match workers p !! k with
      | None => Ok (set_owner ODone p)
      | Some WDone => Ok (set_owner (OJoin (S k)) p)
      | Some _ => Blocked
      end
  end.

Inductive label :=
  | LWorker (i : nat)
  | LOwner (choice : option nat)
  | LSpurious (i : nat)
  | LCommit (task : T)
  | LDestroy.

Definition step l p : outcome pool :=
  match l with
  | LWorker i => worker_step i p
  | LOwner choice => owner_step choice p
  | LSpurious i => ws ← wake i (workers p); Ok (set_workers ws p)
  | LCommit task => commit task p
  | LDestroy => destroy p
  end.

Definition pool_machine size : machine := Machine pool label (λ p, p = pool_init size) step.

Definition scheduled l : Prop := match l with LSpurious _ => False | _ => True end.

(** The task a worker has taken and not finished; and whether it is counted as
    busy by [idlThrNum]. *)
Definition holds_of w : option T := match w with WDec t | WRun t => Some t | _ => None end.
Definition in_hand p : list T := omap holds_of (workers p).
Definition busy w : nat := match w with WRun _ | WInc => 1 | _ => 0 end.

Definition holder w : Prop :=
  match w with WCheck | WSleepy | WGot => True | _ => False end.
End threadpool.

Arguments wpc : clear implicits.
Arguments opc : clear implicits.
Arguments pool : clear implicits.
Arguments label : clear implicits.
Arguments pool_machine T size : clear implicits.

(** Cases of a step of the pool. *)
Ltac pool_step l :=
  destruct l; unfold step, worker_step, owner_step, commit, destroy in *;
  step_inv; sync_inv;
  try match goal with
  | Hx : context [match ?x with _ => _ end] |- _ =>
      lazymatch type of Hx with _ = true => is_var x; destruct x; simplify_eq/= end
  end.

Section proofs.
Context {T : Type} (size : nat).
Implicit Types (p : pool T) (w : wpc T).

Record pool_inv p : Prop := {
  inv_lock : ∀ i w, workers p !! i = Some w → holder w → m_lock p = Some (Worker i);
  inv_held : ∀ i, m_lock p = Some (Worker i) → ∃ w, workers p !! i = Some w ∧ holder w;
  inv_owner : m_lock p = Some Owner ↔ ∃ t, owner p = OEmplace t;
  inv_queue : submitted p = started p ++ tasks p;
  inv_tasks : started p ≡ₚ finished p ++ in_hand p;
  inv_idle : (idlThrNum p + Z.of_nat (sum_list_with busy (workers p)) = Z.of_nat (pool_size size))%Z;
  inv_got : ∀ i, workers p !! i = Some WGot → wait_pred p = true;
  inv_stop : stoped p = true ↔ match owner p with ONotifyAll | OJoin _ | ODone => True | _ => False end
}.

Lemma boost_inv_init : pool_inv (pool_init size).
Proof.
  assert (∀ i w, workers (pool_init (T:=T) size) !! i = Some w → w = WTop) as Hall.
  { intros i w [-> _]%lookup_replicate_1. done. }
  split; simpl; try done.
  - intros i w ->%Hall. done.
  - split; [done | by intros (? & ?)].
  - unfold in_hand. simpl. clear. induction (pool_size size); simpl; auto.
  - clear. enough (∀ k, sum_list_with (busy (T:=T)) (replicate k WTop) = 0) as ->; [lia |].
    intros k. induction k; simpl; auto.
  - intros i Hi%Hall. done.
Qed.

Lemma inv_lock_step l p p' : pool_inv p → step l p = Ok p' →
  ∀ i w, workers p' !! i = Some w → holder w → m_lock p' = Some (Worker i).
Proof.
  intros [Hl _ Ho _ _ _ _ _] Hs. pool_step l; simpl; intros j w; threads_simpl.
  all: try (intros Hj Hh; pose proof (Hl j w); destruct_or?; destruct_and?; simplify_eq/=;
    first [done | by eauto |
      match goal with Hw : workers _ !! ?i = Some ?x |- _ =>
        pose proof (Hl i x Hw); simpl in *; intuition congruence end]).
  destruct (workers p !! j) as [[] |] eqn:E; intros [= <-] Hh; try done; by eapply Hl.
Qed.

Lemma inv_held_step l p p' : pool_inv p → step l p = Ok p' →
  ∀ i, m_lock p' = Some (Worker i) → ∃ w, workers p' !! i = Some w ∧ holder w.
Proof.
  intros [Hl Hh Ho _ _ _ _ _] Hs. pool_step l; simpl in *; intros j Hj; simplify_eq;
    try congruence; try (by eauto);
    try (by eapply exists_moved_here); try (by eapply exists_moved; eauto).
  destruct (Hh j Hj) as (w & Hw & Hhw). exists w. rewrite notify_all_lookup, Hw. by destruct w.
Qed.

Lemma inv_owner_step l p p' : pool_inv p → step l p = Ok p' →
  m_lock p' = Some Owner ↔ ∃ t, owner p' = OEmplace t.
Proof.
  intros [Hl _ Ho _ _ _ _ _] Hs. pool_step l; simpl in *;
    try (match goal with Hw : workers p !! ?i = Some ?x |- _ =>
           pose proof (Hl i x Hw) end; simpl in * ); clear Hl; first [intuition congruence| naive_solver | by rewrite Heqo].
Qed.

Lemma inv_queue_step l p p' : pool_inv p → step l p = Ok p' →
  submitted p' = started p' ++ tasks p'.
Proof.
  intros [_ _ _ Hq _ _ _ _] Hs. pool_step l; simpl; rewrite Hq, <- ?app_assoc; simpl; congruence.
Qed.

Lemma inv_tasks_step l p p' : pool_inv p → step l p = Ok p' →
  started p' ≡ₚ finished p' ++ in_hand p'.
Proof.
  intros [_ _ _ _ Ht _ _ _] Hs. unfold in_hand in *.
  pool_step l; simpl; rewrite ?notify_all_omap by (by intros []);
    try done; try (by erewrite omap_insert_none).
  - rewrite (omap_insert_add _ _ i WGot _ t) by done. rewrite Ht, <- app_assoc.
    by rewrite <- (Permutation_cons_append (omap _ _)).
  - rewrite (omap_insert_move _ _ i (WDec task) _ task) by done. done.
  - rewrite Ht, <- app_assoc. simpl.
    by rewrite (omap_insert_del _ _ i (WRun task) WInc task) by done.
Qed.

Lemma inv_idle_step l p p' : pool_inv p → step l p = Ok p' →
  (idlThrNum p' + Z.of_nat (sum_list_with busy (workers p')) = Z.of_nat (pool_size size))%Z.
Proof.
  intros [_ _ _ _ _ Hi _ _] Hs.
  pool_step l; simpl; rewrite <- Hi; try done;
  try (match goal with Hw : workers p !! ?i = Some ?x |- context [<[_:=?y]> _] =>
        pose proof (sum_list_with_insert busy _ _ _ y Hw) end; simpl in *; lia).
  do 2 f_equal. apply notify_all_weight. by intros [].
Qed.

Lemma inv_got_step l p p' : pool_inv p → step l p = Ok p' →
  ∀ i, workers p' !! i = Some WGot → wait_pred p' = true.
Proof.
  intros [Hl _ Ho _ _ _ Hg _] Hs j. specialize (Hg j). specialize (Hl j WGot).
  unfold wait_pred in *.
  pool_step l; simpl; threads_simpl;
    rewrite ?orb_true_r; try done; try (by intuition congruence); try (by intros [[_ [=]]|[_ Hj]]; apply Hg);
    try (rewrite Heqb; done).
  - rewrite Heqb. intros [[_ [=]] | [_ Hj]]. by apply Hg.
  - intros Hj. apply Hg. by destruct (workers p !! j) as [[] |].
Qed.

Lemma inv_stop_step l p p' : pool_inv p → step l p = Ok p' →
  stoped p' = true ↔ match owner p' with ONotifyAll | OJoin _ | ODone => True | _ => False end.
Proof.
  intros [_ _ _ _ _ _ _ Hs1] Hs. pool_step l; simpl in *; intuition congruence.
Qed.

Lemma boost_inv_reachable (p : mstate (pool_machine T size)) : reachable p → pool_inv p.
Proof.
  revert p. apply (invariant_ind (pool_machine T size)).
  - intros p ->. apply boost_inv_init.
  - intros l p p' _ Hinv Hs. change (step l p = Ok p') in Hs. split.
    + by eapply inv_lock_step.
    + by eapply inv_held_step.
    + by eapply inv_owner_step.
    + by eapply inv_queue_step.
    + by eapply inv_tasks_step.
    + by eapply inv_idle_step.
    + by eapply inv_got_step.
    + by eapply inv_stop_step.
Qed.
End proofs.

(** * The properties *)

(** C17. No task submitted to the pool is lost, duplicated or overtaken, and
    [idlThrNum] is the number of workers that are not running a task: it never
    leaves the range from 0 to the number of workers. *)
Theorem boost_pool_tasks {T} size (p : mstate (pool_machine T size)) :
  reachable p →
  submitted p = started p ++ tasks p ∧ started p ≡ₚ finished p ++ in_hand p ∧
  idlThrNum p = (Z.of_nat (pool_size size) - Z.of_nat (sum_list_with busy (workers p)))%Z.
Proof.
  intros [_ _ _ Hq Ht Hi _ _]%boost_inv_reachable. split_and!; [done | done | lia].
Qed.

(** C18. The pool never takes a task from an empty queue and never misuses its
    mutex: the only undefined behaviour is a call on a destroyed pool. *)
Theorem boost_pool_no_ub {T} size (p : mstate (pool_machine T size)) l :
  reachable p → step l p = UB → owner p = ODone ∧ (l = LDestroy ∨ ∃ task, l = LCommit task).
Proof.
  intros [Hl Hh Ho _ _ _ Hg _]%boost_inv_reachable Hs.
  destruct l as [i | c | i | task |];
    unfold step, worker_step, owner_step, commit, destroy in Hs; step_inv; sync_inv;
    try (by eauto); exfalso;
    try (match goal with Hw : workers p !! _ = Some ?x |- _ =>
           pose proof (Hl _ _ Hw); try specialize (Hg _ Hw); simpl in *; simplify_eq end);
    try (match type of Hs with m_lock _ = Some (Worker _) =>
      destruct (Hh _ Hs) as (? & ? & ?) end; simplify_eq/=; contradiction).
  all: try (intuition congruence).
  - unfold wait_pred in Hg. rewrite Heql in Hg. by destruct (stoped p).
  - apply Ho in Hs as [? ?]. congruence.
  - apply Hs, Ho. eauto.
Qed.

Lemma boost_stuck_step {T} (l : label T) (p p' : pool T) k :
  scheduled l → owner p = OJoin k → workers p !! k = Some WWait → step l p = Ok p' →
  owner p' = OJoin k ∧ workers p' !! k = Some WWait.
Proof.
  intros Hl Ho Hk Hs. destruct l as [i | c | i | task |]; try done;
    unfold step, worker_step, owner_step, commit, destroy in Hs; rewrite ?Ho, ?Hk in Hs; try done.
  assert (i = k → workers p !! i = Some WWait) as Hik by (by intros ->).
  step_inv; sync_inv; (split; [done |]);
    rewrite list_lookup_insert_ne; try done; intros ->; naive_solver.
Qed.

(** C26. The destructor can hang: it sets [stoped] without holding [m_lock], so
    a worker may have found its predicate false before, and fall asleep after
    [notify_all] has passed.  From then on, whatever the threads do, the worker
    sleeps and the destructor waits for it: only a spurious wake-up helps. *)
Theorem boost_pool_lost_wakeup {T} size (p : mstate (pool_machine T size)) k :
  owner p = OJoin k → workers p !! k = Some WWait →
  ∀ p', rtc (msteps (pool_machine T size) scheduled) p p' →
    owner p' = OJoin k ∧ workers p' !! k = Some WWait ∧ stoped p' = stoped p.
Proof.
  intros Ho Hk p' Hs. induction Hs as [| p1 p2 p3 (l & Hl & H12) _ IH]; [done |].
  change (step l p1 = Ok p2) in H12.
  destruct (boost_stuck_step l p1 p2 k Hl Ho Hk H12) as [Ho2 Hk2].
  destruct (IH Ho2 Hk2) as (? & ? & ->). split_and!; [done | done |].
  destruct l; try done; unfold step, worker_step, owner_step, commit, destroy in H12;
    rewrite ?Ho, ?Hk in H12; step_inv; sync_inv; done.
Qed.

(** Once stopped, the pool accepts no task: [commit] throws and leaves the
    queue alone. *)
Lemma commit_stopped {T} (p : pool T) task :
  owner p = OIdle → stoped p = true → commit task p = Ok (throw_stopped p).
Proof. intros Ho Hs. unfold commit. by rewrite Ho, Hs. Qed.

(** The destructor can drop tasks: the workers test [stoped] before they
    look at the queue, so a committed task may never run although the
    destructor returns. *)
Theorem boost_pool_drops_tasks :
  ∃ p : mstate (pool_machine nat 1),
    reachable p ∧ owner p = ODone ∧ submitted p = [7] ∧ started p = [] ∧ tasks p = [7].
Proof.
  eexists. split; [run_schedule (pool_machine nat 1)
    ([LCommit 7; LOwner None; LOwner None; LOwner None; LDestroy; LOwner None; LWorker 0;
      LOwner None; LOwner None] : list (label nat)) |].
  by split_and!.
Qed.

(** * Concrete runs *)
Definition demo_schedule : list (label nat) :=
  [LCommit 7; LWorker 0; LWorker 0; LWorker 0; LWorker 0; LOwner None; LOwner None;
   LOwner (Some 0); LWorker 0; LWorker 0; LWorker 0; LWorker 0].

Lemma boost_pool_tasks_witness :
  ∃ p : mstate (pool_machine nat 1), reachable p ∧ in_hand p = [7] ∧ idlThrNum p = 0%Z ∧
    submitted p = started p ++ tasks p.
Proof.
  eexists. assert (reachable _) as Hr by run_schedule (pool_machine nat 1) demo_schedule.
  split_and!; [exact Hr | reflexivity | reflexivity |].
  exact (proj1 (boost_pool_tasks 1 _ Hr)).
Defined.

Lemma boost_pool_no_ub_witness :
  ∃ p : mstate (pool_machine nat 1), reachable p ∧ step (LCommit 7) p = UB ∧ owner p = ODone.
Proof.
  eexists. assert (reachable _) as Hr by run_schedule (pool_machine nat 1)
    ([LDestroy; LWorker 0; LOwner None; LOwner None; LOwner None] : list (label nat)).
  split_and!; [exact Hr | reflexivity |].
  exact (proj1 (boost_pool_no_ub 1 _ (LCommit 7) Hr eq_refl)).
Defined.

(** The default pool of four workers: three see the stop flag, the fourth was
    about to sleep. *)
Lemma boost_pool_lost_wakeup_witness :
  ∃ p : mstate (pool_machine nat 4), reachable p ∧ stoped p = true ∧ owner p = OJoin 0 ∧
    ∀ p', rtc (msteps (pool_machine nat 4) scheduled) p p' →
      owner p' = OJoin 0 ∧ workers p' !! 0 = Some WWait ∧ stoped p' = stoped p.
Proof.
  eexists. assert (reachable _) as Hr by run_schedule (pool_machine nat 4)
    ([LWorker 0; LWorker 0; LWorker 0; LDestroy; LOwner None; LWorker 1; LWorker 2; LWorker 3;
      LWorker 0] : list (label nat)).
  split_and!; [exact Hr | reflexivity | reflexivity |].
  apply boost_pool_lost_wakeup; reflexivity.
Defined.
