(* ===== verification/FizzBuzz.v ===== *)
(** The class [FizzBuzz] of [code/concurrent/order_print.cpp]: four threads
    ([fizz], [buzz], [fizzbuzz] and [number]) share the counter [current]
    under one mutex and one condition variable; each prints the numbers of its
    own class, leaves its loop once the counter has passed [n], and then writes
    its identity on a line, without the mutex. *)

From S2P Require Import Prelude Sync.

Local Open Scope Z_scope.

(** * The predicates and the printers *)

Definition is_3x (x : Z) : bool := Z.rem x 3 =? 0.
Definition is_5x (x : Z) : bool := Z.rem x 5 =? 0.
Definition is_15x (x : Z) : bool := Z.rem x 15 =? 0.
Definition is_simple (x : Z) : bool := negb (is_3x x || is_5x x).

(** One thread per member function. *)
Inductive role := RFizz | RBuzz | RFizzBuzz | RNumber.
#[export] Instance role_eq_dec : EqDecision role.
Proof. solve_decision. Defined.

(** What is written to [cout], one insertion each: the words and numbers, and
    the end of a line and the identity of the thread of a role. *)
Inductive token := Fizz | Buzz | FizzBuzz | Number (x : Z) | Endl (r : role) | Id (r : role).

(** The predicate each thread passes to [cv.wait], and what it prints. *)
Definition guard (r : role) (current : Z) : bool :=
  match r with
  | RFizz => negb (is_15x current) && is_3x current
  | RBuzz => negb (is_15x current) && is_5x current
  | RFizzBuzz => is_15x current
  | RNumber => is_simple current
  end.
Definition print (r : role) (current : Z) : token :=
  match r with
  | RFizz => Fizz | RBuzz => Buzz | RFizzBuzz => FizzBuzz | RNumber => Number current
  end.

(** Where a thread is: at the head of [while (go_on)], holding the lock inside
    [cv.wait], asleep, notified, out of the loop at each insertion of
    [cout << endl << this_thread::get_id() << endl], or ended. *)
Inductive fpc := FTop | FLocked | FWait | FWoken | FEndl | FId | FEndl2 | FDone.

(** Out of the loop, and what was written since. *)
Definition gone (p : fpc) : bool :=
  match p with FEndl | FId | FEndl2 | FDone => true | _ => false end.
Definition written (r : role) (p : fpc) : list token :=
  match p with
  | FId => [Endl r] | FEndl2 => [Endl r; Id r] | FDone => [Endl r; Id r; Endl r] | _ => []
  end.

#[export] Instance fpc_eq_dec : EqDecision fpc.
Proof. solve_decision. Defined.

#[export] Instance fpc_condvar : CondVar fpc := {
  cv_waiting p := match p with FWait => true | _ => false end;
  cv_woken _ := FWoken;
  cv_woken_awake _ _ := eq_refl
}.

(** The four program counters. *)
Record fpcs := Four { p_fizz : fpc; p_buzz : fpc; p_fizzbuzz : fpc; p_number : fpc }.
Definition get_pc (f : fpcs) (r : role) : fpc :=
  match r with
  | RFizz => p_fizz f | RBuzz => p_buzz f | RFizzBuzz => p_fizzbuzz f | RNumber => p_number f
  end.
Coercion get_pc : fpcs >-> Funclass.
Definition set_pc (r : role) (p : fpc) (f : fpcs) : fpcs :=
  match r with
  | RFizz => Four p (p_buzz f) (p_fizzbuzz f) (p_number f)
  | RBuzz => Four (p_fizz f) p (p_fizzbuzz f) (p_number f)
  | RFizzBuzz => Four (p_fizz f) (p_buzz f) p (p_number f)
  | RNumber => Four (p_fizz f) (p_buzz f) (p_fizzbuzz f) p
  end.
Definition wake_pc (p : fpc) : fpc := if cv_waiting p then cv_woken p else p.
Definition notify_pcs (f : fpcs) : fpcs :=
  Four (wake_pc (p_fizz f)) (wake_pc (p_buzz f)) (wake_pc (p_fizzbuzz f)) (wake_pc (p_number f)).

Record fizzbuzz := FB {
  n : Z;
  current : Z;
  protecter : option role;
  pcs : fpcs;
  out : list token
}.

Definition INT_MAX : Z := 2 ^ 31 - 1.

Definition fb_init (n : Z) : fizzbuzz := FB n 1 None (Four FTop FTop FTop FTop) [].

(** The critical section of a member function whose predicate holds: print,
    [++current], leave the loop if [current > n], [notify_all], unlock. *)
Definition body (r : role) (s : fizzbuzz) : outcome fizzbuzz :=
  require (current s <? INT_MAX) ≫= λ _,
  m ← mutex_unlock r (protecter s);
  let current' := current s + 1 in
  let go_on := negb (current' >? n s) in
  Ok (FB (n s) current' m (set_pc r (if go_on then FTop else FEndl) (notify_pcs (pcs s)))
        (out s ++ [print r (current s)])).

(** An insertion of the last line. *)
Definition tail_step (r : role) (t : token) (p : fpc) (s : fizzbuzz) : fizzbuzz :=
  FB (n s) (current s) (protecter s) (set_pc r p (pcs s)) (out s ++ [t]).

Definition thread_step (r : role) (s : fizzbuzz) : outcome fizzbuzz :=
  match pcs s r with
  | FTop | FWoken =>
      m ← mutex_lock r (protecter s);
      Ok (FB (n s) (current s) m (set_pc r FLocked (pcs s)) (out s))
  | FLocked =>
      if guard r (current s) then body r s
      else
        m ← mutex_unlock r (protecter s);
        Ok (FB (n s) (current s) m (set_pc r FWait (pcs s)) (out s))
  | FEndl => Ok (tail_step r (Endl r) FId s)
  | FId => Ok (tail_step r (Id r) FEndl2 s)
  | FEndl2 => Ok (tail_step r (Endl r) FDone s)
  | FWait | FDone => Blocked
  end.

Inductive label := LRun (r : role) | LSpurious (r : role).

Definition step (l : label) (s : fizzbuzz) : outcome fizzbuzz :=
  match l with
  | LRun r => thread_step r s
  | LSpurious r =>
      if cv_waiting (pcs s r)
      then Ok (FB (n s) (current s) (protecter s) (set_pc r (cv_woken (pcs s r)) (pcs s)) (out s))
      else Blocked
  end.

Definition fb_machine (n : Z) : machine := Machine fizzbuzz label (λ s, s = fb_init n) step.

(** Steps other than spurious wake-ups. *)
Definition scheduled (l : label) : Prop := match l with LRun _ => True | LSpurious _ => False end.

(** * The reference: Fizz Buzz in one line *)

Definition role_of (k : Z) : role :=
  if k mod 15 =? 0 then RFizzBuzz else if k mod 3 =? 0 then RFizz
  else if k mod 5 =? 0 then RBuzz else RNumber.
Definition reference (k : Z) : token :=
  if k mod 15 =? 0 then FizzBuzz else if k mod 3 =? 0 then Fizz
  else if k mod 5 =? 0 then Buzz else Number k.
(** Whose last line a token belongs to, and the tokens of Fizz Buzz. *)
Definition author (t : token) : option role :=
  match t with Endl r | Id r => Some r | _ => None end.
Definition numbers (ts : list token) : list token := filter (λ t, author t = None) ts.
Definition last_line (r : role) (ts : list token) : list token := filter (λ t, author t = Some r) ts.
(** The first number at which a thread may leave its loop. *)
Definition first_exit (n : Z) : Z := Z.max n 1.

Lemma print_role k : print (role_of k) k = reference k.
Proof. unfold role_of, reference. by repeat case_match. Qed.

Lemma reference_author k : author (reference k) = None.
Proof. unfold reference. by repeat case_match. Qed.

Lemma guard_role r k : 0 < k → guard r k = true ↔ r = role_of k.
Proof.
  intros Hk. unfold guard, is_simple, is_3x, is_5x, is_15x, role_of.
  rewrite !Z.rem_mod_nonneg by lia.
  destruct (k mod 15 =? 0) eqn:E15, (k mod 3 =? 0) eqn:E3, (k mod 5 =? 0) eqn:E5;
    destruct r; simpl; split; try done; exfalso; revert E15 E3 E5; clear;
    rewrite ?Z.eqb_eq, ?Z.eqb_neq; Z.to_euclidean_division_equations; lia.
Qed.

(** Among four consecutive numbers two belong to the same thread. *)
Lemma four_clash m :
  ∃ i j, 0 ≤ i < j ∧ j ≤ 3 ∧ role_of (m + i) = role_of (m + j).
Proof.
  unfold role_of.
  assert (0 ≤ m mod 15 < 15) as Hr by (apply Z.mod_pos_bound; lia).
  assert (∀ d, (m + d) mod 15 = (m mod 15 + d) mod 15) as H15.
  { intros d. by rewrite Zplus_mod_idemp_l. }
  assert (∀ d, (m + d) mod 3 = (m mod 15 + d) mod 3) as H3.
  { intros d. Z.to_euclidean_division_equations. lia. }
  assert (∀ d, (m + d) mod 5 = (m mod 15 + d) mod 5) as H5.
  { intros d. Z.to_euclidean_division_equations. lia. }
  setoid_rewrite H15. setoid_rewrite H3. setoid_rewrite H5.
  clear H15 H3 H5. generalize dependent (m mod 15). clear m. intros m Hm.
  assert (m ∈ seqZ 0 15) as Hin by (apply elem_of_seqZ; lia).
  unfold seqZ in Hin. simpl in Hin. rewrite !elem_of_cons, elem_of_nil in Hin.
  destruct_or!; subst m; try done;
    first [ exists 0, 1; split_and!; [lia .. | reflexivity]
          | exists 1, 2; split_and!; [lia .. | reflexivity]
          | exists 2, 3; split_and!; [lia .. | reflexivity]
          | exists 0, 2; split_and!; [lia .. | reflexivity]
          | exists 1, 3; split_and!; [lia .. | reflexivity]
          | exists 0, 3; split_and!; [lia .. | reflexivity] ].
Qed.

(** * Invariants *)

Record fb_inv (N : Z) (s : fizzbuzz) : Prop := {
  inv_n : n s = N;
  inv_pos : 1 ≤ current s;
  inv_lock : ∀ r, pcs s r = FLocked ↔ protecter s = Some r;
  inv_out : numbers (out s) = reference <$> seqZ 1 (current s - 1);
  inv_lines : ∀ r, last_line r (out s) = written r (pcs s r);
  inv_head : if current s <=? first_exit N then out s = reference <$> seqZ 1 (current s - 1)
    else (reference <$> seqZ 1 (first_exit N)) `prefix_of` out s;
  inv_exited : ∀ k, first_exit N ≤ k < current s → gone (pcs s (role_of k)) = true;
  inv_done : ∀ r, gone (pcs s r) = true → ∃ k, first_exit N ≤ k < current s ∧ role_of k = r;
  inv_distinct : ∀ i j, first_exit N ≤ i < j → j < current s → role_of i ≠ role_of j;
  inv_wait : ∀ r, pcs s r = FWait → guard r (current s) = false
}.

Lemma fb_inv_init N : fb_inv N (fb_init N).
Proof.
  split; simpl; try done; try (intros []; naive_solver); unfold first_exit; intros; try lia.
  by destruct (Z.leb_spec 1 (N `max` 1)); [| lia].
Qed.

Lemma set_pc_lookup r r' p f : set_pc r p f r' = if decide (r = r') then p else f r'.
Proof. by destruct r, r'. Qed.
Lemma set_pc_eq r p f : set_pc r p f r = p.
Proof. by destruct r. Qed.
Lemma set_pc_ne r r' p f : r ≠ r' → set_pc r p f r' = f r'.
Proof. by destruct r, r'. Qed.
Lemma notify_pcs_lookup f r : notify_pcs f r = wake_pc (f r).
Proof. by destruct r. Qed.

(** A step of one thread that leaves the counter alone: the thread was not out
    of its loop and does not leave it. *)
Lemma fb_inv_move N s r p m :
  fb_inv N s → gone (pcs s r) = false → gone p = false →
  (p = FWait → guard r (current s) = false) →
  (∀ r', set_pc r p (pcs s) r' = FLocked ↔ m = Some r') →
  fb_inv N (FB (n s) (current s) m (set_pc r p (pcs s)) (out s)).
Proof.
  intros [] Hr Hp Hg Hm. split; simpl; auto.
  - intros r'. rewrite inv_lines0, set_pc_lookup. case_decide as E; [subst r' | done].
    by destruct (pcs s r), p.
  - intros k Hk. rewrite set_pc_ne; [auto |]. intros ->. apply inv_exited0 in Hk. congruence.
  - intros r' Hr'. destruct (decide (r = r')) as [<- |]; [rewrite set_pc_eq in Hr'; congruence |].
    rewrite set_pc_ne in Hr' by done. auto.
  - intros r' Hr'. destruct (decide (r = r')) as [<- |].
    + rewrite set_pc_eq in Hr'. auto.
    + rewrite set_pc_ne in Hr' by done. auto.
Qed.

(** A thread that left its loop writes the next part of its last line. *)
Lemma fb_inv_tail N s r t p :
  fb_inv N s → gone (pcs s r) = true → gone p = true → author t = Some r →
  written r p = written r (pcs s r) ++ [t] → fb_inv N (tail_step r t p s).
Proof.
  intros [] Hr Hp Ht Hw. destruct (inv_done0 r Hr) as (k0 & Hk0 & _).
  assert ((current s <=? first_exit N) = false) as Hc by lia. rewrite Hc in inv_head0.
  split; simpl; auto.
  - intros r'. rewrite set_pc_lookup, <- inv_lock0. case_decide; [subst r' | done].
    split; intros E; rewrite E in *; done.
  - unfold numbers in *. rewrite filter_app, inv_out0, filter_cons_False by congruence. apply app_nil_r.
  - intros r'. unfold last_line in *. rewrite filter_app, inv_lines0, set_pc_lookup.
    case_decide as E; [subst r' |].
    + by rewrite filter_cons_True, Hw.
    + rewrite filter_cons_False by congruence. apply app_nil_r.
  - rewrite Hc. by apply prefix_app_r.
  - intros k Hk. rewrite set_pc_lookup. case_decide; auto.
  - intros r' Hr'. rewrite set_pc_lookup in Hr'. case_decide; subst; auto.
  - intros r'. rewrite set_pc_lookup. case_decide; [by destruct p | auto].
Qed.

(** The counter moves on. *)
Lemma fb_inv_body N s s' r :
  fb_inv N s → pcs s r = FLocked → guard r (current s) = true → body r s = Ok s' → fb_inv N s'.
Proof.
  intros [Hn Hpos Hlock Hout Hlines Hhead Hex Hdone Hdist _] Hr Hg Hb.
  apply guard_role in Hg as ->; [| lia].
  unfold body in Hb. step_inv. sync_inv.
  assert (∀ r', gone (notify_pcs (pcs s) r') = gone (pcs s r')) as Hawake.
  { intros r'. rewrite notify_pcs_lookup. by destruct (pcs s r'). }
  assert (∀ r', written r' (notify_pcs (pcs s) r') = written r' (pcs s r')) as Hwritten.
  { intros r'. rewrite notify_pcs_lookup. by destruct (pcs s r'). }
  assert ((reference <$> seqZ 1 (current s + 1 - 1)) =
    (reference <$> seqZ 1 (current s - 1)) ++ [reference (current s)]) as Hnext.
  { replace (current s + 1 - 1) with (current s - 1 + 1) by lia.
    rewrite seqZ_app, fmap_app by lia. repeat f_equal. unfold seqZ. simpl. f_equal. f_equal. lia. }
  assert (∀ r', notify_pcs (pcs s) r' = FLocked ↔ pcs s r' = FLocked) as Hawl.
  { intros r'. rewrite notify_pcs_lookup. by destruct (pcs s r'). }
  assert (∀ i, first_exit (n s) ≤ i < current s → role_of i ≠ role_of (current s)) as Hfresh.
  { intros i Hi E. apply Hex in Hi. rewrite E, Hr in Hi. done. }
  rewrite print_role.
  split; simpl; try done; try lia.
  - intros r'. rewrite set_pc_lookup. case_decide as E; [subst r'; by destruct (negb _) |].
    rewrite Hawl, Hlock. naive_solver.
  - unfold numbers in *. rewrite Hnext, filter_app, Hout.
    rewrite filter_cons_True; [done | apply reference_author].
  - intros r'. unfold last_line in *. rewrite filter_app, Hlines, filter_cons_False, app_nil_r
      by (rewrite reference_author; done).
    rewrite set_pc_lookup. case_decide as E; [subst r' | by rewrite Hwritten]. rewrite Hr. by destruct (negb _).
  - destruct (Z.leb_spec (current s) (first_exit (n s))).
    + rewrite Hhead, <- Hnext. destruct (Z.leb_spec (current s + 1) (first_exit (n s))); [done |].
      by replace (first_exit (n s)) with (current s + 1 - 1) by lia.
    + destruct (Z.leb_spec (current s + 1) (first_exit (n s))); [lia |]. by apply prefix_app_r.
  - intros k Hk. destruct (decide (k = current s)) as [-> | Hne].
    + rewrite set_pc_eq. unfold first_exit in Hk.
      destruct (current s + 1 >? n s) eqn:E; [done |].
      rewrite Z.gtb_ltb, Z.ltb_ge in E. lia.
    + assert (role_of k ≠ role_of (current s)) by (apply Hfresh; lia).
      rewrite set_pc_ne, Hawake by done. apply Hex. lia.
  - intros r' Hr'. destruct (decide (role_of (current s) = r')) as [<- | Hne].
    + exists (current s). rewrite set_pc_eq in Hr'. split; [| done].
      destruct (current s + 1 >? n s) eqn:E; [| done].
      rewrite Z.gtb_ltb, Z.ltb_lt in E. unfold first_exit. lia.
    + rewrite set_pc_ne, Hawake in Hr' by done.
      destruct (Hdone r' Hr') as (k & Hk & <-). exists k. split; [lia | done].
  - intros i j Hij Hj. destruct (decide (j = current s)) as [-> | Hne].
    + apply Hfresh. lia.
    + apply Hdist; lia.
  - intros r'. rewrite set_pc_lookup. case_decide; [by destruct (negb _) |].
    rewrite notify_pcs_lookup. by destruct (pcs s r').
Qed.

Lemma fb_inv_step N l s s' : fb_inv N s → step l s = Ok s' → fb_inv N s'.
Proof.
  intros Hinv Hs. pose proof (inv_lock N s Hinv) as Hlock.
  destruct l as [r | r]; unfold step, thread_step in Hs.
  - destruct (pcs s r) eqn:Hr; try done.
    + step_inv. sync_inv. apply fb_inv_move; try done; try congruence; try by rewrite Hr.
      intros r'. rewrite set_pc_lookup. case_decide; [naive_solver | rewrite Hlock; naive_solver].
    + destruct (guard r (current s)) eqn:Hg; [by eapply fb_inv_body |].
      step_inv. sync_inv. apply fb_inv_move; try done; try congruence; try by rewrite Hr.
      intros r'. rewrite set_pc_lookup. case_decide; [naive_solver | rewrite Hlock; naive_solver].
    + step_inv. sync_inv. apply fb_inv_move; try done; try congruence; try by rewrite Hr.
      intros r'. rewrite set_pc_lookup. case_decide; [naive_solver | rewrite Hlock; naive_solver].
    + simplify_eq. by apply fb_inv_tail; rewrite ?Hr.
    + simplify_eq. by apply fb_inv_tail; rewrite ?Hr.
    + simplify_eq. by apply fb_inv_tail; rewrite ?Hr.
  - destruct (pcs s r) eqn:Hr; simplify_eq/=. apply fb_inv_move; try done; try congruence; try by rewrite Hr.
    intros r'. rewrite set_pc_lookup. case_decide; [subst; rewrite <- Hlock, Hr; naive_solver | apply Hlock].
Qed.

Lemma fb_inv_reachable N (s : mstate (fb_machine N)) : reachable s → fb_inv N s.
Proof.
  revert s. apply (invariant_ind (fb_machine N)).
  - intros s ->. apply fb_inv_init.
  - intros l s s' _ Hinv Hs. by eapply fb_inv_step.
Qed.

(** At most three numbers from [first_exit] on are printed: a fourth would
    belong to a thread that already left. *)
Lemma fb_overshoot N s : fb_inv N s → current s ≤ first_exit N + 3.
Proof.
  intros Hinv. destruct (four_clash (first_exit N)) as (i & j & Hi & Hj & E).
  destruct (decide (current s ≤ first_exit N + 3)) as [| Hgt]; [done |]. exfalso.
  eapply (inv_distinct N s Hinv (first_exit N + i) (first_exit N + j)); [lia | lia | done].
Qed.

(** Not all four threads leave. *)
Lemma fb_someone_stays N s : fb_inv N s → ∃ r, gone (pcs s r) = false.
Proof.
  intros Hinv. pose proof (fb_overshoot N s Hinv) as Hle.
  destruct (gone (pcs s RFizz)) eqn:H1; [| by exists RFizz].
  destruct (gone (pcs s RBuzz)) eqn:H2; [| by exists RBuzz].
  destruct (gone (pcs s RFizzBuzz)) eqn:H3; [| by exists RFizzBuzz].
  destruct (gone (pcs s RNumber)) eqn:H4; [| by exists RNumber]. exfalso.
  apply (inv_done N s Hinv) in H1 as (k1 & Hk1 & E1), H2 as (k2 & Hk2 & E2),
    H3 as (k3 & Hk3 & E3), H4 as (k4 & Hk4 & E4).
  assert (k1 ≠ k2 ∧ k1 ≠ k3 ∧ k1 ≠ k4 ∧ k2 ≠ k3 ∧ k2 ≠ k4 ∧ k3 ≠ k4)
    by (split_and!; intros ->; congruence).
  lia.
Qed.

(** * Termination of every run, in a deadlock *)

Definition pc_weight (p : fpc) : nat :=
  match p with FEndl => 3 | FTop | FWoken | FId => 2 | FLocked | FEndl2 => 1 | FWait | FDone => 0 end.
Definition pcs_weight (f : fpcs) : nat :=
  pc_weight (p_fizz f) + pc_weight (p_buzz f) + pc_weight (p_fizzbuzz f) + pc_weight (p_number f).
Definition weight (N : Z) (s : fizzbuzz) : nat :=
  16 * Z.to_nat (first_exit N + 4 - current s) + pcs_weight (pcs s).

Lemma pcs_weight_set r p f :
  (pcs_weight (set_pc r p f) + pc_weight (f r) = pcs_weight f + pc_weight p)%nat.
Proof. destruct r; unfold pcs_weight, set_pc; simpl; lia. Qed.

Lemma pcs_weight_bound f : (pcs_weight f ≤ 12)%nat.
Proof.
  unfold pcs_weight. destruct (p_fizz f), (p_buzz f), (p_fizzbuzz f), (p_number f); simpl; lia.
Qed.

Lemma body_weight N r s s' :
  fb_inv N s → fb_inv N s' → pcs s r = FLocked → body r s = Ok s' →
  (weight N s' < weight N s)%nat.
Proof.
  intros Hinv Hinv' Hr Hb. pose proof (fb_overshoot N s' Hinv') as Hle.
  unfold body in Hb. step_inv. unfold weight. simpl in *.
  match goal with |- context [pcs_weight (set_pc r ?p ?f)] =>
    pose proof (pcs_weight_set r p f) as Hset; pose proof (pcs_weight_bound f) as Hbound;
    assert (f r = FLocked) as Hfr by (by rewrite notify_pcs_lookup, Hr);
    assert (pc_weight p ≤ 3)%nat as Hp by (by destruct (negb _); simpl; lia)
  end.
  rewrite Hfr in Hset. simpl in Hset. lia.
Qed.

Lemma scheduled_decreases N l s s' :
  fb_inv N s → scheduled l → step l s = Ok s' → (weight N s' < weight N s)%nat.
Proof.
  intros Hinv Hl Hs. pose proof (fb_inv_step N l s s' Hinv Hs) as Hinv'.
  destruct l as [r |]; [| done]. unfold step, thread_step in Hs.
  destruct (pcs s r) eqn:Hr; try done.
  2: destruct (guard r (current s)); [by eapply body_weight |].
  all: step_inv; sync_inv; unfold weight; simpl;
    match goal with |- context [set_pc ?r ?p ?f] =>
      pose proof (pcs_weight_set r p f) as Hset end;
    rewrite Hr in Hset; simpl in Hset; lia.
Qed.

(** The number at which every run gets stuck: the first one after [first_exit]
    whose thread has already left. *)
Definition stop_at (N : Z) : Z :=
  let m := first_exit N in
  if decide (role_of (m + 1) = role_of m) then m + 1
  else if decide (role_of (m + 2) = role_of m ∨ role_of (m + 2) = role_of (m + 1)) then m + 2
  else m + 3.

Lemma stop_at_unique N s :
  fb_inv N s → gone (pcs s (role_of (current s))) = true → current s = stop_at N.
Proof.
  intros Hinv Hd. pose proof (fb_overshoot N s Hinv) as Hle.
  apply (inv_done N s Hinv) in Hd as (k & Hk & E).
  pose proof (inv_distinct N s Hinv) as Hdist. unfold stop_at. cbv zeta.
  set (m := first_exit N) in *.
  assert (current s = m + 1 ∨ current s = m + 2 ∨ current s = m + 3) as Hcases by lia.
  destruct Hcases as [Hc | [Hc | Hc]]; rewrite Hc in E |- *.
  - assert (k = m) as -> by lia. by rewrite decide_True.
  - rewrite decide_False.
    2: { intros E1. apply (Hdist m (m + 1)); [lia | lia | done]. }
    rewrite decide_True; [done |].
    assert (k = m ∨ k = m + 1) as [-> | ->] by lia; auto.
  - rewrite decide_False.
    2: { intros E1. apply (Hdist m (m + 1)); [lia | lia | done]. }
    rewrite decide_False; [done |].
    intros [E1 | E1]; [apply (Hdist m (m + 2)) | apply (Hdist (m + 1) (m + 2))];
      try lia; done.
Qed.

(** A state that cannot move: some thread sleeps in [cv.wait], and the thread
    the counter waits for has left. *)
Lemma fb_stuck N s :
  fb_inv N s → N ≤ INT_MAX - 4 → (∀ r s', step (LRun r) s ≠ Ok s') →
  (∃ r, pcs s r = FWait) ∧ (∀ r, pcs s r = FWait ∨ pcs s r = FDone) ∧ current s = stop_at N.
Proof.
  intros Hinv HN Hstuck. pose proof (fb_overshoot N s Hinv) as Hle.
  assert (∀ r, pcs s r ≠ FLocked) as Hnl.
  { intros r Hr. pose proof (proj1 (inv_lock N s Hinv r) Hr) as Hm.
    specialize (Hstuck r). unfold step, thread_step, body in Hstuck.
    rewrite Hr, Hm, mutex_unlock_own in Hstuck.
    replace (current s <? INT_MAX) with true in Hstuck
      by (symmetry; apply Z.ltb_lt; unfold first_exit, INT_MAX in *; lia).
    destruct (guard r (current s)); by eapply Hstuck. }
  assert (protecter s = None) as Hm.
  { destruct (protecter s) as [r |] eqn:E; [| done].
    exfalso. by eapply Hnl, inv_lock. }
  assert (∀ r, pcs s r = FWait ∨ pcs s r = FDone) as Hwd.
  { intros r. specialize (Hstuck r). unfold step, thread_step in Hstuck.
    rewrite Hm in Hstuck. specialize (Hnl r).
    destruct (pcs s r); auto; try done; by edestruct Hstuck. }
  split_and!; [| exact Hwd |].
  - destruct (fb_someone_stays N s Hinv) as [r Hr]. exists r.
    destruct (Hwd r) as [| E]; [done | by rewrite E in Hr].
  - apply stop_at_unique; [done |]. destruct (Hwd (role_of (current s))) as [Hw | ->]; [| done].
    apply (inv_wait N s Hinv) in Hw.
    assert (guard (role_of (current s)) (current s) = true) as Hg; [| congruence].
    apply guard_role; [pose proof (inv_pos N s Hinv); lia | done].
Qed.

(** * The properties *)

(** C16. In every reachable state, under every schedule and any number of
    spurious wake-ups: the words and numbers printed are Fizz Buzz for 1, 2, ...,
    [current - 1] in order, at most two numbers past [n] (past 1 when [n] is not
    positive); up to [n] nothing else is printed in between; and each thread
    writes its last line (a newline, its identity, a newline) once, after it left
    its loop, at any place among the numbers past [n]. *)
Theorem fb_output N (s : mstate (fb_machine N)) :
  reachable s →
  numbers (out s) = reference <$> seqZ 1 (current s - 1) ∧ current s - 1 ≤ Z.max N 1 + 2 ∧
  (if current s <=? Z.max N 1 then out s = reference <$> seqZ 1 (current s - 1)
   else (reference <$> seqZ 1 (Z.max N 1)) `prefix_of` out s) ∧
  ∀ r, last_line r (out s) = written r (pcs s r).
Proof.
  intros Hinv%fb_inv_reachable. pose proof (fb_overshoot N s Hinv). unfold first_exit in *.
  split_and!; [by apply (inv_out N) | lia | by apply (inv_head N) | by apply (inv_lines N)].
Qed.

(** The program never ends: for every [n] (below the range where the
    counter overflows) every run stops after finitely many steps, always with
    the same words and numbers, Fizz Buzz up to the first number after [n] whose
    thread has already left; there at least one of the four threads sleeps in
    [cv.wait] for ever, so [main] never returns from [join], and every other
    thread has ended. *)
Theorem fb_deadlocks N (s : mstate (fb_machine N)) :
  N ≤ INT_MAX - 4 → reachable s →
  sn (msteps (fb_machine N) scheduled) s ∧
  (quiescent (fb_machine N) scheduled s →
     numbers (out s) = reference <$> seqZ 1 (stop_at N - 1) ∧
     (∃ r, pcs s r = FWait) ∧ ∀ r, pcs s r = FWait ∨ pcs s r = FDone).
Proof.
  intros HN Hr. pose proof (fb_inv_reachable N s Hr) as Hinv. split.
  - apply (sn_measure (fb_machine N) scheduled (weight N)); [| done].
    intros l s1 s2 Hr1%fb_inv_reachable Hl Hs. by eapply scheduled_decreases.
  - intros Hq. destruct (fb_stuck N s Hinv HN) as (Hw & Hall & Hc).
    { intros r. by apply (Hq (LRun r)). }
    split_and!; [| done | done]. rewrite <- Hc. by apply (inv_out N).
Qed.

(** * The run of [main]: n = 23 *)

(** Every thread gets the processor in turn. *)
Definition round_robin (k : nat) : list label :=
  concat (replicate k [LRun RFizz; LRun RBuzz; LRun RFizzBuzz; LRun RNumber]).

(** Keeps the labels that can be taken one after the other. *)
Fixpoint enabled_run (ls : list label) (s : fizzbuzz) : list label :=
  match ls with
  | [] => []
  | l :: ls => match step l s with Ok s' => l :: enabled_run ls s' | _ => enabled_run ls s end
  end.

Definition main_run : list label := Eval vm_compute in enabled_run (round_robin 120) (fb_init 23).

(** The two threads that leave, at 23 and 24, write their last lines around
    what is printed past 23. *)
Lemma fb_output_witness :
  ∃ s : mstate (fb_machine 23), reachable s ∧
    numbers (out s) = reference <$> seqZ 1 25 ∧ last_line RNumber (out s) = [Endl RNumber; Id RNumber; Endl RNumber].
Proof.
  assert (∃ s, exec (fb_machine 23) main_run (fb_init 23) = Ok s ∧ current s = 26 ∧ pcs s RNumber = FDone)
    as (s & He & Hc & Hp).
  { eexists. split; [vm_compute; reflexivity | by split]. }
  assert (reachable (M := fb_machine 23) s) as Hr by (by eapply (exec_reachable (fb_machine 23))).
  destruct (fb_output 23 s Hr) as (Hn & _ & _ & Hl). exists s. split_and!; [done | |].
  - rewrite Hn, Hc. reflexivity.
  - by rewrite Hl, Hp.
Defined.

(** With n = 23 the program prints [Fizz] for 24 and [Buzz] for 25 before it
    hangs. *)
Lemma fb_deadlocks_witness :
  ∃ s : mstate (fb_machine 23), reachable s ∧ stop_at 23 = 26 ∧
    sn (msteps (fb_machine 23) scheduled) s ∧
    numbers (out s) = reference <$> seqZ 1 25 ∧ ∃ r, pcs s r = FWait.
Proof.
  assert (∃ s, exec (fb_machine 23) main_run (fb_init 23) = Ok s ∧
    ∀ r, step (LRun r) s = Blocked) as (s & He & Hb).
  { eexists. split; [vm_compute; reflexivity | intros []; reflexivity]. }
  assert (reachable (M := fb_machine 23) s) as Hr by (by eapply (exec_reachable (fb_machine 23))).
  assert (quiescent (fb_machine 23) scheduled s) as Hq.
  { intros [r | r] Hl s' Hs; [| done]. change (step (LRun r) s = Ok s') in Hs.
    rewrite Hb in Hs. discriminate. }
  assert (stop_at 23 = 26) as E by reflexivity.
  destruct (fb_deadlocks 23 s ltac:(unfold INT_MAX; lia) Hr) as [Hsn Hend].
  rewrite E in Hend. exists s. split_and!; [done | done | done | apply (Hend Hq) ..].
Defined.
