(* ===== verification/ProducerConsumer.v ===== *)
(** The one-producer one-consumer programs of [code/concurrent]: [1p1c_cv.cpp]
    (condition variable with a predicate), [1p1c.cpp] (condition variable
    without one) and [1p1c_mutex.cpp] (mutex only).  The clock is free: the
    producer may stop at any round. *)

From S2P Require Import Prelude Sync.

Section producer_consumer.
Context {D : Type}.

Inductive agent := Producer | Consumer.
#[export] Instance agent_eq_dec : EqDecision agent.
Proof. solve_decision. Defined.

(** Where the producer is. *)
Inductive ppc :=
  | PTop                        (* at the test of the clock *)
  | PLock (stage : list D)      (* eight values generated, at the lock *)
  | PHeld (stage : list D)      (* [protecter] held *)
  | PStore                      (* at [end_flag.store(true)] *)
  | PNotify                     (* at the last [notify_one] *)
  | PDone.

(** Where the consumer is. *)
Inductive cpc :=
  | CTop                        (* at the head of the loop *)
  | CLock                       (* at the lock *)
  | CCheck                      (* lock held, at [cv.wait] *)
  | CSleepy                     (* the predicate was false; about to release and sleep *)
  | CWait                       (* asleep *)
  | CWoken                      (* notified, taking the lock again *)
  | CGot                        (* out of [wait], lock held *)
  | CDrain                      (* out of the loop (without predicate), lock released *)
  | CDone.

#[export] Instance cpc_condvar : CondVar cpc := {
  cv_waiting c := match c with CWait => true | _ => false end;
  cv_woken _ := CWoken;
  cv_woken_awake _ _ := eq_refl
}.

Record state := State {
  protecter : option agent;
  data_pool : list D;
  end_flag : bool;
  prod : ppc;
  cons : cpc;
  batch_size : nat;
  produced : list D;
  consumed : list D
}.

Definition init : state := State None [] false PTop CTop 100 [] [].

Definition set_prod m p s :=
  State m (data_pool s) (end_flag s) p (cons s) (batch_size s) (produced s) (consumed s).
Definition set_cons m c s :=
  State m (data_pool s) (end_flag s) (prod s) c (batch_size s) (produced s) (consumed s).
Definition append_stage stage s :=
  State (protecter s) (data_pool s ++ stage) (end_flag s) (prod s) (cons s) (batch_size s)
    (produced s ++ stage) (consumed s).
Definition store_end s :=
  State (protecter s) (data_pool s) true (prod s) (cons s) (batch_size s) (produced s) (consumed s).
Definition set_batch n s :=
  State (protecter s) (data_pool s) (end_flag s) (prod s) (cons s) n (produced s) (consumed s).

(** [start = begin(), end = std::next(begin(), n)], then [erase(start, end)]:
    undefined when the list is shorter. *)
Definition take_batch n s : outcome state :=
  if decide (n ≤ length (data_pool s)) then
    Ok (State (protecter s) (drop n (data_pool s)) (end_flag s) (prod s) (cons s) (batch_size s)
          (produced s) (consumed s ++ take n (data_pool s)))
  else UB.

(** [notify_one]: the consumer is the only thread that may wait. *)
Definition notify s := set_cons (protecter s) (if cv_waiting (cons s) then CWoken else cons s) s.

(** [data_pool.size() >= 100] *)
Definition full (pool : list D) : bool := bool_decide (100 ≤ length pool).

(** The predicate of [cv.wait] in [1p1c_cv.cpp]. *)
Definition wait_pred s : bool := full (data_pool s) || end_flag s.

(** The producer; [stage] is the next batch of eight values, or [None] when the
    time is over. *)
Definition producer_step (stage : option (list D)) s : outcome state :=
  match prod s with
  | PTop =>
      match stage with
      | Some stage => _ ← await (length stage =? 8); Ok (set_prod (protecter s) (PLock stage) s)
      | None => Ok (set_prod (protecter s) PStore s)
      end
  | PLock stage => m ← mutex_lock Producer (protecter s); Ok (set_prod m (PHeld stage) s)
  | PHeld stage =>
      let s := append_stage stage s in
      let s := if full (data_pool s) then notify s else s in
      m ← mutex_unlock Producer (protecter s);
      Ok (set_prod m PTop s)
  | PStore => Ok (set_prod (protecter s) PNotify (store_end s))
  | PNotify => Ok (set_prod (protecter s) PDone (notify s))
  | PDone => Blocked
  end.

(** The consumer of [1p1c_cv.cpp]. *)
Definition consumer_step s : outcome state :=
  match cons s with
  | CTop => if end_flag s then Ok (set_cons (protecter s) CDone s)
            else Ok (set_cons (protecter s) CLock s)
  | CLock | CWoken => m ← mutex_lock Consumer (protecter s); Ok (set_cons m CCheck s)
  | CCheck => if wait_pred s then Ok (set_cons (protecter s) CGot s)
              else Ok (set_cons (protecter s) CSleepy s)
  | CSleepy => m ← mutex_unlock Consumer (protecter s); Ok (set_cons m CWait s)
  | CGot =>
      let s := if end_flag s then set_batch (length (data_pool s)) s else s in
      s ← take_batch (batch_size s) s;
      m ← mutex_unlock Consumer (protecter s);
      Ok (set_cons m CTop s)
  | CWait | CDrain | CDone => Blocked
  end.

(** The consumer of [1p1c.cpp]: [cv.wait(locker)] without a predicate; the lock
    is released before the rest of the pool is drained. *)
Definition plain_consumer_step s : outcome state :=
  match cons s with
  | CTop => Ok (set_cons (protecter s) CLock s)
  | CLock => m ← mutex_lock Consumer (protecter s); Ok (set_cons m CSleepy s)
  | CSleepy => m ← mutex_unlock Consumer (protecter s); Ok (set_cons m CWait s)
  | CWoken => m ← mutex_lock Consumer (protecter s); Ok (set_cons m CGot s)
  | CGot =>
      if end_flag s then
        m ← mutex_unlock Consumer (protecter s); Ok (set_cons m CDrain s)
      else
        s ← take_batch (batch_size s) s;
        m ← mutex_unlock Consumer (protecter s);
        Ok (set_cons m CTop s)
  | CDrain =>
      let s := set_batch (length (data_pool s)) s in
      s ← take_batch (batch_size s) s;
      Ok (set_cons (protecter s) CDone s)
  | CCheck | CWait | CDone => Blocked
  end.
Definition plain_producer_step := producer_step.

Inductive label := LProducer (stage : option (list D)) | LConsumer | LSpurious.

(** A spurious wake-up of the consumer. *)
Definition spurious s : outcome state :=
  if cv_waiting (cons s) then Ok (set_cons (protecter s) CWoken s) else Blocked.

Definition cv_step l s : outcome state :=
  match l with
  | LProducer stage => producer_step stage s
  | LConsumer => consumer_step s
  | LSpurious => spurious s
  end.
Definition plain_step l s : outcome state :=
  match l with
  | LProducer stage => plain_producer_step stage s
  | LConsumer => plain_consumer_step s
  | LSpurious => spurious s
  end.

Definition cv_machine : machine := Machine state label (λ s, s = init) cv_step.
Definition plain_machine : machine := Machine state label (λ s, s = init) plain_step.

Definition scheduled l : Prop := match l with LSpurious => False | _ => True end.

(** * [1p1c_mutex.cpp]: the consumer polls and takes the last element *)
Record mstate_ := MState {
  m_protecter : option agent;
  data_buffer : list D;
  m_end : bool;
  m_prod : ppc;
  m_cons : cpc;
  m_produced : list D;
  m_consumed : list D
}.

Definition mutex_producer_step (stage : option (list D)) (s : mstate_) : outcome mstate_ :=
  match m_prod s with
  | PTop =>   (* [do]: a value is pushed before the clock is read *)
      match stage with
      | Some [x] => Ok (MState (m_protecter s) (data_buffer s) (m_end s) (PLock [x]) (m_cons s) (m_produced s) (m_consumed s))
      | _ => Blocked
      end
  | PLock st =>
      m ← mutex_lock Producer (m_protecter s);
      Ok (MState m (data_buffer s) (m_end s) (PHeld st) (m_cons s) (m_produced s) (m_consumed s))
  | PHeld st =>
      m ← mutex_unlock Producer (m_protecter s);
      Ok (MState m (data_buffer s ++ st) (m_end s)
            PStore (m_cons s) (m_produced s ++ st) (m_consumed s))
  | PStore =>  (* the clock: another round, or [end_flag.store(true)] *)
      match stage with
      | Some _ => Ok (MState (m_protecter s) (data_buffer s) (m_end s) PTop (m_cons s) (m_produced s) (m_consumed s))
      | None => Ok (MState (m_protecter s) (data_buffer s) true PDone (m_cons s) (m_produced s) (m_consumed s))
      end
  | PNotify | PDone => Blocked
  end.

Definition mutex_consumer_step (s : mstate_) : outcome mstate_ :=
  match m_cons s with
  | CTop => Ok (MState (m_protecter s) (data_buffer s) (m_end s) (m_prod s)
                 (if m_end s then CDone else CLock) (m_produced s) (m_consumed s))
  | CLock =>
      m ← mutex_lock Consumer (m_protecter s);
      Ok (MState m (data_buffer s) (m_end s) (m_prod s) CGot (m_produced s) (m_consumed s))
  | CGot =>
      m ← mutex_unlock Consumer (m_protecter s);
      match last (data_buffer s) with
      | Some x => Ok (MState m (take (length (data_buffer s) - 1) (data_buffer s)) (m_end s) (m_prod s) CTop
                        (m_produced s) (m_consumed s ++ [x]))
      | None => Ok (MState m (data_buffer s) (m_end s) (m_prod s) CTop (m_produced s) (m_consumed s))
      end
  | _ => Blocked
  end.

Definition mutex_step l s : outcome mstate_ :=
  match l with
  | LProducer stage => mutex_producer_step stage s
  | LConsumer => mutex_consumer_step s
  | LSpurious => Blocked
  end.
Definition mutex_machine : machine :=
  Machine mstate_ label (λ s, s = MState None [] false PTop CTop [] []) mutex_step.
End producer_consumer.

Arguments ppc : clear implicits.
Arguments state : clear implicits.
Arguments label : clear implicits.
Arguments cv_machine : clear implicits.
Arguments plain_machine : clear implicits.
Arguments mutex_machine : clear implicits.

#[global] Arguments full : simpl never.

Lemma full_spec {D} (l : list D) : full l = true ↔ 100 ≤ length l.
Proof. apply bool_decide_eq_true. Qed.

Lemma full_app {D} (l l' : list D) : full l = true → full (l ++ l') = true.
Proof. rewrite !full_spec, length_app. lia. Qed.

(** Cases of a step. *)
Ltac pc_step l :=
  destruct l; unfold cv_step, plain_step, plain_producer_step, producer_step, consumer_step,
    plain_consumer_step, spurious, take_batch, mutex_step, mutex_producer_step, mutex_consumer_step in *;
  step_inv; sync_inv.

Section proofs.
Context {D : Type}.
Implicit Types (s : state D).

Definition c_holds (c : cpc) : Prop := match c with CCheck | CSleepy | CGot => True | _ => False end.
Definition p_holds (p : ppc D) : Prop := match p with PHeld _ => True | _ => False end.
Definition p_ending (p : ppc D) : Prop := match p with PNotify | PDone => True | _ => False end.

(** What both condition-variable programs keep. *)
Record common_inv s : Prop := {
  inv_clock : protecter s = Some Consumer ↔ c_holds (cons s);
  inv_plock : protecter s = Some Producer ↔ p_holds (prod s);
  inv_flow : produced s = consumed s ++ data_pool s;
  inv_end : end_flag s = true ↔ p_ending (prod s)
}.

Record cv_inv s : Prop := {
  cv_common : common_inv s;
  cv_got : cons s = CGot → wait_pred s = true;
  cv_batch : end_flag s = false → batch_size s = 100
}.

Record plain_inv s : Prop := {
  plain_common : common_inv s;
  plain_got : cons s = CWoken ∨ cons s = CGot → wait_pred s = true;
  plain_batch : cons s ≠ CDrain → cons s ≠ CDone → batch_size s = 100
}.

Lemma flow_take s n :
  produced s = consumed s ++ data_pool s →
  produced s = (consumed s ++ take n (data_pool s)) ++ drop n (data_pool s).
Proof. intros ->. by rewrite <- app_assoc, take_drop. Qed.

Lemma producer_common stage s s' :
  common_inv s → producer_step stage s = Ok s' → common_inv s'.
Proof.
  intros [H1 H2 H3 H4] Hs. unfold producer_step in Hs. step_inv; sync_inv.
  all: split; simpl in *; try done; try (by rewrite H3, app_assoc);
    destruct (cons s); simpl in *; intuition congruence.
Qed.

(** The producer never undoes the predicate, and wakes the consumer only when
    it holds. *)
Lemma producer_wakes stage s s' :
  common_inv s → producer_step stage s = Ok s' →
  batch_size s' = batch_size s ∧ (wait_pred s = true → wait_pred s' = true) ∧
  (end_flag s' = false → end_flag s = false) ∧
  (cons s' = cons s ∨ (cons s = CWait ∧ cons s' = CWoken ∧ wait_pred s' = true)).
Proof.
  intros [_ _ _ H4] Hs. unfold producer_step, wait_pred in *. step_inv; sync_inv.
  all: split_and!; try done; try (by left);
    try (rewrite !orb_true_iff; intros [? | ?]; auto using full_app).
  all: destruct (cons s); simpl; try (by left); right; split_and!; try done; rewrite ?Heqb, ?orb_true_r; try done.
  rewrite (proj2 H4 I). apply orb_true_r.
Qed.

Lemma cv_inv_step l s s' : cv_inv s → cv_step l s = Ok s' → cv_inv s'.
Proof.
  intros [Hc Hg Hb] Hs. destruct l as [stage | |]; unfold cv_step in Hs.
  - destruct (producer_wakes _ _ _ Hc Hs) as (Hbatch & Hpred & Hend & Hcons). split.
    + by eapply producer_common.
    + intros Hgot. apply Hpred, Hg. destruct Hcons as [<- | (? & ? & _)]; congruence.
    + intros He. rewrite Hbatch. auto.
  - pose proof Hc as [H1 H2 H3 H4]. unfold consumer_step, take_batch in Hs. step_inv; sync_inv;
      (split; [split |..]; simpl in *; try done;
        try (by rewrite <- app_assoc, take_drop); intuition congruence).
  - pose proof Hc as [H1 H2 H3 H4]. unfold spurious in Hs. step_inv; simplify_eq.
    split; [split |..]; simpl in *; try done; destruct (cons s); simpl in *; intuition congruence.
Qed.

Lemma plain_inv_step l s s' : plain_inv s → scheduled l → plain_step l s = Ok s' → plain_inv s'.
Proof.
  intros [Hc Hg Hb] Hl Hs. destruct l as [stage | |]; [| | done]; unfold plain_step, plain_producer_step in Hs.
  - destruct (producer_wakes _ _ _ Hc Hs) as (Hbatch & Hpred & Hend & Hcons). split.
    + by eapply producer_common.
    + destruct Hcons as [-> | (_ & _ & ?)]; auto.
    + rewrite Hbatch. intros H1 H2. apply Hb; destruct Hcons as [<- | (? & ? & _)]; congruence.
  - pose proof Hc as [H1 H2 H3 H4]. unfold plain_consumer_step, take_batch in Hs. step_inv; sync_inv;
      (split; [split |..]; simpl in *; try done;
        try (by rewrite <- app_assoc, take_drop); intuition congruence).
Qed.

Lemma init_common : common_inv (init : state D).
Proof. by split. Qed.

Lemma cv_inv_reachable (s : mstate (cv_machine D)) : reachable s → cv_inv s.
Proof.
  revert s. apply (invariant_ind (cv_machine D)).
  - intros s ->. by split; [apply init_common | ..].
  - intros l s s' _ IH Hs. exact (cv_inv_step l s s' IH Hs).
Qed.

Lemma plain_inv_scheduled (s : mstate (plain_machine D)) :
  rtc (msteps (plain_machine D) scheduled) init s → plain_inv s.
Proof.
  intros Hr. cut (plain_inv (init : state D)); [| split; [apply init_common | |]; simpl; intuition congruence].
  induction Hr as [| s1 s2 s3 (l & Hl & Hs) _ IH]; [done |]. intros Hinv.
  apply IH. exact (plain_inv_step l s1 s2 Hinv Hl Hs).
Qed.

(** A consumer that is asleep once the producer has finished sleeps forever. *)
Lemma stuck_step l s s' :
  scheduled l → prod s = PDone → cons s = CWait → cv_step l s = Ok s' → False.
Proof.
  intros Hl Hp Hc Hs. destruct l as [stage | |]; [| | done];
    unfold cv_step, producer_step, consumer_step in Hs; by rewrite ?Hp, ?Hc in Hs.
Qed.
End proofs.

(** * The properties *)

(** C25. The version with a predicate: nothing is lost, duplicated or overtaken,
    and no step is undefined; in particular a batch is never taken past the end
    of the pool, even after spurious wake-ups. *)
Theorem cv_conserves {D} (s : mstate (cv_machine D)) :
  reachable s →
  produced s = consumed s ++ data_pool s ∧ ∀ l, cv_step l s ≠ UB.
Proof.
  intros [Hc Hg Hb]%cv_inv_reachable. pose proof Hc as [H1 H2 H3 H4]. split; [done |].
  intros l Hs. unfold wait_pred in Hg. pose proof (full_spec (data_pool s)) as Hfull.
  pc_step l; simpl in *; try intuition congruence; try lia.
  clear Heqs0. destruct (end_flag s); simpl in *; [lia |].
  rewrite orb_false_r, Hfull in Hg. rewrite Hb in n by done. specialize (Hg eq_refl). lia.
Qed.

(** The wake-up at the end can be lost: [end_flag] is set and notified
    without the mutex, possibly between the consumer's test of the predicate
    and its sleep.  In the state reached then no thread can move, except for
    a spurious wake-up, and the values of the pool are never consumed. *)
Theorem cv_hangs :
  ∃ s : mstate (cv_machine nat), reachable s ∧ quiescent (cv_machine nat) scheduled s ∧
    end_flag s = true ∧ cons s = CWait ∧ prod s = PDone ∧ data_pool s = [1; 2; 3; 4; 5; 6; 7; 8].
Proof.
  eexists. split; [run_schedule (cv_machine nat)
    ([LProducer (Some [1; 2; 3; 4; 5; 6; 7; 8]); LProducer None; LProducer None;
      LConsumer; LConsumer; LConsumer; LProducer None; LProducer None; LProducer None;
      LConsumer] : list (label nat)) |].
  split; [| by split_and!]. intros l Hl s' Hs.
  by refine (stuck_step l _ s' Hl _ _ Hs).
Qed.

(** The version without a predicate relies on being woken by the producer
    only: as long as no wake-up is spurious a batch is only taken from a pool
    that holds it and no step is undefined, but one spurious wake-up makes the
    consumer erase past the end of the pool. *)
Theorem plain_wait_unsafe :
  (∀ (s : mstate (plain_machine nat)) l,
     rtc (msteps (plain_machine nat) scheduled) init s → scheduled l → plain_step l s ≠ UB) ∧
  ∃ s : mstate (plain_machine nat), reachable s ∧ plain_step LConsumer s = UB.
Proof.
  split.
  - intros s l [Hc Hg Hb]%plain_inv_scheduled Hl Hs. pose proof Hc as [H1 H2 H3 H4].
    unfold wait_pred in Hg. pose proof (full_spec (data_pool s)) as Hfull.
    pc_step l; simpl in *; try intuition congruence; try lia.
    clear Heqs0. rewrite Hb in n by congruence. destruct (full (data_pool s)); simpl in *.
    + destruct Hfull as [Hfull _]. specialize (Hfull eq_refl). lia.
    + specialize (Hg (or_intror eq_refl)). congruence.
    + lia.
  - eexists. split; [run_schedule (plain_machine nat)
      ([LConsumer; LConsumer; LConsumer; LSpurious; LConsumer] : list (label nat)) |].
    by vm_compute.
Qed.

(** The mutex version: whatever is produced is consumed or still in the
    buffer (the consumer takes the newest value first). *)
Lemma mutex_conserves {D} (s : mstate (mutex_machine D)) :
  reachable s → m_produced s ≡ₚ m_consumed s ++ data_buffer s.
Proof.
  revert s. apply (invariant_ind (mutex_machine D)).
  - by intros s ->.
  - intros l s s' _ IH Hs. change (mutex_step l s = Ok s') in Hs.
    pc_step l; simpl; try done; try (by rewrite IH, app_assoc).
    rewrite IH, <- app_assoc. f_equiv. apply last_Some in Heqo as [l' ->].
    rewrite length_app, take_app_le by (simpl; lia). rewrite take_ge by (simpl; lia).
    by rewrite Permutation_app_comm.
Qed.

Lemma cv_conserves_witness :
  ∃ s : mstate (cv_machine nat), reachable s ∧ length (consumed s) = 100 ∧
    produced s = consumed s ++ data_pool s.
Proof.
  eexists. assert (reachable _) as Hr by run_schedule (cv_machine nat)
    (concat (replicate 13 [LProducer (Some [1; 2; 3; 4; 5; 6; 7; 8]); LProducer None; LProducer None]) ++
     [LConsumer; LConsumer; LConsumer; LConsumer] : list (label nat)).
  split_and!; [exact Hr | reflexivity | exact (proj1 (cv_conserves _ Hr))].
Defined.
