(* ===== verification/MyFuture.v ===== *)
(** [code/concurrent/MyFuture.cpp]: a future made of a reference-counted inner
    object ([MyFutureInner]) and its handles ([MyFuture]).  The reference count
    and the value are separate components of the inner object, modelled one
    after the other. *)

From S2P Require Import Prelude Sync.

(** * Handles and the reference count *)
Module Handles.
(** A handle: pointing to the inner object, emptied by a move, destroyed. *)
Inductive handle := Pointing | Null | Destroyed.

(** [inner]: the count of the inner object, [None] once it is deleted. *)
Record state := State { inner : option Z; handles : list handle }.

Definition init : state := State (Some 1%Z) [Pointing].

(** [++]/[--] of a [std::atomic_int], which wraps around. *)
Definition wrap (z : Z) : Z := ((z + 2 ^ 31) mod 2 ^ 32 - 2 ^ 31)%Z.

(** The copy constructor from handle [h]. *)
Definition copy_construct (h : nat) (s : state) : outcome state :=
  match handles s !! h with
  | Some Pointing =>
      c ← from_option_ub (inner s);
      Ok (State (Some (wrap (c + 1))) (handles s ++ [Pointing]))
  | Some Null => UB
  | Some Destroyed | None => Blocked
  end.

(** The move constructor from handle [h]. *)
Definition move_construct (h : nat) (s : state) : outcome state :=
  match handles s !! h with
  | Some Pointing => Ok (State (inner s) (<[h:=Null]> (handles s) ++ [Pointing]))
  | Some Null => Ok (State (inner s) (handles s ++ [Null]))
  | Some Destroyed | None => Blocked
  end.

(** The destructor of handle [h]. *)
Definition destroy (h : nat) (s : state) : outcome state :=
  match handles s !! h with
  | Some Pointing =>
      c ← from_option_ub (inner s);
      let c := wrap (c - 1) in
      Ok (State (if (c =? 0)%Z then None else Some c) (<[h:=Destroyed]> (handles s)))
  | Some Null => Ok (State (inner s) (<[h:=Destroyed]> (handles s)))
  | Some Destroyed | None => Blocked
  end.

(** [use_count], and the dereference every call through a handle makes. *)
Definition use_count (h : nat) (s : state) : outcome Z :=
  match handles s !! h with
  | Some Pointing => from_option_ub (inner s)
  | Some Null => UB
  | Some Destroyed | None => Blocked
  end.

Inductive label := LCopy (h : nat) | LMove (h : nat) | LDestroy (h : nat).
Definition step (l : label) (s : state) : outcome state :=
  match l with
  | LCopy h => copy_construct h s
  | LMove h => move_construct h s
  | LDestroy h => destroy h s
  end.
Definition machine_ : machine := Machine state label (λ s, s = init) step.

Definition pointing (h : handle) : nat := match h with Pointing => 1 | _ => 0 end.
Definition live (s : state) : nat := sum_list_with pointing (handles s).
End Handles.

(** * The value *)
Module Value.
Section value.
Context {T : Type}.

(** [value_]: default-constructed, set, or moved from. *)
Inductive value := Default | Val (t : T) | MovedFrom.

(** A thread that calls [copy] or [move] ([get]), or [set]. *)
Inductive tpc :=
  | GStart (copy : bool)
  | GHeld (copy : bool)          (* [mutex_] held, testing [value_set_] *)
  | GWait (copy : bool)          (* asleep in [condition_.wait] *)
  | GWoken (copy : bool)         (* notified, taking [mutex_] again *)
  | GReturn (copy : bool)        (* out of [wait], [mutex_] held *)
  | GDone (v : value)
  | SStart (t : T)
  | SHeld (t : T)
  | SDone.

#[export] Instance tpc_condvar : CondVar tpc.
Proof.
  refine {|
    cv_waiting p := match p with GWait _ => true | _ => false end;
    cv_woken p := match p with GWait c => GWoken c | p => p end
  |}.
  by intros [].
Defined.

Record state := State {
  mutex_ : option nat;
  value_ : value;
  value_set_ : bool;
  threads : list tpc
}.

Definition init (ts : list tpc) : state := State None Default false ts.

Definition set_thread m i p s := State m (value_ s) (value_set_ s) (<[i:=p]> (threads s)).

(** [return value_] or [return std::move(value_)], releasing the mutex. *)
Definition give (copy : bool) m i s : state :=
  State m (if copy then value_ s else MovedFrom) (value_set_ s)
    (<[i:=GDone (value_ s)]> (threads s)).

Definition thread_step (i : nat) (s : state) : outcome state :=
  match threads s !! i with
  | Some (GStart c) => m ← mutex_lock i (mutex_ s); Ok (set_thread m i (GHeld c) s)
  | Some (GHeld c) =>
      m ← mutex_unlock i (mutex_ s);
      if value_set_ s then Ok (give c m i s) else Ok (set_thread m i (GWait c) s)
  | Some (GWoken c) => m ← mutex_lock i (mutex_ s); Ok (set_thread m i (GReturn c) s)
  | Some (GReturn c) => m ← mutex_unlock i (mutex_ s); Ok (give c m i s)
  | Some (SStart t) => m ← mutex_lock i (mutex_ s); Ok (set_thread m i (SHeld t) s)
  | Some (SHeld t) =>
      m ← mutex_unlock i (mutex_ s);
      Ok (State m (Val t) true (notify_all (<[i:=SDone]> (threads s))))
  | Some (GWait _) | Some (GDone _) | Some SDone | None => Blocked
  end.

Inductive label := LThread (i : nat) | LSpurious (i : nat).
Definition step (l : label) (s : state) : outcome state :=
  match l with
  | LThread i => thread_step i s
  | LSpurious i => ts ← wake i (threads s); Ok (State (mutex_ s) (value_ s) (value_set_ s) ts)
  end.

Definition fresh (p : tpc) : Prop := match p with GStart _ | SStart _ => True | _ => False end.

(** Any number of threads about to call [get] or [set]. *)
Definition machine_ : machine :=
  Machine state label (λ s, ∃ ts, Forall fresh ts ∧ s = init ts) step.
Definition scheduled (l : label) : Prop := match l with LThread _ => True | LSpurious _ => False end.

(** What is seen of the calls: the argument of a [set] that takes effect, and
    what a [get] returned. *)
Inductive event := Stored (i : nat) (t : T) | Got (i : nat) (copy : bool) (v : value).
Definition future_event (l : label) (s s' : state) : option event :=
  match l with
  | LThread i =>
      match threads s !! i, threads s' !! i with
      | Some (SHeld t), _ => Some (Stored i t)
      | Some (GHeld c), Some (GDone v) | Some (GReturn c), Some (GDone v) => Some (Got i c v)
      | _, _ => None
      end
  | LSpurious _ => None
  end.

(** The contract: a cell. [set] fills it; [get] is given what the cell holds,
    which must have been filled, and empties it unless it copies. *)
#[export] Instance value_eq_dec `{EqDecision T} : EqDecision value.
Proof. solve_decision. Defined.
Definition cell_step `{EqDecision T} (e : event) (v : value) : outcome value :=
  match e with
  | Stored _ t => Ok (Val t)
  | Got _ copy v' =>
      await (bool_decide (v' = v ∧ v ≠ Default)) ;; Ok (if copy then v else MovedFrom)
  end.
Definition cell `{EqDecision T} : machine := Machine value event (λ v, v = Default) cell_step.
End value.
Arguments event : clear implicits.
Arguments cell T {_}.
Arguments tpc : clear implicits.
Arguments value : clear implicits.
Arguments state : clear implicits.
Arguments machine_ : clear implicits.
End Value.

(** * The reference count *)
Section handles.
Import Handles.

(** The inner object lives as long as a handle points to it, and counts them. *)
Definition count_inv (s : state) : Prop :=
  inner s = (if live s =? 0 then None else Some (Z.of_nat (live s))).

Lemma wrap_small z : (- 2 ^ 31 <= z < 2 ^ 31)%Z → wrap z = z.
Proof. intros Hz. unfold wrap. rewrite Z.mod_small; lia. Qed.

Lemma live_moved hs h x y : hs !! h = Some x →
  sum_list_with pointing (<[h:=y]> hs) + pointing x = sum_list_with pointing hs + pointing y.
Proof. apply sum_list_with_insert. Qed.

Lemma live_app hs h : sum_list_with pointing (hs ++ [h]) = sum_list_with pointing hs + pointing h.
Proof. rewrite sum_list_with_app. simpl. lia. Qed.

Lemma live_pos hs h : hs !! h = Some Pointing → 0 < sum_list_with pointing hs.
Proof. intros Hh. pose proof (live_moved hs h Pointing Null Hh). simpl in *. lia. Qed.

Lemma count_inv_step l s s' :
  count_inv s → (Z.of_nat (live s) < 2 ^ 31 - 1)%Z → step l s = Ok s' → count_inv s'.
Proof.
  intros Hc Hsmall Hs. unfold count_inv, live in *.
  destruct l as [h | h | h]; unfold step, copy_construct, move_construct, destroy in Hs;
    destruct (handles s !! h) as [[] |] eqn:Hh; simplify_eq; simpl.
  - pose proof (live_pos _ _ Hh). step_inv. simplify_eq/=. rewrite live_app. simpl.
    destruct (Nat.eqb_spec (sum_list_with pointing (handles s)) 0); [lia |]. simplify_eq.
    destruct (Nat.eqb_spec (sum_list_with pointing (handles s) + 1) 0); [lia |].
    f_equal. rewrite wrap_small; lia.
  - rewrite live_app. pose proof (live_moved _ _ _ Null Hh) as E. simpl in *.
    replace (sum_list_with pointing (<[h:=Null]> (handles s)) + 1) with (sum_list_with pointing (handles s)) by lia.
    done.
  - rewrite live_app. simpl. by rewrite Nat.add_0_r.
  - pose proof (live_pos _ _ Hh). step_inv. simplify_eq/=.
    pose proof (live_moved _ _ _ Destroyed Hh) as E. simpl in E.
    destruct (Nat.eqb_spec (sum_list_with pointing (handles s)) 0); [lia |]. simplify_eq.
    rewrite wrap_small by lia.
    destruct (Nat.eqb_spec (sum_list_with pointing (<[h:=Destroyed]> (handles s))) 0) as [E0 | E0].
    + rewrite (proj2 (Z.eqb_eq _ 0)); [done | lia].
    + rewrite (proj2 (Z.eqb_neq _ 0)) by lia. f_equal. lia.
  - pose proof (live_moved _ _ _ Destroyed Hh) as E. simpl in *.
    by replace (sum_list_with pointing (<[h:=Destroyed]> (handles s))) with (sum_list_with pointing (handles s)) by lia.
Qed.

Lemma exec_count ls s :
  exec machine_ ls init = Ok s → (Z.of_nat (length ls) < 2 ^ 31 - 2)%Z → count_inv s.
Proof.
  intros Hs Hl.
  enough (∀ s0, count_inv s0 → (Z.of_nat (live s0) + Z.of_nat (length ls) < 2 ^ 31 - 1)%Z →
    exec machine_ ls s0 = Ok s → count_inv s) as H.
  { apply (H init); [done | change (live init) with 1; lia | done]. }
  clear Hs Hl. induction ls as [| l ls IH]; intros s0 Hc Hl Hs; simpl in Hs; [by simplify_eq |].
  apply bind_Ok in Hs as (s1 & H1 & H2). cbn [length] in Hl. apply (IH s1); [| | done].
  - eapply count_inv_step; [exact Hc | lia | exact H1].
  - assert (live s1 <= live s0 + 1); [| lia]. unfold live.
    change (step l s0 = Ok s1) in H1.
    destruct l as [h | h | h]; unfold step, copy_construct, move_construct, destroy in H1;
      destruct (handles s0 !! h) as [[] |] eqn:Hh; step_inv; simplify_eq/=; rewrite ?live_app;
      try pose proof (live_moved _ _ _ Null Hh); try pose proof (live_moved _ _ _ Destroyed Hh);
      simpl in *; lia.
Qed.
End handles.

(** * The value *)
Section value_proofs.
Import Value.
Context {T : Type}.
Implicit Types (s : state T) (p : tpc T).

Definition holding p : Prop :=
  match p with GHeld _ | GReturn _ | SHeld _ => True | _ => False end.

(** Who is past the test of [value_set_]. *)
Record value_inv s : Prop := {
  inv_set : value_set_ s = true ↔ value_ s ≠ Default;
  inv_passed : ∀ i c, threads s !! i = Some (GWoken c) ∨ threads s !! i = Some (GReturn c) →
    value_set_ s = true;
  inv_given : ∀ i v, threads s !! i = Some (GDone v) → v ≠ Default;
  inv_asleep : ∀ i c, threads s !! i = Some (GWait c) → value_set_ s = false;
  inv_setter : ∀ i, threads s !! i = Some SDone → value_set_ s = true;
  inv_mutex : ∀ i, mutex_ s = Some i → ∃ p, threads s !! i = Some p ∧ holding p;
  inv_holds : ∀ i p, threads s !! i = Some p → holding p → mutex_ s = Some i
}.

Lemma notified (ts : list (tpc T)) i :
  notify_all ts !! i = (λ p, if cv_waiting p then cv_woken p else p) <$> ts !! i.
Proof. apply notify_all_lookup. Qed.

Lemma value_inv_step l s s' :
  value_inv s → scheduled l → step l s = Ok s' → value_inv s'.
Proof.
  intros [Hset Hp Hg Ha Hd Hm Hh] Hl Hs. destruct l as [i | i]; [| done]. clear Hl.
  unfold step, thread_step in Hs. step_inv; sync_inv; split; simpl; try done.
  all: try (intros j c [[(_ & E & _) | (_ & Hj)]%list_lookup_insert_Some |
      [(_ & E & _) | (_ & Hj)]%list_lookup_insert_Some]; simplify_eq; eauto; fail).
  all: try (intros j v [(_ & E & _) | (_ & Hj)]%list_lookup_insert_Some; simplify_eq; eauto; fail).
  all: try (intros j v [(_ & E & _) | (_ & Hj)]%list_lookup_insert_Some; simplify_eq;
    [by apply Hset; eauto | by eauto]).
  all: try (intros j c [(_ & E & _) | (_ & Hj)]%list_lookup_insert_Some; simplify_eq; eauto; fail).
  all: try (intros j [(_ & E & _) | (_ & Hj)]%list_lookup_insert_Some; simplify_eq; eauto; fail).
  all: try (intros j [= <-]; by eapply exists_moved_here).
  all: try (intros j p [(<- & <- & _) | (Hne & Hj)]%list_lookup_insert_Some Hhp; [done |];
    specialize (Hh j p Hj Hhp); congruence).
  - rewrite Heqb. destruct copy; intuition congruence.
  - by rewrite Heqb.
  - pose proof (Hp i copy (or_intror Heqo)). destruct copy; intuition congruence.
  - intros j v. rewrite notified. destruct (<[i:=SDone]> (threads s) !! j) as [p |] eqn:Hj; [| done].
    simpl. intros [= E]. apply (Hg j). destruct p; simplify_eq/=.
    by apply list_lookup_insert_Some in Hj as [(_ & [=] & _) | (_ & Hj)].
  - intros j c Hj%notify_all_awake. done.
  - intros j p. rewrite notified. destruct (<[i:=SDone]> (threads s) !! j) as [q |] eqn:Hj; [| done].
    simpl. intros [= <-] Hq.
    apply list_lookup_insert_Some in Hj as [(_ & <- & _) | (Hne & Hj)]; [done |].
    assert (holding q) as Hq' by by destruct q. specialize (Hh j q Hj Hq'). congruence.
Qed.

Lemma value_inv_init ts : Forall fresh ts → value_inv (init (T := T) ts).
Proof.
  intros Hts. rewrite Forall_lookup in Hts. split; simpl; try done.
  - intros i c [Hi%Hts | Hi%Hts]; done.
  - by intros i v Hi%Hts.
  - by intros i Hi%Hts.
  - intros i p Hi%Hts. by destruct p.
Qed.

Lemma value_inv_scheduled (s0 s : mstate (machine_ T)) :
  minit (machine_ T) s0 → rtc (msteps (machine_ T) scheduled) s0 s → value_inv s.
Proof.
  intros (ts & Hts & ->) Hr. generalize (value_inv_init ts Hts).
  induction Hr as [| s1 s2 s3 (l & Hl & Hs) _ IH]; [done |]. intros Hinv.
  apply IH. exact (value_inv_step l s1 s2 Hinv Hl Hs).
Qed.

Definition finished p : Prop := match p with GDone _ | SDone => True | _ => False end.
Definition sets p : Prop := match p with SStart _ | SHeld _ | SDone => True | _ => False end.

(** A thread keeps its role. *)
Lemma sets_step l s s' i p :
  step l s = Ok s' → threads s !! i = Some p → sets p →
  ∃ p', threads s' !! i = Some p' ∧ sets p'.
Proof.
  intros Hs Hi Hp. destruct l as [j | j]; unfold step, thread_step in Hs; step_inv; sync_inv;
    try (by eapply (exists_moved sets); [done | | by eauto]; simpl; auto).
  - destruct (exists_moved sets _ j i (SHeld t0) SDone Heqo ltac:(done) (ex_intro _ p (conj Hi Hp)))
    as (p' & Hp' & Hset).
    exists p'. simpl. rewrite notified, Hp'. by destruct p'.
  - eapply (exists_moved sets); [done | | by eauto]. by destruct x0.
Qed.

Lemma sets_scheduled (s0 s : mstate (machine_ T)) i p :
  rtc (msteps (machine_ T) scheduled) s0 s → threads s0 !! i = Some p → sets p →
  ∃ p', threads s !! i = Some p' ∧ sets p'.
Proof.
  intros Hr. revert p. induction Hr as [| s1 s2 s3 (l & _ & Hs) _ IH]; [by eauto |].
  intros p Hi Hp. destruct (sets_step l s1 s2 i p Hs Hi Hp) as (p' & Hp' & Hs'). by eapply IH.
Qed.

(** ** The calls as operations on a cell *)

(** What thread [i] is after thread [j] moved, and after a notification. *)
Lemma future_moved (ts : list (tpc T)) i j x y :
  ts !! j = Some x → <[j:=y]> ts !! i = if decide (i = j) then Some y else ts !! i.
Proof.
  intros Hj. destruct (decide (i = j)) as [-> | Hne].
  - by rewrite list_lookup_insert_eq by by eapply lookup_lt_Some.
  - by rewrite list_lookup_insert_ne.
Qed.

Lemma notified_given (ts : list (tpc T)) i v :
  notify_all ts !! i = Some (GDone v) ↔ ts !! i = Some (GDone v).
Proof. rewrite notified. destruct (ts !! i) as [[] |]; naive_solver. Qed.

Lemma notified_setting (ts : list (tpc T)) i t :
  notify_all ts !! i = Some (SStart t) ↔ ts !! i = Some (SStart t).
Proof. rewrite notified. destruct (ts !! i) as [[] |]; naive_solver. Qed.

Lemma notified_holding (ts : list (tpc T)) i t :
  notify_all ts !! i = Some (SHeld t) ↔ ts !! i = Some (SHeld t).
Proof. rewrite notified. destruct (ts !! i) as [[] |]; naive_solver. Qed.

(** A [get] is seen exactly when it returns. *)
Lemma given_step l s s' i v :
  step l s = Ok s' →
  threads s' !! i = Some (GDone v) ↔
  threads s !! i = Some (GDone v) ∨ ∃ c, future_event l s s' = Some (Got i c v).
Proof.
  intros Hs. destruct l as [j | j]; unfold step, thread_step in Hs.
  - destruct (threads s !! j) as [[c | c | c | c | c | w | t | t |] |] eqn:Hj; try done; step_inv; sync_inv;
      simpl; rewrite Hj, ?notified_given, ?(future_moved _ _ _ _ _ Hj);
      destruct (decide (j = j)); try done; destruct (decide (i = j)) as [-> |]; naive_solver.
  - step_inv; sync_inv. simpl. rewrite list_lookup_insert_Some. destruct x0; simplify_eq/=; naive_solver.
Qed.

(** The argument of a [set] is the one its thread was started with. *)
Lemma stored_step l s s' i t :
  step l s = Ok s' →
  (threads s' !! i = Some (SStart t) ∨ threads s' !! i = Some (SHeld t) →
   threads s !! i = Some (SStart t) ∨ threads s !! i = Some (SHeld t)) ∧
  (future_event l s s' = Some (Stored i t) → threads s !! i = Some (SHeld t)).
Proof.
  intros Hs. destruct l as [j | j]; unfold step, thread_step in Hs.
  - destruct (threads s !! j) as [[c | c | c | c | c | w | t' | t' |] |] eqn:Hj; try done; step_inv; sync_inv;
      simpl; rewrite Hj, ?notified_setting, ?notified_holding, ?(future_moved _ _ _ _ _ Hj);
      destruct (decide (j = j)); try done; destruct (decide (i = j)) as [-> |]; naive_solver.
  - step_inv; sync_inv. simpl. rewrite !list_lookup_insert_Some. destruct x0; simplify_eq/=; naive_solver.
Qed.

Lemma cell_step_event `{EqDecision T} l s s' :
  value_inv s → scheduled l → step l s = Ok s' →
  exec (cell T) (option_list (future_event l s s')) (value_ s) = Ok (value_ s').
Proof.
  intros [Hset Hp _ _ _ _ _] Hl Hs. destruct l as [j | j]; [| done]. unfold step, thread_step in Hs.
  destruct (threads s !! j) as [[c | c | c | c | c | w | t | t |] |] eqn:Hj; try done; step_inv; sync_inv;
    simpl; rewrite Hj; try done;
    rewrite list_lookup_insert_eq by (by eapply lookup_lt_Some); simpl; try done;
    (rewrite bool_decide_true; [done | split; [done | apply Hset; eauto]]).
Qed.

(** A run of the calls is a run of the cell. *)
Lemma future_exec `{EqDecision T} ls s s' :
  value_inv s → Forall scheduled ls → exec (machine_ T) ls s = Ok s' →
  let h := observed (machine_ T) future_event ls s in
  exec (cell T) h (value_ s) = Ok (value_ s') ∧
  (∀ i v, threads s' !! i = Some (GDone v) ↔ threads s !! i = Some (GDone v) ∨ ∃ c, Got i c v ∈ h) ∧
  (∀ i t, Stored i t ∈ h → threads s !! i = Some (SStart t) ∨ threads s !! i = Some (SHeld t)).
Proof.
  revert s. induction ls as [| l ls IH]; intros s Hinv Hls He; simpl in He.
  - simplify_eq. simpl. split_and!; [done | set_solver | set_solver].
  - apply Forall_cons in Hls as [Hl Hls]. apply bind_Ok in He as (s1 & Hs & He).
    change (step l s = Ok s1) in Hs.
    destruct (IH s1 (value_inv_step l s s1 Hinv Hl Hs) Hls He) as (IH1 & IH2 & IH3).
    cbn [observed machine_ mstep mlabel mstate]. rewrite Hs. split_and!.
    + rewrite exec_app, (cell_step_event l s s1 Hinv Hl Hs). exact IH1.
    + intros i v. rewrite IH2, (given_step l s s1 i v Hs).
      setoid_rewrite elem_of_app. setoid_rewrite elem_of_options. naive_solver.
    + intros i t. rewrite elem_of_app, elem_of_options.
      destruct (stored_step l s s1 i t Hs) as [Hback Hst]. naive_solver.
Qed.

(** A value a [get] returned comes from a [set] before it. *)
Lemma cell_given `{EqDecision T} h (v v' : value T) i c t :
  exec (cell T) h v = Ok v' → Got i c (Val t) ∈ h → v = Val t ∨ ∃ j, Stored j t ∈ h.
Proof.
  revert v. induction h as [| e h IH]; intros v He Hin; [by apply not_elem_of_nil in Hin |].
  simpl in He. apply bind_Ok in He as (v1 & Hs & He). apply elem_of_cons in Hin as [<- | Hin].
  - simpl in Hs. step_inv; apply bool_decide_eq_true in Heqb; naive_solver.
  - destruct (IH v1 He Hin) as [-> | (j & Hj)]; [| set_solver].
    destruct e as [j t' | j c' w]; simpl in Hs; step_inv; simplify_eq; [set_solver |].
    destruct c'; naive_solver.
Qed.

(** A [get] that finds the cell empty follows one that emptied it. *)
Lemma cell_emptied `{EqDecision T} h (v v' : value T) i c :
  exec (cell T) h v = Ok v' → Got i c MovedFrom ∈ h → v = MovedFrom ∨ ∃ j w, Got j false w ∈ h.
Proof.
  revert v. induction h as [| e h IH]; intros v He Hin; [by apply not_elem_of_nil in Hin |].
  simpl in He. apply bind_Ok in He as (v1 & Hs & He). apply elem_of_cons in Hin as [<- | Hin].
  - simpl in Hs. step_inv; apply bool_decide_eq_true in Heqb; naive_solver.
  - destruct (IH v1 He Hin) as [-> | (j & w & Hj)]; [| set_solver].
    destruct e as [j t' | j c' w]; simpl in Hs; step_inv; simplify_eq.
    destruct c'; [by left | right; set_solver].
Qed.

(** With a setter around, a thread can move unless all have finished. *)
Lemma progress s i p :
  value_inv s → threads s !! i = Some p → sets p → quiescent (machine_ T) scheduled s →
  Forall finished (threads s).
Proof.
  intros [Hset Hp Hg Ha Hd Hm Hh] Hi Hsp Hq.
  assert (∀ j s', thread_step j s ≠ Ok s') as Hno by (intros j s'; by apply (Hq (LThread j))).
  assert (mutex_ s = None) as Hfree.
  { destruct (mutex_ s) as [j |] eqn:E; [| done]. exfalso.
    destruct (Hm j eq_refl) as (q & Hj & Hq'). specialize (Hno j). unfold thread_step in Hno.
    rewrite Hj, E in Hno. destruct q; try done; rewrite mutex_unlock_own in Hno; simpl in Hno;
      try case_match; by eapply Hno. }
  assert (∀ j q, threads s !! j = Some q → finished q ∨ ∃ c, q = GWait c) as Hall.
  { intros j q Hj. specialize (Hno j). specialize (Hh j q Hj). rewrite Hfree in Hh.
    unfold thread_step in Hno. rewrite Hj, Hfree in Hno.
    destruct q; simpl in *; eauto; exfalso; try (by eapply Hno); by specialize (Hh I). }
  assert (value_set_ s = true) as Hvs.
  { destruct (Hall i p Hi) as [Hf | [c ->]]; [| done]. destruct p; try done. by eapply Hd. }
  apply Forall_lookup. intros j q Hj. destruct (Hall j q Hj) as [| [c ->]]; [done |].
  specialize (Ha j c Hj). congruence.
Qed.
End value_proofs.

(** * The properties *)

(** C23. The reference count: as long as there are less than 2^31 - 2 handle
    operations, the inner object is deleted exactly when its last handle is
    destroyed, the count is the number of handles that point to it, and no
    operation uses it after its deletion or deletes it twice: the only
    undefined operation is copying a handle that was moved from. *)
Theorem future_refcount ls (s : Handles.state) :
  exec Handles.machine_ ls Handles.init = Ok s → (Z.of_nat (length ls) < 2 ^ 31 - 2)%Z →
  (Handles.inner s = if Handles.live s =? 0 then None else Some (Z.of_nat (Handles.live s))) ∧
  ∀ l, Handles.step l s = UB → ∃ h, l = Handles.LCopy h ∧ Handles.handles s !! h = Some Handles.Null.
Proof.
  intros Hs Hl. pose proof (exec_count ls s Hs Hl) as Hc. split; [exact Hc |].
  intros l Hub. unfold count_inv, Handles.live in Hc.
  destruct l as [h | h | h];
    unfold Handles.step, Handles.copy_construct, Handles.move_construct, Handles.destroy in Hub;
    destruct (Handles.handles s !! h) as [[] |] eqn:Hh; try done; try (by eauto);
    pose proof (live_pos _ _ Hh); rewrite Hc in Hub;
    destruct (Nat.eqb_spec (sum_list_with Handles.pointing (Handles.handles s)) 0); simpl in Hub; try done; lia.
Qed.

(** C24. Without spurious wake-ups the calls of [set] and [get] are operations
    on a cell, in the order in which they take effect: [get] returns what the
    cell holds then, which is never the default value; every value returned was
    the argument of a [set] of some thread, or is what an earlier [get] that does
    not copy left; each call that returned is one operation. If some thread sets
    the future then no thread is left waiting: when nothing can move every call
    has returned. *)
Theorem future_get {T} `{EqDecision T} ts ls (s : mstate (Value.machine_ T)) :
  Forall Value.fresh ts → Forall Value.scheduled ls →
  exec (Value.machine_ T) ls (Value.init ts) = Ok s →
  let h := observed (Value.machine_ T) Value.future_event ls (Value.init ts) in
  exec (Value.cell T) h Value.Default = Ok (Value.value_ s) ∧
  (∀ i v, Value.threads s !! i = Some (Value.GDone v) ↔ ∃ c, Value.Got i c v ∈ h) ∧
  (∀ i v, Value.threads s !! i = Some (Value.GDone v) →
     (∃ j t, v = Value.Val t ∧ ts !! j = Some (Value.SStart t)) ∨
     v = Value.MovedFrom ∧ ∃ j w, Value.Got j false w ∈ h) ∧
  ((∃ i t, ts !! i = Some (Value.SStart t)) →
     quiescent (Value.machine_ T) Value.scheduled s → Forall finished (Value.threads s)).
Proof.
  intros Hts Hls He h. pose proof (value_inv_init ts Hts) as Hinit.
  destruct (future_exec ls _ s Hinit Hls He) as (Hcell & Hgot & Hstored).
  assert (rtc (msteps (Value.machine_ T) Value.scheduled) (Value.init ts) s) as Hr by by eapply exec_msteps.
  pose proof (value_inv_scheduled (Value.init ts) s (ex_intro _ ts (conj Hts eq_refl)) Hr) as Hinv.
  assert (Hh : ∀ i v, Value.threads s !! i = Some (Value.GDone v) ↔ ∃ c, Value.Got i c v ∈ h).
  { intros i v. rewrite Hgot. simpl. split; [| by eauto]. intros [Hi |]; [| done].
    rewrite Forall_lookup in Hts. by apply Hts in Hi. }
  split_and!; [exact Hcell | exact Hh | |].
  - intros i v Hi. pose proof (inv_given s Hinv i v Hi) as Hv. apply Hh in Hi as (c & Hi).
    destruct v as [| t |]; [done | left | right].
    + destruct (cell_given h _ _ i c t Hcell Hi) as [| (j & Hj)]; [done |].
      exists j, t. split; [done |]. destruct (Hstored j t Hj) as [| Hj']; [done |].
      rewrite Forall_lookup in Hts. by apply Hts in Hj'.
    + split; [done |]. by destruct (cell_emptied h _ _ i c Hcell Hi) as [| ?].
  - intros (i & t & Hi) Hq. destruct (sets_scheduled _ s i (Value.SStart t) Hr Hi I) as (p & Hp & Hsp).
    by eapply progress.
Qed.

(** [get] waits with an [if] where a [while] is needed: in the program of
    [main] (one thread gets, one sets), a single spurious wake-up makes [get]
    return a value that was never set. *)
Theorem future_get_spurious :
  ∃ s : mstate (Value.machine_ nat), reachable s ∧
    Value.threads s = [Value.GDone Value.Default; Value.SStart 7].
Proof.
  exists (Value.State None Value.MovedFrom false [Value.GDone Value.Default; Value.SStart 7]).
  split; [| done].
  apply (exec_reachable (Value.machine_ nat)
    ([Value.LThread 0; Value.LThread 0; Value.LSpurious 0; Value.LThread 0; Value.LThread 0] : list Value.label)
    (Value.init [Value.GStart false; Value.SStart 7])).
  - exists [Value.GStart false; Value.SStart 7]. split; [by repeat constructor | done].
  - by vm_compute.
Qed.

(** The handles of [main]: its own, the copy kept for the thread and the
    parameter moved from it; all three are destroyed. *)
Lemma future_refcount_witness :
  ∃ s, exec Handles.machine_ [Handles.LCopy 0; Handles.LMove 1; Handles.LDestroy 1; Handles.LDestroy 2]
      Handles.init = Ok s ∧
    Handles.inner s = Some 1%Z ∧
    ∀ l, Handles.step l s = UB → ∃ h, l = Handles.LCopy h ∧ Handles.handles s !! h = Some Handles.Null.
Proof.
  eexists. split; [by vm_compute |]. split; [done |].
  refine (proj2 (future_refcount [Handles.LCopy 0; Handles.LMove 1; Handles.LDestroy 1; Handles.LDestroy 2] _ _ _));
    by vm_compute.
Defined.

(** The two threads of [main]; [get] asks first and waits. *)
Lemma future_get_witness :
  ∃ s : mstate (Value.machine_ string),
    exec (Value.machine_ string) (Value.LThread <$> [0; 0; 1; 1; 0; 0]%nat)
      (Value.init [Value.GStart false; Value.SStart "foo"]) = Ok s ∧
    Value.threads s !! 0 = Some (Value.GDone (Value.Val "foo")) ∧
    (∃ c, Value.Got 0 c (Value.Val "foo") ∈
      observed (Value.machine_ string) Value.future_event (Value.LThread <$> [0; 0; 1; 1; 0; 0]%nat)
        (Value.init [Value.GStart false; Value.SStart "foo"])).
Proof.
  eexists. split; [by vm_compute |]. split; [done |].
  apply (future_get [Value.GStart false; Value.SStart "foo"] (Value.LThread <$> [0; 0; 1; 1; 0; 0]%nat) _
    ltac:(by repeat constructor) ltac:(by repeat constructor) ltac:(by vm_compute)). done.
Defined.
