(* ===== verification/Locks.v ===== *)
(** The small programs of [concurrent/] around locks: printing in turns
    ([alternate_print_nt.cpp]), the counter with a shared mutex ([rw.cpp]), the
    bounded pool with one writer ([tiny_rwc.cpp]), [notify.cpp], lock order in
    [deadlocking.cpp], and the misuses of a mutex in [alternate_print.cpp],
    [order_process.cpp], [print.cpp] and [deadlocking.cpp]. *)

From S2P Require Import Prelude Sync.

(** The threads whose state satisfies [h] are exactly the owner of a lock: kept
    when a thread moves and takes the lock, gives it back or keeps it. *)
Lemma owner_moved {P} (h : P → Prop) (ws : list P) (m m' : option nat) (i : nat) (p q : P) :
  (∀ j, (∃ r, ws !! j = Some r ∧ h r) ↔ m = Some j) → ws !! i = Some p →
  (h q ↔ m' = Some i) →
  (m' = m ∧ (h p ↔ h q) ∨ m = None ∧ m' = Some i ∨ m = Some i ∧ m' = None) →
  ∀ j, (∃ r, <[i:=q]> ws !! j = Some r ∧ h r) ↔ m' = Some j.
Proof.
  intros Hl Hi Hq Hm j. setoid_rewrite (lookup_moved _ _ _ _ _ _ Hi). specialize (Hl j).
  destruct (decide (i = j)) as [<- | Hne].
  - split; [intros (r & [[_ <-] | [? _]] & Hr); [by apply Hq | done] |].
    intros Hm'. exists q. split; [by left | by apply Hq].
  - assert (m' = Some j ↔ m = Some j) as ->
      by (destruct Hm as [[-> _] | [[-> ->] | [-> ->]]]; [done | |]; split; congruence).
    rewrite <- Hl. split; intros (r & Hr & Hh); exists r; naive_solver.
Qed.

(** * [alternate_print_nt.cpp]: threads that print in turn *)
Module RoundRobin.
(** A thread: at the test of its loop, at the lock, testing its turn, asleep,
    woken, at the end of the block, ended. *)
Inductive pc := PCheck | PLock | PTest | PWait | PWoken | PUnlock | PDone.

#[export] Instance pc_condvar : CondVar pc := {
  cv_waiting p := match p with PWait => true | _ => false end;
  cv_woken _ := PWoken;
  cv_woken_awake _ _ := eq_refl
}.

Record state := State {
  num : Z;
  num_mutex : option nat;
  threads : list pc;
  out : list (Z * Z)                     (* id and number printed *)
}.
Definition init (max_p : nat) : state := State 0 None (replicate max_p PCheck) [].

Definition set_pc (i : nat) (p : pc) (s : state) : state :=
  State (num s) (num_mutex s) (<[i:=p]> (threads s)) (out s).
Definition set_mutex (m : option nat) (s : state) : state := State (num s) m (threads s) (out s).

Definition my_turn (i : nat) (s : state) : bool :=
  (num s mod Z.of_nat (length (threads s)) =? Z.of_nat i)%Z.

(** One step of [print(i)]. *)
Definition print_step (i : nat) (s : state) : outcome state :=
  match threads s !! i with
  | Some PCheck => Ok (set_pc i (if (num s <=? 100)%Z then PLock else PDone) s)
  | Some PLock | Some PWoken =>
      m ← mutex_lock i (num_mutex s); Ok (set_mutex m (set_pc i PTest s))
  | Some PTest =>
      if my_turn i s then
        Ok (State (num s + 1) (num_mutex s) (notify_all (<[i:=PUnlock]> (threads s)))
              (out s ++ [(Z.of_nat i, num s)]))
      else m ← mutex_unlock i (num_mutex s); Ok (set_mutex m (set_pc i PWait s))
  | Some PUnlock => m ← mutex_unlock i (num_mutex s); Ok (set_mutex m (set_pc i PCheck s))
  | Some PWait | Some PDone | None => Blocked
  end.

Inductive label := LRun (i : nat) | LSpurious (i : nat).
Definition step (l : label) (s : state) : outcome state :=
  match l with
  | LRun i => print_step i s
  | LSpurious i => ws ← wake i (threads s); Ok (State (num s) (num_mutex s) ws (out s))
  end.
Definition main (max_p : nat) : machine := Machine state label (λ s, s = init max_p) step.
Definition scheduled (l : label) : Prop := match l with LRun _ => True | _ => False end.

(** Past its test, and not yet printed. *)
Definition committed (p : pc) : nat :=
  match p with PLock | PTest | PWait | PWoken => 1 | _ => 0 end.
Definition holding (p : pc) : Prop := match p with PTest | PUnlock => True | _ => False end.

Record inv (max_p : nat) (s : state) : Prop := {
  inv_length : length (threads s) = max_p;
  inv_lock : ∀ i, (∃ p, threads s !! i = Some p ∧ holding p) ↔ num_mutex s = Some i;
  inv_num : (0 <= num s)%Z;
  inv_out : out s = map (λ k, (k mod Z.of_nat max_p, k)%Z) (seqZ 0 (num s));
  inv_bound : (num s <= 100 ∨
    num s + Z.of_nat (sum_list_with committed (threads s)) <= 100 + Z.of_nat max_p)%Z
}.

Lemma committed_length ws : sum_list_with committed ws ≤ length ws.
Proof. induction ws as [| p ws IH]; csimpl; [lia |]. destruct p; simpl; lia. Qed.

Lemma committed_moved i p q ws :
  ws !! i = Some p →
  sum_list_with committed (<[i:=q]> ws) + committed p = sum_list_with committed ws + committed q.
Proof. apply sum_list_with_insert. Qed.

Lemma committed_notified ws :
  sum_list_with committed (notify_all ws) = sum_list_with committed ws.
Proof. apply notify_all_weight. by intros []. Qed.

(** A move of one thread that prints nothing. *)
Lemma turns_inv_move max_p s i p q m' :
  inv max_p s → threads s !! i = Some p → (holding q ↔ m' = Some i) →
  (m' = num_mutex s ∧ (holding p ↔ holding q) ∨ num_mutex s = None ∧ m' = Some i ∨
   num_mutex s = Some i ∧ m' = None) →
  committed q ≤ committed p ∨ (num s <= 100)%Z →
  inv max_p (State (num s) m' (<[i:=q]> (threads s)) (out s)).
Proof.
  intros [Hlen Hl Hn Ho Hb] Hi Hq Hm Hc. split; cbn [threads num_mutex num out].
  - by rewrite length_insert.
  - by eapply (owner_moved holding).
  - done.
  - done.
  - pose proof (committed_moved i p q (threads s) Hi). destruct Hc; [| by left].
    destruct Hb as [| Hb]; [by left | right]. lia.
Qed.

Lemma holding_notified ws j :
  (∃ p, notify_all ws !! j = Some p ∧ holding p) ↔ (∃ p, ws !! j = Some p ∧ holding p).
Proof.
  rewrite notify_all_lookup. destruct (ws !! j) as [[] |]; simpl; naive_solver.
Qed.

(** A number is printed. *)
Lemma turns_inv_print max_p s i :
  inv max_p s → threads s !! i = Some PTest → my_turn i s = true →
  inv max_p (State (num s + 1) (num_mutex s) (notify_all (<[i:=PUnlock]> (threads s)))
               (out s ++ [(Z.of_nat i, num s)])).
Proof.
  intros [Hlen Hl Hn Ho Hb] Hi Ht. pose proof (lookup_lt_Some _ _ _ Hi) as Hlt.
  split; cbn [threads num_mutex num out].
  - by rewrite notify_all_length, length_insert.
  - intros j. rewrite holding_notified.
    eapply (owner_moved holding _ (num_mutex s)); [exact Hl | exact Hi | | by left].
    rewrite <- (Hl i), Hi. simpl. naive_solver.
  - lia.
  - rewrite seqZ_app, map_app, <- Ho by lia. f_equal. simpl.
    unfold my_turn in Ht. apply Z.eqb_eq in Ht. rewrite Hlen in Ht. by rewrite <- Ht.
  - pose proof (committed_moved i PTest PUnlock (threads s) Hi) as Hc.
    rewrite committed_notified. pose proof (committed_length (threads s)). simpl in Hc.
    destruct Hb as [Hb | Hb]; [| right; lia]. destruct (decide (num s < 100)%Z); [left; lia | right; lia].
Qed.

Lemma turns_inv_step max_p l s s' : inv max_p s → step l s = Ok s' → inv max_p s'.
Proof.
  intros Hinv Hs. pose proof (inv_lock _ _ Hinv) as Hl. destruct l as [i | i]; unfold step, print_step in Hs.
  - destruct (threads s !! i) as [p |] eqn:Hi; [| done].
    pose proof (Hl i) as Hli. rewrite Hi in Hli.
    destruct p; try done; unfold set_pc, set_mutex in Hs; [| | | | ].
    + simplify_eq. apply (turns_inv_move max_p s i PCheck); try done; destruct (num s <=? 100)%Z eqn:E;
        simpl; try naive_solver. right. by apply Z.leb_le.
    + step_inv. sync_inv. apply (turns_inv_move max_p s i PLock); simpl; naive_solver.
    + destruct (my_turn i s) eqn:Ht; [simplify_eq; by apply turns_inv_print |].
      step_inv. sync_inv. apply (turns_inv_move max_p s i PTest); simpl; naive_solver.
    + step_inv. sync_inv. apply (turns_inv_move max_p s i PWoken); simpl; naive_solver.
    + step_inv. sync_inv. apply (turns_inv_move max_p s i PUnlock); simpl; naive_solver.
  - step_inv. sync_inv. match goal with H : threads s !! i = Some ?p |- _ => destruct p; try done;
      apply (turns_inv_move max_p s i PWait _ _ Hinv H); pose proof (Hl i) as Hli; rewrite H in Hli end;
      simpl; naive_solver.
Qed.

Lemma turns_inv_reachable max_p (s : mstate (main max_p)) : reachable s → inv max_p s.
Proof.
  revert s. apply (invariant_ind (main max_p)).
  - intros s ->. split; simpl; [apply length_replicate | | done | done | by left].
    intros i. split; [| done]. intros (p & [-> _]%lookup_replicate & Hp). done.
  - intros l s s' _ IH Hs. exact (turns_inv_step max_p l s s' IH Hs).
Qed.

(** Thread [k mod 3] prints [k], undisturbed. *)
Definition turn_of (k : nat) : list label := replicate 4 (LRun (k mod 3)).
(** Three threads: 99 is printed, then thread 0 passes its test and waits for
    102, and the two others end. *)
Definition hanging_schedule : list label :=
  concat (map turn_of (seq 0 100)) ++ replicate 3 (LRun 0) ++ turn_of 100 ++
  [LRun 1; LRun 2; LRun 0; LRun 0].
End RoundRobin.

(** * [rw.cpp]: a counter behind a [shared_mutex] *)
Module RwCounter.
(** A thread between the calls, or inside one: the lock taken, the value
    loaded, the value stored. *)
Inductive pc :=
  | Idle
  | GetLocked | GetRead
  | IncLocked | IncLoaded (v : Z) | IncStored
  | ResetLocked | ResetStored.
(** The results of the calls, in the order of their reads and stores. *)
Inductive event := Get (v : Z) | Increment (v : Z) | Reset.

Record state := State {
  exclusive : option nat;
  shared : nat;
  value_ : Z;
  threads : list pc;
  history : list event
}.
Definition init (n : nat) : state := State None 0 0 (replicate n Idle) [].

Inductive request := RGet | RIncrement | RReset.

Definition lock_shared (s : state) : outcome nat :=
  match exclusive s with None => Ok (S (shared s)) | Some _ => Blocked end.
Definition lock (i : nat) (s : state) : outcome (option nat) :=
  match exclusive s, shared s with None, O => Ok (Some i) | _, _ => Blocked end.

(** [unsigned int]. *)
Definition to_unsigned (v : Z) : Z := (v mod 2 ^ 32)%Z.

(** The next step of thread [i]; [r] is the call it makes when it is idle. *)
Definition thread_step (i : nat) (r : request) (s : state) : outcome state :=
  let move p e n v h := Ok (State e n v (<[i:=p]> (threads s)) h) in
  match threads s !! i with
  | None => Blocked
  | Some Idle =>
      match r with
      | RGet => n ← lock_shared s; move GetLocked (exclusive s) n (value_ s) (history s)
      | RIncrement => e ← lock i s; move IncLocked e (shared s) (value_ s) (history s)
      | RReset => e ← lock i s; move ResetLocked e (shared s) (value_ s) (history s)
      end
  | Some GetLocked =>
      move GetRead (exclusive s) (shared s) (value_ s) (history s ++ [Get (value_ s)])
  | Some GetRead => move Idle (exclusive s) (pred (shared s)) (value_ s) (history s)
  | Some IncLocked => move (IncLoaded (value_ s)) (exclusive s) (shared s) (value_ s) (history s)
  | Some (IncLoaded v) =>
      let v := to_unsigned (v + 1) in
      move IncStored (exclusive s) (shared s) v (history s ++ [Increment v])
  | Some ResetLocked => move ResetStored (exclusive s) (shared s) 0%Z (history s ++ [Reset])
  | Some IncStored | Some ResetStored =>
      e ← mutex_unlock i (exclusive s); move Idle e (shared s) (value_ s) (history s)
  end.
Definition machine_ (n : nat) : machine :=
  Machine state (nat * request) (λ s, s = init n) (λ l, thread_step l.1 l.2).

(** The abstract counter: one call at a time. *)
Definition call (v : Z) (e : event) : option Z :=
  match e with
  | Get r => if (r =? v)%Z then Some v else None
  | Increment r => if (r =? to_unsigned (v + 1))%Z then Some r else None
  | Reset => Some 0%Z
  end.
Fixpoint calls (v : Z) (es : list event) : option Z :=
  match es with [] => Some v | e :: es => v ← call v e; calls v es end.

Lemma calls_app v es e : calls v (es ++ [e]) = v ← calls v es; call v e.
Proof.
  revert v. induction es as [| e' es IH]; intros v; cbn [app calls].
  - destruct (call v e) eqn:E; simpl; by rewrite ?E.
  - destruct (call v e'); simpl; [apply IH | done].
Qed.

Definition reading (p : pc) : nat := match p with GetLocked | GetRead => 1 | _ => 0 end.
Definition writing (p : pc) : Prop :=
  match p with Idle | GetLocked | GetRead => False | _ => True end.
Definition reads_value (v : Z) (p : pc) : Prop := match p with IncLoaded w => w = v | _ => True end.

Record inv (s : state) : Prop := {
  inv_shared : shared s = sum_list_with reading (threads s);
  inv_exclusive : ∀ i, (∃ p, threads s !! i = Some p ∧ writing p) ↔ exclusive s = Some i;
  inv_apart : exclusive s ≠ None → shared s = 0;
  inv_loaded : ∀ i p, threads s !! i = Some p → reads_value (value_ s) p;
  inv_calls : calls 0 (history s) = Some (value_ s)
}.

Lemma only_writer s i j p q :
  inv s → threads s !! i = Some p → writing p → threads s !! j = Some q → writing q → i = j.
Proof.
  intros Hinv Hi Hp Hj Hq. assert (exclusive s = Some i) by (apply Hinv; eauto).
  assert (exclusive s = Some j) by (apply Hinv; eauto). congruence.
Qed.

(** A move of one thread that stores nothing. *)
Lemma counter_inv_move s i p q e n :
  inv s → threads s !! i = Some p → n + reading p = shared s + reading q →
  (writing q ↔ e = Some i) →
  (e = exclusive s ∧ (writing p ↔ writing q) ∨ exclusive s = None ∧ e = Some i ∨
   exclusive s = Some i ∧ e = None) →
  (e ≠ None → n = 0) → reads_value (value_ s) q →
  inv (State e n (value_ s) (<[i:=q]> (threads s)) (history s)).
Proof.
  intros [Hs He Ha Hld Hc] Hi Hn Hq Hm Hen Hv. pose proof (sum_list_with_insert reading _ i p q Hi).
  split; cbn [exclusive shared value_ threads history]; [lia | by eapply (owner_moved writing) | done | | done].
  intros j r [[<- <-] | [_ Hr]]%(lookup_moved _ _ _ _ _ _ Hi); [done | by eapply Hld].
Qed.

(** A store by the only writer. *)
Lemma counter_inv_store s i p q v e :
  inv s → threads s !! i = Some p → writing p → writing q → (∀ v, reads_value v q) →
  reading q = 0 → call (value_ s) e = Some v →
  inv (State (exclusive s) (shared s) v (<[i:=q]> (threads s)) (history s ++ [e])).
Proof.
  intros Hinv Hi Hp Hq Hv Hr Hcall. pose proof Hinv as [Hs He Ha Hld Hc].
  pose proof (sum_list_with_insert reading _ i p q Hi).
  assert (reading p = 0) by by destruct p. assert (exclusive s = Some i) as Hex by (apply He; eauto).
  split; cbn [exclusive shared value_ threads history]; [lia | | done | |].
  - eapply (owner_moved writing); [exact He | exact Hi | tauto | left; tauto].
  - intros j r [[<- <-] | [Hne Hr']]%(lookup_moved _ _ _ _ _ _ Hi); [done |].
    destruct r; try done. exfalso. apply Hne. by eapply only_writer.
  - by rewrite calls_app, Hc.
Qed.

Lemma counter_inv_step n l (s s' : mstate (machine_ n)) : inv s → mstep (machine_ n) l s = Ok s' → inv s'.
Proof.
  destruct l as [i r]. cbn [machine_ mstep fst snd]. intros Hinv Hs. unfold thread_step in Hs.
  pose proof Hinv as [Hsh He Ha Hld Hc].
  destruct (threads s !! i) as [p |] eqn:Hi; [| done].
  assert (writing p ↔ exclusive s = Some i) as Hw
    by (rewrite <- He, Hi; split; [by exists p | by intros (? & [= ->] & ?)]).
  assert (reading p ≤ shared s) as Hrd
    by (pose proof (sum_list_with_insert reading _ i p Idle Hi); simpl in *; lia).
  pose proof (Hld i p Hi) as Hp. clear Hld Hc He.
  destruct p as [| | | | v | | |]; cbn [reads_value reading writing] in *; step_inv; sync_inv;
    unfold lock_shared, lock in *; step_inv;
    first [ refine (counter_inv_store s i _ _ _ _ Hinv Hi _ _ _ _ _); simpl; try done; by rewrite Z.eqb_refl
          | refine (counter_inv_move s i _ _ _ _ Hinv Hi _ _ _ _ _); cbn [reads_value reading writing];
            first [done | lia | by intros He0; rewrite Ha | intuition congruence]
          | idtac ].
  (* a read *)
  destruct (counter_inv_move s i GetLocked GetRead (exclusive s) (shared s) Hinv Hi) as [H1 H2 H3 H4 H5];
    cbn [reads_value reading writing]; first [done | lia | tauto | idtac].
  split; cbn [exclusive shared value_ threads history] in *; try done.
  rewrite calls_app, H5. simpl. by rewrite Z.eqb_refl.
Qed.

Lemma counter_inv_reachable n (s : mstate (machine_ n)) : reachable s → inv s.
Proof.
  revert s. apply (invariant_ind (machine_ n)).
  - intros s ->. split; simpl; [| | done | | done].
    + by induction n.
    + intros i. split; [| done]. intros (p & [-> _]%lookup_replicate & Hp). done.
    + by intros i p [-> _]%lookup_replicate.
  - intros l s s' _ IH Hs. exact (counter_inv_step n l s s' IH Hs).
Qed.
End RwCounter.

(** * [tiny_rwc.cpp]: one writer, readers, a pool nobody empties *)
Module TinyRwc.
Section pool.
Context {line : Type}.

Definition threshold : nat := 10.
Definition max_size : nat := 20.

(** The writer: before [getline], at the lock, at the first and at the second
    test of the size, asleep between two of each test, ended. *)
Inductive wpc :=
  | WNext | WLock (l : line) | WTest1 (l : line) | WTest2 (l : line)
  | WSleep1 (l : line) | WSleep2 (l : line) | WDone.

(** A reader: its index, whether it holds the shared lock, what it printed. *)
Record reader := Reader { index : nat; locked : bool; printed : list line }.

Record state := State {
  data_pool : list line;
  exclusive : bool;                      (* [data_mutex]: the writer, *)
  shared : nat;                          (* or this many readers *)
  file : list line;                      (* the lines not read yet *)
  writer : wpc;
  readers : list reader
}.
Definition init (n : nat) (lines : list line) : state :=
  State [] false 0 lines WNext (replicate n (Reader 0 false [])).

Definition set_writer (e : bool) (w : wpc) (s : state) : state :=
  State (data_pool s) e (shared s) (file s) w (readers s).
Definition lock_exclusive (s : state) : outcome unit := await (negb (exclusive s) && (shared s =? 0)).

Definition do_write (s : state) : outcome state :=
  match writer s with
  | WNext =>
      match file s with
      | [] => Ok (set_writer (exclusive s) WDone s)
      | l :: ls => Ok (State (data_pool s) (exclusive s) (shared s) ls (WLock l) (readers s))
      end
  | WLock l => lock_exclusive s ;; Ok (set_writer true (WTest1 l) s)
  | WTest1 l =>
      if max_size <=? length (data_pool s) then Ok (set_writer false (WSleep1 l) s)
      else Ok (set_writer (exclusive s) (WTest2 l) s)
  | WSleep1 l => lock_exclusive s ;; Ok (set_writer true (WTest1 l) s)
  | WTest2 l =>
      if threshold <=? length (data_pool s) then Ok (set_writer false (WSleep2 l) s)
      else Ok (State (data_pool s ++ [l]) false (shared s) (file s) WNext (readers s))
  | WSleep2 l => lock_exclusive s ;; Ok (set_writer true (WTest2 l) s)
  | WDone => Blocked
  end.

Definition read_step (i : nat) (s : state) : outcome state :=
  let move n r := Ok (State (data_pool s) (exclusive s) n (file s) (writer s) (<[i:=r]> (readers s))) in
  match readers s !! i with
  | None => Blocked
  | Some (Reader ix false out) =>
      await (negb (exclusive s)) ;; move (S (shared s)) (Reader ix true out)
  | Some (Reader ix true out) =>
      if ix <? length (data_pool s) then
        l ← from_option_ub (data_pool s !! ix);
        move (pred (shared s)) (Reader (S ix) false (out ++ [l]))
      else move (pred (shared s)) (Reader ix false out)
  end.

Inductive label := LWriter | LReader (i : nat).
Definition step (l : label) (s : state) : outcome state :=
  match l with LWriter => do_write s | LReader i => read_step i s end.
Definition main (n : nat) (lines : list line) : machine :=
  Machine state label (λ s, s = init n lines) step.

(** The line the writer holds. *)
Definition in_hand (w : wpc) : list line :=
  match w with
  | WLock l | WTest1 l | WTest2 l | WSleep1 l | WSleep2 l => [l]
  | WNext | WDone => []
  end.

Record inv (lines : list line) (s : state) : Prop := {
  inv_lines : lines = data_pool s ++ in_hand (writer s) ++ file s;
  inv_size : length (data_pool s) ≤ threshold;
  inv_done : writer s = WDone → file s = [];
  inv_reader : ∀ i r, readers s !! i = Some r →
    printed r = take (index r) (data_pool s) ∧ index r ≤ length (data_pool s)
}.

Lemma rwc_inv_step lines l s s' : inv lines s → step l s = Ok s' → inv lines s'.
Proof.
  intros [Hl Hs Hd Hr] Hstep. destruct l as [| i]; unfold step, do_write, read_step in Hstep.
  - unfold set_writer, lock_exclusive in Hstep. destruct (writer s) eqn:Hw; step_inv;
      (split; cbn [data_pool writer file readers in_hand] in *; try done; try congruence).
    + by rewrite <- !app_assoc.
    + rewrite length_app. cbn [length].
      match goal with H : _ = false |- _ => apply (Nat.leb_gt threshold) in H end. lia.
    + intros i r Hi. destruct (Hr i r Hi) as [Hp Hx]. rewrite length_app, take_app_le by done.
      split; [done | lia].
  - destruct (readers s !! i) as [[ix b out] |] eqn:Hi; [| done]. destruct (Hr i _ Hi) as [Hp Hx].
    cbn [printed index] in Hp, Hx. subst out.
    destruct b; step_inv;
      (split; cbn [data_pool writer file readers] in *; try done;
       intros j r [[<- <-] | [_ Hj]]%(lookup_moved _ _ _ _ _ _ Hi); [| by eapply Hr];
       cbn [printed index]); [| done | done].
    match goal with H : _ !! ix = Some _ |- _ =>
      split; [by rewrite (take_S_r _ _ _ H) | by apply lookup_lt_Some in H] end.
Qed.

Lemma rwc_inv_reachable n lines (s : mstate (main n lines)) : reachable s → inv lines s.
Proof.
  revert s. apply (invariant_ind (main n lines)).
  - intros s ->. split; simpl; [done | lia | done |].
    by intros i r [-> _]%lookup_replicate.
  - intros l s s' _ IH Hs. exact (rwc_inv_step lines l s s' IH Hs).
Qed.
End pool.
Arguments main : clear implicits.
Arguments label : clear implicits.
End TinyRwc.

(** * [notify.cpp]: ten threads wait, [notify_one] wakes one *)
Module Notify.
Inductive pc := PLock | PTest | PWait | PWoken | PPrinted | PDone.
#[export] Instance pc_condvar : CondVar pc := {
  cv_waiting p := match p with PWait => true | _ => false end;
  cv_woken _ := PWoken;
  cv_woken_awake _ _ := eq_refl
}.

(** [Go] is the main thread inside [go]. *)
Inductive agent := Go | Thread (i : nat).
#[export] Instance agent_eq_dec : EqDecision agent.
Proof. solve_decision. Defined.
Inductive gpc := GLock | GReady | GNotified | GJoin.

Record state := State {
  mtx : option agent;
  ready : bool;
  threads : list pc;
  main_ : gpc;
  out : list nat
}.
Definition init (n : nat) : state := State None false (replicate n PLock) GLock [].

Definition print_id (i : nat) (s : state) : outcome state :=
  let move m p o := Ok (State m (ready s) (<[i:=p]> (threads s)) (main_ s) o) in
  match threads s !! i with
  | Some PLock | Some PWoken => m ← mutex_lock (Thread i) (mtx s); move m PTest (out s)
  | Some PTest =>
      if ready s then move (mtx s) PPrinted (out s ++ [i])
      else m ← mutex_unlock (Thread i) (mtx s); move m PWait (out s)
  | Some PPrinted => m ← mutex_unlock (Thread i) (mtx s); move m PDone (out s)
  | Some PWait | Some PDone | None => Blocked
  end.

(** [go], with the scheduler's choice of the thread that is notified, then the
    joins. *)
Definition go (choice : option nat) (s : state) : outcome state :=
  match main_ s with
  | GLock => m ← mutex_lock Go (mtx s); Ok (State m true (threads s) GReady (out s))
  | GReady =>
      ws ← notify_one choice (threads s); Ok (State (mtx s) (ready s) ws GNotified (out s))
  | GNotified => m ← mutex_unlock Go (mtx s); Ok (State m (ready s) (threads s) GJoin (out s))
  | GJoin => Blocked
  end.

Inductive label := LThread (i : nat) | LGo (choice : option nat) | LSpurious (i : nat).
Definition step (l : label) (s : state) : outcome state :=
  match l with
  | LThread i => print_id i s
  | LGo choice => go choice s
  | LSpurious i =>
      ws ← wake i (threads s); Ok (State (mtx s) (ready s) ws (main_ s) (out s))
  end.
Definition main (n : nat) : machine := Machine state label (λ s, s = init n) step.
Definition scheduled (l : label) : Prop := match l with LSpurious _ => False | _ => True end.

(** Everybody waits, then [go] runs, then the thread it woke. *)
Definition all_wait (n : nat) : list label :=
  concat (map (λ i, replicate 2 (LThread i)) (seq 0 n)) ++
  [LGo None; LGo (Some 0); LGo None] ++ replicate 3 (LThread 0).

(** What is left when every other thread waits. *)
Definition stuck (s : state) : Prop :=
  main_ s = GJoin ∧ ∀ i p, threads s !! i = Some p → p = PWait ∨ p = PDone.

Lemma stuck_quiescent n (s : mstate (main n)) : stuck s → quiescent (main n) scheduled s.
Proof.
  intros [Hm Hw] l Hl s' Hs. destruct l as [i | c | i]; [| | done]; cbn [main mstep step] in Hs.
  - unfold print_id in Hs. destruct (threads s !! i) eqn:Hi; [| done].
    by destruct (Hw i _ Hi) as [-> | ->].
  - unfold go in Hs. by rewrite Hm in Hs.
Qed.
End Notify.

(** * [deadlocking.cpp]: two mutexes always taken in the same order *)
Module LockOrder.
(** A thread of [test]: at the test of the clock, holding nothing, [protecter1],
    both, [protecter1] again, nothing again; ended. *)
Inductive pc := TCheck | TWant1 | TWant2 | TBoth | TFirst | TDone.
Record state := State { protecter1 : option nat; protecter2 : option nat; threads : list pc }.
Definition init (n : nat) : state := State None None (replicate n TCheck).

Definition test_step (i : nat) (in_time : bool) (s : state) : outcome state :=
  let move m1 m2 p := Ok (State m1 m2 (<[i:=p]> (threads s))) in
  match threads s !! i with
  | Some TCheck => move (protecter1 s) (protecter2 s) (if in_time then TWant1 else TDone)
  | Some TWant1 => m ← mutex_lock i (protecter1 s); move m (protecter2 s) TWant2
  | Some TWant2 => m ← mutex_lock i (protecter2 s); move (protecter1 s) m TBoth
  | Some TBoth => m ← mutex_unlock i (protecter2 s); move (protecter1 s) m TFirst
  | Some TFirst => m ← mutex_unlock i (protecter1 s); move m (protecter2 s) TCheck
  | Some TDone | None => Blocked
  end.
Definition main (n : nat) : machine :=
  Machine state (nat * bool) (λ s, s = init n) (λ l, test_step l.1 l.2).

(** [block_lock]: [lock] on a mutex that the thread has just locked. *)
Definition block_lock (p1 : option nat) : outcome (option nat) :=
  p1 ← mutex_lock 0 p1; mutex_lock 0 p1.

Definition has1 (p : pc) : Prop := match p with TWant2 | TBoth | TFirst => True | _ => False end.
Definition has2 (p : pc) : Prop := match p with TBoth => True | _ => False end.
Record inv (s : state) : Prop := {
  inv1 : ∀ i, (∃ p, threads s !! i = Some p ∧ has1 p) ↔ protecter1 s = Some i;
  inv2 : ∀ i, (∃ p, threads s !! i = Some p ∧ has2 p) ↔ protecter2 s = Some i
}.

Lemma order_inv_step n l (s s' : mstate (main n)) : inv s → mstep (main n) l s = Ok s' → inv s'.
Proof.
  destruct l as [i b]. cbn [main mstep fst snd]. intros [H1 H2] Hs. unfold test_step in Hs.
  destruct (threads s !! i) as [p |] eqn:Hi; [| done].
  assert (has1 p ↔ protecter1 s = Some i) as E1
    by (rewrite <- H1, Hi; split; [by exists p | by intros (? & [= ->] & ?)]).
  assert (has2 p ↔ protecter2 s = Some i) as E2
    by (rewrite <- H2, Hi; split; [by exists p | by intros (? & [= ->] & ?)]).
  destruct p; try destruct b; step_inv; sync_inv; (split; cbn [protecter1 protecter2 threads];
    [apply (owner_moved has1 _ _ _ _ _ _ H1 Hi) | apply (owner_moved has2 _ _ _ _ _ _ H2 Hi)];
    cbn [has1 has2] in *; try done; intuition congruence).
Qed.

Lemma order_inv_reachable n (s : mstate (main n)) : reachable s → inv s.
Proof.
  revert s. apply (invariant_ind (main n)).
  - intros s ->. split; simpl; intros i; (split; [| done]);
      intros (p & [-> _]%lookup_replicate & Hp); done.
  - intros l s s' _ IH Hs. exact (order_inv_step n l s s' IH Hs).
Qed.

Lemma done_or_live (ws : list pc) :
  (∀ i p, ws !! i = Some p → p = TDone) ∨ ∃ i p, ws !! i = Some p ∧ p ≠ TDone.
Proof.
  induction ws as [| p ws [IH | (i & q & Hi & Hq)]]; [by left | | by right; exists (S i), q].
  destruct p; try (by right; eexists 0, _); left. by intros [| i] q; [intros [= <-] | apply IH].
Qed.
End LockOrder.

(** * Mutexes that are not used as mutexes *)
Module Misuse.
(** [alternate_print.cpp]: the result of [try_lock] is ignored. *)
Record printer := Printer { next : Z; last : Z; locked : bool }.
Record state := State { m : option nat; printers : list printer; out : list Z }.
Definition init : state := State None [Printer 0 102 false; Printer 1 101 false] [].
Definition print_step (i : nat) (s : state) : outcome state :=
  match printers s !! i with
  | None => Blocked
  | Some (Printer n l false) =>
      if (n =? l)%Z then Blocked
      else
        r ← mutex_try_lock i (m s);
        Ok (State r.2 (<[i:=Printer n l true]> (printers s)) (out s ++ [n]))
  | Some (Printer n l true) =>
      m' ← mutex_unlock i (m s);
      Ok (State m' (<[i:=Printer (n + 2) l false]> (printers s)) (out s))
  end.
Definition alternate_print : machine := Machine state nat (λ s, s = init) print_step.

(** [order_process.cpp]: each thread unlocks a mutex the other one may hold,
    before it has locked any. *)
Record order := Order { from : option nat; to : option nat }.
Definition do_from (o : order) : outcome order :=
  f ← mutex_unlock 0 (from o); t ← mutex_lock 0 (to o); Ok (Order f t).
Definition do_to (o : order) : outcome order :=
  t ← mutex_unlock 1 (to o); f ← mutex_lock 1 (from o); Ok (Order f t).

(** [print.cpp]: the main thread (2) locks [print]; [print_even] (0) adopts it
    and waits on the condition variable, which unlocks it. *)
Definition print_even (print : option nat) (odd : bool) : outcome (option nat) :=
  if odd then mutex_unlock 0 print     (* the end of the block *)
  else mutex_unlock 0 print.           (* [cv.wait] *)
Definition print_main : outcome (option nat) := p ← mutex_lock 2 None; print_even p true.
End Misuse.

(** * The properties *)

(** Printing in turns: the numbers come out in order from 0, number [k]
    from thread [k mod max_p], only the owner of the mutex is in the block, and
    at most [max_p] numbers come after 100. *)
Theorem turns_in_order (max_p : nat) (s : mstate (RoundRobin.main max_p)) :
  reachable s →
  RoundRobin.out s = map (λ k, (k mod Z.of_nat max_p, k)%Z) (seqZ 0 (RoundRobin.num s)) ∧
  (∀ i, (∃ p, RoundRobin.threads s !! i = Some p ∧ RoundRobin.holding p) ↔
        RoundRobin.num_mutex s = Some i) ∧
  (RoundRobin.num s <= 100 + Z.of_nat max_p)%Z.
Proof.
  intros Hr. destruct (RoundRobin.turns_inv_reachable max_p s Hr) as [_ Hl _ Ho Hb].
  split_and!; [done | done |]. lia.
Qed.

(** The program may never end: a thread that passed its test before 100 was
    printed waits for a turn that never comes, all the others having ended. *)
Theorem turns_hang :
  ∃ s : mstate (RoundRobin.main 3), reachable s ∧ quiescent (RoundRobin.main 3) RoundRobin.scheduled s ∧
    RoundRobin.num s = 101%Z ∧
    RoundRobin.threads s = [RoundRobin.PWait; RoundRobin.PDone; RoundRobin.PDone].
Proof.
  eexists. split; [run_schedule (RoundRobin.main 3) RoundRobin.hanging_schedule |].
  split; [| by split]. intros [i |] Hl s' Hs; [| done].
  by destruct i as [| [| [|]]].
Qed.

(** C13. The counter is atomic: in every reachable state the calls made so far,
    in the order of their reads and stores, are calls of a sequential counter
    modulo 2^32 that holds the present value; and a thread that changes the
    value is alone inside. *)
Theorem counter_atomic (n : nat) (s : mstate (RwCounter.machine_ n)) :
  reachable s →
  RwCounter.calls 0 (RwCounter.history s) = Some (RwCounter.value_ s) ∧
  (∀ i p, RwCounter.threads s !! i = Some p → RwCounter.writing p →
    RwCounter.shared s = 0 ∧
    ∀ j q, RwCounter.threads s !! j = Some q → RwCounter.writing q → j = i) ∧
  (∀ l, mstep (RwCounter.machine_ n) l s ≠ UB).
Proof.
  intros Hr. pose proof (RwCounter.counter_inv_reachable n s Hr) as Hinv. split_and!.
  - apply Hinv.
  - intros i p Hi Hp. split.
    + apply (RwCounter.inv_apart s Hinv). rewrite (proj1 (RwCounter.inv_exclusive s Hinv i)); eauto.
    + intros j q Hj Hq. by eapply RwCounter.only_writer.
  - intros [i r] Hs. cbn [RwCounter.machine_ mstep fst snd] in Hs.
    pose proof (RwCounter.inv_exclusive s Hinv i) as He. unfold RwCounter.thread_step in Hs.
    destruct (RwCounter.threads s !! i) as [p |] eqn:Hi; [| done].
    destruct p; try destruct r; unfold RwCounter.lock_shared, RwCounter.lock in Hs; step_inv;
      sync_inv; match goal with H : _ ≠ Some i |- _ => apply H, He; by eexists end.
Qed.

(** The pool: what readers see is a prefix of the file in order, the pool
    never holds more than ten lines, and since nobody empties it the writer
    never finishes a file of more than ten lines. *)
Theorem pool_bounded {line} (n : nat) (lines : list line) (s : mstate (TinyRwc.main line n lines)) :
  reachable s →
  TinyRwc.data_pool s `prefix_of` lines ∧ length (TinyRwc.data_pool s) ≤ TinyRwc.threshold ∧
  (∀ i r, TinyRwc.readers s !! i = Some r → TinyRwc.printed r `prefix_of` lines) ∧
  (TinyRwc.writer s = TinyRwc.WDone → TinyRwc.data_pool s = lines) ∧
  (TinyRwc.threshold < length lines → TinyRwc.writer s ≠ TinyRwc.WDone) ∧
  TinyRwc.step TinyRwc.LWriter s ≠ UB ∧ (∀ i, TinyRwc.step (TinyRwc.LReader i) s ≠ UB).
Proof.
  intros Hr. destruct (TinyRwc.rwc_inv_reachable n lines s Hr) as [Hl Hs Hd Hrd].
  assert (TinyRwc.writer s = TinyRwc.WDone → TinyRwc.data_pool s = lines) as Hall.
  { intros Hw. rewrite Hl, Hw, (Hd Hw). cbn [TinyRwc.in_hand app]. by rewrite app_nil_r. }
  split_and!.
  - rewrite Hl. by apply prefix_app_r.
  - done.
  - intros i r Hi. destruct (Hrd i r Hi) as [-> _]. rewrite Hl. apply prefix_app_r.
    exists (drop (TinyRwc.index r) (TinyRwc.data_pool s)). by rewrite take_drop.
  - done.
  - intros Hlen Hw. rewrite <- (Hall Hw) in Hlen. lia.
  - intros H. unfold TinyRwc.step, TinyRwc.do_write, TinyRwc.lock_exclusive in H. step_inv.
  - intros i H. unfold TinyRwc.step, TinyRwc.read_step in H.
    destruct (TinyRwc.readers s !! i) as [[ix [] out] |]; [| | done]; step_inv.
    + match goal with H : _ !! _ = None |- _ => apply lookup_ge_None in H end.
      match goal with H : (_ <? _) = true |- _ => apply Nat.ltb_lt in H end. lia.
Qed.

(** [notify_one] is not enough: when the ten threads wait before [go], one
    of them is woken and the other nine sleep for ever, and the program with
    them. *)
Theorem notify_one_hangs :
  ∃ s : mstate (Notify.main 10), reachable s ∧ quiescent (Notify.main 10) Notify.scheduled s ∧
    Notify.out s = [0] ∧ Notify.threads s = Notify.PDone :: replicate 9 Notify.PWait.
Proof.
  eexists. split; [run_schedule (Notify.main 10) (Notify.all_wait 10) |].
  split; [| by split]. apply Notify.stuck_quiescent. split; [done |]. intros i p Hi.
  do 10 (destruct i as [| i]; [simpl in Hi; simplify_eq; auto |]). done.
Qed.

(** Threads that take the two mutexes in the same order never deadlock: in
    every reachable state either all have ended or one can move, and no step
    is undefined; locking a mutex twice is undefined. *)
Theorem same_order_no_deadlock (n : nat) (s : mstate (LockOrder.main n)) :
  reachable s →
  ((∀ i p, LockOrder.threads s !! i = Some p → p = LockOrder.TDone) ∨
   ∃ i s', LockOrder.test_step i true s = Ok s') ∧
  (∀ l, mstep (LockOrder.main n) l s ≠ UB) ∧ LockOrder.block_lock None = UB.
Proof.
  intros Hr. destruct (LockOrder.order_inv_reachable n s Hr) as [H1 H2]. split_and!; [| | done].
  - destruct (LockOrder.protecter2 s) as [i |] eqn:E2.
    { right. exists i. destruct (proj2 (H2 i) eq_refl) as (p & Hi & Hp).
      unfold LockOrder.test_step. rewrite Hi, E2. destruct p; try done.
      rewrite mutex_unlock_own. by eexists. }
    destruct (LockOrder.protecter1 s) as [i |] eqn:E1.
    { right. exists i. destruct (proj2 (H1 i) eq_refl) as (p & Hi & Hp).
      unfold LockOrder.test_step. rewrite Hi, E1, E2. destruct p; try done; simpl; [by eexists | |].
      - assert (None = Some i) as [=]. apply H2. by exists LockOrder.TBoth.
      - case_decide; [by eexists | done]. }
    destruct (LockOrder.done_or_live (LockOrder.threads s)) as [| (i & p & Hi & Hp)]; [by left |].
    right. exists i.
    assert (¬ LockOrder.has1 p) as Hn1 by (intros Hh; assert (None = Some i) as [=]; apply H1; eauto).
    unfold LockOrder.test_step. rewrite Hi, E1. destruct p; simpl in Hn1; try tauto; by eexists.
  - intros [i b] Hs. cbn [LockOrder.main mstep fst snd] in Hs. unfold LockOrder.test_step in Hs.
    destruct (LockOrder.threads s !! i) as [p |] eqn:Hi; [| done].
    specialize (H1 i). specialize (H2 i). rewrite Hi in H1, H2. destruct p; step_inv; sync_inv.
    + match goal with H : LockOrder.protecter1 s = Some i |- _ => apply H1 in H as (? & [= <-] & []) end.
    + match goal with H : LockOrder.protecter2 s = Some i |- _ => apply H2 in H as (? & [= <-] & []) end.
    + match goal with H : _ ≠ Some i |- _ => apply H, H2; by eexists end.
    + match goal with H : _ ≠ Some i |- _ => apply H, H1; by eexists end.
Qed.

(** Mutexes misused: ignoring [try_lock] lets a thread unlock a mutex that
    the other one holds; the threads of [order_process.cpp] unlock mutexes
    nobody locked; [print.cpp] adopts and releases a mutex of the main thread. *)
Theorem misused_mutexes :
  (∃ s : mstate Misuse.alternate_print, reachable s ∧ Misuse.print_step 1 s = UB ∧
     Misuse.out s = [0; 1]%Z) ∧
  (∀ f t, f ≠ Some 0 → Misuse.do_from (Misuse.Order f t) = UB) ∧
  (∀ f t, t ≠ Some 1 → Misuse.do_to (Misuse.Order f t) = UB) ∧
  Misuse.print_main = UB.
Proof.
  split_and!; [| | | done].
  - eexists. split; [run_schedule Misuse.alternate_print [0; 1] | by vm_compute].
  - intros f t Hf. unfold Misuse.do_from. cbn [Misuse.from]. by rewrite (proj2 (mutex_unlock_UB _ _) Hf).
  - intros f t Ht. unfold Misuse.do_to. cbn [Misuse.to]. by rewrite (proj2 (mutex_unlock_UB _ _) Ht).
Qed.

Lemma turns_in_order_witness :
  ∃ s : mstate (RoundRobin.main 2), reachable s ∧ RoundRobin.num s = 2%Z ∧
    RoundRobin.out s = [(0, 0); (1, 1)]%Z ∧
    RoundRobin.out s = map (λ k, (k mod 2, k)%Z) (seqZ 0 (RoundRobin.num s)).
Proof.
  eexists. assert (reachable (M := RoundRobin.main 2) _) as Hr by run_schedule (RoundRobin.main 2)
    (replicate 4 (RoundRobin.LRun 0) ++ replicate 4 (RoundRobin.LRun 1)).
  split_and!; [exact Hr | reflexivity | reflexivity | exact (proj1 (turns_in_order 2 _ Hr))].
Defined.

Lemma counter_atomic_witness :
  ∃ s : mstate (RwCounter.machine_ 2), reachable s ∧
    RwCounter.history s = [RwCounter.Increment 1; RwCounter.Get 1] ∧
    RwCounter.calls 0 (RwCounter.history s) = Some (RwCounter.value_ s).
Proof.
  eexists. assert (reachable (M := RwCounter.machine_ 2) _) as Hr by run_schedule (RwCounter.machine_ 2)
    (replicate 4 (0, RwCounter.RIncrement) ++ replicate 3 (1, RwCounter.RGet)).
  split_and!; [exact Hr | reflexivity | exact (proj1 (counter_atomic 2 _ Hr))].
Defined.

Lemma pool_bounded_witness :
  ∃ s : mstate (TinyRwc.main nat 1 (seq 0 12)), reachable s ∧
    TinyRwc.data_pool s = seq 0 10 ∧ TinyRwc.writer s = TinyRwc.WSleep2 10 ∧
    TinyRwc.data_pool s `prefix_of` seq 0 12.
Proof.
  eexists. assert (reachable (M := TinyRwc.main nat 1 (seq 0 12)) _) as Hr
    by run_schedule (TinyRwc.main nat 1 (seq 0 12)) (replicate 44 (TinyRwc.LWriter)).
  split_and!; [exact Hr | reflexivity | reflexivity | exact (proj1 (pool_bounded 1 _ _ Hr))].
Defined.

Lemma same_order_no_deadlock_witness :
  ∃ s : mstate (LockOrder.main 2), reachable s ∧ LockOrder.protecter1 s = Some 0 ∧
    (∀ l, mstep (LockOrder.main 2) l s ≠ UB).
Proof.
  eexists. assert (reachable (M := LockOrder.main 2) _) as Hr by run_schedule (LockOrder.main 2)
    [(0, true); (1, true); (0, true); (0, true)].
  split_and!; [exact Hr | reflexivity | exact (proj1 (proj2 (same_order_no_deadlock 2 _ Hr)))].
Defined.
