(* ===== verification/RwDemo.v ===== *)
(** The threads of [concurrent/rw.cpp]: ten readers and ten writers call the
    shared counter ([Locks.RwCounter]) and print, each line under one mutex.  The
    counter's machine runs inside the program's; what it promises (its history is
    that of a sequential counter) gives what is printed. *)
From S2P Require Import Prelude Sync Locks.
Import RwCounter.
Open Scope nat_scope.

(** A line: the value a reader or a writer prints. *)
Inductive line := GetValue (v : Z) | WriteValue (v : Z).

(** A thread: sleeping or at the lock of [mtx], with [mtx] before the call, in
    the call, back from it. *)
Inductive tpc := Asleep | Holding | InCall | Returned (v : Z).

Record program := Program {
  mtx : option nat;
  counter : RwCounter.state;
  tpcs : list tpc;
  out : list line
}.

Section program.
(** The two arrays of threads: the readers come first. *)
Context (readers writers : nat).
Abbreviation threads_count := (readers + writers).

Definition request_of (i : nat) : request := if i <? readers then RGet else RIncrement.
Definition line_of (i : nat) (v : Z) : line := if i <? readers then GetValue v else WriteValue v.

Definition start : program :=
  Program None (RwCounter.init threads_count) (replicate threads_count Asleep) [].

(** The value a call returns: that of its read or of its store, the last one. *)
Definition value_of (e : event) : Z := match e with Get v | Increment v => v | Reset => 0%Z end.
Definition result (c : RwCounter.state) : outcome Z := from_option_ub (value_of <$> last (history c)).

Definition rw_step (i : nat) (s : program) : outcome program :=
  let move m c t o := Ok (Program m c (<[i := t]> (tpcs s)) o) in
  match tpcs s !! i with
  | None => Blocked
  | Some Asleep => m ← mutex_lock i (mtx s); move m (counter s) Holding (out s)
  | Some Holding => c ← thread_step i (request_of i) (counter s); move (mtx s) c InCall (out s)
  | Some InCall =>
      c ← thread_step i (request_of i) (counter s);
      match threads c !! i with
      | Some Idle => v ← result c; move (mtx s) c (Returned v) (out s)
      | _ => move (mtx s) c InCall (out s)
      end
  | Some (Returned v) =>
      m ← mutex_unlock i (mtx s); move m (counter s) Asleep (out s ++ [line_of i v])
  end.

Definition rw_demo : machine := Machine program nat (λ s, s = start) rw_step.

(** * Invariant *)

(** The events of the counter that the lines stand for. *)
Definition event_of (l : line) : event := match l with GetValue v => Get v | WriteValue v => Increment v end.

(** A thread in a call: its place in the counter, and the history so far. *)
Definition in_call (i : nat) (c : RwCounter.state) (es : list event) : Prop :=
  match threads c !! i with
  | Some GetLocked => i < readers ∧ history c = es
  | Some GetRead => i < readers ∧ ∃ v, history c = es ++ [Get v]
  | Some IncLocked | Some (IncLoaded _) => readers ≤ i ∧ history c = es
  | Some IncStored => readers ≤ i ∧ ∃ v, history c = es ++ [Increment v]
  | _ => False
  end.

(** Where the history is while thread [t] has [mtx], for what was printed. *)
Definition history_at (i : nat) (t : tpc) (c : RwCounter.state) (o : list line) : Prop :=
  match t with
  | InCall => in_call i c (event_of <$> o)
  | Returned v => history c = event_of <$> (o ++ [line_of i v])
  | _ => history c = event_of <$> o
  end.

Definition owns (t : tpc) : Prop := t ≠ Asleep.

Record inv (s : program) : Prop := {
  inv_tpcs : length (tpcs s) = threads_count;
  inv_threads : length (threads (counter s)) = threads_count;
  inv_owner : ∀ i, (∃ t, tpcs s !! i = Some t ∧ owns t) ↔ mtx s = Some i;
  inv_idle : ∀ i p, threads (counter s) !! i = Some p → tpcs s !! i ≠ Some InCall → p = Idle;
  inv_history : ∀ i t, tpcs s !! i = Some t → mtx s = Some i → history_at i t (counter s) (out s);
  inv_free : mtx s = None → history (counter s) = event_of <$> out s
}.

Lemma inv_start : inv start.
Proof.
  split; simpl; rewrite ?length_replicate; try done.
  - intros i. split; [| done]. by intros (t & [-> _]%lookup_replicate & ?).
  - by intros i p [-> _]%lookup_replicate.
Qed.

(** Only the thread with [mtx] moves the counter, and keeps the other threads
    where they are. *)
Lemma rw_inv_move i t t' p m c o s :
  inv s → tpcs s !! i = Some t → (owns t' ↔ m = Some i) →
  (m = mtx s ∧ (owns t ↔ owns t') ∧ mtx s = Some i ∨ mtx s = None ∧ m = Some i ∨ mtx s = Some i ∧ m = None) →
  threads c = <[i := p]> (threads (counter s)) → (t' ≠ InCall → p = Idle) →
  history_at i t' c o →
  inv (Program m c (<[i := t']> (tpcs s)) o).
Proof.
  intros [Hlt Hlc Ha Hid Hh Hf] Hi Hm Hm' Hc Hp Hhist. pose proof (lookup_lt_Some _ _ _ Hi) as Hlen.
  split; cbn [mtx counter tpcs out].
  - by rewrite length_insert.
  - by rewrite Hc, length_insert.
  - eapply (owner_moved owns); [exact Ha | exact Hi | exact Hm | tauto].
  - intros j q Hj Hne. rewrite Hc in Hj. apply list_lookup_insert_Some in Hj as [(<- & <- & _) | [Hij Hj]].
    + apply Hp. intros ->. apply Hne. by apply list_lookup_insert_eq.
    + apply (Hid j); [done |]. by rewrite list_lookup_insert_ne in Hne.
  - intros j u Hj Hmj. assert (j = i) as -> by (destruct Hm' as [(? & _ & ?) | [[? ?] | [? ?]]]; congruence).
    rewrite list_lookup_insert_eq in Hj by done. by injection Hj as <-.
  - intros ->. assert (t' = Asleep) as ->; [| done]. destruct Hm as [Hm _]. destruct t'; [done | exfalso; by assert (None = Some i) by by apply Hm ..].
Qed.

(** The call goes on, or returns the value of the event it has added. *)
Lemma in_call_step i c s s' :
  inv s → tpcs s !! i = Some InCall → mtx s = Some i → in_call i (counter s) (event_of <$> out s) →
  thread_step i (request_of i) (counter s) = Ok c →
  match threads c !! i with
  | Some Idle => v ← result c; Ok (Program (mtx s) c (<[i := Returned v]> (tpcs s)) (out s))
  | _ => Ok (Program (mtx s) c (<[i := InCall]> (tpcs s)) (out s))
  end = Ok s' → inv s'.
Proof.
  intros Hinv Hi Hm Hc Hs Hs'. unfold in_call in Hc. unfold thread_step in Hs.
  destruct (threads (counter s) !! i) as [p |] eqn:Hp; [| done].
  pose proof (λ q, list_lookup_insert_eq (threads (counter s)) i q (lookup_lt_Some _ _ _ Hp)) as Hlk.
  assert (∀ q c', threads c' = <[i := q]> (threads (counter s)) → q ≠ Idle →
    in_call i c' (event_of <$> out s) → inv (Program (mtx s) c' (<[i := InCall]> (tpcs s)) (out s))) as Hstay.
  { intros q c' Hq Hne Hin. apply (rw_inv_move i InCall InCall q); try done. by left. }
  assert (∀ v c', threads c' = <[i := Idle]> (threads (counter s)) →
    history c' = event_of <$> (out s ++ [line_of i v]) → result c' = Ok v →
    (v ← result c'; Ok (Program (mtx s) c' (<[i := Returned v]> (tpcs s)) (out s))) = Ok s' → inv s') as Hret.
  { intros v c' Hq Hh -> [= <-]. apply (rw_inv_move i InCall (Returned v) Idle); try done. by left. }
  destruct p as [| | | | w | | |]; try done; destruct Hc as [Hlt Hh]; revert Hs'; step_inv; sync_inv;
    cbn [threads]; rewrite Hlk; intros Hs'; try injection Hs' as <-.
  - apply (Hstay GetRead); try done. unfold in_call. simpl. rewrite Hlk. rewrite Hh. eauto.
  - destruct Hh as [v Hh]. refine (Hret v _ _ _ _ Hs'); [done | |]; unfold result; simpl; rewrite Hh.
    + rewrite fmap_app. unfold line_of. simpl. by rewrite (proj2 (Nat.ltb_lt i readers)).
    + by rewrite last_snoc.
  - apply (Hstay (IncLoaded (value_ (counter s)))); try done. unfold in_call. simpl. by rewrite Hlk.
  - apply (Hstay IncStored); try done. unfold in_call. simpl. rewrite Hlk, Hh. eauto.
  - destruct Hh as [v Hh]. refine (Hret v _ _ _ _ Hs'); [done | |]; unfold result; simpl; rewrite Hh.
    + rewrite fmap_app. unfold line_of. simpl. by rewrite (proj2 (Nat.ltb_ge i readers)).
    + by rewrite last_snoc.
Qed.

Lemma rw_inv_step i s s' : inv s → rw_step i s = Ok s' → inv s'.
Proof.
  intros Hinv Hs. pose proof Hinv as [Hlt Hlc Ha Hid Hh Hf]. unfold rw_step in Hs.
  destruct (tpcs s !! i) as [t |] eqn:Hi; [| done].
  assert (owns t → mtx s = Some i) as Hmi by (intros Ht; apply Ha; by exists t).
  specialize (Hh i t Hi).
  destruct (lookup_lt_is_Some_2 (threads (counter s)) i) as [p Hpi]; [rewrite Hlc, <- Hlt; by eapply lookup_lt_Some |].
  pose proof (Hid i p Hpi) as Hidle.
  destruct t.
  - apply bind_Ok in Hs as (m & [Hm ->]%mutex_lock_Ok & [= <-]). rewrite Hidle in Hpi by (rewrite Hi; done).
    apply (rw_inv_move i Asleep Holding Idle); try done; [by right; left | by rewrite list_insert_id | by apply Hf].
  - specialize (Hmi ltac:(done)). specialize (Hh Hmi). simpl in Hh. rewrite Hidle in Hpi by (rewrite Hi; done).
    apply bind_Ok in Hs as (c & Hc & [= <-]). unfold thread_step in Hc. rewrite Hpi in Hc.
    pose proof (list_lookup_insert_eq (threads (counter s)) i) as Hlk.
    unfold request_of in Hc. destruct (Nat.ltb_spec i readers); apply bind_Ok in Hc as (e & _ & [= <-]).
    + apply (rw_inv_move i Holding InCall GetLocked); try done; [by left |]. unfold history_at, in_call. simpl.
      rewrite Hlk by by eapply lookup_lt_Some. done.
    + apply (rw_inv_move i Holding InCall IncLocked); try done; [by left |]. unfold history_at, in_call. simpl.
      rewrite Hlk by by eapply lookup_lt_Some. done.
  - specialize (Hmi ltac:(done)). specialize (Hh Hmi). clear Hidle.
    apply bind_Ok in Hs as (c & Hc & Hs). by apply (in_call_step i c s s').
  - specialize (Hmi ltac:(done)). specialize (Hh Hmi). simpl in Hh. rewrite Hidle in Hpi by (rewrite Hi; done).
    apply bind_Ok in Hs as (m & [_ ->]%mutex_unlock_Ok & [= <-]).
    apply (rw_inv_move i (Returned v) Asleep Idle); try done; [by right; right | by rewrite list_insert_id].
Qed.

Lemma rw_inv_reachable (s : mstate rw_demo) : reachable s → inv s.
Proof.
  revert s. apply invariant_ind.
  - intros s ->. apply inv_start.
  - intros i s s' _ Hi Hs. by eapply rw_inv_step.
Qed.

Lemma counter_step i s s' :
  rw_step i s = Ok s' →
  counter s' = counter s ∨ ∃ a, mstep (machine_ threads_count) a (counter s) = Ok (counter s').
Proof.
  intros Hs. unfold rw_step in Hs. destruct (tpcs s !! i) as [[] |]; [| | | | done].
  - apply bind_Ok in Hs as (m & _ & [= <-]). by left.
  - apply bind_Ok in Hs as (c & Hc & [= <-]). right. by exists (i, request_of i).
  - apply bind_Ok in Hs as (c & Hc & Hs). right. exists (i, request_of i). simpl.
    rewrite Hc. destruct (threads c !! i) as [[] |]; try apply bind_Ok in Hs as (v & _ & Hs); by injection Hs as <-.
  - apply bind_Ok in Hs as (m & _ & [= <-]). by left.
Qed.

(** The counter inside is the counter on its own. *)
#[export] Instance demo_runs_counter : Refines rw_demo (machine_ threads_count).
Proof.
  refine {| ref_abs := (counter : mstate rw_demo → mstate (machine_ threads_count)) |}.
  - by intros s ->.
  - intros i s s' _ Hs. exact (counter_step i s s' Hs).
Defined.

Lemma counter_inside (s : mstate rw_demo) : reachable s → RwCounter.inv (counter s).
Proof. intros Hr. exact (counter_inv_reachable _ _ (refines_reachable demo_runs_counter s Hr)). Qed.

(** * The values printed *)
Definition printed (l : line) : Z := match l with GetValue v | WriteValue v => v end.
Definition writes (ls : list line) : Z :=
  foldr (λ l n, match l with WriteValue _ => n + 1 | GetValue _ => n end)%Z 0%Z ls.

Lemma to_unsigned_succ v : to_unsigned (to_unsigned v + 1) = to_unsigned (v + 1).
Proof. unfold to_unsigned. by rewrite Z.add_mod_idemp_l. Qed.

Lemma calls_values v ls w :
  calls (to_unsigned v) (event_of <$> ls) = Some w →
  ∀ k l, ls !! k = Some l → printed l = to_unsigned (v + writes (take (S k) ls)).
Proof.
  revert v. induction ls as [| l ls IH]; intros v Hc k l' Hk; [done |]. cbn [fmap list_fmap calls] in Hc.
  apply bind_Some in Hc as (v' & Hv' & Hc).
  assert (v' = to_unsigned (v + writes [l]) ∧ printed l = v') as [-> Hl].
  { destruct l as [r | r]; simpl in *; [destruct (Z.eqb_spec r (to_unsigned v)) | destruct (Z.eqb_spec r (to_unsigned (to_unsigned v + 1)))];
      simplify_eq; [by rewrite Z.add_0_r | by rewrite to_unsigned_succ]. }
  destruct k as [| k].
  - injection Hk as <-. change (take 1 (l :: ls)) with (l :: take 0 ls). by rewrite take_0.
  - simpl in Hk. rewrite (IH _ Hc k l' Hk). f_equal. destruct l; simpl; lia.
Qed.

Lemma calls_prefix v es es' : is_Some (calls v (es ++ es')) → is_Some (calls v es).
Proof.
  revert v. induction es as [| e es IH]; intros v Hs; [by eexists |]. simpl in *.
  destruct (call v e) as [v' |]; [by apply IH | by destruct Hs].
Qed.

(** What is printed is a prefix of the counter's history. *)
Lemma printed_history (s : mstate rw_demo) :
  reachable s → ∃ es, history (counter s) = (event_of <$> out s) ++ es.
Proof.
  intros Hr. destruct (rw_inv_reachable s Hr) as [_ Hlc Ha _ Hh Hf].
  destruct (mtx s) as [i |] eqn:Hm; [| exists []; by rewrite app_nil_r, Hf].
  destruct (proj2 (Ha i) eq_refl) as (t & Ht & _). specialize (Hh i t Ht eq_refl).
  destruct t; simpl in Hh; try (exists []; by rewrite app_nil_r).
  - unfold in_call in Hh. destruct (threads (counter s) !! i) as [[] |]; try done; destruct Hh as [_ Hh];
      first [exists []; by rewrite app_nil_r | destruct Hh; by eexists].
  - rewrite fmap_app in Hh. by eexists.
Qed.

(** * Progress *)

(** While a thread has [mtx] and is not in a call, the counter is at rest. *)
Lemma counter_at_rest i t s :
  RwCounter.inv (counter s) → inv s → tpcs s !! i = Some t → t ≠ InCall → mtx s = Some i →
  exclusive (counter s) = None ∧ shared (counter s) = 0.
Proof.
  intros Hc [_ _ Ha Hid _ _] Hi Ht Hm.
  assert (∀ j p, threads (counter s) !! j = Some p → p = Idle) as Hall.
  { intros j p Hj. apply (Hid j p Hj). intros Hin. assert (mtx s = Some j) as Hmj by (apply Ha; by exists InCall).
    congruence. }
  split.
  - destruct (exclusive (counter s)) as [j |] eqn:E; [| done].
    apply (RwCounter.inv_exclusive _ Hc) in E as (p & Hp & Hw). by rewrite (Hall j p Hp) in Hw.
  - rewrite (RwCounter.inv_shared _ Hc). clear -Hall. induction (threads (counter s)) as [| p ps IH]; [done |].
    simpl. rewrite (Hall 0 p eq_refl), IH; [done |]. intros j q Hj. exact (Hall (S j) q Hj).
Qed.

Lemma owner_moves i s :
  RwCounter.inv (counter s) → inv s → mtx s = Some i → ∃ s', rw_step i s = Ok s'.
Proof.
  intros Hc Hinv Hm. pose proof Hinv as [Hlt Hlc Ha Hid Hh _].
  destruct (proj2 (Ha i) Hm) as (t & Hi & Ht). specialize (Hh i t Hi Hm). unfold rw_step. rewrite Hi.
  destruct (lookup_lt_is_Some_2 (threads (counter s)) i) as [p Hp]; [rewrite Hlc, <- Hlt; by eapply lookup_lt_Some |].
  destruct t as [| | | v]; [done | | |].
  - destruct (counter_at_rest i Holding s) as [He Hs]; try done.
    assert (p = Idle) as -> by (apply (Hid i p Hp); by rewrite Hi).
    unfold thread_step, lock_shared, lock. rewrite Hp, He, Hs. destruct (request_of i); simpl; eauto.
  - simpl in Hh. unfold in_call in Hh. unfold thread_step. rewrite Hp in *.
    pose proof (λ q, list_lookup_insert_eq (threads (counter s)) i q (lookup_lt_Some _ _ _ Hp)) as Hlk.
    destruct p; try done; cbn [mbind outcome_bind threads]; rewrite ?Hlk; eauto.
    + destruct Hh as (_ & w & Hh). unfold result. cbn [history]. rewrite Hh, last_snoc. simpl. eauto.
    + destruct Hh as (_ & w & Hh).
      assert (exclusive (counter s) = Some i) as -> by (apply (RwCounter.inv_exclusive _ Hc); by exists IncStored).
      rewrite mutex_unlock_own. cbn [mbind outcome_bind threads]. rewrite Hlk. unfold result. cbn [history].
      rewrite Hh, last_snoc. simpl. eauto.
  - rewrite Hm, mutex_unlock_own. simpl. eauto.
Qed.

Lemma rw_step_safe i s : RwCounter.inv (counter s) → inv s → rw_step i s ≠ UB.
Proof.
  intros Hc Hinv Hs. assert (mtx s ≠ Some i) as Hne by (intros Hm; destruct (owner_moves i s Hc Hinv Hm); congruence).
  unfold rw_step in Hs. destruct (tpcs s !! i) as [t |] eqn:Hi; [| done].
  assert (t = Asleep) as ->.
  { destruct t; [done | exfalso; apply Hne, (inv_owner _ Hinv); by eexists ..]. }
  apply bind_UB in Hs as [Hs%mutex_lock_UB | (m & _ & Hs)]; [by apply Hne | done].
Qed.

Lemma rw_progress s :
  0 < threads_count → RwCounter.inv (counter s) → inv s → ∃ i s', rw_step i s = Ok s'.
Proof.
  intros Hn Hc Hinv. destruct (mtx s) as [i |] eqn:Hm; [exists i; by apply owner_moves |].
  exists 0. destruct (lookup_lt_is_Some_2 (tpcs s) 0) as [t Ht]; [by rewrite (inv_tpcs _ Hinv) |].
  assert (t = Asleep) as ->; [| unfold rw_step; rewrite Ht, Hm; simpl; eauto].
  destruct t; [done | exfalso ..]; enough (mtx s = Some 0) by congruence;
    (apply (inv_owner _ Hinv); by eexists).
Qed.
End program.

(** C15. Readers and writers print the values of one sequential counter, in order:
    under every schedule the line in place [k] shows the number of writers' lines
    up to and including it (as an [unsigned int]), whichever thread printed it;
    nobody unlocks a mutex that is not its own, and some thread can always move. *)
Theorem rw_demo_output (readers writers : nat) (s : mstate (rw_demo readers writers)) :
  reachable s →
  (∀ k l, out s !! k = Some l → printed l = to_unsigned (writes (take (S k) (out s)))) ∧
  ¬ goes_wrong s ∧
  (0 < readers + writers → ∃ i s', rw_step readers i s = Ok s').
Proof.
  intros Hr. pose proof (counter_inside readers writers s Hr) as Hc. pose proof (rw_inv_reachable readers writers s Hr) as Hinv.
  split_and!.
  - destruct (printed_history readers writers s Hr) as [es Hes].
    destruct (calls_prefix 0 (event_of <$> out s) es) as [w Hw]; [rewrite <- Hes, (RwCounter.inv_calls _ Hc); by eexists |].
    exact (calls_values 0 _ w Hw).
  - intros (i & Hs). exact (rw_step_safe readers writers i s Hc Hinv Hs).
  - intros Hn. exact (rw_progress readers writers s Hn Hc Hinv).
Qed.

(** One reader and one writer: the reader before and after the writer. *)
Lemma rw_demo_output_witness :
  ∃ s : mstate (rw_demo 1 1), reachable s ∧ out s = [GetValue 0; WriteValue 1; GetValue 1] ∧
    ∀ k l, out s !! k = Some l → printed l = to_unsigned (writes (take (S k) (out s))).
Proof.
  eexists. assert (reachable (M := rw_demo 1 1) _) as Hr by run_schedule (rw_demo 1 1)
    (replicate 5 0 ++ replicate 6 1 ++ replicate 5 0).
  split_and!; [exact Hr | reflexivity | exact (proj1 (rw_demo_output 1 1 _ Hr))].
Defined.
