(* ===== verification/WriterReaders.v ===== *)
(** [concurrent/1w_nr.cpp]: a writer fills a list with the lines of a file,
    readers copy its first line, a clearer removes that line once as many
    reads as there are readers were counted. One step is one action between
    two points where another thread can be seen: taking the lock, one access to
    the shared list, one atomic operation, one notification. The lock is held
    by the threads whose program point says so. A state in which two threads
    are about to access the list and one of them writes is a data race, and
    undefined. [main] returns when the clearer has set its flag, while the other
    threads are detached: what it destroys then (its own [once_flag], the list,
    the lock, the condition variables) must not be in use. The time stamps of
    the messages are left out; [timestamp] calls [localtime], whose result is
    shared by the threads, without a lock. *)

From S2P Require Import Prelude.

Module OneWriter.
Section pool.
Context {line : Type} (reader_count : Z).

Definition warn_threshhold : nat := 70.
Definition critical_threashhold : nat := 90.

(** The writer: at [getline], at the lock, at the test of the size, at the
    notification of either warning, at [push_back] with or without the lock, at
    the notification and the last [size()], at the end. *)
Inductive wpc :=
  | WNext | WLock (l : line) | WSize (l : line) | WWarn (l : line) | WCritical (l : line)
  | WPush (l : line) (locked : bool) | WNotify (locked : bool) | WPrint (locked : bool)
  | WEnd | WDone.

(** A reader: at the loop's test, at the lock, before the wait, asleep, notified
    (it needs the lock again), at [front()], at the counter, at the file. *)
Inductive rpc :=
  | RTest | RLock | RWait | RAsleep | RWoken | RFront | RCount (l : line) | RTell (l : line) | RDone.
Record reader_ := Reader { at_ : rpc; out_file : list line }.

(** The clearer: at the lock (again after a notification), at the predicate,
    asleep, at the counter, at [pop_front], at [empty()], at [write_end_flag],
    at the notification in the writer's place, at the last [size()], at
    [clear_end_flag], at the [once_flag] that [call_once] sets when [clear] has
    returned. *)
Inductive cpc :=
  | CLock | CTest | CAsleep | CStore | CPop | CEmpty | CTell | CAgain | CStop | CFlag | COnce | CDone.

Record state := State {
  data_list : list line;
  write_end_flag : bool;
  clear_end_flag : bool;
  aready_read : Z;
  file : list line;                      (* the lines not read yet *)
  writer : wpc;
  clearer : cpc;
  readers : list reader_;
  cleared : list line;                   (* the lines removed so far *)
  main_returned : bool
}.
Definition init (lines : list line) : state :=
  State [] false false 0 lines WNext CLock (replicate (Z.to_nat reader_count) (Reader RTest [])) [] false.

Definition set_writer (w : wpc) (s : state) : state :=
  State (data_list s) (write_end_flag s) (clear_end_flag s) (aready_read s) (file s) w (clearer s) (readers s) (cleared s) (main_returned s).
Definition set_clearer (c : cpc) (s : state) : state :=
  State (data_list s) (write_end_flag s) (clear_end_flag s) (aready_read s) (file s) (writer s) c (readers s) (cleared s) (main_returned s).
Definition set_readers (rs : list reader_) (s : state) : state :=
  State (data_list s) (write_end_flag s) (clear_end_flag s) (aready_read s) (file s) (writer s) (clearer s) rs (cleared s) (main_returned s).
Definition set_count (n : Z) (s : state) : state :=
  State (data_list s) (write_end_flag s) (clear_end_flag s) n (file s) (writer s) (clearer s) (readers s) (cleared s) (main_returned s).
Definition set_list (l c : list line) (s : state) : state :=
  State l (write_end_flag s) (clear_end_flag s) (aready_read s) (file s) (writer s) (clearer s) (readers s) c (main_returned s).
Definition set_ends (w c : bool) (s : state) : state :=
  State (data_list s) w c (aready_read s) (file s) (writer s) (clearer s) (readers s) (cleared s) (main_returned s).
Definition set_file (f : list line) (s : state) : state :=
  State (data_list s) (write_end_flag s) (clear_end_flag s) (aready_read s) f (writer s) (clearer s) (readers s) (cleared s) (main_returned s).

Definition set_returned (s : state) : state :=
  State (data_list s) (write_end_flag s) (clear_end_flag s) (aready_read s) (file s) (writer s) (clearer s) (readers s) (cleared s) true.

(** * The lock [data_protecter] and the data races *)
Definition w_holds (w : wpc) : bool :=
  match w with WSize _ | WCritical _ => true | WPush _ b | WNotify b | WPrint b => b | _ => false end.
Definition c_holds (c : cpc) : bool :=
  match c with CTest | CStore | CPop | CEmpty => true | _ => false end.
Definition r_holds (r : reader_) : bool :=
  match at_ r with RWait | RFront | RCount _ => true | _ => false end.

Definition no_exclusive (s : state) : bool := negb (w_holds (writer s)) && negb (c_holds (clearer s)).
Definition unlocked (s : state) : bool := no_exclusive s && forallb (λ r, negb (r_holds r)) (readers s).

Inductive access := Reads | Writes.
Definition w_access (w : wpc) : option access :=
  match w with WSize _ | WPrint _ => Some Reads | WPush _ _ => Some Writes | _ => None end.
Definition c_access (c : cpc) : option access :=
  match c with CPop => Some Writes | CEmpty | CStop => Some Reads | _ => None end.
Definition r_access (r : reader_) : option access :=
  match at_ r with RFront => Some Reads | _ => None end.
Definition conflict (a b : option access) : bool :=
  match a, b with Some Writes, Some _ | Some _, Some Writes => true | _, _ => false end.
Definition race (s : state) : bool :=
  conflict (w_access (writer s)) (c_access (clearer s)) ||
  existsb (λ r, conflict (w_access (writer s)) (r_access r) || conflict (c_access (clearer s)) (r_access r))
    (readers s).

(** * The condition variables *)
Definition wake (r : reader_) : reader_ :=
  match at_ r with RAsleep => Reader RWoken (out_file r) | _ => r end.
Definition notify_has_data (s : state) : state := set_readers (wake <$> readers s) s.
Definition notify_clear_data (s : state) : state :=
  match clearer s with CAsleep => set_clearer CLock s | _ => s end.

(** * The threads *)

(** The tests of the pool's size; the second comes too late to succeed. *)
Definition check_size (size : nat) (l : line) : wpc :=
  if warn_threshhold <=? size then WWarn l
  else if critical_threashhold <=? size then WCritical l
  else WPush l true.

Definition write_step (s : state) : outcome state :=
  match writer s with
  | WNext =>
      match file s with
      | [] => Ok (set_writer WEnd s)
      | l :: ls => Ok (set_writer (WLock l) (set_file ls s))
      end
  | WLock l => await (unlocked s) ;; Ok (set_writer (WSize l) s)
  | WSize l => Ok (set_writer (check_size (length (data_list s)) l) s)
  | WWarn l => Ok (set_writer (WPush l false) (notify_has_data s))
  | WCritical l => Ok (set_writer (WPush l true) (notify_has_data s))
  | WPush l b => Ok (set_writer (WNotify b) (set_list (data_list s ++ [l]) (cleared s) s))
  | WNotify b => Ok (set_writer (WPrint b) (notify_has_data s))
  | WPrint _ => Ok (set_writer WNext s)
  | WEnd => Ok (set_writer WDone (set_ends true (clear_end_flag s) s))
  | WDone => Blocked
  end.

(** [fetch_add] on a 32-bit [int] wraps around. *)
Definition fetch_add (n : Z) : Z := ((n + 1 + 2 ^ 31) mod 2 ^ 32 - 2 ^ 31)%Z.

Definition read_step (i : nat) (s : state) : outcome state :=
  match readers s !! i with
  | None => Blocked
  | Some (Reader pc out) =>
      let go pc s := Ok (set_readers (<[i := Reader pc out]> (readers s)) s) in
      match pc with
      | RTest => go (if clear_end_flag s then RDone else RLock) s
      | RLock => await (no_exclusive s) ;; go RWait s
      | RWait => go RAsleep s
      | RAsleep => Blocked
      | RWoken => await (no_exclusive s) ;; go RFront s
      | RFront => l ← from_option_ub (head (data_list s)); go (RCount l) s
      | RCount l => go (RTell l) (set_count (fetch_add (aready_read s)) s)
      | RTell l =>
          Ok (notify_clear_data (set_readers (<[i := Reader RTest (out ++ [l])]> (readers s)) s))
      | RDone => Blocked
      end
  end.

Definition clear_step (s : state) : outcome state :=
  match clearer s with
  | CLock => await (unlocked s) ;; Ok (set_clearer CTest s)
  | CTest => Ok (set_clearer (if (aready_read s =? reader_count)%Z then CStore else CAsleep) s)
  | CAsleep => Blocked
  | CStore => Ok (set_clearer CPop (set_count 0 s))
  | CPop =>
      match data_list s with
      | [] => UB
      | l :: ls => Ok (set_clearer CEmpty (set_list ls (cleared s ++ [l]) s))
      end
  | CEmpty => Ok (set_clearer (match data_list s with [] => CStop | _ => CTell end) s)
  | CTell => Ok (set_clearer (if write_end_flag s then CAgain else CLock) s)
  | CAgain => Ok (set_clearer CLock (notify_has_data s))
  | CStop => Ok (set_clearer CFlag s)
  | CFlag => Ok (set_clearer COnce (set_ends (write_end_flag s) true s))
  | COnce => Ok (set_clearer CDone s)
  | CDone => Blocked
  end.

(** * The return of [main]: its locals and the globals are destroyed *)

(** The next action uses the list, the lock, a condition variable or the
    [once_flag]; the atomic flags and the counter need no destruction. *)
Definition w_uses (w : wpc) : bool := match w with WNext | WEnd | WDone => false | _ => true end.
Definition r_uses (r : rpc) : bool :=
  match r with RLock | RWait | RWoken | RFront | RTell _ => true | _ => false end.
Definition c_uses (c : cpc) : bool := match c with CFlag | CDone | CAsleep => false | _ => true end.
Definition uses (l : nat + bool) (s : state) : bool :=
  match l with
  | inl i => match readers s !! i with Some r => r_uses (at_ r) | None => false end
  | inr true => w_uses (writer s)
  | inr false => c_uses (clearer s)
  end.
(** A lock is not destroyed while it is held, nor a condition variable while
    somebody waits for it. *)
Definition asleep (r : reader_) : bool := match at_ r with RAsleep => true | _ => false end.
Definition destructible (s : state) : bool :=
  unlocked s && forallb (λ r, negb (asleep r)) (readers s).
Definition main_step (s : state) : outcome state :=
  await (clear_end_flag s && negb (main_returned s)) ;;
  require (destructible s) ;; Ok (set_returned s).

(** Spurious wake-ups are steps of their own. *)
Inductive label := LWriter | LReader (i : nat) | LClear | LMain | LSpurious (i : nat) | LSpuriousClear.
Definition alive (who : nat + bool) (s : state) : outcome () :=
  require (negb (main_returned s && uses who s)).
Definition run_step (l : label) (s : state) : outcome state :=
  match l with
  | LWriter => alive (inr true) s ;; write_step s
  | LReader i => alive (inl i) s ;; read_step i s
  | LClear => alive (inr false) s ;; clear_step s
  | LMain => main_step s
  | LSpurious i =>
      match readers s !! i with
      | Some (Reader RAsleep out) => Ok (set_readers (<[i := Reader RWoken out]> (readers s)) s)
      | _ => Blocked
      end
  | LSpuriousClear => match clearer s with CAsleep => Ok (set_clearer CLock s) | _ => Blocked end
  end.
Definition step (l : label) (s : state) : outcome state :=
  require (negb (race s)) ;; run_step l s.
Definition main (lines : list line) : machine :=
  Machine state label (λ s, s = init lines) step.

Definition real (l : label) : Prop := match l with LSpurious _ | LSpuriousClear => False | _ => True end.

(** * Invariants *)
Definition nobody (s : state) : Prop := Forall (λ r, r_holds r = false) (readers s).
Definition in_hand (w : wpc) : list line :=
  match w with
  | WLock l | WSize l | WWarn l | WCritical l | WPush l _ => [l]
  | _ => []
  end.
(** The writer found the pool too large, and goes on without the lock. *)
Definition w_unlocked (w : wpc) : bool :=
  match w with WWarn _ => true | WPush _ b | WNotify b | WPrint b => negb b | _ => false end.
Definition got (r : rpc) : list line := match r with RCount l | RTell l => [l] | _ => [] end.

(** What a reader copied, with the line it has read and not written yet: lines
    of the file, in the order of the file, up to line [n]. *)
Definition copied (lines : list line) (n : nat) (out : list line) : Prop :=
  ∃ ks, StronglySorted le ks ∧ Forall (λ k, k ≤ n) ks ∧ Forall2 (λ k l, lines !! k = Some l) ks out.

Record inv (lines : list line) (s : state) : Prop := {
  inv_lines : cleared s ++ data_list s ++ in_hand (writer s) ++ file s = lines;
  inv_writer : w_holds (writer s) = true → c_holds (clearer s) = false ∧ nobody s;
  inv_clearer : c_holds (clearer s) = true → nobody s;
  inv_count : (aready_read s ≠ 0)%Z ∨ clearer s = CStore ∨ clearer s = CPop → data_list s ≠ [];
  inv_pop : clearer s = CPop → aready_read s = 0%Z;
  inv_counting : Forall (λ r, got (at_ r) ≠ [] → r_holds r = true → data_list s ≠ []) (readers s);
  inv_big : w_unlocked (writer s) = true → warn_threshhold < length lines;
  inv_copy : Forall (λ r, copied lines (length (cleared s)) (out_file r ++ got (at_ r))) (readers s);
  inv_returned : main_returned s = true → clear_end_flag s = true
}.

Lemma copied_le lines n m out : n ≤ m → copied lines n out → copied lines m out.
Proof.
  intros Hnm (ks & Hs & Hn & H2). exists ks. split_and!; [done | | done].
  eapply Forall_impl; [exact Hn |]. cbn. lia.
Qed.

Lemma copied_snoc lines n out l : lines !! n = Some l → copied lines n out → copied lines n (out ++ [l]).
Proof.
  intros Hl (ks & Hs & Hn & H2). exists (ks ++ [n]). split_and!.
  - revert Hs Hn. clear. induction 1 as [| k ks Hs IH Hk]; intros Hn; cbn; [by repeat constructor |].
    apply Forall_cons in Hn as [Hkn Hn]. constructor; [by apply IH |].
    apply Forall_app. split; [done | by repeat constructor].
  - apply Forall_app. split; [done | by repeat constructor].
  - apply Forall2_app; [done | by repeat constructor].
Qed.

Lemma no_exclusive_spec s :
  no_exclusive s = true ↔ w_holds (writer s) = false ∧ c_holds (clearer s) = false.
Proof. unfold no_exclusive. by rewrite andb_true_iff, !negb_true_iff. Qed.
Lemma unlocked_spec s :
  unlocked s = true ↔ w_holds (writer s) = false ∧ c_holds (clearer s) = false ∧ nobody s.
Proof.
  unfold unlocked, nobody. rewrite andb_true_iff, no_exclusive_spec, forallb_forall, List.Forall_forall.
  setoid_rewrite negb_true_iff. tauto.
Qed.

(** What a wake-up keeps of a reader. *)
Lemma Forall_wake (P : reader_ → Prop) rs :
  (∀ out, P (Reader RAsleep out) → P (Reader RWoken out)) → Forall P rs → Forall P (wake <$> rs).
Proof.
  intros HP H. apply Forall_fmap. eapply Forall_impl; [exact H |].
  intros [[] out]; cbn; auto.
Qed.

Lemma inv_notify lines s : inv lines s → inv lines (notify_has_data s).
Proof.
  intros []. split; cbn [notify_has_data set_readers data_list writer clearer readers cleared file aready_read main_returned clear_end_flag];
    unfold nobody in *; cbn [readers]; try done.
  - intros Hw. destruct (inv_writer0 Hw). split; [done |]. by apply Forall_wake.
  - intros Hc. by apply Forall_wake; auto.
  - by apply Forall_wake.
  - by apply Forall_wake.
Qed.

(** A step of a reader from one point to another that changes nothing else. *)
Lemma inv_move lines s i pc out pc' out' :
  readers s !! i = Some (Reader pc out) →
  (r_holds (Reader pc' out') = true → r_holds (Reader pc out) = true ∨ no_exclusive s = true) →
  (got pc' ≠ [] → r_holds (Reader pc' out') = true → data_list s ≠ []) →
  copied lines (length (cleared s)) (out' ++ got pc') →
  inv lines s → inv lines (set_readers (<[i := Reader pc' out']> (readers s)) s).
Proof.
  intros Hi Hh Hg Hc [].
  assert (Hn : nobody s → no_exclusive s = false → nobody (set_readers (<[i := Reader pc' out']> (readers s)) s)).
  { intros Hn Hx. apply Forall_insert; [done |]. destruct (r_holds (Reader pc' out')) eqn:E; [| done].
    destruct Hh as [Hh | Hh]; [done | | by rewrite Hh in Hx].
    unfold nobody in Hn. rewrite Forall_lookup in Hn. by rewrite (Hn i _ Hi) in Hh. }
  split; cbn [set_readers data_list writer clearer readers cleared file aready_read main_returned clear_end_flag]; try done.
  - intros Hw. destruct (inv_writer0 Hw). split; [done |]. apply Hn; [done |].
    unfold no_exclusive. by rewrite Hw.
  - intros Hcl. apply Hn; [auto |]. unfold no_exclusive. by rewrite Hcl, andb_false_r.
  - by apply Forall_insert.
  - by apply Forall_insert.
Qed.

Lemma inv_reader lines s i r : inv lines s → readers s !! i = Some r →
  (c_holds (clearer s) = true → r_holds r = false) ∧ (w_holds (writer s) = true → r_holds r = false) ∧
  (got (at_ r) ≠ [] → r_holds r = true → data_list s ≠ []) ∧
  copied lines (length (cleared s)) (out_file r ++ got (at_ r)).
Proof.
  intros [] Hi. unfold nobody in *. split_and!.
  - intros Hc%inv_clearer0. by eapply Forall_lookup_1 in Hc.
  - intros [_ Hw]%inv_writer0. by eapply Forall_lookup_1 in Hw.
  - by eapply Forall_lookup_1 in inv_counting0.
  - by eapply Forall_lookup_1 in inv_copy0.
Qed.

Lemma inv_counted lines s n :
  data_list s ≠ [] → c_holds (clearer s) = false → inv lines s → inv lines (set_count n s).
Proof.
  intros Hne Hc []. split; cbn [set_count data_list writer clearer readers cleared file aready_read main_returned clear_end_flag]; try done.
  intros Hp. by rewrite Hp in Hc.
Qed.

(** The clearer moves to a point at which it does not hold the lock. *)
Lemma inv_set_clearer lines s c : c_holds c = false → inv lines s → inv lines (set_clearer c s).
Proof.
  intros Hc []. split; cbn [set_clearer data_list writer clearer readers cleared file aready_read main_returned clear_end_flag]; try done.
  - intros Hw. destruct (inv_writer0 Hw). done.
  - by rewrite Hc.
  - intros [? | [-> | ->]]; [by apply inv_count0; left | done | done].
  - by intros ->.
Qed.

Lemma inv_read_step lines i s s' : inv lines s → read_step i s = Ok s' → inv lines s'.
Proof.
  intros Hinv. unfold read_step. destruct (readers s !! i) as [[pc out] |] eqn:Hi; [| done].
  destruct (inv_reader lines s i _ Hinv Hi) as (Hex & _ & Hne & Hcopy). cbn [at_ out_file got] in *.
  destruct pc; cbn [got] in *; rewrite ?app_nil_r in Hcopy; try done.
  - intros [= <-]. eapply inv_move; try done; destruct (clear_end_flag s); by rewrite ?app_nil_r.
  - intros ([] & Hf & [= <-])%bind_Ok. unfold await in Hf. destruct (no_exclusive s) eqn:E; [| done].
    eapply inv_move; try done; [by right | by rewrite app_nil_r].
  - intros [= <-]. eapply inv_move; try done. by rewrite app_nil_r.
  - intros ([] & Hf & [= <-])%bind_Ok. unfold await in Hf. destruct (no_exclusive s) eqn:E; [| done].
    eapply inv_move; try done; [by right | by rewrite app_nil_r].
  - intros (l & Hl & [= <-])%bind_Ok. destruct (data_list s) as [| l0 ls] eqn:E; [done |].
    injection Hl as <-. eapply inv_move; try done; [by left | by rewrite E |].
    apply copied_snoc; [| done]. rewrite <- (inv_lines _ _ Hinv), E.
    by rewrite lookup_app_r, Nat.sub_diag by lia.
  - intros [= <-]. change (readers s) with (readers (set_count (fetch_add (aready_read s)) s)).
    eapply inv_move; [exact Hi | done | done | done |].
    apply inv_counted; [by apply Hne | | done].
    destruct (c_holds (clearer s)); [| done]. by discriminate Hex.
  - intros [= <-]. set (s1 := set_readers _ s).
    assert (inv lines s1) by (eapply inv_move; try done; by rewrite app_nil_r).
    unfold notify_clear_data. case_match; try done. by apply inv_set_clearer.
Qed.

Lemma check_size_spec size l :
  check_size size l = if size <? warn_threshhold then WPush l true else WWarn l.
Proof.
  unfold check_size. destruct (Nat.leb_spec warn_threshhold size), (Nat.ltb_spec size warn_threshhold); try lia;
    [done |].
  destruct (Nat.leb_spec critical_threashhold size); [| done].
  unfold warn_threshhold, critical_threashhold in *. lia.
Qed.

Lemma inv_set_writer lines s w :
  in_hand w = in_hand (writer s) →
  (w_holds w = true → w_holds (writer s) = true ∨ unlocked s = true) →
  (w_unlocked w = true → warn_threshhold < length lines) →
  inv lines s → inv lines (set_writer w s).
Proof.
  intros Hh Hw Hb []. split; cbn [set_writer data_list writer clearer readers cleared file aready_read main_returned clear_end_flag]; try done.
  - by rewrite Hh.
  - intros [H | H]%Hw; [by apply inv_writer0 |]. by apply unlocked_spec in H as (_ & H).
Qed.

Lemma inv_write_step lines s s' : inv lines s → write_step s = Ok s' → inv lines s'.
Proof.
  intros Hinv. unfold write_step. destruct (writer s) eqn:Hw.
  - destruct (file s) as [| l ls] eqn:Hf; intros [= <-].
    + apply inv_set_writer; by rewrite ?Hw.
    + destruct Hinv. split; cbn [set_writer set_file data_list writer clearer readers cleared file aready_read main_returned clear_end_flag]; try done; rewrite ?Hw in *; try done.
      by rewrite Hf in inv_lines0.
  - intros ([] & Hf & [= <-])%bind_Ok. unfold await in Hf. destruct (unlocked s) eqn:E; [| done].
    apply inv_set_writer; rewrite ?Hw; try done; auto.
  - intros [= <-]. apply inv_set_writer; rewrite ?check_size_spec, ?Hw; auto; try by case_match.
    destruct (Nat.ltb_spec (length (data_list s)) warn_threshhold) as [H | H]; [done |].
    intros _. rewrite <- (inv_lines _ _ Hinv), Hw. rewrite !length_app. cbn [in_hand length]. lia.
  - intros [= <-]. apply inv_set_writer; cbn; rewrite ?Hw; try done; auto using inv_notify.
    intros _. apply (inv_big _ _ Hinv). by rewrite Hw.
  - intros [= <-]. apply inv_set_writer; cbn; rewrite ?Hw; try done; auto using inv_notify.
  - intros [= <-]. pose proof (inv_big _ _ Hinv) as Hb. rewrite Hw in Hb. destruct Hinv.
    split; cbn [set_writer set_list data_list writer clearer readers cleared file aready_read in_hand]; try done.
    + rewrite Hw in inv_lines0. by rewrite <- inv_lines0, <- !app_assoc.
    + rewrite Hw in inv_writer0. done.
    + intros _. by destruct (data_list s).
    + eapply Forall_impl; [exact inv_counting0 |]. intros r _ _ _. by destruct (data_list s).
  - intros [= <-]. apply inv_set_writer; cbn; rewrite ?Hw; try done; auto using inv_notify.
    intros H. apply (inv_big _ _ Hinv). by rewrite Hw.
  - intros [= <-]. apply inv_set_writer; by rewrite ?Hw.
  - intros [= <-]. apply inv_set_writer; cbn; rewrite ?Hw; try done; auto. by destruct Hinv.
  - done.
Qed.

Lemma inv_clear_step lines s s' : reader_count ≠ 0%Z → inv lines s → clear_step s = Ok s' → inv lines s'.
Proof.
  intros H0 Hinv. unfold clear_step. destruct (clearer s) eqn:Hc; try done.
  - intros ([] & Hf & [= <-])%bind_Ok. unfold await in Hf. destruct (unlocked s) eqn:E; [| done].
    apply unlocked_spec in E as (Hw & _ & Hn). destruct Hinv.
    split; cbn [set_clearer data_list writer clearer readers cleared file aready_read main_returned clear_end_flag]; try done.
    + by rewrite Hw.
    + intros [? | [? | ?]]; [by apply inv_count0; left | done | done].
  - intros [= <-]. destruct (Z.eqb_spec (aready_read s) reader_count) as [E |]; [| by apply inv_set_clearer].
    assert (c_holds (clearer s) = true) by by rewrite Hc. destruct Hinv.
    split; cbn [set_clearer data_list writer clearer readers cleared file aready_read main_returned clear_end_flag]; try done.
    + intros Hw. by destruct (inv_writer0 Hw) as [? _]; congruence.
    + intros _. by apply inv_clearer0.
    + intros _. apply inv_count0. left. congruence.
  - intros [= <-]. assert (c_holds (clearer s) = true) by by rewrite Hc. destruct Hinv.
    split; cbn [set_clearer set_count data_list writer clearer readers cleared file aready_read main_returned clear_end_flag]; try done.
    + intros Hw. by destruct (inv_writer0 Hw) as [? _]; congruence.
    + intros _. by apply inv_clearer0.
    + intros _. apply inv_count0. auto.
  - destruct (data_list s) as [| l ls] eqn:E; [done |]. intros [= <-].
    assert (Hh : c_holds (clearer s) = true) by by rewrite Hc. destruct Hinv.
    specialize (inv_clearer0 Hh). specialize (inv_pop0 Hc).
    split; cbn [set_clearer set_list data_list writer clearer readers cleared file aready_read main_returned clear_end_flag]; try done.
    + rewrite E in inv_lines0. by rewrite <- inv_lines0, <- !app_assoc.
    + intros Hw. by destruct (inv_writer0 Hw) as [? _]; congruence.
    + by intros [? | [? | ?]].
    + eapply Forall_impl; [exact inv_clearer0 |]. cbn. intros r -> _. done.
    + eapply Forall_impl; [exact inv_copy0 |]. intros r. apply copied_le. rewrite length_app. lia.
  - intros [= <-]. apply inv_set_clearer; [by case_match | done].
  - intros [= <-]. apply inv_set_clearer; [by case_match | done].
  - intros [= <-]. apply inv_set_clearer; [done |]. by apply inv_notify.
  - intros [= <-]. by apply inv_set_clearer.
  - intros [= <-]. apply inv_set_clearer; [done |]. by destruct Hinv.
  - intros [= <-]. by apply inv_set_clearer.
Qed.

Lemma inv_main_step lines s s' : inv lines s → main_step s = Ok s' → inv lines s'.
Proof.
  intros Hinv. unfold main_step. intros ([] & Hf & ([] & _ & Hs)%bind_Ok)%bind_Ok. injection Hs as <-. destruct Hinv.
  split; cbn [set_returned data_list writer clearer readers cleared file aready_read main_returned clear_end_flag]; try done.
  intros _. unfold await in Hf. by destruct (clear_end_flag s).
Qed.

Lemma inv_reachable lines (s : mstate (main lines)) :
  reader_count ≠ 0%Z → reachable s → inv lines s.
Proof.
  intros H0. revert s. apply (invariant_ind (main lines)).
  - intros s ->. split; cbn [init data_list writer clearer readers cleared file aready_read main_returned clear_end_flag]; unfold nobody; cbn; try done.
    + by intros [? | [? | ?]].
    + by apply Forall_replicate.
    + apply Forall_replicate. exists []. by repeat constructor.
  - intros l s s' _ IH Hs. cbn [main mstep] in Hs. unfold step in Hs.
    apply bind_Ok in Hs as ([] & _ & Hs). unfold run_step in Hs. destruct l as [| i | | | i |].
    + apply bind_Ok in Hs as ([] & _ & Hs). by eapply inv_write_step.
    + apply bind_Ok in Hs as ([] & _ & Hs). by eapply inv_read_step.
    + apply bind_Ok in Hs as ([] & _ & Hs). by eapply inv_clear_step.
    + by eapply inv_main_step.
    + destruct (readers s !! i) as [[[] out] |] eqn:Hi; try done. injection Hs as <-.
      destruct (inv_reader lines s i _ IH Hi) as (_ & _ & _ & Hcopy).
      by eapply inv_move.
    + destruct (clearer s); try done. injection Hs as <-. by apply inv_set_clearer.
Qed.

(** C21. With at least one reader, the lines removed, the lines in the pool, the
    line in the writer's hand and the rest of the file are the file at any time, under
    every schedule and with spurious wake-ups; and every reader's copy is a
    sequence of lines of the file in the order of the file (with gaps and
    repetitions). *)
Theorem wr_copies lines (s : mstate (main lines)) :
  reader_count ≠ 0%Z → reachable s →
  cleared s ++ data_list s ++ in_hand (writer s) ++ file s = lines ∧
  ∀ i r, readers s !! i = Some r → copied lines (length (cleared s)) (out_file r ++ got (at_ r)).
Proof.
  intros H0 Hr. pose proof (inv_reachable lines s H0 Hr) as Hinv. split; [apply Hinv |].
  intros i r Hi. by apply (inv_reader lines s i r Hinv Hi).
Qed.

(** All the threads that [main] detached have ended. *)
Definition all_ended (s : state) : bool :=
  match writer s, clearer s with WDone, CDone => true | _, _ => false end &&
  forallb (λ r, match at_ r with RDone => true | _ => false end) (readers s).

Lemma run_quiet l s : main_returned s = false → run_step l s =
  match l with
  | LWriter => write_step s
  | LReader i => read_step i s
  | LClear => clear_step s
  | LMain => main_step s
  | LSpurious i =>
      match readers s !! i with
      | Some (Reader RAsleep out) => Ok (set_readers (<[i := Reader RWoken out]> (readers s)) s)
      | _ => Blocked
      end
  | LSpuriousClear => match clearer s with CAsleep => Ok (set_clearer CLock s) | _ => Blocked end
  end.
Proof. unfold run_step, alive. intros ->. by destruct l. Qed.

Lemma ended_reader s i pc out :
  all_ended s = true → readers s !! i = Some (Reader pc out) → pc = RDone.
Proof.
  intros [_ H]%andb_true_iff Hi. rewrite forallb_forall in H.
  specialize (H _ (proj1 (list_elem_of_In _ _) (list_elem_of_lookup_2 _ _ _ Hi))). by destruct pc.
Qed.

Lemma ended_defined l s : all_ended s = true → run_step l s ≠ UB.
Proof.
  intros H. pose proof (ended_reader s) as Hr. pose proof H as [Hwc Hrs]%andb_true_iff.
  destruct (writer s) eqn:Hw; try done. destruct (clearer s) eqn:Hc; try done.
  assert (Hd : destructible s = true).
  { unfold destructible, unlocked, no_exclusive. rewrite Hw, Hc. cbn. apply andb_true_iff.
    rewrite !forallb_forall in *. split; intros r Hin; specialize (Hrs r Hin); unfold r_holds, asleep;
      by destruct (at_ r). }
  destruct l as [| i | | | i |]; unfold run_step, alive, uses, main_step; rewrite ?Hw, ?Hc, ?Hd; cbn.
  - rewrite andb_false_r. cbn. unfold write_step. by rewrite Hw.
  - destruct (readers s !! i) as [[pc out] |] eqn:Hi.
    + rewrite (Hr i pc out H Hi). cbn. rewrite andb_false_r. cbn. unfold read_step.
      by rewrite Hi, (Hr i pc out H Hi).
    + rewrite andb_false_r. cbn. unfold read_step. by rewrite Hi.
  - rewrite andb_false_r. cbn. unfold clear_step. by rewrite Hc.
  - by destruct (clear_end_flag s && negb (main_returned s)).
  - by destruct (readers s !! i) as [[[] out] |].
  - done.
Qed.

Lemma race_spec lines s : inv lines s → race s = true →
  (w_unlocked (writer s) = true ∧ w_access (writer s) ≠ None) ∨
  (clearer s = CStop ∧ ∃ l, writer s = WPush l true).
Proof.
  intros Hinv Hr. unfold race in Hr.
  destruct (w_unlocked (writer s) && bool_decide (w_access (writer s) ≠ None)) eqn:Hu.
  { apply andb_true_iff in Hu as [Hu Ha%bool_decide_eq_true]. by left. }
  right. destruct Hinv as [_ Hw Hcl _ _ _ _ _]. unfold nobody in *.
  destruct (w_holds (writer s)) eqn:Hwh.
  - destruct (Hw eq_refl) as [Hc Hn]. apply orb_true_iff in Hr as [Hr | Hr].
    + destruct (writer s) as [| | | | | l [] | | | |], (clearer s); try done. split; [done | by eexists].
    + apply existsb_exists in Hr as (r & Hin%list_elem_of_In & Hr).
      rewrite Forall_forall in Hn. specialize (Hn r Hin). unfold r_holds, r_access in *.
      destruct (at_ r); try done; destruct (writer s) as [| | | | | ? [] | [] | [] | |], (clearer s); done.
  - assert (Hwa : w_access (writer s) = None).
    { destruct (writer s) as [| | | | | ? [] | [] | [] | |]; cbn in *; try done. }
    rewrite Hwa in Hr. cbn in Hr. apply existsb_exists in Hr as (r & Hin%list_elem_of_In & Hr).
    destruct (c_holds (clearer s)) eqn:Hc; [| by unfold r_access in Hr; destruct (clearer s), (at_ r)].
    specialize (Hcl eq_refl). rewrite Forall_forall in Hcl. specialize (Hcl r Hin).
    unfold r_holds, r_access in *. by destruct (at_ r), (clearer s).
Qed.

(** C22. The accesses to the list, to its lock, to the condition variables and
    to the [once_flag], with at least one reader. All that can go wrong: a
    reader that was notified finds the list empty; the writer goes on without
    the lock, which takes a file of more than seventy lines; the clearer, at
    its end, looks at the list without the lock while the writer adds to it; or
    [main], which waits for the clearer's flag only, returns and destroys them
    while a detached thread has not ended. Nothing else can: in particular
    [pop_front] never finds the list empty, and until the flag is set the
    lock keeps every other pair of accesses apart. *)
Theorem wr_no_ub lines (s : mstate (main lines)) :
  reader_count ≠ 0%Z → reachable s → goes_wrong s →
  (∃ i out, readers s !! i = Some (Reader RFront out) ∧ data_list s = []) ∨
  (w_unlocked (writer s) = true ∧ warn_threshhold < length lines) ∨
  (clearer s = CStop ∧ ∃ l, writer s = WPush l true) ∨
  (clear_end_flag s = true ∧ all_ended s = false).
Proof.
  intros H0 Hr [l Hl]. pose proof (inv_reachable lines s H0 Hr) as Hinv.
  cbn [main mstep] in Hl. unfold step in Hl.
  destruct (race s) eqn:Hrace; cbn [negb require mbind outcome_bind] in Hl.
  { apply (race_spec lines s Hinv) in Hrace as [[Hu _] | Hrace]; [| by auto].
    right. left. split; [done | by apply (inv_big _ _ Hinv)]. }
  destruct (all_ended s) eqn:Hend.
  { destruct (ended_defined l s Hend Hl). }
  destruct (clear_end_flag s) eqn:Hflag; [by auto |].
  assert (Hmain : main_returned s = false).
  { pose proof (inv_returned _ _ Hinv) as Hret. destruct (main_returned s); [| done].
    by rewrite (Hret eq_refl) in Hflag. }
  left. change (run_step l s = UB) in Hl. rewrite run_quiet in Hl by done.
  destruct l as [| i | | | i |].
  - unfold write_step, await in Hl. repeat case_match; done.
  - unfold read_step in Hl. destruct (readers s !! i) as [[pc out] |] eqn:Hi; [| done].
    destruct pc; try done; try (unfold await in Hl; by destruct (no_exclusive s)).
    destruct (data_list s) eqn:E; [| done]. by exists i, out.
  - unfold clear_step in Hl. destruct (clearer s) eqn:Hc; try done;
      [by unfold await in Hl; destruct (unlocked s) |].
    destruct (data_list s) eqn:E; [| done]. exfalso. by apply (inv_count _ _ Hinv); auto.
  - unfold main_step in Hl. by rewrite Hflag in Hl.
  - by destruct (readers s !! i) as [[[] out] |].
  - by destruct (clearer s).
Qed.

(** * The lost notification *)
Lemma no_race s :
  c_access (clearer s) = None →
  w_access (writer s) = None ∨ Forall (λ r, r_access r = None) (readers s) → race s = false.
Proof.
  intros Hc Hw. unfold race. rewrite Hc. apply orb_false_iff. split.
  - by destruct (w_access (writer s)) as [[] |].
  - apply not_true_iff_false. intros (r & Hin%list_elem_of_In & Hr)%existsb_exists.
    destruct Hw as [Hw | Hw]; [by rewrite Hw in Hr |].
    rewrite Forall_forall in Hw. rewrite (Hw r Hin) in Hr. cbn in Hr.
    by destruct (w_access (writer s)) as [[] |].
Qed.

Lemma step_rtc lines l s s1 s2 :
  race s = false → step l s = Ok s1 → rtc (mrel (main lines)) s1 s2 → rtc (mrel (main lines)) s s2.
Proof. intros Hr Hs. apply rtc_l. by exists l. Qed.

Lemma step_quiet l s : race s = false → step l s = run_step l s.
Proof. unfold step. by intros ->. Qed.

(** The writer runs to its end before a reader waits. *)
Lemma writer_alone lines n d ls :
  let rs := replicate n (Reader RTest []) in
  rtc (mrel (main lines)) (State d false false 0 ls WNext CLock rs [] false)
    (State (d ++ ls) true false 0 [] WDone CLock rs [] false).
Proof.
  intros rs.
  assert (Hrs : Forall (λ r, r_access r = None) rs) by by apply Forall_replicate.
  assert (Hwake : wake <$> rs = rs) by (unfold rs; by rewrite fmap_replicate).
  assert (Hfree : ∀ w, w_holds w = false → ∀ d ls, unlocked (State d false false 0 ls w CLock rs [] false) = true).
  { intros w Hw ??. apply unlocked_spec. split_and!; [done | done |]. by apply Forall_replicate. }
  assert (Hrun : ∀ s s1 s2, race s = false → main_returned s = false → write_step s = Ok s1 → rtc (mrel (main lines)) s1 s2 →
    rtc (mrel (main lines)) s s2).
  { intros s s1 s2 Hr Hm Hs. apply (step_rtc lines LWriter); [done |]. by rewrite step_quiet, run_quiet. }
  assert (Hq : ∀ d e ls w, race (State d e false 0 ls w CLock rs [] false) = false).
  { intros. apply no_race; [done | by right]. }
  assert (Hnote : ∀ d ls w w', Ok (set_writer w (notify_has_data (State d false false 0 ls w' CLock rs [] false))) =
    Ok (State d false false 0 ls w CLock rs [] false)).
  { intros. unfold set_writer, notify_has_data, set_readers.
    cbn [data_list write_end_flag clear_end_flag aready_read file writer clearer readers cleared]. by rewrite Hwake. }
  revert d. induction ls as [| l ls IH]; intros d.
  - eapply Hrun; [apply Hq | done | reflexivity |]. eapply Hrun; [apply Hq | done | reflexivity |].
    rewrite app_nil_r. apply rtc_refl.
  - apply (Hrun _ (State d false false 0 ls (WLock l) CLock rs [] false)); [apply Hq | done | done |].
    apply (Hrun _ (State d false false 0 ls (WSize l) CLock rs [] false)); [apply Hq | done | |].
    { cbn [write_step writer]. by rewrite Hfree. }
    apply (Hrun _ (State d false false 0 ls (check_size (length d) l) CLock rs [] false)); [apply Hq | done | done |].
    rewrite check_size_spec.
    assert (Hpush : ∀ b, rtc (mrel (main lines)) (State d false false 0 ls (WPush l b) CLock rs [] false)
      (State (d ++ l :: ls) true false 0 [] WDone CLock rs [] false)).
    { intros b. apply (Hrun _ (State (d ++ [l]) false false 0 ls (WNotify b) CLock rs [] false)); [apply Hq | done | done |].
      apply (Hrun _ (State (d ++ [l]) false false 0 ls (WPrint b) CLock rs [] false)); [apply Hq | done | by apply Hnote |].
      apply (Hrun _ (State (d ++ [l]) false false 0 ls WNext CLock rs [] false)); [apply Hq | done | done |].
      replace (d ++ l :: ls) with ((d ++ [l]) ++ ls) by by rewrite <- app_assoc. apply IH. }
    destruct (length d <? warn_threshhold); [apply Hpush |].
    apply (Hrun _ (State d false false 0 ls (WPush l false) CLock rs [] false)); [apply Hq | done | by apply Hnote |].
    apply Hpush.
Qed.

(** Then the readers go to sleep, one after the other. *)
Lemma readers_sleep lines d m k :
  rtc (mrel (main lines))
    (State d true false 0 [] WDone CLock (replicate k (Reader RAsleep []) ++ replicate m (Reader RTest [])) [] false)
    (State d true false 0 [] WDone CLock (replicate (k + m) (Reader RAsleep [])) [] false).
Proof.
  revert k. induction m as [| m IH]; intros k.
  - rewrite Nat.add_0_r. cbn [replicate]. rewrite app_nil_r. apply rtc_refl.
  - assert (Hins : ∀ x y, <[k := y]> (replicate k (Reader RAsleep []) ++ x :: replicate m (Reader RTest [])) =
      replicate k (Reader RAsleep []) ++ y :: replicate m (Reader RTest [])).
    { intros x y. rewrite insert_app_r_alt by by rewrite length_replicate.
      by rewrite length_replicate, Nat.sub_diag. }
    assert (Hat : ∀ x, (replicate k (Reader RAsleep []) ++ x :: replicate m (Reader RTest [])) !! k = Some x).
    { intros x. rewrite lookup_app_r by by rewrite length_replicate.
      by rewrite length_replicate, Nat.sub_diag. }
    assert (Hgo : ∀ pc pc' s2, pc = RTest ∧ pc' = RLock ∨ pc = RLock ∧ pc' = RWait ∨ pc = RWait ∧ pc' = RAsleep →
      let st pc := State d true false 0 [] WDone CLock
        (replicate k (Reader RAsleep []) ++ Reader pc [] :: replicate m (Reader RTest [])) [] false in
      rtc (mrel (main lines)) (st pc') s2 → rtc (mrel (main lines)) (st pc) s2).
    { intros pc pc' s2 Hpc st. apply (step_rtc lines (LReader k)); [by apply no_race; [| left] |].
      rewrite step_quiet, run_quiet by by first [apply no_race; [| left] | done]. unfold st, read_step. cbn [readers].
      rewrite Hat. unfold set_readers. cbn [data_list write_end_flag clear_end_flag aready_read file writer clearer readers cleared].
      by destruct Hpc as [[-> ->] | [[-> ->] | [-> ->]]]; cbn; rewrite Hins. }
    cbn [replicate].
    eapply Hgo; [by left |]. eapply Hgo; [by right; left |]. eapply Hgo; [by right; right |].
    rewrite Nat.add_succ_r. specialize (IH (S k)). cbn [replicate app Nat.add] in IH |- *.
    assert (E : replicate k (Reader RAsleep []) ++ Reader RAsleep [] :: replicate m (Reader RTest []) =
      Reader RAsleep [] :: replicate k (Reader RAsleep []) ++ replicate m (Reader RTest [])).
    { by rewrite cons_middle, app_assoc, <- replicate_cons_app. }
    by rewrite E.
Qed.

(** Nothing holds a notification that nobody waits for: for every file and
    every number of readers there is a schedule without spurious wake-ups
    after which the readers sleep, the clearer sleeps and the writer has ended,
    with the whole file in the pool and every copy empty; no thread moves again,
    [clear_end_flag] stays false and [main] never returns. *)
Theorem wr_hangs lines :
  (0 < reader_count)%Z →
  ∃ s : mstate (main lines), reachable s ∧ quiescent (main lines) real s ∧ clear_end_flag s = false ∧
    data_list s = lines ∧ length (readers s) = Z.to_nat reader_count ∧
    Forall (λ r, out_file r = []) (readers s).
Proof.
  intros H0. set (n := Z.to_nat reader_count).
  exists (State lines true false 0 [] WDone CAsleep (replicate n (Reader RAsleep [])) [] false).
  split_and!; try done.
  - exists (init lines). split; [done |].
    etrans; [apply (writer_alone lines n [] lines) |].
    etrans; [apply (readers_sleep lines lines n 0) |]. cbn [Nat.add app].
    assert (Hq : ∀ c, c_access c = None → race (State lines true false 0 [] WDone c (replicate n (Reader RAsleep [])) [] false) = false)
      by (intros; by apply no_race; [| left]).
    apply (step_rtc lines LClear _ (State lines true false 0 [] WDone CTest (replicate n (Reader RAsleep [])) [] false));
      [by apply Hq | |].
    { rewrite step_quiet, run_quiet by by first [apply Hq | done]. cbn [clear_step clearer].
      rewrite (proj2 (unlocked_spec _)); [done |]. split_and!; [done.. |]. by apply Forall_replicate. }
    eapply (step_rtc lines LClear); [by apply Hq | | apply rtc_refl].
    rewrite step_quiet, run_quiet by by first [apply Hq | done]. cbn [clear_step clearer aready_read].
    destruct (Z.eqb_spec 0 reader_count); [lia | done].
  - intros l Hl s' Hs. cbn [main mstep] in Hs.
    rewrite step_quiet, run_quiet in Hs by by first [apply no_race; [| left] | done].
    destruct l as [| i | | | i |]; try done. unfold read_step in Hs. cbn [readers] in Hs.
    destruct (replicate n (Reader RAsleep []) !! i) as [r |] eqn:E; [| done].
    by apply lookup_replicate in E as [-> _].
  - apply length_replicate.
  - by apply Forall_replicate.
Qed.
End pool.
End OneWriter.

(** * Witnesses: two readers, two lines *)
Module OneWriterWitnesses.
Import OneWriter.

Definition w_main : machine := main 2 [1; 2].
Definition w_sleep (i : nat) : list label := replicate 3 (LReader i).
Definition w_read (i : nat) : list label := replicate 4 (LReader i).
Definition w_write : list label := replicate 6 LWriter.

(** Both readers read the first line; the second line is pushed and wakes
    both; the first reader reads it twice, and the clearer removes it before
    the second reader takes the lock. *)
Definition w_twice : list label :=
  w_sleep 0 ++ w_sleep 1 ++ w_write ++ w_read 1 ++ w_read 0 ++ w_sleep 0 ++ w_sleep 1 ++
  w_write ++ [LWriter; LWriter] ++ replicate 6 LClear ++
  w_read 0 ++ w_sleep 0 ++ [LClear] ++ w_read 0.
Definition w_empty : list label := w_twice ++ replicate 5 LClear ++ [LReader 1].

Definition w_copied : state :=
  State [2] true false 2 [] WDone CLock [Reader RTest [1; 2; 2]; Reader RWoken [1]] [1] false.
Definition w_missed : state :=
  State [] true false 0 [] WDone CStop [Reader RTest [1; 2; 2]; Reader RFront [1]] [1; 2] false.

Lemma w_copied_reachable : @reachable w_main w_copied.
Proof. run_schedule w_main w_twice. Qed.
Lemma w_missed_reachable : @reachable w_main w_missed.
Proof. run_schedule w_main w_empty. Qed.

Lemma wr_copies_witness : copied [1; 2] 1 [1; 2; 2].
Proof.
  destruct (wr_copies 2 [1; 2] w_copied ltac:(done) w_copied_reachable) as [_ H].
  exact (H 0 _ eq_refl).
Defined.

Lemma wr_no_ub_witness :
  (∃ i out, readers w_missed !! i = Some (Reader RFront out) ∧ data_list w_missed = []) ∨
  (w_unlocked (writer w_missed) = true ∧ warn_threshhold < 2) ∨
  (clearer w_missed = CStop ∧ ∃ l, writer w_missed = WPush l true) ∨
  (clear_end_flag w_missed = true ∧ all_ended w_missed = false).
Proof.
  apply (wr_no_ub 2 [1; 2] w_missed ltac:(done) w_missed_reachable).
  exists (LReader 1). reflexivity.
Defined.

(** One reader, one line, everybody in turn: [main] returns while [call_once]
    has not written the [once_flag]; while the reader waits again; or after
    all of them. *)
Definition w_one : list label :=
  w_sleep 0 ++ w_write ++ [LWriter; LWriter] ++ w_read 0 ++ replicate 6 LClear.
Example main_returns_early :
  exec (main 1 [7]) (w_one ++ [LClear; LReader 0; LMain; LClear]) (init 1 [7]) = UB.
Proof. vm_compute. reflexivity. Qed.
Example main_returns_asleep :
  exec (main 1 [7]) (w_one ++ w_sleep 0 ++ [LClear; LClear; LMain]) (init 1 [7]) = UB.
Proof. vm_compute. reflexivity. Qed.
Example main_returns_last :
  (s ← exec (main 1 [7]) (w_one ++ [LClear; LClear; LReader 0; LMain]) (init 1 [7]);
   Ok (all_ended s, main_returned s, out_file <$> readers s)) = Ok (true, true, [[7]]).
Proof. vm_compute. reflexivity. Qed.

Lemma wr_hangs_witness :
  ∃ s : mstate w_main, reachable s ∧ quiescent w_main real s ∧ clear_end_flag s = false ∧
    data_list s = [1; 2] ∧ length (readers s) = 2 ∧ Forall (λ r, out_file r = []) (readers s).
Proof. apply (wr_hangs 2 [1; 2]). lia. Defined.

(** Without readers the clearer pops from the empty list. *)
Example no_readers_pops : exec (main 0 [1; 2]) (replicate 4 LClear) (init 0 [1; 2]) = UB.
Proof. vm_compute. reflexivity. Qed.
(** A third read before the clearer looks at the counter stops the clearing. *)
Example three_reads_stop :
  (s ← exec w_main (w_sleep 0 ++ w_sleep 1 ++ w_write ++ w_read 0 ++ w_sleep 0 ++ w_write ++
     w_read 0 ++ w_read 1 ++ replicate 2 LClear) (init 2 [1; 2]); Ok (aready_read s, clearer s)) =
  Ok (3%Z, CAsleep).
Proof. vm_compute. reflexivity. Qed.
End OneWriterWitnesses.
