(* ===== verification/Tasks.v ===== *)
(** [concurrent/consume.cpp]: one thread waits for a packaged task in a queue and
    runs it; the main thread queues [factorial(6)], notifies, joins and prints the
    future's value. [factorial] is recursive on a 32-bit [int]. *)

From S2P Require Import Prelude.

Local Open Scope Z_scope.

Module Consume.
(** * [factorial]

    Signed overflow is undefined; a call that recurses for longer than [fuel]
    counts as not returning. *)
Definition is_int (z : Z) : bool := (- 2 ^ 31 <=? z) && (z <? 2 ^ 31).
Fixpoint factorial (fuel : nat) (x : Z) : outcome Z :=
  match fuel with
  | O => Blocked
  | S fuel =>
      if x =? 1 then Ok x
      else
        require (is_int (x - 1)) ;; r ← factorial fuel (x - 1);
        require (is_int (x * r)) ;; Ok (x * r)
  end.

(** The reference. *)
Fixpoint fact (n : nat) : Z :=
  match n with O => 1 | S m => Z.of_nat (S m) * fact m end.

Lemma fact_succ n : fact (S n) = (Z.of_nat n + 1) * fact n.
Proof. cbn [fact]. lia. Qed.
Lemma fact_pos n : 1 <= fact n.
Proof. induction n as [| n IH]; [done |]. rewrite fact_succ. nia. Qed.
Lemma fact_le n m : (n <= m)%nat → fact n <= fact m.
Proof.
  induction 1 as [| m _ IH]; [done |]. rewrite fact_succ. pose proof (fact_pos m). nia.
Qed.
Lemma fact_fits n : is_int (fact (S n)) = (S n <=? 12)%nat.
Proof.
  unfold is_int. pose proof (fact_pos (S n)).
  destruct (Z.leb_spec (- 2 ^ 31) (fact (S n))); [| lia]. cbn [andb].
  destruct (Nat.leb_spec (S n) 12) as [H1 | H1].
  - pose proof (fact_le _ _ H1) as Hle. change (fact 12) with 479001600 in Hle. apply Z.ltb_lt. lia.
  - pose proof (fact_le 13 (S n) ltac:(lia)) as Hle. change (fact 13) with 6227020800 in Hle. apply Z.ltb_ge. lia.
Qed.

Lemma factorial_pos fuel n :
  (n < fuel)%nat → Z.of_nat (S n) < 2 ^ 31 →
  factorial fuel (Z.of_nat (S n)) = if (S n <=? 12)%nat then Ok (fact (S n)) else UB.
Proof.
  revert fuel. induction n as [| n IH]; intros [| fuel] Hf Hn; try lia; [done |].
  cbn [factorial]. destruct (Z.eqb_spec (Z.of_nat (S (S n))) 1); [lia |].
  replace (Z.of_nat (S (S n)) - 1) with (Z.of_nat (S n)) by lia. rewrite IH by lia.
  assert (is_int (Z.of_nat (S n)) = true) as ->.
  { unfold is_int. apply andb_true_iff. split; [apply Z.leb_le | apply Z.ltb_lt]; lia. }
  cbn [require mbind outcome_bind].
  destruct (Nat.leb_spec (S n) 12), (Nat.leb_spec (S (S n)) 12); cbn [mbind outcome_bind]; try lia; try done;
    replace (Z.of_nat (S (S n)) * fact (S n)) with (fact (S (S n))) by (rewrite (fact_succ (S n)); lia);
    rewrite fact_fits.
  - by rewrite (proj2 (Nat.leb_le _ _)) by lia.
  - by rewrite (proj2 (Nat.leb_gt _ _)) by lia.
Qed.

Lemma factorial_neg fuel x :
  - 2 ^ 31 <= x <= 0 → (Z.to_nat (x + 2 ^ 31) < fuel)%nat → factorial fuel x = UB.
Proof.
  revert x. induction fuel as [| fuel IH]; intros x Hx Hf; [lia |]. cbn [factorial].
  destruct (Z.eqb_spec x 1); [lia |]. change (is_int (x - 1)) with ((- 2 ^ 31 <=? x - 1) && (x - 1 <? 2 ^ 31)).
  destruct (Z.leb_spec (- 2 ^ 31) (x - 1)); [| done].
  destruct (Z.ltb_spec (x - 1) (2 ^ 31)); [| lia]. cbn [andb require mbind outcome_bind].
  by rewrite IH by lia.
Qed.

(** How deep the recursion from [x] can be. *)
Definition recursions (x : Z) : nat := Z.to_nat (if 1 <=? x then x else x + 2 ^ 31).

(** [factorial] on a 32-bit [int], with fuel for every recursion: the factorial
    exactly for the arguments 1 to 12; undefined above, where the product overflows,
    and below, where the recursion passes the least [int]. *)
Lemma factorial_range (fuel : nat) (x : Z) :
  - 2 ^ 31 <= x < 2 ^ 31 → (recursions x < fuel)%nat →
  factorial fuel x = if (1 <=? x) && (x <=? 12) then Ok (fact (Z.to_nat x)) else UB.
Proof.
  intros Hx Hf. unfold recursions in Hf. destruct (Z.leb_spec 1 x).
  - destruct (Z.to_nat x) as [| n] eqn:En; [lia |]. assert (x = Z.of_nat (S n)) as -> by lia.
    rewrite factorial_pos by lia. cbn [andb].
    destruct (Nat.leb_spec (S n) 12), (Z.leb_spec (Z.of_nat (S n)) 12); done || lia.
  - apply factorial_neg; lia.
Qed.

(** * The two threads *)

(** [thread_1]: at the lock (again after a notification), at the predicate with
    the lock, asleep, at [front]/[pop_front] with the lock, at the task, ended. *)
Inductive wpc := TLock | TTest | TAsleep | TTake | TRun (x : Z) | TDone.
(** [main]: at the lock, at [push_back] with the lock, at the notification, at
    [join], at [get], ended with what it printed. *)
Inductive mpc := MLock | MPush | MNotify | MJoin | MGet | MDone (printed : Z).

Record state := State {
  task_q : list Z;                       (* the arguments of the bound tasks *)
  result : option Z;                     (* the future's shared state *)
  worker : wpc;
  mainpc : mpc
}.
Definition init : state := State [] None TLock MLock.

Definition w_holds (w : wpc) : bool := match w with TTest | TTake => true | _ => false end.
Definition m_holds (m : mpc) : bool := match m with MPush => true | _ => false end.

Section threads.
Context (fuel : nat) (argument : Z).

Definition thread_1 (s : state) : outcome state :=
  match worker s with
  | TLock => await (negb (m_holds (mainpc s))) ;; Ok (State (task_q s) (result s) TTest (mainpc s))
  | TTest =>
      Ok (State (task_q s) (result s) (match task_q s with [] => TAsleep | _ => TTake end) (mainpc s))
  | TAsleep => Blocked
  | TTake =>
      match task_q s with
      | [] => UB
      | x :: q => Ok (State q (result s) (TRun x) (mainpc s))
      end
  | TRun x => r ← factorial fuel x; Ok (State (task_q s) (Some r) TDone (mainpc s))
  | TDone => Blocked
  end.

Definition main_step (s : state) : outcome state :=
  match mainpc s with
  | MLock => await (negb (w_holds (worker s))) ;; Ok (State (task_q s) (result s) (worker s) MPush)
  | MPush => Ok (State (task_q s ++ [argument]) (result s) (worker s) MNotify)
  | MNotify =>
      Ok (State (task_q s) (result s) (match worker s with TAsleep => TLock | w => w end) MJoin)
  | MJoin =>
      match worker s with
      | TDone => Ok (State (task_q s) (result s) (worker s) MGet)
      | _ => Blocked
      end
  | MGet =>
      match result s with
      | Some r => Ok (State (task_q s) (result s) (worker s) (MDone r))
      | None => Blocked
      end
  | MDone _ => Blocked
  end.

Inductive label := LThread | LMain | LSpurious.
Definition step (l : label) (s : state) : outcome state :=
  match l with
  | LThread => thread_1 s
  | LMain => main_step s
  | LSpurious =>
      match worker s with
      | TAsleep => Ok (State (task_q s) (result s) TLock (mainpc s))
      | _ => Blocked
      end
  end.
Definition consume : machine := Machine state label (λ s, s = init) step.
Definition real (l : label) : Prop := match l with LSpurious => False | _ => True end.

(** Where the task is: not queued yet, in the queue, with the worker, or done. *)
Definition before_push (m : mpc) : bool := match m with MLock | MPush => true | _ => false end.
Definition inv (s : state) : Prop :=
  match worker s with
  | TLock | TTest | TAsleep => result s = None ∧ task_q s = if before_push (mainpc s) then [] else [argument]
  | TTake => result s = None ∧ task_q s = [argument] ∧ before_push (mainpc s) = false
  | TRun x => x = argument ∧ result s = None ∧ task_q s = [] ∧ before_push (mainpc s) = false
  | TDone =>
      (∃ r, factorial fuel argument = Ok r ∧ result s = Some r) ∧
      task_q s = [] ∧ before_push (mainpc s) = false
  end ∧
  (w_holds (worker s) = true → m_holds (mainpc s) = false) ∧
  (worker s = TAsleep → before_push (mainpc s) = true ∨ mainpc s = MNotify) ∧
  match mainpc s with
  | MGet => worker s = TDone
  | MDone r => worker s = TDone ∧ factorial fuel argument = Ok r
  | _ => True
  end.

Lemma inv_step l s s' : inv s → step l s = Ok s' → inv s'.
Proof.
  intros (Hw & Hh & Ha & Hm) Hs. destruct s as [q res w m], l; cbn [step] in Hs;
    unfold thread_1, main_step, inv in *; cbn [worker mainpc task_q result] in *;
    destruct w, m; cbn in Hw, Hh, Ha, Hm, Hs; destruct_and?; subst; step_inv; cbn; naive_solver.
Qed.

Lemma consume_inv_reachable (s : mstate consume) : reachable s → inv s.
Proof.
  revert s. apply (invariant_ind consume); [intros s ->; unfold inv; cbn; naive_solver |].
  intros l s s' _ IH Hs. by eapply inv_step.
Qed.

Definition weight (s : state) : nat :=
  match worker s with TLock => 4 | TTest => 3 | TAsleep => 2 | TTake => 2 | TRun _ => 1 | TDone => 0 end +
  5 * match mainpc s with MLock => 5 | MPush => 4 | MNotify => 3 | MJoin => 2 | MGet => 1 | MDone _ => 0 end.

Lemma consume_decreases l s1 s2 : real l → step l s1 = Ok s2 → (weight s2 < weight s1)%nat.
Proof.
  intros Hl Hs. destruct s1 as [q res w m], l; [| | done]; cbn [step] in Hs;
    unfold thread_1, main_step in Hs; cbn [worker mainpc task_q result] in Hs.
  - destruct w, q; cbn in Hs; step_inv; simplify_eq; unfold weight; cbn [worker mainpc]; lia.
  - destruct m, w; cbn in Hs; step_inv; simplify_eq; unfold weight; cbn [worker mainpc]; lia.
Qed.

(** The only step that can be undefined is the call of the task. *)
Lemma consume_wrong s l : inv s → step l s = UB → factorial fuel argument = UB.
Proof.
  intros (Hw & _) Hl. destruct s as [q res w m]. cbn [worker mainpc task_q result] in *.
  destruct l; cbn [step] in Hl; unfold thread_1, main_step in Hl; cbn [worker mainpc task_q result] in Hl.
  - destruct w as [| | | | x |]; try done; [by unfold await in Hl; case_match | by destruct Hw as (_ & -> & _) |].
    destruct Hw as (-> & _). by apply bind_UB in Hl as [? | (? & _ & ?)].
  - destruct m; try done; try by unfold await in Hl; case_match. all: by case_match.
  - by destruct w.
Qed.

(** Where the program stops, the worker stands at a call that does not return
    or [main] has ended. *)
Lemma consume_stops s :
  inv s → (∀ l, real l → ∀ s', step l s ≠ Ok s') →
  (worker s = TRun argument ∧ ∀ r, factorial fuel argument ≠ Ok r) ∨
  ∃ r, worker s = TDone ∧ mainpc s = MDone r ∧ factorial fuel argument = Ok r.
Proof.
  intros Hinv Hq. pose proof (Hq LThread I) as Ht. pose proof (Hq LMain I) as Hmain.
  destruct s as [q res w m]; destruct Hinv as (Hw & Hh & Ha & Hm).
  cbn [step] in Ht, Hmain. unfold thread_1, main_step in Ht, Hmain. cbn [worker mainpc task_q result] in *.
  destruct w as [| | | | x |]; cbn in *.
  - destruct m; cbn in *; try (by destruct (Ht _ eq_refl)); by destruct (Hmain _ eq_refl).
  - by destruct (Ht _ eq_refl).
  - destruct (Ha eq_refl) as [Hb | ->]; [| by destruct (Hmain _ eq_refl)]. destruct m; try done; by destruct (Hmain _ eq_refl).
  - destruct Hw as (_ & -> & _). by destruct (Ht _ eq_refl).
  - destruct Hw as (-> & _). left. split; [done |]. intros r Hr. rewrite Hr in Ht. by destruct (Ht _ eq_refl).
  - destruct Hw as ((r & Hr & ->) & -> & Hb). right. destruct m as [| | | | | r']; try done; try (by destruct (Hmain _ eq_refl)).
    destruct Hm as [_ Hr']. by exists r'.
Qed.

(** C36. For every [int] the task is bound to (6 in the source), with fuel for
    every recursion of [factorial]: under every schedule the program comes to a
    stop after finitely many steps, spurious wake-ups apart, so the notification
    is never lost. When the argument is between 1 and 12 nothing is undefined, and
    where it stops the worker has ended and [main] has printed the factorial of the
    argument. For any other argument it never prints: it stops in the call of
    [factorial], which is undefined. *)
Theorem consume_prints (s : mstate consume) :
  - 2 ^ 31 <= argument < 2 ^ 31 → (recursions argument < fuel)%nat →
  reachable s →
  sn (msteps consume real) s ∧
  if (1 <=? argument) && (argument <=? 12) then
    ¬ goes_wrong s ∧
    (quiescent consume real s → worker s = TDone ∧ mainpc s = MDone (fact (Z.to_nat argument)))
  else quiescent consume real s → worker s = TRun argument ∧ step LThread s = UB.
Proof.
  intros Ha Hf Hreach. pose proof (factorial_range fuel argument Ha Hf) as Hr.
  pose proof (consume_inv_reachable s Hreach) as Hinv.
  split; [apply (sn_measure consume real weight); [intros l s1 s2 _; apply consume_decreases | done] |].
  destruct (_ && _).
  - split; [intros [l Hl]; apply (consume_wrong s l Hinv) in Hl; congruence |].
    intros Hq. destruct (consume_stops s Hinv Hq) as [[_ Hn] | (r & Hw & Hm & Hr')].
    + by destruct (Hn _ Hr).
    + rewrite Hw, Hm. split; congruence.
  - intros Hq. destruct (consume_stops s Hinv Hq) as [[Hw _] | (r & _ & _ & Hr')]; [| congruence].
    split; [done |]. cbn [step]. unfold thread_1. by rewrite Hw, Hr.
Qed.
End threads.

(** [main] of the file. *)
Definition w_run : list label :=
  [LThread; LThread; LMain; LMain; LMain; LThread; LThread; LThread; LThread; LMain; LMain].
Definition w_end : state := State [] (Some 720) TDone (MDone 720).

Lemma consume_prints_witness :
  ¬ goes_wrong (M := consume 10 6) w_end ∧ worker w_end = TDone ∧ mainpc w_end = MDone (fact 6).
Proof.
  assert (Hr : @reachable (consume 10 6) w_end) by (run_schedule (consume 10 6) w_run).
  destruct (consume_prints 10 6 w_end ltac:(lia) ltac:(vm_compute; lia) Hr) as [_ [Hw Hq]].
  split; [exact Hw |]. apply Hq. intros [] Hl s' Hs; done.
Defined.
End Consume.
