(* ===== verification/Futures.v ===== *)
(** Promises and futures of the standard library in [concurrent/]:
    [set_value.cpp], [shared_future.cpp], [wait_fororuntil.cpp], [promise.cpp]
    and [atomic_bool.cpp]. The clock is free: a wait with a limit returns at
    any time, a sleep takes any time. *)

From S2P Require Import Prelude.

(** * The state shared by a promise and its future

    [set_value_at_thread_exit] stores the value; it becomes ready when the
    thread that called it ends, be it the main thread. *)
Record shared (A : Type) := Shared { stored : option A; ready : option A }.
Arguments Shared {A} stored ready.
Arguments stored {A} s.
Arguments ready {A} s.
Definition no_value {A} : shared A := Shared None None.
Definition set_value {A} (v : A) (s : shared A) : shared A := Shared (stored s) (Some v).
Definition set_value_at_thread_exit {A} (v : A) (s : shared A) : shared A := Shared (Some v) (ready s).
Definition at_thread_exit {A} (s : shared A) : shared A :=
  Shared None (match stored s with Some v => Some v | None => ready s end).
(** [get] waits; [wait_for] and [wait_until] say whether the value is ready. *)
Definition get {A} (s : shared A) : outcome A := match ready s with Some v => Ok v | None => Blocked end.
Definition is_ready {A} (s : shared A) : bool := match ready s with Some _ => true | None => false end.

(** * [set_value.cpp] *)
Module SetValue.
(** The main thread: at [func], at [tmp.get()], at [f.get()], ended. The other
    thread: asleep, at its end, ended. *)
Inductive mpc := MFunc | MTmp | MGet | MDone.
Inductive tpc := TSleep | TExit | TDone.
Record state := State { f : shared Z; tmp : shared Z; mainpc : mpc; thread : tpc; out : list Z }.
Definition init : state := State no_value no_value MFunc TSleep [].

(** [func] is called by the main thread: its value waits for that thread's end. *)
Definition main_step (s : state) : outcome state :=
  match mainpc s with
  | MFunc => Ok (State (f s) (set_value_at_thread_exit 11%Z (tmp s)) MTmp (thread s) (out s))
  | MTmp => v ← get (tmp s); Ok (State (f s) (tmp s) MGet (thread s) (out s ++ [v]))
  | MGet => v ← get (f s); Ok (State (f s) (at_thread_exit (tmp s)) MDone (thread s) (out s ++ [v]))
  | MDone => Blocked
  end.
Definition thread_step (s : state) : outcome state :=
  match thread s with
  | TSleep => Ok (State (set_value_at_thread_exit 9%Z (f s)) (tmp s) (mainpc s) TExit (out s))
  | TExit => Ok (State (at_thread_exit (f s)) (tmp s) (mainpc s) TDone (out s))
  | TDone => Blocked
  end.
Inductive label := LMain | LThread.
Definition step (l : label) (s : state) : outcome state :=
  match l with LMain => main_step s | LThread => thread_step s end.
Definition program : machine := Machine state label (λ s, s = init) step.

Lemma waits (s : mstate program) :
  reachable s → ready (tmp s) = None ∧ (mainpc s = MFunc ∨ mainpc s = MTmp) ∧ out s = [].
Proof.
  revert s. apply (invariant_ind program); [by intros s ->; naive_solver |].
  intros l [f0 t0 m0 th0 o0] s' _ (Hr & Hm & Ho) Hs. cbn [tmp mainpc out] in *. subst o0.
  destruct l; cbn [program mstep step] in Hs; unfold main_step, thread_step in Hs; cbn [mainpc thread] in Hs.
  - destruct Hm as [-> | ->]; [by simplify_eq; naive_solver |]. unfold get in Hs. cbn [tmp] in Hs. by rewrite Hr in Hs.
  - destruct th0; simplify_eq; naive_solver.
Qed.

(** The program hangs: the main thread waits for a value that is set at its own
    end; whatever the schedule, it comes to rest there and prints nothing. *)
Theorem set_value_hangs (s : mstate program) :
  reachable s → sn (msteps program (λ _, True)) s ∧
  (quiescent program (λ _, True) s → mainpc s = MTmp ∧ thread s = TDone ∧ out s = []).
Proof.
  intros Hr. split.
  - apply (sn_measure program _ (λ s,
      match mainpc s with MFunc => 3 | MTmp => 2 | MGet => 1 | MDone => 0 end +
      match thread s with TSleep => 2 | TExit => 1 | TDone => 0 end)); [| done].
    clear. intros l [f0 t0 m0 th0 o0] s2 _ _ Hs.
    destruct l; cbn [program mstep step] in Hs; unfold main_step, thread_step in Hs; cbn [mainpc thread] in Hs.
    + destruct m0; unfold get in Hs; step_inv; simplify_eq/=; lia.
    + destruct th0; step_inv; simplify_eq/=; lia.
  - intros Hq. destruct (waits s Hr) as (_ & Hm & Ho).
    pose proof (Hq LMain I) as Hmain. pose proof (Hq LThread I) as Hth.
    destruct s as [f0 t0 m0 th0 o0]. cbn in *. unfold main_step, thread_step in *. cbn in *.
    split_and!; [| | done].
    + destruct Hm as [-> | ->]; [by destruct (Hmain _ eq_refl) | done].
    + destruct th0; [by destruct (Hth _ eq_refl) .. | done].
Qed.

Lemma set_value_hangs_witness :
  sn (msteps program (λ _, True)) init.
Proof. apply set_value_hangs. by apply (reachable_init program). Defined.
End SetValue.

(** * [shared_future.cpp] *)
Module SharedFuture.
(** A future that was shared is not valid any more; [get] on it is undefined. *)
Record future := Future { valid : bool; state_of : shared Z }.
Definition share (f : future) : future * shared Z := (Future false (state_of f), state_of f).
Definition future_get (f : future) : outcome Z := require (valid f) ;; get (state_of f).

Inductive mpc := MValid | MShare | MGet | MDone.
Record state := State { res : future; mainpc : mpc; exited : bool; out : list Z }.
Definition init : state := State (Future true no_value) MValid false [].
Definition main_step (s : state) : outcome state :=
  match mainpc s with
  | MValid => Ok (State (res s) MShare (exited s) (out s ++ [if valid (res s) then 1 else 0])%Z)
  | MShare => Ok (State (share (res s)).1 MGet (exited s) (out s))
  | MGet => v ← future_get (res s); Ok (State (res s) MDone (exited s) (out s ++ [v]))
  | MDone => Blocked
  end.
Definition thread_step (s : state) : outcome state :=
  if exited s then Blocked
  else Ok (State (Future (valid (res s)) (at_thread_exit (set_value_at_thread_exit 12%Z (state_of (res s)))))
             (mainpc s) true (out s)).
Inductive label := LMain | LThread.
Definition step (l : label) (s : state) : outcome state :=
  match l with LMain => main_step s | LThread => thread_step s end.
Definition program : machine := Machine state label (λ s, s = init) step.

(** Whatever the schedule, the program goes wrong at [res.get()]: it never
    gets past it, and is undefined whenever it is there. *)
Theorem shared_future_invalid (s : mstate program) :
  reachable s → mainpc s ≠ MDone ∧ (mainpc s = MGet → mstep program LMain s = UB).
Proof.
  intros Hr.
  assert (H : mainpc s ≠ MDone ∧ (mainpc s = MGet → valid (res s) = false)).
  { revert s Hr. apply (invariant_ind program); [by intros s -> |].
    intros l [r m e o] s' _ [Hm Hv] Hs. cbn [mainpc res] in *.
    destruct l; cbn [program mstep step] in Hs; unfold main_step, thread_step in Hs; cbn [mainpc exited] in Hs.
    - destruct m; [by simplify_eq; naive_solver | by simplify_eq | | done].
      unfold future_get in Hs. cbn [res] in Hs. by rewrite Hv in Hs.
    - destruct e; simplify_eq. naive_solver. }
  split; [apply H |]. intros Hm. cbn [program mstep step]. unfold main_step, future_get. by rewrite Hm, (proj2 H Hm).
Qed.
Lemma shared_future_invalid_witness : mainpc init ≠ MDone.
Proof. apply shared_future_invalid. by apply (reachable_init program). Defined.
End SharedFuture.

(** * [wait_fororuntil.cpp] *)
Module WaitFor.
(** What the main thread prints of the waits. *)
Inductive word := Timeout | Ready | UnReady | Value (v : Z) | Text (s : string) | Valid.

(** The main thread: at [wait_until], at [wait_for], at the [wait_until] of the
    task, at the task itself, at [valid], in the loop, ended. *)
Inductive mpc := MUntil | MFor | MTaskUntil | MTask | MValid | MLoop | MDone.
Record state := State {
  future_2s : shared Z; sh_fu : shared string; sh_res : shared Z; exited : bool; mainpc : mpc; out : list word
}.
Definition init : state := State (set_value_at_thread_exit 1%Z no_value) no_value no_value false MUntil [].

(** The task runs in the main thread: its promise is kept at that thread's end. *)
Definition main_step (s : state) : outcome state :=
  let go f r pc w := Ok (State (future_2s s) f r (exited s) pc (out s ++ w)) in
  match mainpc s with
  | MUntil => go (sh_fu s) (sh_res s) MFor [if is_ready (future_2s s) then Ready else Timeout]
  | MFor =>
      if is_ready (future_2s s) then
        v ← get (future_2s s); go (sh_fu s) (sh_res s) MTaskUntil [Ready; Value v]
      else go (sh_fu s) (sh_res s) MTaskUntil [UnReady]
  | MTaskUntil =>
      if is_ready (sh_res s) then go (sh_fu s) (sh_res s) MValid [Ready]
      else go (sh_fu s) (sh_res s) MTask [Timeout]
  | MTask => go (set_value_at_thread_exit "完成"%string (sh_fu s)) (set_value 12%Z (sh_res s)) MValid []
  | MValid => go (sh_fu s) (sh_res s) MLoop [Valid]
  | MLoop =>
      if is_ready (sh_fu s) then
        r ← get (sh_res s); v ← get (sh_fu s); go (sh_fu s) (sh_res s) MDone [Ready; Value r; Text v]
      else go (sh_fu s) (sh_res s) MLoop [UnReady]
  | MDone => Blocked
  end.
Definition thread_step (s : state) : outcome state :=
  if exited s then Blocked
  else Ok (State (at_thread_exit (future_2s s)) (sh_fu s) (sh_res s) true (mainpc s) (out s)).
Inductive label := LMain | LThread.
Definition step (l : label) (s : state) : outcome state :=
  match l with LMain => main_step s | LThread => thread_step s end.
Definition program : machine := Machine state label (λ s, s = init) step.

(** The last loop never ends: the value it waits for is set at the end of the
    thread that runs the loop. The main thread can always take another step. *)
Theorem wait_loop_forever (s : mstate program) :
  reachable s → mainpc s ≠ MDone ∧ ∃ s', mstep program LMain s = Ok s'.
Proof.
  intros Hr.
  assert (H : ready (sh_fu s) = None ∧ mainpc s ≠ MDone).
  { revert s Hr. apply (invariant_ind program); [by intros s -> |].
    intros l [f2 sf sr e m o] s' _ [Hn Hm] Hs. cbn [sh_fu mainpc] in *.
    destruct l; cbn [program mstep step] in Hs; unfold main_step, thread_step in Hs;
      cbn [mainpc exited future_2s sh_fu sh_res out] in Hs.
    - destruct m; unfold is_ready in Hs; rewrite ?Hn in Hs; step_inv; simplify_eq; cbn; done.
    - destruct e; simplify_eq. done. }
  destruct H as [Hn Hm]. split; [done |]. destruct s as [f2 sf sr e m o]. cbn in *.
  unfold main_step. cbn [mainpc future_2s sh_fu sh_res exited out]. unfold is_ready, get.
  destruct m, (ready f2), (ready sr); rewrite ?Hn; try done; by eexists.
Qed.
Lemma wait_loop_forever_witness : mainpc init ≠ MDone.
Proof. apply wait_loop_forever. by apply (reachable_init program). Defined.
End WaitFor.

(** * [promise.cpp] *)
Module PromiseFlag.
Section program.
(** [12.8f], as the program prints it. *)
Context {float : Type} (f12_8 : float).
Inductive value := Int (v : Z) | Float (v : float).

(** The main thread: at [res.get()], at [end_flag], at [tmp.get()], ended.
    [Myfunction]: asleep, ended. [print_process]: at [set_value_at_thread_exit],
    at the star, at the test of [end_flag], at its end, ended. *)
Inductive mpc := MGet | MFlag (v : Z) | MTmp | MDone.
Inductive fpc := FSleep | FDone.
Inductive ppc := PStore | PStar | PTest | PExit | PDone.
Record state := State {
  res : shared Z; tmp : shared float; end_flag : bool;
  mainpc : mpc; myfunction : fpc; printer : ppc; out : list value
}.
Definition init : state := State no_value no_value false MGet FSleep PStore [].

Definition main_step (s : state) : outcome state :=
  let go e pc o := Ok (State (res s) (tmp s) e pc (myfunction s) (printer s) (out s ++ o)) in
  match mainpc s with
  | MGet => v ← get (res s); go (end_flag s) (MFlag v) []
  | MFlag v => go true MTmp [Int v]
  | MTmp => v ← get (tmp s); go (end_flag s) MDone [Float v]
  | MDone => Blocked
  end.
Definition function_step (s : state) : outcome state :=
  match myfunction s with
  | FSleep => Ok (State (set_value 1100%Z (res s)) (tmp s) (end_flag s) (mainpc s) FDone (printer s) (out s))
  | FDone => Blocked
  end.
Definition print_step (s : state) : outcome state :=
  let go t pc := Ok (State (res s) t (end_flag s) (mainpc s) (myfunction s) pc (out s)) in
  match printer s with
  | PStore => go (set_value_at_thread_exit f12_8 (tmp s)) PStar
  | PStar => go (tmp s) PTest
  | PTest => go (tmp s) (if end_flag s then PExit else PStar)
  | PExit => go (at_thread_exit (tmp s)) PDone
  | PDone => Blocked
  end.
Inductive label := LMain | LFunction | LPrint.
Definition step (l : label) (s : state) : outcome state :=
  match l with LMain => main_step s | LFunction => function_step s | LPrint => print_step s end.
Definition program : machine := Machine state label (λ s, s = init) step.

(** The state that [print_process] shares, by where it is. *)
Definition kept (p : ppc) : shared float :=
  match p with
  | PStore => no_value
  | PDone => Shared None (Some f12_8)
  | _ => Shared (Some f12_8) None
  end.
Definition inv (s : state) : Prop :=
  ready (res s) = match myfunction s with FSleep => None | FDone => Some 1100%Z end ∧
  tmp s = kept (printer s) ∧
  match mainpc s with
  | MGet => end_flag s = false ∧ out s = []
  | MFlag v => end_flag s = false ∧ myfunction s = FDone ∧ v = 1100%Z ∧ out s = []
  | MTmp => end_flag s = true ∧ out s = [Int 1100]
  | MDone => end_flag s = true ∧ out s = [Int 1100; Float f12_8]
  end.
Lemma promise_inv_reachable (s : mstate program) : reachable s → inv s.
Proof.
  revert s. apply (invariant_ind program); [by intros s -> |].
  intros l [r t e m f p o] s' _ (Hr & Ht & Hm) Hs. cbn in Hr, Ht, Hm. subst t.
  destruct l; cbn [program mstep step] in Hs; unfold main_step, function_step, print_step in Hs; cbn in Hs.
  - destruct m; [| | |done]; unfold get in Hs; cbn in Hs; unfold inv.
    + destruct f; rewrite Hr in Hs; [done |]. injection Hs as <-. cbn. naive_solver.
    + destruct Hm as (-> & -> & -> & ->). injection Hs as <-. by cbn.
    + destruct Hm as (-> & ->). destruct p; cbn in Hs; simplify_eq; by cbn.
  - destruct f; simplify_eq. unfold inv. cbn. destruct m; naive_solver.
  - destruct p, e; simplify_eq; unfold inv; cbn; destruct m; naive_solver.
Qed.

Lemma tmp_ends r f p o :
  ∃ ls s', exec program ls (State r (kept p) true MTmp f p o) = Ok s' ∧ mainpc s' = MDone.
Proof.
  destruct p.
  - by exists [LPrint; LPrint; LPrint; LPrint; LMain]; eexists.
  - by exists [LPrint; LPrint; LPrint; LMain]; eexists.
  - by exists [LPrint; LPrint; LMain]; eexists.
  - by exists [LPrint; LMain]; eexists.
  - by exists [LMain]; eexists.
Qed.

(** From wherever the program is, it can still end, and when it ends it has
    printed 1100 and then 12.8, which it prints in no other order: only
    [print_process] may go on for as long as it is scheduled alone. *)
Theorem promise_ends (s : mstate program) :
  reachable s →
  (∃ ls s', exec program ls s = Ok s' ∧ mainpc s' = MDone) ∧
  (mainpc s = MDone → out s = [Int 1100; Float f12_8]).
Proof.
  intros Hr. pose proof (promise_inv_reachable s Hr) as Hinv. destruct s as [r t e m f p o].
  destruct Hinv as (Hres & Ht & Hm). cbn in Hres, Ht, Hm. subst t. split; [| by destruct m; naive_solver].
  assert (Hflag : ∀ r f v e, ∃ ls s', exec program ls (State r (kept p) e (MFlag v) f p o) = Ok s' ∧
    mainpc s' = MDone).
  { intros r0 f0 v e0. destruct (tmp_ends r0 f0 p (o ++ [Int v])) as (ls & s' & H & Hd). by exists (LMain :: ls), s'. }
  destruct m as [| v | |].
  - assert (E : o = o ++ []) by by rewrite app_nil_r. destruct f.
    + destruct (Hflag (set_value 1100%Z r) FDone 1100%Z e) as (ls & s' & H & Hd).
      exists (LFunction :: LMain :: ls), s'. split; [| done]. cbn. by rewrite <- E.
    + destruct (Hflag r FDone 1100%Z e) as (ls & s' & H & Hd).
      exists (LMain :: ls), s'. split; [| done]. cbn. unfold main_step, get. cbn. rewrite Hres. cbn. by rewrite <- E.
  - apply Hflag.
  - destruct Hm as [-> _]. apply tmp_ends.
  - by exists [], (State r (kept p) e MDone f p o).
Qed.
End program.
End PromiseFlag.

(** * [atomic_bool.cpp] *)
Module AtomicBool.
(** The main thread: at the creation of a thread, at [end_flag] set, at
    [res.get()], at [end_flag] reset, at the second creation, at the second
    [get], ended. The function of both threads: not started, at
    [set_value_at_thread_exit], at the loop's tests, at its end, ended. *)
Inductive mpc := MSpawn1 | MFlag | MGet1 | MReset | MSpawn2 | MGet2 | MDone.
Inductive fpc := FNone | FStore | FLoop | FExit | FDone.
Record task := Task { at_ : fpc; promise : shared Z }.
Record state := State { end_flag : bool; first : task; second : task; mainpc : mpc; out : list Z }.
Definition init : state := State false (Task FNone no_value) (Task FNone no_value) MSpawn1 [].

(** One step of [func(promise, limit, res)]; [in_time] is the loop's test of
    the clock. *)
Definition func_step (res : Z) (end_flag in_time : bool) (t : task) : outcome task :=
  match at_ t with
  | FNone | FDone => Blocked
  | FStore => Ok (Task FLoop (set_value_at_thread_exit res (promise t)))
  | FLoop => Ok (Task (if in_time && negb end_flag then FLoop else FExit) (promise t))
  | FExit => Ok (Task FDone (at_thread_exit (promise t)))
  end.
Definition spawn (t : task) : task := Task FStore (promise t).

Definition main_step (s : state) : outcome state :=
  match mainpc s with
  | MSpawn1 => Ok (State (end_flag s) (spawn (first s)) (second s) MFlag (out s))
  | MFlag => Ok (State true (first s) (second s) MGet1 (out s))
  | MGet1 => v ← get (promise (first s)); Ok (State (end_flag s) (first s) (second s) MReset (out s ++ [v]))
  | MReset => Ok (State false (first s) (second s) MSpawn2 (out s))
  | MSpawn2 => Ok (State (end_flag s) (first s) (spawn (second s)) MGet2 (out s))
  | MGet2 => v ← get (promise (second s)); Ok (State (end_flag s) (first s) (second s) MDone (out s ++ [v]))
  | MDone => Blocked
  end.
Inductive label := LMain | LFirst (in_time : bool) | LSecond (in_time : bool).
Definition step (l : label) (s : state) : outcome state :=
  match l with
  | LMain => main_step s
  | LFirst b => t ← func_step 1%Z (end_flag s) b (first s); Ok (State (end_flag s) t (second s) (mainpc s) (out s))
  | LSecond b => t ← func_step 2%Z (end_flag s) b (second s); Ok (State (end_flag s) (first s) t (mainpc s) (out s))
  end.
Definition program : machine := Machine state label (λ s, s = init) step.

(** A task whose clock has run out, or that was told to end, needs at most
    three steps. *)
Definition task_ok (res : Z) (t : task) : Prop :=
  promise t = match at_ t with
              | FNone | FStore => no_value
              | FLoop | FExit => Shared (Some res) None
              | FDone => Shared None (Some res)
              end.
Lemma func_ok res e b t t' : task_ok res t → func_step res e b t = Ok t' → task_ok res t' ∧ at_ t' ≠ FNone ∧ at_ t' ≠ FStore.
Proof.
  destruct t as [pc p]. unfold task_ok, func_step. cbn. intros ->.
  destruct pc; intros [= <-]; cbn; try done. by destruct (b && negb e).
Qed.

Definition inv (s : state) : Prop :=
  task_ok 1 (first s) ∧ task_ok 2 (second s) ∧
  match mainpc s with
  | MSpawn1 => at_ (first s) = FNone ∧ at_ (second s) = FNone ∧ out s = []
  | MFlag | MGet1 => at_ (first s) ≠ FNone ∧ at_ (second s) = FNone ∧ out s = []
  | MReset | MSpawn2 => at_ (second s) = FNone ∧ out s = [1%Z]
  | MGet2 => at_ (second s) ≠ FNone ∧ out s = [1%Z]
  | MDone => out s = [1%Z; 2%Z]
  end.
Lemma get_ok res t v : task_ok res t → get (promise t) = Ok v → v = res.
Proof. unfold task_ok, get. intros ->. destruct (at_ t); cbn; congruence. Qed.

Lemma bool_inv_reachable (s : mstate program) : reachable s → inv s.
Proof.
  revert s. apply (invariant_ind program); [by intros s -> |].
  intros l s s' _ (H1 & H2 & Hm) Hs. destruct l as [| b | b]; cbn [program mstep step] in Hs.
  - unfold main_step in Hs. destruct (mainpc s); try done.
    + injection Hs as <-. destruct Hm as (E & E2 & Ho). unfold inv, task_ok, spawn in *. cbn.
      rewrite E in H1. by rewrite H1.
    + injection Hs as <-. by split_and!.
    + apply bind_Ok in Hs as (v & Hv%(get_ok 1) & [= <-]); [| done]. destruct Hm as (_ & E & ->). subst v. by split_and!.
    + injection Hs as <-. by split_and!.
    + injection Hs as <-. destruct Hm as (E & Ho). unfold inv, task_ok, spawn in *. cbn. rewrite E in H2. by rewrite H2.
    + apply bind_Ok in Hs as (v & Hv%(get_ok 2) & [= <-]); [| done]. destruct Hm as (_ & Ho). subst v.
      unfold inv. cbn. by rewrite Ho.
  - apply bind_Ok in Hs as (t & Ht & [= <-]).
    assert (at_ (first s) ≠ FNone) by (intros E; unfold func_step in Ht; by rewrite E in Ht).
    apply func_ok in Ht as (Ht & Hn & _); [| done]. split_and!; [done | done |]. cbn.
    destruct (mainpc s); naive_solver.
  - apply bind_Ok in Hs as (t & Ht & [= <-]).
    assert (at_ (second s) ≠ FNone) by (intros E; unfold func_step in Ht; by rewrite E in Ht).
    apply func_ok in Ht as (Ht & Hn & _); [| done]. split_and!; [done | done |]. cbn.
    destruct (mainpc s); naive_solver.
Qed.

Lemma second_ends e t1 t2 o :
  task_ok 2 t2 → at_ t2 ≠ FNone → ∃ ls s', exec program ls (State e t1 t2 MGet2 o) = Ok s' ∧ mainpc s' = MDone.
Proof.
  destruct t2 as [pc p]. unfold task_ok. cbn. intros -> Hn. destruct pc; [done | | | |].
  - by exists [LSecond false; LSecond false; LSecond false; LMain]; eexists.
  - by exists [LSecond false; LSecond false; LMain]; eexists.
  - by exists [LSecond false; LMain]; eexists.
  - by exists [LMain]; eexists.
Qed.
Lemma rest_ends e t1 t2 o :
  task_ok 2 t2 → at_ t2 = FNone → ∃ ls s', exec program ls (State e t1 t2 MReset o) = Ok s' ∧ mainpc s' = MDone.
Proof.
  intros Ht Hn. destruct (second_ends false t1 (spawn t2) o) as (ls & s' & H & Hd); [| done |].
  - unfold task_ok in *. cbn. by rewrite Hn in Ht.
  - by exists (LMain :: LMain :: ls), s'.
Qed.
Lemma first_ends e t1 t2 o :
  task_ok 1 t1 → at_ t1 ≠ FNone → task_ok 2 t2 → at_ t2 = FNone →
  ∃ ls s', exec program ls (State e t1 t2 MGet1 o) = Ok s' ∧ mainpc s' = MDone.
Proof.
  destruct t1 as [pc p]. unfold task_ok at 1. cbn. intros -> Hn H2 Hn2.
  destruct (rest_ends e (Task FDone (Shared None (Some 1%Z))) t2 (o ++ [1%Z]) H2 Hn2) as (ls & s' & H & Hd).
  destruct pc; [done | | | |].
  - by exists (LFirst false :: LFirst false :: LFirst false :: LMain :: ls), s'.
  - by exists (LFirst false :: LFirst false :: LMain :: ls), s'.
  - by exists (LFirst false :: LMain :: ls), s'.
  - by exists (LMain :: ls), s'.
Qed.

(** The flag of the first round never reaches the second, the program can end
    from wherever it is, and then it has printed 1 and 2. *)
Theorem atomic_bool_ends (s : mstate program) :
  reachable s → (∃ ls s', exec program ls s = Ok s' ∧ mainpc s' = MDone) ∧ (mainpc s = MDone → out s = [1; 2]%Z).
Proof.
  intros Hr. destruct (bool_inv_reachable s Hr) as (H1 & H2 & Hm).
  destruct s as [e t1 t2 pc o]. cbn in H1, H2, Hm. split; [| by destruct pc; intros E].
  destruct pc.
  - destruct Hm as (E1 & E2 & _). destruct (first_ends true (spawn t1) t2 o) as (ls & s' & H & Hd); try done.
    { unfold task_ok in *. cbn. by rewrite E1 in H1. }
    by exists (LMain :: LMain :: ls), s'.
  - destruct Hm as (E1 & E2 & _). destruct (first_ends true t1 t2 o) as (ls & s' & H & Hd); try done.
    by exists (LMain :: ls), s'.
  - destruct Hm as (E1 & E2 & _). by apply first_ends.
  - destruct Hm as (E2 & _). by apply rest_ends.
  - destruct Hm as (E2 & _). destruct (second_ends e t1 (spawn t2) o) as (ls & s' & H & Hd); [| done |].
    { unfold task_ok in *. cbn. by rewrite E2 in H2. }
    by exists (LMain :: ls), s'.
  - destruct Hm as (E2 & _). by apply second_ends.
  - by exists [], (State e t1 t2 MDone o).
Qed.
End AtomicBool.

Lemma promise_ends_witness :
  ∃ ls s', exec (PromiseFlag.program "12.8"%string) ls PromiseFlag.init = Ok s' ∧ PromiseFlag.mainpc s' = PromiseFlag.MDone.
Proof.
  apply (PromiseFlag.promise_ends "12.8"%string). by apply (reachable_init (PromiseFlag.program "12.8"%string)).
Defined.

Lemma atomic_bool_ends_witness :
  ∃ ls s', exec AtomicBool.program ls AtomicBool.init = Ok s' ∧ AtomicBool.mainpc s' = AtomicBool.MDone.
Proof. apply (AtomicBool.atomic_bool_ends AtomicBool.init). by apply (reachable_init AtomicBool.program). Defined.
