(* ===== verification/Sum.v ===== *)
(** Parallel sums: [manual_mt] of [concurrent/sum.cpp], with the number of
    batches computed in single precision, and [concurrent/parallel_sum.cpp]. *)

From S2P Require Import Prelude ThreadPool.

Local Open Scope Z_scope.

(** * Single precision: positive rationals rounded to 24 bits *)
Module Float32.
(** [a / b] to the nearest integer, ties to even. *)
Definition div_rne (a b : Z) : Z :=
  let q := a / b in
  let r := a mod b in
  if 2 * r <? b then q else if b <? 2 * r then q + 1 else if Z.even q then q else q + 1.

(** [p * 2^k / q]. *)
Definition scaled (p q k : Z) : Z * Z := if 0 <=? k then (p * 2 ^ k, q) else (p, q * 2 ^ (- k)).

(** The shift [k] that leaves 24 bits of [p / q] in front of the point, and the
    number [m * 2^(-k)] nearest to [p / q] with it. *)
Definition shift (p q : Z) : Z :=
  let k := 24 - (Z.log2 p - Z.log2 q) in
  let '(a, b) := scaled p q k in
  if 2 ^ 24 <=? a / b then k - 1 else k.
Definition round (p q : Z) : Z * Z :=
  let k := shift p q in
  let '(a, b) := scaled p q k in (div_rne a b, k).

(** [std::ceil] of [m * 2^(-k)]. *)
Definition ceil (x : Z * Z) : Z :=
  let '(m, k) := x in if 0 <=? k then - ((- m) / 2 ^ k) else m * 2 ^ (- k).

(** The conversion of an integer. *)
Definition of_int (n : Z) : Z :=
  if n <? 2 ^ 24 then n else let '(m, k) := round n 1 in ceil (m, k).

(** [(int) std::ceil(n / (float) b)]. *)
Definition ceil_div (n b : Z) : Z := ceil (round (of_int n) (of_int b)).

Lemma div_rne_close a b : 0 < b → - b <= 2 * (div_rne a b * b - a) <= b.
Proof.
  intros Hb. unfold div_rne. pose proof (Z.div_mod a b ltac:(lia)) as Hd.
  pose proof (Z.mod_pos_bound a b Hb) as Hr.
  destruct (Z.ltb_spec (2 * (a mod b)) b); [nia |].
  destruct (Z.ltb_spec b (2 * (a mod b))); [nia |]. destruct (Z.even (a / b)); nia.
Qed.

(** 24 bits: the integer part is at least [2^23]. *)
Lemma shift_big p q :
  0 < p < 2 ^ 24 → 0 < q <= p → 0 <= shift p q ∧ 2 ^ 23 * q <= p * 2 ^ shift p q.
Proof.
  intros [Hp Hp24] [Hq Hqp]. pose proof (Z.log2_spec p Hp) as [Hp1 _].
  pose proof (Z.log2_spec q Hq) as [_ Hq1]. pose proof (Z.log2_nonneg q) as Hq0.
  assert (Z.log2 p < 24) as Hlog by (apply Z.log2_lt_pow2; lia).
  pose proof (Z.log2_le_mono q p Hqp) as Hle.
  set (k := 24 - (Z.log2 p - Z.log2 q)). assert (0 < k) as Hk by lia.
  assert (2 ^ 23 * q <= p * 2 ^ k) as Hbig.
  { assert (q * 2 ^ 23 <= 2 ^ (Z.succ (Z.log2 q)) * 2 ^ 23) as H1 by nia.
    assert (2 ^ Z.log2 p * 2 ^ k = 2 ^ Z.succ (Z.log2 q) * 2 ^ 23) as H2.
    { rewrite <- !Z.pow_add_r by lia. f_equal. lia. }
    assert (0 < 2 ^ k) by (apply Z.pow_pos_nonneg; lia). nia. }
  unfold shift, scaled. fold k. rewrite (proj2 (Z.leb_le 0 k)) by lia.
  destruct (Z.leb_spec (2 ^ 24) (p * 2 ^ k / q)) as [H |]; [| lia]. split; [lia |].
  assert (2 ^ k = 2 * 2 ^ (k - 1)) as E by (rewrite <- Z.pow_succ_r by lia; f_equal; lia).
  pose proof (Z.mul_div_le (p * 2 ^ k) q Hq) as Hm.
  change (2 ^ 24) with (2 * 2 ^ 23) in H. rewrite E in *. nia.
Qed.

(** Up to [2^24] the ceiling of the rounded quotient is the exact one. *)
Lemma ceil_div_exact n b :
  0 < n < 2 ^ 24 → 0 < b <= n → ceil_div n b = - ((- n) / b).
Proof.
  intros Hn Hb. unfold ceil_div, of_int. rewrite !(proj2 (Z.ltb_lt _ _)) by lia.
  destruct (shift_big n b Hn Hb) as [Hk Hbig]. unfold round, scaled.
  set (k := shift n b) in *. rewrite (proj2 (Z.leb_le 0 k)) by lia.
  unfold ceil. rewrite (proj2 (Z.leb_le 0 k)) by lia.
  pose proof (div_rne_close (n * 2 ^ k) b ltac:(lia)) as Hc.
  set (m := div_rne (n * 2 ^ k) b) in *. f_equal.
  assert (0 < 2 ^ k) as Hpow by (apply Z.pow_pos_nonneg; lia).
  assert (b < 2 * 2 ^ k) as Hsmall by (change (2 ^ 24) with (2 * 2 ^ 23) in Hn; nia).
  set (q := (- n) / b). pose proof (Z.div_mod (- n) b ltac:(lia)) as Hd.
  pose proof (Z.mod_pos_bound (- n) b ltac:(lia)) as Hr. fold q in Hd.
  set (r := (- n) mod b) in *.
  symmetry. apply Z.div_unique_pos with (r := - m - 2 ^ k * q); [| lia].
  destruct (Z.eq_dec r 0) as [E | E].
  - assert (n * 2 ^ k = (- q * 2 ^ k) * b) as Hex by nia.
    assert (m = - q * 2 ^ k) as -> by (subst m; rewrite Hex; unfold div_rne;
      rewrite Z.div_mul, Z.mod_mul by lia; destruct (Z.ltb_spec (2 * 0) b); lia).
    nia.
  - assert (0 <= - m - 2 ^ k * q) by nia. assert (- m - 2 ^ k * q < 2 ^ k) by nia. lia.
Qed.
End Float32.

(** * [TMP] of [concurrent/sum.cpp] *)
Module TMP.
(** What a task is given: the first position of its batch and its length. *)
Abbreviation batch := (Z * Z)%type.

(** Its copy of the pool of [threadpool.cpp], for these tasks. *)
Definition fixed_thread_pool (thread_count : nat) : machine := pool_machine batch thread_count.

Section sum.
Context {DataType : Type} (zero : DataType) (add : DataType → DataType → DataType).

Definition accumulate (l : list DataType) : DataType := fold_left add l zero.

(** The sum of a batch, as it is written: the addition is commented out. *)
Definition partial_sum (l : list DataType) : DataType := zero.

(** The inner [do ... while (--epoch_count)]: what is submitted. Moving [start]
    past the end of the data is undefined. *)
Fixpoint epochs (epoch_count : nat) (size start offset batch_size : Z) : outcome (list batch) :=
  match epoch_count with
  | O => Ok []
  | S epoch_count =>
      require (start + offset <=? size) ;;
      rest ← epochs epoch_count size (start + offset) batch_size batch_size;
      Ok ((start, offset) :: rest)
  end.

(** [int] converted to [size_t]. *)
Definition to_size_t (n : Z) : Z := n mod 2 ^ 64.

(** The outer loop: the tasks leave [next_data] empty. *)
Fixpoint rounds (fuel : nat) (batch_size : Z) (local_date : list DataType) (submitted : list batch) :
    outcome (list DataType * list batch) :=
  let size := Z.of_nat (length local_date) in
  if to_size_t batch_size <=? size then
    match fuel with
    | O => Blocked
    | S fuel =>
        require (negb (to_size_t batch_size =? 0)) ;;
        let epoch_count := Float32.ceil_div size batch_size in
        let epoch_last := size mod batch_size in
        let offset := if epoch_last =? 0 then batch_size else epoch_last in
        tasks ← epochs (Z.to_nat epoch_count) size 0 offset batch_size;
        rounds fuel batch_size [] (submitted ++ tasks)
    end
  else Ok (local_date, submitted).

(** The threads asked for, after the test against the processor's. *)
Definition threads (thread_count maximum_thread : Z) : Z :=
  if maximum_thread <=? thread_count then maximum_thread - 1 else thread_count.

(** The result and the tasks submitted to a pool of [threads] workers; [None]
    when that number is negative: as a [size_t] it asks for more threads than
    there can be, and the constructor throws. *)
Definition manual_mt (maximum_thread : Z) (fuel : nat) (data : list DataType)
    (thread_count batch_size : Z) : outcome (option (DataType * list batch)) :=
  if threads thread_count maximum_thread <? 0 then Ok None
  else
    r ← rounds fuel batch_size data [];
    Ok (Some (accumulate r.1, r.2)).

(** [operator()] and [benchmark_entry] for the only action that is left. *)
Definition call (maximum_thread : Z) (fuel : nat) (data : list DataType) (thread_count : Z) :
    outcome (option DataType) :=
  r ← manual_mt maximum_thread fuel data thread_count 3000;
  Ok (option_map fst r).

(** The constructor: [length] values drawn from the distribution, in order; and
    [main], for the values that [distributor(generator)] gives and the number of
    threads the processor reports. *)
Definition construct (length : Z) (draw : nat → DataType) : list DataType := draw <$> seq 0 (Z.to_nat length).
Definition main (maximum_thread : Z) (fuel : nat) (draw : nat → DataType) : outcome (option DataType) :=
  call maximum_thread fuel (construct 1000000 draw) 12.

(** Batches that follow one another from [start] to [stop]. *)
Fixpoint consecutive (start stop : Z) (l : list batch) : Prop :=
  match l with
  | [] => start = stop
  | (s, o) :: l => s = start ∧ 0 < o ∧ consecutive (start + o) stop l
  end.

Lemma epochs_cover n size start offset batch_size :
  0 < offset → 0 < batch_size → start + offset + Z.of_nat n * batch_size = size →
  ∃ l, epochs (S n) size start offset batch_size = Ok l ∧ length l = S n ∧
    consecutive start size l ∧ Forall (λ x, x.2 = offset ∨ x.2 = batch_size) l.
Proof.
  revert start offset. induction n as [| n IH]; intros start offset Ho Hb Hs.
  - exists [(start, offset)]. cbn [epochs]. rewrite (proj2 (Z.leb_le _ _)) by lia.
    split_and!; [done | done | cbn [consecutive]; lia | repeat constructor; by left].
  - destruct (IH (start + offset) batch_size) as (l & Hl & Hn & Hc & Hf); [lia | lia | lia |].
    exists ((start, offset) :: l). change (epochs (S (S n)) size start offset batch_size) with
      (require (start + offset <=? size) ;;
       rest ← epochs (S n) size (start + offset) batch_size batch_size; Ok ((start, offset) :: rest)).
    rewrite (proj2 (Z.leb_le _ _)) by nia. cbn [require mbind outcome_bind]. rewrite Hl.
    cbn [mbind outcome_bind]. split_and!; [done | cbn [length]; lia | done | constructor; [by left |]].
    eapply Forall_impl; [exact Hf |]. intros x [|]; by right.
Qed.

Lemma rounds_short fuel batch_size l s :
  0 < batch_size < 2 ^ 64 → Z.of_nat (length l) < batch_size → rounds fuel batch_size l s = Ok (l, s).
Proof.
  intros Hb Hl. destruct fuel; cbn [rounds]; unfold to_size_t;
    rewrite Z.mod_small, (proj2 (Z.leb_gt _ _)) by lia; done.
Qed.

(** One round on enough data covers it, and is the last. *)
Lemma rounds_long fuel batch_size l :
  0 < batch_size <= Z.of_nat (length l) → Z.of_nat (length l) < 2 ^ 24 →
  ∃ tasks, rounds (S fuel) batch_size l [] = Ok ([], tasks) ∧
    consecutive 0 (Z.of_nat (length l)) tasks ∧ Forall (λ x, x.2 <= batch_size) tasks ∧
    Z.of_nat (length tasks) = - ((- Z.of_nat (length l)) / batch_size).
Proof.
  intros Hb Hl. set (size := Z.of_nat (length l)) in *.
  set (b := batch_size) in *. pose proof (Z.div_mod size b ltac:(lia)) as Hd.
  pose proof (Z.mod_pos_bound size b ltac:(lia)) as Hm.
  set (offset := if size mod b =? 0 then b else size mod b).
  set (n := (size - offset) / b).
  assert (0 < offset <= b ∧ 0 <= n ∧ offset + n * b = size ∧ - ((- size) / b) = n + 1)
    as (Ho & Hn & Hs & Hc).
  { subst offset n. destruct (Z.eqb_spec (size mod b) 0) as [E | E].
    - assert (size = size / b * b) as Hq by lia. assert (0 < size / b) by nia.
      assert ((size - b) / b = size / b - 1) as -> by (symmetry; apply (Z.div_unique _ _ _ 0); lia).
      assert ((- size) / b = - (size / b)) as -> by (symmetry; apply (Z.div_unique _ _ _ 0); lia).
      split_and!; nia.
    - assert ((size - size mod b) / b = size / b) as -> by (symmetry; apply (Z.div_unique _ _ _ 0); lia).
      assert (0 <= size / b) by (apply Z.div_pos; lia).
      assert ((- size) / b = - (size / b) - 1) as ->
        by (symmetry; apply (Z.div_unique _ _ _ (b - size mod b)); lia).
      split_and!; nia. }
  destruct (epochs_cover (Z.to_nat n) size 0 offset b) as (tasks & He & Hlen & Hcov & Hf);
    [lia | lia | rewrite Z2Nat.id by lia; lia |].
  exists tasks. split_and!; [| done | | lia].
  - cbn [rounds]. fold size. unfold to_size_t. assert (b < 2 ^ 64) by lia.
    rewrite Z.mod_small, (proj2 (Z.leb_le _ _)) by lia.
    rewrite (proj2 (Z.eqb_neq b 0)) by lia. cbn [negb require mbind outcome_bind].
    rewrite Float32.ceil_div_exact by lia. rewrite Hc. fold offset.
    replace (Z.to_nat (n + 1)) with (S (Z.to_nat n)) by lia. rewrite He. cbn [mbind outcome_bind app].
    apply rounds_short; cbn [length]; lia.
  - eapply Forall_impl; [exact Hf |]. intros x [-> | ->]; lia.
Qed.
End sum.
End TMP.

(** * [concurrent/parallel_sum.cpp] *)
Module PallelSum.
Section sum.
Context {Type_ : Type} (zero : Type_) (add : Type_ → Type_ → Type_) (do_generate : nat → Type_).

Record PallelSum := MkPallelSum { data : list Type_; capacity : Z; data_length : Z }.

(** [fill(first, last, ...)]: one value for every element there is. *)
Definition fill (l : list Type_) : list Type_ := imap (λ i _, do_generate i) l.

(** [reserve] gives the vector room and no elements. *)
Definition reserve (n : Z) (s : PallelSum) : PallelSum :=
  MkPallelSum (data s) (Z.max n (capacity s)) (data_length s).
Definition generte_data (s : PallelSum) : PallelSum :=
  let s := reserve (data_length s) s in MkPallelSum (fill (data s)) (capacity s) (data_length s).
Definition construct (data_length : Z) : PallelSum := generte_data (MkPallelSum [] 0 data_length).

(** [while (data.size() > batch_size) {}], then the sum. *)
Definition cal (batch_size : Z) (s : PallelSum) : outcome Type_ :=
  if batch_size <? Z.of_nat (length (data s)) then Blocked else Ok (fold_left add (data s) zero).
End sum.
End PallelSum.

(** * The properties *)

(** C34. [manual_mt] on fewer than 2^24 numbers: below the batch size it returns
    their sum; from the batch size on it submits consecutive batches, none
    longer than the batch size, that cover the data exactly (the number of
    batches, computed in single precision, is exact), and returns zero: the
    partial sums are never collected. *)
Theorem sum_batches {DataType} (zero : DataType) (add : DataType → DataType → DataType)
    (maximum_thread thread_count batch_size : Z) (data : list DataType) (fuel : nat) :
  0 <= TMP.threads thread_count maximum_thread → 0 < batch_size < 2 ^ 31 →
  Z.of_nat (length data) < 2 ^ 24 →
  ∃ tasks,
    TMP.manual_mt zero add maximum_thread (S fuel) data thread_count batch_size =
      Ok (Some (if Z.of_nat (length data) <? batch_size then fold_left add data zero else zero, tasks)) ∧
    (Z.of_nat (length data) < batch_size → tasks = []) ∧
    (batch_size <= Z.of_nat (length data) →
       TMP.consecutive 0 (Z.of_nat (length data)) tasks ∧
       Forall (λ x, x.2 <= batch_size) tasks ∧
       Z.of_nat (length tasks) = - ((- Z.of_nat (length data)) / batch_size)).
Proof.
  intros Ht Hb Hl. unfold TMP.manual_mt. rewrite (proj2 (Z.ltb_ge _ 0)) by done.
  destruct (Z.ltb_spec (Z.of_nat (length data)) batch_size) as [Hs | Hs].
  - exists []. rewrite TMP.rounds_short by lia. split_and!; [done | done | lia].
  - destruct (TMP.rounds_long fuel batch_size data ltac:(lia) Hl) as (tasks & Hr & H1 & H2 & H3).
    exists tasks. rewrite Hr. split_and!; [done | lia | done].
Qed.

(** Past 2^24 the single precision quotient loses the last batch: for
    24576001 numbers in batches of 3000 the loop makes 8192 batches, which
    cover 24573001 of them. *)
Theorem sum_batches_float :
  Float32.ceil_div 24576001 3000 = 8192 ∧ - ((- 24576001) / 3000) = 8193 ∧
  24576001 mod 3000 + 8191 * 3000 = 24573001.
Proof. by vm_compute. Qed.

(** [PallelSum] never sums anything: its data is empty whatever length is
    asked for, so [cal] returns at once with zero. *)
Theorem parallel_sum_empty {T} (zero : T) (add : T → T → T) (gen : nat → T) (data_length batch_size : Z) :
  0 <= batch_size →
  PallelSum.data (PallelSum.construct gen data_length) = [] ∧
  PallelSum.cal zero add batch_size (PallelSum.construct gen data_length) = Ok zero.
Proof.
  intros Hb. split; [done |]. unfold PallelSum.cal.
  by rewrite (proj2 (Z.ltb_ge _ _)) by (cbn; lia).
Qed.

Lemma sum_batches_witness :
  TMP.threads 12 8 = 7 ∧
  ∃ tasks, TMP.manual_mt 0 Z.add 8 1 [1; 2; 3; 4; 5; 6; 7] 12 3 = Ok (Some (0, tasks)) ∧
    TMP.consecutive 0 7 tasks.
Proof.
  split; [reflexivity |].
  destruct (sum_batches 0 Z.add 8 12 3 [1; 2; 3; 4; 5; 6; 7] 0 ltac:(done) ltac:(lia) ltac:(done))
    as (tasks & H1 & _ & H2).
  exists tasks. split; [exact H1 | apply H2; done].
Defined.

Lemma parallel_sum_empty_witness :
  PallelSum.cal 0 Z.add 200 (PallelSum.construct (λ i, Z.of_nat i) 10000) = Ok 0.
Proof. apply (parallel_sum_empty 0 Z.add (λ i, Z.of_nat i) 10000 200). lia. Defined.

(** The whole program: whatever the million numbers drawn, it prints zero; where
    the number of processors is not known (zero) the pool of minus one threads
    makes it end with an exception. *)
Theorem sum_program {DataType} (zero : DataType) (add : DataType → DataType → DataType)
    (maximum_thread : Z) (draw : nat → DataType) (fuel : nat) :
  0 <= maximum_thread →
  TMP.main zero add maximum_thread (S fuel) draw = Ok (if 1 <=? maximum_thread then Some zero else None).
Proof.
  intros Hm. unfold TMP.main, TMP.call, TMP.manual_mt.
  assert (Hlen : Z.of_nat (length (TMP.construct 1000000 draw)) = 1000000).
  { unfold TMP.construct. rewrite length_fmap, length_seq. by rewrite Z2Nat.id. }
  assert (E : (TMP.threads 12 maximum_thread <? 0) = negb (1 <=? maximum_thread)).
  { unfold TMP.threads. destruct (Z.leb_spec maximum_thread 12), (Z.leb_spec 1 maximum_thread);
      first [apply Z.ltb_lt; lia | apply Z.ltb_ge; lia]. }
  rewrite E. destruct (1 <=? maximum_thread); [| done]. cbn [negb].
  destruct (TMP.rounds_long fuel 3000 (TMP.construct 1000000 draw)) as (tasks & -> & _); [lia | lia | done].
Qed.
