(* ===== verification/Posix.v ===== *)
(** The operating system as the programs see it: descriptors, system calls and
    their results, C strings in buffers, programs as trees of system calls
    ([io]), their execution against a list of results ([run]), a weakest
    precondition for all the results the kernel may give ([wp]), and servers as
    machines whose steps are the iterations of their main loop. *)

From S2P Require Import Prelude.

Local Open Scope Z_scope.

(** * Bytes and C strings *)
Abbreviation byte := Ascii.ascii.
Abbreviation data := (list byte).
Definition NUL : byte := Ascii.zero.
Definition text (s : string) : data := String.list_ascii_of_string s.

Definition is_nul (c : byte) : bool := Ascii.eqb c NUL.
#[global] Arguments is_nul : simpl never.

Lemma is_nul_spec c : reflect (c = NUL) (is_nul c).
Proof. apply Ascii.eqb_spec. Qed.

(** [strlen]: [None] when the buffer holds no NUL (the call reads past it). *)
Fixpoint strlen (b : data) : option nat :=
  match b with
  | [] => None
  | c :: b => if is_nul c then Some 0%nat else S <$> strlen b
  end.

(** The bytes of the C string a buffer starts with. *)
Definition c_string (b : data) : option data := (λ n, take n b) <$> strlen b.

(** [read] stores what it got at the start of the buffer. *)
Definition store (b d : data) : data := d ++ drop (length d) b.

Definition zeros (n : nat) : data := replicate n NUL.

Lemma strlen_app_nul d b : NUL ∉ d → strlen (d ++ NUL :: b) = Some (length d).
Proof.
  induction d as [| c d IH]; simpl; [done |].
  rewrite not_elem_of_cons. intros [Hc Hd]. destruct (is_nul_spec c); [congruence |]. by rewrite IH.
Qed.

Lemma strlen_lt b n : strlen b = Some n → (n < length b)%nat.
Proof.
  revert n. induction b as [| c b IH]; intros n; simpl; [done |].
  destruct (is_nul c); [intros [= <-]; lia |]. destruct (strlen b) as [m |]; [| done].
  intros [= <-]. specialize (IH m eq_refl). lia.
Qed.

Lemma strlen_None b : strlen b = None ↔ NUL ∉ b.
Proof.
  induction b as [| c b IH]; simpl; [split; [intros _; apply not_elem_of_nil | done] |].
  rewrite not_elem_of_cons. destruct (is_nul_spec c); [split; [done | intuition congruence] |].
  rewrite fmap_None, IH. intuition congruence.
Qed.

Lemma c_string_app_nul d b : NUL ∉ d → c_string (d ++ NUL :: b) = Some d.
Proof.
  intros Hd. unfold c_string. rewrite strlen_app_nul by done. simpl.
  by rewrite take_app_length.
Qed.

(** What [strlen] measured is followed by a NUL. *)
Lemma strlen_Some b n : strlen b = Some n → take (n + 1) b = take n b ++ [NUL] ∧ NUL ∉ take n b.
Proof.
  revert n. induction b as [| c b IH]; intros n; simpl; [done |].
  destruct (is_nul_spec c) as [-> | Hc].
  - intros [= <-]. simpl. split; [by rewrite take_0 | apply not_elem_of_nil].
  - destruct (strlen b) as [m |]; [| done]. intros [= <-]. destruct (IH m eq_refl) as [E Hn].
    simpl. rewrite E. split; [done |]. rewrite not_elem_of_cons. split; congruence.
Qed.

Lemma c_string_Some b s :
  c_string b = Some s → strlen b = Some (length s) ∧ take (length s + 1) b = s ++ [NUL].
Proof.
  unfold c_string. destruct (strlen b) as [n |] eqn:E; [| done]. intros [= <-].
  pose proof (strlen_lt _ _ E). rewrite length_take_le by lia.
  split; [done |]. by apply strlen_Some.
Qed.

(** A message without NUL, stored in a zeroed buffer that is longer, is the C
    string of that buffer. *)
Lemma c_string_store d n :
  NUL ∉ d → (length d < n)%nat → c_string (store (zeros n) d) = Some d.
Proof.
  intros Hd Hlen. unfold store, zeros. rewrite drop_replicate.
  destruct (n - length d)%nat as [| m] eqn:E; [lia |]. by apply c_string_app_nul.
Qed.

(** A message stored over another one leaves the end of a longer one. *)
Lemma c_string_stale d1 d2 n :
  NUL ∉ d1 → NUL ∉ d2 → (length d1 < n)%nat → (length d2 < n)%nat →
  c_string (store (store (zeros n) d1) d2) = Some (d2 ++ drop (length d2) d1).
Proof.
  intros H1 H2 Hn1 Hn2. unfold store at 2, zeros. rewrite drop_replicate. unfold store.
  rewrite drop_app, drop_replicate, app_assoc.
  destruct (n - length d1 - (length d2 - length d1))%nat as [| m] eqn:E; [lia |].
  apply c_string_app_nul. rewrite elem_of_app. intros [? | Hd]; [done |].
  apply H1. rewrite <- (take_drop (length d2) d1). apply elem_of_app. by right.
Qed.

Lemma strlen_zeros n : (0 < n)%nat → strlen (zeros n) = Some 0%nat.
Proof. destruct n; [lia |]. reflexivity. Qed.

Lemma store_length b d : (length d <= length b)%nat → length (store b d) = length b.
Proof. unfold store. rewrite length_app, length_drop. lia. Qed.

(** A buffer of 1024 bytes whose last byte is still NUL: what a zeroed one is
    after reads of less than 1024 bytes. *)
Definition terminated (buf : data) : Prop := length buf = 1024%nat ∧ buf !! 1023%nat = Some NUL.

Lemma terminated_nul buf : terminated buf → NUL ∈ buf.
Proof. intros [_ H]. by eapply list_elem_of_lookup_2. Qed.

Lemma terminated_store buf d : (length d < 1024)%nat → terminated buf → terminated (store buf d).
Proof.
  intros Hd [Hl Hn]. split; [rewrite store_length; lia |].
  unfold store. rewrite lookup_app_r by lia. rewrite lookup_drop.
  by replace (length d + (1023 - length d))%nat with 1023%nat by lia.
Qed.

Lemma terminated_zeros : terminated (zeros (Z.to_nat 1024)).
Proof. by split. Qed.

(** * System calls *)
Definition EPOLLIN : Z := 1.
Definition EPOLLOUT : Z := 4.

Inductive call :=
  | Socket
  | Setsockopt (fd : Z)
  | Bind (fd : Z) (port : Z)
  | Listen (fd : Z) (backlog : Z)
  | Connect (fd : Z) (port : Z)
  | Accept (fd : Z)
  | Read (fd : Z) (n : Z)
  | Write (fd : Z) (d : data)
  | WriteBad (fd : Z)                   (* [write] with the size [(size_t)-1] *)
  | Close (fd : Z)
  | Shutdown (fd : Z)
  | Select (nfds : Z) (fds : list Z)    (* for reading *)
  | Poll (fds : list Z)                 (* for [POLLIN]; negative ones are ignored *)
  | EpollCreate
  | EpollAdd (fd ev : Z)
  | EpollMod (fd ev : Z)
  | EpollDel (fd : Z)
  | EpollWait (max : Z)
  | Printf (d : data).                  (* to [stdout] or [stderr] *)

(** The value a call returns, [errno], the bytes and the descriptors (with
    their events) it delivers. *)
Record result := Res { rv : Z; rerrno : Z; rdata : data; rfds : list (Z * Z) }.
Definition ok v := Res v 0 [] [].
Definition err e := Res (-1) e [] [].
Definition got d := Res (Z.of_nat (length d)) 0 d [].
Definition ready fds := Res (Z.of_nat (length fds)) 0 [] fds.
Definition EINTR : Z := 4.
Definition EAGAIN : Z := 11.
Definition ETIMEDOUT : Z := 110.

#[export] Instance call_eq_dec : EqDecision call.
Proof. solve_decision. Defined.
#[export] Instance result_eq_dec : EqDecision result.
Proof. solve_decision. Defined.

(** What the kernel keeps for the process: its open descriptors, the interest
    list of its epoll instance, and the calls made so far with their results
    (the most recent first). *)
Record kern := Kern {
  kopen : gset Z;
  kepoll : gmap Z Z;
  ktrace : list (call * result)
}.

Definition fresh_fd (k : kern) (v : Z) : bool := bool_decide (0 <= v ∧ v ∉ kopen k).
Definition is_open (k : kern) (fd : Z) : bool := bool_decide (fd ∈ kopen k).

(** Whether the kernel may give [r] for [c]. *)
Definition possible (c : call) (r : result) (k : kern) : bool :=
  (rv r =? -1) && bool_decide (rdata r = [] ∧ rfds r = []) ||
  match c with
  | Socket | EpollCreate => fresh_fd k (rv r)
  | Accept fd => is_open k fd && fresh_fd k (rv r)
  | Setsockopt fd | Bind fd _ | Listen fd _ | Connect fd _ | Shutdown fd | Close fd =>
      is_open k fd && (rv r =? 0)
  | Read fd n => is_open k fd && (rv r =? Z.of_nat (length (rdata r))) && (rv r <=? n)
  | Write fd d => is_open k fd && (0 <=? rv r) && (rv r <=? Z.of_nat (length d))
  | WriteBad _ => false
  | Select nfds fds =>
      (rv r =? Z.of_nat (length (rfds r))) &&
      bool_decide (NoDup (rfds r).*1 ∧ Forall (λ x, 0 <= x.1 < nfds ∧ x.1 ∈ fds) (rfds r))
  | Poll fds =>
      (rv r =? Z.of_nat (length (rfds r))) &&
      bool_decide (NoDup (rfds r).*1 ∧ Forall (λ x, 0 <= x.1 ∧ x.1 ∈ fds) (rfds r))
  | EpollAdd fd _ => is_open k fd && bool_decide (kepoll k !! fd = None) && (rv r =? 0)
  | EpollMod fd _ | EpollDel fd =>
      is_open k fd && bool_decide (kepoll k !! fd ≠ None) && (rv r =? 0)
  | EpollWait max =>
      (rv r =? Z.of_nat (length (rfds r))) && (rv r <=? max) &&
      bool_decide (NoDup (rfds r).*1 ∧ Forall (λ x, kepoll k !! x.1 = Some x.2) (rfds r))
  | Printf _ => true
  end.

(** What a successful call changes. *)
Definition effect (c : call) (r : result) (k : kern) : kern :=
  if rv r =? -1 then k else
  match c with
  | Socket | EpollCreate | Accept _ => Kern ({[rv r]} ∪ kopen k) (kepoll k) (ktrace k)
  | Close fd => Kern (kopen k ∖ {[fd]}) (delete fd (kepoll k)) (ktrace k)
  | EpollAdd fd ev | EpollMod fd ev => Kern (kopen k) (<[fd:=ev]> (kepoll k)) (ktrace k)
  | EpollDel fd => Kern (kopen k) (delete fd (kepoll k)) (ktrace k)
  | _ => k
  end.

Definition log (c : call) (r : result) (k : kern) : kern :=
  Kern (kopen k) (kepoll k) ((c, r) :: ktrace k).

Definition kstep (c : call) (r : result) (k : kern) : option kern :=
  if possible c r k then Some (log c r (effect c r k)) else None.

(** * Programs *)
Inductive io (A : Type) :=
  | Ret (a : A)
  | Sys (c : call) (f : result → io A)
  | Undefined                            (* undefined behaviour *)
  | OutOfFuel                            (* a loop of the program was cut here *)
  | Exit (code : Z).
Arguments Ret {A} a.
Arguments Sys {A} c f.
Arguments Undefined {A}.
Arguments OutOfFuel {A}.
Arguments Exit {A} code.

Fixpoint io_bind_def {A B} (f : A → io B) (m : io A) : io B :=
  match m with
  | Ret a => f a
  | Sys c g => Sys c (λ r, io_bind_def f (g r))
  | Undefined => Undefined
  | OutOfFuel => OutOfFuel
  | Exit code => Exit code
  end.
#[export] Instance io_ret : MRet io := @Ret.
#[export] Instance io_bind : MBind io := @io_bind_def.

Definition sys (c : call) : io result := Sys c Ret.
Definition sys_ (c : call) : io unit := Sys c (λ _, Ret tt).
Definition puts (s : string) : io unit := sys_ (Printf (text s)).
(** [printf("%s", b)] and the like: needs a C string. *)
Definition printf_s (before : string) (b : data) (after : string) : io unit :=
  match c_string b with
  | Some d => sys_ (Printf (text before ++ d ++ text after))
  | None => Undefined
  end.
Definition io_ub {A} (o : option A) : io A := match o with Some a => Ret a | None => Undefined end.

(** Running a program against the results of its system calls: the value it
    returns or its exit code, and the results it did not use. *)
Fixpoint run {A} (m : io A) (rs : list result) (k : kern) : outcome ((A + Z) * list result * kern) :=
  match m with
  | Ret a => Ok (inl a, rs, k)
  | Exit code => Ok (inr code, rs, k)
  | Undefined => UB
  | OutOfFuel => Blocked
  | Sys c f =>
      match rs with
      | [] => Blocked
      | r :: rs =>
          match kstep c r k with
          | Some k' => run (f r) rs k'
          | None => Blocked
          end
      end
  end.

Lemma run_bind {A B} (m : io A) (f : A → io B) rs k :
  run (m ≫= f) rs k =
  match run m rs k with
  | Ok (inl a, rs', k') => run (f a) rs' k'
  | Ok (inr code, rs', k') => Ok (inr code, rs', k')
  | Blocked => Blocked
  | UB => UB
  end.
Proof.
  unfold mbind, io_bind. revert rs k. induction m as [| c g IH | | |]; intros rs k; simpl; try done.
  destruct rs as [| r rs]; [done |]. destruct (kstep c r k); [apply IH | done].
Qed.

Lemma kstep_Some c r k k' :
  kstep c r k = Some k' ↔ possible c r k = true ∧ k' = log c r (effect c r k).
Proof. unfold kstep. destruct (possible c r k); intuition congruence. Qed.

Lemma kstep_Read fd n r k k' :
  kstep (Read fd n) r k = Some k' →
  k' = log (Read fd n) r k ∧
  ((rv r = -1 ∧ rdata r = []) ∨
   (0 <= rv r <= n ∧ rv r = Z.of_nat (length (rdata r)) ∧ fd ∈ kopen k)).
Proof.
  intros [Hp ->]%kstep_Some. unfold possible, is_open in Hp. unfold effect.
  destruct (Z.eqb_spec (rv r) (-1)) as [E | E]; simpl in *.
  - apply orb_true_iff in Hp as [[? ?]%bool_decide_eq_true | Hp]; [by auto |].
    apply andb_true_iff in Hp as [[_ ?]%andb_true_iff _]. lia.
  - split; [done | right]. apply andb_true_iff in Hp as [[Ho Hl]%andb_true_iff Hn].
    apply bool_decide_eq_true in Ho. apply Z.eqb_eq in Hl. apply Z.leb_le in Hn. split_and!; [lia | lia | lia | done].
Qed.

Lemma kstep_Close fd r k k' :
  kstep (Close fd) r k = Some k' →
  ktrace k' = (Close fd, r) :: ktrace k ∧
  (kopen k' = kopen k ∨ kopen k' = kopen k ∖ {[fd]}).
Proof.
  intros [_ ->]%kstep_Some. unfold effect. destruct (rv r =? -1); simpl; auto.
Qed.

Lemma kstep_trace c r k k' : kstep c r k = Some k' → ktrace k' = (c, r) :: ktrace k.
Proof. intros [_ ->]%kstep_Some. unfold effect. simpl. f_equal. by destruct (rv r =? -1), c. Qed.

Lemma kstep_EpollWait max r k k' :
  kstep (EpollWait max) r k = Some k' → Forall (λ e, kepoll k !! e.1 = Some e.2) (rfds r).
Proof.
  intros [Hp _]%kstep_Some. unfold possible in Hp.
  apply orb_true_iff in Hp as [[_ [_ ->]%bool_decide_eq_true]%andb_true_iff | Hp]; [by apply Forall_nil |].
  apply andb_true_iff in Hp as [_ [_ Hp]%bool_decide_eq_true]. done.
Qed.

Lemma kstep_EpollWait_NoDup max r k k' :
  kstep (EpollWait max) r k = Some k' → NoDup (rfds r).*1.
Proof.
  intros [Hp _]%kstep_Some. unfold possible in Hp.
  apply orb_true_iff in Hp as [[_ [_ ->]%bool_decide_eq_true]%andb_true_iff | Hp]; [by apply NoDup_nil |].
  by apply andb_true_iff in Hp as [_ [Hp _]%bool_decide_eq_true].
Qed.

Lemma kstep_Poll fds r k k' :
  kstep (Poll fds) r k = Some k' → rv r = -1 ∨ rv r = Z.of_nat (length (rfds r)).
Proof.
  intros [Hp _]%kstep_Some. unfold possible in Hp.
  destruct (Z.eqb_spec (rv r) (-1)); [by left | right]. simpl in Hp.
  apply andb_true_iff in Hp as [Hp _]. by apply Z.eqb_eq.
Qed.

(** The calls that change no descriptor. *)
Definition neutral (c : call) : bool :=
  match c with
  | Socket | EpollCreate | Accept _ | Close _ | EpollAdd _ _ | EpollMod _ _ | EpollDel _ => false
  | _ => true
  end.

Lemma kstep_neutral c r k k' :
  neutral c = true → kstep c r k = Some k' → k' = log c r k.
Proof. intros Hn [_ ->]%kstep_Some. unfold effect. by destruct (rv r =? -1), c. Qed.

Lemma run_sys {A} c (f : result → io A) r rs k :
  possible c r k = true → run (Sys c f) (r :: rs) k = run (f r) rs (log c r (effect c r k)).
Proof. intros Hp. simpl. unfold kstep. by rewrite Hp. Qed.

(** Completed calls that leave the descriptors alone. *)
Lemma run_neutral {A} c (f : result → io A) r rs k :
  neutral c = true → possible c r k = true →
  run (Sys c f) (r :: rs) k = run (f r) rs (log c r k).
Proof.
  intros Hn Hp. rewrite run_sys by done. unfold effect.
  destruct c; try discriminate Hn; by destruct (rv r =? -1).
Qed.

Lemma run_read {A} fd n d (f : result → io A) rs k :
  fd ∈ kopen k → Z.of_nat (length d) <= n →
  run (Sys (Read fd n) f) (got d :: rs) k = run (f (got d)) rs (log (Read fd n) (got d) k).
Proof.
  intros Hfd Hd. apply run_neutral; [done |]. unfold possible, is_open.
  rewrite (bool_decide_true (fd ∈ kopen k)) by done. simpl. rewrite Z.eqb_refl.
  rewrite (proj2 (Z.leb_le _ n)) by lia. apply orb_true_r.
Qed.

Lemma run_write {A} fd d w (f : result → io A) rs k :
  fd ∈ kopen k → 0 <= w <= Z.of_nat (length d) →
  run (Sys (Write fd d) f) (ok w :: rs) k = run (f (ok w)) rs (log (Write fd d) (ok w) k).
Proof.
  intros Hfd Hd. apply run_neutral; [done |]. unfold possible, is_open.
  rewrite (bool_decide_true (fd ∈ kopen k)) by done. simpl.
  rewrite (proj2 (Z.leb_le 0 w)), (proj2 (Z.leb_le w _)) by lia. apply orb_true_r.
Qed.

(** Calls that succeed with 0. *)
Lemma run_done {A} c fd (f : result → io A) rs k :
  match c with
  | Setsockopt fd' | Bind fd' _ | Listen fd' _ | Connect fd' _ | Shutdown fd' => fd' = fd
  | _ => False
  end → fd ∈ kopen k →
  run (Sys c f) (ok 0 :: rs) k = run (f (ok 0)) rs (log c (ok 0) k).
Proof.
  intros Hc Hfd. apply run_neutral; [by destruct c |]. unfold possible, is_open.
  destruct c; try done; subst fd; simpl; by rewrite bool_decide_true.
Qed.

(** A new descriptor. *)
Lemma run_socket {A} v (f : result → io A) rs k :
  0 <= v → v ∉ kopen k →
  run (Sys Socket f) (ok v :: rs) k =
    run (f (ok v)) rs (Kern ({[v]} ∪ kopen k) (kepoll k) ((Socket, ok v) :: ktrace k)).
Proof.
  intros Hv Hf. rewrite run_sys.
  - unfold effect, log. simpl. destruct (Z.eqb_spec v (-1)); [lia | done].
  - unfold possible, fresh_fd. simpl. rewrite (bool_decide_true (0 <= v ∧ v ∉ kopen k)) by done.
    apply orb_true_r.
Qed.

(** [epoll_ctl] with [EPOLL_CTL_MOD] on a watched descriptor, [epoll_wait]. *)
Lemma run_mod {A} fd ev old (f : result → io A) rs k :
  fd ∈ kopen k → kepoll k !! fd = Some old →
  run (Sys (EpollMod fd ev) f) (ok 0 :: rs) k =
    run (f (ok 0)) rs (Kern (kopen k) (<[fd:=ev]> (kepoll k)) ((EpollMod fd ev, ok 0) :: ktrace k)).
Proof.
  intros Hfd He. rewrite run_sys; [done |]. unfold possible, is_open. simpl.
  rewrite (bool_decide_true (fd ∈ kopen k)) by done. by rewrite bool_decide_true by by rewrite He.
Qed.

Lemma run_add {A} fd ev (f : result → io A) rs k :
  fd ∈ kopen k → kepoll k !! fd = None →
  run (Sys (EpollAdd fd ev) f) (ok 0 :: rs) k =
    run (f (ok 0)) rs (Kern (kopen k) (<[fd:=ev]> (kepoll k)) ((EpollAdd fd ev, ok 0) :: ktrace k)).
Proof.
  intros Hfd He. rewrite run_sys; [done |]. unfold possible, is_open. simpl.
  rewrite (bool_decide_true (fd ∈ kopen k)) by done. by rewrite bool_decide_true.
Qed.

Lemma run_wait {A} max evs (f : result → io A) rs k :
  NoDup evs.*1 → Forall (λ e, kepoll k !! e.1 = Some e.2) evs → Z.of_nat (length evs) <= max →
  run (Sys (EpollWait max) f) (ready evs :: rs) k =
    run (f (ready evs)) rs (log (EpollWait max) (ready evs) k).
Proof.
  intros Hd Hf Hl. apply run_neutral; [done |]. unfold possible. simpl. rewrite Z.eqb_refl.
  rewrite (proj2 (Z.leb_le _ max)) by done.
  rewrite (bool_decide_true (NoDup _ ∧ _)) by done. apply orb_true_r.
Qed.

Lemma run_printf {A} d (f : result → io A) r rs k :
  run (Sys (Printf d) f) (r :: rs) k = run (f r) rs (log (Printf d) r k).
Proof. apply run_neutral; [done |]. unfold possible. by rewrite orb_true_r. Qed.

Lemma run_printf_s before b after s r rs k :
  c_string b = Some s →
  run (printf_s before b after) (r :: rs) k =
    Ok (inl tt, rs, log (Printf (text before ++ s ++ text after)) r k).
Proof. intros Hs. unfold printf_s. rewrite Hs. unfold sys_. by rewrite run_printf. Qed.

(** The calls a run makes, with their results. *)
Fixpoint calls_made {A} (m : io A) (rs : list result) (k : kern) : list (call * result) :=
  match m, rs with
  | Sys c f, r :: rs =>
      match kstep c r k with
      | Some k' => (c, r) :: calls_made (f r) rs k'
      | None => []
      end
  | _, _ => []
  end.

Lemma calls_made_trace {A} (m : io A) rs k x rs' k' :
  run m rs k = Ok (x, rs', k') → ktrace k' = rev (calls_made m rs k) ++ ktrace k.
Proof.
  revert rs k. induction m as [a | c f IH | | | code]; intros rs k; simpl; [| | done | done |].
  - intros [= _ _ <-]. done.
  - destruct rs as [| r rs]; [done |]. destruct (kstep c r k) as [k1 |] eqn:E; [| done].
    intros Hr. apply IH in Hr. rewrite Hr, (kstep_trace _ _ _ _ E). simpl. by rewrite <- app_assoc.
  - intros [= _ _ <-]. done.
Qed.

(** A constraint on the results, whatever the call. *)
Definition each (P : result → Prop) : call → result → Prop := λ _, P.
Lemma calls_made_each {A} P (m : io A) rs k :
  Forall P rs → Forall (uncurry (each P)) (calls_made m rs k).
Proof.
  intros HP. revert rs k HP. induction m as [a | c f IH | | | code]; intros rs k HP; simpl;
    try (by destruct rs; constructor).
  destruct HP as [| r rs Hr HP]; [constructor |]. destruct (kstep c r k); constructor; [done | by apply IH].
Qed.

(** * Weakest preconditions

    [wp R ub m k Q]: whatever results that satisfy [R] the kernel gives to the
    calls, what the program ends with satisfies [Q]; it has no undefined
    behaviour, unless [ub] holds. *)
Section wp.
Context (R : call → result → Prop) (ub : Prop).

Fixpoint wp {A} (m : io A) (k : kern) (Q : A + Z → kern → Prop) : Prop :=
  match m with
  | Ret a => Q (inl a) k
  | Exit code => Q (inr code) k
  | Undefined => ub
  | OutOfFuel => True
  | Sys c f => ∀ r k', R c r → kstep c r k = Some k' → wp (f r) k' Q
  end.

Lemma wp_mono {A} (m : io A) k (P Q : A + Z → kern → Prop) :
  (∀ x k', P x k' → Q x k') → wp m k P → wp m k Q.
Proof. intros HPQ. revert k. induction m; simpl; eauto. Qed.

Lemma wp_bind {A B} (m : io A) (f : A → io B) k Q :
  wp m k (λ x k', match x with inl a => wp (f a) k' Q | inr e => Q (inr e) k' end) →
  wp (m ≫= f) k Q.
Proof. unfold mbind, io_bind. revert k. induction m; simpl; eauto. Qed.

Lemma wp_run {A} (m : io A) rs k Q x rs' k' :
  wp m k Q → Forall (uncurry R) (calls_made m rs k) → run m rs k = Ok (x, rs', k') → Q x k'.
Proof.
  revert rs k. induction m as [a | c f IH | | | code]; intros rs k; simpl; [| | done | done |].
  - intros HQ _ [= <- _ <-]. done.
  - intros Hwp HR. destruct rs as [| r rs]; [done |].
    destruct (kstep c r k) eqn:E; [| done]. apply Forall_cons in HR as [Hr HR].
    eapply IH; [| done]. by apply Hwp.
  - intros HQ _ [= <- _ <-]. done.
Qed.

Lemma wp_run_not_UB {A} (m : io A) rs k Q :
  ¬ ub → wp m k Q → Forall (uncurry R) (calls_made m rs k) → run m rs k ≠ UB.
Proof.
  intros Hub. revert rs k. induction m as [a | c f IH | | | code]; intros rs k; simpl; try done.
  intros Hwp HR. destruct rs as [| r rs]; [done |].
  destruct (kstep c r k) eqn:E; [| done]. apply Forall_cons in HR as [Hr HR].
  eapply IH; [| done]. by apply Hwp.
Qed.

Lemma wp_printf_s k before b after Q :
  NUL ∈ b ∨ ub → (∀ r, Q (inl tt) (log (Printf (text before ++ default [] (c_string b) ++ text after)) r k)) →
  wp (printf_s before b after) k Q.
Proof.
  intros Hb HQ. unfold printf_s. destruct (c_string b) as [d |] eqn:E.
  - intros r k' _ Hk. unfold kstep in Hk. destruct (possible _ _ _); simplify_eq.
    unfold effect. destruct (rv r =? -1); apply HQ.
  - unfold c_string in E. apply fmap_None, strlen_None in E. destruct Hb; done.
Qed.
Lemma wp_io_ub {A} (o : option A) k Q :
  (ub ∨ is_Some o) → (∀ a, o = Some a → Q (inl a) k) → wp (io_ub o) k Q.
Proof. intros Ho HQ. destruct o as [a |]; simpl; [by apply HQ | by destruct Ho as [| [? ?]]]. Qed.


Lemma wp_sys {B} c (f : result → io B) k Q :
  (∀ r k', R c r → kstep c r k = Some k' → wp (f r) k' Q) → wp (sys c ≫= f) k Q.
Proof. intros H. apply wp_bind. exact H. Qed.

(** The same with an invariant of the kernel's state that the call keeps. *)
Lemma wp_sys_inv {B} (J : kern → Prop) c (f : result → io B) k Q :
  (∀ r k', kstep c r k = Some k' → J k → J k') → J k →
  (∀ r k', R c r → kstep c r k = Some k' → J k' → wp (f r) k' Q) → wp (sys c ≫= f) k Q.
Proof. intros HJ Hk H. apply wp_sys. eauto. Qed.

Lemma wp_sys_inv_ {B} (J : kern → Prop) c (f : unit → io B) k Q :
  (∀ r k', kstep c r k = Some k' → J k → J k') → J k →
  (∀ k', J k' → wp (f tt) k' Q) → wp (sys_ c ≫= f) k Q.
Proof. intros HJ Hk H. apply wp_bind. simpl. eauto. Qed.

Lemma wp_printf_s_inv {B} (J : kern → Prop) before b after (f : unit → io B) k Q :
  (∀ d r (k' : kern), J k' → J (log (Printf d) r k')) → NUL ∈ b ∨ ub → J k →
  (∀ k', J k' → wp (f tt) k' Q) → wp (printf_s before b after ≫= f) k Q.
Proof. intros HJ Hb Hk H. apply wp_bind, wp_printf_s; [done |]. intros r. apply H. by apply HJ. Qed.

Lemma wp_sys_ {B} c (f : unit → io B) k Q :
  (∀ r k', R c r → kstep c r k = Some k' → wp (f tt) k' Q) → wp (sys_ c ≫= f) k Q.
Proof. intros H. apply wp_bind. exact H. Qed.
End wp.

Lemma wp_weaken {A} R (ub ub' : Prop) (m : io A) k Q : (ub → ub') → wp R ub m k Q → wp R ub' m k Q.
Proof. intros Hub. revert k. induction m; simpl; eauto. Qed.

(** The last statement of a block. *)
Lemma wp_last {A} R ub (m : io A) k Q : wp R ub (m ≫= Ret) k Q → wp R ub m k Q.
Proof. unfold mbind, io_bind. revert k. induction m; simpl; auto. Qed.

(** No constraint on the results. *)
Definition anything (r : result) : Prop := True.

Lemma kstep_Accept fd r k k' :
  kstep (Accept fd) r k = Some k' →
  (rv r = -1 ∧ kopen k' = kopen k ∧ kepoll k' = kepoll k) ∨
  (0 <= rv r ∧ (rv r ∉ kopen k) ∧ kopen k' = {[rv r]} ∪ kopen k ∧ kepoll k' = kepoll k).
Proof.
  intros [Hp ->]%kstep_Some. unfold possible, fresh_fd, is_open in Hp. unfold effect.
  destruct (Z.eqb_spec (rv r) (-1)) as [E | E]; simpl in *; [by left | right].
  apply andb_true_iff in Hp as [_ [? ?]%bool_decide_eq_true]. done.
Qed.

(** * Servers: machines whose steps are the iterations of a loop *)
Section server.
Context {S : Type} (body : S → io S) (init : S → kern → Prop).

(** The state at the head of the loop, or the exit code. *)
Record process := Process { pstate : S + Z; pkern : kern }.

(** One iteration, with the results of all its system calls. *)
Definition iteration (rs : list result) (p : process) : outcome process :=
  match pstate p with
  | inr _ => Blocked
  | inl s =>
      match run (body s) rs (pkern p) with
      | Ok (x, [], k) => Ok (Process x k)
      | Ok (_, _ :: _, _) | Blocked => Blocked
      | UB => UB
      end
  end.

Lemma iteration_Ok s rs k x k' :
  run (body s) rs k = Ok (x, [], k') → iteration rs (Process (inl s) k) = Ok (Process x k').
Proof. intros H. unfold iteration. simpl. by rewrite H. Qed.

Definition server : machine :=
  Machine process (list result) (λ p, ∃ s k, p = Process (inl s) k ∧ init s k) iteration.

(** An iteration adds its calls to the trace. *)
Lemma iteration_trace rs (p p' : mstate server) :
  mstep server rs p = Ok p' → ∃ cs, ktrace (pkern p') = rev cs ++ ktrace (pkern p).
Proof.
  intros H. change (iteration rs p = Ok p') in H. unfold iteration in H.
  destruct (pstate p) as [s |]; [| done].
  destruct (run (body s) rs (pkern p)) as [[[y [| ]] k1] | |] eqn:Hrun; try done.
  injection H as <-. exists (calls_made (body s) rs (pkern p)). by eapply calls_made_trace.
Qed.

Section invariant.
Context (R : call → result → Prop) (I : S + Z → kern → Prop).

(** An invariant of the loop holds at its head as long as the results of the
    calls satisfy [R]. *)
Lemma server_step_invariant rs (p p' : mstate server) :
  (∀ s, pstate p = inl s → wp R True (body s) (pkern p) I) →
  mstep server rs p = Ok p' →
  ∃ cs, ktrace (pkern p') = rev cs ++ ktrace (pkern p) ∧
    (∀ s, pstate p = inl s → cs = calls_made (body s) rs (pkern p)) ∧
    (Forall (uncurry R) cs → I (pstate p') (pkern p')).
Proof.
  intros Hwp H. change (iteration rs p = Ok p') in H. unfold iteration in H.
  destruct (pstate p) as [s |]; [| done].
  destruct (run (body s) rs (pkern p)) as [[[y [| ]] k1] | |] eqn:Hrun; try done.
  injection H as <-. exists (calls_made (body s) rs (pkern p)). split_and!.
  - by eapply calls_made_trace.
  - congruence.
  - intros HR. simpl. eapply wp_run; [by apply Hwp | done | done].
Qed.

(** Reachable states, as long as every result so far satisfied [R]. *)
Lemma server_trace_invariant :
  (∀ s k, init s k → I (inl s) k) →
  (∀ s k, I (inl s) k → wp R True (body s) k I) →
  ∀ p : mstate server, reachable p → Forall (uncurry R) (ktrace (pkern p)) → I (pstate p) (pkern p).
Proof.
  intros Hinit Hbody. apply (invariant_ind server (λ p, Forall (uncurry R) (ktrace (pkern p)) → I (pstate p) (pkern p))).
  - intros p (s & k & -> & Hs) _. by apply Hinit.
  - intros rs p p' _ IH Hs HR.
    destruct (server_step_invariant rs p p') as (cs & Htr & _ & HI); [| done |].
    { intros s Hp. apply Hbody. rewrite <- Hp. apply IH.
      destruct (iteration_trace rs p p' Hs) as [cs Htr]. rewrite Htr in HR. by apply Forall_app in HR as [_ HR]. }
    rewrite Htr in HR. apply Forall_app in HR as [HR _]. apply HI. by apply Forall_rev in HR; rewrite rev_involutive in HR.
Qed.

(** No undefined behaviour in an iteration. *)
Lemma server_calls_safe (p : mstate server) rs s :
  pstate p = inl s → (∃ Q, wp R False (body s) (pkern p) Q) →
  Forall (uncurry R) (calls_made (body s) rs (pkern p)) → mstep server rs p ≠ UB.
Proof.
  intros Hp [Q HQ] HR Hs. change (iteration rs p = UB) in Hs. unfold iteration in Hs. rewrite Hp in Hs.
  destruct (run (body s) rs (pkern p)) as [[[x [| ]] k] | |] eqn:Hrun; try done.
  revert Hrun. apply (wp_run_not_UB R False _ _ _ Q); auto.
Qed.
End invariant.

Section results.
Context (R : result → Prop) (I : S + Z → kern → Prop).

Lemma server_invariant :
  (∀ s k, init s k → I (inl s) k) →
  (∀ s k, I (inl s) k → wp (each R) True (body s) k I) →
  ∀ p0 p : mstate server, minit server p0 → rtc (msteps server (Forall R)) p0 p →
    I (pstate p) (pkern p).
Proof.
  intros Hinit Hbody p0 p (s & k & -> & Hs) Hr.
  assert (I (inl s) k) as HI by by apply Hinit.
  enough (∀ p1, rtc (msteps server (Forall R)) p1 p →
    I (pstate p1) (pkern p1) → I (pstate p) (pkern p)) as Hgen by by eapply Hgen.
  clear -Hbody. intros p1 Hr. induction Hr as [| p1 p2 p (rs & HR & H12) _ IH]; [done |].
  intros HI. apply IH.
  destruct (server_step_invariant (each R) I rs p1 p2) as (cs & _ & Hcs & HI'); [| done |].
  { intros s Hp. apply Hbody. by rewrite <- Hp. }
  apply HI'. change (iteration rs p1 = Ok p2) in H12. unfold iteration in H12.
  destruct (pstate p1) as [s |]; [| done]. rewrite (Hcs s eq_refl). by apply calls_made_each.
Qed.

Lemma server_safe (p : mstate server) rs :
  (∀ s, pstate p = inl s → ∃ Q, wp (each R) False (body s) (pkern p) Q) → Forall R rs →
  mstep server rs p ≠ UB.
Proof.
  intros Hwp HR Hs. pose proof Hs as Hs'. change (iteration rs p = UB) in Hs'. unfold iteration in Hs'.
  destruct (pstate p) as [s |] eqn:Hp; [| done].
  revert Hs. eapply server_calls_safe; eauto. by apply calls_made_each.
Qed.
End results.

Lemma reachable_anything (p : mstate server) :
  reachable p → ∃ p0, minit server p0 ∧ rtc (msteps server (Forall anything)) p0 p.
Proof.
  intros (p0 & Hi & Hr). exists p0. split; [done |]. clear Hi.
  induction Hr as [| p0 p1 p [rs H01] _ IH]; [apply rtc_refl |].
  eapply rtc_l, IH. exists rs. split; [| done]. apply Forall_forall. done.
Qed.
End server.
Arguments process : clear implicits.
Arguments Process {S} pstate pkern.

(** Symbolic execution of a program in a goal [wp R ub m k Q]. *)
Ltac wp_step :=
  lazymatch goal with
  | |- wp _ _ (mbind _ _) _ _ => apply wp_bind
  | |- wp _ _ (Sys ?c _) _ _ =>
      let r := fresh "r" in let k := fresh "k" in let HR := fresh "HR" in let H := fresh "Hk" in
      intros r k HR H;
      first [apply kstep_neutral in H; [subst k | reflexivity] | idtac]
  | |- wp _ _ (Ret _) _ _ => simpl
  | |- wp _ _ (Exit _) _ _ => simpl
  | |- wp _ _ (sys _) _ _ => unfold sys
  | |- wp _ _ (sys_ _) _ _ => unfold sys_
  | |- wp _ _ (puts _) _ _ => unfold puts
  | |- wp _ _ (if ?b then _ else _) _ _ => let E := fresh "Hb" in destruct b eqn:E
  end.
Ltac wp_steps := repeat wp_step.

(** * Buffers that are not initialised: [None] is an indeterminate byte. *)
Abbreviation ubuf := (list (option byte)).
Definition uninit (n : nat) : ubuf := replicate n None.
Definition ustore (b : ubuf) (d : data) : ubuf := (Some <$> d) ++ drop (length d) b.

(** The C string of such a buffer: [None] when [strlen] meets an indeterminate
    byte or the end before a NUL. *)
Fixpoint u_string (b : ubuf) : option data :=
  match b with
  | Some c :: b => if is_nul c then Some [] else cons c <$> u_string b
  | _ => None
  end.

Lemma u_string_nul d b : NUL ∉ d → u_string ((Some <$> d) ++ Some NUL :: b) = Some d.
Proof.
  induction d as [| c d IH]; csimpl; [done |].
  rewrite not_elem_of_cons. intros [Hc Hd]. destruct (is_nul_spec c); [congruence |].
  by rewrite (IH Hd).
Qed.

(** A first message that carries no NUL leaves [strlen] in indeterminate bytes. *)
Lemma u_string_uninit d n : NUL ∉ d → u_string (ustore (uninit n) d) = None.
Proof.
  unfold ustore, uninit. rewrite drop_replicate. generalize (n - length d)%nat as m. intros m.
  induction d as [| c d IH]; csimpl; [by destruct m |].
  rewrite not_elem_of_cons. intros [Hc Hd]. destruct (is_nul_spec c); [congruence |].
  by rewrite (IH Hd).
Qed.

(** [write(fd, literal, n)]: past the literal's own NUL the bytes are not the
    program's. *)
Definition write_literal (fd : Z) (s : string) (n : nat) : io unit :=
  if (n <=? length (text s) + 1)%nat then sys_ (Write fd (take n (text s ++ [NUL]))) else Undefined.

(** * What went through the descriptors, in the order of the calls *)
Fixpoint flow (sel : call → result → data) (tr : list (call * result)) : data :=
  match tr with
  | [] => []
  | (c, r) :: tr => flow sel tr ++ sel c r
  end.

(** The bytes read from [f], given to [write] for [f], and read from anywhere. *)
Definition received_from (f : Z) : list (call * result) → data :=
  flow (λ c r, match c with Read f' _ => if f' =? f then rdata r else [] | _ => [] end).
Definition sent_to (f : Z) : list (call * result) → data :=
  flow (λ c _, match c with Write f' d => if f' =? f then d else [] | _ => [] end).
Definition received_all : list (call * result) → data :=
  flow (λ c r, match c with Read _ _ => rdata r | _ => [] end).
#[global] Arguments received_from : simpl never.
#[global] Arguments sent_to : simpl never.
#[global] Arguments received_all : simpl never.

Lemma received_from_log f c r k :
  received_from f (ktrace (log c r k)) =
  received_from f (ktrace k) ++ match c with Read f' _ => if f' =? f then rdata r else [] | _ => [] end.
Proof. done. Qed.
Lemma sent_to_log f c r k :
  sent_to f (ktrace (log c r k)) =
  sent_to f (ktrace k) ++ match c with Write f' d => if f' =? f then d else [] | _ => [] end.
Proof. done. Qed.
Lemma received_all_log c r k :
  received_all (ktrace (log c r k)) =
  received_all (ktrace k) ++ match c with Read _ _ => rdata r | _ => [] end.
Proof. done. Qed.

(** Calls that move no byte. *)
Definition quiet (c : call) : bool :=
  match c with Read _ _ | Write _ _ => false | _ => true end.

Ltac flow_simpl :=
  rewrite ?received_from_log, ?sent_to_log, ?received_all_log; cbn beta iota.

Lemma sent_to_quiet fd c r k k' :
  quiet c = true → kstep c r k = Some k' → sent_to fd (ktrace k') = sent_to fd (ktrace k).
Proof. intros Hq Hk. rewrite (kstep_trace _ _ _ _ Hk). by destruct c; try discriminate Hq; apply app_nil_r. Qed.

Lemma received_from_quiet fd c r k k' :
  quiet c = true → kstep c r k = Some k' →
  received_from fd (ktrace k') = received_from fd (ktrace k).
Proof. intros Hq Hk. rewrite (kstep_trace _ _ _ _ Hk). by destruct c; try discriminate Hq; apply app_nil_r. Qed.

Lemma drop_zeros m n : drop m (zeros n) = zeros (n - m).
Proof. apply drop_replicate. Qed.

(** A new connection, and a closed descriptor. *)
Lemma run_accept {A} fd v (f : result → io A) rs k :
  fd ∈ kopen k → 0 <= v → v ∉ kopen k →
  run (Sys (Accept fd) f) (ok v :: rs) k =
    run (f (ok v)) rs (Kern ({[v]} ∪ kopen k) (kepoll k) ((Accept fd, ok v) :: ktrace k)).
Proof.
  intros Hfd Hv Hf. rewrite run_sys.
  - unfold effect, log. simpl. destruct (Z.eqb_spec v (-1)); [lia | done].
  - unfold possible, fresh_fd, is_open. simpl.
    rewrite (bool_decide_true (0 <= v ∧ v ∉ kopen k)) by done.
    rewrite (bool_decide_true (fd ∈ kopen k)) by done. apply orb_true_r.
Qed.

Lemma run_close {A} fd (f : result → io A) rs k :
  fd ∈ kopen k →
  run (Sys (Close fd) f) (ok 0 :: rs) k =
    run (f (ok 0)) rs (Kern (kopen k ∖ {[fd]}) (delete fd (kepoll k)) ((Close fd, ok 0) :: ktrace k)).
Proof.
  intros Hfd. rewrite run_sys; [done |]. unfold possible, is_open. simpl.
  by rewrite (bool_decide_true (fd ∈ kopen k)) by done.
Qed.

(** A call that fails changes nothing. *)
Lemma run_fail {A} c e (f : result → io A) rs k :
  run (Sys c f) (err e :: rs) k = run (f (err e)) rs (log c (err e) k).
Proof. by rewrite run_sys. Qed.

(** A call at the head of a sequence. *)
Lemma run_call_ {A} c (f : unit → io A) rs k :
  run (sys_ c ≫= f) rs k = run (Sys c (λ _, f tt)) rs k.
Proof. done. Qed.
Lemma run_call {A} c (f : result → io A) rs k : run (sys c ≫= f) rs k = run (Sys c f) rs k.
Proof. done. Qed.

(** Chunks read from one descriptor, and the kernel after them. *)
Section chunks.
Context (fd n : Z).
Definition chunk (d : data) : Prop := (0 < length d)%nat ∧ Z.of_nat (length d) <= n.
Definition log_reads (ds : list data) (k : kern) : kern :=
  foldl (λ k d, log (Read fd n) (got d) k) k ds.

Lemma log_reads_open ds k : kopen (log_reads ds k) = kopen k.
Proof. revert k. induction ds as [| d ds IH]; intros k; [done |]. simpl. by rewrite IH. Qed.

Lemma log_reads_trace ds k :
  ktrace (log_reads ds k) = rev (map (λ d, (Read fd n, got d)) ds) ++ ktrace k.
Proof.
  revert k. induction ds as [| d ds IH]; intros k; [done |]. cbn [log_reads foldl map rev].
  unfold log_reads in IH. rewrite IH. by rewrite <- app_assoc.
Qed.
End chunks.

Lemma log_reads_epoll fd n ds k : kepoll (log_reads fd n ds k) = kepoll k.
Proof. revert k. induction ds as [| d ds IH]; intros k; [done |]. simpl. by rewrite IH. Qed.

(** The bytes of [write] that the kernel took. *)
Definition accepted (f : Z) : list (call * result) → data :=
  flow (λ c r, match c with
               | Write f' d => if f' =? f then take (Z.to_nat (rv r)) d else []
               | _ => [] end).
#[global] Arguments accepted : simpl never.

Lemma accepted_log f c r k :
  accepted f (ktrace (log c r k)) =
  accepted f (ktrace k) ++
    match c with Write f' d => if f' =? f then take (Z.to_nat (rv r)) d else [] | _ => [] end.
Proof. done. Qed.

Lemma accepted_log_reads f fd n ds k :
  accepted f (ktrace (log_reads fd n ds k)) = accepted f (ktrace k).
Proof.
  revert k. induction ds as [| d ds IH]; intros k; [done |]. cbn [log_reads foldl].
  unfold log_reads in IH. rewrite IH, accepted_log. by rewrite app_nil_r.
Qed.

(** Loops that end: every result the kernel may give leads to a value, an exit
    or undefined behaviour before the fuel is used up. *)
Fixpoint finishes {A} (m : io A) (k : kern) : Prop :=
  match m with
  | Ret _ | Exit _ | Undefined => True
  | OutOfFuel => False
  | Sys c f => ∀ r k', kstep c r k = Some k' → finishes (f r) k'
  end.

Lemma finishes_bind {A B} (m : io A) (f : A → io B) k :
  finishes m k → (∀ a k', finishes (f a) k') → finishes (m ≫= f) k.
Proof. unfold mbind, io_bind. revert k. induction m; simpl; eauto. Qed.

Lemma finishes_call {B} c (f : result → io B) k :
  (∀ r k', kstep c r k = Some k' → finishes (f r) k') → finishes (sys c ≫= f) k.
Proof. intros H. exact H. Qed.
