(* ===== verification/SelectServer.v ===== *)
(** [code/network/IO/multiplexing/via_select]: the echo server that keeps its
    clients in a table of ten descriptors and waits for them with [select],
    and its client.  The server's table is [server_context_st]; one iteration
    of [handle_client_proc] is one step of the machine. *)

From S2P Require Import Prelude Posix.

Local Open Scope Z_scope.

Definition PORT : Z := 8787.
Definition MAXLINE : Z := 1024.
Definition LISTENQ : Z := 5.
Definition SIZE : nat := 10.

Record server_context_st := Context_st {
  cli_cnt : Z;
  clifds : list Z;
  allfds : gset Z;
  maxfd : Z
}.

(** [FD_SET] and [FD_ISSET] index a bit array of 1024 bits. *)
Definition FD_SETSIZE : Z := 1024.
Definition fd_in_range (fd : Z) : bool := (0 <=? fd) && (fd <? FD_SETSIZE).
Definition FD_SET (fd : Z) (s : gset Z) : io (gset Z) :=
  if fd_in_range fd then Ret ({[fd]} ∪ s) else Undefined.
Definition FD_ISSET (fd : Z) (s : gset Z) : io bool :=
  if fd_in_range fd then Ret (bool_decide (fd ∈ s)) else Undefined.
Definition FD_CLR (fd : Z) (s : gset Z) : gset Z := s ∖ {[fd]}.

Definition set_allfds s ctx := Context_st (cli_cnt ctx) (clifds ctx) s (maxfd ctx).
Definition set_maxfd m ctx := Context_st (cli_cnt ctx) (clifds ctx) (allfds ctx) m.
Definition set_slot i fd ctx :=
  Context_st (cli_cnt ctx) (<[i:=fd]> (clifds ctx)) (allfds ctx) (maxfd ctx).
Definition add_client ctx :=
  Context_st (cli_cnt ctx + 1) (clifds ctx) (allfds ctx) (maxfd ctx).

Definition server_init : server_context_st := Context_st 0 (replicate SIZE (-1)) ∅ 0.

Definition create_server_proc (port : Z) : io Z :=
  r ← sys Socket;
  if rv r =? -1 then (puts "create socket fail" ≫= λ _, Ret (-1)) else
  let fd := rv r in
  r ← sys (Setsockopt fd);
  if rv r =? -1 then Ret (-1) else
  r ← sys (Bind fd port);
  if rv r =? -1 then (puts "bind error: " ≫= λ _, Ret (-1)) else
  _ ← sys (Listen fd LISTENQ);
  Ret fd.

(** The label [ACCEPT]: again while the call is interrupted. *)
Fixpoint accept_retry (fuel : nat) (srvfd : Z) : io Z :=
  match fuel with
  | O => OutOfFuel
  | S fuel =>
      r ← sys (Accept srvfd);
      if rv r =? -1 then
        if rerrno r =? EINTR then accept_retry fuel srvfd
        else (puts "accept fail,error:" ≫= λ _, Ret (-1))
      else Ret (rv r)
  end.

(** The new client takes the first free slot; with no free slot it stays open
    and nobody knows it. *)
Definition accept_client_proc (fuel : nat) (srvfd : Z) ctx : io (Z * server_context_st) :=
  _ ← puts "accpet clint proc is called.";
  clifd ← accept_retry fuel srvfd;
  if clifd =? -1 then Ret (-1, ctx) else
  _ ← puts "accept a new client: ";
  match list_find (λ fd, fd < 0) (clifds ctx) with
  | Some (i, _) => Ret (0, add_client (set_slot i clifd ctx))
  | None => puts "too many clients." ≫= λ _, Ret (-1, ctx)
  end.

(** Answers with the C string of the buffer and its NUL. *)
Definition handle_client_msg (fd : Z) (buf : data) : io unit :=
  _ ← printf_s "recv buf is :" buf "";
  n ← io_ub (strlen buf);
  sys_ (Write fd (take (n + 1) buf)).

(** The loop of [recv_client_msg], from slot [i], [n] slots to go; all the
    clients of a round share [buf]. *)
Fixpoint recv_loop (n i : nat) (buf : data) ctx : io server_context_st :=
  match n with
  | O => Ret ctx
  | S n =>
      clifd ← io_ub (clifds ctx !! i);
      if clifd <? 0 then recv_loop n (S i) buf ctx else
      set ← FD_ISSET clifd (allfds ctx);
      if set : bool then
        r ← sys (Read clifd MAXLINE);
        let buf := store buf (rdata r) in
        if rv r <=? 0 then
          let ctx := set_allfds (FD_CLR clifd (allfds ctx)) ctx in
          _ ← sys (Close clifd);
          recv_loop n (S i) buf (set_slot i (-1) ctx)
        else
          _ ← handle_client_msg clifd buf;
          recv_loop n (S i) buf ctx
      else recv_loop n (S i) buf ctx
  end.

Definition recv_client_msg ctx : io server_context_st :=
  recv_loop (Z.to_nat (cli_cnt ctx + 1)) 0 (zeros (Z.to_nat MAXLINE)) ctx.

(** Lines 154-161: watching the clients of slots [i], [i+1], ... ([n] of them). *)
Fixpoint watch_loop (n i : nat) ctx : io server_context_st :=
  match n with
  | O => Ret ctx
  | S n =>
      clifd ← io_ub (clifds ctx !! i);
      ctx ← (if clifd =? -1 then Ret ctx
             else s ← FD_SET clifd (allfds ctx); Ret (set_allfds s ctx));
      watch_loop n (S i) (set_maxfd (if maxfd ctx <? clifd then clifd else maxfd ctx) ctx)
  end.

(** One iteration of [handle_client_proc]; when it returns, [main] frees the
    context and returns 0. *)
Definition handle_client_proc (fuel : nat) (srvfd : Z) ctx : io server_context_st :=
  s ← FD_SET srvfd ∅;
  let ctx := set_maxfd srvfd (set_allfds s ctx) in
  ctx ← watch_loop (Z.to_nat (cli_cnt ctx)) 0 ctx;
  r ← sys (Select (maxfd ctx + 1) (elements (allfds ctx)));
  if rv r =? -1 then (puts "select error:" ≫= λ _, Exit 0) else
  if rv r =? 0 then (puts "select is timeout." ≫= λ _, Ret (set_allfds ∅ ctx)) else
  let ctx := set_allfds (list_to_set (rfds r).*1) ctx in
  set ← FD_ISSET srvfd (allfds ctx);
  if set : bool then (accept_client_proc fuel srvfd ctx ≫= λ x, Ret x.2)
  else recv_client_msg ctx.

(** [main]: what happens before the loop. *)
Definition main_setup : io (Z * server_context_st) :=
  srvfd ← create_server_proc PORT;
  if srvfd <? 0 then (puts "socket create or bind fail." ≫= λ _, Exit (-1))
  else Ret (srvfd, server_init).

(** * The client *)
Module Client.
(** [handle_recv_msg], with what is known of [recvline]. *)
Definition handle_recv_msg (sockfd : Z) (buf : ubuf) : io unit :=
  s ← io_ub (u_string buf);
  _ ← sys_ (Printf (text "client recv msg is:" ++ s ++ text ""));
  sys_ (Write sockfd (s ++ [NUL])).

(** One iteration of [handle_connection]; its [return] ends [main]. *)
Definition handle_connection (sockfd : Z) (recvline : ubuf) : io ubuf :=
  _ ← FD_SET sockfd ∅;
  r ← sys (Select (sockfd + 1) [sockfd]);
  if rv r =? -1 then Exit 0 else
  if rv r =? 0 then (puts "client timeout." ≫= λ _, Ret recvline) else
  if bool_decide (sockfd ∈ (rfds r).*1) then
    r ← sys (Read sockfd MAXLINE);
    let recvline := ustore recvline (rdata r) in
    if rv r <=? 0 then
      _ ← puts "client: server is closed.";
      _ ← sys_ (Close sockfd);
      Exit 0
    else handle_recv_msg sockfd recvline ≫= λ _, Ret recvline
  else Ret recvline.

(** [main] up to the loop: thirty-two bytes of a literal of thirteen. *)
Definition main_setup : io Z :=
  r ← sys Socket;
  let sockfd := rv r in
  r ← sys (Connect sockfd PORT);
  if rv r <? 0 then (puts "connect fail,error:" ≫= λ _, Exit (-1)) else
  _ ← puts "client send to server .";
  _ ← write_literal sockfd "hello server" 32;
  Ret sockfd.
End Client.

(** The server from the head of its loop: the listening socket [srvfd] is open
    and no client is connected. *)
Definition select_server (fuel : nat) (srvfd : Z) : machine :=
  server (handle_client_proc fuel srvfd)
    (λ ctx k, ctx = server_init ∧ 0 <= srvfd < FD_SETSIZE ∧ kopen k = {[srvfd]}).

(** * The table of clients *)
Record table_inv (srvfd : Z) ctx (k : kern) : Prop := {
  inv_size : length (clifds ctx) = SIZE;
  inv_srv : srvfd ∈ kopen k;
  inv_cnt : 0 <= cli_cnt ctx;
  inv_slot : ∀ i fd, clifds ctx !! i = Some fd →
    fd = -1 ∨ 0 <= fd ∧ fd ≠ srvfd ∧ fd ∈ kopen k ∧ Z.of_nat i < cli_cnt ctx;
  inv_distinct : ∀ i j fd, clifds ctx !! i = Some fd → clifds ctx !! j = Some fd →
    fd ≠ -1 → i = j
}.

(** Peers that send less than a buffer at a time, and descriptors that fit in
    an [fd_set]. *)
Definition polite (r : result) : Prop := (length (rdata r) < 1024)%nat ∧ rv r < FD_SETSIZE.
Definition small_fds ctx : Prop := ∀ i fd, clifds ctx !! i = Some fd → fd < FD_SETSIZE.

Section table.
Context (srvfd : Z).
Implicit Types (ctx : server_context_st) (k : kern).

Lemma table_inv_ext ctx ctx' k k' :
  table_inv srvfd ctx k → clifds ctx = clifds ctx' → cli_cnt ctx = cli_cnt ctx' →
  kopen k = kopen k' → table_inv srvfd ctx' k'.
Proof. intros [] E1 E2 E3. split; rewrite <- ?E1, <- ?E2, <- ?E3; done. Qed.

(** Closing the client of a slot. *)
Lemma table_inv_close ctx k i fd r k' :
  table_inv srvfd ctx k → clifds ctx !! i = Some fd → 0 <= fd →
  kstep (Close fd) r k = Some k' → table_inv srvfd (set_slot i (-1) ctx) k'.
Proof.
  intros [Hsz Hsrv Hcnt Hslot Hd] Hi Hfd [_ ->]%kstep_Some.
  assert (kopen k ∖ {[fd]} ⊆ kopen (log (Close fd) r (effect (Close fd) r k))) as Hsub.
  { unfold effect. destruct (rv r =? -1); simpl; set_solver. }
  destruct (Hslot i fd Hi) as [-> | (_ & Hns & _ & _)]; [lia |].
  split; simpl.
  - by rewrite length_insert.
  - apply Hsub. set_solver.
  - done.
  - intros j fd' [(<- & <- & _) | (Hne & Hj)]%list_lookup_insert_Some; [by left |].
    destruct (Hslot j fd' Hj) as [-> | (H0 & H1 & H2 & H3)]; [by left | right].
    split_and!; [done | done | | done]. apply Hsub.
    assert (fd' ≠ fd) by (intros ->; apply Hne, (Hd _ _ fd); by lia || done). set_solver.
  - intros j1 j2 fd' [(<- & <- & _) | (Hne1 & Hj1)]%list_lookup_insert_Some; [by intros |].
    intros [(<- & <- & _) | (Hne2 & Hj2)]%list_lookup_insert_Some; [done |]. by eapply Hd.
Qed.

(** Entering a new client in the first free slot. *)
Lemma table_inv_add ctx k i x fd :
  table_inv srvfd ctx k → list_find (λ fd, fd < 0) (clifds ctx) = Some (i, x) →
  0 <= fd → fd ∉ kopen k →
  ∀ k', {[fd]} ∪ kopen k ⊆ kopen k' → table_inv srvfd (add_client (set_slot i fd ctx)) k'.
Proof.
  intros [Hsz Hsrv Hcnt Hslot Hd] (Hi & Hx & Hfirst)%list_find_Some Hfd Hfresh k' Hk.
  assert (Z.of_nat i <= cli_cnt ctx) as Hi'.
  { destruct i as [| i]; [lia |].
    destruct (lookup_lt_is_Some_2 (clifds ctx) i) as [y Hy].
    { apply lookup_lt_Some in Hi. lia. }
    destruct (Hslot i y Hy) as [-> | (_ & _ & _ & ?)]; [| lia].
    exfalso. by eapply (Hfirst i (-1) Hy); [lia |]. }
  split; simpl.
  - by rewrite length_insert.
  - set_solver.
  - lia.
  - intros j fd' [(<- & <- & _) | (Hne & Hj)]%list_lookup_insert_Some.
    + right. split_and!; [done | set_solver | set_solver | lia].
    + destruct (Hslot j fd' Hj) as [-> | (H0 & H1 & H2 & H3)]; [by left | right].
      split_and!; [done | done | set_solver | lia].
  - assert (∀ j, clifds ctx !! j = Some fd → False) as Hnew.
    { intros j Hj. destruct (Hslot _ _ Hj) as [? | (_ & _ & ? & _)]; [lia | done]. }
    intros j1 j2 fd' H1 H2 Hn.
    apply list_lookup_insert_Some in H1, H2. destruct H1 as [(E1 & F1 & _) | (Hne1 & Hj1)],
      H2 as [(E2 & F2 & _) | (Hne2 & Hj2)]; subst; try done; try (by exfalso; eapply Hnew).
    by eapply Hd.
Qed.
End table.

(** * One iteration keeps the table *)
Section loops.
Context (R : result → Prop) (ub : Prop) (srvfd : Z).
Hypothesis HR : ub ∨ ∀ r, R r → polite r.
Implicit Types (ctx : server_context_st) (k : kern).

Definition keeps ctx (x : server_context_st + Z) k : Prop :=
  match x with
  | inl ctx' => table_inv srvfd ctx' k ∧ cli_cnt ctx' = cli_cnt ctx ∧
      (small_fds ctx → small_fds ctx')
  | inr _ => False
  end.

Lemma wp_FD_ISSET fd s k Q :
  ub ∨ 0 <= fd < FD_SETSIZE → Q (inl (bool_decide (fd ∈ s))) k → wp (each R) ub (FD_ISSET fd s) k Q.
Proof.
  intros Hfd HQ. unfold FD_ISSET. destruct (fd_in_range fd) eqn:E; [done |].
  unfold fd_in_range in E. destruct Hfd; [done | lia].
Qed.

Lemma wp_FD_SET fd s k Q :
  ub ∨ 0 <= fd < FD_SETSIZE → Q (inl ({[fd]} ∪ s)) k → wp (each R) ub (FD_SET fd s) k Q.
Proof.
  intros Hfd HQ. unfold FD_SET. destruct (fd_in_range fd) eqn:E; [done |].
  unfold fd_in_range in E. destruct Hfd; [done | lia].
Qed.

Lemma wp_handle_client_msg fd buf k Q :
  ub ∨ NUL ∈ buf → (∀ k', kopen k' = kopen k → Q (inl tt) k') →
  wp (each R) ub (handle_client_msg fd buf) k Q.
Proof.
  intros Hb HQ. unfold handle_client_msg. wp_step. apply wp_printf_s; [tauto |]. intros r.
  wp_step. apply wp_io_ub.
  - destruct Hb as [| Hb]; [by left | right]. destruct (strlen buf) eqn:E; [done |].
    by apply strlen_None in E.
  - intros n _. wp_steps. by apply HQ.
Qed.

Lemma small_fds_clear i ctx : small_fds ctx → small_fds (set_slot i (-1) ctx).
Proof.
  intros Hs j fd [(_ & <- & _) | (_ & Hj)]%list_lookup_insert_Some; [done | by eapply Hs].
Qed.

Lemma recv_loop_keeps n i buf ctx k :
  table_inv srvfd ctx k → ub ∨ (i + n <= SIZE)%nat ∧ small_fds ctx ∧ terminated buf →
  wp (each R) ub (recv_loop n i buf ctx) k (keeps ctx).
Proof.
  revert i buf ctx k. induction n as [| n IH]; intros i buf ctx k Hinv Hok; simpl; [by split_and! |].
  assert (ub ∨ (S i + n <= SIZE)%nat ∧ small_fds ctx ∧ terminated buf) as Hnext.
  { destruct Hok as [| (? & ? & ?)]; [by left | right]. split_and!; [lia | done ..]. }
  wp_step. apply wp_io_ub.
  { destruct Hok as [| (? & _ & _)]; [by left | right]. apply lookup_lt_is_Some_2.
    rewrite (inv_size _ _ _ Hinv). lia. }
  intros clifd Hi. wp_step; [by apply IH |]. wp_step. apply wp_FD_ISSET.
  { destruct Hok as [| (_ & Hs & _)]; [by left | right]. specialize (Hs _ _ Hi). lia. }
  wp_step; [| by apply IH]. wp_steps.
  - assert (table_inv srvfd (set_slot i (-1) (set_allfds (FD_CLR clifd (allfds ctx)) ctx)) k0) as Hinv'.
    { refine (table_inv_close srvfd (set_allfds _ ctx) _ i clifd r0 k0 _ Hi _ Hk); [| lia].
      by eapply table_inv_ext. }
    eapply wp_mono; [| apply IH; [exact Hinv' |]].
    + intros [ctx' |] k'; [| done]. intros (? & ? & Hsm). split_and!; [done | done |].
      intros Hs. by apply Hsm, small_fds_clear.
    + destruct Hnext as [| (? & ? & ?)]; [by left |]. destruct HR as [| HR']; [by left | right].
      split_and!; [done | by apply small_fds_clear |]. apply terminated_store; [| done].
      by apply HR'.
  - assert (ub ∨ terminated (store buf (rdata r))) as Hbuf.
    { destruct Hnext as [| (? & ? & ?)]; [by left |]. destruct HR as [| HR']; [by left | right].
      apply terminated_store; [| done]. by apply HR'. }
    apply wp_handle_client_msg.
    { destruct Hbuf as [| Hbuf]; [by left | right]. by apply terminated_nul. }
    intros k' Hk'. simpl in Hk'. eapply IH.
    + by eapply table_inv_ext.
    + destruct Hnext as [| (? & ? & ?)]; [by left |]. destruct Hbuf; [by left | by right].
Qed.

Lemma watch_loop_keeps n i ctx k :
  table_inv srvfd ctx k → ub ∨ (i + n <= SIZE)%nat ∧ small_fds ctx →
  wp (each R) ub (watch_loop n i ctx) k (keeps ctx).
Proof.
  revert i ctx k. induction n as [| n IH]; intros i ctx k Hinv Hok; simpl; [by split_and! |].
  wp_step. apply wp_io_ub.
  { destruct Hok as [| (? & _)]; [by left | right]. apply lookup_lt_is_Some_2.
    rewrite (inv_size _ _ _ Hinv). lia. }
  intros clifd Hi.
  assert (ub ∨ (S i + n <= SIZE)%nat ∧ small_fds ctx) as Hnext.
  { destruct Hok as [| (? & ?)]; [by left | right]. split; [lia | done]. }
  wp_step. wp_step.
  - simpl. apply (IH (S i) (set_maxfd _ ctx)); [by eapply table_inv_ext | exact Hnext].
  - wp_step. apply wp_FD_SET.
    { destruct Hok as [| (_ & Hs)]; [by left | right]. specialize (Hs _ _ Hi).
      destruct (inv_slot _ _ _ Hinv i clifd Hi); lia. }
    simpl. apply (IH (S i) (set_maxfd _ (set_allfds _ ctx))); [by eapply table_inv_ext | exact Hnext].
Qed.

Lemma wp_accept_retry fuel k (Q : Z + Z → kern → Prop) :
  (∀ k', kopen k' = kopen k → Q (inl (-1)) k') →
  (∀ r k', R r → 0 <= rv r → rv r ∉ kopen k → kopen k' = {[rv r]} ∪ kopen k → Q (inl (rv r)) k') →
  wp (each R) ub (accept_retry fuel srvfd) k Q.
Proof.
  revert k. induction fuel as [| fuel IH]; intros k HQ1 HQ2; simpl; [done |].
  intros r k' Hr Hk. destruct (kstep_Accept _ _ _ _ Hk) as [(E & Ho & _) | (E1 & E2 & Ho & _)].
  - rewrite E. simpl. wp_step.
    + apply IH; [intros k''; rewrite Ho; apply HQ1 | intros r' k''; rewrite Ho; apply HQ2].
    + wp_steps. by apply HQ1.
  - destruct (Z.eqb_spec (rv r) (-1)); [lia |]. simpl. by apply HQ2.
Qed.

(** What an iteration may do to the table. *)
Definition iterates ctx (x : server_context_st + Z) k : Prop :=
  match x with
  | inl ctx' => table_inv srvfd ctx' k ∧ cli_cnt ctx <= cli_cnt ctx' <= cli_cnt ctx + 1 ∧
      ((∀ r, R r → polite r) → small_fds ctx → small_fds ctx')
  | inr _ => True
  end.

Lemma accept_iterates fuel ctx k :
  table_inv srvfd ctx k →
  wp (each R) ub (accept_client_proc fuel srvfd ctx ≫= λ x, Ret x.2) k (iterates ctx).
Proof.
  intros Hinv. wp_step. unfold accept_client_proc. wp_steps. apply wp_accept_retry.
  - intros k' Hk. simpl. split_and!; [by eapply table_inv_ext | lia..| done].
  - intros r' k' Hr H0 Hfresh Hk. destruct (Z.eqb_spec (rv r') (-1)); [lia |]. wp_steps.
    destruct (list_find (λ fd, fd < 0) (clifds ctx)) as [[i x] |] eqn:E; wp_steps.
    + split_and!; [| simpl; lia .. |].
      * eapply table_inv_add; try done. simpl. by rewrite Hk.
      * intros Hp Hs j fd [(_ & <- & _) | (_ & Hj)]%list_lookup_insert_Some; [by apply Hp | by eapply Hs].
    + split_and!; [| lia .. | done]. destruct Hinv as [I1 I2 I3 I4 I5]. simpl in Hk. split; simpl; try done.
      * rewrite Hk. set_solver.
      * intros j fd Hj. destruct (I4 j fd Hj) as [? | (? & ? & ? & ?)]; [by left | right].
        rewrite Hk. set_solver.
Qed.

Lemma handle_client_proc_iterates fuel ctx k :
  0 <= srvfd < FD_SETSIZE → table_inv srvfd ctx k → ub ∨ cli_cnt ctx <= 9 ∧ small_fds ctx →
  wp (each R) ub (handle_client_proc fuel srvfd ctx) k (iterates ctx).
Proof.
  intros Hsrv Hinv Hok. unfold handle_client_proc. wp_step. apply wp_FD_SET; [by right |].
  set (ctx0 := set_maxfd _ _). wp_step.
  assert (table_inv srvfd ctx0 k) as Hinv0 by by eapply table_inv_ext.
  eapply wp_mono; [| apply (watch_loop_keeps _ _ ctx0 k Hinv0)].
  2: { destruct Hok as [| (? & ?)]; [by left | right]. split; [| done].
    change (cli_cnt ctx0) with (cli_cnt ctx). unfold SIZE. lia. }
  intros [ctx1 | e] k1; [| done]. intros (Hinv1 & Hcnt1 & Hsm1). wp_steps.
  1: done.
  1: { split_and!; [by eapply table_inv_ext | simpl in *; lia .. |]. intros _ Hs. by apply Hsm1. }
  set (ctx2 := set_allfds _ ctx1).
  assert (table_inv srvfd ctx2 (log (Select (maxfd ctx1 + 1) (elements (allfds ctx1))) r k1)) as Hinv2
    by by eapply table_inv_ext.
  assert (∀ x k', iterates ctx2 x k' → iterates ctx x k') as Hit.
  { intros [ctx' |] k'; [| done]. intros (? & ? & Hs). simpl in *.
    split_and!; [done | lia .. |]. intros Hp Hs'. apply Hs; [done |]. by apply Hsm1. }
  apply wp_FD_ISSET; [by right |]. wp_step.
  - eapply wp_mono; [exact Hit |]. by apply accept_iterates.
  - eapply wp_mono; [| apply (recv_loop_keeps _ 0 _ ctx2); [exact Hinv2 |]].
    + intros [ctx' |] k'; [| done]. intros (? & ? & Hs). apply Hit.
      split_and!; [done | lia .. |]. intros _. exact Hs.
    + destruct Hok as [| (? & ?)]; [by left | right]. simpl in *.
      change (cli_cnt ctx2) with (cli_cnt ctx1). change (cli_cnt ctx0) with (cli_cnt ctx) in Hcnt1.
      split_and!; [unfold SIZE; lia | by apply Hsm1 | apply terminated_zeros].
Qed.
End loops.

(** * What the server answers *)

(** Serving one client: what it sent goes into the shared buffer, and it gets
    the C string the buffer now starts with. *)
Lemma recv_loop_serve n i buf ctx k fd d s w rs r0 :
  clifds ctx !! i = Some fd → 0 <= fd < FD_SETSIZE → fd ∈ allfds ctx → fd ∈ kopen k →
  d ≠ [] → (length d <= 1024)%nat → c_string (store buf d) = Some s →
  0 <= w <= Z.of_nat (length s) + 1 →
  ∃ k', run (recv_loop (S n) i buf ctx) (got d :: r0 :: ok w :: rs) k =
        run (recv_loop n (S i) (store buf d) ctx) rs k' ∧
    kopen k' = kopen k ∧
    ktrace k' = (Write fd (s ++ [NUL]), ok w) :: (Printf (text "recv buf is :" ++ s ++ text ""), r0) ::
      (Read fd MAXLINE, got d) :: ktrace k.
Proof.
  intros Hi Hfd Hset Hopen Hd Hlen Hs Hw. destruct (c_string_Some _ _ Hs) as [Hn Ht].
  eexists. split_and!; [| | ].
  - cbn [recv_loop]. rewrite run_bind, Hi. cbn [io_ub run].
    destruct (Z.ltb_spec fd 0); [lia |]. rewrite run_bind. unfold FD_ISSET, fd_in_range.
    rewrite (proj2 (Z.leb_le 0 fd)), (proj2 (Z.ltb_lt fd _)) by lia. cbn [andb run].
    rewrite bool_decide_true by done. rewrite run_bind. unfold sys.
    rewrite run_read by (done || unfold MAXLINE; lia). cbn [run rdata rv got].
    destruct (Z.leb_spec (Z.of_nat (length d)) 0); [destruct d; simpl in *; [done | lia] |].
    rewrite run_bind. unfold handle_client_msg. rewrite run_bind, (run_printf_s _ _ _ _ _ _ _ Hs).
    rewrite run_bind, Hn. cbn [io_ub run]. unfold sys_. rewrite Ht.
    rewrite run_write; [reflexivity | done |]. rewrite length_app. simpl. lia.
  - done.
  - done.
Qed.

(** A client that sent nothing is passed over. *)
Lemma recv_loop_skip n i buf ctx fd rs k :
  clifds ctx !! i = Some fd → fd = -1 ∨ 0 <= fd < FD_SETSIZE ∧ fd ∉ allfds ctx →
  run (recv_loop (S n) i buf ctx) rs k = run (recv_loop n (S i) buf ctx) rs k.
Proof.
  intros Hi Hfd. cbn [recv_loop]. rewrite run_bind, Hi. cbn [io_ub run].
  destruct (Z.ltb_spec fd 0) as [| Hpos]; [done |]. destruct Hfd as [| [Hr Hset]]; [lia |].
  rewrite run_bind. unfold FD_ISSET, fd_in_range.
  rewrite (proj2 (Z.leb_le 0 fd)), (proj2 (Z.ltb_lt fd _)) by lia. cbn [andb run].
  by rewrite bool_decide_false by done.
Qed.

(** A run of slots that sent nothing. *)
Lemma recv_loop_skips m n i buf ctx rs k :
  (∀ j, (i <= j < i + m)%nat → ∃ fd, clifds ctx !! j = Some fd ∧
     (fd = -1 ∨ 0 <= fd < FD_SETSIZE ∧ fd ∉ allfds ctx)) →
  run (recv_loop (m + n) i buf ctx) rs k = run (recv_loop n (i + m) buf ctx) rs k.
Proof.
  revert i. induction m as [| m IH]; intros i Hskip; simpl; [by rewrite Nat.add_0_r |].
  destruct (Hskip i) as (fd & Hi & Hfd); [lia |].
  change (run (recv_loop (S (m + n)) i buf ctx) rs k = run (recv_loop n (i + S m) buf ctx) rs k).
  rewrite (recv_loop_skip _ _ _ _ fd) by done.
  rewrite IH; [f_equal; f_equal; lia |]. intros j Hj. apply Hskip. lia.
Qed.

Section answers.
Context (srvfd : Z) (ctx : server_context_st) (k : kern).
Hypothesis Hinv : table_inv srvfd ctx k.
Hypothesis Hcnt : cli_cnt ctx <= 9.
Hypothesis Hsmall : small_fds ctx.

(** The slots whose clients are not ready are passed over. *)
Lemma skip_others (fds : gset Z) j :
  (j < SIZE)%nat → allfds ctx = fds →
  (∀ fd, clifds ctx !! j = Some fd → fd ≠ -1 → fd ∉ fds) →
  ∃ fd, clifds ctx !! j = Some fd ∧
    (fd = -1 ∨ 0 <= fd < FD_SETSIZE ∧ fd ∉ allfds ctx).
Proof.
  intros Hj Hs Hother. destruct (lookup_lt_is_Some_2 (clifds ctx) j) as [fd Hfd].
  { by rewrite (inv_size _ _ _ Hinv). }
  exists fd. split; [done |]. rewrite Hs.
  destruct (inv_slot _ _ _ Hinv j fd Hfd) as [-> | (? & _ & _ & _)]; [by left | right].
  specialize (Hsmall j fd Hfd). split; [lia |]. apply (Hother fd Hfd). lia.
Qed.

Lemma live_slot i fd :
  clifds ctx !! i = Some fd → fd ≠ -1 →
  0 <= fd < FD_SETSIZE ∧ fd ∈ kopen k ∧ Z.of_nat i < cli_cnt ctx.
Proof.
  intros Hi Hfd. destruct (inv_slot _ _ _ Hinv i fd Hi) as [| (? & _ & ? & ?)]; [done |].
  specialize (Hsmall i fd Hi). split_and!; [lia | done | done | done].
Qed.
End answers.

Lemma server_init_slot i fd : clifds server_init !! i = Some fd → fd = -1.
Proof. intros [-> _]%lookup_replicate_1. done. Qed.

Lemma server_init_inv srvfd k : kopen k = {[srvfd]} → table_inv srvfd server_init k.
Proof.
  intros Hk. split.
  - done.
  - rewrite Hk. set_solver.
  - done.
  - intros i fd ->%server_init_slot. by left.
  - intros i j fd ->%server_init_slot _ Hfd. done.
Qed.

(** * The properties *)

(** C27. The table of clients: in every reachable state, whatever the clients
    and the kernel do, it has its ten slots, a client sits in one slot only,
    its descriptor is open, and its slot is below [cli_cnt], so that the loops
    of [handle_client_proc] and [recv_client_msg] see every client. *)
Theorem select_table fuel srvfd (p : mstate (select_server fuel srvfd)) ctx :
  reachable p → pstate p = inl ctx → table_inv srvfd ctx (pkern p).
Proof.
  intros (p0 & Hi & Hr)%reachable_anything Hp.
  pose (I := λ (x : server_context_st + Z) k, 0 <= srvfd < FD_SETSIZE ∧
    match x with inl ctx => table_inv srvfd ctx k | inr _ => True end).
  enough (I (pstate p) (pkern p)) as [_ H] by by rewrite Hp in H.
  eapply (server_invariant _ _ anything I); [| | exact Hi | exact Hr]; unfold I.
  - intros ctx0 k (-> & ? & Hk). split; [done |].
    by apply server_init_inv.
  - intros ctx0 k [Hs Hinv]. eapply wp_mono; [| apply (handle_client_proc_iterates anything True); auto].
    intros [ctx' |] k'; [| done]. by intros (? & _).
Qed.

(** The states reached when the clients are polite. *)
Definition select_polite fuel srvfd (p : mstate (select_server fuel srvfd)) : Prop :=
  ∃ p0, minit (select_server fuel srvfd) p0 ∧
    rtc (msteps (select_server fuel srvfd) (Forall polite)) p0 p.

Lemma select_polite_inv fuel srvfd (p : mstate (select_server fuel srvfd)) ctx :
  select_polite fuel srvfd p → pstate p = inl ctx →
  0 <= srvfd < FD_SETSIZE ∧ table_inv srvfd ctx (pkern p) ∧ small_fds ctx.
Proof.
  intros (p0 & Hi & Hr) Hp.
  pose (I := λ (x : server_context_st + Z) k, 0 <= srvfd < FD_SETSIZE ∧
    match x with inl ctx => table_inv srvfd ctx k ∧ small_fds ctx | inr _ => True end).
  enough (I (pstate p) (pkern p)) as [? H] by by rewrite Hp in H.
  eapply (server_invariant _ _ polite I); [| | exact Hi | exact Hr]; unfold I.
  - intros ctx0 k (-> & ? & Hk). split; [done |]. split; [by apply server_init_inv |].
    intros i fd ->%server_init_slot. done.
  - intros ctx0 k (Hs & Hinv & Hsm).
    eapply wp_mono; [| apply (handle_client_proc_iterates polite True); auto].
    intros [ctx' |] k'; [| done]. intros (? & _ & Hsm'). auto.
Qed.

(** C12. Up to nine accepted connections the server is safe: with peers that
    send less than 1024 bytes at a time and descriptors that fit in an
    [fd_set], no iteration reads past the table, past a descriptor set or past
    the end of a string. *)
Theorem select_safe fuel srvfd (p : mstate (select_server fuel srvfd)) ctx rs :
  select_polite fuel srvfd p → pstate p = inl ctx → cli_cnt ctx <= 9 → Forall polite rs →
  mstep (select_server fuel srvfd) rs p ≠ UB.
Proof.
  intros Hr Hp Hcnt Hrs. destruct (select_polite_inv _ _ _ _ Hr Hp) as (? & Hinv & Hsm).
  apply (server_safe _ _ polite); [| done]. intros ctx' Hp'. rewrite Hp in Hp'. injection Hp' as <-.
  eexists. apply (handle_client_proc_iterates polite False); auto.
Qed.

Lemma recv_loop_overruns n i buf ctx rs k ctx' rest :
  length (clifds ctx) = SIZE → (i <= SIZE < i + n)%nat → run (recv_loop n i buf ctx) rs k ≠ Ok (inl ctx', rest.1, rest.2).
Proof.
  revert i buf ctx rs k. induction n as [| n IH]; intros i buf ctx rs k Hlen Hi; [lia |].
  destruct (clifds ctx !! i) as [fd |] eqn:E; cbn [recv_loop]; rewrite run_bind, E; cbn [io_ub run]; [| done].
  apply lookup_lt_Some in E. assert (S i <= SIZE < S i + n)%nat as Hi' by lia.
  destruct (fd <? 0); [by apply IH |]. rewrite run_bind. unfold FD_ISSET.
  destruct (fd_in_range fd); cbn [run]; [| done].
  destruct (bool_decide _); [| by apply IH]. rewrite run_bind. unfold sys. cbn [run].
  destruct rs as [| r rs]; [done |]. destruct (kstep _ r k) as [k1 |]; [| done].
  destruct (rv r <=? 0).
  - rewrite run_bind. unfold sys_. cbn [run]. destruct rs as [| r1 rs]; [done |].
    destruct (kstep _ r1 k1) as [k2 |]; [| done]. apply IH; [| done]. simpl. by rewrite length_insert.
  - rewrite run_bind. destruct (run _ rs k1) as [[[[] rs'] k2] | |]; [by apply IH | done | done | done].
Qed.
(** [cli_cnt] counts the connections ever accepted and is never decreased,
    and [recv_client_msg] reads the slots up to [cli_cnt] included: once ten
    connections have been accepted, even if all of them are closed, no call of
    [recv_client_msg] completes: each reads past [clifds]. *)
Theorem select_overruns ctx rs k ctx' rs' k' :
  length (clifds ctx) = SIZE → cli_cnt ctx >= 10 →
  run (recv_client_msg ctx) rs k ≠ Ok (inl ctx', rs', k').
Proof.
  intros Hlen Hcnt. apply (recv_loop_overruns _ _ _ _ _ _ ctx' (rs', k')); [done |].
  unfold SIZE. lia.
Qed.

(** A round in which one client has sent a message (shorter than the
    buffer, without NUL) answers that client, and nobody else, with exactly
    that message and its NUL. *)
Theorem select_answers srvfd ctx k i fd d r0 w :
  table_inv srvfd ctx k → cli_cnt ctx <= 9 → small_fds ctx →
  clifds ctx !! i = Some fd → fd ≠ -1 → allfds ctx = {[fd]} →
  d ≠ [] → NUL ∉ d → (length d < 1024)%nat → 0 <= w <= Z.of_nat (length d) + 1 →
  ∃ k', run (recv_client_msg ctx) [got d; r0; ok w] k = Ok (inl ctx, [], k') ∧
    kopen k' = kopen k ∧
    ktrace k' = [(Write fd (d ++ [NUL]), ok w); (Printf (text "recv buf is :" ++ d ++ text ""), r0);
      (Read fd MAXLINE, got d)] ++ ktrace k.
Proof.
  intros Hinv Hcnt Hsm Hi Hfd Hset Hd Hnul Hlen Hw.
  destruct (live_slot srvfd ctx k Hinv Hsm i fd Hi Hfd) as (Hr & Hopen & Hlt).
  assert (∀ j, (j < SIZE)%nat → j ≠ i → ∃ fd, clifds ctx !! j = Some fd ∧
    (fd = -1 ∨ 0 <= fd < FD_SETSIZE ∧ fd ∉ allfds ctx)) as Hothers.
  { intros j Hj Hji. apply (skip_others srvfd ctx k Hinv Hsm {[fd]}); [done | done |].
    intros fd' Hj' Hn ->%elem_of_singleton. by apply Hji, (inv_distinct _ _ _ Hinv _ _ fd). }
  destruct (recv_loop_serve (Z.to_nat (cli_cnt ctx) - i) i (zeros (Z.to_nat MAXLINE)) ctx k fd d d w [] r0)
    as (k' & Hrun & Ho & Ht); try done.
  { set_solver. }
  { lia. }
  { by apply c_string_store. }
  exists k'. split_and!; [| done | done]. unfold recv_client_msg.
  replace (Z.to_nat (cli_cnt ctx + 1)) with (i + S (Z.to_nat (cli_cnt ctx) - i))%nat by lia.
  rewrite recv_loop_skips by (intros j Hj; apply Hothers; unfold SIZE; lia). simpl plus.
  rewrite Hrun. rewrite <- (Nat.add_0_r (Z.to_nat (cli_cnt ctx) - i)).
  rewrite recv_loop_skips by (intros j Hj; apply Hothers; unfold SIZE; lia). done.
Qed.

(** Clients of one round share the buffer, which is not cleared between
    them: when the client of a later slot sends a shorter message without NUL,
    its answer ends with the rest of the earlier client's message. *)
Theorem select_leaks srvfd ctx k i j f1 f2 d1 d2 r1 r2 w1 w2 :
  table_inv srvfd ctx k → cli_cnt ctx <= 9 → small_fds ctx →
  clifds ctx !! i = Some f1 → clifds ctx !! j = Some f2 → f1 ≠ -1 → f2 ≠ -1 → (i < j)%nat →
  allfds ctx = {[f1; f2]} →
  NUL ∉ d1 → NUL ∉ d2 → d2 ≠ [] → (length d2 < length d1 < 1024)%nat →
  0 <= w1 <= Z.of_nat (length d1) + 1 → 0 <= w2 <= Z.of_nat (length d1) + 1 →
  ∃ k' earlier, run (recv_client_msg ctx) [got d1; r1; ok w1; got d2; r2; ok w2] k = Ok (inl ctx, [], k') ∧
    ktrace k' = (Write f2 (d2 ++ drop (length d2) d1 ++ [NUL]), ok w2) :: earlier.
Proof.
  intros Hinv Hcnt Hsm Hi Hj Hf1 Hf2 Hij Hset Hn1 Hn2 Hd2 Hlen Hw1 Hw2.
  destruct (live_slot srvfd ctx k Hinv Hsm i f1 Hi Hf1) as (Hr1 & Ho1 & Hlt1).
  destruct (live_slot srvfd ctx k Hinv Hsm j f2 Hj Hf2) as (Hr2 & Ho2 & Hlt2).
  assert (∀ l, (l < SIZE)%nat → l ≠ i → l ≠ j → ∃ fd, clifds ctx !! l = Some fd ∧
    (fd = -1 ∨ 0 <= fd < FD_SETSIZE ∧ fd ∉ allfds ctx)) as Hothers.
  { intros l Hl Hli Hlj. apply (skip_others srvfd ctx k Hinv Hsm {[f1; f2]}); [done | done |].
    intros fd' Hl' Hn [->%elem_of_singleton | ->%elem_of_singleton]%elem_of_union.
    - by apply Hli, (inv_distinct _ _ _ Hinv _ _ f1).
    - by apply Hlj, (inv_distinct _ _ _ Hinv _ _ f2). }
  set (rest := (Z.to_nat (cli_cnt ctx) - j)%nat).
  destruct (recv_loop_serve ((j - S i) + S rest) i (zeros (Z.to_nat MAXLINE)) ctx k f1 d1 d1 w1
    [got d2; r2; ok w2] r1) as (k1 & Hrun1 & Hopen1 & _); try done.
  { set_solver. }
  { intros ->. simpl in *. lia. }
  { lia. }
  { apply c_string_store; [done | unfold MAXLINE; lia]. }
  destruct (recv_loop_serve rest j (store (zeros (Z.to_nat MAXLINE)) d1) ctx k1 f2 d2
    (d2 ++ drop (length d2) d1) w2 [] r2) as (k2 & Hrun2 & _ & Ht2); try done.
  { set_solver. }
  { by rewrite Hopen1. }
  { lia. }
  { apply c_string_stale; [done | done | unfold MAXLINE; lia ..]. }
  { rewrite length_app, length_drop. lia. }
  exists k2, (tail (ktrace k2)). split.
  - unfold recv_client_msg.
    replace (Z.to_nat (cli_cnt ctx + 1)) with (i + S ((j - S i) + S rest))%nat by lia.
    rewrite recv_loop_skips by (intros l Hl; apply Hothers; unfold SIZE; lia). simpl plus.
    rewrite Hrun1. rewrite recv_loop_skips by (intros l Hl; apply Hothers; unfold SIZE; lia).
    replace (S i + (j - S i))%nat with j by lia. rewrite Hrun2.
    rewrite <- (Nat.add_0_r rest).
    rewrite recv_loop_skips by (intros l Hl; apply Hothers; unfold SIZE; lia). done.
  - rewrite Ht2. simpl. by rewrite <- app_assoc.
Qed.

(** The client's first message reads past its literal. *)
Lemma client_overreads fd r k :
  0 <= fd → fd ∉ kopen k → run Client.main_setup [ok fd; ok 0; r] k = UB.
Proof.
  intros Hfd Hk. unfold Client.main_setup, sys, puts, sys_.
  rewrite run_bind, run_socket by done. cbn [run].
  rewrite run_bind, (run_done _ fd) by (done || set_solver). cbn [run rv ok].
  change (0 <? 0) with false. cbn iota. rewrite run_bind, run_printf. reflexivity.
Qed.

(** * Concrete runs *)

(** The listening socket is descriptor 3. *)
Definition start : process server_context_st := Process (inl server_init) (Kern {[3]} ∅ []).

(** A connection is accepted as descriptor [fd]. *)
Definition connects (fd : Z) : list result := [ready [(3, 1)]; ok 0; ok fd; ok 0].
(** The client on descriptor [fd] closes its end. *)
Definition hangs_up (fd : Z) : list result := [ready [(fd, 1)]; got []; ok 0].

Lemma start_init fuel : minit (select_server fuel 3) start.
Proof. exists server_init, (Kern {[3]} ∅ []). by split. Qed.

(** Two clients, on descriptors 4 and 5. *)
Definition two_clients : list (list result) := [connects 4; connects 5].

Definition two_clients_state : process server_context_st :=
  Eval vm_compute in match exec (select_server 1 3) two_clients start with Ok p => p | _ => start end.

Ltac all_polite :=
  repeat apply Forall_cons_2; [split; unfold FD_SETSIZE; simpl; lia .. | apply Forall_nil_2].

Lemma two_clients_polite : select_polite 1 3 two_clients_state.
Proof.
  exists start. split; [apply start_init |].
  eapply rtc_l; [exists (connects 4); split; [all_polite | vm_compute; reflexivity] |].
  eapply rtc_l; [exists (connects 5); split; [all_polite | vm_compute; reflexivity] |].
  apply rtc_refl.
Qed.

(** Both clients have sent something. *)
Definition both_ready : server_context_st :=
  Context_st 2 ([4; 5] ++ replicate 8 (-1)) {[4; 5]} 5.

Lemma both_ready_ok : table_inv 3 both_ready (pkern two_clients_state) ∧ small_fds both_ready.
Proof.
  destruct (select_polite_inv 1 3 two_clients_state _ two_clients_polite eq_refl) as (_ & Hinv & Hs).
  split; [by eapply table_inv_ext | exact Hs].
Qed.

Lemma select_table_witness :
  ∃ p : mstate (select_server 1 3), reachable p ∧
    table_inv 3 (Context_st 2 ([4; 5] ++ replicate 8 (-1)) {[3]} 4) (pkern p).
Proof.
  eexists. assert (reachable (M := select_server 1 3) _) as Hr
    by (eapply (exec_reachable (select_server 1 3) two_clients start _ (start_init 1)); vm_compute; reflexivity).
  split; [exact Hr |]. apply (select_table 1 3 _ _ Hr). vm_compute. reflexivity.
Defined.

Lemma select_safe_witness :
  ∃ p, select_polite 1 3 p ∧ mstep (select_server 1 3) (hangs_up 4) p ≠ UB.
Proof.
  exists two_clients_state. split; [exact two_clients_polite |].
  refine (select_safe 1 3 two_clients_state _ (hangs_up 4) two_clients_polite eq_refl _ _).
  - vm_compute. discriminate.
  - all_polite.
Defined.

(** Ten connections, nine of them closed again, and a message from the tenth:
    undefined behaviour, although a single client is connected. *)
Lemma select_overruns_witness :
  ∃ p ctx, reachable (M := select_server 1 3) p ∧ pstate p = inl ctx ∧
    cli_cnt ctx = 10 ∧ clifds ctx = 4 :: replicate 9 (-1) ∧
    mstep (select_server 1 3) [ready [(4, 1)]; got (text "hi"); ok 0; ok 3] p = UB ∧
    ∀ rs k ctx' rs' k', run (recv_client_msg ctx) rs k ≠ Ok (inl ctx', rs', k').
Proof.
  do 2 eexists. split_and!.
  - eapply (exec_reachable (select_server 1 3)
      (concat (replicate 9 [connects 4; hangs_up 4]) ++ [connects 4]) start _ (start_init 1)).
    vm_compute. reflexivity.
  - reflexivity.
  - reflexivity.
  - reflexivity.
  - vm_compute. reflexivity.
  - intros rs k ctx' rs' k'. apply select_overruns; [reflexivity |]. simpl. lia.
Defined.

Lemma select_answers_witness :
  ∃ ctx k k', table_inv 3 ctx k ∧ clifds ctx !! 1%nat = Some 5 ∧
    run (recv_client_msg ctx) [got (text "hello"); ok 0; ok 6] k = Ok (inl ctx, [], k') ∧
    head (ktrace k') = Some (Write 5 (text "hello" ++ [NUL]), ok 6).
Proof.
  exists (set_allfds {[5]} both_ready), (pkern two_clients_state).
  destruct both_ready_ok as [Hinv Hs].
  assert (table_inv 3 (set_allfds {[5]} both_ready) (pkern two_clients_state)) as Hinv'
    by by eapply table_inv_ext.
  destruct (select_answers 3 _ _ 1 5 (text "hello") (ok 0) 6 Hinv') as (k' & Hrun & _ & Ht);
    try done; try (by vm_compute); try (simpl; lia).
  { apply (bool_decide_unpack _). vm_compute. exact I. }
  exists k'. split_and!; [done | done | exact Hrun | by rewrite Ht].
Defined.

Lemma select_leaks_witness :
  ∃ k' earlier, run (recv_client_msg both_ready)
      [got (text "my password"); ok 0; ok 12; got (text "hi"); ok 0; ok 12]
      (pkern two_clients_state) = Ok (inl both_ready, [], k') ∧
    ktrace k' = (Write 5 (text "hi password" ++ [NUL]), ok 12) :: earlier.
Proof.
  destruct both_ready_ok as [Hinv Hs].
  apply (select_leaks 3 both_ready _ 0 1 4 5 (text "my password") (text "hi")); try done;
    try (simpl; lia); apply (bool_decide_unpack _); vm_compute; exact I.
Defined.
