(* ===== verification/PollServer.v ===== *)
(** [code/network/IO/multiplexing/via_poll]: the echo server that keeps its
    clients in an array of 1000 [pollfd] and waits for them with [poll], and
    its client.  One iteration of the loop of [do_poll] is one step. *)

From S2P Require Import Prelude Posix.

Local Open Scope Z_scope.

Definition PORT : Z := 8787.
Definition MAXLINE : Z := 1024.
Definition LISTENQ : Z := 5.
Definition OPEN_MAX : nat := 1000.
Definition STDOUT_FILENO : Z := 1.

(** [clientfds] is not initialised beyond the [fd] fields: [None] stands for an
    indeterminate field. *)
Record pollfd := Pollfd { fd : Z; events : option Z; revents : option bool }.
Definition POLLIN : Z := 1.

Record poll_state := PollState { clientfds : list pollfd; maxi : nat }.

Definition socket_bind (port : Z) : io Z :=
  r ← sys Socket;
  let listenfd := rv r in
  if listenfd =? -1 then (puts "socket error:" ≫= λ _, Exit 1) else
  r ← sys (Bind listenfd port);
  if rv r =? -1 then (puts "bind error: " ≫= λ _, Exit 1) else
  Ret listenfd.

Definition init_table (listenfd : Z) : poll_state :=
  PollState (Pollfd listenfd (Some POLLIN) None :: replicate (OPEN_MAX - 1) (Pollfd (-1) None None)) 0.

(** [main] and [do_poll] up to the loop. *)
Definition main_setup : io poll_state :=
  listenfd ← socket_bind PORT;
  _ ← sys_ (Listen listenfd LISTENQ);
  Ret (init_table listenfd).

(** The kernel stores the returned events in the entries it was given. *)
Definition set_revents (rdy : list Z) (e : pollfd) : pollfd :=
  Pollfd (fd e) (events e) (Some (bool_decide (0 <= fd e ∧ fd e ∈ rdy))).
Definition poll_returns (rdy : list Z) (st : poll_state) : poll_state :=
  PollState ((set_revents rdy <$> take (maxi st + 1) (clientfds st)) ++ drop (maxi st + 1) (clientfds st))
    (maxi st).

Definition close_slot (e : pollfd) : pollfd := Pollfd (-1) (events e) (revents e).

(** The loop of [handle_connection] from entry [i], [n] entries to go. *)
Fixpoint handle_loop (n i : nat) (st : poll_state) : io poll_state :=
  match n with
  | O => Ret st
  | S n =>
      e ← io_ub (clientfds st !! i);
      if fd e <? 0 then handle_loop n (S i) st else
      rdy ← io_ub (revents e);
      if rdy : bool then
        r ← sys (Read (fd e) MAXLINE);
        if rv r =? 0 then
          _ ← sys_ (Close (fd e));
          handle_loop n (S i) (PollState (<[i:=close_slot e]> (clientfds st)) (maxi st))
        else
          (* [write] takes the number of bytes as a [size_t] *)
          _ ← sys_ (if rv r <? 0 then WriteBad STDOUT_FILENO else Write STDOUT_FILENO (rdata r));
          _ ← sys_ (if rv r <? 0 then WriteBad (fd e) else Write (fd e) (rdata r));
          handle_loop n (S i) st
      else handle_loop n (S i) st
  end.

Definition handle_connection (st : poll_state) : io poll_state := handle_loop (maxi st) 1 st.

(** Lines 104-120: the first free entry from 1 on. *)
Definition enter_client (connfd : Z) (st : poll_state) : option poll_state :=
  match list_find (λ e, fd e < 0) (tail (clientfds st)) with
  | Some (j, e) =>
      Some (PollState (<[S j:=Pollfd connfd (Some POLLIN) (revents e)]> (clientfds st))
              (Nat.max (S j) (maxi st)))
  | None => None
  end.

(** One iteration of the loop of [do_poll]. *)
Definition do_poll (listenfd : Z) (st : poll_state) : io poll_state :=
  r ← sys (Poll (fd <$> take (maxi st + 1) (clientfds st)));
  let nready := rv r in
  if nready =? -1 then (puts "poll error:" ≫= λ _, Exit 1) else
  let st := poll_returns (rfds r).*1 st in
  e0 ← io_ub (clientfds st !! 0%nat);
  rdy ← io_ub (revents e0);
  if rdy : bool then
    r ← sys (Accept listenfd);
    if rv r =? -1 then
      if rerrno r =? EINTR then Ret st else (puts "accept error:" ≫= λ _, Exit 1)
    else
    _ ← puts "accept a new client: ";
    match enter_client (rv r) st with
    | None => puts "too many clients." ≫= λ _, Exit 1
    | Some st => if nready - 1 <=? 0 then Ret st else handle_connection st
    end
  else handle_connection st.

(** The server from the head of its loop: the standard descriptors and the
    listening socket are open, and nothing has been read or written. *)
Definition poll_server (listenfd : Z) : machine :=
  server (do_poll listenfd)
    (λ st k, st = init_table listenfd ∧ kopen k = {[0; 1; 2; listenfd]} ∧ 3 <= listenfd ∧ ktrace k = []).

(** * The client *)
Module Client.
(** One iteration of [handle_connection]: [poll] on the socket and on the
    standard input; the loop has no way out. *)
Definition handle_connection (sockfd : Z) : io unit :=
  r ← sys (Poll [sockfd; 0]);
  _ ← (if bool_decide (sockfd ∈ (rfds r).*1) then
    r ← sys (Read sockfd MAXLINE);
    _ ← (if rv r =? 0 then
           _ ← puts "client: server is closed."; sys_ (Close sockfd)
         else Ret tt);
    sys_ (if rv r <? 0 then WriteBad STDOUT_FILENO else Write STDOUT_FILENO (rdata r))
  else Ret tt);
  if bool_decide (0 ∈ (rfds r).*1) then
    r ← sys (Read 0 MAXLINE);
    if rv r =? 0 then sys_ (Shutdown sockfd)
    else sys_ (if rv r <? 0 then WriteBad sockfd else Write sockfd (rdata r))
  else Ret tt.

Definition client (sockfd : Z) : machine :=
  server (λ _ : unit, handle_connection sockfd)
    (λ _ k, kopen k = {[0; 1; 2; sockfd]} ∧ 3 <= sockfd ∧ ktrace k = []).
End Client.

(** * Invariants of the server *)
Section server.
Context (listenfd : Z).
Implicit Types (st : poll_state) (k : kern).

(** The table of connections. *)
Record table_inv st k : Prop := {
  inv_size : length (clientfds st) = OPEN_MAX;
  inv_maxi : (maxi st < OPEN_MAX)%nat;
  inv_open : {[0; 1; 2; listenfd]} ⊆ kopen k;
  inv_zero : ∃ e, clientfds st !! 0%nat = Some e ∧ fd e = listenfd ∧ events e = Some POLLIN;
  inv_slot : ∀ i e, clientfds st !! S i = Some e →
    fd e = -1 ∨ 3 <= fd e ∧ fd e ≠ listenfd ∧ fd e ∈ kopen k ∧ events e = Some POLLIN ∧ (S i <= maxi st)%nat;
  inv_distinct : ∀ i j e1 e2, clientfds st !! i = Some e1 → clientfds st !! j = Some e2 →
    fd e1 = fd e2 → fd e1 ≠ -1 → i = j
}.

(** Every byte read from a client is given to [write], once, for that client,
    in order, and printed. *)
Record echo_inv k : Prop := {
  inv_echo : ∀ f, f ≠ STDOUT_FILENO → sent_to f (ktrace k) = received_from f (ktrace k);
  inv_stdout : sent_to STDOUT_FILENO (ktrace k) = received_all (ktrace k)
}.

Definition good st k : Prop := 3 <= listenfd ∧ table_inv st k ∧ echo_inv k.

(** The entries up to [maxi] that [poll] has filled in. *)
Definition polled st : Prop :=
  ∀ i e, (i <= maxi st)%nat → clientfds st !! i = Some e → revents e ≠ None.

Lemma table_inv_kern st k k' : kopen k = kopen k' → table_inv st k → table_inv st k'.
Proof. intros E []. split; rewrite <- ?E; done. Qed.

Lemma echo_inv_quiet k c r : quiet c = true → echo_inv k → echo_inv (log c r k).
Proof.
  intros Hc [He Ho]. split; [intros f Hf; specialize (He f Hf) |];
    flow_simpl; destruct c; try discriminate Hc; by rewrite ?app_nil_r.
Qed.

Lemma echo_inv_kern k k' : ktrace k = ktrace k' → echo_inv k → echo_inv k'.
Proof. intros E []. split; rewrite <- ?E; done. Qed.

(** Reading from a client and writing back. *)
Lemma echo_inv_client k f n r r1 r2 :
  f ≠ STDOUT_FILENO → echo_inv k →
  echo_inv (log (Write f (rdata r)) r2 (log (Write STDOUT_FILENO (rdata r)) r1 (log (Read f n) r k))).
Proof.
  intros Hf [He Ho]. split; [intros f' Hf'; specialize (He f' Hf') |]; flow_simpl.
  - destruct (Z.eqb_spec STDOUT_FILENO f'); [congruence |]. by rewrite !app_nil_r, He.
  - rewrite Z.eqb_refl. destruct (Z.eqb_spec f STDOUT_FILENO); [done |].
    by rewrite !app_nil_r, Ho.
Qed.

Lemma echo_inv_nothing k f n r : rdata r = [] → echo_inv k → echo_inv (log (Read f n) r k).
Proof.
  intros Hr [He Ho]. split; [intros f' Hf'; specialize (He f' Hf') |]; flow_simpl;
    rewrite Hr, ?app_nil_r; [| done]. by destruct (_ =? _); rewrite ?app_nil_r.
Qed.

Section loops.
Context (R : result → Prop) (ub : Prop).

Definition keeps st (x : poll_state + Z) k : Prop :=
  match x with inl st' => good st' k ∧ maxi st' = maxi st | inr _ => False end.

(** Closing a connection. *)
Lemma good_close st k i e k' :
  good st k → clientfds st !! S i = Some e → 0 <= fd e →
  (kopen k' = kopen k ∨ kopen k' = kopen k ∖ {[fd e]}) → echo_inv k' →
  good (PollState (<[S i:=close_slot e]> (clientfds st)) (maxi st)) k'.
Proof.
  intros (Hl & [Hsz Hmax Hopen Hz Hslot Hd] & _) Hi Hfd Hk He.
  destruct (Hslot i e Hi) as [| (H3 & Hne & _ & _ & _)]; [lia |].
  assert (∀ f, f ∈ kopen k → f ≠ fd e → f ∈ kopen k') as Hsub by (destruct Hk as [-> | ->]; set_solver).
  split_and!; [done | split; cbn [clientfds maxi] | done].
  - by rewrite length_insert.
  - done.
  - intros f Hf. apply Hsub; [by apply Hopen | set_solver by lia].
  - destruct Hz as (e0 & ? & ?). exists e0. by rewrite list_lookup_insert_ne.
  - intros j e' [(_ & <- & _) | (Hij & Hj)]%list_lookup_insert_Some; [by left |].
    destruct (Hslot j e' Hj) as [| (? & ? & ? & ? & ?)]; [by left | right].
    split_and!; try done. apply Hsub; [done |]. intros E. apply Hij.
    apply (Hd _ _ e e'); [done | done | done | lia].
  - intros j1 j2 e1 e2 H1 H2 Heq Hn. apply list_lookup_insert_Some in H1, H2.
    destruct H1 as [(E1 & <- & _) | (? & H1)], H2 as [(E2 & <- & _) | (? & H2)]; simpl in *;
      try done; try congruence. by eapply Hd.
Qed.

Lemma polled_close st i e :
  polled st → clientfds st !! i = Some e →
  polled (PollState (<[i:=close_slot e]> (clientfds st)) (maxi st)).
Proof.
  intros Hp Hi j e' Hj [(-> & <- & _) | (_ & Hj')]%list_lookup_insert_Some; [exact (Hp j e Hj Hi) | exact (Hp j e' Hj Hj')].
Qed.

Lemma handle_loop_keeps n i st k :
  good st k → ub ∨ polled st ∧ (i + n <= maxi st)%nat →
  wp (each R) ub (handle_loop n (S i) st) k (keeps st).
Proof.
  revert i st k. induction n as [| n IH]; intros i st k Hg Hok; cbn [handle_loop]; [by split |].
  assert (ub ∨ polled st ∧ (S i + n <= maxi st)%nat) as Hnext.
  { destruct Hok as [| (? & ?)]; [by left | right]. split; [done | lia]. }
  destruct Hg as (Hl & Ht & He) eqn:Hgood. pose proof (conj Hl (conj Ht He) : good st k) as Hg'. clear Hgood Hg.
  wp_step. apply wp_io_ub.
  { destruct Hok as [| (_ & ?)]; [by left | right]. apply lookup_lt_is_Some_2.
    rewrite (inv_size _ _ Ht). pose proof (inv_maxi _ _ Ht). lia. }
  intros e Hi. wp_step; [by apply IH |]. wp_step. apply wp_io_ub.
  { destruct Hok as [| (Hp & ?)]; [by left | right].
    specialize (Hp (S i) e ltac:(lia) Hi). by destruct (revents e). }
  intros rdy Hrdy. destruct (inv_slot _ _ Ht i e Hi) as [| (H3 & _)]; [lia |].
  wp_step; [| by apply IH]. apply wp_sys. intros r k' HR Hk. apply kstep_Read in Hk as [-> Hr].
  assert (rdata r = [] ∨ 0 < rv r) as Hnil.
  { destruct Hr as [[_ ?] | (? & ? & _)]; [by left |].
    destruct (rdata r); simpl in *; [by left | right; lia]. }
  wp_step.
  - apply wp_sys_. intros r' k' HR' Hk'. apply kstep_Close in Hk' as [Htr Hop].
    eapply wp_mono; [| apply IH].
    + intros [st' |] k2; [| done]. done.
    + eapply (good_close st _ i e); [exact Hg' | done | lia | exact Hop |].
      apply (echo_inv_kern (log (Close (fd e)) r' (log (Read (fd e) MAXLINE) r k))); [by rewrite Htr |].
      apply echo_inv_quiet, echo_inv_nothing; [done | | done]. destruct Hnil; [done | lia].
    + destruct Hnext as [| [? ?]]; [by left | right]. split; [by apply polled_close | done].
  - apply wp_sys_. intros r1 k1 _ Hk1. apply wp_sys_. intros r2 k2 _ Hk2.
    apply kstep_neutral in Hk1; [subst k1 | by destruct (rv r <? 0)].
    apply kstep_neutral in Hk2; [subst k2 | by destruct (rv r <? 0)].
    apply IH; [| done]. split_and!; [done | refine (table_inv_kern _ k _ _ Ht); done |].
    destruct (Z.ltb_spec (rv r) 0).
    + do 2 (apply echo_inv_quiet; [done |]). apply echo_inv_nothing; [| done]. destruct Hnil; [done | lia].
    + apply echo_inv_client; [unfold STDOUT_FILENO; lia | done].
Qed.

(** Entering a new connection. *)
Lemma good_enter st k k' c st' :
  good st k → enter_client c st = Some st' → 3 <= c → c ∉ kopen k →
  kopen k' = {[c]} ∪ kopen k → echo_inv k' → good st' k'.
Proof.
  intros (Hl & [Hsz Hmax Hopen Hz Hslot Hd] & _) Hent Hc Hfresh Hk He. unfold enter_client in Hent.
  destruct (list_find _ _) as [[j e] |] eqn:E; [| done]. injection Hent as <-.
  apply list_find_Some in E as (Hj & Hneg & _). rewrite lookup_tail in Hj.
  assert (∀ i e', clientfds st !! i = Some e' → fd e' ≠ c) as Hnew.
  { intros [| i] e' Hi Heq.
    - destruct Hz as (e0 & He0 & Hfd & _). simplify_eq. apply Hfresh, Hopen. set_solver.
    - destruct (Hslot i e' Hi) as [| (? & ? & ? & ?)]; [lia | congruence]. }
  pose proof (lookup_lt_Some _ _ _ Hj) as Hlt.
  split_and!; [done | split; cbn [clientfds maxi] | done].
  - by rewrite length_insert.
  - lia.
  - rewrite Hk. set_solver.
  - destruct Hz as (e0 & ? & ?). exists e0. by rewrite list_lookup_insert_ne.
  - intros i e' [(Hij & <- & _) | (Hij & Hi)]%list_lookup_insert_Some; [right | ]; cbn [fd events].
    + split_and!; [done | | set_solver | done | lia].
      destruct Hz as (e0 & He0 & Hfd & _). specialize (Hnew _ _ He0). congruence.
    + destruct (Hslot i e' Hi) as [| (? & ? & ? & ? & ?)]; [by left | right].
      split_and!; [done | done | set_solver | done | lia].
  - intros j1 j2 e1 e2 H1 H2 Heq Hn. apply list_lookup_insert_Some in H1, H2.
    destruct H1 as [(E1 & <- & _) | (? & H1)], H2 as [(E2 & <- & _) | (? & H2)]; cbn [fd] in *;
      try congruence; try (by exfalso; eapply Hnew; eauto). by eapply Hd.
Qed.

Lemma lookup_returns rdy st i e' :
  clientfds (poll_returns rdy st) !! i = Some e' →
  ∃ e, clientfds st !! i = Some e ∧ fd e' = fd e ∧ events e' = events e ∧
    ((i <= maxi st)%nat → e' = set_revents rdy e).
Proof.
  simpl. destruct (decide (i < length (set_revents rdy <$> take (maxi st + 1) (clientfds st)))%nat) as [Hi | Hi].
  - rewrite lookup_app_l, list_lookup_fmap, fmap_Some by done. intros (e & He & ->).
    apply lookup_take_Some in He as [He _]. by exists e.
  - rewrite lookup_app_r, lookup_drop by lia. rewrite length_fmap, length_take in *.
    intros He. pose proof (lookup_lt_Some _ _ _ He).
    replace (maxi st + 1 + (i - (maxi st + 1) `min` length (clientfds st)))%nat with i in * by lia.
    exists e'. split_and!; [done .. | lia].
Qed.

Lemma good_returns rdy st k : good st k → good (poll_returns rdy st) k ∧ polled (poll_returns rdy st).
Proof.
  intros (Hl & [Hsz Hmax Hopen Hz Hslot Hd] & He). split; [split_and!; [done | | done] |].
  - split.
    + simpl. rewrite length_app, length_fmap, length_drop, length_take. lia.
    + done.
    + done.
    + destruct (lookup_lt_is_Some_2 (clientfds (poll_returns rdy st)) 0) as [e' He'].
      { simpl. rewrite length_app, length_fmap, length_drop, length_take. lia. }
      exists e'. split; [done |]. destruct (lookup_returns _ _ _ _ He') as (e & He0 & -> & -> & _).
      destruct Hz as (? & ? & ? & ?). by simplify_eq.
    + intros i e' Hi. destruct (lookup_returns _ _ _ _ Hi) as (e & He0 & -> & -> & _). by apply Hslot.
    + intros i j e1 e2 H1 H2.
      destruct (lookup_returns _ _ _ _ H1) as (e1' & H1' & -> & _ & _).
      destruct (lookup_returns _ _ _ _ H2) as (e2' & H2' & -> & _ & _). by apply Hd.
  - intros i e Hi He'. destruct (lookup_returns _ _ _ _ He') as (e0 & _ & _ & _ & Hr).
    by rewrite (Hr Hi).
Qed.

(** Never the listening socket and a client at once. *)
Definition calm (r : result) : Prop :=
  listenfd ∈ (rfds r).*1 → (length (rfds r) <= 1)%nat.

Definition iterates (x : poll_state + Z) k : Prop :=
  echo_inv k ∧ match x with inl st' => good st' k | inr _ => True end.

Lemma handle_connection_iterates st k :
  good st k → ub ∨ polled st → wp (each R) ub (handle_connection st) k iterates.
Proof.
  intros Hg Hp. eapply wp_mono; [| apply (handle_loop_keeps _ 0); [done |]].
  - intros [st' |] k'; [| done]. intros [Hg' _]. split; [apply Hg' | done].
  - destruct Hp as [| Hp]; [by left | right]. split; [done | lia].
Qed.

Lemma do_poll_iterates st k :
  (ub ∨ ∀ r, R r → calm r) → good st k → wp (each R) ub (do_poll listenfd st) k iterates.
Proof.
  intros HR Hg. unfold do_poll. apply wp_sys. intros r k1 Hr Hk.
  pose proof (kstep_Poll _ _ _ _ Hk) as Hlen. apply kstep_neutral in Hk; [subst k1 | done].
  set (c := Poll _) in *. assert (good st (log c r k)) as Hg1.
  { destruct Hg as (Hl & Ht & He). split_and!; [done | refine (table_inv_kern _ k _ _ Ht); done |].
    by apply echo_inv_quiet. }
  destruct (good_returns (rfds r).*1 st _ Hg1) as [Hg2 Hp2].
  set (st2 := poll_returns _ st) in *. clearbody c. destruct (Z.eqb_spec (rv r) (-1)) as [| Hrv].
  { wp_steps. split; [apply echo_inv_quiet; [done |]; apply Hg1 | done]. }
  destruct Hg2 as (Hl & Ht2 & He2) eqn:E. clear E.
  pose proof (conj Hl (conj Ht2 He2) : good st2 (log c r k)) as Hg2'.
  destruct (inv_zero _ _ Ht2) as (e0 & Hz & Hz1 & _).
  wp_step. apply wp_io_ub; [right; by eexists |]. rewrite Hz. intros ? [= <-].
  wp_step. apply wp_io_ub; [right |].
  { specialize (Hp2 0%nat e0 ltac:(lia) Hz). destruct (revents e0); [by eexists | done]. }
  intros rdy Hrdy. wp_step; [| apply handle_connection_iterates; auto].
  apply wp_sys. intros r' k' HR' Hk'.
  assert (echo_inv k') as He'.
  { apply (echo_inv_kern (log (Accept listenfd) r' (log c r k))).
    - symmetry. exact (kstep_trace _ _ _ _ Hk').
    - by apply echo_inv_quiet. }
  assert (ub ∨ (rv r - 1 <=? 0) = true) as Hone.
  { destruct HR as [| HR]; [by left | right]. destruct (lookup_returns _ _ _ _ Hz) as (e & _ & _ & _ & Hset).
    rewrite (Hset ltac:(lia)) in Hrdy. injection Hrdy as Hin%bool_decide_eq_true.
    destruct Hin as [_ Hin]. pose proof (Hset ltac:(lia)) as E. apply (f_equal fd) in E. simpl in E.
    rewrite <- E, Hz1 in Hin. specialize (HR r Hr Hin). lia. }
  destruct (kstep_Accept _ _ _ _ Hk') as [(-> & Ho & _) | (H0 & Hf & Ho & _)].
  - change (-1 =? -1) with true. cbn iota. wp_steps.
    + split; [done |]. split_and!; [done | refine (table_inv_kern _ _ _ _ Ht2); done | done].
    + split; [by apply echo_inv_quiet | done].
  - destruct (Z.eqb_spec (rv r') (-1)); [lia |]. apply wp_bind. wp_steps.
    destruct (enter_client (rv r') st2) as [st3 |] eqn:Hent.
    + assert (good st3 (log (Printf (text "accept a new client: ")) r0 k')) as Hg3.
      { eapply (good_enter st2 (log c r k)); [done | done | | done | done | by apply echo_inv_quiet].
        pose proof (inv_open _ _ Ht2) as Hop. destruct (decide (3 <= rv r')); [done |].
        exfalso. apply Hf, Hop. assert (rv r' = 0 ∨ rv r' = 1 ∨ rv r' = 2) as [-> | [-> | ->]] by lia; set_solver. }
      wp_step.
      * simpl. split; [apply Hg3 | done].
      * apply handle_connection_iterates; [done |]. destruct Hone; [by left | congruence].
    + wp_steps. split; [| done]. do 2 (apply echo_inv_quiet; [done |]). done.
Qed.
End loops.
End server.

Lemma init_good listenfd k :
  3 <= listenfd → kopen k = {[0; 1; 2; listenfd]} → ktrace k = [] → good listenfd (init_table listenfd) k.
Proof.
  intros Hl Hk Ht.
  assert (∀ i e, clientfds (init_table listenfd) !! S i = Some e → fd e = -1) as Hfree.
  { intros i e [-> _]%lookup_replicate_1. done. }
  split_and!; [done | split | split; by rewrite Ht].
  - done.
  - unfold OPEN_MAX. simpl. lia.
  - by rewrite Hk.
  - by eexists.
  - intros i e Hi. left. by eapply Hfree.
  - intros [| i] [| j] e1 e2 H1 H2 Heq Hn; [done | | |].
    + apply Hfree in H2. congruence.
    + apply Hfree in H1. congruence.
    + apply Hfree in H1. congruence.
Qed.

Lemma poll_invariant R listenfd (p0 p : mstate (poll_server listenfd)) :
  minit (poll_server listenfd) p0 → rtc (msteps (poll_server listenfd) (Forall R)) p0 p →
  iterates listenfd (pstate p) (pkern p).
Proof.
  intros Hi Hr. refine (server_invariant _ _ R _ _ _ p0 p Hi Hr).
  - intros st k (-> & Hk & Hl & Ht). pose proof (init_good _ _ Hl Hk Ht) as Hg.
    split; [apply Hg | done].
  - intros st k [_ Hg]. apply do_poll_iterates; [by left | done].
Qed.

(** * The properties *)

(** C11. The server echoes: in every reachable state, whatever the kernel and
    the clients do, the bytes given to [write] for a descriptor are exactly the
    bytes read from it, in order, and everything read is printed. *)
Theorem poll_echo listenfd (p : mstate (poll_server listenfd)) :
  reachable p →
  (∀ f, f ≠ STDOUT_FILENO → sent_to f (ktrace (pkern p)) = received_from f (ktrace (pkern p))) ∧
  sent_to STDOUT_FILENO (ktrace (pkern p)) = received_all (ktrace (pkern p)).
Proof.
  intros (p0 & Hi & Hr)%reachable_anything.
  destruct (poll_invariant _ _ _ _ Hi Hr) as [[He Ho] _]. done.
Qed.

(** C28. As long as [poll] never reports the listening socket together with a
    client, the server has no undefined behaviour, and its table is sound: 1000
    entries, each client in one entry, open and polled (below [maxi]). *)
Theorem poll_safe listenfd (p0 p : mstate (poll_server listenfd)) :
  minit (poll_server listenfd) p0 →
  rtc (msteps (poll_server listenfd) (Forall (calm listenfd))) p0 p →
  (∀ st, pstate p = inl st → table_inv listenfd st (pkern p)) ∧
  ∀ rs, Forall (calm listenfd) rs → mstep (poll_server listenfd) rs p ≠ UB.
Proof.
  intros Hi Hr. destruct (poll_invariant _ _ _ _ Hi Hr) as [_ Hg]. split.
  - intros st Hp. rewrite Hp in Hg. apply Hg.
  - intros rs. apply server_safe. intros st Hp. rewrite Hp in Hg.
    eexists. apply (do_poll_iterates listenfd _ False); [by right | done].
Qed.

(** The first client (descriptor 4) is connected; it has sent something and a
    second client connects, when [poll] is called again. *)
Definition poll_start : process poll_state :=
  Process (inl (init_table 3)) (Kern {[0; 1; 2; 3]} ∅ []).
Definition first_client : list result := [ready [(3, 1)]; ok 4; ok 0].
Definition both_at_once : list result :=
  [ready [(3, 1); (4, 1)]; ok 5; ok 0; got (text "hi"); ok 2; ok 2].

(** When [poll] reports the listening socket and a client at once, the new
    client's entry is inspected although [poll] has never filled in its
    [revents]: reading the indeterminate field is undefined. *)
Theorem poll_reads_uninitialised :
  ∃ p : mstate (poll_server 3), reachable p ∧ mstep (poll_server 3) both_at_once p = UB.
Proof.
  eexists. split; [| ].
  - apply (exec_reachable (poll_server 3) [first_client] poll_start).
    + exists (init_table 3), (Kern {[0; 1; 2; 3]} ∅ []). by split_and!.
    + vm_compute. reflexivity.
  - vm_compute. reflexivity.
Qed.

Section client.
Context (sockfd : Z).
Hypothesis Hsock : 3 <= sockfd.

Definition relayed k : Prop :=
  sent_to STDOUT_FILENO (ktrace k) = received_from sockfd (ktrace k) ∧
  sent_to sockfd (ktrace k) = received_from 0 (ktrace k).

Lemma relayed_quiet c r k k' : quiet c = true → kstep c r k = Some k' → relayed k → relayed k'.
Proof.
  intros Hc Hk%kstep_trace [H1 H2]. unfold relayed. rewrite Hk.
  change ((c, r) :: ktrace k) with (ktrace (log c r k)). flow_simpl.
  destruct c; try discriminate Hc; by rewrite !app_nil_r.
Qed.

Lemma relayed_pass k f g n r w :
  (f = sockfd ∧ g = STDOUT_FILENO) ∨ (f = 0 ∧ g = sockfd) →
  relayed k → relayed (log (Write g (rdata r)) w (log (Read f n) r k)).
Proof.
  intros Hfg [H1 H2]. unfold relayed, STDOUT_FILENO in *. flow_simpl. rewrite H1, H2.
  assert ((sockfd =? 1) = false ∧ (1 =? sockfd) = false ∧ (sockfd =? 0) = false ∧ (0 =? sockfd) = false)
    as (E1 & E2 & E3 & E4) by (rewrite !Z.eqb_neq; lia).
  destruct Hfg as [[-> ->] | [-> ->]]; rewrite ?Z.eqb_refl, ?E1, ?E2, ?E3, ?E4, ?app_nil_r; done.
Qed.

Lemma relayed_read_nil k f n r : rdata r = [] → relayed k → relayed (log (Read f n) r k).
Proof.
  intros Hr [H1 H2]. unfold relayed. flow_simpl. rewrite Hr, H1, H2.
  repeat destruct (_ =? _); by rewrite ?app_nil_r.
Qed.

Lemma relayed_write_nil k g w : relayed k → relayed (log (Write g []) w k).
Proof.
  intros [H1 H2]. unfold relayed. flow_simpl. rewrite H1, H2.
  repeat destruct (_ =? _); by rewrite ?app_nil_r.
Qed.

Lemma relayed_log c r k : quiet c = true → relayed k → relayed (log c r k).
Proof.
  intros Hc [H1 H2]. unfold relayed. flow_simpl. rewrite H1, H2.
  destruct c; try discriminate Hc; by rewrite !app_nil_r.
Qed.

(** [n = read(f, ...); write(g, ..., n)] *)
Lemma wp_pass R ub {A} (f g n : Z) (h : unit → io A) r k k' Q :
  (f = sockfd ∧ g = STDOUT_FILENO) ∨ (f = 0 ∧ g = sockfd) → relayed k →
  kstep (Read f n) r k = Some k' → (∀ k2, relayed k2 → wp (each R) ub (h tt) k2 Q) →
  wp (each R) ub (sys_ (if rv r <? 0 then WriteBad g else Write g (rdata r)) ≫= h) k' Q.
Proof.
  intros Hfg Hrel Hk HQ. apply kstep_Read in Hk as [-> Hr]. apply wp_sys_. intros w k2 _ Hw.
  apply HQ. apply kstep_neutral in Hw; [subst k2 | by destruct (rv r <? 0)].
  destruct (Z.ltb_spec (rv r) 0).
  - apply relayed_log; [done |]. apply relayed_read_nil; [| done].
    destruct Hr as [[_ ?] | (? & _)]; [done | lia].
  - by apply relayed_pass.
Qed.

Lemma handle_connection_relays R k :
  relayed k → wp (each R) True (Client.handle_connection sockfd) k (λ _ k', relayed k').
Proof.
  intros Hrel. unfold Client.handle_connection. apply wp_sys. intros r k1 _ Hk1.
  apply kstep_neutral in Hk1; [subst k1 | done].
  assert (relayed (log (Poll [sockfd; 0]) r k)) as Hrel1 by by apply relayed_log.
  apply wp_bind. eapply (wp_mono _ _ _ _ (λ x k', relayed k' ∧ ∃ u, x = inl u)).
  - intros x k2 [Hrel2 [[] ->]]. wp_step; [| done]. apply wp_sys. intros r2 k3 _ Hk3. wp_step.
    + wp_steps. apply relayed_log; [done |]. apply kstep_Read in Hk3 as [-> Hr2].
      apply relayed_read_nil; [| done].
      destruct Hr2 as [[_ ?] | (? & ? & _)]; [done |]. destruct (rdata r2); simpl in *; [done | lia].
    + apply wp_last. eapply wp_pass; [by right | exact Hrel2 | exact Hk3 | done].
  - wp_step; [| simpl; by eauto]. apply wp_sys. intros r2 k3 _ Hk3. apply wp_bind. wp_step.
    + apply wp_sys_. intros r3 k4 _ Hk4. apply kstep_neutral in Hk4; [subst k4 | done].
      intros r4 k5 _ Hk5. simpl.
      intros r5 k6 _ Hk6. destruct (Z.eqb_spec (rv r2) 0) as [Hz |]; [| done].
      rewrite Hz in Hk6. apply kstep_neutral in Hk6; [subst k6 | done].
      apply kstep_Read in Hk3 as [-> Hr2].
      assert (rdata r2 = []) as ->.
      { destruct Hr2 as [[? _] | (_ & ? & _)]; [congruence |]. destruct (rdata r2); simpl in *; [done | lia]. }
      split; [| by eauto]. apply relayed_write_nil.
      eapply (relayed_quiet (Close sockfd)); [done | exact Hk5 |].
      apply relayed_log; [done |]. apply relayed_read_nil; [| done].
      destruct Hr2 as [[? _] | (_ & ? & _)]; [congruence |]. destruct (rdata r2); simpl in *; [done | lia].
    + cbn [wp]. apply wp_last. eapply wp_pass; [by left | exact Hrel1 | exact Hk3 |]. simpl. by eauto.
Qed.
End client.

(** The client relays: in every reachable state what was written to the
    standard output is what was read from the socket, and what was written to
    the socket is what was read from the standard input. *)
Theorem poll_client_relays sockfd (p : mstate (Client.client sockfd)) :
  3 <= sockfd → reachable p →
  sent_to STDOUT_FILENO (ktrace (pkern p)) = received_from sockfd (ktrace (pkern p)) ∧
  sent_to sockfd (ktrace (pkern p)) = received_from 0 (ktrace (pkern p)).
Proof.
  intros Hs (p0 & Hi & Hr)%reachable_anything.
  refine (server_invariant _ _ anything (λ _ k, relayed sockfd k) _ _ p0 p Hi Hr).
  - intros _ k (_ & _ & Ht). unfold relayed. by rewrite Ht.
  - intros _ k. by apply handle_connection_relays.
Qed.

(** * Concrete runs *)
Lemma poll_start_init : minit (poll_server 3) poll_start.
Proof. exists (init_table 3), (Kern {[0; 1; 2; 3]} ∅ []). by split_and!. Qed.

(** A message from the first client. *)
Definition a_message : list result := [ready [(4, 1)]; got (text "hello"); ok 5; ok 5].

Lemma poll_echo_witness :
  ∃ p : mstate (poll_server 3), reachable p ∧
    received_from 4 (ktrace (pkern p)) = text "hello" ∧ sent_to 4 (ktrace (pkern p)) = text "hello".
Proof.
  eexists. assert (reachable (M := poll_server 3) _) as Hr
    by (eapply (exec_reachable (poll_server 3) [first_client; a_message] poll_start _ poll_start_init);
        vm_compute; reflexivity).
  split_and!; [exact Hr | reflexivity |].
  rewrite (proj1 (poll_echo 3 _ Hr) 4) by discriminate. reflexivity.
Defined.

Definition poll_one : process poll_state :=
  match exec (poll_server 3) [first_client] poll_start with Ok p => p | _ => poll_start end.

Lemma poll_safe_witness :
  ∃ p1 : mstate (poll_server 3), (∀ st, pstate p1 = inl st → maxi st = 1%nat) ∧
    mstep (poll_server 3) a_message p1 ≠ UB.
Proof.
  exists poll_one. assert (rtc (msteps (poll_server 3) (Forall (calm 3))) poll_start poll_one) as Hr.
  { eapply rtc_l; [exists first_client; split | apply rtc_refl]; [| vm_compute; reflexivity].
    repeat apply Forall_cons_2; [intros _; simpl; lia .. | apply Forall_nil_2]. }
  split; [intros st [= <-]; reflexivity |].
  apply (poll_safe 3 _ _ poll_start_init Hr).
  repeat apply Forall_cons_2; [intros _; simpl; lia .. | apply Forall_nil_2].
Defined.

Lemma poll_client_relays_witness :
  ∃ p : mstate (Client.client 3), reachable p ∧
    received_from 0 (ktrace (pkern p)) = text "hey" ∧ sent_to 3 (ktrace (pkern p)) = text "hey".
Proof.
  assert (minit (Client.client 3) (Process (inl tt) (Kern {[0; 1; 2; 3]} ∅ []))) as Hi.
  { exists tt, (Kern {[0; 1; 2; 3]} ∅ []). by split_and!. }
  eexists. assert (reachable (M := Client.client 3) _) as Hr
    by (eapply (exec_reachable (Client.client 3) [[ready [(0, 1)]; got (text "hey"); ok 3]] _ _ Hi);
        vm_compute; reflexivity).
  split_and!; [exact Hr | reflexivity |].
  rewrite (proj2 (poll_client_relays 3 _ ltac:(lia) Hr)). reflexivity.
Defined.
