(* ===== verification/EpollServer.v ===== *)
(** [code/network/IO/multiplexing/via_epoll]: the echo server that waits with
    [epoll], switching each client between reading and writing, with one
    buffer for all clients; and its client.  One iteration of [do_epoll]
    ([epoll_wait] and [handle_events]) is one step. *)

From S2P Require Import Prelude Posix.
From stdpp Require Import pretty.

Local Open Scope Z_scope.

Definition PORT : Z := 8787.
Definition MAXSIZE : Z := 1024.
Definition LISTENQ : Z := 5.
Definition EPOLLEVENTS : Z := 100.

Definition add_event (fd state : Z) : io unit := sys_ (EpollAdd fd state).
Definition modify_event (fd state : Z) : io unit := sys_ (EpollMod fd state).
Definition delete_event (fd : Z) : io unit := sys_ (EpollDel fd).

Definition socket_bind (port : Z) : io Z :=
  r ← sys Socket;
  let listenfd := rv r in
  if listenfd =? -1 then (puts "socket error:" ≫= λ _, Exit 1) else
  r ← sys (Bind listenfd port);
  if rv r =? -1 then (puts "bind error: " ≫= λ _, Exit 1) else
  Ret listenfd.

(** [struct sockaddr_in] as [accept] fills it: the family (2 bytes), [sin_port]
    and [sin_addr]; [None] where a byte was not written. *)
Definition sockaddr_byte (a : data) (i : nat) : option Z := (λ c, Z.of_nat (Ascii.nat_of_ascii c)) <$> a !! i.
(** [printf("...%s:%d", inet_ntoa(cliaddr.sin_addr), cliaddr.sin_port)]: the four
    octets in decimal, and the port as the two bytes are in memory (low byte
    first, without [ntohs]). *)
Definition show_address (a : data) : option string :=
  p0 ← sockaddr_byte a 2; p1 ← sockaddr_byte a 3;
  a0 ← sockaddr_byte a 4; a1 ← sockaddr_byte a 5; a2 ← sockaddr_byte a 6; a3 ← sockaddr_byte a 7;
  Some (pretty a0 +:+ "." +:+ pretty a1 +:+ "." +:+ pretty a2 +:+ "." +:+ pretty a3 +:+ ":" +:+
        pretty (p0 + 256 * p1)).

(** [cliaddrlen], the size of [cliaddr] that [accept] is told, is not
    initialised: the kernel may fail the call ([EINVAL] for a negative size), or
    write any part of the address, the data of the result. *)
Definition handle_accpet (listenfd : Z) : io unit :=
  r ← sys (Accept listenfd);
  let clifd := rv r in
  if clifd =? -1 then puts "accpet error:" else
  address ← io_ub (show_address (rdata r));
  _ ← puts ("accept a new client: " +:+ address);
  add_event clifd EPOLLIN.

(** Reads into the buffer of [do_epoll], which all clients share. *)
Definition do_read (fd : Z) (buf : data) : io data :=
  r ← sys (Read fd MAXSIZE);
  let buf := store buf (rdata r) in
  if rv r =? -1 then
    _ ← puts "read error:"; _ ← sys_ (Close fd); _ ← delete_event fd; Ret buf
  else if rv r =? 0 then
    _ ← puts "client close."; _ ← sys_ (Close fd); _ ← delete_event fd; Ret buf
  else
    _ ← printf_s "read message is : " buf "";
    _ ← modify_event fd EPOLLOUT; Ret buf.

(** Writes the C string of the buffer and clears it. *)
Definition do_write (fd : Z) (buf : data) : io data :=
  s ← io_ub (c_string buf);
  r ← sys (Write fd s);
  _ ← (if rv r =? -1 then
         _ ← puts "write error:"; _ ← sys_ (Close fd); delete_event fd
       else modify_event fd EPOLLIN);
  Ret (zeros (Z.to_nat MAXSIZE)).

Fixpoint handle_events (listenfd : Z) (events : list (Z * Z)) (buf : data) : io data :=
  match events with
  | [] => Ret buf
  | (fd, ev) :: events =>
      buf ← (if (fd =? listenfd) && negb (Z.land ev EPOLLIN =? 0) then
               _ ← handle_accpet listenfd; Ret buf
             else if negb (Z.land ev EPOLLIN =? 0) then do_read fd buf
             else if negb (Z.land ev EPOLLOUT =? 0) then do_write fd buf
             else Ret buf);
      handle_events listenfd events buf
  end.

(** [main] and [do_epoll] up to the loop. *)
Definition main_setup : io (Z * data) :=
  listenfd ← socket_bind PORT;
  _ ← sys_ (Listen listenfd LISTENQ);
  _ ← sys EpollCreate;
  _ ← add_event listenfd EPOLLIN;
  Ret (listenfd, zeros (Z.to_nat MAXSIZE)).

Definition do_epoll (listenfd : Z) (buf : data) : io data :=
  r ← sys (EpollWait EPOLLEVENTS);
  handle_events listenfd (rfds r) buf.

Definition epoll_server (listenfd : Z) : machine :=
  server (do_epoll listenfd)
    (λ buf k, buf = zeros (Z.to_nat MAXSIZE) ∧ kopen k = {[listenfd]} ∧
      kepoll k = {[listenfd := EPOLLIN]} ∧ ktrace k = []).

(** * The client *)
Module Client.
Definition STDIN_FILENO : Z := 0.
Definition STDOUT_FILENO : Z := 1.

Definition do_read (fd sockfd : Z) (buf : ubuf) : io ubuf :=
  r ← sys (Read fd MAXSIZE);
  let buf := ustore buf (rdata r) in
  if rv r =? -1 then (_ ← puts "read error:"; _ ← sys_ (Close fd); Ret buf)
  else if rv r =? 0 then (_ ← puts "server close."; _ ← sys_ (Close fd); Ret buf)
  else if fd =? STDIN_FILENO then (_ ← add_event sockfd EPOLLOUT; Ret buf)
  else _ ← delete_event sockfd; _ ← add_event STDOUT_FILENO EPOLLOUT; Ret buf.

Definition do_write (fd : Z) (buf : ubuf) : io ubuf :=
  s ← io_ub (u_string buf);
  r ← sys (Write fd s);
  _ ← (if rv r =? -1 then (_ ← puts "write error:"; sys_ (Close fd))
       else if fd =? STDOUT_FILENO then delete_event fd
       else modify_event fd EPOLLIN);
  Ret (Some <$> zeros (Z.to_nat MAXSIZE)).

Fixpoint handle_events (sockfd : Z) (events : list (Z * Z)) (buf : ubuf) : io ubuf :=
  match events with
  | [] => Ret buf
  | (fd, ev) :: events =>
      buf ← (if negb (Z.land ev EPOLLIN =? 0) then do_read fd sockfd buf
             else if negb (Z.land ev EPOLLOUT =? 0) then do_write fd buf
             else Ret buf);
      handle_events sockfd events buf
  end.

(** One iteration of [handle_connection], whose buffer is not initialised. *)
Definition handle_connection (sockfd : Z) (buf : ubuf) : io ubuf :=
  r ← sys (EpollWait 20);
  handle_events sockfd (rfds r) buf.

Definition client (sockfd : Z) : machine :=
  server (handle_connection sockfd)
    (λ buf k, buf = uninit (Z.to_nat MAXSIZE) ∧ kopen k = {[0; 1; 2; sockfd]} ∧ 3 <= sockfd ∧
      kepoll k = {[STDIN_FILENO := EPOLLIN]}).
End Client.

(** * Invariants of the server *)
(** What the server counts on: a message shorter than the buffer, and an
    [accept] that wrote the address and port it prints. *)
Definition polite (c : call) (r : result) : Prop :=
  match c with
  | Read _ _ => (length (rdata r) < 1024)%nat
  | Accept _ => rv r = -1 ∨ (8 <= length (rdata r))%nat
  | _ => True
  end.

#[global] Instance polite_dec c r : Decision (polite c r).
Proof. destruct c; simpl; apply _. Defined.
#[global] Instance polite_call_dec x : Decision (uncurry polite x).
Proof. destruct x as [c r]. exact (polite_dec c r). Defined.

Lemma show_address_filled a : is_Some (show_address a) ↔ (8 <= length a)%nat.
Proof.
  unfold show_address, sockaddr_byte. split.
  - intros [x Hx]. destruct (a !! 7%nat) eqn:E; [by apply lookup_lt_Some in E |].
    by repeat (destruct (a !! _); try done).
  - intros Hl.
    destruct (lookup_lt_is_Some_2 a 2) as [? ->]; [lia |]. destruct (lookup_lt_is_Some_2 a 3) as [? ->]; [lia |].
    destruct (lookup_lt_is_Some_2 a 4) as [? ->]; [lia |]. destruct (lookup_lt_is_Some_2 a 5) as [? ->]; [lia |].
    destruct (lookup_lt_is_Some_2 a 6) as [? ->]; [lia |]. destruct (lookup_lt_is_Some_2 a 7) as [? ->]; [lia |].
    by eexists.
Qed.

Section server.
Context (R : call → result → Prop) (ub : Prop) (listenfd : Z).
Hypothesis HR : ub ∨ ∀ c r, R c r → polite c r.

(** The interest list: the listening socket for reading, and for each client,
    all of them open, either reading or writing. *)
Record interest_inv (k : kern) : Prop := {
  inv_listen : listenfd ∈ kopen k ∧ kepoll k !! listenfd = Some EPOLLIN;
  inv_interest : ∀ fd ev, kepoll k !! fd = Some ev →
    fd ∈ kopen k ∧ (ev = EPOLLIN ∨ ev = EPOLLOUT)
}.

(** The calls the server may make. *)
Definition allowed (c : call) : Prop :=
  match c with
  | Close fd | EpollDel fd => fd ≠ listenfd
  | EpollMod fd ev => fd ≠ listenfd ∧ (ev = EPOLLIN ∨ ev = EPOLLOUT)
  | EpollAdd _ ev => ev = EPOLLIN ∨ ev = EPOLLOUT
  | _ => True
  end.

Lemma interest_kstep c r k k' :
  allowed c → kstep c r k = Some k' → interest_inv k → interest_inv k'.
Proof.
  intros Hc [Hp ->]%kstep_Some [[Hl1 Hl2] Hi].
  destruct (Z.eqb_spec (rv r) (-1)) as [Hrv | Hrv].
  { unfold effect. rewrite Hrv. by split. }
  assert (possible c r k = true ∧ rv r ≠ -1) as [Hp' _] by done. clear Hp'.
  unfold possible in Hp. destruct (Z.eqb_spec (rv r) (-1)) as [| _]; [done |]. simpl in Hp.
  unfold effect. destruct (Z.eqb_spec (rv r) (-1)) as [| _]; [done |].
  destruct c; simpl in *; try (by split);
    repeat match goal with H : _ && _ = true |- _ => apply andb_true_iff in H as [? ?] end;
    unfold is_open, fresh_fd in *;
    repeat match goal with H : bool_decide _ = true |- _ => apply bool_decide_eq_true in H end.
  - split; simpl; [set_solver | intros fd ev [? ?]%Hi; set_solver].
  - split; simpl; [set_solver | intros fd' ev [? ?]%Hi; set_solver].
  - split; simpl; [rewrite lookup_delete_ne by done; set_solver |].
    intros fd' ev [Hne Hev]%lookup_delete_Some. specialize (Hi _ _ Hev). set_solver.
  - split; simpl; [set_solver | intros fd ev [? ?]%Hi; set_solver].
  - split; simpl; [rewrite lookup_insert_ne by congruence; done |].
    intros fd' ev' [(-> & <-) | (Hne & Hev)]%lookup_insert_Some; [done | by apply Hi].
  - split; simpl; [rewrite lookup_insert_ne by (intros ->; tauto); done |].
    intros fd' ev' [(-> & <-) | (Hne & Hev)]%lookup_insert_Some; [tauto | by apply Hi].
  - split; simpl; [rewrite lookup_delete_ne by done; done |].
    intros fd' ev [Hne Hev]%lookup_delete_Some. by apply Hi.
Qed.

Lemma interest_log c r k : interest_inv k → interest_inv (log c r k).
Proof. by intros []. Qed.

(** A step of the proof: a call that keeps the interest list sound. *)
Ltac call_ :=
  apply (wp_sys_inv_ _ _ interest_inv);
    [intros ??; by apply interest_kstep | done | let H := fresh "Hint" in intros ? H].

Definition keeps (x : data + Z) (k : kern) : Prop :=
  interest_inv k ∧ match x with inl buf => ub ∨ terminated buf | inr _ => False end.

Lemma do_read_keeps fd buf k :
  fd ≠ listenfd → interest_inv k → ub ∨ terminated buf → wp R ub (do_read fd buf) k keeps.
Proof.
  intros Hfd Hk Hbuf. unfold do_read.
  apply (wp_sys_inv _ _ interest_inv); [intros ??; by apply interest_kstep | done |].
  intros r k1 Hr Hk1 Hi1.
  assert (ub ∨ terminated (store buf (rdata r))) as Hbuf'.
  { destruct Hbuf, HR as [| HR']; [by left .. | right].
    apply terminated_store; [by apply (HR' (Read fd MAXSIZE)) | done]. }
  wp_step; [| wp_step].
  - unfold puts. do 3 call_. by split.
  - unfold puts. do 3 call_. by split.
  - apply (wp_printf_s_inv _ _ interest_inv); [intros; by apply interest_log | | done |].
    { destruct Hbuf'; [by right | left]. by apply terminated_nul. }
    intros k2 Hi2. unfold modify_event.
    apply (wp_sys_inv_ _ _ interest_inv); [intros ??; apply interest_kstep; simpl; auto | done |].
    intros k3 Hi3. by split.
Qed.

Lemma do_write_keeps fd buf k :
  fd ≠ listenfd → interest_inv k → ub ∨ terminated buf → wp R ub (do_write fd buf) k keeps.
Proof.
  intros Hfd Hk Hbuf. unfold do_write. wp_step. apply wp_io_ub.
  { destruct Hbuf as [| Hbuf]; [by left | right]. destruct (c_string buf) eqn:E; [done |].
    unfold c_string in E. apply fmap_None, strlen_None in E. by apply terminated_nul in Hbuf. }
  intros s _. apply (wp_sys_inv _ _ interest_inv); [intros ??; by apply interest_kstep | done |].
  intros r k1 _ _ Hi1. wp_step.
  assert (∀ k, interest_inv k → keeps (inl (zeros (Z.to_nat MAXSIZE))) k) as Hend.
  { intros k' ?. split; [done | right]. apply terminated_zeros. }
  wp_step; unfold puts, modify_event, delete_event.
  - do 2 call_. intros r' kz _ Hkz%interest_kstep; auto. by apply Hend.
  - intros r' kz _ Hkz%interest_kstep; simpl; auto.
Qed.

Lemma handle_events_keeps events buf k :
  Forall (λ e, e.1 = listenfd → e.2 = EPOLLIN) events →
  interest_inv k → ub ∨ terminated buf → wp R ub (handle_events listenfd events buf) k keeps.
Proof.
  revert buf k. induction events as [| [fd ev] events IH]; intros buf k Hev Hk Hbuf; cbn [handle_events]; [by split |].
  apply Forall_cons in Hev as [He Hev]. apply wp_bind.
  apply (wp_mono _ _ _ _ keeps).
  { intros [buf' | e] k' [Hi' Hb']; [by apply IH | done]. }
  wp_step; [| wp_step; [| wp_step]].
  - apply andb_true_iff in Hb as [->%Z.eqb_eq _]. wp_step. unfold handle_accpet.
    apply (wp_sys_inv _ _ interest_inv); [intros ??; by apply interest_kstep | done |].
    intros r k1 Hr _ Hi1. destruct (Z.eqb_spec (rv r) (-1)) as [| Hok]; unfold puts.
    + wp_step. intros r' kz _ Hkz%interest_kstep; [| done | done]. by split.
    + apply wp_bind, wp_io_ub.
      { destruct HR as [| HR']; [by left | right]. apply show_address_filled.
        by destruct (HR' _ _ Hr). }
      intros address _. call_. intros r' kz _ Hkz%interest_kstep; [| simpl; auto | done]. by split.
  - apply do_read_keeps; [| done | done]. intros ->. rewrite Z.eqb_refl in Hb. simpl in *. congruence.
  - apply do_write_keeps; [| done | done]. intros ->. simpl in He. rewrite He in Hb0; done.
  - by split.
Qed.

Lemma do_epoll_keeps buf k :
  interest_inv k → ub ∨ terminated buf → wp R ub (do_epoll listenfd buf) k keeps.
Proof.
  intros Hk Hbuf. apply wp_sys. intros r k1 Hr Hk1. 
  assert (Forall (λ e, e.1 = listenfd → e.2 = EPOLLIN) (rfds r)) as Hev.
  { pose proof (kstep_EpollWait _ _ _ _ Hk1) as Hev. eapply Forall_impl; [exact Hev |].
    intros e Hin He. cbn beta in Hin. rewrite He in Hin. destruct Hk as [[_ Hl] _]. congruence. }
  apply kstep_neutral in Hk1; [subst k1 | done].
  apply handle_events_keeps; [done | by apply interest_log | done].
Qed.
End server.

(** * What the server answers *)
Section answers.
Context (listenfd : Z).

Lemma serve_read evs fd buf k d s r0 rs :
  fd ≠ listenfd → fd ∈ kopen k → kepoll k !! fd = Some EPOLLIN →
  d ≠ [] → (length d <= 1024)%nat → c_string (store buf d) = Some s →
  run (handle_events listenfd ((fd, EPOLLIN) :: evs) buf) (got d :: r0 :: ok 0 :: rs) k =
  run (handle_events listenfd evs (store buf d)) rs
    (Kern (kopen k) (<[fd:=EPOLLOUT]> (kepoll k))
      ((EpollMod fd EPOLLOUT, ok 0) :: (Printf (text "read message is : " ++ s ++ text ""), r0) ::
       (Read fd MAXSIZE, got d) :: ktrace k)).
Proof.
  intros Hfd Ho He Hd Hlen Hs. cbn [handle_events]. rewrite (proj2 (Z.eqb_neq fd listenfd)) by done.
  cbn [andb]. rewrite run_bind. change (negb (Z.land EPOLLIN EPOLLIN =? 0)) with true. cbn iota.
  unfold do_read. rewrite run_bind. unfold sys. rewrite run_read by (done || unfold MAXSIZE; lia).
  cbn [run rv rdata got]. assert (0 < length d)%nat by (destruct d; simpl; [done | lia]).
  destruct (Z.eqb_spec (Z.of_nat (length d)) (-1)); [lia |].
  destruct (Z.eqb_spec (Z.of_nat (length d)) 0); [lia |].
  rewrite run_bind, (run_printf_s _ _ _ _ _ _ _ Hs). rewrite run_bind. unfold modify_event, sys_.
  rewrite (run_mod _ _ EPOLLIN) by done. reflexivity.
Qed.

Lemma serve_write evs fd buf k s w rs :
  fd ≠ listenfd → fd ∈ kopen k → kepoll k !! fd = Some EPOLLOUT →
  c_string buf = Some s → 0 <= w <= Z.of_nat (length s) →
  run (handle_events listenfd ((fd, EPOLLOUT) :: evs) buf) (ok w :: ok 0 :: rs) k =
  run (handle_events listenfd evs (zeros (Z.to_nat MAXSIZE))) rs
    (Kern (kopen k) (<[fd:=EPOLLIN]> (kepoll k))
      ((EpollMod fd EPOLLIN, ok 0) :: (Write fd s, ok w) :: ktrace k)).
Proof.
  intros Hfd Ho He Hs Hw. cbn [handle_events]. rewrite (proj2 (Z.eqb_neq fd listenfd)) by done.
  cbn [andb]. rewrite run_bind. change (negb (Z.land EPOLLOUT EPOLLIN =? 0)) with false.
  change (negb (Z.land EPOLLOUT EPOLLOUT =? 0)) with true. cbn iota.
  unfold do_write. rewrite run_bind, Hs. cbn [io_ub run]. rewrite run_bind. unfold sys.
  rewrite run_write by done. cbn [run rv ok]. destruct (Z.eqb_spec w (-1)); [lia |].
  rewrite run_bind. unfold modify_event, sys_. rewrite (run_mod _ _ EPOLLOUT) by done. reflexivity.
Qed.
Lemma run_do_epoll evs buf rs k :
  NoDup evs.*1 → Forall (λ e, kepoll k !! e.1 = Some e.2) evs → (length evs <= 100)%nat →
  run (do_epoll listenfd buf) (ready evs :: rs) k =
  run (handle_events listenfd evs buf) rs (log (EpollWait EPOLLEVENTS) (ready evs) k).
Proof.
  intros Hd Hf Hl. unfold do_epoll, sys. rewrite run_bind, run_wait; [done | done | done |].
  unfold EPOLLEVENTS. lia.
Qed.
End answers.

(** * The properties *)

(** C29. In every state reached while every message read was shorter than the
    buffer and every [accept] wrote the address it prints, the interest list
    watches the listening socket for connections and every other watched
    descriptor is an open client, waiting either to be read or to be written; and
    the next iteration has no undefined behaviour unless it reads 1024 bytes at
    once or its [accept], which is told an indeterminate length, leaves part of
    the printed address unwritten. *)
Theorem epoll_safe listenfd (p : mstate (epoll_server listenfd)) :
  reachable p → Forall (uncurry polite) (ktrace (pkern p)) →
  interest_inv listenfd (pkern p) ∧
  ∃ buf, pstate p = inl buf ∧
    ∀ rs, mstep (epoll_server listenfd) rs p = UB →
      ¬ Forall (uncurry polite) (calls_made (do_epoll listenfd buf) rs (pkern p)).
Proof.
  intros Hr Hp.
  pose (I := λ (x : data + Z) k, keeps False listenfd x k).
  assert (I (pstate p) (pkern p)) as [Hinv Hbuf].
  { refine (server_trace_invariant _ _ polite I _ _ p Hr Hp); unfold I, keeps.
    - intros buf k (-> & Hk & He & _). split; [| right; apply terminated_zeros].
      split; [by rewrite Hk, He, lookup_singleton_eq; set_solver |].
      intros fd ev. rewrite He. intros [<- <-]%lookup_singleton_Some. rewrite Hk. set_solver.
    - intros buf k [Hinv Hbuf].
      apply (wp_weaken _ False); [done |].
      apply do_epoll_keeps; [by right | done | done]. }
  split; [done |]. destruct (pstate p) as [buf |] eqn:E; [| done].
  exists buf. split; [done |]. intros rs Hub HR. revert Hub.
  eapply server_calls_safe; [done | | exact HR].
  eexists. apply do_epoll_keeps; [by right | done | done].
Qed.

(** An [accept] that was told too small a length: the address printed is
    indeterminate. *)
Theorem epoll_accept_unfilled listenfd k r rs :
  listenfd ∈ kopen k → 0 <= rv r → (rv r ∉ kopen k) → (length (rdata r) < 8)%nat →
  run (handle_accpet listenfd) (r :: rs) k = UB.
Proof.
  intros Ho Hv Hf Hl. unfold handle_accpet. rewrite run_bind. unfold sys. rewrite run_sys.
  - cbn [run]. destruct (Z.eqb_spec (rv r) (-1)); [lia |].
    destruct (show_address (rdata r)) eqn:E; [| done].
    assert (8 <= length (rdata r))%nat by (apply show_address_filled; by eexists). lia.
  - unfold possible, is_open, fresh_fd. rewrite (bool_decide_true (listenfd ∈ kopen k)) by done.
    rewrite (bool_decide_true (0 <= rv r ∧ _)) by done. apply orb_true_r.
Qed.

(** A client that is alone with the buffer gets its message back: in two
    iterations the server reads a message (shorter than the buffer, without
    NUL) and writes exactly that message to the same client, clears the buffer
    and watches the client for reading again. *)
Theorem epoll_echoes listenfd fd k d r0 w :
  fd ≠ listenfd → fd ∈ kopen k → kepoll k !! fd = Some EPOLLIN →
  d ≠ [] → NUL ∉ d → (length d < 1024)%nat → 0 <= w <= Z.of_nat (length d) →
  ∃ k', exec (epoll_server listenfd)
      [[ready [(fd, EPOLLIN)]; got d; r0; ok 0]; [ready [(fd, EPOLLOUT)]; ok w; ok 0]]
      (Process (inl (zeros (Z.to_nat MAXSIZE))) k) = Ok (Process (inl (zeros (Z.to_nat MAXSIZE))) k') ∧
    kepoll k' = kepoll k ∧ kopen k' = kopen k ∧
    received_from fd (ktrace k') = received_from fd (ktrace k) ++ d ∧
    sent_to fd (ktrace k') = sent_to fd (ktrace k) ++ d.
Proof.
  intros Hfd Ho He Hd Hn Hlen Hw.
  assert (c_string (store (zeros (Z.to_nat MAXSIZE)) d) = Some d) as Hs.
  { apply c_string_store; [done | unfold MAXSIZE; lia]. }
  eexists. split_and!.
  - eapply (exec_two (epoll_server listenfd)); apply iteration_Ok.
    { rewrite run_do_epoll; [| apply NoDup_singleton | by apply Forall_singleton | simpl; lia].
         rewrite (serve_read listenfd [] fd _ _ d d) by (done || lia). reflexivity. }
    rewrite run_do_epoll;
      [| apply NoDup_singleton | apply Forall_singleton; apply lookup_insert_eq | simpl; lia].
    rewrite (serve_write listenfd [] fd _ _ d w) by (done || apply lookup_insert_eq). reflexivity.
  - simpl. by rewrite insert_insert_eq, insert_id.
  - done.
  - simpl. unfold received_from. simpl. rewrite Z.eqb_refl, !app_nil_r. done.
  - unfold sent_to. simpl. rewrite Z.eqb_refl, !app_nil_r. done.
Qed.

(** Two clients that are ready in the same iteration share the one buffer:
    the first gets the second one's message (followed by the end of its own
    when that is longer) and the second gets nothing. *)
Theorem epoll_crosses listenfd f1 f2 k d1 d2 r1 r2 w1 :
  f1 ≠ listenfd → f2 ≠ listenfd → f1 ≠ f2 → f1 ∈ kopen k → f2 ∈ kopen k →
  kepoll k !! f1 = Some EPOLLIN → kepoll k !! f2 = Some EPOLLIN →
  d1 ≠ [] → d2 ≠ [] → NUL ∉ d1 → NUL ∉ d2 → (length d1 < 1024)%nat → (length d2 < 1024)%nat →
  0 <= w1 <= Z.of_nat (length d2) →
  ∃ k', exec (epoll_server listenfd)
      [[ready [(f1, EPOLLIN); (f2, EPOLLIN)]; got d1; r1; ok 0; got d2; r2; ok 0];
       [ready [(f1, EPOLLOUT); (f2, EPOLLOUT)]; ok w1; ok 0; ok 0; ok 0]]
      (Process (inl (zeros (Z.to_nat MAXSIZE))) k) = Ok (Process (inl (zeros (Z.to_nat MAXSIZE))) k') ∧
    sent_to f1 (ktrace k') = sent_to f1 (ktrace k) ++ d2 ++ drop (length d2) d1 ∧
    sent_to f2 (ktrace k') = sent_to f2 (ktrace k).
Proof.
  intros Hl1 Hl2 Hne Ho1 Ho2 He1 He2 Hd1 Hd2 Hn1 Hn2 Hlen1 Hlen2 Hw.
  assert (c_string (store (zeros (Z.to_nat MAXSIZE)) d1) = Some d1) as Hs1.
  { apply c_string_store; [done | unfold MAXSIZE; lia]. }
  assert (c_string (store (store (zeros (Z.to_nat MAXSIZE)) d1) d2) = Some (d2 ++ drop (length d2) d1)) as Hs2.
  { apply c_string_stale; [done | done | unfold MAXSIZE; lia ..]. }
  assert (NoDup [f1; f2]) as Hnd.
  { apply NoDup_cons_2; [| apply NoDup_singleton]. by intros ->%list_elem_of_singleton. }
  eexists. split_and!.
  - eapply (exec_two (epoll_server listenfd)); apply iteration_Ok.
    { rewrite run_do_epoll; [| done | by repeat constructor | simpl; lia].
         rewrite (serve_read listenfd [_] f1 _ _ d1 d1) by (done || lia).
         rewrite (serve_read listenfd [] f2 _ _ d2 (d2 ++ drop (length d2) d1));
           [reflexivity | done | done | simpl; by rewrite lookup_insert_ne | done | lia | done]. }
    rewrite run_do_epoll; [| done | | simpl; lia].
    2: { repeat constructor; simpl; [| by rewrite lookup_insert_eq].
         by rewrite lookup_insert_ne, lookup_insert_eq. }
    rewrite (serve_write listenfd [_] f1 _ _ (d2 ++ drop (length d2) d1) w1);
      [| done | done | simpl; by rewrite lookup_insert_ne, lookup_insert_eq | done | rewrite length_app; lia].
    rewrite (serve_write listenfd [] f2 _ _ [] 0);
      [reflexivity | done | done | simpl; by rewrite lookup_insert_ne, lookup_insert_eq | | simpl; lia].
    apply (c_string_app_nul []), not_elem_of_nil.
  - unfold sent_to. simpl. rewrite Z.eqb_refl. destruct (Z.eqb_spec f2 f1); [congruence |].
    rewrite !app_nil_r. done.
  - unfold sent_to. simpl. rewrite Z.eqb_refl. destruct (Z.eqb_spec f1 f2); [congruence |].
    rewrite !app_nil_r. done.
Qed.

(** The client's buffer is never initialised: when the first line typed has
    no NUL (and no line typed has one), sending it to the server measures it
    with [strlen] past the bytes read, into indeterminate ones. *)
Theorem epoll_client_overruns sockfd p d :
  minit (Client.client sockfd) p → d ≠ [] → NUL ∉ d → (length d <= 1024)%nat →
  exec (Client.client sockfd)
    [[ready [(Client.STDIN_FILENO, EPOLLIN)]; got d; ok 0]; [ready [(sockfd, EPOLLOUT)]]] p = UB.
Proof.
  intros (buf & k & -> & -> & Ho & Hs & He) Hd Hn Hlen.
  assert (0 < length d)%nat by (destruct d; simpl; [done | lia]).
  assert (Client.STDIN_FILENO ∈ kopen k) as H0 by (rewrite Ho; set_solver).
  assert (sockfd ∈ kopen k) as H1 by (rewrite Ho; set_solver).
  assert (kepoll k !! sockfd = None) as H2.
  { rewrite He. apply lookup_singleton_None. unfold Client.STDIN_FILENO. lia. }
  eassert (mstep (Client.client sockfd) [ready [(Client.STDIN_FILENO, EPOLLIN)]; got d; ok 0] _ =
    Ok (Process (inl (ustore (uninit (Z.to_nat MAXSIZE)) d)) _)) as Hstep.
  { apply iteration_Ok. unfold Client.handle_connection, sys.
    rewrite run_bind, run_wait;
      [| apply NoDup_singleton | apply Forall_singleton; rewrite He; apply lookup_singleton_eq | simpl; lia].
    cbn [run rfds ready Client.handle_events].
    change (negb (Z.land EPOLLIN EPOLLIN =? 0)) with true. cbn iota. rewrite run_bind.
    unfold Client.do_read, sys. rewrite run_bind, run_read by (done || unfold MAXSIZE; lia).
    cbn [run rv rdata got]. destruct (Z.eqb_spec (Z.of_nat (length d)) (-1)); [lia |].
    destruct (Z.eqb_spec (Z.of_nat (length d)) 0); [lia |]. cbn [Client.STDIN_FILENO Z.eqb].
    change (Client.STDIN_FILENO =? Client.STDIN_FILENO) with true. cbn iota.
    rewrite run_bind. unfold add_event, sys_. rewrite run_add by done. reflexivity. }
  rewrite (exec_step _ _ _ _ _ Hstep). cbn [exec].
  cbn [mstep Client.client server]. unfold iteration. cbn [pstate pkern].
  unfold Client.handle_connection, sys. rewrite run_bind, run_wait.
  2: { apply NoDup_singleton. }
  2: { apply Forall_singleton. simpl. apply lookup_insert_eq. }
  2: { simpl. lia. }
  cbn [run rfds ready Client.handle_events].
  change (negb (Z.land EPOLLOUT EPOLLIN =? 0)) with false.
  change (negb (Z.land EPOLLOUT EPOLLOUT =? 0)) with true. cbn iota.
  unfold Client.do_write. rewrite run_bind. rewrite run_bind. rewrite u_string_uninit by done. reflexivity.
Qed.

(** * Concrete runs *)
Definition start : process data :=
  Process (inl (zeros (Z.to_nat MAXSIZE))) (Kern {[3]} {[3 := EPOLLIN]} []).

Lemma epoll_start_init : minit (epoll_server 3) start.
Proof. exists (zeros (Z.to_nat MAXSIZE)), (Kern {[3]} {[3 := EPOLLIN]} []). by split_and!. Qed.

(** A [struct sockaddr_in] for 127.0.0.1, port 8787 (in network order). *)
Definition local_address : data :=
  Ascii.ascii_of_nat <$> [2; 0; 34; 83; 127; 0; 0; 1; 0; 0; 0; 0; 0; 0; 0; 0]%nat.
(** The port it prints is 21282, not 8787. *)
Example show_local : show_address local_address = Some "127.0.0.1:21282"%string.
Proof. by vm_compute. Qed.

(** Two clients connect, on descriptors 4 and 5. *)
Definition connects (fd : Z) : list result :=
  [ready [(3, EPOLLIN)]; Res fd 0 local_address []; ok 0; ok 0].
Definition two_clients : process data :=
  Eval vm_compute in
  match exec (epoll_server 3) [connects 4; connects 5] start with Ok p => p | _ => start end.

Lemma epoll_two_clients_reached : reachable (M := epoll_server 3) two_clients.
Proof.
  apply (exec_reachable (epoll_server 3) [connects 4; connects 5] start); [apply epoll_start_init |].
  by vm_compute.
Qed.

Lemma epoll_safe_witness :
  interest_inv 3 (pkern two_clients) ∧
  mstep (epoll_server 3) [ready [(4, EPOLLIN)]; got (text "hi"); ok 0; ok 0] two_clients ≠ UB.
Proof.
  assert (Forall (uncurry polite) (ktrace (pkern two_clients))) as Hp.
  { repeat constructor; simpl; try done; right; vm_compute; lia. }
  destruct (epoll_safe 3 _ epoll_two_clients_reached Hp) as (Hi & buf & Hbuf & Hub).
  split; [exact Hi |]. intros HU. apply Hub in HU. apply HU.
  injection Hbuf as <-. apply (bool_decide_unpack _). vm_compute. exact I.
Defined.

Lemma epoll_echoes_witness :
  ∃ k', exec (epoll_server 3)
      [[ready [(4, EPOLLIN)]; got (text "hello"); ok 0; ok 0]; [ready [(4, EPOLLOUT)]; ok 5; ok 0]]
      two_clients = Ok (Process (inl (zeros (Z.to_nat MAXSIZE))) k') ∧
    sent_to 4 (ktrace k') = text "hello".
Proof.
  destruct (epoll_echoes 3 4 (pkern two_clients) (text "hello") (ok 0) 5) as (k' & Hrun & _ & _ & _ & Hs);
    try (apply (bool_decide_unpack _); vm_compute; exact I).
  exists k'. split; [exact Hrun | exact Hs].
Defined.

Lemma epoll_crosses_witness :
  ∃ k', exec (epoll_server 3)
      [[ready [(4, EPOLLIN); (5, EPOLLIN)]; got (text "my secret"); ok 0; ok 0; got (text "hi"); ok 0; ok 0];
       [ready [(4, EPOLLOUT); (5, EPOLLOUT)]; ok 2; ok 0; ok 0; ok 0]]
      two_clients = Ok (Process (inl (zeros (Z.to_nat MAXSIZE))) k') ∧
    sent_to 4 (ktrace k') = text "hi secret" ∧ sent_to 5 (ktrace k') = [].
Proof.
  destruct (epoll_crosses 3 4 5 (pkern two_clients) (text "my secret") (text "hi") (ok 0) (ok 0) 2)
    as (k' & Hrun & H1 & H2); try (apply (bool_decide_unpack _); vm_compute; exact I).
  exists k'. split_and!; [exact Hrun | exact H1 | exact H2].
Defined.

Lemma epoll_client_overruns_witness :
  exec (Client.client 3)
    [[ready [(0, EPOLLIN)]; got (text "hi"); ok 0]; [ready [(3, EPOLLOUT)]]]
    (Process (inl (uninit (Z.to_nat MAXSIZE))) (Kern {[0; 1; 2; 3]} {[0 := EPOLLIN]} [])) = UB.
Proof.
  apply (epoll_client_overruns 3 _ (text "hi")).
  - exists (uninit (Z.to_nat MAXSIZE)), (Kern {[0; 1; 2; 3]} {[0 := EPOLLIN]} []). by split_and!.
  - discriminate.
  - apply (bool_decide_unpack _). vm_compute. exact I.
  - simpl. lia.
Defined.
