(* ===== verification/LongConnection.v ===== *)
(** [network/TCP/long_connection.server.c] and [long_connection.client.c]: the
    echo server with edge-triggered [epoll], non-blocking connections, a buffer
    per message and the pointer to it kept in the epoll event; and its client.
    One iteration of [run] ([epoll_wait] and the handling of its events) is one
    step. *)

From S2P Require Import Prelude Posix.

Local Open Scope Z_scope.

Definition MAX_EVENTS : Z := 1024.
Definition LISTEN_PORT : Z := 33333.
Definition MAX_BUF : nat := Z.to_nat 65536.
Definition EPOLLET : Z := 2 ^ 31.
Definition EXIT_FAILURE : Z := 1.
#[global] Arguments MAX_BUF : simpl never.

Lemma MAX_BUF_pos : (0 < MAX_BUF)%nat.
Proof. apply (Z2Nat.inj_lt 0 65536); lia. Qed.
#[global] Opaque MAX_BUF.

(** [struct echo_data]: the message (the whole buffer) and its connection. *)
Record echo_data := EchoData { echo_buf : data; echo_fd : Z }.

(** [ev.data] in the kernel's interest list: the pointer to the [echo_data] of
    the descriptors that wait to write; the others have their number there. *)
Abbreviation pointers := (gmap Z echo_data).

(** The four options, each tested; the result is not used. *)
Definition set_keepalive (sockfd : Z) : io unit :=
  r ← sys (Setsockopt sockfd);
  if rv r =? -1 then Ret tt else
  r ← sys (Setsockopt sockfd);
  if rv r =? -1 then Ret tt else
  r ← sys (Setsockopt sockfd);
  if rv r =? -1 then Ret tt else
  sys_ (Setsockopt sockfd).

(** [epoll_ctl] that ends the program when it fails. *)
Definition must (c : call) : io unit :=
  r ← sys c;
  if rv r =? -1 then Exit EXIT_FAILURE else Ret tt.

(** The listening socket, up to the loop. *)
Definition run_setup : io Z :=
  e ← sys EpollCreate;
  if rv e =? -1 then Exit EXIT_FAILURE else
  s ← sys Socket;
  sys_ (Setsockopt (rv s)) ;;
  b ← sys (Bind (rv s) LISTEN_PORT);
  if rv b =? -1 then Exit EXIT_FAILURE else
  sys_ (Listen (rv s) 5) ;;
  must (EpollAdd (rv s) EPOLLIN) ;;
  Ret (rv s).

(** A new connection: non-blocking, edge-triggered. *)
Definition accept_one (listen_sock : Z) : io unit :=
  c ← sys (Accept listen_sock);
  if rv c =? -1 then Exit EXIT_FAILURE else
  puts "accept from" ;;
  set_keepalive (rv c) ;;
  must (EpollAdd (rv c) (Z.lor EPOLLIN EPOLLET)).

(** [read(fd, buf + count, 1024)]: the bytes go to [count] and after; bytes
    past the end of the allocation are undefined behaviour. *)
Definition store_at (count : nat) (d : data) (buf : data) : option data :=
  if (count + length d <=? length buf)%nat
  then Some (take count buf ++ d ++ drop (count + length d) buf)
  else None.

(** How the reading loop ends: with [count] bytes in the buffer, or with the
    connection removed after a time-out. *)
Inductive burst := Got (buf : data) (count : nat) | TimedOut.

Fixpoint read_burst (fuel : nat) (fd : Z) (buf : data) (count : nat) : io burst :=
  match fuel with
  | O => OutOfFuel
  | S fuel =>
      r ← sys (Read fd 1024);
      if 0 <? rv r then
        buf ← io_ub (store_at count (rdata r) buf);
        read_burst fuel fd buf (count + length (rdata r))
      else if (rv r =? 0) || (rerrno r =? EAGAIN) then Ret (Got buf count)
      else if rerrno r =? ETIMEDOUT then
        must (EpollDel fd) ;; sys_ (Close fd) ;; Ret TimedOut
      else Exit EXIT_FAILURE
  end.

(** The writing loop, from [send_pos] in the message. *)
Fixpoint write_all (fuel : nat) (fd : Z) (msg : data) (send_pos : nat) : io unit :=
  match fuel with
  | O => OutOfFuel
  | S fuel =>
      r ← sys (Write fd (drop send_pos msg));
      if rv r <? 0 then
        if rerrno r =? EAGAIN then write_all fuel fd msg send_pos else Exit EXIT_FAILURE
      else
        let send_pos := (send_pos + Z.to_nat (rv r))%nat in
        if (length msg =? send_pos)%nat then Ret tt else write_all fuel fd msg send_pos
  end.

(** [events_handle]: an event for reading fills a new buffer and registers it
    for writing; an event for writing sends the C string of the buffer that was
    registered and goes back to reading. *)
Definition handle_in (fuel : nat) (fd : Z) (ptrs : pointers) : io pointers :=
  b ← read_burst fuel fd (zeros MAX_BUF) 0;
  match b with
  | TimedOut => Ret ptrs
  | Got buf count =>
      if (count =? 0)%nat then must (EpollDel fd) ;; sys_ (Close fd) ;; Ret ptrs
      else
        printf_s "recv from client: " buf "" ;;
        must (EpollMod fd (Z.lor EPOLLOUT EPOLLET)) ;;
        Ret (<[fd := EchoData buf fd]> ptrs)
  end.

Definition handle_out (fuel : nat) (fd : Z) (ptrs : pointers) : io pointers :=
  ed ← io_ub (ptrs !! fd);
  printf_s "write data to client: " (echo_buf ed) "" ;;
  msg ← io_ub (c_string (echo_buf ed));
  write_all fuel (echo_fd ed) msg 0 ;;
  must (EpollMod (echo_fd ed) (Z.lor EPOLLIN EPOLLET)) ;;
  Ret (delete fd ptrs).

Definition events_handle (fuel : nat) (fd ev : Z) (ptrs : pointers) : io pointers :=
  if negb (Z.land ev EPOLLIN =? 0) then handle_in fuel fd ptrs
  else if negb (Z.land ev EPOLLOUT =? 0) then handle_out fuel fd ptrs
  else Ret ptrs.

Fixpoint handle_all (fuel : nat) (listen_sock : Z) (events : list (Z * Z)) (ptrs : pointers) :
    io pointers :=
  match events with
  | [] => Ret ptrs
  | (fd, ev) :: events =>
      ptrs ← (if fd =? listen_sock then accept_one listen_sock ;; Ret ptrs
              else events_handle fuel fd ev ptrs);
      handle_all fuel listen_sock events ptrs
  end.

(** One iteration of the loop of [run]. *)
Definition run_loop (fuel : nat) (listen_sock : Z) (ptrs : pointers) : io pointers :=
  r ← sys (EpollWait MAX_EVENTS);
  if rv r =? -1 then Exit EXIT_FAILURE else handle_all fuel listen_sock (rfds r) ptrs.

Definition echo_server (fuel : nat) (listen_sock : Z) : machine :=
  server (run_loop fuel listen_sock)
    (λ ptrs k, ptrs = ∅ ∧ kopen k = {[listen_sock]} ∧ kepoll k = {[listen_sock := EPOLLIN]}).

(** * The client *)
Module Client.
Definition MAXLEN : nat := Z.to_nat 65535.
#[global] Arguments MAXLEN : simpl never.

(** [fgets]: up to [MAXLEN - 1] bytes of [stdin], through the first newline. *)
Definition is_newline (c : byte) : bool := Ascii.eqb c (Ascii.ascii_of_nat 10).
Fixpoint line (n : nat) (stdin : data) : data * data :=
  match n, stdin with
  | S n, c :: stdin =>
      if is_newline c then ([c], stdin) else let '(l, stdin) := line n stdin in (c :: l, stdin)
  | _, _ => ([], stdin)
  end.

(** Where [client_handle] is: at [fgets], or at [read]; with [recvbuf] and what
    is left of the standard input. *)
Inductive turn_state := Sending (recvbuf stdin : data) | Receiving (recvbuf stdin : data).

(** Half a turn of [while (1)]: up to the [write] of the line, and from the
    [read] of the answer; [Exit 0] after the loop. *)
Definition client_handle (sock : Z) (s : turn_state) : io turn_state :=
  let stop := sys_ (Close sock) ;; Exit 0 in
  match s with
  | Sending recvbuf [] => stop
  | Sending recvbuf stdin =>
      let '(l, stdin) := line (MAXLEN - 1) stdin in
      if bool_decide (head l = Some (Ascii.ascii_of_nat 35)) then stop
      else
        msg ← io_ub (c_string (l ++ [NUL]));
        sys_ (Write sock msg) ;;
        Ret (Receiving recvbuf stdin)
  | Receiving recvbuf stdin =>
      r ← sys (Read sock (Z.of_nat MAXLEN));
      if rv r =? 0 then stop
      else
        let recvbuf := store recvbuf (rdata r) in
        (if rv r =? -1 then sys_ (WriteBad 1)
         else sys_ (Write 1 (take (Z.to_nat (rv r)) recvbuf))) ;;
        puts "time diff" ;;
        Ret (Sending recvbuf stdin)
  end.

(** The client, with what is typed. *)
Definition client (sock : Z) (input : data) : machine :=
  server (client_handle sock)
    (λ s k, s = Sending (zeros MAXLEN) input ∧ kopen k = {[0; 1; 2; sock]} ∧ ktrace k = []).

(** [fgets] takes a part of the input, and not nothing. *)
Lemma line_app n stdin : (line n stdin).1 ++ (line n stdin).2 = stdin.
Proof.
  revert stdin. induction n as [| n IH]; intros [| c stdin]; simpl; try done.
  destruct (is_newline c); [done |]. specialize (IH stdin). destruct (line n stdin) as [l rest].
  simpl in *. by rewrite IH.
Qed.
End Client.

(** * The reading loop *)
Section burst.
Context (fd : Z).

(** The buffer after the chunks, from [count] on. *)
Definition filled (buf : data) (count : nat) (d : data) : data :=
  take count buf ++ d ++ drop (count + length d) buf.

Lemma filled_length buf count d :
  (count + length d <= length buf)%nat → length (filled buf count d) = length buf.
Proof. intros H. unfold filled. rewrite !length_app, length_take, length_drop. lia. Qed.

Lemma filled_app buf count d1 d2 :
  (count + length d1 + length d2 <= length buf)%nat →
  filled (filled buf count d1) (count + length d1) d2 = filled buf count (d1 ++ d2).
Proof.
  intros H. unfold filled at 1 3. rewrite length_app, <- app_assoc.
  assert (take (count + length d1) (filled buf count d1) = take count buf ++ d1) as ->.
  { unfold filled. rewrite app_assoc. rewrite take_app_le, take_ge;
      [done | |]; rewrite length_app, length_take; lia. }
  rewrite <- app_assoc. do 3 f_equal. unfold filled.
  rewrite app_assoc, drop_app_ge; [| rewrite length_app, length_take; lia].
  rewrite drop_drop, length_app, length_take. f_equal. lia.
Qed.

(** Every successful read makes progress in a buffer that is finite, so the
    loop ends: the fuel [MAX_BUF + 1] is enough. *)
Lemma read_burst_finishes fuel buf count k :
  (count <= length buf)%nat → (length buf - count < fuel)%nat →
  finishes (read_burst fuel fd buf count) k.
Proof.
  revert buf count k. induction fuel as [| fuel IH]; intros buf count k Hc Hf; [lia |].
  cbn [read_burst]. apply finishes_call. intros r k' [-> Hr]%kstep_Read.
  destruct (Z.ltb_spec 0 (rv r)) as [Hpos | Hneg].
  - destruct Hr as [[? _] | (_ & Hl & _)]; [lia |].
    unfold store_at. destruct (Nat.leb_spec (count + length (rdata r)) (length buf)); [| exact I].
    apply IH; fold (filled buf count (rdata r)); rewrite filled_length by done; lia.
  - destruct ((rv r =? 0) || (rerrno r =? EAGAIN)); [done |].
    destruct (rerrno r =? ETIMEDOUT); [| done].
    apply finishes_call. intros r2 k2 _. by destruct (rv r2 =? -1).
Qed.

(** The end of a burst: nothing more for now, or the end of the stream. *)
Definition burst_end (r : result) : Prop := r = err EAGAIN ∨ r = got [].

Lemma read_burst_run ds r fuel buf count rs k :
  fd ∈ kopen k → Forall (chunk 1024) ds → burst_end r → (length ds < fuel)%nat →
  (count <= length buf)%nat →
  run (read_burst fuel fd buf count) (map got ds ++ r :: rs) k =
    if (count + length (concat ds) <=? length buf)%nat
    then Ok (inl (Got (filled buf count (concat ds)) (count + length (concat ds))), rs,
             log (Read fd 1024) r (log_reads fd 1024 ds k))
    else UB.
Proof.
  intros Hfd Hds Hend. revert fuel buf count k Hfd.
  induction Hds as [| d ds [Hd0 Hd1] Hds IH]; intros fuel buf count k Hfd Hf Hc;
    (destruct fuel as [| fuel]; [cbn [length] in Hf; lia |]); cbn [concat map app length] in *.
  - rewrite (proj2 (Nat.leb_le _ _)) by lia. unfold filled. cbn [length app].
    rewrite Nat.add_0_r, take_drop. cbn [read_burst]. rewrite run_call.
    destruct Hend as [-> | ->]; [by rewrite run_fail |].
    rewrite run_read; [reflexivity | done | simpl; lia].
  - cbn [read_burst]. rewrite run_call, run_read by done. cbn [rv rdata got].
    rewrite (proj2 (Z.ltb_lt 0 _)) by lia. unfold store_at.
    rewrite length_app. destruct (Nat.leb_spec (count + length d) (length buf)) as [Hcd | Hcd].
    2: { by rewrite (proj2 (Nat.leb_gt _ _)) by lia. }
    cbn [io_ub]. fold (filled buf count d).
    change (run (Ret (filled buf count d) ≫= ?f) ?rs ?k) with (run (f (filled buf count d)) rs k).
    cbv beta. rewrite IH by (done || rewrite ?filled_length by done; lia). rewrite filled_length by done.
    rewrite Nat.add_assoc.
    destruct (Nat.leb_spec (count + length d + length (concat ds)) (length buf)); [| done].
    by rewrite filled_app.
Qed.
End burst.

(** * The writing loop *)
Section writes.
Context (fd : Z).

(** The results of the calls: so many bytes taken, or [EAGAIN]. *)
Definition taken (w : option nat) : result :=
  match w with Some n => ok (Z.of_nat n) | None => err EAGAIN end.

(** They take [n] bytes in all, the last of them with the last call. *)
Fixpoint delivers (n : nat) (ws : list (option nat)) : Prop :=
  match ws with
  | [] => False
  | None :: ws => delivers n ws
  | Some w :: ws => w = n ∧ ws = [] ∨ (0 < w < n)%nat ∧ delivers (n - w) ws
  end.

Lemma write_all_run msg ws pos fuel rs k :
  fd ∈ kopen k → (pos <= length msg)%nat → delivers (length msg - pos) ws →
  (length ws <= fuel)%nat →
  ∃ k', run (write_all fuel fd msg pos) (map taken ws ++ rs) k = Ok (inl tt, rs, k') ∧
    kopen k' = kopen k ∧ kepoll k' = kepoll k ∧
    accepted fd (ktrace k') = accepted fd (ktrace k) ++ drop pos msg.
Proof.
  revert pos fuel k. induction ws as [| w ws IH]; intros pos fuel k Hfd Hp Hd Hf; [done |].
  destruct fuel as [| fuel]; [cbn [length] in Hf; lia |]. cbn [length] in Hf. cbn [write_all map app].
  rewrite run_call. destruct w as [w |]; cbn [delivers taken] in *.
  - assert (w <= length msg - pos)%nat as Hw by (destruct Hd as [[-> _] | [? _]]; lia).
    rewrite run_write; [| done | rewrite length_drop; lia]. cbn [rv ok].
    rewrite (proj2 (Z.ltb_ge _ 0)), Nat2Z.id by lia. cbv zeta.
    destruct Hd as [[-> ->] | [Hlt Hd]].
    + rewrite (proj2 (Nat.eqb_eq _ _)) by lia. eexists. split; [reflexivity |].
      split_and!; [done | done |]. rewrite accepted_log, Z.eqb_refl. cbn [rv ok].
      by rewrite Nat2Z.id, take_ge by (rewrite length_drop; lia).
    + rewrite (proj2 (Nat.eqb_neq _ _)) by lia.
      edestruct (IH (pos + w)%nat fuel) as (k' & -> & Ho & He & Ha); [done | lia | | lia |].
      { by replace (length msg - (pos + w))%nat with (length msg - pos - w)%nat by lia. }
      exists k'. split_and!; [done | done | done |]. rewrite Ha, accepted_log, Z.eqb_refl. cbn [rv ok].
      rewrite Nat2Z.id, <- app_assoc. f_equal. rewrite <- drop_drop. apply take_drop.
  - rewrite run_fail. cbn [rv err rerrno]. cbn [Z.ltb Z.compare Z.eqb Pos.eqb].
    edestruct (IH pos fuel) as (k' & -> & Ho & He & Ha); [done | done | done | lia |].
    exists k'. split_and!; [done | done | done |]. rewrite Ha, accepted_log, Z.eqb_refl.
    cbn [rv err Z.to_nat take]. by rewrite app_nil_r.
Qed.
End writes.

(** * The interest list and the pointers *)
Section table.
Context (listen_sock : Z).

Definition reading : Z := Z.lor EPOLLIN EPOLLET.
Definition writing : Z := Z.lor EPOLLOUT EPOLLET.

(** A descriptor that waits to write has its message, with a NUL in it. *)
Definition has_message (fd : Z) (ptrs : pointers) : Prop :=
  ∃ ed, ptrs !! fd = Some ed ∧ echo_fd ed = fd ∧ NUL ∈ echo_buf ed.

Record table (ptrs : pointers) (k : kern) : Prop := {
  tab_listen : listen_sock ∈ kopen k ∧ kepoll k !! listen_sock = Some EPOLLIN;
  tab_interest : ∀ fd ev, kepoll k !! fd = Some ev → fd ∈ kopen k ∧
    (fd = listen_sock ∨ ev = reading ∨ ev = writing ∧ has_message fd ptrs)
}.

(** A call that leaves the descriptors alone, or is refused. *)
Lemma table_same ptrs k k' :
  table ptrs k → kopen k' = kopen k → kepoll k' = kepoll k → table ptrs k'.
Proof. intros [Hl Hi] Ho He. split; rewrite Ho, He; done. Qed.

Lemma table_neutral ptrs c r k k' :
  neutral c = true → kstep c r k = Some k' → table ptrs k → table ptrs k'.
Proof. intros Hc Hk Ht. apply kstep_neutral in Hk as ->; [| done]. by eapply table_same. Qed.

Lemma kstep_ctl c fd r k k' :
  kstep c r k = Some k' →
  (match c with EpollAdd f _ | EpollMod f _ | EpollDel f => f = fd | _ => False end) →
  (rv r = -1 ∧ kopen k' = kopen k ∧ kepoll k' = kepoll k) ∨
  (rv r = 0 ∧ fd ∈ kopen k ∧ kopen k' = kopen k ∧
   kepoll k' = match c with
     | EpollAdd _ ev | EpollMod _ ev => <[fd:=ev]> (kepoll k)
     | _ => delete fd (kepoll k) end).
Proof.
  intros [Hp ->]%kstep_Some Hc. unfold possible, is_open in Hp. unfold effect.
  destruct (Z.eqb_spec (rv r) (-1)) as [E | E]; [by left | right]. cbn [andb orb] in Hp.
  destruct c; try done; subst; apply andb_true_iff in Hp as [Hp H0]; apply Z.eqb_eq in H0;
    apply andb_true_iff in Hp as [Hp _]; apply bool_decide_eq_true in Hp; by split_and!.
Qed.

Lemma table_closed ptrs fd k k' :
  table ptrs k → fd ≠ listen_sock → kepoll k' = delete fd (kepoll k) →
  kopen k' = kopen k ∨ kopen k' = kopen k ∖ {[fd]} → table ptrs k'.
Proof.
  intros [[Hl Hle] Hi] Hne He Ho. split; rewrite He.
  - rewrite lookup_delete_ne by done. split; [destruct Ho as [-> | ->]; set_solver | done].
  - intros f ev [Hf Hev]%lookup_delete_Some. destruct (Hi f ev Hev) as [Hopen H].
    split; [destruct Ho as [-> | ->]; set_solver | done].
Qed.

Lemma table_writing ptrs fd buf k k' :
  table ptrs k → fd ≠ listen_sock → fd ∈ kopen k → kopen k' = kopen k →
  kepoll k' = <[fd:=writing]> (kepoll k) → NUL ∈ buf →
  table (<[fd := EchoData buf fd]> ptrs) k'.
Proof.
  intros [[Hl Hle] Hi] Hne Hfd Ho He Hn. split; rewrite Ho, He; [by rewrite lookup_insert_ne |].
  intros f ev [[<- <-] | [Hf Hev]]%lookup_insert_Some.
  - split; [done |]. right; right. split; [done |]. eexists. by rewrite lookup_insert_eq.
  - destruct (Hi f ev Hev) as [? [| [| [? (ed & ? & ? & ?)]]]]; (split; [done |]); [by left | by auto |].
    right; right. split; [done |]. exists ed. by rewrite lookup_insert_ne.
Qed.

Lemma table_reading ptrs fd k k' :
  table ptrs k → fd ≠ listen_sock → fd ∈ kopen k → kopen k' = kopen k →
  kepoll k' = <[fd:=reading]> (kepoll k) → table (delete fd ptrs) k'.
Proof.
  intros [[Hl Hle] Hi] Hne Hfd Ho He. split; rewrite Ho, He; [by rewrite lookup_insert_ne |].
  intros f ev [[<- <-] | [Hf Hev]]%lookup_insert_Some; [by auto |].
  destruct (Hi f ev Hev) as [? [| [| [? (ed & ? & ? & ?)]]]]; (split; [done |]); [by left | by auto |].
  right; right. split; [done |]. exists ed. by rewrite lookup_delete_ne.
Qed.

Lemma table_accepted ptrs fd k k' :
  table ptrs k → (fd ∉ kopen k) → kopen k' = {[fd]} ∪ kopen k →
  kepoll k' = <[fd:=reading]> (kepoll k) → table ptrs k'.
Proof.
  intros [[Hl Hle] Hi] Hfd Ho He. assert (fd ≠ listen_sock) by congruence.
  split; rewrite Ho, He; [rewrite lookup_insert_ne by done; set_solver |].
  intros f ev [[<- <-] | [Hf Hev]]%lookup_insert_Some; [split; [set_solver | by auto] |].
  destruct (Hi f ev Hev) as [? ?]. split; [set_solver | done].
Qed.
End table.

(** * The program keeps the table *)
Section keeps.
Context (listen_sock : Z).

(** What may change of the other descriptors while one is handled: nothing. *)
Definition others (fds : list Z) (k k' : kern) : Prop :=
  ∀ f, f ∈ fds → kepoll k' !! f = kepoll k !! f.

Lemma wp_must c k Q :
  (∀ r k', kstep c r k = Some k' → rv r ≠ -1 → Q (inl tt) k') → (∀ k', Q (inr EXIT_FAILURE) k') →
  wp (each anything) True (must c) k Q.
Proof.
  intros Hok Hex. unfold must. apply wp_sys. intros r k' _ Hk.
  destruct (Z.eqb_spec (rv r) (-1)); [apply Hex | by eapply Hok].
Qed.

Lemma wp_printf_checked {B} before b after (f : unit → io B) k Q :
  (NUL ∈ b → ∀ d r, wp (each anything) True (f tt) (log (Printf d) r k) Q) →
  wp (each anything) True (printf_s before b after ≫= f) k Q.
Proof.
  intros H. unfold printf_s. destruct (c_string b) as [d |] eqn:E; [| exact I].
  apply wp_sys_. intros r k' _ Hk. apply kstep_neutral in Hk as ->; [| done]. apply H.
  apply c_string_Some in E as [Hs _]. destruct (decide (NUL ∈ b)) as [| Hn]; [done |].
  apply strlen_None in Hn. congruence.
Qed.

Lemma wp_set_keepalive fd k Q :
  (∀ k', kopen k' = kopen k → kepoll k' = kepoll k → Q (inl tt) k') →
  wp (each anything) True (set_keepalive fd) k Q.
Proof.
  intros HQ. unfold set_keepalive.
  do 3 (apply wp_sys; intros ? ? _ Hk; apply kstep_neutral in Hk as ->; [| done];
        match goal with |- context [if ?b then _ else _] => destruct b end; [by apply HQ |]).
  intros ? ? _ Hk. apply kstep_neutral in Hk as ->; [| done]. by apply HQ.
Qed.

Lemma wp_read_burst fuel fd buf count k Q :
  (∀ b c k', kopen k' = kopen k → kepoll k' = kepoll k → Q (inl (Got b c)) k') →
  (∀ k', kepoll k' = delete fd (kepoll k) →
     kopen k' = kopen k ∨ kopen k' = kopen k ∖ {[fd]} → Q (inl TimedOut) k') →
  (∀ k', Q (inr EXIT_FAILURE) k') →
  wp (each anything) True (read_burst fuel fd buf count) k Q.
Proof.
  intros HG HT HE. revert buf count k HG HT. induction fuel as [| fuel IH]; intros buf count k HG HT; [exact I |].
  cbn [read_burst]. apply wp_sys. intros r k1 _ [-> _]%kstep_Read.
  destruct (0 <? rv r).
  { destruct (store_at count (rdata r) buf) as [buf' |]; [| exact I].
    change (wp (each anything) True (read_burst fuel fd buf' (count + length (rdata r))) (log (Read fd 1024) r k) Q).
    apply IH; done. }
  destruct ((rv r =? 0) || (rerrno r =? EAGAIN)); [by apply HG |].
  destruct (rerrno r =? ETIMEDOUT); [| apply HE].
  apply wp_bind, wp_must; [| done]. intros r2 k2 Hk2 Hr2.
  destruct (kstep_ctl _ fd _ _ _ Hk2 eq_refl) as [[? _] | (_ & Hfd & Ho & He)]; [done |].
  apply wp_sys_. intros r3 k3 _ [_ ->]%kstep_Some. apply HT; unfold effect; destruct (rv r3 =? -1);
    cbn [log kepoll kopen] in *; rewrite ?He, ?Ho; [done | by rewrite delete_delete_eq | by left | by right].
Qed.

(** The events not handled yet are those of the interest list. *)
Definition due (rest : list (Z * Z)) (m : gmap Z Z) : Prop :=
  Forall (λ e, m !! e.1 = Some e.2) rest.

Lemma due_other rest fd (m m' : gmap Z Z) :
  due rest m → fd ∉ rest.*1 → (∀ f, f ≠ fd → m' !! f = m !! f) → due rest m'.
Proof.
  unfold due. rewrite !Forall_forall. intros Hd Hfd Hm e He. rewrite Hm; [by apply Hd |].
  intros <-. apply Hfd. by apply list_elem_of_fmap_2.
Qed.

Lemma due_insert rest fd v m : due rest m → fd ∉ rest.*1 → due rest (<[fd:=v]> m).
Proof. intros Hd Hfd. eapply due_other; [done | done |]. intros f Hf. by apply lookup_insert_ne. Qed.
Lemma due_delete rest fd m : due rest m → fd ∉ rest.*1 → due rest (delete fd m).
Proof. intros Hd Hfd. eapply due_other; [done | done |]. intros f Hf. by apply lookup_delete_ne. Qed.

(** The state of the loop over the events. *)
Definition after (rest : list (Z * Z)) (x : pointers + Z) (k : kern) : Prop :=
  match x with inl ptrs => table listen_sock ptrs k ∧ due rest (kepoll k) | inr _ => True end.

Lemma accept_one_keeps ptrs rest k :
  table listen_sock ptrs k → due rest (kepoll k) →
  wp (each anything) True (accept_one listen_sock ;; Ret ptrs) k (after rest).
Proof.
  intros Ht Hd. apply wp_bind. unfold accept_one. apply wp_sys.
  intros r k1 _ [(-> & _) | (Hv & Hfresh & Ho & He)]%kstep_Accept; [exact I |].
  destruct (Z.eqb_spec (rv r) (-1)); [exact I |].
  apply wp_sys_. intros r2 k2 _ Hk2. apply kstep_neutral in Hk2 as ->; [| done].
  apply wp_bind, wp_set_keepalive. intros k3 Ho3 He3. cbn [log kopen kepoll] in Ho3, He3.
  apply wp_must; [| done]. intros r4 k4 Hk4 Hr4.
  destruct (kstep_ctl _ _ _ _ _ Hk4 eq_refl) as [[? _] | (_ & _ & Ho4 & He4)]; [done |].
  rewrite Ho3, Ho in Ho4. rewrite He3, He in He4. cbn [wp]. split.
  - by eapply table_accepted.
  - rewrite He4. apply due_insert; [done |]. intros ([f ev] & Hf & Hin)%list_elem_of_fmap. cbn [fst] in Hf.
    apply (proj1 (Forall_forall _ _) Hd) in Hin. cbn [fst snd] in Hin. subst f.
    apply (tab_interest _ _ _ Ht) in Hin as [? _]. done.
Qed.

Lemma handle_in_keeps fuel fd ptrs rest k :
  table listen_sock ptrs k → due rest (kepoll k) → fd ≠ listen_sock → fd ∉ rest.*1 →
  wp (each anything) True (handle_in fuel fd ptrs) k (after rest).
Proof.
  intros Ht Hd Hne Hrest. unfold handle_in. apply wp_bind, wp_read_burst; [| | done].
  - intros buf count k1 Ho He. pose proof (table_same _ _ _ _ Ht Ho He) as Ht1.
    rewrite <- He in Hd. destruct (count =? 0)%nat.
    + apply wp_bind, wp_must; [| done]. intros r2 k2 Hk2 Hr2.
      destruct (kstep_ctl _ fd _ _ _ Hk2 eq_refl) as [[? _] | (_ & Hfd & Ho2 & He2)]; [done |].
      apply wp_sys_. intros r3 k3 _ [_ ->]%kstep_Some. split.
      * eapply (table_closed listen_sock ptrs fd k1); [done | done | |]; unfold effect;
          destruct (rv r3 =? -1); cbn [log kepoll kopen]; rewrite ?He2, ?Ho2;
          [done | by rewrite delete_delete_eq | by left | by right].
      * unfold effect. destruct (rv r3 =? -1); cbn [log kepoll]; rewrite He2;
          repeat apply due_delete; done.
    + apply wp_printf_checked. intros Hnul d r2. apply wp_bind, wp_must; [| done].
      intros r3 k3 Hk3 Hr3.
      destruct (kstep_ctl _ fd _ _ _ Hk3 eq_refl) as [[? _] | (_ & Hfd & Ho3 & He3)]; [done |].
      cbn [log kopen kepoll] in Hfd, Ho3, He3. cbn [wp]. split.
      * by apply (table_writing listen_sock ptrs fd buf k1).
      * rewrite He3. by apply due_insert.
  - intros k1 He Ho. cbn [wp]. split; [by eapply table_closed | rewrite He; by apply due_delete].
Qed.

(** Sending a message that is registered has no undefined behaviour. *)
Lemma handle_out_keeps fuel fd ptrs rest k :
  table listen_sock ptrs k → due rest (kepoll k) → fd ≠ listen_sock → fd ∉ rest.*1 →
  has_message fd ptrs →
  wp (each anything) False (handle_out fuel fd ptrs) k (after rest).
Proof.
  intros Ht Hd Hne Hrest (ed & Hed & Hfd & Hnul). unfold handle_out. rewrite Hed.
  change (wp (each anything) False (printf_s "write data to client: " (echo_buf ed) "" ;;
    msg ← io_ub (c_string (echo_buf ed)); write_all fuel (echo_fd ed) msg 0 ;;
    must (EpollMod (echo_fd ed) (Z.lor EPOLLIN EPOLLET)) ;; Ret (delete fd ptrs)) k (after rest)).
  apply wp_bind, wp_printf_s; [by left |]. intros r1. apply wp_bind, wp_io_ub.
  { right. destruct (c_string (echo_buf ed)) eqn:E; [by eexists |].
    apply fmap_None, strlen_None in E. done. }
  intros msg _. rewrite Hfd. apply wp_bind.
  eapply (wp_mono _ _ _ _ (λ x k', match x with inl _ => kopen k' = kopen k ∧ kepoll k' = kepoll k | inr _ => True end)).
  { intros [u |] k1; [| done]. intros [Ho He]. apply wp_bind. unfold must. apply wp_sys.
    intros r2 k2 _ Hk2.
    destruct (kstep_ctl _ fd _ _ _ Hk2 eq_refl) as [[-> _] | (-> & Hopen & Ho2 & He2)]; [exact I |].
    cbn [Z.eqb wp]. rewrite Ho in Ho2, Hopen. rewrite He in He2. split.
    - by apply (table_reading listen_sock ptrs fd k).
    - rewrite He2. by apply due_insert. }
  generalize 0%nat as pos.
  assert (kopen (log (Printf (text "write data to client: " ++ default [] (c_string (echo_buf ed)) ++ text ""))
    r1 k) = kopen k ∧ kepoll (log (Printf (text "write data to client: " ++
      default [] (c_string (echo_buf ed)) ++ text "")) r1 k) = kepoll k) as [Ho He] by done.
  revert Ho He. generalize (log (Printf (text "write data to client: " ++
      default [] (c_string (echo_buf ed)) ++ text "")) r1 k) as k1.
  induction fuel as [| fuel IH]; intros k1 Ho He pos; [exact I |]. cbn [write_all].
  apply wp_sys. intros r2 k2 _ Hk2. apply kstep_neutral in Hk2 as ->; [| done].
  destruct (rv r2 <? 0); [destruct (rerrno r2 =? EAGAIN); [by apply IH | exact I] |].
  cbv zeta. destruct (length msg =? _)%nat; [done | by apply IH].
Qed.

Lemma handle_all_keeps fuel events ptrs k :
  table listen_sock ptrs k → due events (kepoll k) → NoDup events.*1 →
  wp (each anything) True (handle_all fuel listen_sock events ptrs) k (after []).
Proof.
  revert ptrs k. induction events as [| [fd ev] events IH]; intros ptrs k Ht Hd Hnd; [done |].
  cbn [handle_all]. apply Forall_cons in Hd as [Hev Hd]. cbn [fst snd] in Hev.
  rewrite fmap_cons in Hnd. apply NoDup_cons in Hnd as [Hfd Hnd]. cbn [fst] in Hfd.
  apply wp_bind. eapply (wp_mono _ _ _ _ (after events)).
  { intros [ptrs' |] k1; [| done]. intros [Ht1 Hd1]. by apply IH. }
  destruct (Z.eqb_spec fd listen_sock) as [-> | Hne]; [by apply accept_one_keeps |].
  unfold events_handle. destruct (negb (Z.land ev EPOLLIN =? 0)) eqn:Hin; [by apply handle_in_keeps |].
  destruct (negb (Z.land ev EPOLLOUT =? 0)); [| by split].
  apply (wp_weaken _ False); [done |]. apply handle_out_keeps; try done.
  destruct (tab_interest _ _ _ Ht fd ev Hev) as [_ [? | [-> | [_ ?]]]]; [done | by vm_compute in Hin | done].
Qed.

Lemma run_loop_keeps fuel ptrs k :
  table listen_sock ptrs k → wp (each anything) True (run_loop fuel listen_sock ptrs) k (after []).
Proof.
  intros Ht. unfold run_loop. apply wp_sys. intros r k1 _ Hk.
  destruct (rv r =? -1) eqn:E; [exact I |].
  pose proof (kstep_EpollWait _ _ _ _ Hk) as Hd. pose proof (kstep_EpollWait_NoDup _ _ _ _ Hk) as Hnd.
  apply kstep_neutral in Hk as ->; [| done]. apply handle_all_keeps; [by eapply table_same | done | done].
Qed.
End keeps.

(** * A message, from the first chunk to the last byte sent back *)
Section message.
Context (listen_sock : Z).

Lemma run_must_mod fd ev rs k :
  fd ∈ kopen k → is_Some (kepoll k !! fd) →
  run (must (EpollMod fd ev)) (ok 0 :: rs) k =
    Ok (inl tt, rs, Kern (kopen k) (<[fd:=ev]> (kepoll k)) ((EpollMod fd ev, ok 0) :: ktrace k)).
Proof. intros Hfd [old He]. unfold must. by rewrite run_call, (run_mod _ _ old). Qed.

Lemma run_handle_in fuel fd ptrs ds k rs :
  fd ∈ kopen k → kepoll k !! fd = Some reading → Forall (chunk 1024) ds →
  length (concat ds) ≠ 0%nat → NUL ∉ concat ds → (length (concat ds) < MAX_BUF)%nat →
  (length ds < fuel)%nat →
  ∃ k', run (handle_in fuel fd ptrs) (map got ds ++ err EAGAIN :: ok 0 :: ok 0 :: rs) k =
      Ok (inl (<[fd := EchoData (store (zeros MAX_BUF) (concat ds)) fd]> ptrs), rs, k') ∧
    kopen k' = kopen k ∧ kepoll k' = <[fd:=writing]> (kepoll k) ∧
    ∀ f, accepted f (ktrace k') = accepted f (ktrace k).
Proof.
  intros Hfd Hep Hds Hpos Hn Hlen Hf. unfold handle_in.
  assert (length (zeros MAX_BUF) = MAX_BUF) as Hz by apply length_replicate.
  rewrite run_bind, read_burst_run; [| done | done | by left | done | lia]. rewrite Hz. cbn [Nat.add].
  rewrite (proj2 (Nat.leb_le _ _)) by lia. rewrite (proj2 (Nat.eqb_neq _ 0)) by done.
  change (filled (zeros MAX_BUF) 0 (concat ds)) with (store (zeros MAX_BUF) (concat ds)).
  rewrite run_bind, (run_printf_s _ _ _ (concat ds)) by by apply c_string_store.
  rewrite run_bind, run_must_mod.
  - eexists. split; [reflexivity |]. cbn [log kopen kepoll]. rewrite log_reads_open, log_reads_epoll.
    split_and!; [done | done |]. intros f. unfold accepted. cbn [log ktrace flow].
    rewrite !app_nil_r. apply accepted_log_reads.
  - cbn [log kopen]. by rewrite log_reads_open.
  - cbn [log kepoll]. rewrite log_reads_epoll, Hep. by eexists.
Qed.

Lemma run_handle_out fuel fd ptrs buf msg ws k rs :
  fd ∈ kopen k → is_Some (kepoll k !! fd) → ptrs !! fd = Some (EchoData buf fd) →
  c_string buf = Some msg → delivers (length msg) ws → (length ws <= fuel)%nat →
  ∃ k', run (handle_out fuel fd ptrs) (ok 0 :: map taken ws ++ ok 0 :: rs) k =
      Ok (inl (delete fd ptrs), rs, k') ∧
    kopen k' = kopen k ∧ kepoll k' = <[fd:=reading]> (kepoll k) ∧
    accepted fd (ktrace k') = accepted fd (ktrace k) ++ msg.
Proof.
  intros Hfd Hep Hpt Hs Hws Hf. unfold handle_out. rewrite Hpt.
  change (run (io_ub (Some (EchoData buf fd)) ≫= ?f) ?rs ?k) with (run (f (EchoData buf fd)) rs k).
  cbn [echo_buf echo_fd]. rewrite run_bind, (run_printf_s _ _ _ _ _ _ _ Hs), Hs.
  change (run (io_ub (Some msg) ≫= ?f) ?rs ?k) with (run (f msg) rs k). cbv beta.
  destruct (write_all_run fd msg ws 0 fuel (ok 0 :: rs)
    (log (Printf (text "write data to client: " ++ msg ++ text "")) (ok 0) k)) as (k1 & Hrun & Ho & He & Ha);
    [done | lia | by rewrite Nat.sub_0_r | done |].
  cbn [log kopen kepoll] in Ho, He. rewrite run_bind, Hrun, run_bind, run_must_mod by (rewrite ?Ho, ?He; done).
  eexists. split; [reflexivity |]. cbn [kopen kepoll]. rewrite Ho, He. split_and!; [done | done |].
  unfold accepted in *. cbn [flow ktrace]. rewrite app_nil_r, Ha. cbn [log ktrace flow drop].
  by rewrite app_nil_r.
Qed.

Lemma run_run_loop fuel fd ev ptrs rs k :
  fd ≠ listen_sock → kepoll k !! fd = Some ev →
  run (run_loop fuel listen_sock ptrs) (ready [(fd, ev)] :: rs) k =
    run (events_handle fuel fd ev ptrs) rs (log (EpollWait MAX_EVENTS) (ready [(fd, ev)]) k).
Proof.
  intros Hne Hev. unfold run_loop. rewrite run_call, run_wait;
    [| apply NoDup_singleton | by apply Forall_singleton | by unfold MAX_EVENTS].
  cbn [rv ready length rfds handle_all]. rewrite (proj2 (Z.eqb_neq fd listen_sock)) by done.
  change (Z.of_nat 1 =? -1) with false. cbn iota.
  rewrite run_bind. destruct (run (events_handle _ _ _ _) _ _) as [[[[a | e] rs'] k'] | |]; done.
Qed.
End message.

(** * The properties *)

(** C7. The table. Whatever the results of the system calls, at the head of
    the loop the listening socket is registered for reading, every registered
    descriptor is open, and a connection registered for writing has a message
    of its own with a NUL in it; sending that message is never undefined. *)
Theorem long_table (fuel : nat) (listen_sock : Z) (p : mstate (echo_server fuel listen_sock)) :
  reachable p →
  ∀ ptrs, pstate p = inl ptrs →
  table listen_sock ptrs (pkern p) ∧
  ∀ fd, fd ≠ listen_sock → kepoll (pkern p) !! fd = Some writing →
    wp (each anything) False (handle_out fuel fd ptrs) (pkern p) (λ x k',
      match x with inl ptrs' => table listen_sock ptrs' k' | inr _ => True end).
Proof.
  intros (p0 & Hi & Hr)%reachable_anything ptrs Hp.
  assert (table listen_sock ptrs (pkern p)) as Ht.
  { assert (after listen_sock [] (pstate p) (pkern p)) as Ha.
    { refine (server_invariant _ _ anything (after listen_sock []) _ _ p0 p Hi Hr).
      - intros s k (-> & Ho & He). split; [| by apply Forall_nil]. split; rewrite Ho, He.
        + by rewrite lookup_singleton_eq; split; [set_solver |].
        + intros fd ev [<- <-]%lookup_singleton_Some. split; [set_solver | by left].
      - intros s k [Ht _]. by apply run_loop_keeps. }
    rewrite Hp in Ha. apply Ha. }
  split; [done |]. intros fd Hne Hw. destruct (tab_interest _ _ _ Ht fd _ Hw) as [_ [? | [? | [_ Hm]]]]; [done | done |].
  eapply wp_mono; [| by apply (handle_out_keeps listen_sock fuel fd ptrs []);
    [done | apply Forall_nil | done | apply not_elem_of_nil | done]].
  intros [ptrs' |] k'; [by intros [? _] | done].
Qed.

(** The echo of one message. *)
Lemma long_echo_ (fuel : nat) (listen_sock fd : Z) (ptrs : pointers) (k : kern) (ds : list data)
    (ws : list (option nat)) :
  fd ≠ listen_sock → fd ∈ kopen k → kepoll k !! fd = Some reading → ptrs !! fd = None →
  Forall (chunk 1024) ds → ds ≠ [] → NUL ∉ concat ds → (length (concat ds) < MAX_BUF)%nat →
  delivers (length (concat ds)) ws → (length ds < fuel)%nat → (length ws <= fuel)%nat →
  ∃ k', exec (echo_server fuel listen_sock)
      [ready [(fd, reading)] :: map got ds ++ [err EAGAIN; ok 0; ok 0];
       ready [(fd, writing)] :: ok 0 :: map taken ws ++ [ok 0]]
      (Process (inl ptrs) k) = Ok (Process (inl ptrs) k') ∧
    kopen k' = kopen k ∧ kepoll k' = kepoll k ∧
    accepted fd (ktrace k') = accepted fd (ktrace k) ++ concat ds.
Proof.
  intros Hne Hfd Hep Hpt Hds Hds0 Hn Hlen Hws Hf1 Hf2.
  assert (length (concat ds) ≠ 0)%nat as Hpos.
  { destruct Hds as [| d ds [Hd _] _]; [done |]. cbn [concat]. rewrite length_app. lia. }
  assert (length (zeros MAX_BUF) = MAX_BUF) as Hz by apply length_replicate.
  set (buf := store (zeros MAX_BUF) (concat ds)).
  assert (c_string buf = Some (concat ds)) as Hbuf by by apply c_string_store.
  destruct (run_handle_in fuel fd ptrs ds (log (EpollWait MAX_EVENTS) (ready [(fd, reading)]) k) []
    Hfd Hep Hds Hpos Hn Hlen Hf1) as (k1 & Hrun1 & Ho1 & He1 & Ha1).
  fold buf in Hrun1.
  destruct (run_handle_out fuel fd (<[fd := EchoData buf fd]> ptrs) buf (concat ds) ws
    (log (EpollWait MAX_EVENTS) (ready [(fd, writing)]) k1) [])
    as (k2 & Hrun2 & Ho2 & He2 & Ha2);
    [cbn [log kopen]; by rewrite Ho1 | cbn [log kepoll]; rewrite He1; eexists; apply lookup_insert_eq
    | apply lookup_insert_eq | exact Hbuf | exact Hws | exact Hf2 |].
  exists k2. split_and!.
  - apply (exec_two (echo_server fuel listen_sock) _ _ _ (Process (inl (<[fd := EchoData buf fd]> ptrs)) k1)).
    + apply iteration_Ok. rewrite run_run_loop by done.
      change (events_handle fuel fd reading ptrs) with (handle_in fuel fd ptrs). by rewrite Hrun1.
    + apply iteration_Ok. rewrite run_run_loop; [| done | rewrite He1; apply lookup_insert_eq].
      change (events_handle fuel fd writing ?p) with (handle_out fuel fd p).
      rewrite Hrun2. by rewrite delete_insert_id.
  - rewrite Ho2. cbn [log kopen]. by rewrite Ho1.
  - rewrite He2. cbn [log kepoll]. rewrite He1. by rewrite insert_insert_eq, insert_id.
  - rewrite Ha2, accepted_log, app_nil_r, Ha1, accepted_log, app_nil_r. done.
Qed.

(** The echo. A message that arrives in any chunks, without NUL and shorter
    than the buffer, is sent back whole in the next two iterations, whatever
    part of it each [write] takes and however often it would block, and the
    connection waits for the next message. *)
Theorem long_echo (fuel : nat) (listen_sock fd : Z) (ptrs : pointers) (k : kern) (ds : list data)
    (ws : list (option nat)) :
  fd ≠ listen_sock → fd ∈ kopen k → kepoll k !! fd = Some reading → ptrs !! fd = None →
  Forall (chunk 1024) ds → ds ≠ [] → NUL ∉ concat ds → (length (concat ds) < MAX_BUF)%nat →
  delivers (length (concat ds)) ws → (length ds < fuel)%nat → (length ws <= fuel)%nat →
  ∃ k', exec (echo_server fuel listen_sock)
      [ready [(fd, reading)] :: map got ds ++ [err EAGAIN; ok 0; ok 0];
       ready [(fd, writing)] :: ok 0 :: map taken ws ++ [ok 0]]
      (Process (inl ptrs) k) = Ok (Process (inl ptrs) k') ∧
    kopen k' = kopen k ∧ kepoll k' = kepoll k ∧
    accepted fd (ktrace k') = accepted fd (ktrace k) ++ concat ds.
Proof. apply long_echo_. Qed.

(** C8. The buffer. A burst that ends within the fuel always ends; bursts of
    64 KiB or more without NUL have undefined behaviour: past 65536 bytes the
    reads leave the allocation, at 65536 the message is printed without end. *)
Theorem long_overflow (fuel : nat) (fd : Z) (ptrs : pointers) (k : kern) (ds : list data)
    (r : result) (rs : list result) :
  fd ∈ kopen k → Forall (chunk 1024) ds → burst_end r → (length ds < fuel)%nat → NUL ∉ concat ds →
  ((MAX_BUF <= length (concat ds))%nat ↔
   run (handle_in fuel fd ptrs) (map got ds ++ r :: rs) k = UB).
Proof.
  intros Hfd Hds Hend Hf Hn. unfold handle_in. rewrite run_bind, read_burst_run; try done; [| lia].
  cbn [Nat.add]. assert (length (zeros MAX_BUF) = MAX_BUF) as Hz by apply length_replicate. rewrite Hz.
  destruct (Nat.leb_spec (length (concat ds)) MAX_BUF) as [Hle | Hgt]; [| split; [done | lia]].
  change (filled (zeros MAX_BUF) 0 (concat ds)) with (store (zeros MAX_BUF) (concat ds)).
  set (k1 := log (Read fd 1024) r (log_reads fd 1024 ds k)).
  destruct (Nat.ltb_spec (length (concat ds)) MAX_BUF) as [Hlt | Hge].
  - split; [lia |]. intros H. exfalso. revert H. apply (wp_run_not_UB (each anything) False _ _ _ (λ _ _, True));
      [tauto | | by apply Forall_forall; intros []].
    destruct (length (concat ds) =? 0)%nat.
    + unfold must. apply wp_bind, wp_sys. intros r2 k2 _ _.
      destruct (rv r2 =? -1); [exact I | intros r3 k3 _ _; exact I].
    + apply wp_bind, wp_printf_s.
      * left. destruct (decide (NUL ∈ store (zeros MAX_BUF) (concat ds))) as [| Hno]; [done |].
        apply strlen_None in Hno. pose proof (c_string_store _ _ Hn Hlt) as Hs. unfold c_string in Hs.
        by rewrite Hno in Hs.
      * intros r2. unfold must. apply wp_bind, wp_sys. intros r3 k3 _ _.
        destruct (rv r3 =? -1); exact I.
  - split; [| lia]. intros _. assert (length (concat ds) = MAX_BUF) as E by lia.
    destruct (Nat.eqb_spec (length (concat ds)) 0) as [E0 |]; [pose proof MAX_BUF_pos; lia |].
    unfold store. rewrite drop_zeros, E, Nat.sub_diag, app_nil_r.
    unfold printf_s, c_string. by rewrite (proj2 (strlen_None _) Hn).
Qed.

(** The reading loop ends: with a unit of fuel more than the buffer has
    bytes, no sequence of results that the kernel can give makes it run on. *)
Theorem long_burst_ends (fuel : nat) (fd : Z) (k : kern) :
  (MAX_BUF < fuel)%nat → finishes (read_burst fuel fd (zeros MAX_BUF) 0) k.
Proof.
  intros Hf. apply read_burst_finishes; [lia |].
  unfold zeros. rewrite length_replicate. lia.
Qed.

(** A connection is accepted and its message read: the record waits for the
    answer. *)
Definition accepted_and_read : list (list result) :=
  [[ready [(3, EPOLLIN)]; ok 4; ok 0; ok 0; ok 0; ok 0; ok 0; ok 0];
   [ready [(4, reading)]; got (text "he"); got (text "llo"); err EAGAIN; ok 0; ok 0]].
Definition answer_pending (p : mstate (echo_server 9 3)) : bool :=
  match pstate p with
  | inl ptrs => bool_decide (kepoll (pkern p) !! 4 = Some writing) &&
                bool_decide (echo_fd <$> ptrs !! 4 = Some 4)
  | inr _ => false
  end.

Lemma long_table_witness :
  ∃ (p : mstate (echo_server 9 3)) ptrs,
    reachable p ∧ pstate p = inl ptrs ∧ answer_pending p = true ∧ table 3 ptrs (pkern p) ∧
    wp (each anything) False (handle_out 9 4 ptrs) (pkern p) (λ x k',
      match x with inl ptrs' => table 3 ptrs' k' | inr _ => True end).
Proof.
  set (start := Process (inl ∅) (Kern {[3]} {[3 := EPOLLIN]} []) : mstate (echo_server 9 3)).
  assert (match exec (echo_server 9 3) accepted_and_read start with
          | Ok p => answer_pending p | _ => false end = true) as He by (vm_compute; reflexivity).
  destruct (exec (echo_server 9 3) accepted_and_read start) as [p | |] eqn:Hrun; [| done | done].
  assert (reachable p) as Hr
    by (refine (exec_reachable (echo_server 9 3) _ start p _ Hrun); exists ∅, (Kern {[3]} {[3 := EPOLLIN]} []);
        by split_and!).
  pose proof He as Ha. unfold answer_pending in He.
  destruct (pstate p) as [ptrs |] eqn:Hp; [| done].
  apply andb_true_iff in He as [He _]. apply bool_decide_eq_true in He.
  exists p, ptrs. destruct (long_table 9 3 p Hr ptrs Hp) as [Ht Hout].
  split; [exact Hr |]. split; [exact Hp |]. split; [exact Ha |]. split; [exact Ht |].
  apply Hout; [lia | exact He].
Defined.

Lemma long_echo_witness :
  ∃ k', exec (echo_server 9 3)
      [[ready [(4, reading)]; got (text "he"); got (text "llo"); err EAGAIN; ok 0; ok 0];
       [ready [(4, writing)]; ok 0; ok 2; err EAGAIN; ok 3; ok 0]]
      (Process (inl ∅) (Kern {[3; 4]} {[4 := reading]} [])) = Ok (Process (inl ∅) k') ∧
    accepted 4 (ktrace k') = text "hello".
Proof.
  destruct (long_echo 9 3 4 ∅ (Kern {[3; 4]} {[4 := reading]} []) [text "he"; text "llo"]
    [Some 2%nat; None; Some 3%nat]) as (k' & H & _ & _ & Ha).
  - lia.
  - by apply (bool_decide_unpack _).
  - apply lookup_singleton_eq.
  - apply lookup_empty.
  - repeat constructor; simpl; lia.
  - discriminate.
  - by apply (bool_decide_unpack _).
  - apply (Z2Nat.inj_lt 5 65536); lia.
  - simpl. right. split; [lia |]. by left.
  - simpl. lia.
  - simpl. lia.
  - exists k'. split; [exact H | exact Ha].
Defined.

Lemma long_overflow_witness :
  (MAX_BUF <= 1)%nat ↔
  run (handle_in 9 4 ∅) [got (text "a"); got []; ok 0; ok 0] (Kern {[4]} {[4 := reading]} []) = UB.
Proof.
  refine (long_overflow 9 4 ∅ (Kern {[4]} {[4 := reading]} []) [text "a"] (got []) [ok 0; ok 0] _ _ _ _ _).
  - by apply (bool_decide_unpack _).
  - repeat constructor; simpl; lia.
  - by right.
  - simpl. lia.
  - by apply (bool_decide_unpack _).
Defined.

Lemma long_burst_ends_witness :
  finishes (read_burst (S MAX_BUF) 4 (zeros MAX_BUF) 0) (Kern {[4]} {[4 := reading]} []).
Proof. apply (long_burst_ends (S MAX_BUF)). lia. Defined.

