(* ===== verification/EpollKernel.v ===== *)
(** [network/IO/multiplexing/epoll_detail.cpp]: the annotated excerpt of the
    kernel's [epoll]: [epoll_ctl] with its locks, [ep_insert], the callback of
    the wait queues and the scan of the ready list, level- and edge-triggered.
    What the excerpt calls and does not show ([ep_remove], [ep_modify],
    [ep_loop_check], the files' [poll]) is a parameter; the list that the scan
    walks is the ready list as it was when the scan began. What is shown of
    [ep_insert] drops the events that the file has already: the items that it
    misses that way are followed along the run ([missed]), and a
    level-triggered item is lost exactly when it is one of them. *)

From S2P Require Import Prelude.

Local Open Scope Z_scope.

Definition POLLERR : Z := 8.
Definition POLLHUP : Z := 16.
Definition EPOLLET : Z := 2 ^ 31.
Definition ENOSPC : Z := 28.
Definition EFAULT : Z := 14.
Definition ELOOP : Z := 40.

Inductive op := EPOLL_CTL_ADD | EPOLL_CTL_DEL | EPOLL_CTL_MOD.

(** [struct eventpoll]: the tree of [epitem]s by descriptor (of each, its
    events), the ready list, and whether somebody sleeps in [epoll_wait]; with
    the list of files to check and the locks. *)
Record eventpoll := EventPoll {
  rbr : gmap Z Z;
  rdllist : list Z;
  sleeping : bool;
  tfile_check_list : list Z;
  epmutex : bool;
  mtx : bool
}.

Section epoll.
(** The target files: whether they support [poll], whether they are epoll
    files, whether they would close a loop; the limit on watches and how many
    there are. *)
Context (pollable is_file_epoll loops : Z → bool) (max_user_watches user_watches : Z).
Context (ep_remove : Z → eventpoll → eventpoll * Z) (ep_modify : Z → Z → eventpoll → eventpoll * Z).
(** The epoll file itself. *)
Context (epfd : Z).

Definition lock_epmutex (ep : eventpoll) : outcome eventpoll :=
  await (negb (epmutex ep)) ;;
  Ok (EventPoll (rbr ep) (rdllist ep) (sleeping ep) (tfile_check_list ep) true (mtx ep)).
Definition lock_mtx (ep : eventpoll) : outcome eventpoll :=
  await (negb (mtx ep)) ;;
  Ok (EventPoll (rbr ep) (rdllist ep) (sleeping ep) (tfile_check_list ep) (epmutex ep) true).
Definition unlock_epmutex (ep : eventpoll) : eventpoll :=
  EventPoll (rbr ep) (rdllist ep) (sleeping ep) (tfile_check_list ep) false (mtx ep).
Definition unlock_mtx (ep : eventpoll) : eventpoll :=
  EventPoll (rbr ep) (rdllist ep) (sleeping ep) (tfile_check_list ep) (epmutex ep) false.
Definition set_check_list (l : list Z) (ep : eventpoll) : eventpoll :=
  EventPoll (rbr ep) (rdllist ep) (sleeping ep) l (epmutex ep) (mtx ep).

(** [ep_insert]: a new item in the tree, unless the user has too many. *)
Definition ep_insert (fd events : Z) (ep : eventpoll) : eventpoll * Z :=
  if max_user_watches <=? user_watches then (ep, - ENOSPC)
  else (EventPoll (<[fd:=events]> (rbr ep)) (rdllist ep) (sleeping ep) (tfile_check_list ep)
          (epmutex ep) (mtx ep), 0).

Definition fix_events (events : Z) : Z := Z.lor events (Z.lor POLLERR POLLHUP).

(** The body of [epoll_ctl] between the locks: the item is looked up, added,
    removed or modified. *)
Definition ctl_switch (o : op) (fd events : Z) (ep : eventpoll) : eventpoll * Z :=
  match o, rbr ep !! fd with
  | EPOLL_CTL_ADD, None =>
      let '(ep, e) := ep_insert fd (fix_events events) ep in (set_check_list [] ep, e)
  | EPOLL_CTL_ADD, Some _ => (set_check_list [] ep, 0)
  | EPOLL_CTL_DEL, Some _ => ep_remove fd ep
  | EPOLL_CTL_MOD, Some _ => ep_modify fd (fix_events events) ep
  | _, None => (ep, 0)
  end.

(** [epoll_ctl], with its [goto error_tgt_fput]s; the error of the result. *)
Definition epoll_ctl (o : op) (fd events : Z) (ep : eventpoll) : outcome (eventpoll * Z) :=
  if negb (pollable fd) then Ok (ep, 0)
  else if (fd =? epfd) || negb (is_file_epoll epfd) then Ok (ep, 0)
  else
    let did_lock_epmutex := match o with EPOLL_CTL_ADD | EPOLL_CTL_DEL => true | _ => false end in
    ep ← (if did_lock_epmutex then lock_epmutex ep else Ok ep);
    let error_tgt_fput (ep : eventpoll) (e : Z) : outcome (eventpoll * Z) :=
      Ok (if did_lock_epmutex then unlock_epmutex ep else ep, e) in
    let go_on (ep : eventpoll) :=
      ep ← lock_mtx ep;
      let '(ep, e) := ctl_switch o fd events ep in
      error_tgt_fput (unlock_mtx ep) e in
    match o with
    | EPOLL_CTL_ADD =>
        if is_file_epoll fd then
          if loops fd then error_tgt_fput ep (- ELOOP) else go_on ep
        else go_on (set_check_list (fd :: tfile_check_list ep) ep)
    | _ => go_on ep
    end.

(** [ep_poll_callback]: [key] is the events that happened, 0 when they are not
    known. A second event does not link the item again, and wakes again. *)
Definition link (fd : Z) (l : list Z) : list Z := if bool_decide (fd ∈ l) then l else l ++ [fd].
Definition ep_poll_callback (fd key : Z) (ep : eventpoll) : eventpoll :=
  match rbr ep !! fd with
  | None => ep
  | Some events =>
      if negb (key =? 0) && (Z.land key events =? 0) then ep
      else EventPoll (rbr ep) (link fd (rdllist ep)) false (tfile_check_list ep) (epmutex ep) (mtx ep)
  end.

(** [ep_scan_ready_list] over the items of the ready list: [poll] gives the
    present events of a file, [put_user] whether they could be copied to the
    user. The events delivered, what a fault leaves (the current item and the
    rest) and the items linked again. *)
Fixpoint scan (poll : Z → Z) (put_user : Z → bool) (items : gmap Z Z) (head : list Z) :
    list (Z * Z) * list Z * list Z :=
  match head with
  | [] => ([], [], [])
  | fd :: rest =>
      let events := default 0 (items !! fd) in
      let revents := Z.land (poll fd) events in
      if revents =? 0 then scan poll put_user items rest
      else if negb (put_user fd) then ([], head, [])
      else
        let '(delivered, kept, relinked) := scan poll put_user items rest in
        ((fd, revents) :: delivered, kept,
         if Z.land events EPOLLET =? 0 then fd :: relinked else relinked)
  end.

(** The result is [eventcnt ? eventcnt : -EFAULT] after a fault; without one,
    whoever sleeps is woken if items are still ready. *)
Definition ep_scan_ready_list (poll : Z → Z) (put_user : Z → bool) (ep : eventpoll) :
    eventpoll * list (Z * Z) * Z :=
  let '(delivered, kept, relinked) := scan poll put_user (rbr ep) (rdllist ep) in
  let l := kept ++ relinked in
  (EventPoll (rbr ep) l (sleeping ep && bool_decide (kept ≠ [] ∨ l = []))
     (tfile_check_list ep) (epmutex ep) (mtx ep), delivered,
   if bool_decide (kept ≠ [] ∧ delivered = []) then - EFAULT else Z.of_nat (length delivered)).

(** [ep_poll]: sleeps while the ready list is empty ([None]), else scans it. *)
Definition ep_poll (poll : Z → Z) (put_user : Z → bool) (ep : eventpoll) :
    eventpoll * option (list (Z * Z)) :=
  match rdllist ep with
  | [] => (EventPoll (rbr ep) [] true (tfile_check_list ep) (epmutex ep) (mtx ep), None)
  | _ => let '(ep, out, _) := ep_scan_ready_list poll put_user ep in (ep, Some out)
  end.

(** * The machine: files become ready, the user consumes, waits, adds, removes
    and modifies *)
Record state := State { ep : eventpoll; poll : gmap Z Z; reported : list (list (Z * Z)) }.
Definition poll_of (s : state) (fd : Z) : Z := default 0 (poll s !! fd).

Inductive label :=
  | LEvent (fd mask : Z)                 (* the file has these events, and calls back *)
  | LConsume (fd mask : Z)               (* the user takes some away *)
  | LAdd (fd events : Z)
  | LDel (fd : Z)
  | LMod (fd events : Z)
  | LWait.                               (* [epoll_wait] *)

Definition step (l : label) (s : state) : outcome state :=
  match l with
  | LEvent fd mask =>
      Ok (State (ep_poll_callback fd mask (ep s)) (<[fd := Z.lor (poll_of s fd) mask]> (poll s)) (reported s))
  | LConsume fd mask =>
      Ok (State (ep s) (<[fd := Z.ldiff (poll_of s fd) mask]> (poll s)) (reported s))
  | LAdd fd events => r ← epoll_ctl EPOLL_CTL_ADD fd events (ep s); Ok (State r.1 (poll s) (reported s))
  | LDel fd => r ← epoll_ctl EPOLL_CTL_DEL fd 0 (ep s); Ok (State r.1 (poll s) (reported s))
  | LMod fd events => r ← epoll_ctl EPOLL_CTL_MOD fd events (ep s); Ok (State r.1 (poll s) (reported s))
  | LWait =>
      let '(e, out) := ep_poll (poll_of s) (λ _, true) (ep s) in
      Ok (State e (poll s) (reported s ++ option_list out))
  end.
Definition init : state := State (EventPoll ∅ [] false [] false false) ∅ [].

Definition epoll_machine : machine := Machine state label (λ s, s = init) step.

(** What the functions that the excerpt calls promise: [ep_remove] takes the
    item out of the tree and of the ready list; [ep_modify] sets the item's
    events or fails, and may link the item; both leave the locks. *)
Definition remove_ok : Prop := ∀ fd e,
  rbr (ep_remove fd e).1 = delete fd (rbr e) ∧
  rdllist (ep_remove fd e).1 = filter (λ f, f ≠ fd) (rdllist e).
Definition modify_ok : Prop := ∀ fd events e,
  (rbr (ep_modify fd events e).1 = rbr e ∨ rbr (ep_modify fd events e).1 = <[fd := events]> (rbr e)) ∧
  (rdllist (ep_modify fd events e).1 = rdllist e ∨
   rdllist (ep_modify fd events e).1 = link fd (rdllist e)).

(** The events of interest that a file has now, level-triggered items. *)
Definition pending (s : state) (fd : Z) : Prop :=
  ∃ events, rbr (ep s) !! fd = Some events ∧ Z.land (poll_of s fd) events ≠ 0.
Definition level (items : gmap Z Z) (fd : Z) : Prop :=
  ∃ events, items !! fd = Some events ∧ Z.land events EPOLLET = 0.

(** The items whose registration, or whose new events, came when their file had
    an event of interest already, and that no callback has linked since. *)
Definition has_event (s : state) (fd : Z) : bool :=
  match rbr (ep s) !! fd with Some events => negb (Z.land (poll_of s fd) events =? 0) | None => false end.
Definition noted (l : label) (s s' : state) (m : gset Z) : gset Z :=
  match l with
  | LAdd fd _ | LMod fd _ =>
      if decide (rbr (ep s') !! fd = rbr (ep s) !! fd) then m
      else if has_event s' fd then {[fd]} ∪ m else m ∖ {[fd]}
  | _ => m
  end.
Definition note (l : label) (s s' : state) (m : gset Z) : gset Z :=
  filter (λ fd, fd ∉ rdllist (ep s')) (noted l s s' m).
Fixpoint missed (ls : list label) (s : state) (m : gset Z) : gset Z :=
  match ls with
  | [] => m
  | l :: ls => match step l s with Ok s' => missed ls s' (note l s s' m) | _ => m end
  end.

Record inv (s : state) (m : gset Z) : Prop := {
  inv_known : ∀ fd, fd ∈ rdllist (ep s) → is_Some (rbr (ep s) !! fd);
  inv_nodup : NoDup (rdllist (ep s));
  inv_level : ∀ fd, level (rbr (ep s)) fd → pending s fd → fd ∈ rdllist (ep s) ∨ fd ∈ m;
  inv_missed : ∀ fd, fd ∈ m → fd ∉ rdllist (ep s)
}.

Lemma elem_link f fd l : f ∈ link fd l ↔ f = fd ∨ f ∈ l.
Proof. unfold link. case_bool_decide; set_solver. Qed.
Lemma NoDup_link fd l : NoDup l → NoDup (link fd l).
Proof.
  unfold link. case_bool_decide as H; [done |]. intros Hl. apply NoDup_app.
  split_and!; [done | set_solver | apply NoDup_singleton].
Qed.

(** A scan without faults delivers exactly the items that have events, in
    order, and links the level-triggered ones of them again. *)
Lemma scan_spec poll items l :
  let '(delivered, kept, relinked) := scan poll (λ _, true) items l in
  let rev fd := Z.land (poll fd) (default 0 (items !! fd)) in
  kept = [] ∧ delivered = map (λ fd, (fd, rev fd)) (filter (λ fd, rev fd ≠ 0) l) ∧
  relinked = filter (λ fd, rev fd ≠ 0 ∧ Z.land (default 0 (items !! fd)) EPOLLET = 0) l.
Proof.
  induction l as [| fd l IH]; [done |]. cbn [scan negb].
  destruct (scan poll (λ _, true) items l) as [[delivered kept] relinked].
  destruct IH as (-> & -> & ->). rewrite !filter_cons.
  destruct (Z.eqb_spec (Z.land (poll fd) (default 0 (items !! fd))) 0) as [E | E].
  - rewrite !decide_False by tauto. done.
  - rewrite (decide_True (P := Z.land _ _ ≠ 0)) by done.
    destruct (Z.eqb_spec (Z.land (default 0 (items !! fd)) EPOLLET) 0).
    + by rewrite decide_True by done.
    + by rewrite decide_False by tauto.
Qed.

(** What [epoll_ctl] does to the tree and to the ready list, past the checks
    and the locks. *)
Definition switched o fd events (e e' : eventpoll) : Prop :=
  ∃ e0, rbr e0 = rbr e ∧ rdllist e0 = rdllist e ∧
    rbr e' = rbr (ctl_switch o fd events e0).1 ∧ rdllist e' = rdllist (ctl_switch o fd events e0).1.

Lemma ctl_locked o fd events (did : bool) e e' err :
  (ep ← lock_mtx e;
   let '(ep, e) := ctl_switch o fd events ep in
   Ok (if did then unlock_epmutex (unlock_mtx ep) else unlock_mtx ep, e)) = Ok (e', err) →
  switched o fd events e e'.
Proof.
  unfold lock_mtx. destruct (mtx e); [done |]. cbn [negb await mbind outcome_bind]. intros H.
  match type of H with context [ctl_switch _ _ _ ?x] => exists x end.
  split; [done |]. split; [done |].
  destruct (ctl_switch _ _ _ _). injection H as <- <-. by destruct did.
Qed.

Lemma ctl_shape o fd events e e' err :
  epoll_ctl o fd events e = Ok (e', err) →
  rbr e' = rbr e ∧ rdllist e' = rdllist e ∨ switched o fd events e e'.
Proof.
  unfold epoll_ctl. destruct (negb (pollable fd)); [intros [= <- <-]; auto |].
  destruct ((fd =? epfd) || negb (is_file_epoll epfd)); [intros [= <- <-]; auto |].
  unfold lock_epmutex.
  destruct o; [destruct (epmutex e); [done |]; destruct (is_file_epoll fd); [destruct (loops fd) |]
              | destruct (epmutex e); [done |] |]; cbn [negb await]; intros H.
  1: injection H as <- <-; by left.
  1-3: right; exact (ctl_locked _ _ _ true _ _ _ H).
  right; exact (ctl_locked _ _ _ false _ _ _ H).
Qed.

(** The item [fd] is registered, or its events are changed. *)
Definition registers (fd events : Z) (e e' : eventpoll) : Prop :=
  (rdllist e' = rdllist e ∨ is_Some (rbr e !! fd) ∧ rdllist e' = link fd (rdllist e)) ∧
  (rbr e' = rbr e ∨ rbr e' = <[fd := fix_events events]> (rbr e)).

Lemma ctl_add fd events e e' err :
  epoll_ctl EPOLL_CTL_ADD fd events e = Ok (e', err) →
  rdllist e' = rdllist e ∧ (rbr e' = rbr e ∨ rbr e' = <[fd := fix_events events]> (rbr e)).
Proof.
  intros [[-> ->] | (e0 & <- & <- & -> & ->)]%ctl_shape; [auto |]. unfold ctl_switch, ep_insert.
  destruct (rbr e0 !! fd); [auto |]. destruct (max_user_watches <=? user_watches); auto.
Qed.

Lemma ctl_del fd e e' err :
  remove_ok → epoll_ctl EPOLL_CTL_DEL fd 0 e = Ok (e', err) →
  rbr e' = rbr e ∧ rdllist e' = rdllist e ∨
  rbr e' = delete fd (rbr e) ∧ rdllist e' = filter (λ f, f ≠ fd) (rdllist e).
Proof.
  intros Hok [H | (e0 & <- & <- & -> & ->)]%ctl_shape; [by left |]. unfold ctl_switch.
  destruct (rbr e0 !! fd); [right; apply Hok | by left].
Qed.

Lemma ctl_mod fd events e e' err :
  modify_ok → epoll_ctl EPOLL_CTL_MOD fd events e = Ok (e', err) → registers fd events e e'.
Proof.
  unfold registers. intros Hok [[-> ->] | (e0 & <- & <- & -> & ->)]%ctl_shape; [auto |].
  unfold ctl_switch. destruct (rbr e0 !! fd) eqn:Hfd; [| auto].
  destruct (Hok fd (fix_events events) e0) as [Hb Hr]. split; [| done].
  destruct Hr; eauto.
Qed.

Lemma land_consumed p m ev : Z.land p ev = 0 → Z.land (Z.ldiff p m) ev = 0.
Proof.
  intros H. apply Z.bits_inj'. intros n Hn. rewrite Z.land_spec, Z.ldiff_spec, Z.bits_0.
  pose proof (Z.land_spec p ev n) as Hs. rewrite H, Z.bits_0 in Hs.
  destruct (Z.testbit p n), (Z.testbit ev n); try done. by rewrite andb_false_r.
Qed.

Lemma poll_of_event s fd mask e r f :
  poll_of (State e (<[fd:=mask]> (poll s)) r) f = if bool_decide (f = fd) then mask else poll_of s f.
Proof.
  unfold poll_of. cbn [poll]. case_bool_decide as H; [subst; by rewrite lookup_insert_eq |].
  by rewrite lookup_insert_ne.
Qed.

(** What a step has to show, the items that it notes apart. *)
Lemma inv_note l s s' m :
  (∀ fd, fd ∈ rdllist (ep s') → is_Some (rbr (ep s') !! fd)) → NoDup (rdllist (ep s')) →
  (∀ fd, level (rbr (ep s')) fd → pending s' fd → fd ∈ rdllist (ep s') ∨ fd ∈ noted l s s' m) →
  inv s' (note l s s' m).
Proof.
  intros Hk Hn Hl. split; [done | done | | by intros fd [Hf _]%elem_of_filter].
  intros fd Hlev Hp. destruct (decide (fd ∈ rdllist (ep s'))); [by left | right].
  apply elem_of_filter. split; [done |]. by destruct (Hl fd Hlev Hp).
Qed.

Lemma epoll_inv_event fd mask s s' m :
  inv s m → step (LEvent fd mask) s = Ok s' → inv s' (note (LEvent fd mask) s s' m).
Proof.
  intros [Hk Hn Hl _] [= <-]. unfold ep_poll_callback. apply inv_note; cbn [noted].
  - destruct (rbr (ep s) !! fd) as [events |] eqn:Hfd; [| done]. case_match; [done |].
    intros f [-> | Hf]%elem_link; [by eexists | by apply Hk].
  - cbn [ep]. repeat case_match; [done | by apply NoDup_link | done].
  - intros f Hlev (ev & Hev & Hp). rewrite poll_of_event in Hp. revert Hlev Hev Hp.
    destruct (rbr (ep s) !! fd) as [events |] eqn:Hfd.
    + destruct (negb (mask =? 0) && (Z.land mask events =? 0)) eqn:Hskip; cbn [ep rbr rdllist].
      * intros Hlev Hev Hp. apply Hl; [done |]. exists ev. split; [done |]. case_bool_decide; [subst f | done].
        rewrite Hfd in Hev. injection Hev as <-.
        apply andb_true_iff in Hskip as [_ H0%Z.eqb_eq]. by rewrite Z.land_lor_distr_l, H0, Z.lor_0_r in Hp.
      * intros Hlev Hev Hp. rewrite elem_link. case_bool_decide as Hff; [by left; left |].
        destruct (Hl f Hlev) as [? | ?]; [by exists ev | by left; right | by right].
    + cbn [ep]. intros Hlev Hev Hp. apply Hl; [done |]. exists ev. split; [done |]. by case_bool_decide; simplify_eq.
Qed.

Lemma epoll_inv_consume fd mask s s' m :
  inv s m → step (LConsume fd mask) s = Ok s' → inv s' (note (LConsume fd mask) s s' m).
Proof.
  intros [Hk Hn Hl _] [= <-]. apply inv_note; cbn [ep noted]; [done | done |].
  intros f Hlev (ev & Hev & Hp). apply Hl; [done |]. exists ev. split; [done |].
  rewrite poll_of_event in Hp. case_bool_decide; [subst f | done].
  intros H0. by apply Hp, land_consumed.
Qed.

(** A new or a changed registration: [EPOLL_CTL_ADD] and [EPOLL_CTL_MOD]. *)
Lemma epoll_inv_registers l fd events s e m :
  l = LAdd fd events ∨ l = LMod fd events → inv s m → registers fd events (ep s) e →
  let s' := State e (poll s) (reported s) in inv s' (note l s s' m).
Proof.
  intros Heq [Hk Hn Hl _] [Hr Hb] s'. apply inv_note; subst s'; cbn [ep].
  - intros f Hf. assert (Hold : is_Some (rbr (ep s) !! f)).
    { destruct Hr as [Hr | [Hfd Hr]]; rewrite Hr in Hf; [by apply Hk |].
      apply elem_link in Hf as [-> | Hf]; [done | by apply Hk]. }
    destruct Hb as [-> | ->]; [done |]. apply lookup_insert_is_Some.
    destruct (decide (fd = f)); auto.
  - destruct Hr as [-> | [_ ->]]; [done | by apply NoDup_link].
  - intros f Hlev (ev & Hev & Hp). cbn [ep] in Hev.
    change (poll_of (State e (poll s) (reported s)) f) with (poll_of s f) in Hp.
    assert (Hsame : rbr e !! f = rbr (ep s) !! f → f ∈ rdllist e ∨ f ∈ m).
    { intros Hf. destruct (Hl f) as [Hin | Hin].
      - destruct Hlev as (v & Hv & H0). exists v. by rewrite <- Hf.
      - exists ev. by rewrite <- Hf.
      - left. destruct Hr as [-> | [_ ->]]; [done | apply elem_link; by right].
      - by right. }
    assert (Hm : noted l s (State e (poll s) (reported s)) m =
      if decide (rbr e !! fd = rbr (ep s) !! fd) then m
      else if has_event (State e (poll s) (reported s)) fd then {[fd]} ∪ m else m ∖ {[fd]})
      by (by destruct Heq as [-> | ->]).
    rewrite Hm. destruct (decide (rbr e !! fd = rbr (ep s) !! fd)) as [Heqf | Hne].
    + apply Hsame. destruct Hb as [-> | Hb]; [done |]. rewrite Hb in *.
      destruct (decide (fd = f)) as [<- | ?]; [done | by rewrite lookup_insert_ne].
    + destruct (decide (f = fd)) as [-> | Hff].
      * right. unfold has_event. cbn [ep]. rewrite Hev.
        change (poll_of (State e (poll s) (reported s)) fd) with (poll_of s fd).
        destruct (Z.eqb_spec (Z.land (poll_of s fd) ev) 0); [done |]. cbn [negb]. set_solver.
      * destruct Hsame as [? | ?]; [| by left |].
        -- destruct Hb as [-> | ->]; [done | by rewrite lookup_insert_ne].
        -- right. case_match; set_solver.
Qed.

Lemma epoll_inv_del fd s s' m :
  remove_ok → inv s m → step (LDel fd) s = Ok s' → inv s' (note (LDel fd) s s' m).
Proof.
  intros Hok [Hk Hn Hl _] Hs. cbn [step] in Hs. apply bind_Ok in Hs as ([e err] & Hc & [= <-]).
  apply (ctl_del _ _ _ _ Hok) in Hc as [[Hb Hr] | [Hb Hr]]; apply inv_note; cbn [ep fst noted]; rewrite ?Hb, ?Hr; try done.
  - intros f Hlev (ev & Hev & Hp). cbn [ep fst] in Hev. rewrite Hb in Hev. apply Hl; [done | by exists ev].
  - intros f [Hne Hf]%list_elem_of_filter. rewrite lookup_delete_ne by done. by apply Hk.
  - by apply NoDup_filter.
  - intros f (v & Hv & H0) (ev & Hev & Hp). cbn [ep fst] in Hev. rewrite Hb in Hev.
    apply lookup_delete_Some in Hv as [Hne Hv], Hev as [_ Hev].
    destruct (Hl f) as [? | ?]; [by exists v | by exists ev | | by right].
    left. by apply list_elem_of_filter.
Qed.

Lemma epoll_inv_wait s m e out :
  inv s m → ep_poll (poll_of s) (λ _, true) (ep s) = (e, out) →
  let s' := State e (poll s) (reported s ++ option_list out) in
  inv s' (note LWait s s' m) ∧ rbr e = rbr (ep s) ∧ Forall (level (rbr e)) (rdllist e).
Proof.
  intros [Hk Hn Hl _]. unfold ep_poll. destruct (rdllist (ep s)) as [| fd0 l0] eqn:Hr.
  - intros [= <- <-]. split; [| by split].
    apply inv_note; cbn [ep rbr rdllist noted]; [set_solver | constructor | exact Hl].
  - rewrite <- Hr in *. clear fd0 l0 Hr. unfold ep_scan_ready_list.
    pose proof (scan_spec (poll_of s) (rbr (ep s)) (rdllist (ep s))) as Hs.
    destruct (scan _ _ _ _) as [[delivered kept] relinked]. destruct Hs as (-> & _ & ->).
    intros [= <- <-]. cbn [app]. split; [apply inv_note; cbn [ep rbr rdllist noted] | split; [done |]]; cbn [rdllist rbr].
    + intros fd [_ Hin]%list_elem_of_filter. by apply Hk.
    + by apply NoDup_filter.
    + intros fd Hlev Hp. destruct (Hl fd Hlev Hp) as [Hin | ?]; [left | by right].
      apply list_elem_of_filter. split; [| done].
      destruct Hlev as (ev & Hev & H0), Hp as (ev' & Hev' & Hp).
      cbn [ep rbr] in Hev, Hev'. rewrite Hev in Hev' |- *. injection Hev' as <-. done.
    + apply Forall_forall. intros fd [[_ H0] Hin]%list_elem_of_filter.
      destruct (Hk fd Hin) as [ev Hev]. exists ev. by rewrite Hev in H0.
Qed.

Lemma epoll_inv_step l s s' m :
  remove_ok → modify_ok → inv s m → step l s = Ok s' → inv s' (note l s s' m).
Proof.
  intros Hrem Hmod Hinv Hs. destruct l as [fd mask | fd mask | fd events | fd | fd events |].
  - by apply epoll_inv_event.
  - by apply epoll_inv_consume.
  - cbn [step] in Hs. apply bind_Ok in Hs as ([e err] & Hc & [= <-]).
    apply ctl_add in Hc as [Hr Hb].
    apply (epoll_inv_registers _ fd events); [by left | done |]. by split; [left |].
  - by apply epoll_inv_del.
  - cbn [step] in Hs. apply bind_Ok in Hs as ([e err] & Hc & [= <-]).
    apply (epoll_inv_registers _ fd events); [by right | done |]. by eapply ctl_mod.
  - cbn [step] in Hs. destruct (ep_poll (poll_of s) (λ _, true) (ep s)) as [e out] eqn:E. injection Hs as <-.
    apply (epoll_inv_wait s m e out Hinv E).
Qed.

Lemma epoll_inv_init : inv init ∅.
Proof.
  split; cbn [init ep rdllist rbr]; [set_solver | constructor | | set_solver].
  intros fd _ (ev & Hev & _). cbn [init ep rbr] in Hev. by rewrite lookup_empty in Hev.
Qed.

Lemma epoll_inv_run ls s m s' :
  remove_ok → modify_ok → inv s m → exec epoll_machine ls s = Ok s' → inv s' (missed ls s m).
Proof.
  intros Hrem Hmod. revert s m. induction ls as [| l ls IH]; intros s m Hinv He; [by injection He as <- |].
  cbn [exec epoll_machine mstep] in He. apply bind_Ok in He as (s1 & Hs & He).
  cbn [missed]. rewrite Hs. by apply IH; [apply epoll_inv_step |].
Qed.

Lemma epoll_inv_reachable (s : mstate epoll_machine) :
  remove_ok → modify_ok → reachable s → ∃ m, inv s m.
Proof.
  intros Hrem Hmod. revert s. apply (invariant_ind epoll_machine).
  - intros s ->. exists ∅. apply epoll_inv_init.
  - intros l s s' _ [m IH] Hs. exists (note l s s' m). by apply epoll_inv_step.
Qed.

(** What is not in the ready list stays out of it until its file has an
    event or its item is modified. *)
Definition not_event (fd : Z) (l : label) : Prop :=
  match l with LEvent f _ | LMod f _ => f ≠ fd | _ => True end.

Lemma stays_out fd l s s' :
  remove_ok → modify_ok →
  mstep epoll_machine l s = Ok s' → not_event fd l → fd ∉ rdllist (ep s) → fd ∉ rdllist (ep s').
Proof.
  intros Hrem Hmod. cbn [epoll_machine mstep]. intros Hs Hn Hout.
  destruct l as [f mask | f mask | f events | f | f events |]; cbn [step not_event] in Hs, Hn.
  - injection Hs as <-. cbn [ep]. unfold ep_poll_callback.
    destruct (rbr (ep s) !! f); [| done]. case_match; [done |]. cbn [rdllist].
    rewrite elem_link. naive_solver.
  - by injection Hs as <-.
  - apply bind_Ok in Hs as ([e' err] & Hc & [= <-]). apply ctl_add in Hc as [Hr _]. cbn [ep fst]. by rewrite Hr.
  - apply bind_Ok in Hs as ([e' err] & Hc & [= <-]). cbn [ep fst].
    apply (ctl_del _ _ _ _ Hrem) in Hc as [[_ ->] | [_ ->]]; [done |]. by intros [_ Hin]%list_elem_of_filter.
  - apply bind_Ok in Hs as ([e' err] & Hc & [= <-]). cbn [ep fst].
    apply (ctl_mod _ _ _ _ _ Hmod) in Hc as [[-> | [_ ->]] _]; [done |]. rewrite elem_link. naive_solver.
  - unfold ep_poll, ep_scan_ready_list in Hs.
    pose proof (scan_spec (poll_of s) (rbr (ep s)) (rdllist (ep s))) as Hspec.
    destruct (rdllist (ep s)) as [| f0 l0] eqn:Hr; [injection Hs as <-; cbn; set_solver |].
    destruct (scan _ _ _ _) as [[delivered kept] relinked]. destruct Hspec as (-> & _ & ->).
    injection Hs as <-. cbn [ep rdllist app]. intros [_ Hin]%list_elem_of_filter. done.
Qed.

Lemma stay_out fd s s' :
  remove_ok → modify_ok →
  rtc (msteps epoll_machine (not_event fd)) s s' → fd ∉ rdllist (ep s) → fd ∉ rdllist (ep s').
Proof.
  intros Hrem Hmod. induction 1 as [| s1 s2 s3 (l & Hl & Hs) _ IH]; [done |]. intros Hout. apply IH.
  by eapply stays_out.
Qed.

(** What a wait reports: exactly the ready items that have events. *)
Lemma reports s e out fd revents :
  ep_poll (poll_of s) (λ _, true) (ep s) = (e, Some out) →
  (fd, revents) ∈ out ↔
  fd ∈ rdllist (ep s) ∧ revents = Z.land (poll_of s fd) (default 0 (rbr (ep s) !! fd)) ∧ revents ≠ 0.
Proof.
  unfold ep_poll. destruct (rdllist (ep s)) as [| fd0 l0] eqn:Hr; [done |]. rewrite <- Hr. clear fd0 l0 Hr.
  unfold ep_scan_ready_list.
  pose proof (scan_spec (poll_of s) (rbr (ep s)) (rdllist (ep s))) as Hs.
  destruct (scan _ _ _ _) as [[delivered kept] relinked]. destruct Hs as (_ & -> & _).
  intros [= _ <-]. rewrite list_elem_of_fmap. split.
  - intros (f & [= -> ->] & [Hne Hin]%list_elem_of_filter). by split_and!.
  - intros (Hin & -> & Hne). exists fd. split; [done |]. by apply list_elem_of_filter.
Qed.

(** C19. Which level-triggered items are lost: in the state after any run, take
    a level-triggered item whose file has an event that it is interested in. It
    is lost exactly when it was added (or its events changed) while the file
    had such an event already, and no callback has linked it since: then no
    [epoll_wait] from here reports it until its file has another event. In
    every other case the next [epoll_wait] does not sleep, reports that event
    with the present mask, and keeps the item in the ready list for the
    [epoll_wait] after it. *)
Theorem epoll_level_complete ls (s : state) fd events :
  remove_ok → modify_ok →
  exec epoll_machine ls init = Ok s →
  rbr (ep s) !! fd = Some events → Z.land events EPOLLET = 0 →
  Z.land (poll_of s fd) events ≠ 0 →
  if decide (fd ∈ missed ls init ∅) then
    ∀ s' e out, rtc (msteps epoll_machine (not_event fd)) s s' →
      ep_poll (poll_of s') (λ _, true) (ep s') = (e, Some out) → ∀ revents, (fd, revents) ∉ out
  else
    ∃ e out, ep_poll (poll_of s) (λ _, true) (ep s) = (e, Some out) ∧
      (fd, Z.land (poll_of s fd) events) ∈ out ∧ fd ∈ rdllist e.
Proof.
  intros Hrem Hmod Hrun Hev Hlev Hp.
  pose proof (epoll_inv_run ls _ _ _ Hrem Hmod epoll_inv_init Hrun) as Hinv.
  destruct (decide (fd ∈ missed ls init ∅)) as [Hmiss | Hmiss].
  - intros s' e out Hrest He revents Hin.
    apply (reports s' e out fd revents He) in Hin as (Hin & _). revert Hin.
    by apply (stay_out fd s s' Hrem Hmod Hrest), (inv_missed _ _ Hinv).
  - assert (Hin : fd ∈ rdllist (ep s)).
    { destruct (inv_level _ _ Hinv fd); [by exists events | by exists events | done | done]. }
    destruct (ep_poll (poll_of s) (λ _, true) (ep s)) as [e [out |]] eqn:E.
    + exists e, out. split; [done |]. split.
      * apply (reports s e out fd _ E). rewrite Hev. by split_and!.
      * destruct (epoll_inv_wait s _ e _ Hinv E) as (Hinv' & Hrbr & _).
        destruct (inv_level _ _ Hinv' fd) as [Hf | Hf]; [| | done |]; cbn [ep]; rewrite ?Hrbr; [by exists events | |].
        -- exists events. cbn [ep]. by rewrite Hrbr.
        -- apply elem_of_filter in Hf as [_ Hf]. done.
    + unfold ep_poll in E. destruct (rdllist (ep s)); [by apply elem_of_nil in Hin |].
      unfold ep_scan_ready_list in E. by destruct (scan _ _ _ _) as [[? ?] ?].
Qed.

(** C20. Edge-triggered items are reported once: after an [epoll_wait], whatever
    happens to other files and whatever is added, removed or modified, no later
    [epoll_wait] reports an edge-triggered item until its file has another
    event or its item is modified, even while its events are not consumed. *)
Theorem epoll_edge_once (s s1 s2 : mstate epoll_machine) fd events e out :
  remove_ok → modify_ok →
  reachable s → mstep epoll_machine LWait s = Ok s1 →
  rbr (ep s) !! fd = Some events → Z.land events EPOLLET ≠ 0 →
  rtc (msteps epoll_machine (not_event fd)) s1 s2 →
  ep_poll (poll_of s2) (λ _, true) (ep s2) = (e, Some out) →
  ∀ revents, (fd, revents) ∉ out.
Proof.
  intros Hrem Hmod Hr Hs Hev Hedge Hrun He revents Hin.
  apply (reports s2 e out fd revents He) in Hin as (Hin & _). revert Hin.
  apply (stay_out fd s1 s2 Hrem Hmod Hrun). intros Hin.
  destruct (epoll_inv_reachable s Hrem Hmod Hr) as [m Hinv].
  cbn [epoll_machine mstep step] in Hs.
  destruct (ep_poll (poll_of s) (λ _, true) (ep s)) as [e1 out1] eqn:E. injection Hs as <-. cbn [ep] in Hin.
  destruct (epoll_inv_wait s m e1 out1 Hinv E) as (_ & Hrbr & Hall).
  rewrite Forall_forall in Hall. destruct (Hall fd Hin) as (ev & Hev' & H0).
  rewrite Hrbr, Hev in Hev'. congruence.
Qed.

(** The locks: [epoll_ctl] never waits for a lock it holds itself, and lets go
    of both on every path. *)
Theorem epoll_ctl_locks o fd events e :
  (∀ f e, epmutex (ep_remove f e).1 = epmutex e ∧ mtx (ep_remove f e).1 = mtx e) →
  (∀ f v e, epmutex (ep_modify f v e).1 = epmutex e ∧ mtx (ep_modify f v e).1 = mtx e) →
  epmutex e = false → mtx e = false →
  ∃ e' err, epoll_ctl o fd events e = Ok (e', err) ∧ epmutex e' = false ∧ mtx e' = false.
Proof.
  intros Hrem Hmod He Hm. unfold epoll_ctl. destruct (negb (pollable fd)); [by eauto |].
  destruct ((fd =? epfd) || negb (is_file_epoll epfd)); [by eauto |].
  unfold lock_epmutex, lock_mtx, ctl_switch, ep_insert.
  destruct o; rewrite ?He; cbn [negb await mbind outcome_bind].
  - destruct (is_file_epoll fd), (loops fd); cbn [set_check_list rbr mtx]; try (by eauto);
      rewrite Hm; cbn [negb await mbind outcome_bind rbr];
      destruct (rbr e !! fd); try (by eauto);
      destruct (max_user_watches <=? user_watches); by eauto.
  - cbn [mtx]. rewrite Hm. cbn [negb await mbind outcome_bind rbr].
    destruct (rbr e !! fd); [| by eauto].
    match goal with |- context [ep_remove ?f ?x] => specialize (Hrem f x) end.
    destruct (ep_remove _ _) as [e' err]; by eauto.
  - rewrite Hm. cbn [negb await mbind outcome_bind rbr].
    destruct (rbr e !! fd); [| by eauto].
    match goal with |- context [ep_modify ?f ?v ?x] => specialize (Hmod f v x) end.
    destruct (ep_modify _ _ _) as [e' err] eqn:E. cbn [fst] in Hmod.
    do 2 eexists. split; [done |]. cbn. by destruct Hmod as [-> _].
Qed.

(** What is shown of [ep_insert] drops the state [revents] that the file is in:
    an item added while its file is ready is not in the ready list. *)
Theorem ep_insert_drops fd events e e' err :
  epoll_ctl EPOLL_CTL_ADD fd events e = Ok (e', err) → rdllist e' = rdllist e.
Proof. by intros [H _]%ctl_add. Qed.
End epoll.

(** * Witnesses: descriptor 3 is the epoll file, 5 is level- and 6
    edge-triggered *)
Module Witnesses.
Definition w_remove (fd : Z) (e : eventpoll) : eventpoll * Z :=
  (EventPoll (delete fd (rbr e)) (filter (λ f, f ≠ fd) (rdllist e)) (sleeping e) (tfile_check_list e)
     (epmutex e) (mtx e), 0).
Definition w_modify (fd events : Z) (e : eventpoll) : eventpoll * Z :=
  (EventPoll (<[fd:=events]> (rbr e)) (rdllist e) (sleeping e) (tfile_check_list e) (epmutex e) (mtx e), 0).
Definition w_machine : machine :=
  epoll_machine (λ _, true) (Z.eqb 3) (λ _, false) 100 0 w_remove w_modify 3.
Lemma w_remove_ok : remove_ok w_remove.
Proof. done. Qed.
Lemma w_modify_ok : modify_ok w_modify.
Proof. by split; [right | left]. Qed.
Definition w_run : list label :=
  [LAdd 5 1; LAdd 6 (1 + EPOLLET); LEvent 5 1; LEvent 6 1; LWait].
Definition w_state : state :=
  State (EventPoll (<[6 := fix_events (1 + EPOLLET)]> (<[5 := fix_events 1]> ∅)) [5; 6] false [] false false)
    (<[6 := 1]> (<[5 := 1]> ∅)) [].

Example w_reports :
  (s ← exec w_machine (w_run ++ [LWait; LConsume 5 1; LWait]) init; Ok (reported s)) =
  Ok [[(5, 1); (6, 1)]; [(5, 1)]; []].
Proof. vm_compute. reflexivity. Qed.

Lemma w_reachable : @reachable w_machine w_state.
Proof. run_schedule w_machine [LAdd 5 1; LAdd 6 (1 + EPOLLET); LEvent 5 1; LEvent 6 1]. Qed.

(** Descriptor 5 is reported; descriptor 7, added when it could be read
    already, is not, and is at the next event. *)
Definition w_late : list label :=
  [LAdd 5 1; LEvent 5 1; LEvent 7 1; LAdd 7 1].
Example w_late_reports :
  (s ← exec w_machine (w_late ++ [LWait; LWait; LEvent 7 1; LWait; LDel 5; LMod 7 4; LWait]) init; Ok (reported s)) =
  Ok [[(5, 1)]; [(5, 1)]; [(5, 1); (7, 1)]; []].
Proof. vm_compute. reflexivity. Qed.

Definition w_missed : state :=
  State (EventPoll (<[7 := fix_events 1]> (<[5 := fix_events 1]> ∅)) [5] false [] false false)
    (<[7 := 1]> (<[5 := 1]> ∅)) [].
Lemma epoll_level_complete_witness :
  (∃ e out, ep_poll (poll_of w_missed) (λ _, true) (ep w_missed) = (e, Some out) ∧ (5, 1) ∈ out ∧ 5 ∈ rdllist e) ∧
  ∀ revents, (7, revents) ∉ [(5, 1)].
Proof.
  pose proof (epoll_level_complete (λ _, true) (Z.eqb 3) (λ _, false) 100 0 w_remove w_modify 3
    w_late w_missed) as H.
  split.
  - specialize (H 5 (fix_events 1) w_remove_ok w_modify_ok).
    rewrite decide_False in H by (vm_compute; intros H0; inversion H0).
    apply H; [vm_compute; reflexivity | reflexivity | reflexivity | by vm_compute].
  - specialize (H 7 (fix_events 1) w_remove_ok w_modify_ok).
    rewrite decide_True in H by (vm_compute; reflexivity).
    refine (H _ _ _ _ w_missed (ep w_missed) [(5, 1)] (rtc_refl _ _) _);
      [vm_compute; reflexivity | reflexivity | reflexivity | by vm_compute | vm_compute; reflexivity].
Defined.

Definition w_waited : state :=
  State (EventPoll (<[6 := fix_events (1 + EPOLLET)]> (<[5 := fix_events 1]> ∅)) [5] false [] false false)
    (<[6 := 1]> (<[5 := 1]> ∅)) [[(5, 1); (6, 1)]].

Lemma epoll_edge_once_witness :
  Z.land (poll_of w_waited 6) (fix_events (1 + EPOLLET)) = 1 ∧ bool_decide ((6, 1) ∈ [(5, 1)]) = false.
Proof.
  split; [reflexivity |]. apply bool_decide_eq_false_2.
  refine (epoll_edge_once (λ _, true) (Z.eqb 3) (λ _, false) 100 0 w_remove w_modify 3
           w_state w_waited w_waited 6 (fix_events (1 + EPOLLET)) (ep w_waited) [(5, 1)]
           w_remove_ok w_modify_ok w_reachable _ _ _ (rtc_refl _ _) _ 1); [vm_compute; reflexivity | reflexivity | by vm_compute | vm_compute; reflexivity].
Defined.

Lemma epoll_ctl_locks_witness :
  ∃ e' err, epoll_ctl (λ _, true) (Z.eqb 3) (λ _, false) 100 0 w_remove w_modify 3 EPOLL_CTL_DEL 5 0 (ep w_state)
    = Ok (e', err) ∧ epmutex e' = false ∧ mtx e' = false.
Proof.
  apply (epoll_ctl_locks (λ _, true) (Z.eqb 3) (λ _, false) 100 0 w_remove w_modify 3); by intros.
Defined.
End Witnesses.
