(* ===== verification/Frame.v ===== *)
(** [code/boost_doc/IO/connection.hpp], [server.cpp] and [client.cpp]: objects
    sent over a stream as an eight-character hexadecimal length followed by the
    serialized data, a server that sends its list of stocks to every client,
    and the client that reads it.  The archive of Boost.Serialization is a
    parameter: [serialize] and [deserialize] ([None] when the archive throws). *)

From Stdlib Require Import Ascii.
From stdpp Require Import pretty.
From S2P Require Import Prelude Posix.

Local Open Scope N_scope.

(** * Numbers in hexadecimal *)
Definition header_length : nat := 8.

Definition hex_digit (d : N) : byte :=
  Ascii.ascii_of_N (if d <? 10 then 48 + d else 87 + d).

(** What [operator<<] prints under [std::hex]: lower case, no leading zeros; a
    [size_t] has at most sixteen digits. *)
Fixpoint hex_digits (fuel : nat) (n : N) (acc : data) : data :=
  match fuel with
  | O => acc
  | S fuel =>
      let acc := hex_digit (n mod 16) :: acc in
      if n <? 16 then acc else hex_digits fuel (n / 16) acc
  end.
Definition to_hex (n : N) : data := hex_digits 16 n [].

(** [std::setw]: filled with spaces on the left; longer output is not cut. *)
Definition setw (w : nat) (s : data) : data := replicate (w - length s) " "%char ++ s.

(** [std::istream >> std::hex >> std::size_t]: white space is skipped, a sign
    and the prefix 0x are accepted, and digits are taken as long as there are;
    without digits it fails.  A minus sign negates modulo 2^64. *)
Definition is_space (c : byte) : bool :=
  let n := Ascii.N_of_ascii c in (n =? 32) || ((9 <=? n) && (n <=? 13)).
Definition digit_value (c : byte) : option N :=
  let n := Ascii.N_of_ascii c in
  if (48 <=? n) && (n <=? 57) then Some (n - 48)
  else if (97 <=? n) && (n <=? 102) then Some (n - 87)
  else if (65 <=? n) && (n <=? 70) then Some (n - 55)
  else None.

Fixpoint skip_spaces (s : data) : data :=
  match s with
  | c :: s' => if is_space c then skip_spaces s' else s
  | [] => []
  end.
Fixpoint read_digits (s : data) (acc : N) : N :=
  match s with
  | c :: s => match digit_value c with Some d => read_digits s (16 * acc + d) | None => acc end
  | [] => acc
  end.
Definition starts_with_digit (s : data) : bool :=
  match s with c :: _ => match digit_value c with Some _ => true | None => false end | [] => false end.
Definition strip_0x (s : data) : data :=
  match s with
  | z :: x :: s' =>
      if Ascii.eqb z "0" && (Ascii.eqb x "x" || Ascii.eqb x "X") then s' else s
  | _ => s
  end.
Definition read_unsigned (s : data) : option N :=
  let s := strip_0x s in
  if starts_with_digit s then Some (read_digits s 0) else None.
Definition read_hex (s : data) : option N :=
  match skip_spaces s with
  | c :: s' =>
      if Ascii.eqb c "-" then (λ n, (2 ^ 64 - n) mod 2 ^ 64) <$> read_unsigned s'
      else if Ascii.eqb c "+" then read_unsigned s'
      else read_unsigned (c :: s')
  | [] => None
  end.

(** * The connection *)
Inductive error_code := invalid_argument | eof.

(** What [async_write] does: it posts an error to its handler, or gathers the
    header and the data into one write. *)
Inductive write_action := PostError (e : error_code) | WriteBuffers (header body : data).

(** What [async_read] ends with: the handler is called with an error or with
    the object, or an exception leaves the handler (from [resize]). *)
Inductive read_outcome (T : Type) :=
  | HandlerError (e : error_code)
  | HandlerOk (t : T)
  | Thrown.
Arguments HandlerError {T} e.
Arguments HandlerOk {T} t.
Arguments Thrown {T}.

Section connection.
Context {T : Type} (serialize : T → data) (deserialize : data → option T).

(** Whether [std::vector<char>::resize] gets its memory. *)
Context (can_allocate : N → bool).

Definition async_write (t : T) : write_action :=
  let outbound_data := serialize t in
  let header := setw header_length (to_hex (N.of_nat (length outbound_data))) in
  if (length header =? header_length)%nat then WriteBuffers header outbound_data
  else PostError invalid_argument.

(** The bytes that reach the stream. *)
Definition on_wire (a : write_action) : data :=
  match a with PostError _ => [] | WriteBuffers header body => header ++ body end.

(** [boost::asio::async_read]: exactly [n] bytes, or an error at the end of the
    stream. *)
Definition asio_read (n : nat) (stream : data) : option (data * data) :=
  if (n <=? length stream)%nat then Some (take n stream, drop n stream) else None.

(** [&inbound_data_[0]] does not exist in an empty vector. *)
Definition handle_read_data (inbound_data : data) : outcome (read_outcome T) :=
  match inbound_data with
  | [] => UB
  | _ =>
      match deserialize inbound_data with
      | Some t => Ok (HandlerOk t)
      | None => Ok (HandlerError invalid_argument)
      end
  end.

Definition handle_read_header (inbound_header stream : data) : outcome (read_outcome T * data) :=
  match read_hex inbound_header with
  | None => Ok (HandlerError invalid_argument, stream)
  | Some size =>
      if can_allocate size then
        match asio_read (N.to_nat size) stream with
        | None => Ok (HandlerError eof, [])
        | Some (inbound_data, rest) => r ← handle_read_data inbound_data; Ok (r, rest)
        end
      else Ok (Thrown, stream)
  end.

(** [async_read] on a stream that ends after the given bytes: the outcome, and
    the bytes left for the next read. *)
Definition async_read (stream : data) : outcome (read_outcome T * data) :=
  match asio_read header_length stream with
  | None => Ok (HandlerError eof, [])
  | Some (inbound_header, stream) => handle_read_header inbound_header stream
  end.

(** Reading [n] objects one after the other. *)
Fixpoint read_many (n : nat) (stream : data) : outcome (list T * data) :=
  match n with
  | O => Ok ([], stream)
  | S n =>
      r ← async_read stream;
      match r with
      | (HandlerOk t, rest) => x ← read_many n rest; Ok (t :: x.1, x.2)
      | (_, rest) => Ok ([], rest)
      end
  end.
End connection.

(** * Printing and reading hexadecimal numbers *)
Lemma digit_value_hex d : d < 16 → digit_value (hex_digit d) = Some d.
Proof.
  intros Hd. rewrite <- (N2Nat.id d). assert (N.to_nat d < 16)%nat as Hm by lia.
  revert Hm. generalize (N.to_nat d) as m. intros m Hm.
  do 16 (destruct m as [| m]; [reflexivity |]). lia.
Qed.

Definition is_digit (c : byte) : Prop := is_Some (digit_value c).

Lemma digit_char c : is_digit c →
  is_space c = false ∧ Ascii.eqb c "-" = false ∧ Ascii.eqb c "+" = false ∧
  Ascii.eqb c "x" = false ∧ Ascii.eqb c "X" = false.
Proof.
  intros [d Hd]. split_and!.
  - unfold is_space, digit_value in *. destruct (N.eqb_spec (Ascii.N_of_ascii c) 32); simpl.
    { rewrite e in Hd. done. }
    apply not_true_is_false. intros [H1%N.leb_le H2%N.leb_le]%andb_true_iff.
    rewrite (proj2 (N.leb_gt 48 (Ascii.N_of_ascii c))), (proj2 (N.leb_gt 97 (Ascii.N_of_ascii c))),
      (proj2 (N.leb_gt 65 (Ascii.N_of_ascii c))) in Hd by lia. done.
  - destruct (Ascii.eqb_spec c "-"); [by subst |]. done.
  - destruct (Ascii.eqb_spec c "+"); [by subst |]. done.
  - destruct (Ascii.eqb_spec c "x"); [by subst |]. done.
  - destruct (Ascii.eqb_spec c "X"); [by subst |]. done.
Qed.

(** The digits of a number: all hexadecimal, no more than needed, and reading
    them after the digits of [a] continues that number. *)
Lemma hex_digits_spec fuel n acc :
  n < 16 ^ N.of_nat fuel → (0 < fuel)%nat →
  ∃ ds, hex_digits fuel n acc = ds ++ acc ∧ ds ≠ [] ∧ Forall is_digit ds ∧
    (∀ s a, read_digits (ds ++ s) a = read_digits s (16 ^ N.of_nat (length ds) * a + n)) ∧
    (∀ k, (0 < k)%nat → n < 16 ^ N.of_nat k → (length ds <= k)%nat) ∧
    (∀ k, 16 ^ N.of_nat k <= n → (k < length ds)%nat).
Proof.
  revert n acc. induction fuel as [| fuel IH]; intros n acc Hn Hf; [lia |]. cbn [hex_digits].
  assert (is_digit (hex_digit (n mod 16))) as Hdig.
  { unfold is_digit. rewrite digit_value_hex; [by eexists |]. apply N.mod_lt. done. }
  destruct (N.ltb_spec n 16) as [Hs | Hs].
  - exists [hex_digit (n mod 16)]. rewrite N.mod_small in * by done. split_and!; [done | done | by constructor | | |].
    + intros s a. cbn [app read_digits length]. rewrite digit_value_hex by done. done.
    + intros k Hk _. simpl. lia.
    + intros [| k] Hk; simpl; [lia |]. rewrite Nat2N.inj_succ, N.pow_succ_r' in Hk.
      assert (1 <= 16 ^ N.of_nat k) by (apply N.lt_pred_le, N.neq_0_lt_0, N.pow_nonzero; done). lia.
  - destruct (IH (n / 16) (hex_digit (n mod 16) :: acc)) as (ds & Hds & Hne & Hall & Hread & Hle & Hlt).
    { apply N.Div0.div_lt_upper_bound. by rewrite Nat2N.inj_succ, N.pow_succ_r' in Hn. }
    { destruct fuel; [| lia]. simpl in Hn. lia. }
    exists (ds ++ [hex_digit (n mod 16)]). rewrite Hds, <- app_assoc. split_and!; [done | | | | |].
    + by destruct ds.
    + apply Forall_app. split; [done | by constructor].
    + intros s a. rewrite <- app_assoc, Hread. cbn [app read_digits].
      rewrite digit_value_hex by (apply N.mod_lt; done). f_equal.
      rewrite length_app, Nat2N.inj_add. cbn [length]. rewrite N.pow_add_r.
      pose proof (N.div_mod n 16 ltac:(done)). change (16 ^ N.of_nat 1) with 16. lia.
    + intros k Hk Hnk. rewrite length_app. simpl. destruct k as [| [| k]]; [lia | simpl in Hnk; lia |].
      assert (length ds <= S k)%nat; [| lia]. apply Hle; [lia |].
      apply N.Div0.div_lt_upper_bound. by rewrite (Nat2N.inj_succ (S k)), N.pow_succ_r' in Hnk.
    + intros k Hnk. rewrite length_app. simpl. destruct k as [| k]; [lia |].
      assert (k < length ds)%nat; [| lia]. apply Hlt.
      apply N.div_le_lower_bound; [done |]. by rewrite Nat2N.inj_succ, N.pow_succ_r' in Hnk.
Qed.

Lemma to_hex_spec n : n < 2 ^ 64 →
  to_hex n ≠ [] ∧ Forall is_digit (to_hex n) ∧
  (∀ s, read_digits (to_hex n ++ s) 0 = read_digits s n) ∧
  ((length (to_hex n) <= header_length)%nat ↔ n < 2 ^ 32).
Proof.
  intros Hn. destruct (hex_digits_spec 16 n []) as (ds & Hds & Hne & Hall & Hread & Hle & Hlt);
    [exact Hn | lia |].
  unfold to_hex. rewrite Hds, app_nil_r. split_and!; [done | done | |].
  - intros s. rewrite Hread. f_equal. lia.
  - split; intros H.
    + destruct (N.lt_ge_cases n (2 ^ 32)) as [| Hge]; [done |].
      specialize (Hlt 8%nat Hge). unfold header_length in H. lia.
    + apply Hle; [unfold header_length; lia | exact H].
Qed.

Lemma skip_spaces_fill k s : skip_spaces (replicate k " "%char ++ s) = skip_spaces s.
Proof. induction k; [done | exact IHk]. Qed.

Lemma read_hex_setw w n : n < 2 ^ 64 → read_hex (setw w (to_hex n)) = Some n.
Proof.
  intros Hn. destruct (to_hex_spec n Hn) as (Hne & Hall & Hread & _).
  specialize (Hread []). rewrite app_nil_r in Hread. simpl in Hread.
  unfold read_hex, setw. rewrite skip_spaces_fill.
  destruct (to_hex n) as [| c s]; [done |].
  apply Forall_cons in Hall as [Hc Hall]. destruct (digit_char c Hc) as (Hsp & Hm & Hp & _).
  cbn [skip_spaces]. rewrite Hsp, Hm, Hp. unfold read_unsigned.
  assert (strip_0x (c :: s) = c :: s) as ->.
  { destruct s as [| c2 s]; [done |]. apply Forall_cons in Hall as [Hc2 _].
    destruct (digit_char c2 Hc2) as (_ & _ & _ & Hx & HX). unfold strip_0x.
    by rewrite Hx, HX, andb_false_r. }
  unfold starts_with_digit. destruct Hc as [d Hd]. rewrite Hd. by rewrite Hread.
Qed.

(** * One object over the stream *)
Section framing.
Context {T : Type} (serialize : T → data) (deserialize : data → option T) (can_allocate : N → bool).

(** The objects small enough for the header. *)
Definition fits (t : T) : Prop := N.of_nat (length (serialize t)) < 2 ^ 32.

(** What the archive guarantees of an object: reading it back gives that
    object, and its archive is not empty (it starts with a signature). *)
Definition archived (t : T) : Prop := deserialize (serialize t) = Some t ∧ serialize t ≠ [].

(** The reader gets the memory for it. *)
Definition allocated (t : T) : Prop := can_allocate (N.of_nat (length (serialize t))) = true.

Definition frame (t : T) : data := on_wire (async_write serialize t).

Lemma header_fits t :
  fits t → length (setw header_length (to_hex (N.of_nat (length (serialize t))))) = header_length.
Proof.
  intros Ht. destruct (to_hex_spec (N.of_nat (length (serialize t)))) as (_ & _ & _ & Hlen).
  { unfold fits in Ht. lia. }
  apply Hlen in Ht. unfold setw. rewrite length_app, length_replicate. lia.
Qed.

Lemma header_too_long t :
  N.of_nat (length (serialize t)) < 2 ^ 64 → ¬ fits t → length (setw header_length (to_hex (N.of_nat (length (serialize t))))) ≠ header_length.
Proof.
  intros Hs Ht Heq. apply Ht. apply to_hex_spec; [done |].
  unfold setw in Heq. rewrite length_app in Heq. lia.
Qed.

Lemma frame_fits t :
  fits t → frame t = setw header_length (to_hex (N.of_nat (length (serialize t)))) ++ serialize t.
Proof.
  intros Ht. unfold frame, async_write. by rewrite (proj2 (Nat.eqb_eq _ _) (header_fits t Ht)).
Qed.

Lemma asio_read_app n s rest : length s = n → asio_read n (s ++ rest) = Some (s, rest).
Proof.
  intros Hs. unfold asio_read. rewrite length_app, (proj2 (Nat.leb_le _ _)) by lia.
  by rewrite take_app_length', drop_app_length'.
Qed.

(** Reading a frame, or the beginning of one. *)
Lemma read_frame t rest :
  archived t → fits t → allocated t →
  async_read deserialize can_allocate (frame t ++ rest) = Ok (HandlerOk t, rest).
Proof.
  intros [Hrt Hne] Ht Hall. rewrite frame_fits by done. unfold async_read.
  rewrite <- app_assoc, asio_read_app by by apply header_fits.
  unfold handle_read_header. rewrite read_hex_setw by (unfold fits in Ht; lia).
  rewrite Hall, asio_read_app by lia. unfold handle_read_data. rewrite Hrt.
  by destruct (serialize t).
Qed.

Lemma asio_read_short n (s : data) : (length s < n)%nat → asio_read n s = None.
Proof. intros Hs. unfold asio_read. by rewrite (proj2 (Nat.leb_gt _ _)). Qed.

Lemma read_cut t n :
  fits t → allocated t → (n < length (frame t))%nat →
  async_read deserialize can_allocate (take n (frame t)) = Ok (HandlerError eof, []).
Proof.
  intros Ht Hall. rewrite frame_fits by done. intros Hn. rewrite length_app, header_fits in Hn by done.
  unfold async_read. destruct (decide (n < header_length)%nat) as [Hs | Hs].
  { rewrite asio_read_short; [done |]. rewrite length_take. lia. }
  rewrite take_app, header_fits, take_ge by (done || rewrite ?header_fits by done; lia).
  rewrite asio_read_app by by apply header_fits. unfold handle_read_header.
  rewrite read_hex_setw, Hall by (unfold fits in Ht; lia).
  rewrite asio_read_short; [done |]. rewrite length_take. lia.
Qed.

Lemma read_many_frames ts rest :
  Forall (λ t, archived t ∧ fits t ∧ allocated t) ts →
  read_many deserialize can_allocate (length ts) (concat (frame <$> ts) ++ rest) = Ok (ts, rest).
Proof.
  intros Hts. induction Hts as [| t ts (? & ? & ?) _ IH]; [done |].
  cbn [length read_many]. csimpl. rewrite <- app_assoc, read_frame by done.
  cbn [mbind outcome_bind]. unfold mbind, outcome_bind. by rewrite IH.
Qed.
End framing.

(** * The properties *)

(** C9. Framing is a round trip: a sequence of objects, each serialized to
    less than 2^32 bytes, written one after the other with [async_write] is
    read back by as many [async_read], in order and without touching the bytes
    that follow. *)
Theorem frame_roundtrip {T} (serialize : T → data) deserialize can_allocate ts rest :
  Forall (λ t, archived serialize deserialize t ∧ fits serialize t ∧
    allocated serialize can_allocate t) ts →
  read_many deserialize can_allocate (length ts)
    (concat ((λ t, on_wire (async_write serialize t)) <$> ts) ++ rest) = Ok (ts, rest).
Proof. apply read_many_frames. Qed.

(** C10. No beginning of a frame is taken for an object: when the stream ends
    before the frame does, the handler gets an error, whatever the cut. *)
Theorem frame_truncated {T} (serialize : T → data) deserialize can_allocate t n :
  fits serialize t → allocated serialize can_allocate t →
  (n < length (on_wire (async_write serialize t)))%nat →
  async_read (T := T) deserialize can_allocate (take n (on_wire (async_write serialize t))) =
    Ok (HandlerError eof, []).
Proof. apply read_cut. Qed.

(** An object of 2^32 bytes or more does not fit in the header: nothing is
    written and the handler gets [invalid_argument]; and exactly these. *)
Theorem frame_too_long {T} (serialize : T → data) t :
  N.of_nat (length (serialize t)) < 2 ^ 64 →
  async_write serialize t = PostError invalid_argument ↔ ¬ fits serialize t.
Proof.
  intros Hs. unfold async_write. split.
  - intros H Hf. by rewrite (proj2 (Nat.eqb_eq _ _) (header_fits serialize t Hf)) in H.
  - intros Hf. by rewrite (proj2 (Nat.eqb_neq _ _) (header_too_long serialize t Hs Hf)).
Qed.

(** Reading is not safe against its peer: on any stream the only undefined
    behaviour is a header that announces zero bytes (the first element of the
    empty vector is used); a header without a number is refused after exactly
    eight bytes. *)
Theorem frame_bad_header {T} (deserialize : data → option T) can_allocate header stream :
  length header = header_length →
  (async_read deserialize can_allocate (header ++ stream) = UB ↔
     read_hex header = Some 0 ∧ can_allocate 0 = true) ∧
  (read_hex header = None →
     async_read deserialize can_allocate (header ++ stream) = Ok (HandlerError invalid_argument, stream)).
Proof.
  intros Hh. unfold async_read. rewrite asio_read_app by done. unfold handle_read_header. split.
  - destruct (read_hex header) as [size |]; [| split; [done | by intros []]].
    destruct (can_allocate size) eqn:Hall; [| split; [done | intros [[= ->] ?]; congruence]].
    unfold asio_read. destruct (N.to_nat size <=? length stream)%nat eqn:Hlen.
    + unfold handle_read_data. destruct (take (N.to_nat size) stream) as [| c cs] eqn:E; simpl.
      * split; [intros _ | done]. apply (f_equal length) in E. apply Nat.leb_le in Hlen.
        rewrite length_take in E. simpl in E. assert (size = 0) as -> by lia. done.
      * split; [destruct (deserialize (c :: cs)); done |]. intros [[= ->] _]. done.
    + split; [done |]. intros [[= ->] _]. done.
  - intros ->. done.
Qed.

(** * The stock server and its client *)
Section stocks.
(** [stock.hpp] is not in the repository: the types of prices and quantities,
    the values its literals denote (prices in hundredths) and how they print
    are parameters, as is the archive of a vector of stocks. *)
Context {price quantity : Type} (cents : Z → price) (units : Z → quantity).
Context (show_price : price → data) (show_quantity : quantity → data).

Record stock := Stock {
  code : data; name : data;
  open_price : price; high_price : price; low_price : price; last_price : price;
  buy_price : price; buy_quantity : quantity;
  sell_price : price; sell_quantity : quantity
}.

Context (serialize : list stock → data) (deserialize : data → option (list stock)).
Context (can_allocate : N → bool).

(** The server's constructor. *)
Definition stocks_ : list stock :=
  [Stock (text "ABC") (text "A Big Company") (cents 456) (cents 512) (cents 433) (cents 498)
     (cents 496) (units 1000) (cents 499) (units 2000);
   Stock (text "DEF") (text "Developer Entertainment Firm") (cents 2024) (cents 2288) (cents 1950)
     (cents 1976) (cents 1972) (units 34000) (cents 1985) (units 45000)].

(** The server: whether an accept operation is pending, and what each accepted
    connection was sent, in the order of the accepts. *)
Record server_state := ServerState { accepting : bool; sent : list data }.
Definition server_start : server_state := ServerState true [].

(** [handle_accept]: called when the pending accept completes, with or without
    an error.  The failure of a write is ignored ([handle_write]). *)
Definition handle_accept (e : bool) (s : server_state) : outcome server_state :=
  if accepting s then
    if e then Ok (ServerState false (sent s))
    else Ok (ServerState true (sent s ++ [on_wire (async_write serialize stocks_)]))
  else Blocked.

Definition stock_server : machine := Machine server_state bool (λ s, s = server_start) handle_accept.

Inductive client_end :=
  | Shown (output : list data)      (* [handle_read] printed the stocks *)
  | ReadFailed (e : error_code)     (* [handle_read] printed an error *)
  | ConnectFailed                   (* no endpoint left *)
  | ClientThrew.                    (* an exception reached [main] *)

Definition nat_text (n : nat) : data := text (pretty.pretty n).

Definition show_stock (i : nat) (s : stock) : list data :=
  [text "Stock number " ++ nat_text i; text "  code: " ++ code s; text "  name: " ++ name s;
   text "  open_price: " ++ show_price (open_price s); text "  high_price: " ++ show_price (high_price s);
   text "  low_price: " ++ show_price (low_price s); text "  last_price: " ++ show_price (last_price s);
   text "  buy_price: " ++ show_price (buy_price s);
   text "  buy_quantity: " ++ show_quantity (buy_quantity s);
   text "  sell_price: " ++ show_price (sell_price s);
   text "  sell_quantity: " ++ show_quantity (sell_quantity s)].

Definition handle_read (r : read_outcome (list stock)) : client_end :=
  match r with
  | HandlerOk stocks => Shown (concat (imap show_stock stocks))
  | HandlerError e => ReadFailed e
  | Thrown => ClientThrew
  end.

(** Connecting to an endpoint: [None] when it fails, otherwise what its server
    sends before it closes. *)
Context {endpoint : Type} (connect : endpoint → option data).

(** [handle_connect] after the attempt on [endpoint], with the endpoints left. *)
Fixpoint handle_connect (e : endpoint) (endpoint_iterator : list endpoint) : outcome client_end :=
  match connect e with
  | Some stream =>
      r ← async_read deserialize can_allocate stream;
      Ok (handle_read r.1)
  | None =>
      match endpoint_iterator with
      | e :: endpoint_iterator => handle_connect e endpoint_iterator
      | [] => Ok ConnectFailed
      end
  end.

(** The constructor dereferences the first endpoint. *)
Definition client (endpoints : list endpoint) : outcome client_end :=
  match endpoints with
  | e :: rest => handle_connect e rest
  | [] => UB
  end.

Lemma sent_frames (s : mstate stock_server) :
  reachable s → Forall (λ d, d = on_wire (async_write serialize stocks_)) (sent s).
Proof.
  revert s. apply (invariant_ind stock_server).
  - intros s ->. constructor.
  - intros e s s' _ IH Hs. change (handle_accept e s = Ok s') in Hs. unfold handle_accept in Hs.
    destruct (accepting s), e; simplify_eq; [done |]. apply Forall_app. split; [done | by constructor].
Qed.

Lemma handle_connect_skip failed e rest :
  Forall (λ e, connect e = None) failed →
  client (failed ++ e :: rest) = client (e :: rest).
Proof.
  intros Hf. destruct Hf as [| e0 failed H0 Hf]; [done |]. simpl.
  revert e0 H0. induction Hf as [| e1 failed H1 Hf IH]; intros e0 H0; simpl; rewrite H0; [done |].
  by apply IH.
Qed.
End stocks.

(** C30. End to end: whatever connection of the stock server the client reaches,
    after any number of endpoints that refuse, it prints exactly the server's
    two stocks. *)
Theorem client_shows_stocks {price quantity endpoint : Type}
    (cents : Z → price) (units : Z → quantity) show_price show_quantity
    serialize deserialize can_allocate (connect : endpoint → option data)
    (s : mstate (stock_server cents units serialize)) failed e rest stream :
  archived serialize deserialize (stocks_ cents units) → fits serialize (stocks_ cents units) →
  allocated serialize can_allocate (stocks_ cents units) →
  reachable s → stream ∈ sent s → connect e = Some stream →
  Forall (λ e, connect e = None) failed →
  client show_price show_quantity deserialize can_allocate connect (failed ++ e :: rest) =
    Ok (Shown (concat (imap (show_stock show_price show_quantity) (stocks_ cents units)))).
Proof.
  intros Harch Hfit Hall Hr Hin Hc Hf. rewrite handle_connect_skip by done.
  pose proof (sent_frames cents units serialize s Hr) as Hsent.
  rewrite Forall_forall in Hsent. specialize (Hsent _ Hin). subst stream.
  pose proof (read_frame serialize deserialize can_allocate _ [] Harch Hfit Hall) as Hread.
  rewrite app_nil_r in Hread. unfold frame in Hread.
  destruct rest; simpl; rewrite Hc, Hread; done.
Qed.

(** * Concrete runs *)

(** A toy archive of numbers: a signature and [n mod 1000] bytes. *)
Definition toy_archive (b : bool) : data := if b then text "22 yes" else text "22 no".
Definition toy_unarchive (d : data) : option bool :=
  if decide (d = text "22 yes") then Some true
  else if decide (d = text "22 no") then Some false else None.

Lemma toy_roundtrip b : toy_unarchive (toy_archive b) = Some b.
Proof. by destruct b. Qed.

Lemma frame_roundtrip_witness :
  read_many toy_unarchive (λ _, true) 2 (text "       622 yes       522 nomore") =
    Ok ([true; false], text "more").
Proof.
  apply (frame_roundtrip toy_archive toy_unarchive (λ _, true) [true; false] (text "more")).
  by repeat constructor.
Defined.

Lemma frame_truncated_witness :
  async_read (T := bool) toy_unarchive (λ _, true) (text "       622 y") = Ok (HandlerError eof, []).
Proof.
  apply (frame_truncated toy_archive toy_unarchive (λ _, true) true 12); [done | done | simpl; lia].
Defined.

(** An archive of 2^32 bytes (never computed). *)
Definition huge_archive (_ : unit) : data := replicate (N.to_nat (2 ^ 32)) "x"%char.

Lemma frame_too_long_witness : async_write huge_archive tt = PostError invalid_argument.
Proof.
  assert (∀ u, N.of_nat (length (huge_archive u)) = 2 ^ 32) as Hlen.
  { intros u. unfold huge_archive. rewrite length_replicate. apply N2Nat.id. }
  apply frame_too_long.
  - rewrite Hlen. done.
  - unfold fits. rewrite Hlen. done.
Defined.

Lemma frame_bad_header_witness :
  async_read toy_unarchive (λ _, true) (text "       0" ++ text "rest") = UB ∧
  async_read toy_unarchive (λ _, true) (text "no size!" ++ text "rest") =
    Ok (HandlerError invalid_argument, text "rest").
Proof.
  split.
  - apply (frame_bad_header toy_unarchive (λ _, true)); [done | by split].
  - apply (frame_bad_header toy_unarchive (λ _, true)); done.
Defined.

(** Two servers, the first one down; prices and quantities are integers, and
    the only vector of stocks the archive knows is the server's. *)
Definition the_stocks : list (@stock Z Z) := stocks_ (λ z, z) (λ z, z).

Example read_hex_example : read_hex (text "     1Af") = Some 431 ∧ read_hex (text "  zz    ") = None ∧
  setw 8 (to_hex 431) = text "     1af".
Proof. by vm_compute. Qed.

Definition stocks_archive (l : list (@stock Z Z)) : data :=
  text "22 " ++ nat_text (length l).
Definition stocks_unarchive (d : data) : option (list (@stock Z Z)) :=
  if decide (d = text "22 2") then Some the_stocks else None.

Lemma client_shows_stocks_witness :
  client (λ z, text (pretty.pretty z)) (λ z, text (pretty.pretty z)) stocks_unarchive (λ _, true)
    (λ e : nat, if decide (e = 7%nat) then Some (text "       422 2") else None) [1%nat; 7%nat; 2%nat] =
  Ok (Shown (concat (imap (show_stock (λ z, text (pretty.pretty z)) (λ z, text (pretty.pretty z)))
    the_stocks))).
Proof.
  assert (reachable (M := stock_server (λ z : Z, z) (λ z : Z, z) stocks_archive)
    (ServerState true [text "       422 2"])) as Hr.
  { apply (exec_reachable (stock_server (λ z : Z, z) (λ z : Z, z) stocks_archive) [false] server_start);
      [done | by vm_compute]. }
  apply (client_shows_stocks (λ z : Z, z) (λ z : Z, z) _ _ stocks_archive _ _ _ (ServerState true [text "       422 2"]) [1%nat] 7%nat [2%nat]
    (text "       422 2")).
  - split; [by vm_compute | discriminate].
  - by vm_compute.
  - done.
  - exact Hr.
  - apply list_elem_of_singleton. done.
  - done.
  - by repeat constructor.
Defined.
