(* ===== verification/Asio.v ===== *)
(** Programs driven by the completion handlers of Boost.Asio:
    [code/boost_doc/DS/time.cpp] (two timers that share a counter through a
    strand) and [code/boost_doc/IO/demo.cpp] (a UDP echo server).  The
    [io_service] is the scheduler: a step is the completion of one pending
    operation. *)

From S2P Require Import Prelude Posix.

(** * The two timers of [time.cpp] *)
Module Timers.
Local Open Scope Z_scope.

(** What is printed: the counter by [Print1] or [Print2], or the last line of a
    timer. *)
Inductive line := Prints1 (count : Z) | Prints2 (count : Z) | TheError.

(** [timer1] and [timer2]: when the pending wait expires, in seconds. *)
Record timer := Timer { timer1 : option Z; timer2 : option Z; count : Z; out : list line }.

Definition construct : timer := Timer (Some 3) (Some 3) 0 [].

(** The handlers; the strand runs them one at a time.  [expires_at(expires_at()
    + 1)] re-arms a timer. *)
Definition Print1 (t : timer) : outcome timer :=
  match timer1 t with
  | None => Blocked
  | Some e =>
      if count t <? 5 then Ok (Timer (Some (e + 1)) (timer2 t) (count t + 1) (out t ++ [Prints1 (count t)]))
      else Ok (Timer None (timer2 t) (count t) (out t ++ [TheError]))
  end.
Definition Print2 (t : timer) : outcome timer :=
  match timer2 t with
  | None => Blocked
  | Some e =>
      if count t <? 5 then Ok (Timer (timer1 t) (Some (e + 1)) (count t + 1) (out t ++ [Prints2 (count t)]))
      else Ok (Timer (timer1 t) None (count t) (out t ++ [TheError]))
  end.

Inductive label := LPrint1 | LPrint2.
Definition step (l : label) (t : timer) : outcome timer :=
  match l with LPrint1 => Print1 t | LPrint2 => Print2 t end.

(** [main]: [Service.run()] in two threads, until no handler is pending. *)
Definition main : machine := Machine timer label (λ t, t = construct) step.

Definition number (l : line) : option Z :=
  match l with Prints1 c | Prints2 c => Some c | TheError => None end.
Definition armed (o : option Z) : nat := match o with Some _ => 1 | None => 0 end.

Record timer_inv (t : timer) : Prop := {
  inv_count : 0 <= count t <= 5;
  inv_out : ∃ lines errors, out t = lines ++ replicate errors TheError ∧
    omap number lines = seqZ 0 (count t) ∧ length lines = Z.to_nat (count t) ∧
    (errors + armed (timer1 t) + armed (timer2 t) = 2)%nat ∧ (count t < 5 → errors = 0%nat)
}.

Lemma number_next lines c l :
  omap number lines = seqZ 0 c → 0 <= c → number l = Some c → omap number (lines ++ [l]) = seqZ 0 (c + 1).
Proof. intros Hl Hc Hn. rewrite omap_app, Hl. simpl. rewrite Hn. by rewrite seqZ_app by lia. Qed.

Lemma timer_inv_step l t t' : timer_inv t → step l t = Ok t' → timer_inv t'.
Proof.
  intros [Hc (lines & errors & Ho & Hn & Hlen & He & Hz)] Hs.
  assert (∀ l, (lines ++ replicate errors TheError) ++ [l] = lines ++ replicate errors TheError ++ [l]) as Ha
    by (intros; by rewrite app_assoc).
  destruct l; unfold step, Print1, Print2 in Hs; step_inv; simplify_eq; split; simpl; try lia;
    rewrite Ho, Ha.
  - rewrite Hz by lia. exists (lines ++ [Prints1 (count t)]), 0%nat.
    split_and!; [by rewrite app_nil_r | by apply number_next; [| lia |] | rewrite length_app; simpl; lia | lia | done].
  - exists lines, (S errors). rewrite <- replicate_cons_app. split_and!; [done .. | lia | lia].
  - rewrite Hz by lia. exists (lines ++ [Prints2 (count t)]), 0%nat.
    split_and!; [by rewrite app_nil_r | by apply number_next; [| lia |] | rewrite length_app; simpl; lia | lia | done].
  - exists lines, (S errors). rewrite <- replicate_cons_app. split_and!; [done .. | lia | lia].
Qed.

Lemma timer_inv_reachable (t : mstate main) : reachable t → timer_inv t.
Proof.
  revert t. apply (invariant_ind main).
  - intros t ->. split; [done |]. by exists [], 0%nat.
  - intros l t t' _ IH Hs. exact (timer_inv_step l t t' IH Hs).
Qed.

Definition weight (t : timer) : nat := Z.to_nat (5 - count t) + armed (timer1 t) + armed (timer2 t).

Lemma step_decreases l t t' : timer_inv t → step l t = Ok t' → (weight t' < weight t)%nat.
Proof.
  intros [Hc _] Hs. unfold weight.
  destruct l; unfold step, Print1, Print2 in Hs; step_inv; simplify_eq/=; lia.
Qed.
End Timers.

(** * The UDP echo server of [demo.cpp] *)
Module Udp.
Section udp.
Context {endpoint : Type}.

Definition max_length : nat := 1024.

(** The one operation that is pending: a receive into [data_], or the sending
    of [length] bytes of it. *)
Inductive operation := Receiving | Sending (length : nat).

Record server := Server {
  data_ : ubuf;
  sender_endpoint_ : option endpoint;
  pending : operation;
  received : list (endpoint * data);   (* datagrams received without error *)
  sent : list (endpoint * ubuf)        (* datagrams sent back *)
}.

Definition do_receive (s : server) : server :=
  Server (data_ s) (sender_endpoint_ s) Receiving (received s) (sent s).
Definition do_send (length : nat) (s : server) : server :=
  Server (data_ s) (sender_endpoint_ s) (Sending length) (received s) (sent s).

Definition construct : server := Server (uninit max_length) None Receiving [] [].

(** The completion of the pending receive: an error, or a datagram, of which
    the buffer takes the first [max_length] bytes. *)
Definition receive_handler (ec : bool) (from : endpoint) (d : data) (s : server) : outcome server :=
  match pending s with
  | Receiving =>
      if ec then Ok (do_receive s)
      else
        let bytes_recvd := Nat.min (length d) max_length in
        let s := Server (ustore (data_ s) (take max_length d)) (Some from) (pending s)
                   (received s ++ [(from, d)]) (sent s) in
        if (0 <? bytes_recvd)%nat then Ok (do_send bytes_recvd s) else Ok (do_receive s)
  | Sending _ => Blocked
  end.

(** The completion of the pending send, whatever its result. *)
Definition send_handler (s : server) : outcome server :=
  match pending s with
  | Sending n =>
      to ← from_option_ub (sender_endpoint_ s);
      Ok (do_receive (Server (data_ s) (sender_endpoint_ s) (pending s) (received s)
            (sent s ++ [(to, take n (data_ s))])))
  | Receiving => Blocked
  end.

Inductive label := LReceived (ec : bool) (from : endpoint) (d : data) | LSent.
Definition step (l : label) (s : server) : outcome server :=
  match l with
  | LReceived ec from d => receive_handler ec from d s
  | LSent => send_handler s
  end.
Definition main : machine := Machine server label (λ s, s = construct) step.

(** What should come back: each datagram that is not empty, cut to the buffer,
    to where it came from. *)
Definition echo (x : endpoint * data) : option (endpoint * ubuf) :=
  match x.2 with
  | [] => None
  | _ => Some (x.1, Some <$> take max_length x.2)
  end.

Record udp_inv (s : server) : Prop := {
  inv_buffer : length (data_ s) = max_length;
  inv_echo : match pending s with
    | Receiving => sent s = omap echo (received s)
    | Sending n => ∃ to, sender_endpoint_ s = Some to ∧
        sent s ++ [(to, take n (data_ s))] = omap echo (received s)
    end
}.

Lemma udp_inv_step l s s' : udp_inv s → step l s = Ok s' → udp_inv s'.
Proof.
  intros [Hb He] Hs. destruct l as [ec from d |]; unfold step, receive_handler, send_handler in Hs.
  - destruct (pending s) eqn:Hp; [| done]. destruct ec; simplify_eq; [by split |].
    assert (length (ustore (data_ s) (take max_length d)) = max_length) as Hlen.
    { unfold ustore. rewrite length_app, length_fmap, length_drop, length_take. lia. }
    assert (take (Nat.min (length d) max_length) (ustore (data_ s) (take max_length d)) =
      Some <$> take max_length d) as Hecho.
    { unfold ustore. rewrite take_app_le, take_ge; [done | |]; rewrite length_fmap, length_take; lia. }
    destruct (Nat.ltb_spec 0 (Nat.min (length d) max_length)); simplify_eq; split;
      cbn [data_ pending do_send do_receive sender_endpoint_ sent received]; try done.
    + exists from. split; [done |]. rewrite omap_app, He, Hecho.
      destruct d as [| c d]; [cbn [length] in *; lia | done].
    + rewrite omap_app, He. destruct d as [| c d]; [by rewrite app_nil_r |].
      exfalso. cbn [length] in *. unfold max_length in *. lia.
  - destruct (pending s) eqn:Hp; [done |]. destruct He as (to & Hto & He). rewrite Hto in Hs.
    simpl in Hs. simplify_eq. by split.
Qed.

Lemma udp_inv_reachable (s : mstate main) : reachable s → udp_inv s.
Proof.
  revert s. apply (invariant_ind main).
  - intros s ->. split; [apply length_replicate | done].
  - intros l s s' _ IH Hs. exact (udp_inv_step l s s' IH Hs).
Qed.
End udp.
Arguments main : clear implicits.
Arguments label : clear implicits.
Arguments server : clear implicits.
End Udp.

(** * The properties *)

(** C31. The two timers share five prints: in every reachable state the numbers
    printed so far are 0, 1, ... in order, whichever timer printed them, then
    at most one last line of each timer; every run ends, and when no timer is
    pending exactly five numbers and two last lines were printed. *)
Theorem timers_count (t : mstate Timers.main) :
  reachable t →
  (∃ lines errors, Timers.out t = lines ++ replicate errors Timers.TheError ∧
     omap Timers.number lines = seqZ 0 (Timers.count t) ∧ errors ≤ 2) ∧
  sn (msteps Timers.main (λ _, True)) t ∧
  (quiescent Timers.main (λ _, True) t →
     ∃ lines, Timers.out t = lines ++ [Timers.TheError; Timers.TheError] ∧
       omap Timers.number lines = seqZ 0 5).
Proof.
  intros Hr. destruct (Timers.timer_inv_reachable t Hr) as [Hc (lines & errors & Ho & Hn & Hlen & He & Hz)].
  split_and!.
  - exists lines, errors. split_and!; [done | done | lia].
  - apply (sn_measure Timers.main _ Timers.weight); [| done].
    intros l t1 t2 Hr1%Timers.timer_inv_reachable _ Hs. by eapply Timers.step_decreases.
  - intros Hq. exists lines.
    assert (Timers.timer1 t = None ∧ Timers.timer2 t = None) as [H1 H2].
    { split.
      - destruct (Timers.timer1 t) eqn:E; [| done]. exfalso.
        pose proof (Hq Timers.LPrint1 I) as Hq1. simpl in Hq1. unfold Timers.Print1 in Hq1.
        rewrite E in Hq1. case_match; by eapply Hq1.
      - destruct (Timers.timer2 t) eqn:E; [| done]. exfalso.
        pose proof (Hq Timers.LPrint2 I) as Hq1. simpl in Hq1. unfold Timers.Print2 in Hq1.
        rewrite E in Hq1. case_match; by eapply Hq1. }
    rewrite H1, H2 in He. simpl in He. assert (errors = 2) as -> by lia. split; [done |].
    rewrite Hn. f_equal. destruct (decide (Timers.count t < 5)%Z) as [Hlt |]; [specialize (Hz Hlt); lia | lia].
Qed.

(** The UDP server echoes: the datagrams sent back are, in order, exactly
    the datagrams received that are not empty, cut to 1024 bytes, each to its
    own sender; a datagram being sent is never overwritten by the next one. *)
Theorem udp_echo {endpoint} (s : mstate (Udp.main endpoint)) :
  reachable s →
  match Udp.pending s with
  | Udp.Receiving => Udp.sent s = omap Udp.echo (Udp.received s)
  | Udp.Sending n => ∃ to, Udp.sender_endpoint_ s = Some to ∧
      Udp.sent s ++ [(to, take n (Udp.data_ s))] = omap Udp.echo (Udp.received s)
  end.
Proof. intros Hr. apply (Udp.udp_inv_reachable s Hr). Qed.

Lemma timers_count_witness :
  ∃ t : mstate Timers.main, reachable t ∧ Timers.count t = 3%Z ∧ sn (msteps Timers.main (λ _, True)) t.
Proof.
  eexists. assert (reachable _) as Hr by run_schedule Timers.main
    [Timers.LPrint1; Timers.LPrint2; Timers.LPrint1].
  split_and!; [exact Hr | reflexivity | apply (timers_count _ Hr)].
Defined.

Lemma udp_echo_witness :
  ∃ s : mstate (Udp.main nat), reachable s ∧
    Udp.sent s = [(9, Some <$> text "ping")] ∧ Udp.sent s = omap Udp.echo (Udp.received s).
Proof.
  eexists. assert (reachable _) as Hr by run_schedule (Udp.main nat)
    ([Udp.LReceived false 9 (text "ping"); Udp.LSent; Udp.LReceived false 8 [];
      Udp.LReceived true 7 (text "x")] : list (Udp.label nat)).
  split_and!; [exact Hr | reflexivity | apply (udp_echo _ Hr)].
Defined.
