(* ===== verification/Ipc.v ===== *)
(** Bytes between two processes: the pipe of [IPC/PIPE/dpipe.cpp], the fifo of
    [IPC/PIPE/fifo_pipe.cpp], the stream sockets of
    [IPC/Socket/UNIX_socket.cpp] and [network/TCP/REUSE_PORT/], the structure
    sent whole by [network/TCP/transfer_data.cpp], the shared mapping of
    [IPC/SHM/Posix/mmap.cpp] and the port probe of [boost_doc/IO/port.cpp].
    The diagnostics printed on the terminal are left out; what a program writes
    to its output file or prints of the data it received is kept. *)

From S2P Require Import Prelude Posix.

Local Open Scope Z_scope.

(** * Files read line by line *)
Module Lines.
Definition newline : byte := Ascii.ascii_of_nat 10.
Definition is_newline (c : byte) : bool := Ascii.eqb c newline.
#[global] Arguments is_newline : simpl never.

Lemma is_newline_spec c : reflect (c = newline) (is_newline c).
Proof. apply Ascii.eqb_spec. Qed.

(** The lines [for (string line; getline(file, line); line.clear())] sees: the
    newlines are dropped, and the last line need not have one. *)
Fixpoint getlines (c : data) : list data :=
  match c with
  | [] => []
  | x :: c =>
      if is_newline x then [] :: getlines c
      else match getlines c with [] => [[x]] | l :: ls => (x :: l) :: ls end
  end.

(** [write(fd, f(line).c_str(), f(line).size())] for every line. *)
Fixpoint send_lines (fd : Z) (f : data → data) (ls : list data) : io unit :=
  match ls with
  | [] => Ret tt
  | l :: ls => sys_ (Write fd (f l)) ;; send_lines fd f ls
  end.

(** What the file is when every line ends with a newline. *)
Definition complete (c : data) : data :=
  match last c with
  | None => []
  | Some x => if is_newline x then c else c ++ [newline]
  end.

Lemma getlines_nil c : getlines c = [] ↔ c = [].
Proof. destruct c as [| x c]; simpl; [done |]. destruct (is_newline x), (getlines c); done. Qed.

Lemma lines_complete c : concat (map (λ l, l ++ [newline]) (getlines c)) = complete c.
Proof.
  induction c as [| x c IH]; [done |]. unfold complete in *.
  destruct c as [| y c]; [simpl; by destruct (is_newline_spec x) as [-> |] |].
  change (last (x :: y :: c)) with (last (y :: c)).
  change (getlines (x :: y :: c)) with
    (if is_newline x then [] :: getlines (y :: c)
     else match getlines (y :: c) with [] => [[x]] | l :: ls => (x :: l) :: ls end).
  destruct (last (y :: c)) as [z |] eqn:Hl; [| by apply last_None in Hl].
  destruct (is_newline_spec x) as [-> | Hx].
  - cbn [map concat app]. rewrite IH. by destruct (is_newline z).
  - destruct (getlines (y :: c)) as [| l ls] eqn:Hg; [by apply getlines_nil in Hg |].
    cbn [map concat app] in *. rewrite IH. by destruct (is_newline z).
Qed.

Lemma lines_joined c : concat (getlines c) = filter (λ x, x ≠ newline) c.
Proof.
  induction c as [| x c IH]; [done |]. simpl. rewrite filter_cons.
  destruct (is_newline_spec x) as [-> | Hx]; case_decide; try done.
  destruct (getlines c) as [| l ls]; simpl in *; by rewrite <- IH.
Qed.

Lemma wp_send_lines R ub fd f ls k Q :
  (∀ k', kopen k' = kopen k → kepoll k' = kepoll k →
     (∀ fd', received_from fd' (ktrace k') = received_from fd' (ktrace k)) →
     sent_to fd (ktrace k') = sent_to fd (ktrace k) ++ concat (map f ls) → Q (inl tt) k') →
  wp R ub (send_lines fd f ls) k Q.
Proof.
  revert k. induction ls as [| l ls IH]; intros k HQ; simpl.
  - apply HQ; [done | done | done | by rewrite app_nil_r].
  - intros r k1 _ Hk. apply kstep_neutral in Hk as ->; [| done]. apply IH. intros k' Ho He Hr Hs. apply HQ; try done.
    + intros fd'. rewrite Hr. flow_simpl. by rewrite app_nil_r.
    + rewrite Hs. flow_simpl. rewrite Z.eqb_refl. by rewrite <- app_assoc.
Qed.
End Lines.

(** * [while (0 != (count = read(fd, buffer, n)))] *)
Module ReadLoop.
Section loop.
Context {S : Type} (fd n : Z) (body : result → S → option S).

Fixpoint read_loop (fuel : nat) (s : S) : io S :=
  match fuel with
  | O => OutOfFuel
  | Datatypes.S fuel =>
      r ← sys (Read fd n);
      if rv r =? 0 then Ret s else s ← io_ub (body r s); read_loop fuel s
  end.

(** The body on a list of successful reads. *)
Fixpoint feed (ds : list data) (s : S) : option S :=
  match ds with [] => Some s | d :: ds => body (got d) s ≫= feed ds end.

(** Chunks, then the end of the stream: the loop returns what the body made of
    them, or is undefined if the body is. *)
Lemma read_loop_run ds fuel s rs k :
  fd ∈ kopen k → 0 <= n → Forall (chunk n) ds → (length ds < fuel)%nat →
  run (read_loop fuel s) (map got ds ++ got [] :: rs) k =
    match feed ds s with
    | Some s' => Ok (inl s', rs, log_reads fd n (ds ++ [[]]) k)
    | None => UB
    end.
Proof.
  intros Hfd Hn Hds. revert fuel s k Hfd. induction Hds as [| d ds Hd Hds IH]; intros fuel s k Hfd Hf.
  - destruct fuel; [simpl in Hf; lia |]. cbn [read_loop map app]. unfold sys.
    unfold mbind, io_bind. cbn [io_bind_def]. rewrite run_read; [| done | simpl; lia].
    reflexivity.
  - destruct fuel; [simpl in Hf; lia |]. cbn [read_loop map app feed]. unfold sys.
    unfold mbind at 1, io_bind. cbn [io_bind_def]. rewrite run_read; [| done | apply Hd].
    destruct Hd as [Hd0 Hdn]. cbn [rv got].
    destruct (Z.eqb_spec (Z.of_nat (length d)) 0); [lia |].
    destruct (body (got d) s) as [s1 |] eqn:Hb; [| reflexivity].
    simpl in Hf. exact (IH fuel s1 (log (Read fd n) (got d) k) Hfd ltac:(lia)).
Qed.

(** Every error is an iteration of the loop: a descriptor that cannot be read
    is read for ever. *)
Lemma read_loop_stuck (P : S → Prop) fuel s k Q :
  (fd ∉ kopen k) → P s →
  (∀ r s, rv r = -1 → rdata r = [] → P s → ∃ s', body r s = Some s' ∧ P s') →
  wp (each anything) False (read_loop fuel s) k Q.
Proof.
  intros Hfd HP Hbody. revert s k Hfd HP. induction fuel as [| fuel IH]; intros s k Hfd HP; simpl; [done |].
  intros r k' _ [-> [[Hr Hd] | (_ & _ & ?)]]%kstep_Read; [| done].
  rewrite Hr. simpl. destruct (Hbody r s Hr Hd HP) as (s' & -> & HP'). simpl. by apply IH.
Qed.
End loop.
End ReadLoop.
Import Lines ReadLoop.

(** * [IPC/PIPE/dpipe.cpp] *)
Module Dpipe.
Definition size : nat := 1024.
Record copied := Copied {
  buffer : ubuf;
  cout : data;
  output : data                          (* [/tmp/output] *)
}.

(** [cout << buffer << endl; output << buffer; memset(buffer, 0, 1024)]: the
    number of bytes read is not used. *)
Definition copy (r : result) (s : copied) : option copied :=
  let b := ustore (buffer s) (rdata r) in
  d ← u_string b;
  Some (Copied (Some <$> zeros size) (cout s ++ d ++ [newline]) (output s ++ d)).

(** The file the child copies: [None] when it could not be opened, and then
    [getline] fails at once. *)
Definition child (read_fd write_fd : Z) (input : option data) : io unit :=
  sys_ (Close read_fd) ;;
  send_lines write_fd (λ l, l ++ [newline]) (getlines (default [] input)) ;;
  sys_ (Close write_fd).

Definition parent (fuel : nat) (read_fd write_fd : Z) : io data :=
  sys_ (Close write_fd) ;;
  s ← read_loop read_fd (Z.of_nat size) copy fuel (Copied (uninit size) [] []);
  sys_ (Close read_fd) ;;
  Ret (output s).

Definition main (fuel : nat) (pid read_fd write_fd : Z) (input : option data) : io (option data) :=
  if pid <? 0 then Ret None
  else if pid =? 0 then child read_fd write_fd input ;; Ret None
  else out ← parent fuel read_fd write_fd; Ret (Some out).

(** The first chunk, in a buffer that is not initialised. *)
Lemma copy_uninit d c o : NUL ∉ d → copy (got d) (Copied (uninit size) c o) = None.
Proof. intros Hd. unfold copy. cbn [buffer rdata got]. by rewrite u_string_uninit. Qed.

(** A later chunk: the buffer was zeroed. *)
Lemma copy_zeroed d c o :
  NUL ∉ d → (length d < size)%nat →
  copy (got d) (Copied (Some <$> zeros size) c o) =
    Some (Copied (Some <$> zeros size) (c ++ d ++ [newline]) (o ++ d)).
Proof.
  intros Hd Hl. unfold copy, ustore. cbn [buffer cout output rdata got].
  rewrite <- fmap_drop, drop_zeros.
  destruct (size - length d)%nat eqn:E; [lia |]. cbn [zeros replicate fmap list_fmap].
  by rewrite u_string_nul.
Qed.

Lemma copy_full d c o :
  NUL ∉ d → length d = size → copy (got d) (Copied (Some <$> zeros size) c o) = None.
Proof.
  intros Hd Hl. unfold copy, ustore. cbn [buffer rdata got].
  rewrite <- fmap_drop, drop_ge by (unfold zeros; rewrite length_replicate; lia).
  pose proof (u_string_uninit d 0 Hd) as H. unfold ustore, uninit in H.
  cbn [fmap list_fmap]. replace (drop (length d) (replicate 0 None)) with (@nil (option byte)) in H by by destruct (length d). 
  by rewrite H.
Qed.

Lemma feed_zeroed ds c o :
  Forall (chunk (Z.of_nat size)) ds → Forall (λ d, NUL ∉ d) ds →
  feed copy ds (Copied (Some <$> zeros size) c o) =
    if forallb (λ d, length d <? size)%nat ds
    then Some (Copied (Some <$> zeros size) (c ++ concat (map (λ d, d ++ [newline]) ds)) (o ++ concat ds))
    else None.
Proof.
  intros Hc Hn. revert c o. induction Hc as [| d ds [_ Hd] _ IH]; intros c o;
    cbn [feed forallb map concat]; [by rewrite !app_nil_r |].
  apply Forall_cons in Hn as [Hn1 Hn]. destruct (Nat.ltb_spec (length d) size).
  - rewrite copy_zeroed by done. cbn [mbind option_bind andb]. rewrite IH by done.
    case_match; [| done]. by rewrite <- !app_assoc.
  - by rewrite copy_full by (done || unfold size in *; lia).
Qed.
End Dpipe.

(** * [IPC/PIPE/fifo_pipe.cpp] *)
Module Fifo.
Definition size : nat := 4 * 1024.
Definition SIGQUIT : Z := 3.

(** The parent's [while (!file.eof())] with [readsome]: what is left of the
    file, at most the buffer's size of it. *)
Fixpoint copy_in (fuel : nat) (pipe_wfd : Z) (file : data) : io unit :=
  match fuel with
  | O => OutOfFuel
  | S fuel =>
      let buffer := take size file in
      if (length buffer =? 0)%nat then Ret tt
      else sys_ (Write pipe_wfd buffer) ;; copy_in fuel pipe_wfd (drop size file)
  end.

(** The parent, with the signal it sends to the child at the end. *)
Definition parent (fuel : nat) (pipe_wfd : Z) (file : option data) : io Z :=
  copy_in fuel pipe_wfd (default [] file) ;;
  sys_ (Close pipe_wfd) ;;
  Ret SIGQUIT.

(** The child's loop: the buffer and the file written so far; [file.write] of
    [-1] bytes is undefined. [on_quit] only prints, and [read] is restarted
    after it. *)
Record reader := Reader { buffer : data; file : data }.
Definition reader_init : reader := Reader (zeros size) [].
Definition child (pipe_rfd : Z) (s : reader) : io reader :=
  r ← sys (Read pipe_rfd (Z.of_nat size));
  if rv r =? 0 then sys_ (Close pipe_rfd) ;; Exit 0
  else if rv r <? 0 then Undefined
  else Ret (Reader (zeros size) (file s ++ take (Z.to_nat (rv r)) (store (buffer s) (rdata r)))).

Definition child_process (pipe_rfd : Z) : machine :=
  server (child pipe_rfd) (λ s k, s = reader_init ∧ ktrace k = []).

(** No system call fails. *)
Definition no_error (r : result) : Prop := rv r ≠ -1.

Lemma copy_in_total fuel fd file :
  (length file < fuel)%nat →
  ∃ ps, copy_in fuel fd file = send_lines fd (λ p, p) ps ∧ concat ps = file.
Proof.
  revert file. induction fuel as [| fuel IH]; intros file Hf; [lia |]. cbn [copy_in].
  destruct (Nat.eqb_spec (length (take size file)) 0) as [E | E].
  - exists []. split; [done |]. apply nil_length_inv in E.
    destruct file; [done |]. discriminate E.
  - assert (length file ≠ 0)%nat by (intros H0; apply E; rewrite length_take; lia).
    destruct (IH (drop size file)) as (ps & Hps & Hc); [rewrite length_drop; unfold size; lia |].
    exists (take size file :: ps). rewrite Hps. split; [done |]. cbn [concat].
    rewrite Hc. apply take_drop.
Qed.

(** The file is what was read. *)
Lemma child_invariant fd (p0 p : mstate (child_process fd)) :
  minit (child_process fd) p0 → rtc (msteps (child_process fd) (Forall no_error)) p0 p →
  match pstate p with
  | inl s => buffer s = zeros size ∧ file s = received_from fd (ktrace (pkern p))
  | inr _ => True
  end.
Proof.
  apply (server_invariant _ _ no_error (λ x k, match x with
    | inl s => buffer s = zeros size ∧ file s = received_from fd (ktrace k) | inr _ => True end)).
  - intros s k [-> Hk]. by rewrite Hk.
  - intros s k [Hb Hf]. unfold child. apply wp_sys. intros r k' Hr [-> [[? _] | (Hn & Hl & _)]]%kstep_Read; [done |].
    destruct (Z.eqb_spec (rv r) 0) as [E | E]; [by repeat wp_step |].
    destruct (Z.ltb_spec (rv r) 0); [lia |]. split; [done |]. cbn [file].
    flow_simpl. rewrite Z.eqb_refl, <- Hf. f_equal. rewrite Hl, Nat2Z.id. unfold store.
    by rewrite take_app_length.
Qed.

Lemma child_safe fd (p : mstate (child_process fd)) rs :
  Forall no_error rs → mstep (child_process fd) rs p ≠ UB.
Proof.
  intros HR. apply (server_safe _ _ no_error); [| done]. intros s _. exists (λ _ _, True).
  unfold child. apply wp_sys. intros r k' Hr [-> [[? _] | (Hn & Hl & _)]]%kstep_Read; [done |].
  destruct (Z.eqb_spec (rv r) 0) as [E | E]; [by repeat wp_step |].
  by destruct (Z.ltb_spec (rv r) 0); [lia |].
Qed.
End Fifo.

(** * [IPC/Socket/UNIX_socket.cpp] *)
Module UnixSocket.
Definition size : nat := 16.
Definition path : Z := 0.               (* the socket's address *)

(** The child: sends the file line by line; exits with [errno] when it cannot
    connect. *)
Definition child (input : option data) : io unit :=
  c ← sys Socket;
  status ← sys (Connect (rv c) path);
  if rv status <? 0 then Exit (rerrno status)
  else
    send_lines (rv c) (λ l, l ++ [newline]) (getlines (default [] input)) ;;
    sys_ (Close (rv c)).

(** The parent up to [listen]; an exception ends it with code 1. *)
Definition open_server : io Z :=
  s ← sys Socket;
  sys_ (Setsockopt (rv s)) ;;
  status ← sys (Bind (rv s) path);
  if rv status <? 0 then Exit 1
  else
    status ← sys (Listen (rv s) 12);
    if rv status <? 0 then Exit 1 else Ret (rv s).

(** [data.append(move(string(buffer)))]: again without the number of bytes. *)
Definition append (r : result) (s : data * data) : option (data * data) :=
  let b := store s.1 (rdata r) in
  d ← c_string b;
  Some (b, s.2 ++ d).

(** One iteration of [while ((client_fd = accept(...)))]; the client's
    descriptor is not closed. *)
Definition serve (fuel : nat) (sock_un_fd : Z) : io unit :=
  c ← sys (Accept sock_un_fd);
  if rv c =? 0 then sys_ (Close sock_un_fd) ;; Exit 0
  else
    s ← read_loop (rv c) (Z.of_nat size) append fuel (zeros size, []);
    sys_ (Printf (s.2 ++ [newline; newline])).

(** What the C string of the buffer is after each read: the chunk, then what a
    longer one before it left. *)
Fixpoint overlay (stale : data) (ds : list data) : data :=
  match ds with
  | [] => []
  | d :: ds => let s := d ++ drop (length d) stale in s ++ overlay s ds
  end.

(** Chunks that are never shorter than the one before them. *)
Fixpoint growing (n : nat) (ds : list data) : bool :=
  match ds with [] => true | d :: ds => (n <=? length d)%nat && growing (length d) ds end.

Lemma overlay_growing stale ds :
  growing (length stale) ds = true → overlay stale ds = concat ds.
Proof.
  revert stale. induction ds as [| d ds IH]; intros stale; cbn [growing overlay concat]; [done |].
  intros [Hl%Nat.leb_le Hg]%andb_true_iff. rewrite drop_ge by done. rewrite app_nil_r.
  by rewrite IH.
Qed.

Lemma append_store stale acc d :
  NUL ∉ stale → NUL ∉ d → (length stale < size)%nat → (length d < size)%nat →
  append (got d) (store (zeros size) stale, acc) =
    let s := d ++ drop (length d) stale in Some (store (zeros size) s, acc ++ s).
Proof.
  intros Hs Hd Hls Hld. unfold append. cbn [rdata got fst snd].
  rewrite c_string_stale by done. cbn [mbind option_bind]. f_equal. f_equal.
  unfold store. rewrite <- app_assoc. f_equal. rewrite drop_app. f_equal.
  rewrite !drop_zeros, length_app, length_drop. f_equal. lia.
Qed.

Lemma not_elem_drop (d : data) n : NUL ∉ d → NUL ∉ drop n d.
Proof. intros H Hin. apply H. rewrite <- (take_drop n d). apply elem_of_app. by right. Qed.

Lemma feed_stale ds stale acc :
  Forall (λ d, (NUL ∉ d) ∧ (length d < size)%nat) ds → NUL ∉ stale → (length stale < size)%nat →
  (snd <$> feed append ds (store (zeros size) stale, acc)) = Some (acc ++ overlay stale ds).
Proof.
  intros Hds. revert stale acc. induction Hds as [| d ds [Hd Hl] _ IH]; intros stale acc Hs Hls;
    cbn [feed overlay]; [by rewrite app_nil_r |].
  rewrite append_store by done. cbn [mbind option_bind]. cbv zeta. rewrite IH.
  - by rewrite <- (app_assoc acc).
  - apply not_elem_of_app. split; [done | by apply not_elem_drop].
  - rewrite length_app, length_drop. lia.
Qed.

(** A chunk that fills the buffer. *)
Lemma append_full b acc d :
  NUL ∉ d → length b = size → length d = size → append (got d) (b, acc) = None.
Proof.
  intros Hd Hb Hl. unfold append, c_string, store. cbn [rdata got fst snd].
  rewrite drop_ge, app_nil_r by lia. by rewrite (proj2 (strlen_None d) Hd).
Qed.
End UnixSocket.

(** * [network/TCP/REUSE_PORT] *)
Module ReusePort.
(** The server's worker up to [listen]: the listening descriptor, [None] when
    the thread ends with a message. *)
Definition open_server (port : Z) : io (option Z) :=
  s ← sys Socket;
  if rv s =? -1 then Ret None
  else
    sys_ (Setsockopt (rv s)) ;;
    status ← sys (Bind (rv s) port);
    if rv status =? -1 then Ret None
    else
      status ← sys (Listen (rv s) 16);
      if rv status =? 0 then Ret (Some (rv s)) else Ret None.

(** [copy(buffer, buffer + read_count, back_inserter(read_content))]: with a
    negative count the range is not one. *)
Definition append (r : result) (read_content : data) : option data :=
  if rv r <? 0 then None else Some (read_content ++ take (Z.to_nat (rv r)) (rdata r)).

(** One iteration of its [while (1)]; the client's descriptor is not closed. *)
Definition serve (fuel : nat) (server_fd : Z) : io unit :=
  c ← sys (Accept server_fd);
  read_content ← read_loop (rv c) 1024 append fuel [];
  sys_ (Printf (read_content ++ [newline])).

(** The client's worker: the lines are sent whether it is connected or not. *)
Definition client (port : Z) (input : option data) : io unit :=
  c ← sys Socket;
  sys_ (Connect (rv c) port) ;;
  send_lines (rv c) (λ l, l) (getlines (default [] input)) ;;
  sys_ (Close (rv c)).

Lemma append_got d acc : append (got d) acc = Some (acc ++ d).
Proof.
  unfold append. cbn [rv rdata got]. destruct (Z.ltb_spec (Z.of_nat (length d)) 0); [lia |].
  by rewrite Nat2Z.id, firstn_all.
Qed.

Lemma read_fails fuel fd e rs k :
  (0 < fuel)%nat → run (read_loop fd 1024 append fuel []) (err e :: rs) k = UB.
Proof. destruct fuel; [lia |]. intros _. cbn [read_loop]. by rewrite run_call, run_fail. Qed.

Lemma feed_reuse ds acc : feed append ds acc = Some (acc ++ concat ds).
Proof.
  revert acc. induction ds as [| d ds IH]; intros acc; cbn [feed concat]; [by rewrite app_nil_r |].
  rewrite append_got. cbn [mbind option_bind]. by rewrite IH, <- app_assoc.
Qed.
End ReusePort.

(** * [IPC/SHM/Posix/mmap.cpp]: the child prints the mapping block by block *)
Module SharedMap.
Definition block : nat := 1024.
Definition zone_size : nat := 2 * 4 * 1024.

(** One pass of the child's [while (1)] on a mapping that nobody changes: the
    position of [share_zone] in it and what was printed. Reading the last byte
    of a block past the mapping is undefined. *)
Definition child_step (share_zone : data) (s : nat * data) : outcome (nat * data) :=
  last ← from_option_ub (share_zone !! (s.1 + 1023)%nat);
  if is_nul last then Ok s
  else Ok ((s.1 + block)%nat, s.2 ++ take block (drop s.1 share_zone)).

Fixpoint child (n : nat) (share_zone : data) (s : nat * data) : outcome (nat * data) :=
  match n with
  | O => Ok s
  | S n => s ← child_step share_zone s; child n share_zone s
  end.

(** The parent's [while (count < 2*4*1024) {}], whose body is commented out. *)
Fixpoint parent (fuel : nat) (count : nat) : option unit :=
  match fuel with
  | O => None
  | S fuel => if (count <? zone_size)%nat then parent fuel count else Some tt
  end.

(** The last byte of block [i]. *)
Definition full (share_zone : data) (i : nat) : Prop :=
  ∃ c, share_zone !! (i * block + 1023)%nat = Some c ∧ c ≠ NUL.

Lemma child_plus n m zone s : child (n + m) zone s = s ← child n zone s; child m zone s.
Proof.
  revert s. induction n as [| n IH]; intros s; [done |]. cbn [Nat.add child].
  destruct (child_step zone s) as [s1 | |]; [| done | done]. apply IH.
Qed.

Lemma child_full zone n :
  (∀ i, (i < n)%nat → full zone i) →
  child n zone (0%nat, []) = Ok ((n * block)%nat, take (n * block) zone).
Proof.
  induction n as [| n IH]; intros Hf; [done |]. rewrite <- Nat.add_1_r, child_plus.
  rewrite IH by (intros i Hi; apply Hf; lia). cbn [mbind outcome_bind child].
  destruct (Hf n) as (c & Hc & Hn); [lia |]. unfold child_step. cbn [fst snd].
  rewrite Hc. simpl. destruct (is_nul_spec c); [done |]. simpl.
  f_equal. f_equal; [unfold block; lia |]. by rewrite take_take_drop, Nat.mul_add_distr_r, Nat.mul_1_l.
Qed.

Lemma child_stuck zone n off out :
  zone !! (off + 1023)%nat = Some NUL → child n zone (off, out) = Ok (off, out).
Proof.
  intros Hz. induction n as [| n IH]; [done |]. cbn [child]. unfold child_step. cbn [fst].
  rewrite Hz. simpl. exact IH.
Qed.

Lemma parent_spins fuel count : (count < zone_size)%nat → parent fuel count = None.
Proof.
  intros Hc. induction fuel as [| fuel IH]; [done |]. cbn [parent].
  destruct (Nat.ltb_spec count zone_size); [done | lia].
Qed.
End SharedMap.

(** * [network/TCP/transfer_data.cpp]: a structure sent as it is in memory *)
Module Transfer.
(** [float] by its 32 bits. *)
Record Data := MkData { x : data; y : Z; z : Z }.
Definition the_data : Data := MkData (text "hell" ++ [NUL]) 12 0x40600000.
Definition sizeof_Data : nat := 16.

Definition byte_at (v : Z) (i : Z) : byte :=
  Ascii.ascii_of_N (Z.to_N (Z.land (Z.shiftr v (8 * i)) 255)).
Definition word_bytes (v : Z) : data := map (byte_at v) [0; 1; 2; 3].
Definition byte_value (c : byte) : Z := Z.of_N (Ascii.N_of_ascii c).
Fixpoint word_value (d : data) : Z :=
  match d with [] => 0 | c :: d => byte_value c + 256 * word_value d end.
(** [int]: two's complement on 32 bits. *)
Definition to_signed (v : Z) : Z := if v <? 2 ^ 31 then v else v - 2 ^ 32.
Definition is_int (v : Z) : Prop := - 2 ^ 31 <= v < 2 ^ 31.

(** The layout: [x] at 0, three bytes of padding, [y] at 8, [z] at 12. *)
Definition encode (padding : data) (d : Data) : data :=
  x d ++ padding ++ word_bytes (y d) ++ word_bytes (z d).
Definition decode (b : data) : Data :=
  MkData (take 5 b) (to_signed (word_value (take 4 (drop 8 b)))) (word_value (take 4 (drop 12 b))).

Definition well_formed (d : Data) : Prop :=
  length (x d) = 5%nat ∧ is_int (y d) ∧ 0 <= z d < 2 ^ 32.

(** [while (-1 == connect(...))]. *)
Fixpoint connect_loop (fuel : nat) (fd port : Z) : io unit :=
  match fuel with
  | O => OutOfFuel
  | S fuel => r ← sys (Connect fd port); if rv r =? -1 then connect_loop fuel fd port else Ret tt
  end.

Definition child (fuel : nat) (padding : data) (d : Data) : io unit :=
  c ← sys Socket;
  connect_loop fuel (rv c) 10800 ;;
  sys_ (Write (rv c) (encode padding d)) ;;
  sys_ (Close (rv c)).

(** [recv] into 64 zeroed bytes, then [memmove] of [sizeof(Data)] of them. *)
Definition parent : io (Z * Data) :=
  s ← sys Socket;
  sys_ (Bind (rv s) 10800) ;;
  sys_ (Listen (rv s) 32) ;;
  c ← sys (Accept (rv s));
  n ← sys (Read (rv c) 63);
  let buffer := store (zeros 64) (rdata n) in
  Ret (rv n, decode (take sizeof_Data buffer)).

Lemma byte_value_at v i : byte_value (byte_at v i) = Z.land (Z.shiftr v (8 * i)) 255.
Proof.
  unfold byte_value, byte_at.
  assert (0 <= Z.land (Z.shiftr v (8 * i)) 255 < 256) as Hb.
  { change 255 with (Z.ones 8). rewrite Z.land_ones by lia. apply Z.mod_pos_bound. lia. }
  rewrite Ascii.N_ascii_embedding by (apply N2Z.inj_lt; rewrite Z2N.id; lia).
  by rewrite Z2N.id by lia.
Qed.

Lemma word_value_bytes v : word_value (word_bytes v) = v mod 2 ^ 32.
Proof.
  unfold word_bytes. cbn [map word_value]. rewrite !byte_value_at.
  change 255 with (Z.ones 8). rewrite !Z.land_ones, !Z.shiftr_div_pow2 by lia.
  change (2 ^ (8 * 0)) with 1. change (2 ^ (8 * 1)) with 256. change (2 ^ (8 * 2)) with 65536.
  change (2 ^ (8 * 3)) with 16777216. change (2 ^ 8) with 256. change (2 ^ 32) with 4294967296.
  Z.to_euclidean_division_equations. lia.
Qed.

Lemma word_bytes_length v : length (word_bytes v) = 4%nat.
Proof. done. Qed.

Lemma to_signed_mod v : is_int v → to_signed (v mod 2 ^ 32) = v.
Proof.
  unfold is_int, to_signed. change (2 ^ 31) with 2147483648. change (2 ^ 32) with 4294967296.
  intros Hv. destruct (Z.ltb_spec (v mod 4294967296) 2147483648); Z.to_euclidean_division_equations; lia.
Qed.

Lemma encode_length padding d :
  length padding = 3%nat → well_formed d → length (encode padding d) = sizeof_Data.
Proof.
  intros Hp (Hx & _). unfold encode. rewrite !length_app, !word_bytes_length, Hp, Hx. done.
Qed.

(** What is decoded from the first [n] bytes and zeros. *)
Lemma take_store_prefix (e : data) n m :
  (length e <= m)%nat → (n <= m)%nat →
  take n (store (zeros m) e) = take n e ++ zeros (n - length e).
Proof.
  intros He Hn. unfold store. rewrite take_app, drop_zeros. f_equal. unfold zeros.
  rewrite take_replicate. f_equal. lia.
Qed.

Lemma take_prefix (e full rest : data) n :
  (n <= length e)%nat → e `prefix_of` full → take n (e ++ rest) = take n full.
Proof. intros Hn [t ->]. by rewrite !take_app_le by done. Qed.

Lemma decode_prefix (e full rest : data) :
  e `prefix_of` full →
  (5 <= length e → x (decode (e ++ rest)) = x (decode full))%nat ∧
  (12 <= length e → y (decode (e ++ rest)) = y (decode full))%nat ∧
  (16 <= length e → z (decode (e ++ rest)) = z (decode full))%nat.
Proof.
  intros Hp. unfold decode. cbn [x y z]. rewrite !take_drop_commute.
  split_and!; intros Hl; by rewrite (take_prefix e full).
Qed.

Lemma decode_encode padding d :
  length padding = 3%nat → well_formed d → decode (encode padding d) = d.
Proof.
  intros Hp (Hx & Hy & Hz). unfold decode, encode.
  rewrite take_app_le, take_ge by lia.
  rewrite (drop_app_ge (x d)), Hx by lia. rewrite (drop_app_ge padding), Hp by lia.
  rewrite (drop_app_ge (x d)), Hx by lia. rewrite (drop_app_ge padding), Hp by lia.
  change (8 - 5 - 3)%nat with 0%nat. change (12 - 5 - 3)%nat with 4%nat.
  change (drop 4 (word_bytes (y d) ++ word_bytes (z d))) with (word_bytes (z d)).
  change (take 4 (drop 0 (word_bytes (y d) ++ word_bytes (z d)))) with (word_bytes (y d)).
  change (take 4 (word_bytes (z d))) with (word_bytes (z d)).
  rewrite !word_value_bytes, to_signed_mod, (Z.mod_small (z d)) by done. by destruct d.
Qed.
End Transfer.

(** * [boost_doc/IO/port.cpp] *)
Module Port.
Section port.
(** An address that [getaddrinfo] gives, and what [inet_ntop] makes of it
    ([None] for a family that is neither IPv4 nor IPv6 as well). *)
Context {addrinfo : Type} (inet_ntop : addrinfo → option data) (endpoint : addrinfo → Z).

(** The loop over the addresses: [handle] is closed only after a connection. *)
Fixpoint probe (result : list addrinfo) : io (option data) :=
  match result with
  | [] => Ret None
  | addr :: result =>
      handle ← sys Socket;
      if rv handle =? -1 then probe result
      else
        c ← sys (Connect (rv handle) (endpoint addr));
        if rv c =? -1 then probe result
        else sys_ (Close (rv handle)) ;; Ret (inet_ntop addr)
  end.

Definition isPortOpen (domain : data) (result : option (list addrinfo)) : io data :=
  match result with
  | None => Ret []
  | Some result =>
      retval ← probe result;
      Ret match retval with None => [] | Some a => domain ++ text ":" ++ a ++ [newline] end
  end.

Definition isListening (ip : data) (result : option (list addrinfo)) : io bool :=
  addr ← isPortOpen ip result;
  Ret (negb (length addr =? 0)%nat).

(** Refused addresses: each leaves its descriptor open. *)
Definition refused (vs : list Z) : list result := concat (map (λ v, [ok v; err 111]) vs).

Lemma run_probe_refused (before : list (addrinfo * Z)) rest rs k :
  NoDup before.*2 → Forall (λ v, 0 <= v ∧ v ∉ kopen k) before.*2 →
  ∃ k', run (probe (before.*1 ++ rest)) (refused before.*2 ++ rs) k = run (probe rest) rs k' ∧
    kopen k' = list_to_set before.*2 ∪ kopen k.
Proof.
  revert k. induction before as [| [a v] before IH]; intros k; [by exists k; split; [| set_solver] |].
  rewrite !fmap_cons. cbn [fst snd].
  intros [Hnot Hd]%NoDup_cons [[Hv Hk] Hf]%Forall_cons. change (refused (v :: before.*2)) with
    (ok v :: err 111 :: refused before.*2). cbn [app probe].
  rewrite run_call, run_socket by done. cbn [rv ok].
  destruct (Z.eqb_spec v (-1)); [lia |]. rewrite run_call, run_fail. cbn [rv err Z.eqb].
  edestruct IH as (k' & -> & Ho); [done | | exists k'; split; [reflexivity |]].
  - eapply Forall_impl; [apply Forall_and; split; [exact Hf | apply (Forall_forall (λ w, w ≠ v)); intros w Hw ->; done] |].
    cbn [log kopen]. intros w [[? ?] ?]. set_solver.
  - rewrite Ho. cbn [log kopen list_to_set]. set_solver.
Qed.
End port.
End Port.

(** * The properties *)

(** The pipe. The child gives the pipe the whole file, with a newline added
    when the last line has none. The parent, given any text in chunks of at
    most 1024 bytes, is undefined at the first one, since it prints a buffer of
    which only the chunk is initialised; from the second iteration on, with the
    buffer zeroed, it copies every chunk shorter than the buffer and overruns
    the buffer on a chunk that fills it. *)
Theorem pipe_copy (read_fd write_fd : Z) (input : option data) (k : kern) (ds : list data)
    (fuel : nat) (rs : list result) (c o : data) :
  read_fd ∈ kopen k → write_fd ∈ kopen k → read_fd ≠ write_fd →
  Forall (chunk (Z.of_nat Dpipe.size)) ds → Forall (λ d, NUL ∉ d) ds →
  (length ds < fuel)%nat →
  wp (each anything) False (Dpipe.child read_fd write_fd input) k (λ x k',
    x = inl tt ∧
    sent_to write_fd (ktrace k') = sent_to write_fd (ktrace k) ++ complete (default [] input)) ∧
  (ds ≠ [] →
   run (Dpipe.parent fuel read_fd write_fd) (ok 0 :: map got ds ++ got [] :: rs) k = UB) ∧
  feed Dpipe.copy ds (Dpipe.Copied (Some <$> zeros Dpipe.size) c o) =
    if forallb (λ d, length d <? Dpipe.size)%nat ds
    then Some (Dpipe.Copied (Some <$> zeros Dpipe.size)
                 (c ++ concat (map (λ d, d ++ [newline]) ds)) (o ++ concat ds))
    else None.
Proof.
  intros Hr Hw Hne Hds Hn Hf. split_and!.
  - unfold Dpipe.child. apply wp_sys_. intros r1 k1 _ H1. apply wp_bind, wp_send_lines.
    intros k2 _ _ _ Hs. intros r3 k3 _ H3. split; [done |].
    rewrite (sent_to_quiet _ (Close _) _ _ _ eq_refl H3), Hs, (sent_to_quiet _ (Close _) _ _ _ eq_refl H1).
    by rewrite lines_complete.
  - intros Hne2. unfold Dpipe.parent. rewrite run_call_, run_close, run_bind, read_loop_run; try done; [| set_solver].
    destruct Hds as [| d ds [Hd _] _]; [done |]. cbn [feed]. apply Forall_cons in Hn as [Hn _].
    by rewrite Dpipe.copy_uninit.
  - by apply Dpipe.feed_zeroed.
Qed.

(** The fifo. The parent gives it exactly the bytes of the file, in blocks,
    and then signals the child; as long as no call fails, what the child has
    written to its file is at every moment exactly what it has read, so the
    beginning of the parent's file when the fifo keeps the order; the child is
    undefined only after a failed [read]. *)
Theorem fifo_copy (rfd wfd : Z) (content : data) (k : kern) (fuel : nat)
    (p0 p : mstate (Fifo.child_process rfd)) :
  (length content < fuel)%nat →
  minit (Fifo.child_process rfd) p0 →
  rtc (msteps (Fifo.child_process rfd) (Forall Fifo.no_error)) p0 p →
  (∃ ps, Fifo.parent fuel wfd (Some content) =
     (send_lines wfd (λ p, p) ps ;; sys_ (Close wfd) ;; Ret Fifo.SIGQUIT) ∧ concat ps = content) ∧
  wp (each anything) False (Fifo.parent fuel wfd (Some content)) k (λ x k', x = inl Fifo.SIGQUIT ∧
    sent_to wfd (ktrace k') = sent_to wfd (ktrace k) ++ content) ∧
  (∀ s, pstate p = inl s → Fifo.file s = received_from rfd (ktrace (pkern p))) ∧
  (∀ rs, Forall Fifo.no_error rs → mstep (Fifo.child_process rfd) rs p ≠ UB).
Proof.
  intros Hf Hi Hr. destruct (Fifo.copy_in_total fuel wfd content Hf) as (ps & Hps & Hc).
  assert (Fifo.parent fuel wfd (Some content) =
    (send_lines wfd (λ p, p) ps ;; sys_ (Close wfd) ;; Ret Fifo.SIGQUIT)) as E.
  { unfold Fifo.parent. change (default [] (Some content)) with content. by rewrite Hps. }
  split_and!.
  - by exists ps.
  - rewrite E. apply wp_bind, wp_send_lines. intros k1 _ _ _ Hs. apply wp_sys_.
    intros r2 k2 _ H2. split; [done |].
    rewrite (sent_to_quiet _ (Close _) _ _ _ eq_refl H2), Hs. by rewrite map_id, Hc.
  - intros s Hs. pose proof (Fifo.child_invariant rfd p0 p Hi Hr) as H. rewrite Hs in H. apply H.
  - intros rs HR. by apply Fifo.child_safe.
Qed.

(** The UNIX socket's server. Given chunks of fewer than 16 bytes it
    prints each of them followed by what a longer one before it left in the
    buffer, so exactly the text received when no chunk is shorter than the one
    before it; a chunk of 16 bytes overruns the buffer; it never closes the
    connection, and a failed [accept] makes it read descriptor -1 for ever. *)
Theorem unix_server (fd v w : Z) (k : kern) (ds : list data) (fuel : nat) (rs : list result) :
  fd ∈ kopen k → 0 < v → (v ∉ kopen k) → ((-1) ∉ kopen k) →
  Forall (chunk (Z.of_nat UnixSocket.size)) ds → Forall (λ d, NUL ∉ d) ds →
  (length ds < fuel)%nat →
  (∀ d ds', ds = d :: ds' → length d = UnixSocket.size →
    run (UnixSocket.serve fuel fd) (ok v :: map got ds ++ got [] :: rs) k = UB) ∧
  (Forall (λ d, length d < UnixSocket.size)%nat ds →
   ∃ k', run (UnixSocket.serve fuel fd) (ok v :: map got ds ++ got [] :: ok w :: rs) k =
       Ok (inl tt, rs, k') ∧
     head (ktrace k') =
       Some (Printf (UnixSocket.overlay [] ds ++ [newline; newline]), ok w) ∧
     v ∈ kopen k' ∧
     (UnixSocket.growing 0 ds = true → UnixSocket.overlay [] ds = concat ds)) ∧
  (∀ fuel' Q,
     wp (each anything) False (read_loop (-1) (Z.of_nat UnixSocket.size) UnixSocket.append fuel'
       (zeros UnixSocket.size, [])) k Q).
Proof.
  intros Hfd Hv Hvk Hk1 Hds Hn Hf.
  assert (∀ rs', run (UnixSocket.serve fuel fd) (ok v :: map got ds ++ got [] :: rs') k =
    match feed UnixSocket.append ds (zeros UnixSocket.size, []) with
    | Some s => run (sys_ (Printf (s.2 ++ [newline; newline]))) rs'
        (log_reads v (Z.of_nat UnixSocket.size) (ds ++ [[]])
          (Kern ({[v]} ∪ kopen k) (kepoll k) ((Accept fd, ok v) :: ktrace k)))
    | None => UB
    end) as Hrun.
  { intros rs'. unfold UnixSocket.serve. rewrite run_call, run_accept by (done || lia). cbn [rv ok].
    destruct (Z.eqb_spec v 0) as [-> |]; [lia |].
    rewrite run_bind, read_loop_run; try done; [by destruct (feed _ ds _) | set_solver]. }
  split_and!.
  - intros d ds' -> Hl. rewrite Hrun. cbn [feed]. apply Forall_cons in Hn as [Hn _].
    by rewrite UnixSocket.append_full.
  - intros Hs. rewrite Hrun. pose proof (UnixSocket.feed_stale ds [] []) as Hfeed.
    rewrite Forall_and in Hfeed. specialize (Hfeed (conj Hn Hs) (not_elem_of_nil _) ltac:(simpl; unfold UnixSocket.size; lia)).
    change (store (zeros UnixSocket.size) []) with (zeros UnixSocket.size) in Hfeed.
    apply fmap_Some in Hfeed as ([b d] & -> & Hd). cbn [snd] in Hd. subst d.
    unfold sys_. rewrite run_printf. eexists. split_and!; [reflexivity | reflexivity | |].
    + cbn [log kopen]. rewrite log_reads_open. set_solver.
    + apply (UnixSocket.overlay_growing []).
  - intros fuel' Q. apply (read_loop_stuck _ _ _ (λ s, s = (zeros UnixSocket.size, []))); [done | done |].
    intros r s Hr Hd ->. eexists. split; [| reflexivity]. unfold UnixSocket.append. by rewrite Hd.
Qed.

(** Port sharing. The client gives the connection the file without its
    newlines, connected or not; the server prints everything it read from a
    client until the end of the stream, whatever the chunks, and never closes
    the connection; a failed [accept] or [read] is undefined. *)
Theorem reuse_port (port fd v w : Z) (input : option data) (k : kern) (ds : list data)
    (fuel : nat) (e : Z) (rs : list result) :
  fd ∈ kopen k → 0 <= v → (v ∉ kopen k) → Forall (chunk 1024) ds → (length ds < fuel)%nat →
  wp (each anything) False (ReusePort.client port input) (Kern ∅ ∅ []) (λ x k', ∃ c,
    sent_to c (ktrace k') = filter (λ x, x ≠ newline) (default [] input)) ∧
  (∃ k', run (ReusePort.serve fuel fd) (ok v :: map got ds ++ got [] :: ok w :: rs) k =
       Ok (inl tt, rs, k') ∧
     head (ktrace k') = Some (Printf (concat ds ++ [newline]), ok w) ∧ v ∈ kopen k') ∧
  run (ReusePort.serve fuel fd) (err e :: err 9 :: rs) k = UB ∧
  run (ReusePort.serve fuel fd) (ok v :: err e :: rs) k = UB.
Proof.
  intros Hfd Hv Hvk Hds Hf. split_and!.
  - unfold ReusePort.client. apply wp_sys. intros r1 k1 _ H1. apply wp_sys_. intros r2 k2 _ H2.
    apply wp_bind, wp_send_lines. intros k3 _ _ _ Hs. intros r4 k4 _ H4. exists (rv r1).
    rewrite (sent_to_quiet _ (Close _) _ _ _ eq_refl H4), Hs,
      (sent_to_quiet _ (Connect _ _) _ _ _ eq_refl H2), (sent_to_quiet _ Socket _ _ _ eq_refl H1).
    by rewrite map_id, lines_joined.
  - unfold ReusePort.serve. rewrite run_call, run_accept by done. cbn [rv ok].
    rewrite run_bind, read_loop_run; try done; [| set_solver].
    rewrite ReusePort.feed_reuse. unfold sys_. rewrite run_printf.
    eexists. split_and!; [reflexivity | reflexivity |].
    cbn [log kopen]. rewrite log_reads_open. set_solver.
  - unfold ReusePort.serve. rewrite run_call, run_fail. cbn [rv err].
    by rewrite run_bind, ReusePort.read_fails by lia.
  - unfold ReusePort.serve. rewrite run_call, run_accept by done. cbn [rv ok].
    by rewrite run_bind, ReusePort.read_fails by lia.
Qed.

(** The shared mapping. The child prints the blocks whose last byte is set,
    in order, once each, until the first whose last byte is not, on which it
    spins; when all eight are printed its next look is past the mapping. The
    parent never leaves its loop. *)
Theorem mapping_printed (share_zone : data) (b : nat) :
  length share_zone = SharedMap.zone_size → (b ≤ 8)%nat →
  (∀ i, (i < b)%nat → SharedMap.full share_zone i) →
  (b < 8 → share_zone !! (b * SharedMap.block + 1023)%nat = Some NUL)%nat →
  (∀ n, (n ≤ b)%nat → SharedMap.child n share_zone (0%nat, []) =
     Ok ((n * SharedMap.block)%nat, take (n * SharedMap.block) share_zone)) ∧
  (∀ n, SharedMap.child (b + S n) share_zone (0%nat, []) =
     if (b <? 8)%nat
     then Ok ((b * SharedMap.block)%nat, take (b * SharedMap.block) share_zone)
     else UB) ∧
  (∀ fuel, SharedMap.parent fuel 0 = None).
Proof.
  intros Hl Hb Hf Hn. split_and!.
  - intros n Hnb. apply SharedMap.child_full. intros i Hi. apply Hf. lia.
  - intros n. rewrite SharedMap.child_plus, SharedMap.child_full by done. cbn [mbind outcome_bind].
    destruct (Nat.ltb_spec b 8).
    + apply SharedMap.child_stuck. by apply Hn.
    + cbn [SharedMap.child]. unfold SharedMap.child_step. cbn [fst].
      rewrite (proj2 (lookup_ge_None _ _)); [done |]. rewrite Hl.
      unfold SharedMap.zone_size, SharedMap.block. lia.
  - intros fuel. apply SharedMap.parent_spins. unfold SharedMap.zone_size. lia.
Qed.

(** C32. The structure. Read whole, what is decoded is what was sent; read in
    part, the members that arrived whole are right. *)
Theorem structure_transferred (padding : data) (d : Transfer.Data) (e : data) :
  length padding = 3%nat → Transfer.well_formed d →
  e `prefix_of` Transfer.encode padding d →
  let d' := Transfer.decode (take Transfer.sizeof_Data (store (zeros 64) e)) in
  (5 <= length e → Transfer.x d' = Transfer.x d)%nat ∧
  (12 <= length e → Transfer.y d' = Transfer.y d)%nat ∧
  (16 <= length e → d' = d)%nat.
Proof.
  intros Hp Hd He. cbv zeta.
  pose proof (Transfer.decode_encode padding d Hp Hd) as Hdec.
  pose proof (prefix_length _ _ He) as Hlen. rewrite Transfer.encode_length in Hlen by done.
  unfold Transfer.sizeof_Data in *. rewrite Transfer.take_store_prefix by lia.
  rewrite (take_ge e) by lia.
  destruct (Transfer.decode_prefix e _ (zeros (16 - length e)) He) as (Hx & Hy & Hz).
  rewrite Hdec in Hx, Hy, Hz. split_and!; [exact Hx | exact Hy |].
  intros Hl. assert (e = Transfer.encode padding d) as ->.
  { apply prefix_length_eq; [done |]. rewrite Transfer.encode_length by done.
    unfold Transfer.sizeof_Data. lia. }
  rewrite Transfer.encode_length by done. unfold Transfer.sizeof_Data.
  rewrite app_nil_r. exact Hdec.
Qed.

(** The port probe. It answers with the first address that accepts, after
    the refused ones, and leaves open exactly the descriptors of the refused
    ones; with no address that accepts the answer is empty. *)
Theorem port_probe {addrinfo} (inet_ntop : addrinfo → option data) (endpoint : addrinfo → Z)
    (domain : data) (before : list (addrinfo * Z)) (a : addrinfo) (after : list addrinfo) (v : Z)
    (k : kern) (rs : list result) :
  NoDup (before.*2 ++ [v]) → Forall (λ v, 0 <= v ∧ v ∉ kopen k) (before.*2 ++ [v]) →
  (∃ k', run (Port.isPortOpen inet_ntop endpoint domain (Some (before.*1 ++ a :: after)))
       (Port.refused before.*2 ++ ok v :: ok 0 :: ok 0 :: rs) k =
       Ok (inl match inet_ntop a with
               | Some s => domain ++ text ":" ++ s ++ [newline] | None => [] end, rs, k') ∧
     kopen k' = list_to_set before.*2 ∪ kopen k) ∧
  (∃ k', run (Port.isListening inet_ntop endpoint domain (Some before.*1))
       (Port.refused before.*2 ++ rs) k = Ok (inl false, rs, k') ∧
     kopen k' = list_to_set before.*2 ∪ kopen k).
Proof.
  intros [Hd [Hv Hd1]]%NoDup_app [Hf Hfv]%Forall_app. apply Forall_singleton in Hfv as [Hv0 Hvk].
  split.
  - destruct (Port.run_probe_refused inet_ntop endpoint before (a :: after) (ok v :: ok 0 :: ok 0 :: rs) k)
      as (k1 & Hrun & Ho); [done | done |].
    unfold Port.isPortOpen. rewrite run_bind, Hrun. cbn [Port.probe].
    assert (v ∉ kopen k1) as Hv1 by (rewrite Ho; set_solver).
    rewrite run_call, run_socket by done. cbn [rv ok].
    destruct (Z.eqb_spec v (-1)); [lia |]. rewrite run_call, (run_done _ v) by (done || set_solver).
    cbn [rv ok Z.eqb]. rewrite run_call_, run_close by set_solver.
    eexists. split; [reflexivity |]. cbn [log kopen]. rewrite <- Ho. set_solver.
  - destruct (Port.run_probe_refused inet_ntop endpoint before [] rs k) as (k1 & Hrun & Ho); [done | done |].
    rewrite app_nil_r in Hrun.
    unfold Port.isListening, Port.isPortOpen. rewrite !run_bind, Hrun. by exists k1.
Qed.

Lemma pipe_copy_witness :
  Dpipe.main 5 1 3 4 None = (out ← Dpipe.parent 5 3 4; Ret (Some out)) ∧
  run (Dpipe.parent 5 3 4) [ok 0; got (text "hello"); got []] (Kern {[3; 4]} ∅ []) = UB.
Proof.
  split; [reflexivity |].
  refine (proj1 (proj2 (pipe_copy 3 4 (Some (text "hello")) (Kern {[3; 4]} ∅ []) [text "hello"] 5 []
    [] [] _ _ _ _ _ _)) _); try done; try set_solver; try (simpl; lia).
  - repeat constructor; simpl; unfold Dpipe.size; lia.
  - apply Forall_singleton. by apply (bool_decide_unpack _).
Defined.

Lemma fifo_copy_witness :
  ∃ p : mstate (Fifo.child_process 3), pstate p = inl (Fifo.Reader (zeros Fifo.size) (text "ab")) ∧
    received_from 3 (ktrace (pkern p)) = text "ab".
Proof.
  set (p0 := Process (inl Fifo.reader_init) (Kern {[3]} ∅ []) : mstate (Fifo.child_process 3)).
  assert (∃ p1, msteps (Fifo.child_process 3) (Forall Fifo.no_error) p0 p1 ∧
    pstate p1 = inl (Fifo.Reader (zeros Fifo.size) (text "ab"))) as (p1 & H1 & Hs).
  { eexists. split; [exists [got (text "ab")]; split; [by repeat constructor | vm_compute; reflexivity] |].
    vm_compute. reflexivity. }
  exists p1. split; [exact Hs |].
  pose proof (fifo_copy 3 4 (text "ab") (Kern ∅ ∅ []) 5 p0 p1 ltac:(simpl; lia)
    ltac:(by exists Fifo.reader_init, (Kern {[3]} ∅ [])) (rtc_once _ _ H1)) as (_ & _ & Hf & _).
  symmetry. exact (Hf _ Hs).
Defined.

Lemma unix_server_witness :
  UnixSocket.overlay [] [text "hello"; text "by"] = text "hellobyllo" ∧
  ∃ k', run (UnixSocket.serve 5 3)
      [ok 4; got (text "hello"); got (text "by"); got []; ok 0] (Kern {[3]} ∅ []) = Ok (inl tt, [], k') ∧
    head (ktrace k') = Some (Printf (text "hellobyllo" ++ [newline; newline]), ok 0) ∧ 4 ∈ kopen k'.
Proof.
  split; [reflexivity |].
  assert (Forall (λ d, length d < UnixSocket.size)%nat [text "hello"; text "by"]) as Hs
    by (repeat constructor; simpl; unfold UnixSocket.size; lia).
  assert (Forall (chunk (Z.of_nat UnixSocket.size)) [text "hello"; text "by"]) as Hc
    by (repeat constructor; simpl; unfold UnixSocket.size; lia).
  assert (Forall (λ d, NUL ∉ d) [text "hello"; text "by"]) as Hn
    by (repeat constructor; by apply (bool_decide_unpack _)).
  destruct (unix_server 3 4 0 (Kern {[3]} ∅ []) [text "hello"; text "by"] 5 []
    ltac:(by apply (bool_decide_unpack _)) ltac:(lia) ltac:(by apply (bool_decide_unpack _))
    ltac:(by apply (bool_decide_unpack _)) Hc Hn ltac:(simpl; lia)) as (_ & H & _).
  destruct (H Hs) as (k' & H1 & H2 & H3 & _). by exists k'.
Defined.

Lemma reuse_port_witness :
  ∃ k', run (ReusePort.serve 5 3)
      [ok 4; got (text "hello"); got (text "by"); got []; ok 0] (Kern {[3]} ∅ []) = Ok (inl tt, [], k') ∧
    head (ktrace k') = Some (Printf (text "helloby" ++ [newline]), ok 0) ∧ 4 ∈ kopen k'.
Proof.
  refine (proj1 (proj2 (reuse_port 80 3 4 0 None (Kern {[3]} ∅ []) [text "hello"; text "by"] 5 0 []
    _ _ _ _ _))); try done; try set_solver; try (simpl; lia).
  repeat constructor; simpl; lia.
Defined.

Lemma mapping_printed_witness :
  SharedMap.child 5 (zeros SharedMap.zone_size) (0%nat, []) = Ok (0%nat, []).
Proof.
  apply (mapping_printed (zeros SharedMap.zone_size) 0); [apply length_replicate | lia | lia | intros _; vm_compute; reflexivity].
Defined.

Lemma structure_transferred_witness :
  Transfer.decode (take 16 (store (zeros 64) (Transfer.encode (zeros 3) Transfer.the_data))) =
    Transfer.the_data.
Proof.
  apply (structure_transferred (zeros 3) Transfer.the_data); [done | | done | reflexivity || simpl; lia].
  repeat split; simpl; lia.
Defined.

Lemma port_probe_witness :
  ∃ k', run (Port.isPortOpen (λ a : string, Some (text a)) (λ _, 80) (text "host")
      (Some ["::1"; "127.0.0.1"])) [ok 3; err 111; ok 4; ok 0; ok 0] (Kern ∅ ∅ []) =
      Ok (inl (text "host:127.0.0.1" ++ [newline]), [], k') ∧ kopen k' = {[3]} ∪ ∅ ∪ ∅.
Proof.
  refine (proj1 (port_probe (λ a : string, Some (text a)) (λ _, 80) (text "host") [("::1", 3)]
    "127.0.0.1" [] 4 (Kern ∅ ∅ []) [] _ _)).
  - by apply (bool_decide_unpack _).
  - repeat constructor; by apply (bool_decide_unpack _).
Defined.
