(* ===== verification/Host.v ===== *)
(** Two small parts of the network programs: the host's name and address
    ([boost_doc/IO/ip.cpp]) and the flags of a socket ([setnonblocking] of
    [network/TCP/long_connection.server.c]). *)
From S2P Require Import Prelude Posix.
Open Scope Z_scope.

(** * [GetHostInfo] *)
Module HostInfo.
(** What the program uses of [struct hostent]. *)
Record hostent := Hostent { h_addrtype : Z; h_addr_list : list data }.

Section host.
(** The host database and the text of an address, in at most [size] bytes with
    its NUL ([inet_ntop]). *)
Context (gethostbyname : data → option hostent) (inet_ntop : Z → data → nat → option data).

(** [stored] is what [gethostname] wrote at the start of the buffer: its result
    is not tested, and neither is that of [gethostbyname]; an empty list of
    addresses ends with a null pointer at once. *)
Definition GetHostInfo (stored hostName Ip : data) : outcome (bool * data * data) :=
  let name := ustore (uninit 256) stored in
  hostName ← from_option_ub (u_string name);
  host ← from_option_ub (gethostbyname hostName);
  addr ← from_option_ub (head (h_addr_list host));
  match inet_ntop (h_addrtype host) addr 32 with
  | None => Ok (false, hostName, Ip)
  | Some ret => Ok (true, hostName, ret)
  end.

(** [main]: the two lines it prints, or the message of the failure. *)
Definition main (stored : data) : outcome (list data) :=
  r ← GetHostInfo stored [] [];
  match r with
  | (true, hostName, Ip) => Ok [text "hostname: " ++ hostName; text "Ip: " ++ Ip]
  | (false, _, _) => Ok [text "hostname transform to ip failed"]
  end.

(** What [gethostname] does for a host of that name: a name that does not fit is
    an error, after which the buffer holds what it held, or as much of the name
    as fits. *)
Definition names (host stored : data) : Prop :=
  (NUL ∉ host) ∧
  (if (length host <? 256)%nat then stored = host ++ [NUL] else stored = [] ∨ stored = take 256 host).

(** The program is defined exactly for a name that fits its buffer, of a host in
    the database with an address; it then shows the name and the first address,
    or reports that the address has no text of 31 bytes. *)
Theorem host_info (host stored : data) :
  names host stored →
  main stored =
    if (length host <? 256)%nat then
      match gethostbyname host with
      | Some (Hostent t (addr :: _)) =>
          Ok (match inet_ntop t addr 32 with
              | Some ip => [text "hostname: " ++ host; text "Ip: " ++ ip]
              | None => [text "hostname transform to ip failed"]
              end)
      | _ => UB
      end
    else UB.
Proof.
  intros [Hn Hst]. unfold main, GetHostInfo. destruct (Nat.ltb_spec (length host) 256) as [Hlt | Hge].
  - subst stored. unfold ustore at 1. rewrite fmap_app, <- (assoc_L (++)). cbn [fmap list_fmap app].
    rewrite u_string_nul by done. cbn [from_option_ub mbind outcome_bind].
    destruct (gethostbyname host) as [[t [| addr addrs]] |]; try done. cbn [from_option_ub mbind outcome_bind head h_addr_list h_addrtype].
    by destruct (inet_ntop t addr 32).
  - assert (NUL ∉ stored) as Hns.
    { destruct Hst as [-> | ->]; [by apply not_elem_of_nil |]. intros Hin. apply Hn. rewrite <- (take_drop 256 host). apply elem_of_app. by left. }
    by rewrite (u_string_uninit stored 256 Hns).
Qed.
End host.

(** A host with an IPv4 address; and one whose only address needs more text. *)
Definition database (name : data) : option hostent :=
  if decide (name = text "box") then Some (Hostent 2 [text "127.0.1.1"])
  else if decide (name = text "six") then Some (Hostent 10 [text "2001:0db8:85a3:0000:0000:8a2e:0370:7334"]) else None.
Definition ntop (_ : Z) (addr : data) (size : nat) : option data :=
  if (length addr <? size)%nat then Some addr else None.

Lemma host_info_witness :
  main database ntop (text "box" ++ [NUL]) = Ok [text "hostname: box"; text "Ip: 127.0.1.1"] ∧
  main database ntop (text "six" ++ [NUL]) = Ok [text "hostname transform to ip failed"] ∧
  main database ntop (text "nobody" ++ [NUL]) = UB.
Proof.
  assert (∀ host, bool_decide (NUL ∉ host) = true → (length host <? 256)%nat = true → names host (host ++ [NUL])) as Hok.
  { intros host Hn Hl. split; [by apply bool_decide_eq_true in Hn | by rewrite Hl]. }
  split_and!.
  - exact (host_info database ntop _ _ (Hok (text "box") eq_refl eq_refl)).
  - exact (host_info database ntop _ _ (Hok (text "six") eq_refl eq_refl)).
  - exact (host_info database ntop _ _ (Hok (text "nobody") eq_refl eq_refl)).
Defined.
End HostInfo.

(** * [setnonblocking] *)
Module NonBlocking.
(** The flags of an open descriptor: those of the descriptor ([F_GETFD]) and the
    status flags of the open file ([F_GETFL]). *)
Record flags := Flags { fd_flags : Z; fl_flags : Z }.
Definition FD_CLOEXEC : Z := 1.
Definition O_APPEND : Z := 1024.
Definition O_NONBLOCK : Z := 2048.
Definition O_ASYNC : Z := 8192.
Definition O_DIRECT : Z := 16384.
Definition O_NOATIME : Z := 262144.

(** [F_SETFL] changes these flags only; the others of its argument are ignored. *)
Definition settable : Z := Z.lor O_APPEND (Z.lor O_NONBLOCK (Z.lor O_ASYNC (Z.lor O_DIRECT O_NOATIME))).
Definition F_SETFL (arg : Z) (f : flags) : flags :=
  Flags (fd_flags f) (Z.lor (Z.land (fl_flags f) (Z.lnot settable)) (Z.land arg settable)).

(** The descriptor of [sockfd]: [None] when it is not open, where both calls
    return -1. *)
Definition setnonblocking (f : option flags) : option flags * Z :=
  match f with
  | None => (None, -1)
  | Some f => (Some (F_SETFL (Z.lor (fd_flags f) O_NONBLOCK) f), 0)
  end.

(** What it means to do: add one flag to those there are. *)
Definition add_nonblock (f : flags) : flags := Flags (fd_flags f) (Z.lor (fl_flags f) O_NONBLOCK).

(** One bit of the flags after [F_SETFL], for flags [b] that can be set. *)
Lemma setfl_bit s b a n :
  Z.land b s = b → 0 <= n →
  Z.testbit (Z.lor (Z.land a (Z.lnot s)) b) n = (Z.testbit a n && negb (Z.testbit s n)) || Z.testbit b n ∧
  (Z.testbit b n = true → Z.testbit s n = true).
Proof.
  intros Hb Hn. split; [by rewrite Z.lor_spec, Z.land_spec, Z.lnot_spec |].
  intros Hbn. rewrite <- Hb, Z.land_spec in Hbn. by apply andb_true_iff in Hbn as [_ ?].
Qed.

Lemma setfl_parts s b a :
  Z.land b s = b →
  let g := Z.lor (Z.land a (Z.lnot s)) b in
  Z.land g s = b ∧ Z.land g (Z.lnot s) = Z.land a (Z.lnot s) ∧
  (g = Z.lor a b ↔ Z.land a (Z.ldiff s b) = 0).
Proof.
  intros Hb g. pose proof (λ n, setfl_bit s b a n Hb) as Hg. split_and!; [| | split; intros E];
    apply Z.bits_inj'; intros n Hn; destruct (Hg n Hn) as [Hgn Hs]; subst g.
  - rewrite Z.land_spec, Hgn. destruct (Z.testbit a n), (Z.testbit s n), (Z.testbit b n); naive_solver.
  - rewrite !Z.land_spec, Hgn, Z.lnot_spec by done.
    destruct (Z.testbit a n), (Z.testbit s n), (Z.testbit b n); naive_solver.
  - apply (f_equal (λ z, Z.testbit z n)) in E. rewrite Hgn, Z.lor_spec in E.
    rewrite Z.land_spec, Z.ldiff_spec, Z.bits_0.
    destruct (Z.testbit a n), (Z.testbit s n), (Z.testbit b n); naive_solver.
  - apply (f_equal (λ z, Z.testbit z n)) in E. rewrite Z.land_spec, Z.ldiff_spec, Z.bits_0 in E.
    rewrite Hgn, Z.lor_spec. destruct (Z.testbit a n), (Z.testbit s n), (Z.testbit b n); naive_solver.
Qed.

(** It reads the flags of the descriptor where it means those of the file: the
    socket becomes non-blocking, and loses the other flags that can be set.  For
    a descriptor that has none of them, as a new connection, that makes no
    difference. *)
Theorem setnonblocking_flags (f : flags) :
  Z.land (fd_flags f) settable = 0 →
  ∃ g, setnonblocking (Some f) = (Some g, 0) ∧ fd_flags g = fd_flags f ∧
    Z.land (fl_flags g) settable = O_NONBLOCK ∧
    Z.land (fl_flags g) (Z.lnot settable) = Z.land (fl_flags f) (Z.lnot settable) ∧
    (g = add_nonblock f ↔ Z.land (fl_flags f) (Z.ldiff settable O_NONBLOCK) = 0).
Proof.
  intros Hfd. eexists. split; [reflexivity |]. unfold F_SETFL, add_nonblock. cbn [fd_flags fl_flags].
  rewrite (Z.land_lor_distr_l (fd_flags f)), Hfd, Z.lor_0_l. change (Z.land O_NONBLOCK settable) with O_NONBLOCK.
  destruct (setfl_parts settable O_NONBLOCK (fl_flags f) eq_refl) as (H1 & H2 & H3).
  split_and!; [done | exact H1 | exact H2 |]. rewrite <- H3. split; [by intros [=] | by intros ->].
Qed.

(** A connection, and a file opened for appending. *)
Lemma setnonblocking_flags_witness :
  setnonblocking (Some (Flags 0 2)) = (Some (add_nonblock (Flags 0 2)), 0) ∧
  ∃ g, setnonblocking (Some (Flags 0 (2 + O_APPEND))) = (Some g, 0) ∧ Z.land (fl_flags g) settable = O_NONBLOCK.
Proof.
  split; [reflexivity |].
  destruct (setnonblocking_flags (Flags 0 (2 + O_APPEND)) eq_refl) as (g & H1 & _ & H2 & _). by exists g.
Defined.
End NonBlocking.
