(* ===== verification/Shell.v ===== *)
(** The command shell of [IPC/SHM/SystemV/placement.cpp]: a counter placed in a
    System V shared memory segment, and the commands that attach, create,
    change and remove it. *)

From S2P Require Import Prelude Posix.

Local Open Scope Z_scope.

(** * [fgets] and [strtok] on the command buffer *)
Module Parse.
Definition newline : byte := Ascii.ascii_of_nat 10.
Definition is_sep (c : byte) : bool := Ascii.eqb c (Ascii.ascii_of_nat 32) || Ascii.eqb c newline.
#[global] Arguments is_sep : simpl never.

(** The tokens [strtok(_, " \n")] finds one after the other. *)
Fixpoint tokens (cmd : data) : list data :=
  match cmd with
  | [] => []
  | c :: cmd =>
      if is_sep c then tokens cmd
      else match cmd with
           | [] => [[c]]
           | d :: _ =>
               if is_sep d then [c] :: tokens cmd
               else match tokens cmd with [] => [[c]] | t :: ts => (c :: t) :: ts end
           end
  end.

Definition max_parameters : nat := 10.

(** [argv[i++] = token] into an array of ten: an eleventh token is stored past
    its end. *)
Definition parseCommand (cmd : data) : outcome (list data) :=
  let ts := tokens cmd in
  require (length ts <=? max_parameters)%nat ;; Ok ts.

(** What [strtok] leaves of the command as a C string: the separators in front
    of the first token, and the token. *)
Fixpoint mangled (cmd : data) : data :=
  match cmd with
  | [] => []
  | c :: rest => if is_sep c then c :: mangled rest else hd [] (tokens cmd)
  end.

(** [fgets(cmdbuffer, 1024, stdin)]: what it stores and what is left of the
    input; at the end of the input the buffer keeps what it had. *)
Fixpoint take_line (n : nat) (stdin : data) : data * data :=
  match n, stdin with
  | S n, c :: stdin =>
      if Ascii.eqb c newline then ([c], stdin)
      else let '(l, stdin) := take_line n stdin in (c :: l, stdin)
  | _, _ => ([], stdin)
  end.
Definition fgets (buffer : option data) (stdin : data) : option data * data :=
  match stdin with
  | [] => (buffer, [])
  | _ => let '(l, stdin) := take_line 1023 stdin in (Some l, stdin)
  end.

Lemma tokens_sep c cmd : is_sep c = true → tokens (c :: cmd) = tokens cmd.
Proof. intros H. cbn [tokens]. by rewrite H. Qed.

Lemma tokens_cons2 c d cmd :
  tokens (c :: d :: cmd) =
    if is_sep c then tokens (d :: cmd)
    else if is_sep d then [c] :: tokens (d :: cmd)
    else match tokens (d :: cmd) with [] => [[c]] | t :: ts => (c :: t) :: ts end.
Proof. done. Qed.

Lemma tokens_word w rest :
  w ≠ [] → Forall (λ c, is_sep c = false) w →
  match rest with [] => True | c :: _ => is_sep c = true end →
  tokens (w ++ rest) = w :: tokens rest.
Proof.
  intros Hne Hw Hr. destruct w as [| c w]; [done |]. clear Hne. revert c Hw.
  induction w as [| d w IH]; intros c [Hc Hw]%Forall_cons.
  - cbn [app tokens]. rewrite Hc. destruct rest as [| e rest]; [done |]. by rewrite Hr.
  - change ((c :: d :: w) ++ rest) with (c :: d :: (w ++ rest)). rewrite tokens_cons2, Hc.
    pose proof (Forall_inv Hw) as Hd. simpl in Hd. rewrite Hd.
    change (d :: w ++ rest) with ((d :: w) ++ rest). by rewrite IH.
Qed.

Lemma tokens_seps s cmd : Forall (λ c, is_sep c = true) s → tokens (s ++ cmd) = tokens cmd.
Proof. induction 1 as [| c s Hc _ IH]; [done |]. cbn [app]. by rewrite tokens_sep. Qed.

(** Words with separators before each of them and at the end. *)
Fixpoint spaced (ws : list (data * data)) (tail : data) : data :=
  match ws with [] => tail | (s, w) :: ws => s ++ w ++ spaced ws tail end.

Definition is_word (w : data) : Prop := w ≠ [] ∧ Forall (λ c, is_sep c = false) w.
Definition is_gap (s : data) : Prop := Forall (λ c, is_sep c = true) s.

(** The first gap may be empty. *)
Definition well_spaced (ws : list (data * data)) : Prop :=
  Forall (λ x, is_gap x.1 ∧ is_word x.2) ws ∧ Forall (λ x, x.1 ≠ []) (tail ws).

Lemma tokens_spaced ws t :
  well_spaced ws → is_gap t → tokens (spaced ws t) = ws.*2.
Proof.
  intros [Hws Hne] Ht. induction Hws as [| [s w] ws [Hs [Hw0 Hw]] Hws IH]; cbn [spaced].
  - pose proof (tokens_seps t [] Ht) as H. by rewrite app_nil_r in H.
  - cbn [fst snd tail] in *. rewrite tokens_seps by done. rewrite tokens_word; [| done | done |].
    + rewrite IH; [done |]. by destruct Hne.
    + destruct ws as [| [s' w'] ws]; cbn [spaced].
      * destruct t; [done |]. by apply Forall_inv in Ht.
      * apply Forall_inv in Hws as [Hs' _]. apply Forall_inv in Hne. cbn [fst] in *.
        destruct s'; [done |]. by apply Forall_inv in Hs'.
Qed.

Lemma tokens_head c cmd : is_sep c = false → ∃ t ts, tokens (c :: cmd) = t :: ts ∧ is_word t.
Proof.
  revert c. induction cmd as [| d cmd IH]; intros c Hc.
  - exists [c], []. cbn [tokens]. rewrite Hc. split; [done |]. split; [done | by repeat constructor].
  - rewrite tokens_cons2, Hc. destruct (is_sep d) eqn:Hd.
    + exists [c], (tokens (d :: cmd)). split; [done |]. split; [done | by repeat constructor].
    + destruct (IH d Hd) as (t & ts & -> & [_ Ht]).
      exists (c :: t), ts. split; [done |]. split; [done | by constructor].
Qed.

(** What is left after a command has been parsed is its first word again. *)
Lemma tokens_mangled cmd : tokens (mangled cmd) = match tokens cmd with [] => [] | t :: _ => [t] end.
Proof.
  induction cmd as [| c cmd IH]; [done |].
  destruct (is_sep c) eqn:Hc; [cbn [mangled]; rewrite Hc, !tokens_sep by done; exact IH |].
  cbn [mangled]. rewrite Hc.
  destruct (tokens_head c cmd Hc) as (t & ts & -> & Ht1 & Ht2). cbn [hd].
  pose proof (tokens_word t [] Ht1 Ht2 I) as H. by rewrite app_nil_r in H.
Qed.

Lemma mangled_idem cmd : mangled (mangled cmd) = mangled cmd.
Proof.
  induction cmd as [| c cmd IH]; [done |]. cbn [mangled].
  destruct (is_sep c) eqn:Hc; [cbn [mangled]; by rewrite Hc, IH |].
  destruct (tokens_head c cmd Hc) as (t & ts & -> & Ht1 & Ht2). cbn [hd].
  pose proof (tokens_word t [] Ht1 Ht2 I) as H. rewrite app_nil_r in H.
  destruct t as [| d t]; [done |]. cbn [mangled]. pose proof (Forall_inv Ht2) as Hd. simpl in Hd.
  by rewrite Hd, H.
Qed.
End Parse.
Import Parse.

(** * The shared object and the commands *)
Module Shm.
Section shell.
(** [attach], [increase], [decrease] and [print] do not return a value on every
    path: undefined by the language ([false]), harmless with the compilers that
    just return ([true]). *)
Context (falls_off_ok : bool).

(** The kernel's segment for [SHM_KEY], the counts in the segments ([None]:
    zeroed, no object constructed), where segments are mapped; the program's
    variables; the last line [print] printed. Address 0 is [NULL]. *)
Record state := State {
  key : option Z;
  counts : gmap Z Z;
  mapped : gmap Z Z;
  shm_id : Z;
  shm_addr : Z;
  shm_object : Z;
  printed : list Z
}.
Definition NULL : Z := 0.
Definition state_init : state := State None ∅ ∅ 0 NULL NULL [].

Definition fall_off (s : state) : outcome state := require falls_off_ok ;; Ok s.

(** [int] overflow is undefined. *)
Definition in_int (v : Z) : bool := (- 2 ^ 31 <=? v) && (v <? 2 ^ 31).

(** [shmget] gives [id] (-1 when it fails), [shmat] maps it at [addr]; it
    reports a failure by the address -1, which the code does not test. *)
Definition attach (server : bool) (id addr : Z) (s : state) : outcome state :=
  let failed := State (key s) (counts s) (mapped s) (-1) (shm_addr s) (shm_object s) (printed s) in
  if id <? 0 then Ok failed
  else
    await match key s with
          | Some i => bool_decide (id = i)
          | None => server && bool_decide (counts s !! id = None)
          end ;;
    let c := match key s with Some _ => counts s | None => <[id:=0]> (counts s) end in
    if addr =? -1
    then fall_off (State (Some id) c (mapped s) id (-1) (shm_object s) (printed s))
    else
      await (bool_decide (0 < addr ∧ mapped s !! addr = None)) ;;
      fall_off (State (Some id) c (<[addr:=id]> (mapped s)) id addr (shm_object s) (printed s)).

(** [shmdt], then [shmctl(IPC_RMID)]; the variables keep their values. *)
Definition dettach (s : state) : outcome state :=
  match mapped s !! shm_addr s with
  | None => Ok s
  | Some id =>
      let s := State (key s) (counts s) (delete (shm_addr s) (mapped s)) (shm_id s) (shm_addr s)
                 (shm_object s) (printed s) in
      if bool_decide (key s = Some (shm_id s))
      then Ok (State None (counts s) (mapped s) (shm_id s) (shm_addr s) (shm_object s) (printed s))
      else Ok s
  end.

(** [new (shm_addr) SHMObj()] on the server's side, a cast on the client's. *)
Definition create (server : bool) (s : state) : outcome state :=
  if server then
    id ← from_option_ub (mapped s !! shm_addr s);
    Ok (State (key s) (<[id:=100]> (counts s)) (mapped s) (shm_id s) (shm_addr s) (shm_addr s) (printed s))
  else Ok (State (key s) (counts s) (mapped s) (shm_id s) (shm_addr s) (shm_addr s) (printed s)).

(** A method of [*shm_object]: it changes the count by [d] and prints it. *)
Definition method (d : Z) (s : state) : outcome state :=
  if shm_object s =? NULL then fall_off s
  else
    id ← from_option_ub (mapped s !! shm_object s);
    n ← from_option_ub (counts s !! id);
    require (in_int (n + d)) ;;
    fall_off (State (key s) (<[id:=n + d]> (counts s)) (mapped s) (shm_id s) (shm_addr s)
                (shm_object s) (printed s ++ [n + d])).
Definition increase : state → outcome state := method 1.
Definition decrease : state → outcome state := method (-1).
Definition print : state → outcome state := method 0.

(** One command; [true] when it is [quit]. *)
Definition command (server : bool) (id addr : Z) (cmds : list data) (s : state) :
    outcome (bool * state) :=
  match cmds with
  | [] => Ok (false, s)
  | c :: _ =>
      if bool_decide (c = text "quit") then Ok (true, s)
      else if bool_decide (c = text "attach") then s ← attach server id addr s; Ok (false, s)
      else if bool_decide (c = text "dettach") then s ← dettach s; Ok (false, s)
      else if bool_decide (c = text "create") then s ← create server s; Ok (false, s)
      else if bool_decide (c = text "increase") then s ← increase s; Ok (false, s)
      else if bool_decide (c = text "decrease") then s ← decrease s; Ok (false, s)
      else if bool_decide (c = text "print") then s ← print s; Ok (false, s)
      else Ok (false, s)                 (* [help] and unknown commands only print *)
  end.

(** The main loop: the command buffer, what is left of [stdin], the kernel's
    answers to the [attach] of each turn; it stops at [quit]. *)
Record shell := Shell { cmdbuffer : option data; stdin : data; obj : state; quitted : bool }.

Definition turn (server : bool) (id addr : Z) (s : shell) : outcome shell :=
  if quitted s then Blocked
  else
    let '(b, rest) := fgets (cmdbuffer s) (stdin s) in
    cmd ← from_option_ub b;
    cmds ← parseCommand cmd;
    r ← command server id addr cmds (obj s);
    Ok (Shell (Some (mangled cmd)) rest r.2 r.1).

Fixpoint turns (server : bool) (answers : list (Z * Z)) (s : shell) : outcome shell :=
  match answers with
  | [] => Ok s
  | (id, addr) :: answers => s ← turn server id addr s; turns server answers s
  end.

(** Several methods in a row, and the counts they print. *)
Fixpoint methods (ds : list Z) (s : state) : outcome state :=
  match ds with [] => Ok s | d :: ds => s ← method d s; methods ds s end.
End shell.

Fixpoint running (n : Z) (ds : list Z) : list Z :=
  match ds with [] => [] | d :: ds => (n + d) :: running (n + d) ds end.

(** The program's pointer is to a live object with count [n]. *)
Definition holds (s : state) (id n : Z) : Prop :=
  shm_object s ≠ NULL ∧ mapped s !! shm_object s = Some id ∧ counts s !! id = Some n.

Lemma method_holds d s id n :
  holds s id n → in_int (n + d) = true →
  ∃ s', method true d s = Ok s' ∧ holds s' id (n + d) ∧ printed s' = printed s ++ [n + d] ∧
    mapped s' = mapped s ∧ shm_addr s' = shm_addr s ∧ shm_object s' = shm_object s.
Proof.
  intros (Ho & Hm & Hc) Hi. unfold method. destruct (Z.eqb_spec (shm_object s) NULL); [done |].
  rewrite Hm. cbn [from_option_ub mbind outcome_bind]. rewrite Hc. cbn [from_option_ub mbind outcome_bind].
  rewrite Hi. eexists. split; [reflexivity |]. split_and!; try done.
  split_and!; [done | done |]. cbn [counts]. by rewrite lookup_insert_eq.
Qed.

Lemma methods_hold ds s id n :
  holds s id n → Forall (λ m, in_int m = true) (running n ds) →
  ∃ s', methods true ds s = Ok s' ∧ holds s' id (n + foldr Z.add 0 ds) ∧
    printed s' = printed s ++ running n ds ∧
    mapped s' = mapped s ∧ shm_addr s' = shm_addr s ∧ shm_object s' = shm_object s.
Proof.
  revert s n. induction ds as [| d ds IH]; intros s n Hh Hi.
  - exists s. cbn [foldr running]. rewrite Z.add_0_r, app_nil_r. done.
  - cbn [running] in Hi. apply Forall_cons in Hi as [Hi1 Hi].
    destruct (method_holds d s id n Hh Hi1) as (s1 & Hm & Hh1 & Hp & E1 & E2 & E3).
    destruct (IH s1 (n + d) Hh1 Hi) as (s2 & Hs & Hh2 & Hp2 & F1 & F2 & F3).
    exists s2. cbn [methods running foldr]. rewrite Hm. cbn [mbind outcome_bind].
    split; [done |]. replace (n + (d + foldr Z.add 0 ds)) with (n + d + foldr Z.add 0 ds) by lia.
    split; [done |]. rewrite Hp2, Hp, <- app_assoc. split_and!; [done | congruence | congruence | congruence].
Qed.

Lemma method_dangling d s b :
  shm_object s ≠ NULL → mapped s !! shm_object s = None → method b d s = UB.
Proof.
  intros Ho Hm. unfold method. destruct (Z.eqb_spec (shm_object s) NULL); [done |]. by rewrite Hm.
Qed.
End Shm.

(** * The properties *)

(** C33. Reading commands. Words separated by blanks and newlines are found as
    they are, up to ten of them, an eleventh is written past the end of the
    array; the buffer keeps the first word, so when the input has ended every
    turn executes that word again, without the others. *)
Theorem shell_reads (ws : list (data * data)) (t : data) :
  well_spaced ws → is_gap t →
  parseCommand (spaced ws t) = (if (length ws <=? max_parameters)%nat then Ok ws.*2 else UB) ∧
  ∀ ok server id addr s w ws', ws.*2 = w :: ws' →
    Shm.turn ok server id addr (Shm.Shell (Some (mangled (spaced ws t))) [] s false) =
      (r ← Shm.command ok server id addr [w] s;
       Ok (Shm.Shell (Some (mangled (spaced ws t))) [] r.2 r.1)).
Proof.
  intros Hws Ht. pose proof (tokens_spaced ws t Hws Ht) as E. split.
  - unfold parseCommand. rewrite E, length_fmap. by case_match.
  - intros ok server id addr s w ws' Hw. unfold Shm.turn. cbn [Shm.quitted Shm.cmdbuffer Shm.stdin Shm.obj fgets].
    cbn [from_option_ub mbind outcome_bind]. unfold parseCommand at 1.
    rewrite tokens_mangled, E, Hw. cbn [require length Nat.leb max_parameters mbind outcome_bind].
    by rewrite mangled_idem.
Qed.

(** The counter. While the object is mapped the commands add to it and
    print every value it takes, as long as those are [int]s; after [dettach]
    the object is still pointed to, so the next command on it is undefined;
    [create] without an attached segment is undefined on the server; and where
    a missing [return] is undefined so is every one of these commands. *)
Theorem shm_counter (s : Shm.state) (id n : Z) (ds : list Z) (d : Z) :
  Shm.holds s id n → Shm.shm_addr s = Shm.shm_object s →
  Forall (λ m, Shm.in_int m = true) (Shm.running n ds) →
  (∃ s', Shm.methods true ds s = Ok s' ∧ Shm.counts s' !! id = Some (n + foldr Z.add 0 ds) ∧
     Shm.printed s' = Shm.printed s ++ Shm.running n ds ∧
     ∃ s1, Shm.dettach s' = Ok s1 ∧ ∀ ok, Shm.method ok d s1 = UB) ∧
  Shm.create true Shm.state_init = UB ∧
  Shm.method false d s = UB.
Proof.
  intros Hh Ha Hi. split_and!.
  - destruct (Shm.methods_hold ds s id n Hh Hi) as (s' & Hs & (Ho & Hm & Hc) & Hp & E1 & E2 & E3).
    exists s'. split_and!; [done | done | done |]. unfold Shm.dettach.
    rewrite E2, Ha, <- E3, Hm. case_bool_decide; (eexists; split; [reflexivity |]; intros ok;
      apply Shm.method_dangling; [done |]; apply lookup_delete_eq).
  - done.
  - destruct Hh as (Ho & Hm & Hc). unfold Shm.method.
    destruct (Z.eqb_spec (Shm.shm_object s) Shm.NULL); [done |].
    rewrite Hm. cbn [from_option_ub mbind outcome_bind]. rewrite Hc. cbn [from_option_ub mbind outcome_bind].
    by destruct (Shm.in_int (n + d)).
Qed.

Lemma shell_reads_witness :
  well_spaced [([], text "create"); (text " ", text "now")] ∧
  parseCommand (spaced [([], text "create"); (text " ", text "now")] [newline]) =
    Ok [text "create"; text "now"].
Proof.
  assert (well_spaced [([], text "create"); (text " ", text "now")]) as H
    by (split; repeat constructor; discriminate).
  split; [exact H |]. apply (shell_reads _ [newline] H). by repeat constructor.
Defined.

Lemma shm_counter_witness :
  ∃ s, (s1 ← Shm.attach true true 5 4096 Shm.state_init; Shm.create true s1) = Ok s ∧
    ∃ s', Shm.methods true [1; 1; -1; 0] s = Ok s' ∧ Shm.printed s' = [101; 102; 101; 101].
Proof.
  set (s := match s1 ← Shm.attach true true 5 4096 Shm.state_init; Shm.create true s1 with
            | Ok s => s | _ => Shm.state_init end).
  exists s. split; [vm_compute; reflexivity |].
  destruct (shm_counter s 5 100 [1; 1; -1; 0] 0 ltac:(split_and!; vm_compute; (reflexivity || discriminate)) eq_refl
    ltac:(by repeat constructor)) as [(s' & H1 & _ & H2 & _) _].
  exists s'. split; [exact H1 | exact H2].
Defined.

