(* ===== verification/Text.v ===== *)
(** [lang/getline.cpp]: three ways to read a file line by line, on streams with
    their [eof] and [fail] bits; and [lang/time_stump.cpp]: the broken-down
    Beijing time of a clock value in milliseconds and its text; and the texts of
    [lang/time_stamp.cpp], [concurrent/1p1c.cpp] and [1p1c_mutex.cpp]. *)

From S2P Require Import Prelude.
From Stdlib Require Import Ascii.

Local Open Scope Z_scope.

(** * Reading lines *)
Module Getline.
Definition text : Type := list ascii.
Definition newline : ascii := ascii_of_nat 10.

(** An input stream: the characters left, its state bits, and whether its
    buffer has a file ([fstream] of a file that is missing has none, and its
    [fail] bit is set). *)
Record stream := Stream { rest : text; eofbit : bool; failbit : bool }.

(** [std::getline(is, str)]: nothing but [fail] when the stream is not good;
    else [str] is erased and gets the characters up to a newline, which is
    taken too, or up to the end, which sets [eof], and [fail] when there was
    no character at all. *)
Fixpoint take_line (l : text) : text * option text :=
  match l with
  | [] => ([], None)
  | c :: l =>
      if Ascii.eqb c newline then ([], Some l)
      else let '(s, r) := take_line l in (c :: s, r)
  end.
Definition getline (input : stream) (str : text) : stream * text :=
  if eofbit input || failbit input then (Stream (rest input) (eofbit input) true, str)
  else
    match take_line (rest input) with
    | (s, Some r) => (Stream r false false, s)
    | (s, None) => (Stream [] true (match s with [] => true | _ => false end), s)
    end.

(** [fstream f(argv[1])]; [rdbuf] hands the buffer over and clears the bits. *)
Definition fstream (f : option text) : stream :=
  match f with Some l => Stream l false false | None => Stream [] false true end.
Definition rdbuf (s : stream) : stream := Stream (rest s) false false.

(** [int count] and [size_t] sizes: the result is narrowed to 32 bits. *)
Definition to_int (z : Z) : Z := (z + 2 ^ 31) mod 2 ^ 32 - 2 ^ 31.
Definition size (l : text) : Z := Z.of_nat (length l).

(** The three loops; [None] when the fuel is used up. The sizes printed, and
    the count. *)
Fixpoint loop1 (fuel : nat) (cin : stream) (line : text) (count : Z) : option (list Z * Z) :=
  match fuel with
  | O => None
  | S fuel =>
      let '(cin, line) := getline cin line in
      if failbit cin then Some ([], count)
      else
        '(out, count) ← loop1 fuel cin [] (to_int (count + size line));
        Some (size line :: out, count)
  end.

Fixpoint loop2 (fuel : nat) (dup_file : stream) (count : Z) : option (list Z * Z) :=
  match fuel with
  | O => None
  | S fuel =>
      if eofbit dup_file then Some ([], count)
      else
        let '(dup_file, line) := getline dup_file [] in
        if eofbit dup_file then Some ([], count)
        else
          '(out, count) ← loop2 fuel dup_file (to_int (count - size line));
          Some (size line :: out, count)
  end.

Fixpoint loop3 (fuel : nat) (cin : stream) (count : Z) : option (list Z * Z) :=
  match fuel with
  | O => None
  | S fuel =>
      if failbit cin then Some ([], count)
      else
        let '(cin, line) := getline cin [] in
        '(out, count) ← loop3 fuel cin (to_int (count - size line));
        Some (size line :: out, count)
  end.

(** [main]: the outputs of the three loops, the counts printed after the first
    two and the last one. *)
Definition main (fuel : nat) (f : option text) : option (list Z * Z * list Z * Z * list Z * Z) :=
  '(out1, count1) ← loop1 fuel (rdbuf (fstream f)) [] 0;
  '(out2, count2) ← loop2 fuel (fstream f) count1;
  '(out3, count3) ← loop3 fuel (rdbuf (fstream f)) count2;
  Some (out1, count1, out2, count2, out3, count3).

(** * The reference: the lines of a text and its unfinished last line *)
Fixpoint split_lines (l : text) : list text * text :=
  match l with
  | [] => ([], [])
  | c :: l =>
      let '(full, last) := split_lines l in
      if Ascii.eqb c newline then ([] :: full, last)
      else match full with [] => ([], c :: last) | s :: full => ((c :: s) :: full, last) end
  end.
Definition sum_sizes (ls : list text) : Z := foldr (λ l n, size l + n) 0 ls.
Definition unfinished (last : text) : list Z := match last with [] => [] | _ => [size last] end.

Lemma take_line_split l :
  match take_line l, split_lines l with
  | (s, Some r), (full, last) => ∃ full', full = s :: full' ∧ split_lines r = (full', last) ∧ (length r < length l)%nat
  | (s, None), (full, last) => full = [] ∧ last = s
  end.
Proof.
  induction l as [| c l IH]; [done |]. cbn [take_line split_lines].
  destruct (Ascii.eqb c newline).
  - destruct (split_lines l) as [full last]. exists full. split_and!; [done | done | cbn; lia].
  - destruct (take_line l) as [s [r |]], (split_lines l) as [full last].
    + destruct IH as (full' & -> & Hr & Hlt). exists full'. split_and!; [done | done | cbn; lia].
    + by destruct IH as [-> ->].
Qed.

Lemma to_int_add a b : to_int (to_int a + b) = to_int (a + b).
Proof.
  unfold to_int. f_equal.
  replace ((a + 2 ^ 31) mod 2 ^ 32 - 2 ^ 31 + b + 2 ^ 31) with ((a + 2 ^ 31) mod 2 ^ 32 + b) by lia.
  rewrite Zplus_mod_idemp_l. f_equal. lia.
Qed.
Lemma to_int_sub a b : to_int (to_int a - b) = to_int (a - b).
Proof. apply (to_int_add a (- b)). Qed.
Lemma to_int_id z : - 2 ^ 31 <= z < 2 ^ 31 → to_int z = z.
Proof. intros H. unfold to_int. rewrite Z.mod_small by lia. lia. Qed.

(** The loops on a good stream, with enough fuel. *)
Lemma loop1_spec fuel l str count :
  (length l < fuel)%nat →
  let '(full, last) := split_lines l in
  loop1 fuel (Stream l false false) str (to_int count) =
    Some (map size full ++ unfinished last, to_int (count + sum_sizes full + size last)).
Proof.
  revert l str count. induction fuel as [| fuel IH]; intros l str count Hf; [lia |].
  pose proof (take_line_split l) as Hs. cbn [loop1 getline eofbit failbit orb rest].
  destruct (take_line l) as [s [r |]] eqn:E, (split_lines l) as [full last]; cbn [failbit].
  - destruct Hs as (full' & -> & Hr & Hlt). rewrite to_int_add.
    specialize (IH r [] (count + size s) ltac:(lia)). rewrite Hr in IH. rewrite IH.
    cbn [mbind option_bind map app sum_sizes foldr]. do 3 f_equal. unfold sum_sizes. lia.
  - destruct Hs as [-> ->]. destruct s as [| c s]; cbn [failbit].
    + cbn [map app unfinished sum_sizes foldr size length]. by rewrite !Z.add_0_r.
    + destruct fuel as [| fuel]; [destruct l; [done | cbn in Hf; lia] |].
      cbn [loop1 getline eofbit failbit orb mbind option_bind]. rewrite to_int_add.
      cbn [failbit orb map app unfinished sum_sizes foldr]. do 3 f_equal. lia.
Qed.

Lemma loop2_spec fuel l count :
  (length l < fuel)%nat →
  let '(full, last) := split_lines l in
  loop2 fuel (Stream l false false) (to_int count) = Some (map size full, to_int (count - sum_sizes full)).
Proof.
  revert l count. induction fuel as [| fuel IH]; intros l count Hf; [lia |].
  pose proof (take_line_split l) as Hs. cbn [loop2 getline eofbit failbit orb rest].
  destruct (take_line l) as [s [r |]], (split_lines l) as [full last]; cbn [eofbit].
  - destruct Hs as (full' & -> & Hr & Hlt). rewrite to_int_sub.
    specialize (IH r (count - size s) ltac:(lia)). rewrite Hr in IH. rewrite IH.
    cbn [mbind option_bind map sum_sizes foldr]. do 3 f_equal. unfold sum_sizes. lia.
  - destruct Hs as [-> ->]. cbn [map sum_sizes foldr]. do 3 f_equal. lia.
Qed.

Lemma loop3_spec fuel l count :
  (S (length l) < fuel)%nat →
  let '(full, last) := split_lines l in
  loop3 fuel (Stream l false false) (to_int count) =
    Some (map size full ++ unfinished last ++ [0], to_int (count - sum_sizes full - size last)).
Proof.
  revert l count. induction fuel as [| fuel IH]; intros l count Hf; [lia |].
  pose proof (take_line_split l) as Hs. cbn [loop3 getline eofbit failbit orb rest].
  destruct (take_line l) as [s [r |]] eqn:E, (split_lines l) as [full last].
  - destruct Hs as (full' & -> & Hr & Hlt). rewrite to_int_sub.
    specialize (IH r (count - size s) ltac:(lia)). rewrite Hr in IH. rewrite IH.
    cbn [mbind option_bind map app sum_sizes foldr]. do 3 f_equal. unfold sum_sizes. lia.
  - destruct Hs as [-> ->]. destruct fuel as [| fuel]; [lia |]. rewrite to_int_sub.
    destruct s as [| c s].
    + cbn [loop3 failbit mbind option_bind map app unfinished sum_sizes foldr size length]. by rewrite !Z.sub_0_r.
    + destruct fuel as [| fuel]; [destruct l; [done | cbn in Hf; lia] |].
      cbn [loop3 failbit getline eofbit orb rest]. rewrite to_int_sub.
      cbn [failbit mbind option_bind map app unfinished sum_sizes foldr]. do 3 f_equal. change (size []) with 0. lia.
Qed.

(** On a file that is there the three loops end, and print the same sizes,
    those of its lines, but for the end: the first prints the unfinished
    last line too, the second drops it, the third prints it and then a zero. The count is
    the number of characters that are not newlines, then the length of the
    unfinished line, then the difference, all in 32 bits. *)
Theorem three_readings (f : text) (fuel : nat) :
  (S (length f) < fuel)%nat →
  let '(full, last) := split_lines f in
  let n := sum_sizes full + size last in
  main fuel (Some f) =
    Some (map size full ++ unfinished last, to_int n,
          map size full, to_int (size last),
          map size full ++ unfinished last ++ [0], to_int (size last - n)).
Proof.
  intros Hf. pose proof (loop1_spec fuel f [] 0 ltac:(lia)) as H1.
  pose proof (λ c, loop2_spec fuel f c ltac:(lia)) as H2. pose proof (λ c, loop3_spec fuel f c ltac:(lia)) as H3.
  destruct (split_lines f) as [full last]. unfold main, rdbuf. cbn [fstream rest].
  change 0 with (to_int 0) at 1. rewrite H1. cbn [mbind option_bind]. rewrite H2. cbn [mbind option_bind].
  rewrite H3. cbn [mbind option_bind]. rewrite Z.add_0_l.
  replace (sum_sizes full + size last - sum_sizes full) with (size last) by lia.
  replace (size last - sum_sizes full - size last) with (size last - (sum_sizes full + size last)) by lia. done.
Qed.

(** What the reference says of the text. *)
Lemma split_lines_text (f : text) :
  let '(full, last) := split_lines f in
  f = concat (map (λ s, s ++ [newline]) full) ++ last ∧ Forall (λ s, newline ∉ s) full ∧ newline ∉ last.
Proof.
  induction f as [| c l IH]; [cbn; set_solver |]. cbn [split_lines].
  destruct (split_lines l) as [full last], IH as (Hl & Hf & Hlast), (Ascii.eqb_spec c newline) as [-> | Hc].
  - split_and!; [cbn; by f_equal | constructor; [set_solver | done] | done].
  - destruct full as [| s full]; cbn in Hl |- *.
    + split_and!; [by f_equal | constructor | set_solver].
    + apply Forall_cons in Hf as [Hs Hf]. split_and!; [by f_equal | constructor; set_solver | done].
Qed.

(** A file that is missing: the second loop never ends, since a stream that
    failed to open never reaches its end. *)
Theorem missing_file_loops (fuel : nat) : main fuel None = None.
Proof.
  assert (H : ∀ fuel count, loop2 fuel (Stream [] false true) count = None).
  { clear. induction fuel as [| fuel IH]; intros count; [done |]. cbn. by rewrite IH. }
  unfold main. destruct (loop1 _ _ _ _) as [[out1 count1] |]; [| done]. cbn [mbind option_bind fstream].
  by rewrite H.
Qed.

Lemma three_readings_witness :
  let f := ["a"; "b"; newline; newline; "c"]%char in
  main 7 (Some f) = Some ([2; 0; 1], 3, [2; 0], 1, [2; 0; 1; 0], -2).
Proof. exact (three_readings ["a"; "b"; newline; newline; "c"]%char 7 ltac:(cbn; lia)). Defined.
End Getline.

(** * The time stamp *)
Module Stamp.
Import Getline (text).

(** [struct tm]. *)
Record tm := Tm {
  tm_sec : Z; tm_min : Z; tm_hour : Z; tm_mday : Z; tm_mon : Z; tm_year : Z
}.

(** The Gregorian calendar: days from the first of January 1970. *)
Definition is_leap (y : Z) : bool := (y mod 4 =? 0) && negb (y mod 100 =? 0) || (y mod 400 =? 0).
Definition year_days (y : Z) : Z := if is_leap y then 366 else 365.
Definition month_days (y m : Z) : Z :=
  if m =? 1 then (if is_leap y then 29 else 28)
  else if (m =? 3) || (m =? 5) || (m =? 8) || (m =? 10) then 30 else 31.
Definition leaps (y : Z) : Z := y / 4 - y / 100 + y / 400.
Definition days_before (y : Z) : Z := 365 * (y - 1970) + leaps (y - 1) - leaps 1969.
Definition days_before_month (y : Z) (m : nat) : Z :=
  foldr (λ k n, month_days y (Z.of_nat k) + n) 0 (seq 0 m).

(** What [gmtime] is documented to invert: the seconds a broken-down time is
    after the epoch; and which broken-down times there are. *)
Definition seconds_of (t : tm) : Z :=
  (((days_before (tm_year t + 1900) + days_before_month (tm_year t + 1900) (Z.to_nat (tm_mon t)) +
     tm_mday t - 1) * 24 + tm_hour t) * 60 + tm_min t) * 60 + tm_sec t.
Definition valid (t : tm) : Prop :=
  0 <= tm_sec t < 60 ∧ 0 <= tm_min t < 60 ∧ 0 <= tm_hour t < 24 ∧ 0 <= tm_mon t < 12 ∧
  1 <= tm_mday t <= month_days (tm_year t + 1900) (tm_mon t).

(** [gmtime], by whole eras of 400 years, years and months. *)
Fixpoint find_year (fuel : nat) (y d : Z) : Z * Z :=
  match fuel with
  | O => (y, d)
  | S fuel => if d <? year_days y then (y, d) else find_year fuel (y + 1) (d - year_days y)
  end.
Fixpoint find_month (fuel : nat) (y m d : Z) : Z * Z :=
  match fuel with
  | O => (m, d)
  | S fuel => if d <? month_days y m then (m, d) else find_month fuel y (m + 1) (d - month_days y m)
  end.
Definition gmtime (t : Z) : tm :=
  let days := t / 86400 in
  let secs := t mod 86400 in
  let '(y, d) := find_year 400 (1970 + 400 * (days / 146097)) (days mod 146097) in
  let '(m, d) := find_month 12 y 0 d in
  Tm (secs mod 60) (secs / 60 mod 60) (secs / 3600) (d + 1) m (y - 1900).

(** [gettm]: the 64-bit sum, [milliseconds] (signed) and [to_time_t], which
    truncates. *)
Definition to_u64 (z : Z) : Z := z mod 2 ^ 64.
Definition to_s64 (z : Z) : Z := (z + 2 ^ 63) mod 2 ^ 64 - 2 ^ 63.
Definition gettm (timestamp : Z) : tm :=
  let milli := to_u64 (timestamp + 8 * 60 * 60 * 1000) in
  let tt := Z.quot (to_s64 milli) 1000 in
  gmtime tt.

(** [%0wd] and [%06ld]: digits, padded with zeros after the sign. *)
Definition digit (d : Z) : ascii := ascii_of_N (Z.to_N (48 + d)).
Fixpoint digits (fuel : nat) (n : Z) (acc : text) : text :=
  match fuel with
  | O => acc
  | S fuel =>
      let acc := digit (n mod 10) :: acc in
      if n <? 10 then acc else digits fuel (n / 10) acc
  end.
Definition dec (n : Z) : text := digits (S (Z.to_nat (Z.log2 n))) n [].
Definition pad (w : nat) (n : Z) : text :=
  if n <? 0 then "-"%char :: replicate (w - 1 - length (dec (- n))) "0"%char ++ dec (- n)
  else replicate (w - length (dec n)) "0"%char ++ dec n.

(** What [sprintf] writes for [getTimeStr], and whether it fits with its NUL. *)
Definition stamp_text (info : tm) (frac : Z) : text :=
  ["["%char] ++ pad 4 (tm_year info + 1900) ++ ["-"%char] ++ pad 2 (tm_mon info + 1) ++ ["-"%char] ++
  pad 2 (tm_mday info) ++ [" "%char] ++ pad 2 (tm_hour info) ++ [":"%char] ++ pad 2 (tm_min info) ++
  [":"%char] ++ pad 2 (tm_sec info) ++ ["."%char] ++ pad 6 frac ++ ["]"%char].
Definition stamp (timep : Z) : text := stamp_text (gettm (to_u64 timep)) (Z.rem timep 1000000).
Definition sprintf (size : nat) (s : text) : outcome text :=
  require (S (length s) <=? size)%nat ;; Ok s.
Definition getTimeStr (timep : Z) : outcome text := sprintf 27 (stamp timep).

(** * The calendar *)
Lemma div_pred y k : 0 < k → y / k = (y - 1) / k + (if y mod k =? 0 then 1 else 0).
Proof.
  intros Hk. pose proof (Z.div_mod y k ltac:(lia)) as E. pose proof (Z.mod_pos_bound y k Hk).
  destruct (Z.eqb_spec (y mod k) 0) as [H0 | H0].
  - rewrite <- (Z.div_unique (y - 1) k (y / k - 1) (k - 1)); lia.
  - rewrite <- (Z.div_unique (y - 1) k (y / k) (y mod k - 1)); lia.
Qed.

Lemma mod_factor y a k : 0 < a → 0 < k → y mod (a * k) = 0 → y mod k = 0.
Proof.
  intros Ha Hk H. apply Z.mod_divide in H as [q ->]; [| nia]. rewrite Z.mul_assoc. by apply Z_mod_mult.
Qed.

Lemma days_before_succ y : days_before (y + 1) = days_before y + year_days y.
Proof.
  unfold days_before, year_days, is_leap, leaps. replace (y + 1 - 1) with y by lia.
  rewrite (div_pred y 4), (div_pred y 100), (div_pred y 400) by lia.
  pose proof (mod_factor y 25 4 ltac:(done) ltac:(done)). pose proof (mod_factor y 4 100 ltac:(done) ltac:(done)).
  change (25 * 4) with 100 in *. change (4 * 100) with 400 in *.
  destruct (Z.eqb_spec (y mod 4) 0), (Z.eqb_spec (y mod 100) 0), (Z.eqb_spec (y mod 400) 0);
    cbn [andb orb negb]; lia.
Qed.
Lemma days_before_era y k : days_before (y + 400 * k) = days_before y + 146097 * k.
Proof.
  unfold days_before, leaps.
  replace ((y + 400 * k - 1) / 4) with ((y - 1) / 4 + 100 * k) by (rewrite <- Z.div_add by done; f_equal; lia).
  replace ((y + 400 * k - 1) / 100) with ((y - 1) / 100 + 4 * k) by (rewrite <- Z.div_add by done; f_equal; lia).
  replace ((y + 400 * k - 1) / 400) with ((y - 1) / 400 + k) by (rewrite <- Z.div_add by done; f_equal; lia).
  lia.
Qed.
Lemma year_days_pos y : 365 <= year_days y <= 366.
Proof. unfold year_days. case_match; lia. Qed.

Lemma find_year_spec fuel y d :
  0 <= d < days_before (y + Z.of_nat fuel) - days_before y →
  let '(y', d') := find_year fuel y d in
  0 <= d' < year_days y' ∧ days_before y' + d' = days_before y + d.
Proof.
  revert y d. induction fuel as [| fuel IH]; intros y d Hd; [rewrite Z.add_0_r in Hd; lia |].
  cbn [find_year]. pose proof (days_before_succ y). destruct (Z.ltb_spec d (year_days y)); [lia |].
  specialize (IH (y + 1) (d - year_days y)).
  replace (y + 1 + Z.of_nat fuel) with (y + Z.of_nat (S fuel)) in IH by lia.
  specialize (IH ltac:(lia)). destruct (find_year _ _ _) as [y' d']. lia.
Qed.

Lemma days_before_month_succ y m :
  days_before_month y (S m) = days_before_month y m + month_days y (Z.of_nat m).
Proof.
  unfold days_before_month. rewrite seq_S, foldr_app. cbn [Nat.add foldr].
  generalize (month_days y (Z.of_nat m)). intros z. rewrite Z.add_0_r.
  induction (seq 0 m) as [| k l IH]; cbn; lia.
Qed.
Lemma days_before_month_year y : days_before_month y 12 = year_days y.
Proof. unfold days_before_month, year_days, month_days. cbn. destruct (is_leap y); reflexivity. Qed.

Lemma find_month_spec fuel y m d :
  0 <= d < days_before_month y (m + fuel) - days_before_month y m →
  let '(m', d') := find_month fuel y (Z.of_nat m) d in
  0 <= d' < month_days y m' ∧ Z.of_nat m <= m' < Z.of_nat (m + fuel) ∧
  days_before_month y (Z.to_nat m') + d' = days_before_month y m + d.
Proof.
  revert m d. induction fuel as [| fuel IH]; intros m d Hd; [rewrite Nat.add_0_r in Hd; lia |].
  cbn [find_month]. pose proof (days_before_month_succ y m).
  destruct (Z.ltb_spec d (month_days y (Z.of_nat m))); [rewrite Nat2Z.id; lia |].
  specialize (IH (S m) (d - month_days y (Z.of_nat m))).
  replace (S m + fuel)%nat with (m + S fuel)%nat in IH by lia. specialize (IH ltac:(lia)).
  replace (Z.of_nat (S m)) with (Z.of_nat m + 1) in IH by lia.
  destruct (find_month _ _ _ _) as [m' d']. lia.
Qed.

Lemma gmtime_spec t : valid (gmtime t) ∧ seconds_of (gmtime t) = t.
Proof.
  unfold gmtime. set (days := t / 86400). set (e := days / 146097).
  pose proof (find_year_spec 400 (1970 + 400 * e) (days mod 146097)) as Hy.
  replace (1970 + 400 * e + Z.of_nat 400) with (1970 + 400 * (e + 1)) in Hy by lia.
  rewrite !days_before_era in Hy. change (days_before 1970) with 0 in Hy.
  pose proof (Z.mod_pos_bound days 146097 ltac:(done)). pose proof (Z.div_mod days 146097 ltac:(done)) as Hdm.
  specialize (Hy ltac:(lia)).
  destruct (find_year _ _ _) as [y d]. destruct Hy as [Hd Hyd].
  pose proof (find_month_spec 12 y 0 d) as Hm. cbn [Nat.add] in Hm. rewrite days_before_month_year in Hm.
  change (days_before_month y 0) with 0 in Hm. specialize (Hm ltac:(lia)). cbn [Z.of_nat] in Hm.
  destruct (find_month _ _ _ _) as [m d']. destruct Hm as (Hd' & Hmr & Hmd).
  unfold valid, seconds_of. cbn [tm_sec tm_min tm_hour tm_mday tm_mon tm_year].
  replace (y - 1900 + 1900) with y by lia.
  split; [split_and!; Z.to_euclidean_division_equations; lia |].
  assert (E : days_before y + days_before_month y (Z.to_nat m) + (d' + 1) - 1 = days) by (fold e in Hdm; lia).
  rewrite E. unfold days. clear. Z.to_euclidean_division_equations. lia.
Qed.

(** A time after the epoch is in 1970 or later. *)
Lemma find_year_ge fuel y d : y <= (find_year fuel y d).1.
Proof.
  revert y d. induction fuel as [| fuel IH]; intros y d; cbn [find_year fst]; [lia |].
  case_match; [cbn; lia |]. specialize (IH (y + 1) (d - year_days y)). lia.
Qed.
Lemma year_nonneg t : 0 <= t → 0 <= tm_year (gmtime t) + 1900.
Proof.
  intros Ht. unfold gmtime. pose proof (find_year_ge 400 (1970 + 400 * (t / 86400 / 146097)) (t / 86400 mod 146097)) as H.
  destruct (find_year _ _ _) as [y d], (find_month _ _ _ _) as [m d']. cbn [tm_year fst] in *.
  assert (0 <= t / 86400 / 146097) by (do 2 (apply Z.div_pos; [| done]); lia). lia.
Qed.

Lemma gettm_small timep : 0 <= timep < 2 ^ 62 → gettm timep = gmtime ((timep + 28800000) / 1000).
Proof.
  intros Ht. unfold gettm, to_s64, to_u64. change (8 * 60 * 60 * 1000) with 28800000.
  rewrite (Z.mod_small (timep + 28800000)) by lia. rewrite Z.mod_small by lia.
  rewrite Z.quot_div_nonneg by lia.
  by replace (timep + 28800000 + 2 ^ 63 - 2 ^ 63) with (timep + 28800000) by lia.
Qed.

(** * The text *)

(** Reading a stamp back: fixed-width decimal numbers, one character between. *)
Definition digit_value (c : ascii) : option Z :=
  let v := Z.of_N (N_of_ascii c) - 48 in
  if (0 <=? v) && (v <? 10) then Some v else None.
Fixpoint value_from (a : Z) (s : text) : option Z :=
  match s with
  | [] => Some a
  | c :: s => d ← digit_value c; value_from (10 * a + d) s
  end.
Definition num (w : nat) (s : text) : option (Z * text) :=
  n ← value_from 0 (take w s); Some (n, drop w s).
Definition read_stamp (s : text) : option (tm * Z) :=
  '(y, s) ← num 4 (tail s); '(mo, s) ← num 2 (tail s); '(d, s) ← num 2 (tail s);
  '(h, s) ← num 2 (tail s); '(mi, s) ← num 2 (tail s); '(se, s) ← num 2 (tail s);
  '(f, s) ← num 6 (tail s);
  Some (Tm se mi h d (mo - 1) (y - 1900), f).

Lemma digit_value_digit d : 0 <= d < 10 → digit_value (digit d) = Some d.
Proof.
  intros Hd. unfold digit_value, digit. rewrite N_ascii_embedding by lia.
  replace (Z.of_N (Z.to_N (48 + d)) - 48) with d by lia.
  destruct (Z.leb_spec 0 d), (Z.ltb_spec d 10); [done | lia | lia | lia].
Qed.

Lemma digits_value fuel n acc :
  0 <= n < 10 ^ Z.of_nat fuel → (0 < fuel)%nat → value_from 0 (digits fuel n acc) = value_from n acc.
Proof.
  revert n acc. induction fuel as [| fuel IH]; intros n acc Hn Hf; [lia |]. cbn [digits].
  pose proof (Z.mod_pos_bound n 10 ltac:(done)). pose proof (Z.div_mod n 10 ltac:(done)).
  destruct (Z.ltb_spec n 10).
  - cbn [value_from]. rewrite digit_value_digit by done. cbn [mbind option_bind]. f_equal.
    rewrite Z.mod_small; lia.
  - rewrite Nat2Z.inj_succ, Z.pow_succ_r in Hn by lia.
    destruct fuel as [| fuel]; [cbn in Hn; lia |]. rewrite IH; [| | lia].
    + cbn [value_from]. rewrite digit_value_digit by done. cbn [mbind option_bind]. f_equal. lia.
    + split; [apply Z.div_pos; lia | apply Z.div_lt_upper_bound; lia].
Qed.

Lemma digits_length fuel n acc w :
  0 <= n < 10 ^ Z.of_nat w → (0 < w)%nat →
  (length (digits fuel n acc) <= w + length acc)%nat.
Proof.
  revert n acc w. induction fuel as [| fuel IH]; intros n acc w Hn Hw; cbn [digits]; [lia |].
  destruct (Z.ltb_spec n 10); [cbn [length]; lia |].
  destruct w as [| [| w]]; [lia | cbn in Hn; lia |].
  specialize (IH (n / 10) (digit (n mod 10) :: acc) (S w)). cbn [length] in IH.
  rewrite (Nat2Z.inj_succ (S w)), Z.pow_succ_r in Hn by lia.
  assert (0 <= n / 10 < 10 ^ Z.of_nat (S w)) by (split; [apply Z.div_pos; lia | apply Z.div_lt_upper_bound; lia]).
  specialize (IH ltac:(done) ltac:(lia)). lia.
Qed.

Lemma pad_length_ge w n : (w <= length (pad w n))%nat.
Proof. unfold pad. case_match; cbn [length]; rewrite length_app, length_replicate; lia. Qed.

Lemma num_pad w n s : 0 <= n < 10 ^ Z.of_nat w → (0 < w)%nat → num w (pad w n ++ s) = Some (n, s).
Proof.
  intros Hn Hw. unfold pad. destruct (Z.ltb_spec n 0); [lia |].
  pose proof (digits_length (S (Z.to_nat (Z.log2 n))) n [] w Hn Hw) as Hl. fold (dec n) in Hl. cbn [length] in Hl.
  set (p := replicate _ _ ++ dec n).
  assert (Hp : length p = w) by (unfold p; rewrite length_app, length_replicate; lia).
  assert (Hv : value_from 0 p = Some n).
  { unfold p. generalize (w - length (dec n))%nat. intros k. induction k as [| k IH]; [| exact IH].
    cbn [replicate app]. unfold dec. rewrite digits_value; [done | | lia].
    destruct (Z.eq_dec n 0) as [-> | H0]; [cbn; lia |].
    pose proof (Z.log2_spec n ltac:(lia)). pose proof (Z.log2_nonneg n).
    rewrite Nat2Z.inj_succ, Z2Nat.id by lia. split; [lia |].
    eapply Z.lt_le_trans; [apply H1 |]. apply Z.pow_le_mono_l. lia. }
  unfold num. rewrite take_app_le, drop_app_le by lia. rewrite <- Hp, firstn_all, drop_all, Hv. done.
Qed.

(** The text of a time stamp never fits: for every clock value [getTimeStr]
    writes past the end of its 27 characters. *)
Theorem stamp_overflows (timep : Z) : getTimeStr timep = UB.
Proof.
  assert (H : (28 <= length (stamp timep))%nat).
  { unfold stamp, stamp_text. set (info := gettm _). rewrite !length_app. cbn [length].
    pose proof (pad_length_ge 4 (tm_year info + 1900)). pose proof (pad_length_ge 2 (tm_mon info + 1)).
    pose proof (pad_length_ge 2 (tm_mday info)). pose proof (pad_length_ge 2 (tm_hour info)).
    pose proof (pad_length_ge 2 (tm_min info)). pose proof (pad_length_ge 2 (tm_sec info)).
    pose proof (pad_length_ge 6 (Z.rem timep 1000000)). lia. }
  unfold getTimeStr, sprintf. destruct (Nat.leb_spec (S (length (stamp timep))) 27); [lia | done].
Qed.

Lemma month_days_le y m : 28 <= month_days y m <= 31.
Proof. unfold month_days. repeat case_match; lia. Qed.

Lemma read_stamp_text t frac :
  valid t → 0 <= tm_year t + 1900 <= 9999 → 0 <= frac < 1000000 →
  read_stamp (stamp_text t frac) = Some (t, frac).
Proof.
  destruct t as [se mi h d mo y]. unfold valid, stamp_text. cbn [tm_sec tm_min tm_hour tm_mday tm_mon tm_year].
  intros (? & ? & ? & ? & ?) Hy Hf. pose proof (month_days_le (y + 1900) mo).
  unfold read_stamp. cbn [app tail].
  rewrite num_pad by (cbn; lia). cbn [mbind option_bind app tail].
  do 5 (rewrite num_pad by (cbn; lia); cbn [mbind option_bind app tail]).
  rewrite num_pad by (cbn; lia). cbn [mbind option_bind].
  by replace (mo + 1 - 1) with mo by lia; replace (y + 1900 - 1900) with y by lia.
Qed.

(** C35. The text itself is right: for a clock value after 1970 whose year has four
    digits it reads back as a valid date and time of day, that of the clock
    value eight hours later in the Gregorian calendar, and the last six
    digits of the clock value in milliseconds. *)
Theorem stamp_reads_back (timep : Z) :
  0 <= timep < 2 ^ 62 → tm_year (gettm timep) + 1900 <= 9999 →
  ∃ t, read_stamp (stamp timep) = Some (t, timep mod 1000000) ∧
    valid t ∧ seconds_of t = (timep + 28800000) / 1000.
Proof.
  intros Ht Hy. exists (gettm timep). unfold stamp.
  replace (to_u64 timep) with timep by (symmetry; apply Z.mod_small; lia).
  pose proof (gettm_small timep Ht) as Hg.
  destruct (gmtime_spec ((timep + 28800000) / 1000)) as [Hv Hs].
  pose proof (year_nonneg ((timep + 28800000) / 1000) ltac:(apply Z.div_pos; lia)) as Hy0.
  rewrite <- Hg in Hv, Hs, Hy0. split; [| by split].
  rewrite Z.rem_mod_nonneg by lia. apply read_stamp_text; [exact Hv | lia |].
  by apply Z.mod_pos_bound.
Qed.

Lemma stamp_reads_back_witness :
  ∃ t, read_stamp (stamp 1600000000123) = Some (t, 1600000000123 mod 1000000) ∧
    valid t ∧ seconds_of t = (1600000000123 + 28800000) / 1000.
Proof. apply (stamp_reads_back 1600000000123); [lia | by vm_compute]. Defined.
Example a_stamp :
  stamp 1600000000123 = Stdlib.Strings.String.list_ascii_of_string "[2020-09-13 20:26:40.000123]".
Proof. vm_compute. reflexivity. Qed.
End Stamp.

(** * [time_stamp.cpp] *)
Module Clock.
Import Getline (text, newline).
Import Stamp.

(** The text of a constant. *)
Definition chars : String.string → text := Stdlib.Strings.String.list_ascii_of_string.
Definition days : list String.string := ["Sun"; "Mon"; "Tue"; "Wed"; "Thu"; "Fri"; "Sat"]%string.
Definition months : list String.string :=
  ["Jan"; "Feb"; "Mar"; "Apr"; "May"; "Jun"; "Jul"; "Aug"; "Sep"; "Oct"; "Nov"; "Dec"]%string.

(** [tm_wday]: the first of January 1970 was a Thursday. *)
Definition tm_wday (sec : Z) : Z := (sec / 86400 + 4) mod 7.

(** [asctime(gmtime(&sec))]; the day of the month is padded with a blank. *)
Definition asctime (sec : Z) : text :=
  let info := gmtime sec in
  let name l k := chars (nth (Z.to_nat k) l "???"%string) in
  name days (tm_wday sec) ++ [" "%char] ++ name months (tm_mon info) ++ [" "%char] ++
  (if tm_mday info <? 10 then " "%char :: dec (tm_mday info) else dec (tm_mday info)) ++ [" "%char] ++
  pad 2 (tm_hour info) ++ [":"%char] ++ pad 2 (tm_min info) ++ [":"%char] ++ pad 2 (tm_sec info) ++
  [" "%char] ++ dec (tm_year info + 1900) ++ [newline].

(** [strftime(buff, sizeof buff, "%D %T", ...)]: nothing, when the text and its
    NUL do not fit. *)
Definition strftime_DT (size : nat) (info : tm) : option text :=
  let s := pad 2 (tm_mon info + 1) ++ ["/"%char] ++ pad 2 (tm_mday info) ++ ["/"%char] ++
    pad 2 ((tm_year info + 1900) mod 100) ++ [" "%char] ++ pad 2 (tm_hour info) ++ [":"%char] ++
    pad 2 (tm_min info) ++ [":"%char] ++ pad 2 (tm_sec info) in
  if (length s <? size)%nat then Some s else None.

(** The last line [main] prints. *)
Definition timespec_line (tv_sec tv_nsec : Z) : option text :=
  buff ← strftime_DT 100 (gmtime tv_sec);
  Some (buff ++ ["."%char] ++ pad 9 tv_nsec ++ chars " UTC" ++ [newline]).

(** Reading the line back; the century is not in it. *)
Definition read_line (s : text) : option (tm * Z) :=
  '(mo, s) ← num 2 s; '(d, s) ← num 2 (tail s); '(y, s) ← num 2 (tail s);
  '(h, s) ← num 2 (tail s); '(mi, s) ← num 2 (tail s); '(se, s) ← num 2 (tail s);
  '(f, s) ← num 9 (tail s);
  Some (Tm se mi h d (mo - 1) y, f).

Lemma pad_two n : 0 <= n < 100 → length (pad 2 n) = 2%nat.
Proof.
  intros Hn. pose proof (digits_length (S (Z.to_nat (Z.log2 n))) n [] 2 ltac:(cbn; lia) ltac:(lia)) as Hd.
  fold (dec n) in Hd. cbn [length] in Hd. unfold pad. destruct (Z.ltb_spec n 0); [lia |].
  rewrite length_app, length_replicate. lia.
Qed.

(** The date and time always fit in the buffer. *)
Lemma timespec_line_buffer (tv_sec : Z) : ∃ buff, strftime_DT 100 (gmtime tv_sec) = Some buff.
Proof.
  destruct (gmtime_spec tv_sec) as [(? & ? & ? & ? & Hd) _]. unfold strftime_DT.
  pose proof (month_days_le (tm_year (gmtime tv_sec) + 1900) (tm_mon (gmtime tv_sec))).
  pose proof (Z.mod_pos_bound (tm_year (gmtime tv_sec) + 1900) 100 ltac:(done)).
  rewrite !length_app, !pad_two by lia. simpl. eauto.
Qed.

(** The line has the fields of the UTC time, to the nanosecond, and the year
    within its century: the buffer is large enough at every time. *)
Theorem timespec_line_reads_back (tv_sec tv_nsec : Z) :
  0 <= tv_nsec < 10 ^ 9 →
  ∃ line t, timespec_line tv_sec tv_nsec = Some line ∧ read_line line = Some (t, tv_nsec) ∧
    ∃ century, let u := Tm (tm_sec t) (tm_min t) (tm_hour t) (tm_mday t) (tm_mon t) (100 * century + tm_year t - 1900) in
      valid u ∧ seconds_of u = tv_sec.
Proof.
  intros Hn. destruct (gmtime_spec tv_sec) as [Hv Hs]. unfold timespec_line, strftime_DT.
  destruct (gmtime tv_sec) as [se mi h d mo y]. pose proof Hv as (? & ? & ? & ? & Hd).
  cbn [tm_sec tm_min tm_hour tm_mday tm_mon tm_year] in *. pose proof (month_days_le (y + 1900) mo).
  pose proof (Z.mod_pos_bound (y + 1900) 100 ltac:(done)) as Hy.
  rewrite !length_app, !pad_two by lia. cbn [length Nat.add Nat.ltb Nat.leb mbind option_bind].
  eexists _, (Tm se mi h d mo ((y + 1900) mod 100)). split; [reflexivity |]. split.
  - unfold read_line. rewrite <- !(assoc_L (++)).
    rewrite num_pad by (cbn; lia). cbn [mbind option_bind app tail].
    do 5 (rewrite num_pad by (cbn; lia); cbn [mbind option_bind app tail]).
    rewrite num_pad by (cbn; lia). cbn [mbind option_bind]. by replace (mo + 1 - 1) with mo by lia.
  - exists ((y + 1900) / 100). cbn [tm_sec tm_min tm_hour tm_mday tm_mon tm_year].
    pose proof (Z.div_mod (y + 1900) 100 ltac:(done)).
    by replace (100 * ((y + 1900) / 100) + (y + 1900) mod 100 - 1900) with y by lia.
Qed.

(** The line a comment of the program gives as an example. *)
Example timespec_example :
  timespec_line 1577437409 497456000 = Some (chars "12/27/19 09:03:29.497456000 UTC" ++ [newline]).
Proof. vm_compute. reflexivity. Qed.

(** [asctime] starts with the day of the week, not with the year. *)
Example asctime_example : asctime 1577437409 = chars "Fri Dec 27 09:03:29 2019" ++ [newline].
Proof. vm_compute. reflexivity. Qed.

(** * [current_time] of [concurrent/1p1c.cpp] and [1p1c_cv.cpp], and [current] of
    [concurrent/1p1c_mutex.cpp] *)

(** [ssr << buff << '.' << ts.tv_nsec]: the nanoseconds are not padded. *)
Definition current_time (tv_sec tv_nsec : Z) : option text :=
  buff ← strftime_DT 100 (gmtime tv_sec); Some (buff ++ ["."%char] ++ dec tv_nsec).

(** [ctime] gives [asctime] of the local time; its line end is replaced. *)
Definition current (local_sec ms : Z) : text :=
  let date := asctime local_sec in
  take (length date - 1) date ++ ["."%char] ++ dec ms.

(** The digits after the point, as the fraction they are read as: a numerator and
    how many digits there are. *)
Definition fraction (s : text) : option (Z * nat) := n ← value_from 0 s; Some (n, length s).

Lemma digit_value_lt c d : digit_value c = Some d → 0 <= d < 10.
Proof. unfold digit_value. intros H. destruct (Z.leb_spec 0 (Z.of_N (N_of_ascii c) - 48)), (Z.ltb_spec (Z.of_N (N_of_ascii c) - 48) 10); simplify_eq/=; lia. Qed.

Lemma value_from_lt a s v : 0 <= a → value_from a s = Some v → v < (a + 1) * 10 ^ Z.of_nat (length s).
Proof.
  revert a. induction s as [| c s IH]; intros a Ha Hv; cbn [value_from] in Hv.
  - simplify_eq. simpl. lia.
  - apply bind_Some in Hv as (d & Hd%digit_value_lt & Hv). apply IH in Hv; [| lia].
    cbn [length]. rewrite Nat2Z.inj_succ, Z.pow_succ_r by lia. nia.
Qed.

Lemma value_dec n : 0 <= n → value_from 0 (dec n) = Some n.
Proof.
  intros Hn. unfold dec. rewrite digits_value; [done | | lia].
  destruct (Z.eq_dec n 0) as [-> | H0]; [cbn; lia |].
  pose proof (Z.log2_spec n ltac:(lia)) as [_ H1]. pose proof (Z.log2_nonneg n).
  rewrite Nat2Z.inj_succ, Z2Nat.id by lia. split; [lia |].
  eapply Z.lt_le_trans; [exact H1 |]. apply Z.pow_le_mono_l. lia.
Qed.

(** How many digits a number has. *)
Lemma dec_length_le n w : 0 <= n < 10 ^ Z.of_nat w → (0 < w)%nat → (length (dec n) <= w)%nat.
Proof. intros Hn Hw. pose proof (digits_length (S (Z.to_nat (Z.log2 n))) n [] w Hn Hw) as H. cbn [length] in H. fold (dec n) in H. lia. Qed.
Lemma dec_length_ge n w : 10 ^ Z.of_nat w <= n → (w < length (dec n))%nat.
Proof.
  intros Hn. assert (0 < 10 ^ Z.of_nat w) by (apply Z.pow_pos_nonneg; lia).
  pose proof (value_from_lt 0 (dec n) n ltac:(lia) (value_dec n ltac:(lia))) as Hlt.
  apply Nat.nle_gt. intros Hle. assert (10 ^ Z.of_nat (length (dec n)) <= 10 ^ Z.of_nat w) by (apply Z.pow_le_mono_r; lia). lia.
Qed.

(** The fraction that is shown is the right one for the nanoseconds of a clock only
    if there are none, or at least a tenth of a second of them. *)
Theorem current_time_fraction (tv_sec tv_nsec : Z) :
  0 <= tv_nsec < 10 ^ 9 →
  ∃ buff digits num w, strftime_DT 100 (gmtime tv_sec) = Some buff ∧
    current_time tv_sec tv_nsec = Some (buff ++ ["."%char] ++ digits) ∧
    fraction digits = Some (num, w) ∧
    (num * 10 ^ 9 = tv_nsec * 10 ^ Z.of_nat w ↔ tv_nsec = 0 ∨ 10 ^ 8 <= tv_nsec).
Proof.
  intros Hn. destruct (timespec_line_buffer tv_sec) as (buff & Hb).
  exists buff, (dec tv_nsec), tv_nsec, (length (dec tv_nsec)). split_and!; [exact Hb | ..].
  - unfold current_time. by rewrite Hb.
  - unfold fraction. by rewrite value_dec by lia.
  - destruct (Z.eq_dec tv_nsec 0) as [-> | H0]; [split; [by left | lia] |].
    assert (10 ^ Z.of_nat (length (dec tv_nsec)) = 10 ^ 9 ↔ 10 ^ 8 <= tv_nsec) as Hiff.
    { split.
      - intros E. apply Z.nlt_ge. intros Hlt.
        pose proof (dec_length_le tv_nsec 8 ltac:(split; [lia | exact Hlt]) ltac:(lia)).
        apply Z.pow_inj_r in E; lia.
      - intros Hge. pose proof (dec_length_ge tv_nsec 8 Hge). pose proof (dec_length_le tv_nsec 9 ltac:(exact Hn) ltac:(lia)).
        by replace (length (dec tv_nsec)) with 9%nat by lia. }
    rewrite <- Hiff. split; [intros E; right; nia | intros [? | ->]; lia].
Qed.
End Clock.
