(* ===== verification/Allocator.v ===== *)
(** [lang/my_allocater.cpp]: the allocator [dcl::allocator], which hands out one
    block for ever, under a [std::vector] that reserves, grows and is
    destroyed. The standard library leaves open how much a full vector grows:
    [grow] is a parameter. *)

From S2P Require Import Prelude.

Module Dcl.
Section vector.
Context {T : Type} (grow : nat → nat).

(** The heap: blocks with their cells and whether they are still allocated. *)
Record block := Block { cells : list (option T); alive : bool }.
Definition heap := list block.

(** [class allocator]: its first block; [hole] is the null pointer. *)
Record allocator := Alloc { start : option nat }.
Definition hole : option nat := None.

(** [_allocate], and [allocate], which calls it only the first time. *)
Definition _allocate (n : nat) (h : heap) : heap * nat := (h ++ [Block (replicate n None) true], length h).
Definition allocate (n : nat) (a : allocator) (h : heap) : allocator * heap * nat :=
  match start a with
  | Some p => (a, h, p)
  | None => let '(h, p) := _allocate n h in (Alloc (Some p), h, p)
  end.

(** [operator delete] of a block that is not allocated is undefined; the
    allocator does not forget the block. *)
Definition deallocate (p : nat) (h : heap) : outcome heap :=
  b ← from_option_ub (h !! p); require (alive b) ;; Ok (<[p := Block (cells b) false]> h).

(** Placement new in the [i]-th cell. *)
Definition construct (p i : nat) (value : T) (h : heap) : outcome heap :=
  b ← from_option_ub (h !! p); require (alive b && (i <? length (cells b))) ;;
  Ok (<[p := Block (<[i := Some value]> (cells b)) true]> h).
Definition deref (p i : nat) (h : heap) : outcome T :=
  b ← from_option_ub (h !! p); require (alive b) ;;
  c ← from_option_ub (cells b !! i); from_option_ub c.

(** * [std::vector] over it *)
Record vector := Vector { al : allocator; data : option nat; size : nat; capacity : nat }.
Definition empty_vector : vector := Vector (Alloc hole) None 0 0.

(** The elements are moved to the new block, and the old block is given back. *)
Fixpoint relocate (old new i n : nat) (h : heap) : outcome heap :=
  match n with
  | O => Ok h
  | S n => x ← deref old i h; h ← construct new i x h; relocate old new (S i) n h
  end.
Definition move_to (p : nat) (v : vector) (h : heap) : outcome heap :=
  match data v with
  | None => Ok h
  | Some old => h ← relocate old p 0 (size v) h; deallocate old h
  end.

Definition reserve (n : nat) (v : vector) (h : heap) : outcome (vector * heap) :=
  if capacity v <? n then
    let '(a, h, p) := allocate n (al v) h in
    h ← move_to p v h; Ok (Vector a (Some p) (size v) n, h)
  else Ok (v, h).

Definition push_back (x : T) (v : vector) (h : heap) : outcome (vector * heap) :=
  if size v <? capacity v then
    p ← from_option_ub (data v); h ← construct p (size v) x h;
    Ok (Vector (al v) (data v) (S (size v)) (capacity v), h)
  else
    let n := grow (capacity v) in
    let '(a, h, p) := allocate n (al v) h in
    h ← construct p (size v) x h; h ← move_to p v h;
    Ok (Vector a (Some p) (S (size v)) n, h).

Fixpoint push_all (xs : list T) (v : vector) (h : heap) : outcome (vector * heap) :=
  match xs with
  | [] => Ok (v, h)
  | x :: xs => '(v, h) ← push_back x v h; push_all xs v h
  end.

(** [copy(v.begin(), v.end(), ...)] and the destructor. *)
Fixpoint contents_from (p i n : nat) (h : heap) : outcome (list T) :=
  match n with
  | O => Ok []
  | S n => x ← deref p i h; xs ← contents_from p (S i) n h; Ok (x :: xs)
  end.
Definition contents (v : vector) (h : heap) : outcome (list T) :=
  match data v with None => Ok [] | Some p => contents_from p 0 (size v) h end.
Definition destroy (v : vector) (h : heap) : outcome heap :=
  match data v with None => Ok h | Some p => deallocate p h end.

(** [main]: reserve, push, print, destroy; what is printed and the heap left. *)
Definition main (n : nat) (arr : list T) : outcome (list T * heap) :=
  '(v, h) ← reserve n empty_vector [];
  '(v, h) ← push_all arr v h;
  out ← contents v h; h ← destroy v h; Ok (out, h).

(** * Proofs *)

(** A vector with its one block: the elements, then uninitialised cells. *)
Definition filled (xs : list T) (n : nat) : list (option T) := (Some <$> xs) ++ replicate (n - length xs) None.
Definition one_block (xs : list T) (n : nat) : vector * heap :=
  (Vector (Alloc (Some 0)) (Some 0) (length xs) n, [Block (filled xs n) true]).

Lemma cells_length xs n : length xs ≤ n → length (filled xs n) = n.
Proof. intros H. unfold filled. rewrite length_app, length_fmap, length_replicate. lia. Qed.

Lemma filled_snoc xs n x :
  length xs < n → <[length xs := Some x]> (filled xs n) = filled (xs ++ [x]) n.
Proof.
  intros H. unfold filled. rewrite fmap_app, length_app, <- app_assoc.
  rewrite <- (Nat.add_0_r (length xs)) at 1. rewrite <- (length_fmap Some xs) at 1.
  rewrite insert_app_r. f_equal. cbn [length].
  replace (n - length xs) with (S (n - (length xs + 1))) by lia. done.
Qed.

(** A push into the room that is left, and a push beyond it. *)
Lemma push_fits xs n x :
  length xs < n → push_back x (one_block xs n).1 (one_block xs n).2 = Ok (one_block (xs ++ [x]) n).
Proof.
  intros H. unfold push_back, construct. cbn [one_block fst snd size capacity data].
  rewrite (proj2 (Nat.ltb_lt _ _) H). cbn [from_option_ub mbind outcome_bind lookup list_lookup cells alive andb].
  rewrite cells_length, (proj2 (Nat.ltb_lt _ _) H) by lia. cbn [require mbind outcome_bind].
  unfold one_block. rewrite length_app, Nat.add_1_r. cbn [al data insert list_insert].
  by rewrite filled_snoc.
Qed.

Lemma push_overflows xs x :
  push_back x (one_block xs (length xs)).1 (one_block xs (length xs)).2 = UB.
Proof.
  unfold push_back, construct. cbn [one_block fst snd size capacity data].
  rewrite Nat.ltb_irrefl. cbn [allocate start al]. cbn [from_option_ub mbind outcome_bind lookup list_lookup cells alive andb].
  by rewrite cells_length, Nat.ltb_irrefl by lia.
Qed.

Lemma push_all_block ys xs n :
  length xs ≤ n →
  push_all ys (one_block xs n).1 (one_block xs n).2 =
    if length xs + length ys <=? n then Ok (one_block (xs ++ ys) n) else UB.
Proof.
  revert xs. induction ys as [| y ys IH]; intros xs H.
  - rewrite app_nil_r. destruct (Nat.leb_spec (length xs + length (@nil T)) n); [done | cbn in *; lia].
  - cbn [push_all length]. destruct (decide (length xs < n)) as [Hlt |].
    + rewrite push_fits by done. cbn [mbind outcome_bind].
      specialize (IH (xs ++ [y])). rewrite length_app, <- app_assoc in IH. cbn [length] in IH.
      unfold one_block at 1. unfold one_block in IH at 1 2. cbn [fst snd] in IH.
      rewrite IH by lia. by rewrite Nat.add_1_r, Nat.add_succ_r.
    + assert (n = length xs) as -> by lia. rewrite push_overflows. cbn [mbind outcome_bind].
      destruct (Nat.leb_spec (length xs + S (length ys)) (length xs)); [lia | done].
Qed.

Lemma contents_filled xs pre rest :
  contents_from 0 (length pre) (length xs) [Block ((Some <$> pre) ++ (Some <$> xs) ++ rest) true] = Ok xs.
Proof.
  revert pre. induction xs as [| x xs IH]; intros pre; [done |].
  cbn [length contents_from]. unfold deref at 1. cbn [from_option_ub mbind outcome_bind lookup list_lookup cells alive require].
  rewrite lookup_app_r by by rewrite length_fmap. rewrite length_fmap, Nat.sub_diag.
  cbn [fmap list_fmap app lookup list_lookup from_option_ub mbind outcome_bind].
  specialize (IH (pre ++ [x])). rewrite length_app, Nat.add_1_r, fmap_app, <- app_assoc in IH.
  cbn [fmap list_fmap app] in IH. by rewrite IH.
Qed.

Lemma contents_block xs n : contents_from 0 0 (length xs) [Block (filled xs n) true] = Ok xs.
Proof. exact (contents_filled xs [] (replicate (n - length xs) None)). Qed.

Lemma first_push x : 0 < grow 0 → push_back x empty_vector [] = Ok (one_block [x] (grow 0)).
Proof.
  intros H. unfold push_back, construct, allocate, _allocate, move_to, one_block, filled.
  cbn. destruct (grow 0); [lia |]. cbn. by rewrite Nat.sub_0_r.
Qed.

(** The capacity of the vector is that of the first allocation: the program
    prints its array and frees the one block exactly when the array fits what was
    reserved (or, without a reservation, the first growth), and is undefined from
    the first element on that does not fit. *)
Theorem vector_fits (n : nat) (arr : list T) :
  (∀ c, c < grow c) →
  let room := if n =? 0 then grow 0 else n in
  main n arr =
    if bool_decide (arr = [] ∧ n = 0) then Ok ([], [])
    else if length arr <=? room then Ok (arr, [Block (filled arr room) false])
    else UB.
Proof.
  intros Hg room. specialize (Hg 0).
  assert (Hrun : ∀ xs ys r, length xs ≤ r →
    ('(v, h) ← push_all ys (one_block xs r).1 (one_block xs r).2;
     out ← contents v h; h ← destroy v h; Ok (out, h)) =
    if length xs + length ys <=? r then Ok (xs ++ ys, [Block (filled (xs ++ ys) r) false]) else UB).
  { intros xs ys r Hr. rewrite push_all_block by done. destruct (_ <=? r) eqn:E; [| done].
    cbn [one_block mbind outcome_bind]. unfold contents. cbn [data size].
    by rewrite contents_block. }
  unfold main, reserve. cbn [empty_vector capacity]. destruct (Nat.eqb_spec n 0) as [-> | Hn].
  - cbn [Nat.ltb Nat.leb mbind outcome_bind]. destruct arr as [| x arr]; [by rewrite bool_decide_true |].
    rewrite bool_decide_false by naive_solver. subst room.
    specialize (Hrun [x] arr (grow 0) ltac:(cbn; lia)). cbn [app length Nat.add] in Hrun |- *. rewrite <- Hrun.
    cbn [push_all]. by rewrite first_push.
  - subst room. rewrite bool_decide_false by naive_solver.
    rewrite (proj2 (Nat.ltb_lt _ _)) by lia. cbn [allocate empty_vector al start hole _allocate length app].
    cbn [move_to data empty_vector mbind outcome_bind size].
    specialize (Hrun [] arr n ltac:(cbn; lia)). cbn [one_block fst snd length app Nat.add] in Hrun. rewrite <- Hrun.
    unfold filled. cbn [fmap list_fmap app length]. by rewrite Nat.sub_0_r.
Qed.
End vector.

(** [main] of the file: room for twelve, five numbers. *)
Example my_allocater_main :
  main (λ c, S (2 * c)) 12 [1; 2; 3; 4; 5]%Z =
    Ok ([1; 2; 3; 4; 5]%Z, [Block (filled [1; 2; 3; 4; 5]%Z 12) false]).
Proof. vm_compute. reflexivity. Qed.

Lemma vector_fits_witness : main (λ c, S (2 * c)) 2 [1; 2; 3] = UB.
Proof. apply (vector_fits (λ c, S (2 * c)) 2 [1; 2; 3]). intros; lia. Defined.

(** A second reservation gives back the block that the vector still uses. *)
Example reserve_twice :
  (let grow := λ c, S (2 * c) in
   '(v, h) ← reserve 1 empty_vector []; '(v, h) ← push_back grow 7 v h;
   '(v, h) ← reserve 5 v h; contents v h) = UB.
Proof. vm_compute. reflexivity. Qed.
End Dcl.
