(* ===== verification/LogCore.v ===== *)
(** The logging core that the programs under [src/code/boost_doc/log] and
    [src/code/lang/log.cpp] call.  Boost.Log is not part of the repository: it
    is a parameter, an instance of the class [LogCore], whose laws state what
    its documentation says of the core (which records are opened, what their
    attribute values are, which sinks a record reaches).  The clients are proved
    against the class; [Reference] is one instance, used by the witnesses. *)
From S2P Require Import Prelude.
From stdpp Require Import pretty.
Open Scope Z_scope.
Open Scope string_scope.

(** * Attribute values, records and sinks *)

(** A value of one of the types the programs attach to a record; [VOther] is a
    value of any other type with the text [operator<<] prints for it. *)
Inductive value :=
  | VString (s : string)
  | VUnsigned (n : Z)
  | VSize (n : Z)
  | VSeverity (l : Z)
  | VTrivial (l : Z)
  | VOther (s : string).
#[export] Instance value_eq_dec : EqDecision value.
Proof. solve_decision. Defined.

Notation attrs := (gmap string value).

(** [attribute_set::insert] and [attribute_value_set::insert]: a name that is
    there keeps its value. *)
Definition insert_attr (n : string) (v : value) (a : attrs) : attrs * bool :=
  match a !! n with
  | Some _ => (a, false)
  | None => (<[n := v]> a, true)
  end.

(** A record: its values, and for every sink whether it accepted the record
    when it was opened. *)
Record record := Rec { values : attrs; targets : list bool }.

(** A text sink: its filter and its formatter. *)
Record sink := Sink { consumes : attrs → bool; format : attrs → string }.

(** * What can be observed of the core *)
Record view := View {
  enabled : bool;
  global_filter : attrs → bool;
  sinks : list sink;
  files : list (list string);      (* the lines each sink has written *)
  thread : attrs;                  (* the attributes of the calling thread *)
  global : attrs;                  (* what the global attributes supply next *)
  counters : gset string;          (* the global attributes that are counters *)
  pushed : list attrs
}.

(** Source attributes hide those of the thread, which hide the global ones. *)
Definition collected (v : view) (a : attrs) : attrs := a ∪ thread v ∪ global v.

(** A record is opened when logging is on, the global filter passes and some
    sink takes it; without sinks the default sink takes everything. *)
Definition admitted (v : view) (r : attrs) : bool :=
  enabled v && global_filter v r &&
  match sinks v with [] => true | ss => existsb (λ s, consumes s r) ss end.

Definition tick (x : value) : value :=
  match x with VUnsigned n => VUnsigned ((n + 1) mod 2 ^ 32) | _ => x end.

(** What a set of attributes supplies after it was asked for its values: a
    counter gives the next number, a clock or a timer another reading. *)
Definition is_reading (x : value) : bool := match x with VOther _ => true | _ => false end.
Definition evolves (c : gset string) (g g' : attrs) : Prop :=
  dom g' = dom g ∧
  (∀ n, n ∈ c → g' !! n = tick <$> g !! n) ∧
  ∀ n x, n ∉ c → g !! n = Some x →
    ∃ y, g' !! n = Some y ∧ (y = x ∨ is_reading x = true ∧ is_reading y = true).

Definition with_global (g : attrs) (v : view) : view :=
  View (enabled v) (global_filter v) (sinks v) (files v) (thread v) g (counters v) (pushed v).
Definition with_thread (t : attrs) (v : view) : view :=
  View (enabled v) (global_filter v) (sinks v) (files v) t (global v) (counters v) (pushed v).
Definition asked (t g : attrs) (v : view) : view := with_thread t (with_global g v).
Definition with_filter (f : attrs → bool) (v : view) : view :=
  View (enabled v) f (sinks v) (files v) (thread v) (global v) (counters v) (pushed v).
Definition with_enabled (b : bool) (v : view) : view :=
  View b (global_filter v) (sinks v) (files v) (thread v) (global v) (counters v) (pushed v).
Definition with_sinks (ss : list sink) (fs : list (list string)) (v : view) : view :=
  View (enabled v) (global_filter v) ss fs (thread v) (global v) (counters v) (pushed v).

(** Every sink that accepted the record writes its line. *)
Fixpoint write_lines (r : record) (ss : list sink) (ts : list bool) (fs : list (list string))
    : list (list string) :=
  match ss, ts, fs with
  | s :: ss, t :: ts, f :: fs =>
      (if t then (f ++ [format s (values r)])%list else f) :: write_lines r ss ts fs
  | _, _, _ => fs
  end.
Definition write_record (r : record) (v : view) : view :=
  View (enabled v) (global_filter v) (sinks v) (write_lines r (sinks v) (targets r) (files v))
    (thread v) (global v) (counters v) (pushed v ++ [values r])%list.

Definition add_counter (n : string) (first : Z) (v : view) : view :=
  match global v !! n with
  | Some _ => v
  | None =>
      View (enabled v) (global_filter v) (sinks v) (files v) (thread v)
        (<[n := VUnsigned first]> (global v)) ({[n]} ∪ counters v) (pushed v)
  end.
Definition remove_global (n : string) (v : view) : view :=
  View (enabled v) (global_filter v) (sinks v) (files v) (thread v)
    (delete n (global v)) (counters v ∖ {[n]}) (pushed v).

(** * The interface *)
Class LogCore (K : Type) := {
  open_record : attrs → K → K * option record;
  push_record : record → K → K;
  add_thread_attribute : string → value → K → K * bool;
  remove_thread_attribute : string → K → K;
  add_global_counter : string → Z → K → K;
  add_global_attribute : string → value → K → K;
  remove_global_attribute : string → K → K;
  set_filter : (attrs → bool) → K → K;
  set_logging_enabled : bool → K → K;
  add_sink : sink → K → K;
  remove_sink : nat → K → K;
  obs : K → view
}.

Class LogCoreLaws (K : Type) `{LogCore K} := {
  open_opens a k : let v := obs k in admitted v (collected v a) = true →
    ∃ k' t g, open_record a k =
        (k', Some (Rec (collected v a) ((λ s, consumes s (collected v a)) <$> sinks v))) ∧
      evolves ∅ (thread v) t ∧ evolves (counters v) (global v) g ∧ obs k' = asked t g v;
  open_refuses a k : let v := obs k in admitted v (collected v a) = false →
    ∃ k' t g c, open_record a k = (k', None) ∧
      evolves ∅ (thread v) t ∧ c ⊆ counters v ∧ evolves c (global v) g ∧ obs k' = asked t g v;
  push_pushes r k : obs (push_record r k) = write_record r (obs k);
  thread_added n x k :
    let '(t, b) := insert_attr n x (thread (obs k)) in
    (add_thread_attribute n x k).2 = b ∧
    obs (add_thread_attribute n x k).1 = with_thread t (obs k);
  thread_removed n k :
    obs (remove_thread_attribute n k) = with_thread (delete n (thread (obs k))) (obs k);
  counter_added n i k : obs (add_global_counter n i k) = add_counter n i (obs k);
  global_added n x k :
    obs (add_global_attribute n x k) = with_global (insert_attr n x (global (obs k))).1 (obs k);
  global_removed n k : obs (remove_global_attribute n k) = remove_global n (obs k);
  filter_set f k : obs (set_filter f k) = with_filter f (obs k);
  enabled_set b k : obs (set_logging_enabled b k) = with_enabled b (obs k);
  sink_added s k :
    obs (add_sink s k) = with_sinks (sinks (obs k) ++ [s])%list (files (obs k) ++ [[]])%list (obs k);
  sink_removed i k :
    obs (remove_sink i k) = with_sinks (delete i (sinks (obs k))) (delete i (files (obs k))) (obs k)
}.

(** * The logging statements

    [BOOST_LOG(lg) << add_value(n, x) << ... << msg]: open a record with the
    logger's attributes and, when it is opened, attach the message and the
    values and push it. *)
Definition insert_value (n : string) (x : value) (r : record) : record :=
  Rec (insert_attr n x (values r)).1 (targets r).
Definition attach (xs : list (string * value)) (r : record) : record :=
  foldl (λ r '(n, x), insert_value n x r) r xs.

Section statements.
Context {K : Type} `{LogCore K}.

Definition log (a : attrs) (xs : list (string * value)) (k : K) : K :=
  match open_record a k with
  | (k, Some r) => push_record (attach xs r) k
  | (k, None) => k
  end.

(** [BOOST_LOG_SCOPED_THREAD_ATTR]: the guard removes the attribute at the end
    of the scope if it was the one that added it. *)
Definition scoped (n : string) (x : value) (body : K → K) (k : K) : K :=
  let '(k, added) := add_thread_attribute n x k in
  let k := body k in
  if added then remove_thread_attribute n k else k.
End statements.

(** * Lemmas on attributes and records *)
Lemma insert_attr_lookup n x a m :
  (insert_attr n x a).1 !! m = if decide (m = n) then Some (default x (a !! n)) else a !! m.
Proof.
  unfold insert_attr. destruct (a !! n) eqn:E; simpl; case_decide; subst; simpl; try done.
  - by rewrite lookup_insert_eq.
  - by rewrite lookup_insert_ne.
Qed.

Lemma insert_attr_fresh n x a : a !! n = None → insert_attr n x a = (<[n := x]> a, true).
Proof. intros E. unfold insert_attr. by rewrite E. Qed.

Lemma insert_attr_kept n x y a : a !! n = Some y → insert_attr n x a = (a, false).
Proof. intros E. unfold insert_attr. by rewrite E. Qed.

Lemma collected_source v a n x : a !! n = Some x → collected v a !! n = Some x.
Proof. intros E. unfold collected. by do 2 apply lookup_union_Some_l. Qed.

Lemma collected_common v a n :
  a !! n = None → collected v a !! n = (thread v ∪ global v) !! n.
Proof.
  intros E. unfold collected. rewrite <- (assoc_L (∪)). by rewrite lookup_union, E, (left_id_L None _).
Qed.

Lemma attach_kept xs r n x : values r !! n = Some x → values (attach xs r) !! n = Some x.
Proof.
  unfold attach. revert r. induction xs as [| [m y] xs IH]; intros r E; [done |]. simpl. apply IH.
  simpl. rewrite insert_attr_lookup. case_decide; subst; [by rewrite E | done].
Qed.

Lemma attach_new xs r n x :
  values r !! n = None → (list_to_map xs : attrs) !! n = Some x →
  values (attach xs r) !! n = Some x.
Proof.
  unfold attach. revert r. induction xs as [| [m y] xs IH]; intros r E Hx; [done |].
  simpl in *. destruct (decide (m = n)) as [-> | Hne].
  - rewrite lookup_insert_eq in Hx. simplify_eq.
    apply (attach_kept xs). simpl. rewrite insert_attr_lookup, E. by case_decide.
  - rewrite lookup_insert_ne in Hx by done. apply IH; [| done].
    simpl. rewrite insert_attr_lookup. by rewrite decide_False by done.
Qed.

Lemma attach_targets xs r : targets (attach xs r) = targets r.
Proof.
  unfold attach. revert r. induction xs as [| [m y] xs IH]; intros r; [done |]. simpl. by rewrite IH.
Qed.

(** * What a logging statement does *)
Section laws.
Context {K : Type} `{LogCoreLaws K}.
Implicit Types (k : K) (a : attrs).

Definition opened (v : view) (a : attrs) : record :=
  Rec (collected v a) ((λ s, consumes s (collected v a)) <$> sinks v).

Lemma log_admitted a xs k :
  admitted (obs k) (collected (obs k) a) = true →
  ∃ t g, evolves ∅ (thread (obs k)) t ∧ evolves (counters (obs k)) (global (obs k)) g ∧
    obs (log a xs k) = write_record (attach xs (opened (obs k) a)) (asked t g (obs k)).
Proof.
  intros Ha. destruct (open_opens a k Ha) as (k' & t & g & Ho & Ht & Hg & Hk).
  exists t, g. split_and!; [done | done |]. unfold log. by rewrite Ho, push_pushes, Hk.
Qed.

Lemma log_refused a xs k :
  admitted (obs k) (collected (obs k) a) = false →
  ∃ t g c, evolves ∅ (thread (obs k)) t ∧ c ⊆ counters (obs k) ∧
    evolves c (global (obs k)) g ∧ obs (log a xs k) = asked t g (obs k).
Proof.
  intros Ha. destruct (open_refuses a k Ha) as (k' & t & g & c & Ho & Ht & Hc & Hg & Hk).
  exists t, g, c. split_and!; [done | done | done |]. unfold log. by rewrite Ho, Hk.
Qed.

(** Names that neither the thread nor the core supplies. *)
Definition free_names (ns : list string) (v : view) : Prop :=
  Forall (λ n, (n ∉ dom (thread v)) ∧ n ∉ dom (global v)) ns.

Lemma free_names_lookup ns v n :
  free_names ns v → n ∈ ns → (thread v ∪ global v) !! n = None.
Proof.
  unfold free_names. rewrite Forall_forall. intros Hf Hn. destruct (Hf n Hn) as [H1 H2].
  apply lookup_union_None. by rewrite <- !not_elem_of_dom.
Qed.

Lemma free_names_with ns v v' :
  dom (thread v') = dom (thread v) → dom (global v') = dom (global v) → free_names ns v → free_names ns v'.
Proof. unfold free_names. by intros -> ->. Qed.

(** A record has these values under these names. *)
Definition carries (r : attrs) (xs : list (string * value)) : Prop :=
  Forall (λ '(n, x), r !! n = Some x) xs.

Lemma log_free a xs ns k : free_names ns (obs k) → free_names ns (obs (log a xs k)).
Proof.
  intros Hf. destruct (admitted (obs k) (collected (obs k) a)) eqn:Ha.
  - destruct (log_admitted a xs k Ha) as (t & g & [Ht _] & [Hg _] & ->). by apply (free_names_with ns (obs k)).
  - destruct (log_refused a xs k Ha) as (t & g & c & [Ht _] & _ & [Hg _] & ->). by apply (free_names_with ns (obs k)).
Qed.
End laws.

(** * What a run logs

    A statement is made on a logger with the attributes [ys] and attaches [xs].
    It pushes a record exactly when the core admits it, and then that record,
    which the sinks that take it write; otherwise it leaves the logs as they
    are. *)
Notation log_call := (list (string * value) * list (string * value))%type.

Definition source_of (st : log_call) (v : view) : attrs := collected v (list_to_map st.1).
Definition record_of (st : log_call) (v : view) : record :=
  Rec (source_of st v ∪ list_to_map st.2) ((λ s, consumes s (source_of st v)) <$> sinks v).

Inductive logs : list log_call → view → view → Prop :=
  | logs_nil v : logs [] v v
  | logs_pushed st sts v t g v' :
      admitted v (source_of st v) = true →
      evolves ∅ (thread v) t → evolves (counters v) (global v) g →
      logs sts (write_record (record_of st v) (asked t g v)) v' →
      logs (st :: sts) v v'
  | logs_refused st sts v t g c v' :
      admitted v (source_of st v) = false →
      evolves ∅ (thread v) t → c ⊆ counters v → evolves c (global v) g →
      logs sts (asked t g v) v' →
      logs (st :: sts) v v'.

Lemma logs_app sts sts' v1 v2 v3 : logs sts v1 v2 → logs sts' v2 v3 → logs (sts ++ sts')%list v1 v3.
Proof. induction 1; intros Hl; simpl; [done | eapply logs_pushed | eapply logs_refused]; eauto. Qed.

Lemma attach_values xs r : values (attach xs r) = values r ∪ list_to_map xs.
Proof.
  unfold attach. revert r. induction xs as [| [m y] xs IH]; intros r; simpl.
  { by rewrite (right_id_L ∅ (∪)). }
  rewrite IH. simpl. apply map_eq. intros n. rewrite !lookup_union, insert_attr_lookup.
  destruct (decide (n = m)) as [-> | Hne].
  - rewrite lookup_insert_eq. by destruct (values r !! m), ((list_to_map xs : attrs) !! m).
  - by rewrite lookup_insert_ne by done.
Qed.

Lemma attach_record xs r : attach xs r = Rec (values r ∪ list_to_map xs) (targets r).
Proof. rewrite <- attach_values, <- (attach_targets xs). by destruct (attach xs r). Qed.

(** A logging statement does that. *)
Lemma log_logs {K} `{LogCoreLaws K} a ys xs (k : K) :
  a = list_to_map ys → logs [(ys, xs)] (obs k) (obs (log a xs k)).
Proof.
  intros ->. destruct (admitted (obs k) (collected (obs k) (list_to_map ys))) eqn:Ha.
  - destruct (log_admitted _ xs k Ha) as (t & g & Ht & Hg & ->).
    eapply logs_pushed; [done.. |]. rewrite attach_record. apply logs_nil.
  - destruct (log_refused _ xs k Ha) as (t & g & c & Ht & Hc & Hg & ->).
    eapply logs_refused; [done.. |]. apply logs_nil.
Qed.

(** The values of a record that the program itself gave it. *)
Definition bears (r : attrs) (st : log_call) : Prop := carries r (st.1 ++ st.2)%list.

(** What can be read off a core that admits every record: one record for each
    statement, in their order, each with what the program gave it. *)
Lemma logs_all sts v v' ns :
  logs sts v v' → (∀ r, admitted v r = true) → free_names ns v →
  Forall (λ st : log_call, NoDup (st.1 ++ st.2)%list.*1 ∧ ∀ n, n ∈ st.2.*1 → n ∈ ns) sts →
  ∃ rs, pushed v' = (pushed v ++ rs)%list ∧ Forall2 bears rs sts.
Proof.
  induction 1 as [v | st sts v t g v' Ha Ht Hg Hl IH | st sts v t g c v' Ha Ht Hc Hg Hl IH];
    intros Hall Hf Hsts.
  - exists []. by rewrite app_nil_r.
  - apply Forall_cons in Hsts as [[Hnd Hns] Hsts].
    destruct IH as (rs & Hp & Hrs); [exact Hall | | done |].
    { by apply (free_names_with ns v); [apply Ht | apply Hg |]. }
    exists (values (record_of st v) :: rs). rewrite Hp. simpl. rewrite <- (assoc_L (++)).
    split; [done |]. constructor; [| done]. clear -Hnd Hns Hf.
    destruct st as [ys xs]. unfold bears, carries, record_of, source_of. simpl in *.
    rewrite fmap_app in Hnd. apply NoDup_app in Hnd as (Hy & Hd & Hx).
    apply Forall_app. split; apply Forall_forall; intros [n x] Hin.
    + apply lookup_union_Some_l, collected_source. by apply elem_of_list_to_map_1.
    + assert (n ∈ xs.*1) as Hn by (apply list_elem_of_fmap; by exists (n, x)).
      rewrite lookup_union_r; [by apply elem_of_list_to_map_1 |].
      rewrite collected_common; [eapply free_names_lookup; eauto |].
      apply not_elem_of_list_to_map_1. intros Hyn. by apply (Hd n).
  - by rewrite Hall in Ha.
Qed.

(** * A reference core: an instance of the interface

    Its state is what can be observed; the counters tick when a record is
    opened and the other global attributes keep their values. *)
Module Reference.
Definition core : Type := view.
Definition tick_all (c : gset string) (g : attrs) : attrs :=
  map_imap (λ n x, Some (if decide (n ∈ c) then tick x else x)) g.
Definition open (a : attrs) (v : core) : core * option record :=
  if admitted v (collected v a)
  then (with_global (tick_all (counters v) (global v)) v, Some (opened v a)) else (v, None).
#[global] Instance core_ops : LogCore core := {
  open_record := open;
  push_record := write_record;
  add_thread_attribute n x v :=
    let '(t, b) := insert_attr n x (thread v) in (with_thread t v, b);
  remove_thread_attribute n v := with_thread (delete n (thread v)) v;
  add_global_counter := add_counter;
  add_global_attribute n x v := with_global (insert_attr n x (global v)).1 v;
  remove_global_attribute := remove_global;
  set_filter := with_filter;
  set_logging_enabled := with_enabled;
  add_sink s v := with_sinks (sinks v ++ [s])%list (files v ++ [[]])%list v;
  remove_sink i v := with_sinks (delete i (sinks v)) (delete i (files v)) v;
  obs v := v
}.

Lemma tick_all_evolves c g : evolves c g (tick_all c g).
Proof.
  unfold evolves, tick_all. split_and!.
  - apply set_eq. intros n. rewrite !elem_of_dom, map_lookup_imap. destruct (g !! n); simpl.
    + split; intros _; by eexists.
    + done.
  - intros n Hn. rewrite map_lookup_imap. destruct (g !! n); simpl; [by rewrite decide_True | done].
  - intros n x Hn Hx. rewrite map_lookup_imap, Hx. simpl. rewrite decide_False by done. eauto.
Qed.

Lemma evolves_refl g : evolves ∅ g g.
Proof. split_and!; [done | set_solver | eauto]. Qed.

#[global] Instance core_laws : LogCoreLaws core.
Proof.
  split; simpl; intros; unfold open in *; try done.
  - rewrite H. eexists _, (thread k), _. split; [done |].
    split_and!; [apply evolves_refl | apply tick_all_evolves | done].
  - rewrite H. eexists _, (thread k), (global k), ∅. split; [done |].
    split_and!; [apply evolves_refl | set_solver | apply evolves_refl | by destruct k].
  - by destruct (insert_attr n x (thread k)).
Qed.

(** The core of a program that starts. *)
Definition start : core := View true (λ _, true) [] [] ∅ ∅ ∅ [].
End Reference.
