(* ===== verification/LogSources.v ===== *)
(** The log sources of [src/code/boost_doc/log/src/detailed/sources.cpp]: the
    two classes that log the life of a network connection, behind one
    interface, and the severity loggers. *)
From S2P Require Import Prelude LogCore.
Open Scope Z_scope.
Open Scope string_scope.

(** * The contract of a connection log *)

(** The calls a client makes on a connection. *)
Inductive event :=
  | on_connection (remote_addr : string)
  | on_disconnect
  | on_data_received (size : Z)
  | on_data_send (size : Z).

(** Which address is set after a call; a disconnect without an address to
    remove has no meaning. *)
Definition next_peer (p : option string) (e : event) : option (option string) :=
  match e with
  | on_connection a => Some (Some (default a p))
  | on_disconnect => match p with Some _ => Some None | None => None end
  | _ => Some p
  end.

Definition address (p : option string) : list (string * value) :=
  match p with Some a => [("RemoteAddress", VString a)] | None => [] end.

(** The address the record of a call carries: the one that is set while it is
    logged. *)
Definition record_peer (p : option string) (e : event) : option string :=
  match e with on_connection a => Some (default a p) | _ => p end.

Definition sizes (e : event) : list (string * value) :=
  match e with
  | on_data_received n => [("ReceivedSize", VSize n)]
  | on_data_send n => [("SendSize", VSize n)]
  | _ => []
  end.

Definition log_names : list string := ["Message"; "ReceivedSize"; "SendSize"].

(** A connection log over a core: its calls, and the laws they obey. *)
Class Connection (K : Type) `{LogCore K} (C : Type) := {
  call : event → C * K → outcome (C * K);
  peer_is : C → option string → Prop;
  source : event → list (string * value);   (* what the logger itself adds *)
  message : event → string
}.
Definition expected {K C} `{Connection K C} (p : option string) (e : event) : log_call :=
  ((address (record_peer p e) ++ source e)%list, ("Message", VString (message e)) :: sizes e).

Class ConnectionLaws (K C : Type) `{Connection K C} := {
  call_step p e c k : peer_is c p →
    match next_peer p e with
    | Some p' => ∃ c' k', call e (c, k) = Ok (c', k') ∧ peer_is c' p' ∧
        logs [expected p e] (obs k) (obs k')
    | None => call e (c, k) = UB
    end
}.

Section client.
Context {K C : Type} `{ConnectionLaws K C}.

(** A client's calls, one after the other. *)
Fixpoint calls (es : list event) (s : C * K) : outcome (C * K) :=
  match es with
  | [] => Ok s
  | e :: es => s ← call e s; calls es s
  end.

Fixpoint peers (p : option string) (es : list event) : option (option string) :=
  match es with
  | [] => Some p
  | e :: es => p' ← next_peer p e; peers p' es
  end.

Fixpoint history (p : option string) (es : list event) : list log_call :=
  match es with
  | [] => []
  | e :: es => expected p e :: match next_peer p e with Some p' => history p' es | None => [] end
  end.

Lemma calls_spec es p c k : peer_is c p →
  match peers p es with
  | Some p' => ∃ c' k', calls es (c, k) = Ok (c', k') ∧ peer_is c' p' ∧
      logs (history p es) (obs k) (obs k')
  | None => calls es (c, k) = UB
  end.
Proof.
  revert p c k. induction es as [| e es IH]; intros p c k Hp; simpl.
  { exists c, k. split_and!; [done | done | apply logs_nil]. }
  pose proof (call_step p e c k Hp) as Hs. destruct (next_peer p e) as [p1 |]; simpl; [| by rewrite Hs].
  destruct Hs as (c1 & k1 & -> & Hp1 & Hl1). simpl. specialize (IH p1 c1 k1 Hp1).
  destruct (peers p1 es) as [p2 |]; [| done]. destruct IH as (c2 & k2 & -> & Hp2 & Hl2).
  exists c2, k2. split_and!; [done | done |]. by apply (logs_app [expected p e] _ (obs k) (obs k1) (obs k2)).
Qed.
End client.

(** * The iterator a logger hands out *)

(** [remove_attribute(it)]: the iterator must point to an attribute. *)
Definition erase_at (it : option string) (a : attrs) : outcome attrs :=
  n ← from_option_ub it;
  _ ← require (bool_decide (is_Some (a !! n)));
  Ok (delete n a).

(** A logger with the attributes [base] of its features, whose address is set
    to [p]: [it] is the iterator the class keeps. *)
Definition keeps (base : attrs) (p : option string) (a : attrs) (it : option string) : Prop :=
  a = match p with Some x => <["RemoteAddress" := VString x]> base | None => base end ∧
  (it = Some "RemoteAddress" ∨ it = None ∧ p = None).

Lemma keeps_connect base p a it addr :
  base !! "RemoteAddress" = None → keeps base p a it →
  keeps base (Some (default addr p)) (insert_attr "RemoteAddress" (VString addr) a).1
    (Some "RemoteAddress").
Proof.
  intros Hb [-> _]. split; [| by left]. destruct p as [x |]; simpl.
  - by rewrite (insert_attr_kept _ _ (VString x)) by apply lookup_insert_eq.
  - by rewrite insert_attr_fresh.
Qed.

Lemma keeps_disconnect base p a it :
  base !! "RemoteAddress" = None → keeps base p a it →
  erase_at it a = match p with Some _ => Ok base | None => UB end.
Proof.
  intros Hb [-> Hit]. unfold erase_at. destruct Hit as [-> | [-> ->]]; [| done].
  destruct p as [x |]; simpl; [| by rewrite Hb].
  rewrite lookup_insert_eq. simpl. by rewrite delete_insert_id.
Qed.

(** The attributes of such a logger, as a list. *)
Lemma keeps_source src p a it :
  keeps (list_to_map src) p a it → a = list_to_map (address p ++ src)%list.
Proof. intros [-> _]. by destruct p. Qed.

(** A statement of such a logger logs what the contract expects. *)
Lemma keeps_logs {K} `{LogCoreLaws K} src p a it xs (k : K) :
  keeps (list_to_map src) p a it →
  logs [((address p ++ src)%list, xs)] (obs k) (obs (log a xs k)).
Proof. intros Hk. by eapply log_logs, keeps_source. Qed.

(** * [network_connection] *)
Module NetworkConnection.
Record network_connection := Conn { m_logger : attrs; m_remore_addr : option string }.
Definition new : network_connection := Conn ∅ None.

Section methods.
Context {K : Type} `{LogCore K}.
Implicit Types (c : network_connection) (k : K).

Definition connect (remote_addr : string) (c : network_connection) (k : K)
    : network_connection * K :=
  let lg := (insert_attr "RemoteAddress" (VString remote_addr) (m_logger c)).1 in
  let c := Conn lg (Some "RemoteAddress") in
  match open_record lg k with
  | (k, Some rec) =>
      (c, push_record (insert_value "Message" (VString "Connection established") rec) k)
  | (k, None) => (c, k)
  end.

Definition disconnect (c : network_connection) (k : K) : outcome (network_connection * K) :=
  let k := log (m_logger c) [("Message", VString "Connection shut down")] k in
  lg ← erase_at (m_remore_addr c) (m_logger c);
  Ok (Conn lg (m_remore_addr c), k).

Definition data_received (size : Z) c k : network_connection * K :=
  (c, log (m_logger c) [("Message", VString "Some data received"); ("ReceivedSize", VSize size)] k).
Definition data_send (size : Z) c k : network_connection * K :=
  (c, log (m_logger c) [("Message", VString "Some data sent"); ("SendSize", VSize size)] k).

Definition step (e : event) (s : network_connection * K) : outcome (network_connection * K) :=
  match e with
  | on_connection a => Ok (connect a s.1 s.2)
  | on_disconnect => disconnect s.1 s.2
  | on_data_received n => Ok (data_received n s.1 s.2)
  | on_data_send n => Ok (data_send n s.1 s.2)
  end.

Definition test_simple_logger (k : K) : outcome (network_connection * K) :=
  s ← step (on_connection "192.168.1.1:1000") (new, k);
  s ← step (on_data_received 100) s;
  s ← step (on_data_send 200) s;
  step on_disconnect s.
End methods.

#[global] Instance network_connection_calls {K} `{LogCore K} : Connection K network_connection := {
  call := step;
  peer_is c p := keeps ∅ p (m_logger c) (m_remore_addr c);
  source _ := [];
  message e := match e with
    | on_connection _ => "Connection established" | on_disconnect => "Connection shut down"
    | on_data_received _ => "Some data received" | on_data_send _ => "Some data sent" end
}.

#[global] Instance network_connection_laws {K} `{LogCoreLaws K} :
  ConnectionLaws K network_connection.
Proof.
  split. intros p e [lg it] k Hp. simpl in Hp.
  assert (∀ p lg it xs (k : K), keeps ∅ p lg it →
    logs [((address p ++ [])%list, xs)] (obs k) (obs (log lg xs k))) as Hlog.
  { intros. by apply (keeps_logs [] p0 _ it0). }
  destruct e as [a | | n | n]; simpl in *.
  - assert (connect a (Conn lg it) k =
      (Conn (insert_attr "RemoteAddress" (VString a) lg).1 (Some "RemoteAddress"),
       log (insert_attr "RemoteAddress" (VString a) lg).1
         [("Message", VString "Connection established")] k)) as ->.
    { unfold connect, log. simpl. by destruct (open_record _ k) as [? []]. }
    pose proof (keeps_connect ∅ p lg it a (lookup_empty _) Hp) as Hk.
    eexists _, _. split; [done |]. split; [exact Hk | by eapply Hlog].
  - unfold disconnect. simpl. rewrite (keeps_disconnect ∅ p lg it) by done.
    destruct p as [x |]; [| done]. simpl. eexists _, _. split; [done |].
    split; [| by apply (Hlog (Some x) lg it)].
    split; [done | by left; destruct Hp as [_ [-> | [_ ?]]]].
  - eexists _, _. split; [done |]. split; [done | by apply (Hlog p lg it)].
  - eexists _, _. split; [done |]. split; [done | by apply (Hlog p lg it)].
Qed.
End NetworkConnection.

(** * [network_connection_channel]: one channel for the connection, one for
    the statistics of its data *)
Module NetworkConnectionChannel.
Record network_connection_channel := Conn {
  m_net : attrs; m_stat : attrs;
  m_net_remote_addr : option string; m_stat_remote_addr : option string }.
Definition channel (c : string) : attrs := {[ "Channel" := VString c ]}.
Definition new : network_connection_channel := Conn (channel "net") (channel "stat") None None.

Section methods.
Context {K : Type} `{LogCore K}.
Implicit Types (c : network_connection_channel) (k : K).

Definition connect (remote_addr : string) c k : network_connection_channel * K :=
  let net := (insert_attr "RemoteAddress" (VString remote_addr) (m_net c)).1 in
  let stat := (insert_attr "RemoteAddress" (VString remote_addr) (m_stat c)).1 in
  (Conn net stat (Some "RemoteAddress") (Some "RemoteAddress"),
   log net [("Message", VString "默认: Connection established")] k).

Definition disconnect c k : outcome (network_connection_channel * K) :=
  let k := log (m_net c) [("Message", VString "Connection shut down")] k in
  net ← erase_at (m_net_remote_addr c) (m_net c);
  stat ← erase_at (m_stat_remote_addr c) (m_stat c);
  Ok (Conn net stat (m_net_remote_addr c) (m_stat_remote_addr c), k).

Definition data_received (size : Z) c k : network_connection_channel * K :=
  (c, log (m_stat c) [("Message", VString "Some data received"); ("ReceivedSize", VSize size)] k).
Definition data_send (size : Z) c k : network_connection_channel * K :=
  (c, log (m_stat c) [("Message", VString "Some data sent"); ("SendSize", VSize size)] k).

Definition step (e : event) (s : network_connection_channel * K)
    : outcome (network_connection_channel * K) :=
  match e with
  | on_connection a => Ok (connect a s.1 s.2)
  | on_disconnect => disconnect s.1 s.2
  | on_data_received n => Ok (data_received n s.1 s.2)
  | on_data_send n => Ok (data_send n s.1 s.2)
  end.
End methods.

Definition channel_of (e : event) : string :=
  match e with on_connection _ | on_disconnect => "net" | _ => "stat" end.

#[global] Instance channel_calls {K} `{LogCore K} : Connection K network_connection_channel := {
  call := step;
  peer_is c p := keeps (channel "net") p (m_net c) (m_net_remote_addr c) ∧
                 keeps (channel "stat") p (m_stat c) (m_stat_remote_addr c);
  source e := [("Channel", VString (channel_of e))];
  message e := match e with
    | on_connection _ => "默认: Connection established" | on_disconnect => "Connection shut down"
    | on_data_received _ => "Some data received" | on_data_send _ => "Some data sent" end
}.

#[global] Instance channel_laws {K} `{LogCoreLaws K} : ConnectionLaws K network_connection_channel.
Proof.
  split. intros p e [net stat nit sit] k [Hn Hs]. simpl in Hn, Hs.
  assert (∀ ch p lg it xs (k : K), keeps (channel ch) p lg it →
    logs [((address p ++ [("Channel", VString ch)])%list, xs)] (obs k) (obs (log lg xs k))) as Hlog.
  { intros. by apply (keeps_logs _ p0 _ it). }
  destruct e as [a | | n | n]; simpl.
  - pose proof (keeps_connect (channel "net") p net nit a eq_refl Hn) as Hk.
    eexists _, _. split; [done |]. split; [split; by eapply keeps_connect |]. by eapply Hlog.
  - unfold disconnect. simpl. rewrite (keeps_disconnect (channel "net") p net nit) by done.
    rewrite (keeps_disconnect (channel "stat") p stat sit) by done.
    destruct p as [x |]; [| done]. simpl. eexists _, _. split; [done |].
    split; [| by apply (Hlog "net" (Some x) net nit)].
    split; (split; [done | left]); [by destruct Hn as [_ [-> | [_ ?]]] | by destruct Hs as [_ [-> | [_ ?]]]].
  - eexists _, _. split; [done |]. split; [done | by apply (Hlog "stat" p stat sit)].
  - eexists _, _. split; [done |]. split; [done | by apply (Hlog "stat" p stat sit)].
Qed.
End NetworkConnectionChannel.

(** * Severity loggers *)
Module SeverityLogger.
(** [enum custom_severity]. *)
Definition normal : Z := 0.
Definition notification : Z := 1.
Definition warning : Z := 2.
Definition error : Z := 3.
Definition critical : Z := 4.

(** The attributes of a severity logger while it opens a record at level [l];
    without a level it is the one given to the constructor. *)
Definition at_level (x : value) (a : attrs) : attrs := <["Severity" := x]> a.

Section programs.
Context {K : Type} `{LogCore K}.

(** [BOOST_LOG_SEV(lg, x) << msg] on a logger with the attributes [a]; [x] is a
    level of the logger's own type. *)
Definition log_at (a : attrs) (x : value) (msg : string) (k : K) : K :=
  log (at_level x a) [("Message", VString msg)] k.
Definition log_sev (a : attrs) (l : Z) (msg : string) (k : K) : K := log_at a (VSeverity l) msg k.

(** The statement written out: open, write through a stream, flush, push. *)
Definition log_by_hand (a : attrs) (l : Z) (msg : string) (k : K) : K :=
  match open_record (at_level (VSeverity l) a) k with
  | (k, Some rec) =>
      let strm := insert_value "Message" (VString "") rec in
      let strm := Rec (<["Message" := VString msg]> (values strm)) (targets strm) in
      push_record strm k
  | (k, None) => k
  end.

Definition severity_logger_impl (k : K) : K :=
  let k := log_sev ∅ normal "默认日志等级" k in
  let k := log_sev ∅ error "Error级别日志" k in
  let k := log_sev ∅ critical "Critical级别日志" k in
  log_by_hand ∅ normal "这是默认等级normal" k.

Definition via_global_logger (k : K) : K :=
  log_sev {["Channel" := VString "custom_logger"]} normal "Hello World" k.
End programs.

Section laws.
Context {K : Type} `{LogCoreLaws K}.

(** The expansion does what the macro does, unless the program gives the name
    [Message] to an attribute of its own. *)
Lemma log_by_hand_log a l msg (k : K) :
  a !! "Message" = None → (thread (obs k) ∪ global (obs k)) !! "Message" = None →
  log_by_hand a l msg k = log_sev a l msg k.
Proof.
  intros Ha Hk. unfold log_by_hand, log_sev, log_at, log.
  destruct (admitted (obs k) (collected (obs k) (at_level (VSeverity l) a))) eqn:E.
  - destruct (open_opens _ k E) as (k' & t & g & -> & _). f_equal. simpl.
    unfold insert_value. simpl. rewrite !insert_attr_fresh; simpl; [by rewrite insert_insert_eq |..];
      (rewrite collected_common; [done |]; unfold at_level; by rewrite lookup_insert_ne).
  - by destruct (open_refuses _ k E) as (k' & t & g & c & -> & _).
Qed.

Lemma log_sev_logs ys l msg (k : K) :
  logs [(("Severity", VSeverity l) :: ys, [("Message", VString msg)])] (obs k)
    (obs (log_sev (list_to_map ys) l msg k)).
Proof. by apply log_logs. Qed.

Lemma log_by_hand_logs ys l msg (k : K) :
  (list_to_map ys : attrs) !! "Message" = None → free_names ["Message"] (obs k) →
  logs [(("Severity", VSeverity l) :: ys, [("Message", VString msg)])] (obs k)
    (obs (log_by_hand (list_to_map ys) l msg k)).
Proof.
  intros Ha Hf. rewrite log_by_hand_log; [by apply log_sev_logs | done |].
  apply (free_names_lookup ["Message"]); [done | by left].
Qed.
End laws.
End SeverityLogger.

(** * The theorems of the sources *)
Section theorems.
Context {K : Type} `{LogCoreLaws K}.

(** Each call of a connection gives names of its own to what it says. *)
Lemma history_names {C} `{ConnectionLaws K C} es p :
  (∀ e, source e = [] ∨ ∃ x, source e = [("Channel", x)]) →
  Forall (λ st : log_call, NoDup (st.1 ++ st.2)%list.*1 ∧ ∀ n, n ∈ st.2.*1 → n ∈ log_names) (history p es).
Proof.
  intros Hsrc. revert p. induction es as [| e es IH]; intros p; simpl; constructor.
  - unfold expected. simpl. split.
    + destruct (Hsrc e) as [-> | [x ->]], (record_peer p e), e;
        apply (bool_decide_unpack _); by vm_compute.
    + unfold log_names. destruct e; simpl; set_solver.
  - destruct (next_peer p e); [apply IH | done].
Qed.

(** C37. Logging the life of a connection.  Whatever sequence of calls a client
    makes on a new [network_connection] or a new [network_connection_channel],
    over any core that behaves as documented: the run is defined exactly when no
    disconnect comes without an address set since the last one (the iterator
    handed to [remove_attribute] then points nowhere), and it then makes exactly
    one logging statement per call, on the attributes and with the message and
    the size of the call: a record is pushed, and written by the sinks that take
    it, exactly when the core admits it, and carries the address set at that
    moment and, for the second class, the channel [net] for the connection and
    [stat] for its data.  Over a core that admits everything and supplies none of
    the names of the statements, one record per call is pushed, in order, with all
    of that. *)
Theorem connection_history (es : list event) (k : K) :
  let runs {C} (conn : Connection K C) (new : C) :=
    ∃ c' k', calls es (new, k) = Ok (c', k') ∧
      logs (history None es) (obs k) (obs k') ∧
      ((∀ r, admitted (obs k) r = true) → free_names log_names (obs k) →
       ∃ rs, pushed (obs k') = (pushed (obs k) ++ rs)%list ∧ Forall2 bears rs (history None es)) in
  match peers None es with
  | Some _ =>
      runs NetworkConnection.network_connection_calls NetworkConnection.new ∧
      runs NetworkConnectionChannel.channel_calls NetworkConnectionChannel.new
  | None =>
      calls es (NetworkConnection.new, k) = UB ∧ calls es (NetworkConnectionChannel.new, k) = UB
  end.
Proof.
  intros runs. subst runs. cbn beta.
  pose proof (calls_spec es None NetworkConnection.new k) as H1.
  pose proof (calls_spec es None NetworkConnectionChannel.new k) as H2.
  specialize (H1 ltac:(split; [done | by right])).
  specialize (H2 ltac:(split; (split; [done | by right]))).
  destruct (peers None es); [| done].
  destruct H1 as (c1 & k1 & H11 & _ & H12), H2 as (c2 & k2 & H21 & _ & H22).
  split; [exists c1, k1 | exists c2, k2]; (split_and!; [done | done |]); intros Hall Hf;
    (eapply logs_all; [done | done | done | apply history_names]); [by left | intros e; right; by eexists].
Qed.

(** A client that connects again without disconnecting: the address of the first
    connection stays on every record that follows. *)
Theorem reconnect_keeps_address (a b : string) (es : list event) (st : log_call) :
  (∀ e, e ∈ es → e ≠ on_disconnect) →
  st ∈ history (K := K) (C := NetworkConnection.network_connection) None
    (on_connection a :: on_connection b :: es) →
  ("RemoteAddress", VString a) ∈ st.1.
Proof.
  intros Hes. simpl. intros [-> | [-> | Hin]%elem_of_cons]%elem_of_cons; [by left | by left |].
  revert Hin. induction es as [| e es IH]; simpl; [by intros ?%not_elem_of_nil |].
  assert (e ≠ on_disconnect) as He by (apply Hes; by left).
  intros [-> | Hin]%elem_of_cons; [by destruct e; left |].
  assert (next_peer (Some a) e = Some (Some a)) as E by by destruct e.
  rewrite E in Hin. apply IH; [intros e' He'; apply Hes; by right | done].
Qed.

(** The severity loggers of the demonstration log each message at the level it
    names, the last one through the expansion of the macro. *)
Theorem severity_records (k : K) :
  free_names ["Message"] (obs k) →
  logs ((λ '(l, msg), ([("Severity", VSeverity l)], [("Message", VString msg)])) <$>
    [(0, "默认日志等级"); (3, "Error级别日志"); (4, "Critical级别日志"); (0, "这是默认等级normal")])
    (obs k) (obs (SeverityLogger.severity_logger_impl k)).
Proof.
  intros Hf. unfold SeverityLogger.severity_logger_impl.
  eapply (logs_app [_]); [apply (SeverityLogger.log_sev_logs []) |].
  eapply (logs_app [_]); [apply (SeverityLogger.log_sev_logs []) |].
  eapply (logs_app [_]); [apply (SeverityLogger.log_sev_logs []) |].
  apply (SeverityLogger.log_by_hand_logs []); [done |]. by do 3 apply log_free.
Qed.
End theorems.

(** * Witnesses *)
(** The calls of [test_simple_logger] over the reference core. *)
Definition w_calls : list event :=
  [on_connection "192.168.1.1:1000"; on_data_received 100; on_data_send 200; on_disconnect].
Lemma connection_history_witness :
  peers None w_calls = Some None ∧
  ∃ c' k' rs, calls w_calls (NetworkConnection.new, (Reference.start : Reference.core)) = Ok (c', k') ∧
    pushed k' = rs ∧ length rs = 4%nat ∧
    Forall2 bears rs (history (K := Reference.core) (C := NetworkConnection.network_connection) None w_calls).
Proof.
  split; [reflexivity |].
  destruct (proj1 (connection_history w_calls (Reference.start : Reference.core))) as (c' & k' & Hc & _ & Hr).
  destruct (Hr ltac:(by intros r) ltac:(repeat constructor; set_solver)) as (rs & Hp & Hrs).
  exists c', k', rs. split_and!; [done | done | exact (Forall2_length _ _ _ Hrs) | done].
Defined.

Lemma reconnect_keeps_address_witness :
  ("RemoteAddress", VString "a") ∈
    (expected (K := Reference.core) (C := NetworkConnection.network_connection) (Some "a") (on_data_send 1)).1.
Proof.
  apply (reconnect_keeps_address (K := Reference.core) "a" "b" [on_data_send 1]).
  - intros e He. apply list_elem_of_singleton in He as ->. done.
  - simpl. set_solver.
Defined.

Lemma severity_records_witness :
  logs ((λ '(l, msg), ([("Severity", VSeverity l)], [("Message", VString msg)])) <$>
    [(0, "默认日志等级"); (3, "Error级别日志"); (4, "Critical级别日志"); (0, "这是默认等级normal")])
    (obs (Reference.start : Reference.core))
    (obs (SeverityLogger.severity_logger_impl (Reference.start : Reference.core))).
Proof. apply (severity_records (Reference.start : Reference.core)). repeat constructor; set_solver. Defined.
