(* ===== verification/LogPrograms.v ===== *)
(** The logging programs with formatters, filters and sinks of their own:
    [src/code/boost_doc/log/src/tutorial/complex_filter.cpp] and
    [src/code/lang/log.cpp].  They run over any core that satisfies
    [LogCoreLaws]. *)
From S2P Require Import Prelude LogCore LogSources.
From stdpp Require Import pretty.
From Stdlib Require Import Ascii.
Import SeverityLogger.
Open Scope string_scope.
Open Scope Z_scope.

(** * Printing *)
Module Printing.
Definition tab : string := String (Ascii.ascii_of_nat 9) "".

(** [operator<<(std::ostream&, severity_level)]: the level indexes a table of
    five names after a comparison as [std::size_t]. *)
Definition strings : list string := ["normal"; "notification"; "warning"; "error"; "critical"].
Definition put_level (level : Z) : outcome string :=
  if level mod 2 ^ 64 <? Z.of_nat (length strings)
  then from_option_ub (strings !! Z.to_nat level)
  else Ok (pretty level).
Definition level_text (level : Z) : string :=
  match put_level level with Ok s => s | _ => "" end.

(** [std::setw(w) << std::setfill(c)] for the next number. *)
Fixpoint fill (n : nat) (c : Ascii.ascii) : string :=
  match n with O => "" | S n => String c (fill n c) end.
Definition setw (w : nat) (s : string) : string := fill (w - String.length s) "0"%char ++ s.

(** An unsigned number in hexadecimal, lower case. *)
Definition hex_digit (d : Z) : Ascii.ascii :=
  Ascii.ascii_of_N (Z.to_N (if d <? 10 then 48 + d else 87 + d)).
Fixpoint hex (fuel : nat) (n : Z) (acc : string) : string :=
  match fuel with
  | O => acc
  | S fuel =>
      let acc := String (hex_digit (n mod 16)) acc in
      if n <? 16 then acc else hex fuel (n / 16) acc
  end.
Definition to_hex (n : Z) : string := hex 8 n "".

(** A placeholder of a formatter prints nothing when its attribute is missing
    or has another type. *)
Definition put_unsigned (f : Z → string) (r : attrs) (n : string) : string :=
  match r !! n with Some (VUnsigned z) => f z | _ => "" end.
Definition put_severity (r : attrs) (n : string) : string :=
  match r !! n with Some (VSeverity l) => level_text l | _ => "" end.
Definition put_string (r : attrs) (n : string) : string :=
  match r !! n with Some (VString s) => s | _ => "" end.
Definition put_reading (r : attrs) (n : string) : string :=
  match r !! n with Some (VOther s) => s | _ => "" end.
Definition has_string (r : attrs) (n : string) : bool :=
  match r !! n with Some (VString _) => true | _ => false end.
Definition has_reading (r : attrs) (n : string) : bool :=
  match r !! n with Some (VOther _) => true | _ => false end.

Lemma put_level_text l : - 2 ^ 31 <= l < 2 ^ 31 →
  put_level l = Ok (level_text l) ∧
  level_text l = if bool_decide (0 <= l < 5) then default "" (strings !! Z.to_nat l) else pretty l.
Proof.
  intros Hl. unfold level_text, put_level. simpl length. destruct (decide (0 <= l)).
  - rewrite Z.mod_small by lia. case_bool_decide as Hb.
    + rewrite (proj2 (Z.ltb_lt l (Z.of_nat 5))) by lia.
      destruct (lookup_lt_is_Some_2 strings (Z.to_nat l)) as [x ->]; [simpl; lia | done].
    + by rewrite (proj2 (Z.ltb_ge l (Z.of_nat 5))) by lia.
  - rewrite bool_decide_eq_false_2 by lia.
    replace (l mod 2 ^ 64) with (l + 2 ^ 64) by (Z.to_euclidean_division_equations; lia).
    by rewrite (proj2 (Z.ltb_ge (l + 2 ^ 64) (Z.of_nat 5))) by lia.
Qed.
End Printing.
Import Printing.

(** * A core set up by [add_common_attributes] *)
Section numbered.
Context {K : Type} `{LogCoreLaws K}.

(** [logging::add_common_attributes()]: the line counter, the clock, and the
    identifiers of the process and the thread. *)
Definition add_common_attributes (clock pid tid : string) (k : K) : K :=
  let k := add_global_counter "LineID" 1 k in
  let k := add_global_attribute "TimeStamp" (VOther clock) k in
  let k := add_global_attribute "ProcessID" (VOther pid) k in
  add_global_attribute "ThreadID" (VOther tid) k.

(** The names the programs give to attributes of their own. *)
Definition own_names : list string := ["Severity"; "Tag"; "Timeline"; "Message"].

(** A core whose next record has number [n], which admits everything (its
    first sink has no filter). *)
Definition numbered (n : Z) (v : view) : Prop :=
  enabled v = true ∧ global_filter v = (λ _, true) ∧
  match sinks v with s :: _ => ∀ r, consumes s r = true | [] => True end ∧
  "LineID" ∈ counters v ∧ global v !! "LineID" = Some (VUnsigned n) ∧
  (∀ m, m ∈ own_names → m ∉ dom (global v)) ∧ ("LineID" ∉ dom (thread v)) ∧
  "Message" ∉ dom (thread v).

(** The attributes of a tag, if there is one. *)
Definition tag_attrs (t : option string) : attrs :=
  match t with Some t => {["Tag" := VString t]} | None => ∅ end.

Definition next_number (n : Z) : Z := (n + 1) mod 2 ^ 32.

Lemma numbered_admits n v r : numbered n v → admitted v r = true.
Proof.
  intros (He & Hf & Hs & _). unfold admitted. rewrite He, Hf. simpl.
  destruct (sinks v) as [| s ss]; [done |]. simpl. by rewrite Hs.
Qed.

Lemma numbered_asked n t g v r : numbered n v →
  evolves ∅ (thread v) t → evolves (counters v) (global v) g →
  numbered (next_number n) (write_record r (asked t g v)).
Proof.
  intros (He & Hf & Hs & Hc & Hl & Ho & Ht & Hm) [Et _] (Eg & Ec & _).
  split_and!; simpl; try done.
  - by rewrite Ec, Hl.
  - intros m Hin. rewrite Eg. by apply Ho.
  - by rewrite Et.
  - by rewrite Et.
Qed.

(** What a record of such a core holds. *)
Definition holds (n : Z) (x : value) (msg : string) (a : attrs) (v : view) (r : attrs) : Prop :=
  r !! "LineID" = Some (VUnsigned n) ∧ r !! "Severity" = Some x ∧
  r !! "Message" = Some (VString msg) ∧
  (∀ m, m ∈ ["Tag"; "Timeline"] → r !! m = (a ∪ thread v) !! m) ∧
  r !! "Scope" = (a ∪ thread v ∪ global v) !! "Scope".

Lemma log_at_numbered n a x msg k :
  numbered n (obs k) → a !! "LineID" = None → a !! "Message" = None →
  ∃ t g, let v := obs k in
    let r := collected v (at_level x a) in
    let r' := <["Message" := VString msg]> r in
    evolves ∅ (thread v) t ∧ evolves (counters v) (global v) g ∧
    obs (log_at a x msg k) = write_record (Rec r' ((λ s, consumes s r) <$> sinks v)) (asked t g v) ∧
    holds n x msg a v r' ∧ numbered (next_number n) (obs (log_at a x msg k)) ∧
    dom (thread (obs (log_at a x msg k))) = dom (thread v).
Proof.
  intros Hn HaL HaM.
  destruct (log_admitted (at_level x a) [("Message", VString msg)] k) as (t & g & Ht & Hg & Hobs);
    [by eapply numbered_admits |].
  set (r := collected (obs k) (at_level x a)).
  assert (r !! "Message" = None) as HrM.
  { unfold r. rewrite collected_common; [| unfold at_level; by rewrite lookup_insert_ne].
    destruct Hn as (_ & _ & _ & _ & _ & Ho & _ & HtM).
    apply lookup_union_None. rewrite <- !not_elem_of_dom. split; [done | apply Ho; set_solver]. }
  assert (attach [("Message", VString msg)] (opened (obs k) (at_level x a)) =
    Rec (<["Message" := VString msg]> r) ((λ s, consumes s r) <$> sinks (obs k))) as Hat.
  { unfold attach, opened, insert_value. simpl. by rewrite insert_attr_fresh. }
  exists t, g. unfold log_at. rewrite Hobs, Hat. split_and!; try done.
  - simpl. destruct Hn as (_ & _ & _ & _ & HL & Ho & HtL & HtM). split_and!.
    + rewrite lookup_insert_ne by done. unfold r.
      rewrite collected_common by (unfold at_level; by rewrite lookup_insert_ne).
      rewrite lookup_union_r; [done | by apply not_elem_of_dom].
    + rewrite lookup_insert_ne by done. unfold r. apply collected_source. apply lookup_insert_eq.
    + apply lookup_insert_eq.
    + intros m Hm. assert (m ∈ own_names ∧ m ≠ "Severity" ∧ m ≠ "Message") as (Hm1 & Hm2 & Hm3).
      { unfold own_names. set_solver. }
      rewrite lookup_insert_ne by done. unfold r, collected, at_level.
      rewrite <- insert_union_l. rewrite <- insert_union_l. rewrite lookup_insert_ne by done.
      apply lookup_union_l. by apply not_elem_of_dom, Ho.
    + rewrite lookup_insert_ne by done. unfold r, collected, at_level.
      rewrite <- !insert_union_l. by rewrite lookup_insert_ne.
  - by apply numbered_asked.
  - simpl. apply Ht.
Qed.

Lemma common_numbered clock pid tid k :
  enabled (obs k) = true → global_filter (obs k) = (λ _, true) →
  match sinks (obs k) with s :: _ => ∀ r, consumes s r = true | [] => True end →
  thread (obs k) = ∅ → global (obs k) = ∅ →
  let v := obs (add_common_attributes clock pid tid k) in
  numbered 1 v ∧ sinks v = sinks (obs k) ∧ files v = files (obs k) ∧ thread v = ∅ ∧
  counters v = {["LineID"]} ∪ counters (obs k) ∧ global v !! "Scope" = None.
Proof.
  intros He Hf Hs Ht Hg. unfold add_common_attributes.
  rewrite !global_added, counter_added. unfold add_counter. rewrite Hg, lookup_empty.
  split_and!; simpl; try done. rewrite !insert_attr_fresh by by vm_compute.
  split_and!; simpl; try done; [set_solver | | by rewrite Ht..].
  intros m Hm. apply not_elem_of_dom. unfold own_names in Hm.
  repeat (apply elem_of_cons in Hm as [-> | Hm]; [by vm_compute |]). by apply not_elem_of_nil in Hm.
Qed.
End numbered.

(** * [tutorial/complex_filter.cpp] *)
Module ComplexFilter.
(** [custom_filter]: the arguments may refer to nothing, and a comparison with
    such a reference is false. *)
Definition custom_filter (level tag : option value) : bool :=
  match level with Some (VSeverity l) => warning <=? l | _ => false end ||
  match tag with Some (VString s) => bool_decide (s = "NOTICE") | _ => false end.

Definition fmt (r : attrs) : string :=
  put_unsigned (λ n, setw 3 (pretty n)) r "LineID" ++ ": <" ++ put_severity r "Severity" ++ ">" ++
  tab ++ (if has_string r "Tag" then "[" ++ put_string r "Tag" ++ "]" else "") ++
  put_string r "Message".

Section program.
Context {K : Type} `{LogCore K} (clock pid tid : string).

Definition init (k : K) : K :=
  let k := add_sink (Sink (λ _, true) fmt) k in
  let k := add_sink (Sink (λ r, custom_filter (r !! "Severity") (r !! "Tag")) fmt) k in
  add_common_attributes clock pid tid k.

Definition gen_logging (k : K) : K :=
  let k := log_sev ∅ normal "日志等级 normal" k in
  let k := log_sev ∅ warning "日志等级 warning" k in
  let k := log_sev ∅ critical "日志等级 critical" k in
  scoped "Tag" (VString "NOTICE") (log_sev ∅ normal "日志等级 normal") k.

Definition main (k : K) : K := gen_logging (init k).

(** A statement as in [gen_logging]: a level, a message and perhaps a tag for
    the scope it stands in. *)
Record statement := Stmt { level : Z; text : string; tag : option string }.
Definition run_statement (st : statement) (k : K) : K :=
  match tag st with
  | Some t => scoped "Tag" (VString t) (log_sev ∅ (level st) (text st)) k
  | None => log_sev ∅ (level st) (text st) k
  end.
Definition run (sts : list statement) (k : K) : K := foldl (λ k st, run_statement st k) k sts.
End program.

(** What the two files should hold: every statement on a line with its number,
    and of those the ones that matter. *)
Definition line (n : Z) (st : statement) : string :=
  setw 3 (pretty n) ++ ": <" ++ level_text (level st) ++ ">" ++ tab ++
  match tag st with Some t => "[" ++ t ++ "]" | None => "" end ++ text st.
Definition important (st : statement) : bool :=
  (warning <=? level st) || bool_decide (tag st = Some "NOTICE").
Fixpoint numbered_from (n : Z) (sts : list statement) : list (Z * statement) :=
  match sts with [] => [] | st :: sts => (n, st) :: numbered_from (next_number n) sts end.
Definition full_log (l : list (Z * statement)) : list string := (λ '(n, st), line n st) <$> l.
Definition important_log (l : list (Z * statement)) : list string :=
  full_log (base.filter (λ p, important p.2 = true) l).

Section proofs.
Context {K : Type} `{LogCoreLaws K}.

Definition two_sinks : list sink := [Sink (λ _, true) fmt;
  Sink (λ r, custom_filter (r !! "Severity") (r !! "Tag")) fmt].
Definition tags (st : statement) : attrs := tag_attrs (tag st).
Definition ready (n : Z) (f0 f1 : list string) (t : attrs) (v : view) : Prop :=
  numbered n v ∧ sinks v = two_sinks ∧ files v = [f0; f1] ∧ thread v = t.

Lemma holds_tag n st v r :
  holds n (VSeverity (level st)) (text st) ∅ v r → thread v = tags st → r !! "Tag" = VString <$> tag st.
Proof.
  intros (_ & _ & _ & Ht & _) Hv. rewrite Ht by set_solver. rewrite (left_id_L ∅ _), Hv.
  unfold tags. by destruct (tag st).
Qed.

Lemma fmt_line n st v r :
  holds n (VSeverity (level st)) (text st) ∅ v r → thread v = tags st → fmt r = line n st.
Proof.
  intros Hr Hv. pose proof (holds_tag n st v r Hr Hv) as HT. destruct Hr as (HL & HS & HM & _).
  unfold fmt, line, put_unsigned, put_severity, put_string, has_string.
  rewrite HL, HS, HM, HT. by destruct (tag st).
Qed.

Lemma custom_filter_important n st v r :
  holds n (VSeverity (level st)) (text st) ∅ v r → thread v = tags st →
  custom_filter (r !! "Severity") (r !! "Tag") = important st.
Proof.
  intros Hr Hv. rewrite (holds_tag n st v r Hr Hv). destruct Hr as (_ & -> & _).
  unfold custom_filter, important. destruct (tag st) as [t |]; simpl; [| done].
  f_equal. apply bool_decide_ext. naive_solver.
Qed.

Lemma log_sev_ready n f0 f1 st (k : K) :
  ready n f0 f1 (tags st) (obs k) →
  let k' := log_sev ∅ (level st) (text st) k in
  numbered (next_number n) (obs k') ∧ sinks (obs k') = two_sinks ∧
  files (obs k') = [(f0 ++ [line n st])%list;
    (if important st then f1 ++ [line n st] else f1)%list] ∧
  dom (thread (obs k')) = dom (tags st).
Proof.
  intros (Hn & Hs & Hf & Ht).
  destruct (log_at_numbered n ∅ (VSeverity (level st)) (text st) k Hn) as (t & g & _ & _ & Hobs & Hr & Hn' & Hd);
    [done.. |].
  unfold log_sev. split_and!; [done | by rewrite Hobs | | by rewrite Hd, Ht].
  rewrite Hobs. simpl. rewrite Hs, Hf. simpl. rewrite (fmt_line n st _ _ Hr Ht).
  pose proof (custom_filter_important n st _ _ Hr Ht) as Hi.
  rewrite !lookup_insert_ne in Hi by done. by rewrite Hi.
Qed.

Lemma run_statement_ready n f0 f1 st (k : K) :
  ready n f0 f1 ∅ (obs k) →
  ready (next_number n) (f0 ++ [line n st])%list
    (if important st then f1 ++ [line n st] else f1)%list ∅ (obs (run_statement st k)).
Proof.
  intros (Hn & Hs & Hf & Ht). unfold run_statement.
  destruct (tag st) as [t |] eqn:Et.
  - unfold scoped. pose proof (thread_added "Tag" (VString t) k) as Ha.
    rewrite insert_attr_fresh in Ha by by rewrite Ht.
    destruct (add_thread_attribute "Tag" (VString t) k) as [k1 b]. destruct Ha as [Hb Ha]. simpl in Hb, Ha.
    subst b. rewrite Ht in Ha.
    destruct (log_sev_ready n f0 f1 st k1) as (Hn' & Hs' & Hf' & Hd).
    { rewrite Ha. split_and!; simpl; [| done | done |].
      - destruct Hn as (? & ? & ? & ? & ? & ? & ? & ?). split_and!; simpl; try done; set_solver.
      - unfold tags. by rewrite Et. }
    unfold ready. rewrite thread_removed. split_and!; simpl; try done.
    + destruct Hn' as (? & ? & ? & ? & ? & ? & ? & ?). split_and!; simpl; try done; set_solver.
    + apply (dom_empty_inv_L (D := gset string)). rewrite dom_delete_L, Hd. unfold tags. rewrite Et.
      set_solver.
  - destruct (log_sev_ready n f0 f1 st k) as (Hn' & Hs' & Hf' & Hd).
    { split_and!; try done. unfold tags. by rewrite Et. }
    split_and!; try done. apply (dom_empty_inv_L (D := gset string)). rewrite Hd. unfold tags. by rewrite Et.
Qed.

Lemma run_ready sts : ∀ n f0 f1 (k : K),
  ready n f0 f1 ∅ (obs k) →
  files (obs (run sts k)) =
    [(f0 ++ full_log (numbered_from n sts))%list; (f1 ++ important_log (numbered_from n sts))%list].
Proof.
  induction sts as [| st sts IH]; intros n f0 f1 k Hr; simpl.
  { unfold important_log. simpl. rewrite !app_nil_r. apply Hr. }
  rewrite (IH _ _ _ _ (run_statement_ready n f0 f1 st k Hr)).
  unfold important_log. rewrite filter_cons. simpl.
  destruct (important st); simpl; rewrite <- !(assoc_L (++)); done.
Qed.

Lemma init_ready clock pid tid (k : K) :
  obs k = Reference.start → ready 1 [] [] ∅ (obs (init clock pid tid k)).
Proof.
  intros Hk. unfold init. set (k1 := add_sink _ _).
  assert (obs k1 = with_sinks two_sinks [[]; []] Reference.start) as E.
  { unfold k1. by rewrite !sink_added, Hk. }
  destruct (common_numbered clock pid tid k1) as (Hn & Hs & Hf & Ht & _); rewrite ?E in *; try done.
Qed.

(** C38. The two logs of [complex_filter].  Over any core that behaves as
    documented, in a program that starts: whatever statements run after [init]
    (any levels, messages and scoped tags), [full.log] holds one line for every
    statement, in order, with consecutive numbers, and [important.log] holds
    exactly those lines of [full.log] whose level is at least [warning] or whose
    tag is [NOTICE], with the numbers they have there. *)
Theorem complex_filter_logs (clock pid tid : string) (sts : list statement) (k : K) :
  obs k = Reference.start →
  files (obs (run sts (init clock pid tid k))) =
    [full_log (numbered_from 1 sts); important_log (numbered_from 1 sts)].
Proof. intros Hk. by rewrite (run_ready sts 1 [] []) by by apply init_ready. Qed.

(** The program itself writes the two files the repository keeps of a run of it
    ([bin/full.log] and [bin/important.log]). *)
Theorem complex_filter_files (clock pid tid : string) (k : K) :
  obs k = Reference.start →
  files (obs (main clock pid tid k)) =
    [["001: <normal>" ++ tab ++ "日志等级 normal"; "002: <warning>" ++ tab ++ "日志等级 warning";
      "003: <critical>" ++ tab ++ "日志等级 critical"; "004: <normal>" ++ tab ++ "[NOTICE]日志等级 normal"];
     ["002: <warning>" ++ tab ++ "日志等级 warning"; "003: <critical>" ++ tab ++ "日志等级 critical";
      "004: <normal>" ++ tab ++ "[NOTICE]日志等级 normal"]].
Proof.
  intros Hk.
  exact (run_ready [Stmt normal "日志等级 normal" None; Stmt warning "日志等级 warning" None;
    Stmt critical "日志等级 critical" None; Stmt normal "日志等级 normal" (Some "NOTICE")]
    1 [] [] _ (init_ready clock pid tid k Hk)).
Qed.
End proofs.

Lemma complex_filter_logs_witness :
  obs (Reference.start : Reference.core) = Reference.start ∧
  files (obs (run [Stmt 7 "x" None; Stmt 0 "y" None] (init "" "" "" (Reference.start : Reference.core)))) =
    [["001: <7>" ++ tab ++ "x"; "002: <normal>" ++ tab ++ "y"]; ["001: <7>" ++ tab ++ "x"]].
Proof.
  split; [reflexivity |].
  exact (complex_filter_logs "" "" "" [Stmt 7 "x" None; Stmt 0 "y" None] Reference.start eq_refl).
Defined.

Lemma complex_filter_files_witness :
  important_log (numbered_from 1 [Stmt 2 "日志等级 warning" None]) =
    ["001: <warning>" ++ tab ++ "日志等级 warning"] ∧
  length <$> files (obs (main "" "" "" (Reference.start : Reference.core))) = [4; 3]%nat.
Proof.
  split; [reflexivity |].
  by rewrite (complex_filter_files "" "" "" (Reference.start : Reference.core)).
Defined.
End ComplexFilter.

(** * [lang/log.cpp] *)
Module SampleLog.
Definition fmt (r : attrs) : string :=
  put_unsigned (λ n, setw 8 (to_hex n)) r "LineID" ++ ": <" ++ put_severity r "Severity" ++ ">" ++
  tab ++ "(" ++ put_reading r "Scope" ++ ") " ++
  (if has_string r "Tag" then "[" ++ put_string r "Tag" ++ "] " else "") ++
  (if has_reading r "Timeline" then "[" ++ put_reading r "Timeline" ++ "] " else "") ++
  put_string r "Message".

Section program.
Context {K : Type} `{LogCore K} (clock pid tid scope timer : string).

(** [BOOST_LOG_NAMED_SCOPE]: it changes what the attribute [Scope] reads, and a
    reading may be anything. *)
Definition named_scope (n : string) (body : K → K) (k : K) : K := body k.

Definition logging_function (k : K) : K :=
  let k := log_sev ∅ normal "A regular message" k in
  let k := log_sev ∅ warning "Something bad is going on but I can handle it" k in
  log_sev ∅ critical "Everything crumbles, shoot me now!" k.

Definition named_scope_logging (k : K) : K :=
  named_scope "named_scope_logging"
    (log_sev ∅ normal "Hello from the function named_scope_logging!") k.

Definition tagged_logging (k : K) : K :=
  let slg := (insert_attr "Tag" (VString "My tag value") ∅).1 in
  log_sev slg normal "Here goes the tagged record" k.

Definition timed_logging (k : K) : K :=
  scoped "Timeline" (VOther timer) (λ k,
    let k := log_sev ∅ normal "Starting to time nested functions" k in
    let k := logging_function k in
    log_sev ∅ normal "Stopping to time nested functions" k) k.

Definition init (k : K) : K :=
  let k := add_sink (Sink (λ _, true) fmt) k in
  let k := add_common_attributes clock pid tid k in
  add_global_attribute "Scope" (VOther scope) k.

Definition main (k : K) : K :=
  timed_logging (tagged_logging (named_scope_logging (init k))).
End program.

(** A line: its number, level, tag and message, with any reading of the scope,
    and a reading of the timer if there is one. *)
Record entry := Entry { number : Z; level : Z; tag : option string; timed : bool; text : string }.
Definition line (e : entry) (s : string) : Prop :=
  ∃ sc tl : string, s =
    setw 8 (to_hex (number e)) ++ ": <" ++ level_text (level e) ++ ">" ++ tab ++ "(" ++ sc ++ ") " ++
    match tag e with Some t => "[" ++ t ++ "] " | None => "" end ++
    (if timed e then "[" ++ tl ++ "] " else "") ++ text e.

Section proofs.
Context {K : Type} `{LogCoreLaws K}.

Definition reads (g : attrs) (n : string) : Prop := ∃ s, g !! n = Some (VOther s).

Lemma evolves_reads c g g' n : n ∉ c → evolves c g g' → reads g n → reads g' n.
Proof.
  intros Hn (_ & _ & He) [s Hs]. destruct (He n _ Hn Hs) as (y & Hy & [-> | [_ Hr]]); [by exists s |].
  destruct y; try done. by eexists.
Qed.

(** The state between two statements: the entries written so far, the number of
    the next one, and whether the timer runs. *)
Definition going (es : list entry) (n : Z) (t : bool) (v : view) : Prop :=
  numbered n v ∧ sinks v = [Sink (λ _, true) fmt] ∧ ("Scope" ∉ counters v) ∧
  reads (global v) "Scope" ∧ ("Scope" ∉ dom (thread v)) ∧ thread v !! "Tag" = None ∧
  (if t then reads (thread v) "Timeline" else thread v = ∅) ∧
  ∃ f, files v = [f] ∧ Forall2 line es f.

Lemma going_log es n t tg l msg (k : K) :
  going es n t (obs k) →
  going (es ++ [Entry n l tg t msg])%list (next_number n) t
    (obs (log_sev (tag_attrs tg) l msg k)).
Proof.
  intros (Hn & Hs & Hc & Hg & Hsc & Htag & Ht & f & Hf & Hl).
  assert (∀ m, m ≠ "Tag" → tag_attrs tg !! m = None) as Ham.
  { intros m Hm. destruct tg; [by apply lookup_singleton_ne | done]. }
  assert (tag_attrs tg !! "Tag" = VString <$> tg) as HaT by by destruct tg.
  destruct (log_at_numbered n (tag_attrs tg) (VSeverity l) msg k Hn)
    as (t' & g & Et & Eg & Hobs & Hr & Hn' & Hd); [by apply Ham.. |].
  destruct Hr as (HL & HS & HM & HT & HSc). unfold log_sev.
  split_and!; [done | by rewrite Hobs | by rewrite Hobs | | | | |]; rewrite Hobs; simpl.
  - by eapply (evolves_reads (counters (obs k))).
  - by rewrite (proj1 Et).
  - apply not_elem_of_dom. rewrite (proj1 Et). by apply not_elem_of_dom.
  - destruct t.
    + by eapply (evolves_reads ∅).
    + apply (dom_empty_inv_L (D := gset string)). by rewrite (proj1 Et), Ht.
  - rewrite Hs, Hf. simpl. eexists. split; [done |]. apply Forall2_app; [done |].
    constructor; [| done]. destruct Hg as [sc Hg].
    rewrite lookup_union_r in HSc.
    2: { apply lookup_union_None. split; [by apply Ham | by apply not_elem_of_dom]. }
    pose proof (HT "Tag" ltac:(set_solver)) as HTg. pose proof (HT "Timeline" ltac:(set_solver)) as HTl.
    rewrite lookup_union, Htag, (right_id_L None _), HaT in HTg.
    rewrite lookup_union, (Ham "Timeline"), (left_id_L None _) in HTl by done.
    unfold line, fmt, put_unsigned, put_severity, put_string, put_reading, has_string, has_reading.
    simpl. rewrite HL, HS, HM, HSc, Hg, HTg, HTl. exists sc.
    destruct t; [destruct Ht as [tl ->]; exists tl | rewrite Ht, lookup_empty; exists ""];
      by destruct tg.
Qed.

Lemma init_going clock pid tid scope (k : K) :
  obs k = Reference.start → going [] 1 false (obs (init clock pid tid scope k)).
Proof.
  intros Hk. unfold init. set (k1 := add_sink _ _).
  assert (obs k1 = with_sinks [Sink (λ _, true) fmt] [[]] Reference.start) as E.
  { unfold k1. by rewrite !sink_added, Hk. }
  destruct (common_numbered clock pid tid k1) as (Hn & Hs & Hf & Ht & Hc & Hg); rewrite ?E in *; try done.
  rewrite global_added, insert_attr_fresh by done. unfold with_global.
  split_and!; simpl; rewrite ?Hs, ?Ht, ?Hf; try done.
  - destruct Hn as (? & ? & ? & ? & ? & Ho & ? & ?). split_and!; simpl; try done.
    + by rewrite lookup_insert_ne.
    + intros m Hm. rewrite dom_insert_L. specialize (Ho m Hm). unfold own_names in *. set_solver.
  - rewrite Hc. simpl. set_solver.
  - eexists. apply lookup_insert_eq.
  - by exists [].
Qed.

(** The timer is added before [timed_logging]'s first record and removed after
    its last. *)
Lemma going_timed es n timer (k : K) :
  going es n false (obs k) →
  ∃ f, files (obs (timed_logging timer k)) = [f] ∧
    Forall2 line (es ++ [Entry n normal None true "Starting to time nested functions";
      Entry (next_number n) normal None true "A regular message";
      Entry (next_number (next_number n)) warning None true
        "Something bad is going on but I can handle it";
      Entry (next_number (next_number (next_number n))) critical None true
        "Everything crumbles, shoot me now!";
      Entry (next_number (next_number (next_number (next_number n)))) normal None true
        "Stopping to time nested functions"])%list f.
Proof.
  intros (Hn & Hs & Hc & Hg & Hsc & Htag & Ht & Hf).
  pose proof (thread_added "Timeline" (VOther timer) k) as Ha.
  rewrite insert_attr_fresh in Ha by by rewrite Ht. rewrite Ht in Ha.
  unfold timed_logging, scoped, logging_function.
  destruct (add_thread_attribute "Timeline" (VOther timer) k) as [k1 b].
  destruct Ha as [Hb Ha]. simpl in Hb, Ha. subst b.
  assert (going es n true (obs k1)) as Hg1.
  { rewrite Ha. split_and!; try done; [|by eexists].
    destruct Hn as (? & ? & ? & ? & ? & ? & ? & ?). split_and!; simpl; try done; by vm_compute. }
  apply (going_log _ _ _ None normal "Starting to time nested functions") in Hg1.
  apply (going_log _ _ _ None normal "A regular message") in Hg1.
  apply (going_log _ _ _ None warning "Something bad is going on but I can handle it") in Hg1.
  apply (going_log _ _ _ None critical "Everything crumbles, shoot me now!") in Hg1.
  apply (going_log _ _ _ None normal "Stopping to time nested functions") in Hg1.
  rewrite <- !(assoc_L (++)) in Hg1. rewrite thread_removed. simpl. apply Hg1.
Qed.

(** The log of [lang/log.cpp].  Over any core that behaves as documented, the
    program writes seven lines to [sample.log], numbered from 1 in eight
    hexadecimal digits: the tag appears on the record of the tagged logger and on
    no other, the timer on all records between the start and the end of
    [timed_logging], the three of the nested function included, and on no other. *)
Theorem sample_log (clock pid tid scope timer : string) (k : K) :
  obs k = Reference.start →
  ∃ f, files (obs (main clock pid tid scope timer k)) = [f] ∧ Forall2 line
    [Entry 1 normal None false "Hello from the function named_scope_logging!";
     Entry 2 normal (Some "My tag value") false "Here goes the tagged record";
     Entry 3 normal None true "Starting to time nested functions";
     Entry 4 normal None true "A regular message";
     Entry 5 warning None true "Something bad is going on but I can handle it";
     Entry 6 critical None true "Everything crumbles, shoot me now!";
     Entry 7 normal None true "Stopping to time nested functions"] f.
Proof.
  intros Hk. pose proof (init_going clock pid tid scope k Hk) as Hg.
  apply (going_log _ _ _ None normal "Hello from the function named_scope_logging!") in Hg.
  apply (going_log _ _ _ (Some "My tag value") normal "Here goes the tagged record") in Hg.
  apply (going_timed _ _ timer) in Hg.
  destruct Hg as (f & Hf & Hl). exists f. split; [exact Hf | exact Hl].
Qed.
End proofs.

Lemma sample_log_witness :
  ∃ f, files (obs (main "" "" "" "main" "0.1" (Reference.start : Reference.core))) = [f] ∧
    length f = 7%nat.
Proof.
  pose proof (sample_log "" "" "" "main" "0.1" (Reference.start : Reference.core)) as Hs.
  destruct (Hs eq_refl) as (f & Hf & Hl).
  exists f. split; [exact Hf |]. apply Forall2_length in Hl. by rewrite <- Hl.
Defined.
End SampleLog.
