(* ===== verification/LogDemos.v ===== *)
(** The other Boost.Log programs of [src/code/boost_doc/log/src]: the global
    filters ([tutorial/trivial.cpp], [simple_filter.cpp], [sinks.cpp],
    [dedicated_log.cpp]), the formatter of [tutorial/formatter.cpp], the
    attributes of [tutorial/Attributes.cpp], the four ways to read a record
    ([detailed/record.cpp]), the core and its exception handler
    ([detailed/core.cpp]) and the two type dispatchers ([utilities.cpp]). *)
From S2P Require Import Prelude LogCore LogSources LogPrograms.
From stdpp Require Import pretty.
Import SeverityLogger Printing.
Open Scope string_scope.
Open Scope Z_scope.

Definition nl : string := String (Ascii.ascii_of_nat 10) "".

(** [boost::log::trivial::severity_level]. *)
Module Trivial.
Definition trace : Z := 0.
Definition debug : Z := 1.
Definition info : Z := 2.
Definition warning : Z := 3.
Definition error : Z := 4.
Definition fatal : Z := 5.
End Trivial.

(** * Global filters on the level *)
Module Filters.
(** [trivial::severity >= t]; a record without a level does not pass. *)
Definition at_least (t : Z) (r : attrs) : bool :=
  match r !! "Severity" with Some (VTrivial l) => t <=? l | _ => false end.

Section programs.
Context {K : Type} `{LogCore K} (clock pid tid : string).

Definition simple_filter_main (k : K) : K := set_filter (at_least Trivial.error) k.
Definition trivial_init (k : K) : K := set_filter (at_least Trivial.warning) k.

(** [BOOST_LOG_TRIVIAL(l) << msg]. *)
Definition log_trivial (l : Z) (msg : string) (k : K) : K := log_at ∅ (VTrivial l) msg k.
Definition log_all (msgs : list (Z * string)) (k : K) : K :=
  foldl (λ k '(l, msg), log_trivial l msg k) k msgs.

Definition six : list (Z * string) :=
  [(Trivial.trace, "this is a trace message"); (Trivial.debug, "this is a debug message");
   (Trivial.info, "this is a info message"); (Trivial.warning, "this is a warning message");
   (Trivial.error, "this is a error message"); (Trivial.fatal, "this is a fatal message")].
Definition trivial_main (k : K) : K := log_all six (trivial_init k).

(** The sink of [sinks.cpp] and [dedicated_log.cpp]: ["[%TimeStamp%]: %Message%"]. *)
Definition stamped (r : attrs) : string :=
  "[" ++ put_reading r "TimeStamp" ++ "]: " ++ put_string r "Message".
Definition sinks_init (k : K) : K :=
  set_filter (at_least Trivial.info) (add_sink (Sink (λ _, true) stamped) k).
Definition sinks_main (k : K) : K :=
  log_all ((Trivial.error, "此条日志无时间戳") :: six)
    (add_common_attributes clock pid tid (sinks_init k)).

(** [trivial::severity > trivial::trace]. *)
Definition above_trace (r : attrs) : bool :=
  match r !! "Severity" with Some (VTrivial l) => Trivial.trace <? l | _ => false end.
Definition dedicated_global_init (k : K) : K :=
  set_filter above_trace (add_sink (Sink (λ _, true) stamped) k).
End programs.

Section proofs.
Context {K : Type} `{LogCoreLaws K}.

(** A core that filters by level only: everything at the level [t] or above
    reaches a sink. *)
Definition filtering (t : Z) (v : view) : Prop :=
  enabled v = true ∧ global_filter v = at_least t ∧
  match sinks v with s :: _ => ∀ r, consumes s r = true | [] => True end ∧
  free_names ["Severity"; "Message"] v.

Lemma filtering_admits t v l : filtering t v →
  admitted v (collected v (at_level (VTrivial l) ∅)) = (t <=? l).
Proof.
  intros (He & Hf & Hs & _). unfold admitted. rewrite He, Hf. simpl. unfold at_least.
  rewrite (collected_source v _ "Severity" (VTrivial l)) by apply lookup_insert_eq.
  destruct (t <=? l); [simpl | done]. destruct (sinks v) as [| s ss]; [done |]. simpl. by rewrite Hs.
Qed.

(** One statement: at the level or above it reaches the sinks, with what the
    core supplies; below it nothing changes that a later record could see. *)
Lemma log_trivial_filtering t l msg (k : K) : filtering t (obs k) →
  let k' := log_trivial l msg k in
  filtering t (obs k') ∧
  ((t <=? l) = true ∧ (∃ r t g, evolves ∅ (thread (obs k)) t ∧
      evolves (counters (obs k)) (global (obs k)) g ∧ obs k' = write_record r (asked t g (obs k)) ∧
      targets r = (λ s, consumes s (collected (obs k) (at_level (VTrivial l) ∅))) <$> sinks (obs k) ∧
      values r = <["Message" := VString msg]> (collected (obs k) (at_level (VTrivial l) ∅))) ∨
   (t <=? l) = false ∧ ∃ t g c, evolves ∅ (thread (obs k)) t ∧ c ⊆ counters (obs k) ∧
      evolves c (global (obs k)) g ∧ obs k' = asked t g (obs k)).
Proof.
  intros Hk. pose proof (filtering_admits t (obs k) l Hk) as Ha.
  destruct Hk as (He & Hf & Hs & Hn). unfold log_trivial, log_at.
  assert (collected (obs k) (at_level (VTrivial l) ∅) !! "Message" = None) as Hm.
  { rewrite collected_common; [| unfold at_level; by rewrite lookup_insert_ne].
    apply (free_names_lookup ["Severity"; "Message"]); [done | right; left]. }
  destruct (t <=? l).
  - destruct (log_admitted (at_level (VTrivial l) ∅) [("Message", VString msg)] k Ha)
      as (t' & g & Ht & Hg & ->).
    split; [split_and!; try done; by apply (free_names_with _ (obs k)); [apply Ht | apply Hg |] |].
    left. split; [done |]. eexists _, t', g. split_and!; [done | done | done | done |].
    simpl. by rewrite insert_attr_fresh.
  - destruct (log_refused (at_level (VTrivial l) ∅) [("Message", VString msg)] k Ha)
      as (t' & g & c & Ht & Hc & Hg & ->).
    split; [split_and!; try done; by apply (free_names_with _ (obs k)); [apply Ht | apply Hg |] |].
    right. split; [done |]. by exists t', g, c.
Qed.

Definition shows (p : Z * string) (r : attrs) : Prop :=
  r !! "Severity" = Some (VTrivial p.1) ∧ r !! "Message" = Some (VString p.2).

(** The global filters.  Over any core that filters by level and whose sinks
    take everything, the records of [BOOST_LOG_TRIVIAL] that are logged are
    exactly those whose level is at least the filter's, in the order of the
    statements, each with its level and message. *)
Theorem trivial_filter (t : Z) (msgs : list (Z * string)) (k : K) :
  filtering t (obs k) →
  ∃ rs, pushed (obs (log_all msgs k)) = (pushed (obs k) ++ rs)%list ∧
    Forall2 shows (base.filter (λ p, t <= p.1) msgs) rs.
Proof.
  revert k. induction msgs as [| [l msg] msgs IH]; intros k Hk; simpl.
  { exists []. by rewrite app_nil_r. }
  destruct (log_trivial_filtering t l msg k Hk) as (Hk' & Hl).
  destruct (IH _ Hk') as (rs & Hrs & Hf). rewrite filter_cons. simpl.
  destruct Hl as [(Hl%Z.leb_le & r & t' & g & _ & _ & Ho & _ & Hr) | (Hl%Z.leb_gt & t' & g & c & _ & _ & _ & Ho)].
  - rewrite decide_True by done. exists (values r :: rs). rewrite Hrs, Ho. simpl.
    rewrite <- (assoc_L (++)). split; [done |]. constructor; [| done]. split; simpl; rewrite Hr.
    + rewrite lookup_insert_ne by done. apply collected_source, lookup_insert_eq.
    + apply lookup_insert_eq.
  - rewrite decide_False by lia. exists rs. by rewrite Hrs, Ho.
Qed.

(** A core that stamps: the clock is a global attribute that nothing hides. *)
Definition stamping (v : view) : Prop :=
  SampleLog.reads (global v) "TimeStamp" ∧ ("TimeStamp" ∉ counters v) ∧
  thread v !! "TimeStamp" = None.

Lemma stamping_asked t g c v :
  stamping v → evolves ∅ (thread v) t → c ⊆ counters v → evolves c (global v) g →
  stamping (asked t g v).
Proof.
  intros (Hg & Hn & Ht) [Et _] Hc Eg. split_and!; simpl; [| done |].
  - eapply (SampleLog.evolves_reads c); [set_solver | done | done].
  - apply not_elem_of_dom. rewrite Et. by apply not_elem_of_dom.
Qed.

Lemma stamping_collected v x : stamping v → SampleLog.reads (collected v (at_level x ∅)) "TimeStamp".
Proof.
  intros ([s Hg] & _ & Ht). exists s. rewrite collected_common by done.
  by rewrite lookup_union_r.
Qed.

(** The records such a core logs are all stamped, the first one of [sinks.cpp]
    included, whose text says it has no time stamp. *)
Theorem sinks_stamped (t : Z) (msgs : list (Z * string)) (k : K) :
  filtering t (obs k) → stamping (obs k) →
  ∃ rs, pushed (obs (log_all msgs k)) = (pushed (obs k) ++ rs)%list ∧
    Forall2 (λ p r, shows p r ∧ SampleLog.reads r "TimeStamp") (base.filter (λ p, t <= p.1) msgs) rs.
Proof.
  intros Hk Hs. destruct (trivial_filter t msgs k Hk) as (rs & Hp & Hf). exists rs. split; [done |].
  assert (Forall (λ r, SampleLog.reads r "TimeStamp") rs) as Hr.
  { clear Hf. revert k rs Hk Hs Hp.
    induction msgs as [| [l msg] msgs IH]; intros k rs Hk Hs Hp; simpl in Hp.
    { rewrite <- (app_nil_r (pushed _)) in Hp at 1. by simplify_list_eq. }
    destruct (log_trivial_filtering t l msg k Hk) as (Hk' & Hl).
    destruct (trivial_filter t msgs _ Hk') as (qs & Hq & _).
    destruct Hl as [(_ & r & t' & g & Ht & Hg & Ho & _ & Hr) | (_ & t' & g & c & Ht & Hc & Hg & Ho)].
    - pose proof (stamping_asked t' g _ _ Hs Ht (reflexivity _) Hg) as Hs'.
      pose proof Hp as Hp'. rewrite Hq, Ho in Hp'. simpl in Hp'.
      rewrite <- (assoc_L (++)) in Hp'. apply app_inv_head in Hp'. subst rs. constructor.
      + rewrite Hr. destruct (stamping_collected (obs k) (VTrivial l) Hs) as [s E]. exists s.
        by rewrite lookup_insert_ne.
      + apply (IH _ qs Hk'); [| done]. rewrite Ho. exact Hs'.
    - pose proof (stamping_asked t' g _ _ Hs Ht Hc Hg) as Hs'.
      apply (IH _ rs Hk'); [by rewrite Ho |]. by rewrite Hp, Ho. }
  clear Hp. induction Hf; inversion_clear Hr; constructor; auto.
Qed.
End proofs.

Lemma trivial_filter_witness :
  base.filter (λ p, 3 <= p.1) six = drop 3 six ∧
  ∃ rs, pushed (obs (trivial_main (Reference.start : Reference.core))) = rs ∧
    Forall2 shows (base.filter (λ p, Trivial.warning <= p.1) six) rs.
Proof.
  split; [reflexivity |].
  destruct (trivial_filter Trivial.warning six (trivial_init (Reference.start : Reference.core)))
    as (rs & Hp & Hf).
  - split_and!; try done. repeat constructor; set_solver.
  - exists rs. split; [exact Hp | exact Hf].
Defined.
End Filters.

(** * [detailed/record.cpp]: four ways to read the level of a record *)
Module RecordReaders.
Section readers.
(** How the library prints one of its levels. *)
Context (show : Z → string).
Implicit Types (rec : record).

(** The visitor is called when the value is there and has the type. *)
Definition via_visitation rec : string :=
  match values rec !! "Severity" with Some (VTrivial l) => show l ++ nl | _ => "" end.

(** [value_ref]: a reference that may refer to nothing, which prints nothing. *)
Definition put_ref (level : option Z) : string := match level with Some l => show l | None => "" end.
Definition extract (x : option value) : option Z :=
  match x with Some (VTrivial l) => Some l | _ => None end.
Definition via_extract rec : string := put_ref (extract (values rec !! "Severity")) ++ nl.
Definition via_lookup rec : string :=
  match values rec !! "Severity" with
  | Some x => put_ref (extract (Some x)) ++ nl
  | None => ""
  end.
Definition via_subscript rec : string := put_ref (extract (values rec !! "Severity")) ++ nl.

Context {K : Type} `{LogCoreLaws K}.

Definition via_record (rec : record) (k : K) : string * K :=
  let k := log_at ∅ (VTrivial Trivial.warning) "日志级别: warning" k in
  (via_visitation rec ++ via_extract rec ++ via_lookup rec ++ via_subscript rec, k).

(** [main]: a record opened with no attributes; reading one that was not opened
    is undefined. *)
Definition main (k : K) : outcome (string * K) :=
  match open_record ∅ k with
  | (k, Some rec) => Ok (via_record rec k)
  | (k, None) => UB
  end.

(** When the four agree: they do on a level of the library's type; without the
    attribute the visitor and the lookup print nothing and the other two an empty
    line; on a value of another type only the visitor prints nothing. *)
Theorem record_readers rec :
  via_subscript rec = via_extract rec ∧
  match values rec !! "Severity" with
  | Some (VTrivial l) => via_visitation rec = show l ++ nl ∧ via_extract rec = show l ++ nl ∧
                         via_lookup rec = show l ++ nl
  | Some _ => via_visitation rec = "" ∧ via_extract rec = nl ∧ via_lookup rec = nl
  | None => via_visitation rec = "" ∧ via_extract rec = nl ∧ via_lookup rec = ""
  end.
Proof.
  unfold via_subscript, via_visitation, via_extract, via_lookup.
  split; [done |]. by destruct (values rec !! "Severity") as [[] |].
Qed.

(** The program: the record it opens has no level, so that of the four readers
    two print nothing and two an empty line. *)
Theorem record_main_prints (k : K) :
  admitted (obs k) (collected (obs k) ∅) = true →
  (thread (obs k) ∪ global (obs k)) !! "Severity" = None →
  ∃ k', main k = Ok (nl ++ nl, k').
Proof.
  intros Ha Hs. unfold main. destruct (open_opens ∅ k Ha) as (k' & t & g & -> & _).
  eexists. unfold via_record. f_equal. f_equal.
  assert (collected (obs k) ∅ !! "Severity" = None) as E by by rewrite collected_common.
  unfold via_visitation, via_extract, via_lookup, via_subscript. simpl. rewrite E. done.
Qed.
End readers.

Lemma record_main_prints_witness :
  ∃ k', main (λ l, pretty l) (Reference.start : Reference.core) = Ok (nl ++ nl, k').
Proof.
  pose proof (record_main_prints (λ l, pretty l) (Reference.start : Reference.core)) as Hm.
  exact (Hm eq_refl eq_refl).
Defined.
End RecordReaders.

(** * [utilities.cpp]: type dispatchers *)
Module Dispatch.
(** The types a value may have, and a value as the text it is printed as. *)
Inductive ctype := tint | tdouble | tstring | tother (n : nat).
#[global] Instance ctype_eq_dec : EqDecision ctype.
Proof. solve_decision. Defined.
Record my_value := Value { type_of : ctype; m_value : string }.

(** A dispatcher: the callback it holds for a type, if any. *)
Definition dispatcher : Type := ctype → option (string → string).
Definition get_callback (T : ctype) (d : dispatcher) : option (string → string) := d T.

(** [my_value<T>::dispatch]: whether a callback was found, and what it prints. *)
Definition dispatch (d : dispatcher) (v : my_value) : bool * string :=
  match get_callback (type_of v) d with
  | Some cb => (true, cb (m_value v))
  | None => (false, "")
  end.

Definition print_visitor (T : ctype) (value : string) : string :=
  match T with
  | tint => "Received int value: " ++ value ++ nl
  | tdouble => "Received double value: " ++ value ++ nl
  | tstring => "Received string value: " ++ value ++ nl
  | tother _ => ""
  end.

(** [static_type_dispatcher<types>]: a visitor for the types of a list. *)
Definition static_type_dispatcher (types : list ctype) (visiter : ctype → string → string)
    : dispatcher :=
  λ T, if bool_decide (T ∈ types) then Some (visiter T) else None.
Definition print (v : my_value) : bool * string :=
  dispatch (static_type_dispatcher [tint; tdouble; tstring] print_visitor) v.

(** [dynamic_type_dispatcher]: empty, then a callback per registered type. *)
Definition on_int (value : string) : string := "Received int value: " ++ value ++ nl.
Definition on_double (value : string) : string := "Received double value: " ++ value ++ nl.
Definition on_string (value : string) : string := "Received string value: " ++ value ++ nl.
Definition register_type (T : ctype) (f : string → string) (d : dispatcher) : dispatcher :=
  λ T', if bool_decide (T' = T) then Some f else d T'.
Definition init_disp (d : dispatcher) : dispatcher :=
  register_type tstring on_string (register_type tdouble on_double (register_type tint on_int d)).
Definition print1 (v : my_value) : bool * string := dispatch (init_disp (λ _, None)) v.

(** The comment of the source calls the dynamic dispatcher an equivalent way
    to write the static one: the two functions print the same text and return the
    same flag for every value, of the three types and of any other, for which
    they print nothing and return false. *)
Theorem print_equivalent (v : my_value) :
  print v = print1 v ∧
  ((print v).1 = false ↔ ∃ n, type_of v = tother n) ∧
  ((print v).1 = false → (print v).2 = "").
Proof. destruct v as [[] x]; cbn; naive_solver. Qed.
End Dispatch.

(** * [detailed/core.cpp] *)
Module CoreDemo.
(** The exceptions the handler is registered for, by the class a handler's
    overloads would catch them as, and any other. *)
Inductive exn := runtime_error (what : string) | logic_error (what : string) | other_exn.

(** The handler: what it prints and, when it throws, what. *)
Definition custom_exception_handler (e : exn) : string * option exn :=
  match e with
  | runtime_error w => ("runtime_error: " ++ w ++ nl, None)
  | logic_error w => ("logic_error: " ++ w ++ nl, Some e)
  | other_exn => ("", Some e)
  end.

Section program.
Context {K : Type} `{LogCore K} (message : attrs → string).

(** [modify_core]; an attribute is removed through the iterator that adding it
    returned, which points to the attribute of that name either way. *)
Definition modify_core (k : K) : K :=
  let k := add_global_counter "LineID" 0 k in
  let k := remove_global_attribute "LineID" k in
  let k := set_filter (Filters.at_least Trivial.error) k in
  let k := set_logging_enabled false k in
  let k := set_logging_enabled true k in
  let i := length (sinks (obs k)) in
  let k := add_sink (Sink (λ _, true) message) k in
  let k := remove_sink i k in
  log ∅ [("Message", VString "这是一条日志")] k.
End program.

Section proofs.
Context {K : Type} `{LogCoreLaws K} (message : attrs → string).

(** [modify_core].  Whatever was configured before, the record the function
    opens has no level, so its own filter refuses it and the message is never
    logged; the sinks are those from before, logging is on, and the line counter
    of the program is gone if it had one, since [add_global_attribute] does not
    replace it and the iterator it returns is handed to
    [remove_global_attribute]. *)
Theorem modify_core_effect (k : K) :
  (thread (obs k) ∪ global (obs k)) !! "Severity" = None →
  length (sinks (obs k)) = length (files (obs k)) →
  let v := obs (modify_core message k) in
  pushed v = pushed (obs k) ∧ sinks v = sinks (obs k) ∧ files v = files (obs k) ∧
  enabled v = true ∧ global_filter v = Filters.at_least Trivial.error ∧
  "LineID" ∉ dom (global v).
Proof.
  intros Hs Hl. unfold modify_core.
  set (k0 := set_logging_enabled true _).
  assert (obs k0 = with_enabled true (with_enabled false (with_filter (Filters.at_least Trivial.error)
    (remove_global "LineID" (add_counter "LineID" 0 (obs k)))))) as E0.
  { unfold k0. by rewrite !enabled_set, filter_set, global_removed, counter_added. }
  assert (sinks (obs k0) = sinks (obs k) ∧ files (obs k0) = files (obs k) ∧ thread (obs k0) = thread (obs k) ∧
    pushed (obs k0) = pushed (obs k)) as (Es & Ef & Et & Ep).
  { rewrite E0. unfold add_counter. by destruct (global (obs k) !! "LineID"). }
  assert (global (obs k0) = delete "LineID" (global (obs k))) as Eg.
  { rewrite E0. unfold add_counter. destruct (global (obs k) !! "LineID") eqn:E; simpl; [done |].
    by rewrite delete_insert_eq. }
  set (k2 := remove_sink _ _).
  assert (obs k2 = with_sinks (sinks (obs k)) (files (obs k)) (obs k0)) as E2.
  { unfold k2. rewrite sink_removed, sink_added. simpl. rewrite Es, Ef.
    rewrite delete_middle. rewrite Hl, delete_middle. by rewrite !app_nil_r. }
  assert (admitted (obs k2) (collected (obs k2) ∅) = false) as Ha.
  { unfold admitted. apply andb_false_iff. left. apply andb_false_iff. right.
    replace (global_filter (obs k2)) with (Filters.at_least Trivial.error) by by rewrite E2, E0.
    unfold Filters.at_least. enough (collected (obs k2) ∅ !! "Severity" = None) as -> by done.
    rewrite collected_common by done. rewrite E2. simpl. rewrite Et, Eg. apply lookup_union_None in Hs as [H1 H2].
    apply lookup_union_None. split; [done |]. by rewrite lookup_delete_ne. }
  destruct (log_refused ∅ [("Message", VString "这是一条日志")] k2 Ha) as (t & g & c & _ & _ & [Hg _] & ->).
  rewrite E2 in *. simpl in *. split_and!; try done; [by rewrite E0.. |].
  rewrite Hg, Eg, dom_delete_L. set_solver.
Qed.
End proofs.

Lemma modify_core_effect_witness :
  let k := add_global_counter "LineID" 1 (Reference.start : Reference.core) in
  global (obs k) !! "LineID" = Some (VUnsigned 1) ∧
  global (obs (modify_core (λ _, "") k)) !! "LineID" = None ∧
  pushed (obs (modify_core (λ _, "") k)) = [].
Proof.
  intros k. split; [reflexivity |].
  pose proof (modify_core_effect (λ _, "") k) as Hm.
  destruct (Hm eq_refl eq_refl) as (Hp & _ & _ & _ & _ & Hg).
  split; [by apply not_elem_of_dom | exact Hp].
Defined.
End CoreDemo.

(** * [tutorial/formatter.cpp] *)
Module Formatter.
Section program.
Context {K : Type} `{LogCore K} (show : Z → string) (clock pid tid : string).

Definition put_trivial (r : attrs) (n : string) : string :=
  match r !! n with Some (VTrivial l) => show l | _ => "" end.
Definition custom_formatter (rec : attrs) : string :=
  put_unsigned (λ n, pretty n) rec "LineID" ++ ": " ++
  "<" ++ put_trivial rec "Severity" ++ ">" ++ put_string rec "Message".

(** The formatters of the functions that [main] does not call: in a stream, in
    hexadecimal, with the date as [format_date_time] writes it, and by name. *)
Definition put_date (format_date_time : string → string) (r : attrs) (n : string) : string :=
  match r !! n with Some (VOther s) => format_date_time s | _ => "" end.
Definition method1 (rec : attrs) : string :=
  put_unsigned (λ n, pretty n) rec "LineID" ++ ": " ++ put_trivial rec "Severity" ++ "> " ++ put_string rec "Message".
Definition method2 (rec : attrs) : string :=
  put_unsigned (λ n, setw 8 (to_hex n)) rec "LineID" ++ ": " ++ put_trivial rec "Severity" ++ "> " ++
  put_string rec "Message".
Definition style2 (format_date_time : string → string) (rec : attrs) : string :=
  put_date format_date_time rec "TimeStamp" ++ ": " ++ put_trivial rec "Severity" ++ "> " ++ put_string rec "Message".
Definition text_style (rec : attrs) : string :=
  "[" ++ put_reading rec "TimeStamp" ++ ":] " ++ put_string rec "Message".

(** A sink of its own, on a file or a stream, with no filter. *)
Definition add_log (fmt : attrs → string) (k : K) : K := add_sink (Sink (λ _, true) fmt) k.
Definition init_method1 (k : K) : K := add_log method1 k.
Definition init_method2 (k : K) : K := add_log method2 k.
Definition init_style2 (format_date_time : string → string) (k : K) : K := add_log (style2 format_date_time) k.
Definition text_style_formatter (k : K) : K := add_log text_style k.
Definition init_custom_formatter (k : K) : K := add_log custom_formatter k.

Definition six : list (Z * string) :=
  [(Trivial.trace, "日志等级：trace"); (Trivial.debug, "日志等级：debug");
   (Trivial.info, "日志等级：info"); (Trivial.warning, "日志等级：warning");
   (Trivial.error, "日志等级：error"); (Trivial.fatal, "日志等级：fatal")].
(** [main], with the function that it calls to set the formatter. *)
Definition main_with (init : K → K) (k : K) : K :=
  Filters.log_all six (add_common_attributes clock pid tid (init k)).
Definition main (k : K) : K := main_with init_custom_formatter k.
End program.

Section proofs.
Context {K : Type} `{LogCoreLaws K} (show : Z → string).

(** A formatter, and the line it makes of a message by its number, level and text. *)
Definition formats (fmt : attrs → string) (line : Z → Z * string → string) : Prop :=
  ∀ n l msg r, r !! "LineID" = Some (VUnsigned n) → r !! "Severity" = Some (VTrivial l) →
    r !! "Message" = Some (VString msg) → fmt r = line n (l, msg).

Fixpoint numbered_lines (line : Z → Z * string → string) (n : Z) (msgs : list (Z * string)) : list string :=
  match msgs with [] => [] | p :: msgs => line n p :: numbered_lines line (next_number n) msgs end.

Lemma log_all_lines fmt line msgs : formats fmt line → ∀ n f (k : K),
  numbered n (obs k) → sinks (obs k) = [Sink (λ _, true) fmt] → files (obs k) = [f] →
  files (obs (Filters.log_all msgs k)) = [(f ++ numbered_lines line n msgs)%list].
Proof.
  intros Hfmt. induction msgs as [| [l msg] msgs IH]; intros n f k Hn Hs Hf; simpl.
  { by rewrite app_nil_r. }
  destruct (log_at_numbered n ∅ (VTrivial l) msg k Hn) as (t & g & _ & _ & Hobs & Hr & Hn' & _); [done.. |].
  unfold Filters.log_trivial. rewrite (IH (next_number n) (f ++ [line n (l, msg)])%list); [| done | |].
  - by rewrite <- (assoc_L (++)%list).
  - by rewrite Hobs.
  - rewrite Hobs. simpl. rewrite Hs, Hf. simpl. destruct Hr as (HL & HS & HM & _).
    by rewrite (Hfmt _ _ _ _ HL HS HM).
Qed.

(** Whatever formatter the program installs, it writes its six messages in order,
    numbered from 1. *)
Lemma main_lines fmt line (clock pid tid : string) (k : K) :
  formats fmt line → obs k = Reference.start →
  files (obs (main_with clock pid tid (add_log fmt) k)) = [numbered_lines line 1 six].
Proof.
  intros Hfmt Hk. unfold main_with, add_log. set (k1 := add_sink _ _).
  assert (obs k1 = with_sinks [Sink (λ _, true) fmt] [[]] Reference.start) as E.
  { unfold k1. by rewrite sink_added, Hk. }
  destruct (common_numbered clock pid tid k1) as (Hn & Hs & Hf & _); rewrite ?E in *; try done.
  by rewrite (log_all_lines fmt line six Hfmt 1 [] _ Hn).
Qed.

Definition line (n : Z) (p : Z * string) : string := pretty n ++ ": <" ++ show p.1 ++ ">" ++ p.2.
Definition lines : Z → list (Z * string) → list string := numbered_lines line.

(** The program writes its six messages, numbered from 1, each with its level. *)
Theorem formatter_lines (clock pid tid : string) (k : K) :
  obs k = Reference.start →
  files (obs (main show clock pid tid k)) = [lines 1 six].
Proof.
  apply main_lines. intros n l msg r HL HS HM. unfold custom_formatter, put_unsigned, put_trivial, put_string.
  by rewrite HL, HS, HM.
Qed.

(** With the formatters of the other two functions that write the number: in
    decimal, or in eight hexadecimal digits. *)
Theorem method_lines (clock pid tid : string) (k : K) :
  obs k = Reference.start →
  files (obs (main_with clock pid tid (init_method1 show) k)) =
    [numbered_lines (λ n p, pretty n ++ ": " ++ show p.1 ++ "> " ++ p.2) 1 six] ∧
  files (obs (main_with clock pid tid (init_method2 show) k)) =
    [numbered_lines (λ n p, setw 8 (to_hex n) ++ ": " ++ show p.1 ++ "> " ++ p.2) 1 six].
Proof.
  intros Hk. split; (apply main_lines; [| done]); intros n l msg r HL HS HM;
    unfold method1, method2, put_unsigned, put_trivial, put_string; by rewrite HL, HS, HM.
Qed.
End proofs.

Lemma formatter_lines_witness :
  files (obs (main (λ _, "lvl") "" "" "" (Reference.start : Reference.core))) !! 0%nat ≫= (.!! 5%nat)
    = Some "6: <lvl>日志等级：fatal".
Proof.
  pose proof (formatter_lines (λ _, "lvl") "" "" "" (Reference.start : Reference.core)) as Hf.
  rewrite (Hf eq_refl). reflexivity.
Defined.
End Formatter.

(** * [tutorial/Attributes.cpp] *)
Module Attributes.
Section program.
Context {K : Type} `{LogCore K} (clock scope timer : string).

Definition init (k : K) : K :=
  let k := log_sev ∅ normal "日志级别：normal" k in
  let k := log_sev ∅ notification "日志级别：notification" k in
  let k := log_sev ∅ warning "日志级别：warning" k in
  let k := log_sev ∅ error "日志级别：error" k in
  log_sev ∅ critical "日志级别：critical" k.

Definition manual_loggong (k : K) : K := log_by_hand ∅ normal "Some Message" k.

Definition add_common_attributes (k : K) : K :=
  let k := add_global_counter "LineID" 1 k in
  let k := add_global_attribute "TimeStamp" (VOther clock) k in
  add_global_attribute "Scope" (VOther scope) k.

Definition name_scope_logging (k : K) : K :=
  SampleLog.named_scope "命名空间" (log_sev ∅ critical "自定义命名空间日志") k.

Definition tagged_logging (k : K) : K :=
  let slg := (insert_attr "Tag" (VString "自定义Tag") ∅).1 in
  log_sev slg critical "自定义Tag日志" k.

Definition timed_logging (k : K) : K :=
  scoped "TimeLine" (VOther timer) (λ k,
    let k := log_sev ∅ normal "Starting to time nested functions" k in
    let k := init k in
    log_sev ∅ normal "Stopping to time nested functions" k) k.
End program.

Section proofs.
Context {K : Type} `{LogCoreLaws K}.

(** What runs in a scope keeps the names of the thread's attributes, and what it
    logs has them all. *)
Definition in_scope (k k' : K) : Prop :=
  dom (thread (obs k')) = dom (thread (obs k)) ∧
  ∃ rs, pushed (obs k') = (pushed (obs k) ++ rs)%list ∧
    Forall (λ r, dom (thread (obs k)) ⊆ dom r) rs.

#[local] Instance in_scope_trans : Transitive in_scope.
Proof.
  intros k1 k2 k3 (Hd & rs & Hp & Hr) (Hd' & qs & Hq & Hr'). split; [congruence |].
  exists (rs ++ qs)%list. rewrite Hq, Hp, (assoc_L (++)). split; [done |].
  rewrite Hd in Hr'. by apply Forall_app.
Qed.

Lemma insert_attr_dom n x (a : attrs) : dom a ⊆ dom (insert_attr n x a).1.
Proof. unfold insert_attr. destruct (a !! n); simpl; set_solver. Qed.

Lemma log_in_scope a xs k : in_scope k (log a xs k).
Proof.
  destruct (admitted (obs k) (collected (obs k) a)) eqn:Ha.
  - destruct (log_admitted a xs k Ha) as (t & g & [Ht _] & _ & Ho). split; rewrite Ho; [done |].
    eexists. split; [done |]. constructor; [| done].
    assert (∀ r : record, dom (values r) ⊆ dom (values (attach xs r))) as Hx.
    { unfold attach. clear Ho. induction xs as [| [n x] xs IH]; intros r; simpl; [done |].
      etrans; [apply (insert_attr_dom n x) | apply (IH (insert_value n x r))]. }
    etrans; [| apply Hx]. simpl. unfold collected. set_solver.
  - destruct (log_refused a xs k Ha) as (t & g & c & [Ht _] & _ & _ & Ho). split; rewrite Ho; [done |].
    exists []. by rewrite app_nil_r.
Qed.

(** A scope restores the thread's attributes: the one it added is gone, and one
    that was there already (a scope inside a scope of the same name) stays. *)
Lemma scoped_restores n x body k :
  (∀ k, in_scope k (body k)) →
  dom (thread (obs (scoped n x body k))) = dom (thread (obs k)) ∧
  ∃ rs, pushed (obs (scoped n x body k)) = (pushed (obs k) ++ rs)%list ∧ Forall (λ r, n ∈ dom r) rs.
Proof.
  intros Hb. unfold scoped. pose proof (thread_added n x k) as Ha.
  destruct (add_thread_attribute n x k) as [k1 b].
  destruct (Hb k1) as (Hd & rs & Hp & Hr). unfold insert_attr in Ha.
  destruct (thread (obs k) !! n) eqn:E; destruct Ha as [Hb' Ha]; simpl in Hb', Ha; subst b.
  - rewrite Hd, Hp, Ha. simpl. split; [done |]. exists rs. split; [done |].
    eapply Forall_impl; [exact Hr |]. simpl. rewrite Ha. simpl.
    intros r Hsub. apply Hsub. by eapply elem_of_dom_2.
  - rewrite thread_removed. simpl. rewrite dom_delete_L, Hd, Hp, Ha. simpl. rewrite dom_insert_L.
    split; [apply not_elem_of_dom in E; set_solver |]. exists rs. split; [done |].
    eapply Forall_impl; [exact Hr |]. simpl. rewrite Ha. simpl. intros r Hsub. set_solver.
Qed.

(** The comment says the function written by hand is equivalent to the macro. *)
Theorem manual_is_macro (k : K) :
  (thread (obs k) ∪ global (obs k)) !! "Message" = None →
  manual_loggong k = log_sev ∅ normal "Some Message" k.
Proof. intros Hk. by apply log_by_hand_log. Qed.

(** The scoped attribute.  Over any core, every record logged while
    [timed_logging] runs has the timer, those of the nested function included;
    when it returns the thread has the attributes it had before, also when a
    caller's scope had already added one of the same name. *)
Theorem timed_logging_scoped (timer : string) (k : K) :
  dom (thread (obs (timed_logging timer k))) = dom (thread (obs k)) ∧
  ∃ rs, pushed (obs (timed_logging timer k)) = (pushed (obs k) ++ rs)%list ∧
    Forall (λ r, "TimeLine" ∈ dom r) rs.
Proof.
  apply scoped_restores. clear k. intros k. unfold init.
  do 6 (etrans; [| apply log_in_scope]). apply log_in_scope.
Qed.
End proofs.

Lemma manual_is_macro_witness :
  pushed (obs (manual_loggong (Reference.start : Reference.core))) =
  pushed (obs (log_sev ∅ normal "Some Message" (Reference.start : Reference.core))).
Proof.
  pose proof (manual_is_macro (Reference.start : Reference.core)) as Hm. by rewrite (Hm eq_refl).
Defined.
End Attributes.
