(* ===== verification/LogQueue.v ===== *)
(** [boost_doc/log/src/detailed/text_ipc_backend.cpp]: a process whose log goes to
    a message queue that other processes can open, and the viewer that prints
    what it receives.  The queue ([reliable_message_queue]) is Boost's: it is a
    parameter, an instance of the class [MessageQueue] with the behaviour its
    documentation states under [block_on_overflow]. *)
From S2P Require Import Prelude.
From stdpp Require Import pretty.
Open Scope string_scope.
Open Scope list_scope.
Open Scope nat_scope.

(** * The queue *)

(** [send] and [receive]: [None] is a call that blocks. *)
Class MessageQueue (Q : Type) := {
  send : Q → string → option Q;
  receive : Q → option (string * Q);
  messages : Q → list string;
  blocks : string → nat;          (* blocks of 1024 bytes that a message takes *)
  open_or_create : Q              (* a queue that did not exist *)
}.

(** [keywords::capacity], in blocks. *)
Definition capacity : nat := 256.
Definition used {Q} `{MessageQueue Q} (q : Q) : nat := sum_list_with blocks (messages q).

Class MessageQueueLaws (Q : Type) `{MessageQueue Q} := {
  messages_created : messages open_or_create = [];
  send_messages q m q' : send q m = Some q' → messages q' = messages q ++ [m];
  send_blocks q m : send q m = None ↔ capacity < used q + blocks m;
  receive_messages q m q' : receive q = Some (m, q') → messages q = m :: messages q';
  receive_blocks q : receive q = None ↔ messages q = []
}.

(** A queue that is the list of its messages. *)
Definition message_blocks (m : string) : nat := S ((String.length m - 1) / 1024).
#[export] Instance list_queue : MessageQueue (list string) := {|
  send q m := if capacity <? sum_list_with message_blocks q + message_blocks m then None else Some (q ++ [m]);
  receive q := match q with [] => None | m :: q => Some (m, q) end;
  messages q := q;
  blocks := message_blocks;
  open_or_create := []
|}.
#[export] Instance list_queue_laws : MessageQueueLaws (list string).
Proof.
  split; unfold used; simpl.
  - done.
  - intros q m q'. by destruct (Nat.ltb_spec capacity (sum_list_with message_blocks q + message_blocks m)); intros [= <-].
  - intros q m. destruct (Nat.ltb_spec capacity (sum_list_with message_blocks q + message_blocks m)); split; (done || lia).
  - by intros [| x q] m q' [= <- <-].
  - by intros [].
Qed.

(** * The two processes *)
Section processes.
Context {Q : Type} `{MessageQueueLaws Q}.
(** What the attributes read for each record, and the queue that is found. *)
Context (a_timestamp : nat → string) (a_process_id a_thread_id : string) (found : Q).
(** Whether another process runs [process2]; [main] calls only [process1]. *)
Context (viewer : bool).

(** The formatter of the sink. *)
Definition formatted (i : nat) : string :=
  "[" +:+ a_timestamp i +:+ "] [" +:+ a_process_id +:+ ":" +:+ a_thread_id +:+ "]" +:+ "Message #" +:+ pretty i.

Record state := State { queue : Q; i : nat; shown : list string }.
Inductive label := LProcess1 | LProcess2.

Definition step (l : label) (s : state) : outcome state :=
  match l with
  | LProcess1 =>
      _ ← await (i s <? 10);
      match send (queue s) (formatted (i s)) with
      | Some q => Ok (State q (S (i s)) (shown s))
      | None => Blocked
      end
  | LProcess2 =>
      _ ← await viewer;
      match receive (queue s) with
      | Some (m, q) => Ok (State q (i s) (shown s ++ [m]))
      | None => Blocked
      end
  end.

Definition text_ipc : machine := Machine state label (λ s, s = State found 0 []) step.

Lemma used_send q m q' : send q m = Some q' → used q' ≤ capacity.
Proof.
  intros E. unfold used. rewrite (send_messages _ _ _ E), sum_list_with_app. simpl. rewrite Nat.add_0_r.
  apply Nat.nlt_ge. intros Hlt%send_blocks. congruence.
Qed.

(** What was shown and what is queued are what was found and what was logged. *)
Record inv (s : state) : Prop := {
  inv_order : shown s ++ messages (queue s) = messages found ++ (formatted <$> seq 0 (i s));
  inv_i : i s ≤ 10;
  inv_shown : viewer = false → shown s = [];
  inv_room : 0 < i s → used (queue s) ≤ capacity
}.

Lemma text_ipc_inv_step l s s' : inv s → step l s = Ok s' → inv s'.
Proof.
  intros [Ho Hi Hv Hr] Hs. destruct l; simpl in Hs.
  - destruct (Nat.ltb_spec (i s) 10); [simpl in Hs | done].
    destruct (send _ _) as [q |] eqn:E; simplify_eq. split; cbn -[seq]; [| lia | done |].
    + rewrite (send_messages _ _ _ E), seq_S, fmap_app, !(assoc_L (++)), Ho. done.
    + intros _. eapply used_send, E.
  - destruct viewer eqn:Ev; [simpl in Hs | done]. destruct (receive _) as [[m q] |] eqn:E; simplify_eq.
    unfold used in *. rewrite (receive_messages _ _ _ E) in *. split; cbn -[seq]; [| done | congruence |].
    + by rewrite <- Ho, <- (assoc_L (++)).
    + intros Hp. specialize (Hr Hp). unfold used. simpl in *. lia.
Qed.

Lemma text_ipc_inv (s : mstate text_ipc) : reachable s → inv s.
Proof.
  revert s. apply invariant_ind.
  - intros s ->. split; simpl; [by rewrite app_nil_r | lia | done | lia].
  - intros l s s' _ Hi Hs. by eapply text_ipc_inv_step.
Qed.

(** Steps left: messages to send and to receive. *)
Definition ipc_weight (s : state) : nat := 2 * (10 - i s) + length (messages (queue s)).
Lemma ipc_weight_step l s s' : step l s = Ok s' → ipc_weight s' < ipc_weight s.
Proof.
  unfold ipc_weight. destruct l; simpl; intros Hs.
  - destruct (Nat.ltb_spec (i s) 10); [simpl in Hs | done].
    destruct (send _ _) as [q |] eqn:E; simplify_eq. simpl. rewrite (send_messages _ _ _ E), length_app. simpl. lia.
  - destruct viewer; [simpl in Hs | done]. destruct (receive _) as [[m q] |] eqn:E; simplify_eq.
    rewrite (receive_messages _ _ _ E). simpl. lia.
Qed.
End processes.

Section theorems.
Context {Q : Type} `{MessageQueueLaws Q}.
Context (ts : nat → string) (pid tid : string) (found : Q).

(** With a viewer, for messages that fit in an empty queue, under every schedule:
    the lines shown are a prefix of what was found in the queue followed by the
    ten messages in order, and the processes come to rest only when the viewer
    has shown them all. *)
Theorem viewer_shows_all (s : mstate (text_ipc ts pid tid found true)) :
  reachable s → (∀ k, blocks (formatted ts pid tid k) ≤ capacity) →
  let all := messages found ++ (formatted ts pid tid <$> seq 0 10) in
  shown s `prefix_of` all ∧ sn (msteps (text_ipc ts pid tid found true) (λ _, True)) s ∧
  (quiescent (text_ipc ts pid tid found true) (λ _, True) s → shown s = all).
Proof.
  intros Hr Hfit all. destruct (text_ipc_inv _ _ _ _ _ _ Hr) as [Ho Hi _]. split_and!.
  - trans (shown s ++ messages (queue s)); [by eexists |]. rewrite Ho. apply prefix_app.
    replace 10 with (i s + (10 - i s)) by lia. rewrite seq_app, fmap_app. by eexists.
  - apply (sn_measure (text_ipc ts pid tid found true) _ ipc_weight); [| done].
    intros l s1 s2 _ _ Hs. exact (ipc_weight_step _ _ _ _ l s1 s2 Hs).
  - intros Hq. assert (receive (queue s) = None) as Hnone.
    { destruct (receive (queue s)) as [[m q] |] eqn:E; [| done].
      destruct (Hq LProcess2 I (State q (i s) (shown s ++ [m]))). simpl. by rewrite E. }
    apply receive_blocks in Hnone. assert (i s = 10) as Hi10.
    { destruct (decide (i s = 10)) as [| Hne]; [done |].
      destruct (send (queue s) (formatted ts pid tid (i s))) as [q |] eqn:E.
      - destruct (Hq LProcess1 I (State q (S (i s)) (shown s))). simpl.
        destruct (Nat.ltb_spec (i s) 10); [simpl; by rewrite E | lia].
      - apply send_blocks in E. unfold used in E. rewrite Hnone in E. simpl in E. pose proof (Hfit (i s)). lia. }
    unfold all. by rewrite Hnone, app_nil_r, Hi10 in Ho.
Qed.

(** [main] runs no viewer: every run ends, what is logged stays in the queue, and
    the messages sent are as many as fit with what was found there; a program
    that has not sent its ten messages then waits for ever. *)
Theorem unread_log_blocks (s : mstate (text_ipc ts pid tid found false)) :
  let room n := used found + sum_list_with blocks (formatted ts pid tid <$> seq 0 n) in
  reachable s →
  sn (msteps (text_ipc ts pid tid found false) (λ _, True)) s ∧
  messages (queue s) = messages found ++ (formatted ts pid tid <$> seq 0 (i s)) ∧
  (0 < i s → room (i s) ≤ capacity) ∧
  (quiescent (text_ipc ts pid tid found false) (λ _, True) s → i s < 10 → capacity < room (S (i s))).
Proof.
  intros room Hr. destruct (text_ipc_inv _ _ _ _ _ _ Hr) as [Ho Hi Hv Hroom]. rewrite (Hv eq_refl) in Ho. simpl in Ho.
  assert (used (queue s) = room (i s)) as Hu by (unfold used, room; by rewrite Ho, sum_list_with_app).
  rewrite Hu in Hroom. split_and!; [| done | done |].
  - apply (sn_measure (text_ipc ts pid tid found false) _ ipc_weight); [| done].
    intros l s1 s2 _ _ Hs. exact (ipc_weight_step _ _ _ _ l s1 s2 Hs).
  - intros Hq Hlt. destruct (send (queue s) (formatted ts pid tid (i s))) as [q |] eqn:E.
    + destruct (Hq LProcess1 I (State q (S (i s)) (shown s))). simpl.
      destruct (Nat.ltb_spec (i s) 10); [simpl; by rewrite E | lia].
    + apply send_blocks in E. rewrite Hu in E. unfold room in *.
      rewrite seq_S, fmap_app, sum_list_with_app. simpl. lia.
Qed.

(** With messages of one block: the first 25 runs end, the next one waits after
    its sixth message. *)
Corollary unread_log_runs (s : mstate (text_ipc ts pid tid found false)) :
  reachable s → quiescent (text_ipc ts pid tid found false) (λ _, True) s →
  (∀ m, blocks m = 1) → used found ≤ capacity → i s = 10 `min` (capacity - used found).
Proof.
  intros Hr Hq H1 Hf. destruct (unread_log_blocks s Hr) as (_ & _ & Hle & Hgt). specialize (Hgt Hq).
  assert (∀ n, sum_list_with blocks (formatted ts pid tid <$> seq 0 n) = n) as Hs.
  { intros n. trans (length (seq 0 n)); [| apply length_seq]. induction (seq 0 n) as [| k l IH]; [done |]. rewrite fmap_cons. cbn [sum_list_with length]. by rewrite H1, IH. }
  rewrite !Hs in Hle, Hgt. pose proof (inv_i _ _ _ _ _ _ (text_ipc_inv _ _ _ _ _ _ Hr)). lia.
Qed.
End theorems.
