(* ===== verification/Session.v ===== *)
(** A client and a server together.  What the poll client promises (it relays
    the terminal to the socket and back) and what the poll server promises (it
    sends back what it receives) are stated as interfaces; a session runs any
    client against any server over a network that delivers to each side a prefix
    of what the other side's kernel took, and the end-to-end property is proved
    from the two interfaces alone. *)
From S2P Require Import Prelude Posix PollServer.
Open Scope Z_scope.

Abbreviation trace := (list (call * result)).

(** * The interfaces *)

(** A descriptor that is none of the standard ones. *)
Class Descriptor (fd : Z) := descriptor : 3 <= fd.

(** A server that sends every client back what it received from it. *)
Class EchoServer (S : machine) := {
  server_trace : mstate S → trace;
  server_echoes : ∀ s f, reachable s → 3 <= f →
    sent_to f (server_trace s) = received_from f (server_trace s)
}.

(** A client that sends what it reads from its input, and shows what it
    receives. *)
Class RelayClient (C : machine) (sockfd : Z) := {
  client_trace : mstate C → trace;
  client_sends : ∀ c, reachable c →
    sent_to sockfd (client_trace c) = received_from 0 (client_trace c);
  client_shows : ∀ c, reachable c →
    sent_to STDOUT_FILENO (client_trace c) = received_from sockfd (client_trace c)
}.

Lemma poll_server_promise listenfd (p : mstate (poll_server listenfd)) f :
  reachable p → 3 <= f → sent_to f (ktrace (pkern p)) = received_from f (ktrace (pkern p)).
Proof.
  intros (p0 & Hi & Hr)%reachable_anything Hf.
  destruct (poll_invariant _ _ _ _ Hi Hr) as [[He _] _]. apply He. unfold STDOUT_FILENO. lia.
Qed.

Lemma poll_client_promise sockfd (p : mstate (Client.client sockfd)) :
  3 <= sockfd → reachable p → relayed sockfd (pkern p).
Proof.
  intros Hs (p0 & Hi & Hr)%reachable_anything.
  refine (server_invariant _ _ anything (λ _ k, relayed sockfd k) _ _ p0 p Hi Hr).
  - intros _ k (_ & _ & Ht). unfold relayed. by rewrite Ht.
  - intros _ k. by apply handle_connection_relays.
Qed.

#[export] Instance poll_server_echoes listenfd : EchoServer (poll_server listenfd) := {
  server_trace p := ktrace (pkern p);
  server_echoes := poll_server_promise listenfd
}.

#[export] Instance poll_client_relays_terminal (sockfd : Z) `{!Descriptor sockfd} :
  RelayClient (Client.client sockfd) sockfd := {
  client_trace p := ktrace (pkern p);
  client_sends p Hp := proj2 (poll_client_promise sockfd p descriptor Hp);
  client_shows p Hp := proj1 (poll_client_promise sockfd p descriptor Hp)
}.

(** * Lemmas on what the kernel took *)
Lemma accepted_sublist f tr : accepted f tr `sublist_of` sent_to f tr.
Proof.
  induction tr as [| [c r] tr IH]; [done |]. unfold accepted, sent_to in *. simpl.
  apply sublist_app; [done |]. destruct c; try done. case_match; [apply sublist_take | done].
Qed.

Lemma prefix_sublist {A} (l1 l2 : list A) : l1 `prefix_of` l2 → l1 `sublist_of` l2.
Proof. intros [k ->]. by apply sublist_inserts_r. Qed.

(** * Two programs and the network between them *)
Section network.
Context (S C : machine) (straces : mstate S → trace) (ctraces : mstate C → trace) (f sockfd : Z).

(** The network delivers to each side, in order, a prefix of what the kernel of
    the other side took for the connection. *)
Definition delivered (st : mstate S * mstate C) : bool :=
  bool_decide (received_from f (straces st.1) `prefix_of` accepted sockfd (ctraces st.2)) &&
  bool_decide (received_from sockfd (ctraces st.2) `prefix_of` accepted f (straces st.1)).

(** Either side takes a step, as far as what it receives has been delivered. *)
Definition network_step (l : mlabel S + mlabel C) (st : mstate S * mstate C)
    : outcome (mstate S * mstate C) :=
  st' ← (match l with
         | inl l => s' ← mstep S l st.1; Ok (s', st.2)
         | inr l => c' ← mstep C l st.2; Ok (st.1, c')
         end);
  _ ← await (delivered st');
  Ok st'.

Definition network : machine :=
  Machine (mstate S * mstate C) (mlabel S + mlabel C)
    (λ st, minit S st.1 ∧ minit C st.2 ∧ delivered st = true) network_step.

Lemma network_step_Ok l st st' :
  network_step l st = Ok st' → delivered st' = true ∧
  ((∃ l', mstep S l' st.1 = Ok st'.1) ∧ st'.2 = st.2 ∨ (∃ l', mstep C l' st.2 = Ok st'.2) ∧ st'.1 = st.1).
Proof.
  unfold network_step. intros (st1 & H1 & H2)%bind_Ok. apply bind_Ok in H2 as ([] & H2 & H3).
  injection H3 as ->. unfold await in H2. destruct (delivered st') eqn:Hd; [| done]. split; [done |].
  destruct l as [l | l]; apply bind_Ok in H1 as (x & H1 & [= <-]); [left | right]; eauto.
Qed.

Lemma network_reachable (st : mstate network) :
  reachable st → reachable st.1 ∧ reachable st.2 ∧ delivered st = true.
Proof.
  revert st. apply invariant_ind.
  - intros [s c] (Hs & Hc & Hd). split_and!; [by apply reachable_init .. | done].
  - intros l st st' _ (Hs & Hc & _) Hstep.
    apply network_step_Ok in Hstep as [Hd [[[l' Hl] E] | [[l' Hl] E]]]; rewrite E;
      (split_and!; [| | done]); try done; by eapply reachable_step.
Qed.
End network.

(** * A session *)
Section session.
Context (S C : machine) (f sockfd : Z) `{EchoServer S, RelayClient C sockfd}.

Definition session : machine := network S C server_trace client_trace f sockfd.

(** All that was handed to [write] for the connection was taken. *)
Definition full_writes (st : mstate session) : Prop :=
  accepted sockfd (client_trace st.2) = sent_to sockfd (client_trace st.2) ∧
  accepted f (server_trace st.1) = sent_to f (server_trace st.1).

Lemma session_round_trip (st : mstate session) :
  3 <= f → reachable st →
  let shown := sent_to STDOUT_FILENO (client_trace st.2) in
  let typed := received_from 0 (client_trace st.2) in
  shown `sublist_of` typed ∧
  (full_writes st → shown `prefix_of` typed) ∧
  (full_writes st → received_from f (server_trace st.1) = accepted sockfd (client_trace st.2) →
    received_from sockfd (client_trace st.2) = accepted f (server_trace st.1) → shown = typed).
Proof.
  intros Hf Hr. destruct (network_reachable _ _ _ _ _ _ st Hr) as (Hs & Hc & Hd). unfold full_writes.
  pose proof (server_echoes _ f Hs Hf) as He. pose proof (client_sends _ Hc) as H1.
  pose proof (client_shows _ Hc) as H2. apply andb_true_iff in Hd as [Hd1 Hd2].
  apply bool_decide_eq_true in Hd1, Hd2. cbv zeta. rewrite H2, <- H1. split_and!.
  - etrans; [by apply prefix_sublist |]. etrans; [apply accepted_sublist |]. rewrite He.
    etrans; [by apply prefix_sublist | apply accepted_sublist].
  - intros [E1 E2]. etrans; [exact Hd2 |]. rewrite E2, He. etrans; [exact Hd1 |]. by rewrite E1.
  - intros [E1 E2] D1 D2. by rewrite D2, E2, He, D1, E1.
Qed.
End session.

(** C6. The poll client talking to the poll server, end to end.  However the two
    processes, their kernels and the network interleave, and whatever is read or
    cut short: what the terminal shows is what was typed with some bytes missing,
    never reordered and never invented; if no [write] was short it is a prefix of
    what was typed, and all of it once everything has been delivered and read. *)
Theorem poll_session (listenfd f sockfd : Z) `{!Descriptor sockfd}
    (st : mstate (session (poll_server listenfd) (Client.client sockfd) f sockfd)) :
  3 <= f → reachable st →
  let server := ktrace (pkern st.1) in
  let client := ktrace (pkern st.2) in
  sent_to STDOUT_FILENO client `sublist_of` received_from 0 client ∧
  (accepted sockfd client = sent_to sockfd client → accepted f server = sent_to f server →
   sent_to STDOUT_FILENO client `prefix_of` received_from 0 client ∧
   (received_from f server = accepted sockfd client →
    received_from sockfd client = accepted f server →
    sent_to STDOUT_FILENO client = received_from 0 client)).
Proof.
  intros Hf Hr. destruct (session_round_trip _ _ _ _ st Hf Hr) as (H1 & H2 & H3).
  split; [exact H1 |]. intros E1 E2. split; [by apply H2 | intros D1 D2; by apply H3].
Qed.

(** A run: the client connects, types "hi", and sees it. *)
Module Run.
#[local] Instance three : Descriptor 3.
Proof. unfold Descriptor. lia. Defined.
Definition pair : machine := session (poll_server 3) (Client.client 3) 4 3.
Definition start : mstate pair :=
  (poll_start, Process (inl tt) (Kern {[0; 1; 2; 3]} ∅ [])).
Definition schedule : list (mlabel pair) :=
  [inl first_client; inr [ready [(0, 1)]; got (text "hi"); ok 2];
   inl [ready [(4, 1)]; got (text "hi"); ok 2; ok 2];
   inr [ready [(3, 1)]; got (text "hi"); ok 2]].
Definition final : mstate pair := match exec pair schedule start with Ok st => st | _ => start end.

Lemma poll_session_witness :
  reachable (M := pair) final ∧ sent_to STDOUT_FILENO (ktrace (pkern final.2)) = text "hi" ∧
  sent_to STDOUT_FILENO (ktrace (pkern final.2)) = received_from 0 (ktrace (pkern final.2)).
Proof.
  assert (reachable (M := pair) final) as Hr.
  { eapply (exec_reachable pair schedule start); [| by vm_compute].
    split_and!; [apply poll_start_init | | by vm_compute].
    exists tt, (Kern {[0; 1; 2; 3]} ∅ []). by split_and!. }
  split_and!; [exact Hr | by vm_compute |].
  destruct (poll_session 3 4 3 final ltac:(lia) Hr) as (_ & Hp).
  apply Hp; by vm_compute.
Defined.
End Run.
