(* ===== verification/Conversation.v ===== *)
(** The echo server of [network/TCP/long_connection.server.c] and a client of
    [long_connection.client.c], joined by the network of [Session]: each side
    reads, in pieces of any size, what the kernel of the other side took.  What
    the server keeps for one connection, what the client keeps, and the
    conversation that follows. *)
From S2P Require Import Prelude Posix LongConnection Session.

Local Open Scope Z_scope.

(** * Rules for programs that leave a connection alone *)
Section only.
Context (P : call → Prop).

(** Every call the program can make satisfies [P]. *)
Fixpoint only {A} (m : io A) : Prop :=
  match m with
  | Sys c f => P c ∧ ∀ r, only (f r)
  | _ => True
  end.

Lemma only_bind {A B} (m : io A) (f : A → io B) : only m → (∀ a, only (f a)) → only (m ≫= f).
Proof. unfold mbind, io_bind. induction m; simpl; naive_solver. Qed.

Lemma wp_only {A} R (m : io A) (J : kern → Prop) k :
  (∀ c r k k', P c → kstep c r k = Some k' → J k → J k') →
  only m → J k → wp R True m k (λ _ k', J k').
Proof. intros HJ. revert k. induction m; simpl; naive_solver. Qed.
End only.

Lemma wp_and {A} R ub (m : io A) k (Q1 Q2 : A + Z → kern → Prop) :
  wp R ub m k Q1 → wp R ub m k Q2 → wp R ub m k (λ x k', Q1 x k' ∧ Q2 x k').
Proof. revert k. induction m; simpl; eauto. Qed.

Lemma wp_results {A} (R R' : call → result → Prop) ub (m : io A) k Q :
  (∀ c r, R' c r → R c r) → wp R ub m k Q → wp R' ub m k Q.
Proof. intros HR. revert k. induction m; simpl; eauto. Qed.

Lemma wp_true {A} R (m : io A) k : wp R True m k (λ _ _, True).
Proof. revert k. induction m; simpl; auto. Qed.

(** The C string of a zeroed buffer in which bytes without NUL were stored. *)
Lemma c_string_filled d n msg :
  NUL ∉ d → (length d <= n)%nat → c_string (store (zeros n) d) = Some msg → msg = d.
Proof.
  intros Hd Hn Hs. destruct (decide (length d < n)%nat) as [Hlt | Hge].
  - rewrite c_string_store in Hs by done. congruence.
  - unfold store in Hs. rewrite drop_zeros in Hs. replace (n - length d)%nat with 0%nat in Hs by lia.
    rewrite app_nil_r in Hs. unfold c_string in Hs. by rewrite (proj2 (strlen_None d) Hd) in Hs.
Qed.

(** * The server's side of one connection *)
Section connection.
Context (listen_sock f : Z).
Hypothesis Hlisten : f ≠ listen_sock.

(** What is assumed of the results: the client sends no NUL, and the server
    does not close the connection. *)
Definition calm (c : call) (r : result) : Prop :=
  match c with
  | Read g _ => g = f → NUL ∉ rdata r
  | Close g => g ≠ f
  | _ => True
  end.

Definition received (k : kern) : data := received_from f (ktrace k).
Definition answered (k : kern) : data := accepted f (ktrace k).

(** The calls that have nothing to do with the connection, and what they keep. *)
Definition avoids (c : call) : Prop :=
  match c with
  | Read g _ | Write g _ | EpollAdd g _ | EpollMod g _ | EpollDel g | Close g => g ≠ f
  | _ => True
  end.
Definition same (k k' : kern) : Prop :=
  received k' = received k ∧ answered k' = answered k ∧ kepoll k' !! f = kepoll k !! f.

Lemma same_step k0 c r k k' : avoids c → kstep c r k = Some k' → same k0 k → same k0 k'.
Proof.
  intros Hc [_ ->]%kstep_Some (Hr & Ha & He). unfold same, received, answered.
  assert (ktrace (effect c r k) = ktrace k) as Htr by (unfold effect; by destruct (rv r =? -1), c).
  rewrite received_from_log, accepted_log, Htr. unfold received, answered in Hr, Ha. rewrite Hr, Ha.
  split_and!.
  - destruct c; rewrite ?app_nil_r; try done. simpl in Hc.
    rewrite (proj2 (Z.eqb_neq _ _)) by done. by rewrite app_nil_r.
  - destruct c; rewrite ?app_nil_r; try done. simpl in Hc.
    rewrite (proj2 (Z.eqb_neq _ _)) by done. by rewrite app_nil_r.
  - rewrite <- He. unfold effect. destruct (rv r =? -1); [done |].
    destruct c; simpl in *; rewrite ?lookup_insert_ne, ?lookup_delete_ne by done; done.
Qed.

(** A step that moves no byte. *)
Lemma flow_quiet c r k k' :
  quiet c = true → kstep c r k = Some k' → received k' = received k ∧ answered k' = answered k.
Proof.
  intros Hq Hk. unfold received, answered.
  rewrite (received_from_quiet _ _ _ _ _ Hq Hk), (kstep_trace _ _ _ _ Hk).
  split; [done |]. destruct c; try discriminate Hq; apply app_nil_r.
Qed.

(** ** Between two events: what was read is what was answered, and the message
    that waits, if the connection is registered for writing. *)
Record flowing (ptrs : pointers) (k : kern) : Prop := {
  fl_owner : ∀ g ed, ptrs !! g = Some ed → echo_fd ed = g;
  fl_bytes : match kepoll k !! f with
    | Some ev =>
        if decide (ev = writing)
        then ∃ buf msg, ptrs !! f = Some (EchoData buf f) ∧ c_string buf = Some msg ∧
          received k = answered k ++ msg
        else ev = reading ∧ received k = answered k
    | None => received k = answered k
    end
}.
Definition flows (x : pointers + Z) (k : kern) : Prop :=
  match x with inl ptrs => flowing ptrs k | inr _ => answered k `prefix_of` received k end.

Lemma flowing_prefix ptrs k : flowing ptrs k → answered k `prefix_of` received k.
Proof.
  intros [_ Hb]. destruct (kepoll k !! f) as [ev |]; [case_decide |].
  - destruct Hb as (buf & msg & _ & _ & ->). by apply prefix_app_r.
  - by destruct Hb as [_ ->].
  - by rewrite Hb.
Qed.

Lemma flowing_same ptrs ptrs' k k' :
  flowing ptrs k → same k k' → ptrs' !! f = ptrs !! f →
  (∀ g ed, ptrs' !! g = Some ed → echo_fd ed = g) → flowing ptrs' k'.
Proof. intros [_ Hb] (Hr & Ha & He) Hp Ho. split; [done |]. by rewrite He, Hr, Ha, Hp. Qed.

Lemma same_prefix k k' : answered k `prefix_of` received k → same k k' → answered k' `prefix_of` received k'.
Proof. by intros Hp (-> & -> & _). Qed.

(** ** Events of other connections *)
Lemma only_sys c : avoids c → only avoids (sys c).
Proof. by split. Qed.
Lemma only_sys_ c : avoids c → only avoids (sys_ c).
Proof. by split. Qed.
Lemma only_ub {A} (o : option A) : only avoids (io_ub o).
Proof. by destruct o. Qed.
Lemma only_must c : avoids c → only avoids (must c).
Proof. intros Hc. apply only_bind; [by apply only_sys |]. intros r. by destruct (rv r =? -1). Qed.

Lemma only_read_burst fuel g buf count : g ≠ f → only avoids (read_burst fuel g buf count).
Proof.
  intros Hg. revert buf count. induction fuel as [| fuel IH]; intros buf count; [exact I |].
  apply only_bind; [by apply only_sys |]. intros r.
  destruct (0 <? rv r); [apply only_bind; [apply only_ub | intros buf'; apply IH] |].
  destruct ((rv r =? 0) || (rerrno r =? EAGAIN)); [exact I |].
  destruct (rerrno r =? ETIMEDOUT); [| exact I].
  apply only_bind; [by apply only_must |]. intros _. apply only_bind; [by apply only_sys_ | done].
Qed.

Lemma only_printf_s before b after : only avoids (printf_s before b after).
Proof. unfold printf_s. by destruct (c_string b). Qed.

Lemma only_handle_in fuel g ptrs : g ≠ f → only avoids (handle_in fuel g ptrs).
Proof.
  intros Hg. unfold handle_in. apply only_bind; [by apply only_read_burst |].
  intros [buf count |]; [| exact I]. destruct (count =? 0)%nat.
  - apply only_bind; [by apply only_must |]. intros _. apply only_bind; [by apply only_sys_ | done].
  - apply only_bind; [apply only_printf_s |]. intros _. apply only_bind; [by apply only_must | done].
Qed.

Lemma only_write_all fuel g msg pos : g ≠ f → only avoids (write_all fuel g msg pos).
Proof.
  intros Hg. revert pos. induction fuel as [| fuel IH]; intros pos; [exact I |].
  apply only_bind; [by apply only_sys |]. intros r. destruct (rv r <? 0).
  - destruct (rerrno r =? EAGAIN); [apply IH | exact I].
  - cbv zeta. destruct (length msg =? _)%nat; [exact I | apply IH].
Qed.

Lemma only_handle_out fuel g ptrs :
  g ≠ f → (∀ ed, ptrs !! g = Some ed → echo_fd ed = g) → only avoids (handle_out fuel g ptrs).
Proof.
  intros Hg Ho. unfold handle_out. destruct (ptrs !! g) as [ed |]; [| exact I].
  change (only avoids (printf_s "write data to client: " (echo_buf ed) "" ;;
    msg ← io_ub (c_string (echo_buf ed)); write_all fuel (echo_fd ed) msg 0 ;;
    must (EpollMod (echo_fd ed) (Z.lor EPOLLIN EPOLLET)) ;; Ret (delete g ptrs))).
  rewrite (Ho ed eq_refl). apply only_bind; [apply only_printf_s |]. intros [].
  apply only_bind; [apply only_ub |]. intros msg.
  apply only_bind; [by apply only_write_all |]. intros []. apply only_bind; [by apply only_must | done].
Qed.

(** What is not followed of a program. *)
Ltac skip := apply wp_bind; eapply wp_mono; [| apply wp_true]; intros [? | ?] ? _; [| exact I].

Lemma handle_in_returns R fuel g ptrs k :
  wp R True (handle_in fuel g ptrs) k (λ x _, match x with
    | inl ptrs' => ptrs' = ptrs ∨ ∃ buf, ptrs' = <[g := EchoData buf g]> ptrs
    | inr _ => True end).
Proof.
  unfold handle_in. skip. match goal with b : burst |- _ => destruct b as [buf count |] end; [| by left].
  destruct (count =? 0)%nat; [do 2 skip; by left | do 2 skip]. right. by exists buf.
Qed.

Lemma handle_out_returns R fuel g ptrs k :
  wp R True (handle_out fuel g ptrs) k (λ x _, match x with
    | inl ptrs' => ptrs' = delete g ptrs | inr _ => True end).
Proof. unfold handle_out. do 5 skip. done. Qed.

Lemma handle_in_other R fuel g ptrs k :
  g ≠ f → flowing ptrs k → wp R True (handle_in fuel g ptrs) k flows.
Proof.
  intros Hg Hf. eapply wp_mono; [| apply wp_and; [| apply (handle_in_returns R fuel g ptrs k)]].
  2: { apply (wp_only avoids R _ (same k)); [intros ????; apply same_step | by apply only_handle_in | done]. }
  intros [ptrs' | e] k' [Hs Hp]; cbn [flows]; [| eapply same_prefix; [by eapply flowing_prefix | done]].
  destruct Hp as [-> | [buf ->]].
  - by eapply flowing_same; [| | | apply Hf].
  - eapply flowing_same; [done | done | by apply lookup_insert_ne |].
    intros g' ed [[<- <-] | [_ Hg']]%lookup_insert_Some; [done | by eapply fl_owner].
Qed.

Lemma handle_out_other R fuel g ptrs k :
  g ≠ f → flowing ptrs k → wp R True (handle_out fuel g ptrs) k flows.
Proof.
  intros Hg Hf. eapply wp_mono; [| apply wp_and; [| apply (handle_out_returns R fuel g ptrs k)]].
  2: { apply (wp_only avoids R _ (same k)); [intros ????; apply same_step | | done].
       apply only_handle_out; [done | by apply Hf]. }
  intros [ptrs' | e] k' [Hs Hp]; cbn [flows]; [| eapply same_prefix; [by eapply flowing_prefix | done]].
  subst ptrs'. eapply flowing_same; [done | done | by apply lookup_delete_ne |].
  intros g' ed [_ Hg']%lookup_delete_Some. by eapply fl_owner.
Qed.

Lemma only_set_keepalive g : only avoids (set_keepalive g).
Proof.
  unfold set_keepalive. do 3 (apply only_bind; [by apply only_sys |]; intros r; destruct (rv r =? -1); [exact I |]; clear r).
  by apply only_sys_.
Qed.

(** A call on the interest list that ends the program when it fails. *)
Lemma wp_must_ctl R c k (Q : unit + Z → kern → Prop) :
  quiet c = true →
  (∀ r k', kstep c r k = Some k' → rv r ≠ -1 → received k' = received k → answered k' = answered k →
    Q (inl tt) k') →
  (∀ e k', received k' = received k → answered k' = answered k → Q (inr e) k') →
  wp R True (must c) k Q.
Proof.
  intros Hq Hok Hex. unfold must. apply wp_sys. intros r k' _ Hk.
  destruct (flow_quiet c r k k' Hq Hk) as [Hr Ha].
  destruct (Z.eqb_spec (rv r) (-1)); [by apply Hex | by eapply Hok].
Qed.

Lemma accept_flows R ptrs k :
  table listen_sock ptrs k → flowing ptrs k →
  wp R True (accept_one listen_sock ;; Ret ptrs) k flows.
Proof.
  intros Ht Hf. apply wp_bind. unfold accept_one. apply wp_sys. intros r k1 _ Hk.
  pose proof (same_step k (Accept listen_sock) r k k1 I Hk ltac:(by split_and!)) as Hs1.
  assert (flowing ptrs k1) as Hf1 by (by eapply flowing_same; [| | | apply Hf]).
  destruct (Z.eqb_spec (rv r) (-1)) as [| Hv]; [by apply (flowing_prefix ptrs) |].
  apply kstep_Accept in Hk as [[? _] | (_ & Hfresh & _ & He)]; [done |].
  destruct (decide (rv r = f)) as [Hrf | Hrf].
  - assert (kepoll k1 !! f = None) as Hnone.
    { rewrite He. destruct (kepoll k !! f) as [ev |] eqn:E; [| done].
      destruct (tab_interest _ _ _ Ht f ev E) as [Ho _]. by rewrite Hrf in Hfresh. }
    apply wp_bind. eapply wp_mono; [| apply (wp_only avoids R _ (same k1))];
      [| intros ????; apply same_step | by apply only_sys_ | by split_and!].
    intros [[] | e] k2 Hs2; [| eapply same_prefix; [by apply (flowing_prefix ptrs) | done]].
    apply wp_bind. eapply wp_mono; [| apply (wp_only avoids R _ (same k1))];
      [| intros ????; apply same_step | apply only_set_keepalive | done].
    intros [[] | e] k3 (Hr3 & Ha3 & He3); [| apply (same_prefix k1); [by apply (flowing_prefix ptrs) | by split_and!]].
    rewrite Hrf. destruct Hf1 as [Ho Hb]. rewrite Hnone in Hb.
    apply wp_must_ctl; [done | |].
    + intros r4 k4 Hk4 Hr4 Hr' Ha'.
      destruct (kstep_ctl _ f _ _ _ Hk4 eq_refl) as [[? _] | (_ & _ & _ & He4)]; [done |].
      split; [done |]. rewrite He4, lookup_insert_eq, decide_False by done.
      split; [done |]. by rewrite Hr', Ha', Hr3, Ha3.
    + intros e k4 Hr' Ha'. cbn [flows]. by rewrite Hr', Ha', Hr3, Ha3, Hb.
  - eapply wp_mono; [| apply (wp_only avoids R _ (same k1))]; [| intros ????; apply same_step | | by split_and!].
    + intros [[] | e] k2 Hs2; [by eapply flowing_same; [| | | apply Hf1] |].
      eapply same_prefix; [by apply (flowing_prefix ptrs) | done].
    + apply only_bind; [by apply only_sys_ |]. intros _.
      apply only_bind; [apply only_set_keepalive | intros _; by apply only_must].
Qed.

(** ** Events of the connection itself *)

(** The reading loop: the bytes read are in the buffer. *)
Lemma read_burst_flows fuel buf count k :
  wp calm True (read_burst fuel f buf count) k (λ x k',
    ∃ d, (NUL ∉ d) ∧ received k' = received k ++ d ∧ answered k' = answered k ∧
    match x with
    | inl (Got buf' count') =>
        kepoll k' = kepoll k ∧ buf' = filled buf count d ∧ count' = (count + length d)%nat ∧
        ((count <= length buf)%nat → (count' <= length buf)%nat)
    | inl TimedOut => False
    | inr _ => True
    end).
Proof.
  revert buf count k. induction fuel as [| fuel IH]; intros buf count k; [exact I |].
  cbn [read_burst]. apply wp_sys. intros r k1 Hc [-> Hres]%kstep_Read.
  specialize (Hc eq_refl).
  assert (received (log (Read f 1024) r k) = received k ++ rdata r) as Hrec.
  { unfold received. rewrite received_from_log. by rewrite Z.eqb_refl. }
  assert (answered (log (Read f 1024) r k) = answered k) as Hans.
  { unfold answered. rewrite accepted_log. apply app_nil_r. }
  destruct (Z.ltb_spec 0 (rv r)) as [Hpos | Hneg].
  - unfold store_at. destruct (Nat.leb_spec (count + length (rdata r)) (length buf)) as [Hle |]; [| exact I].
    eapply wp_mono; [| apply IH].
    intros x k' (d & Hd & Hr & Ha & Hx). exists (rdata r ++ d). split_and!.
    + rewrite elem_of_app. by intros [].
    + by rewrite Hr, Hrec, app_assoc.
    + by rewrite Ha, Hans.
    + fold (filled buf count (rdata r)) in Hx. destruct x as [[buf' count' |] | e]; try done.
      destruct Hx as (He & -> & -> & Hlen). rewrite filled_length in Hlen by done.
      rewrite length_app. split_and!; [done | | lia | intros; lia].
      destruct (Nat.leb_spec (count + length (rdata r) + length d) (length buf)) as [Hle2 |]; [by apply filled_app | lia].
  - assert (rdata r = []) as Hnil.
    { destruct Hres as [[_ ->] | (_ & Hl & _)]; [done |]. destruct (rdata r); [done | simpl in Hl; lia]. }
    rewrite Hnil in Hrec. rewrite app_nil_r in Hrec.
    destruct ((rv r =? 0) || (rerrno r =? EAGAIN)).
    { exists []. rewrite app_nil_r. split_and!; try done; [apply not_elem_of_nil |].
      unfold filled. simpl. by rewrite Nat.add_0_r, take_drop. }
    assert (∀ k', received k' = received k ∧ answered k' = answered k →
      ∃ d, (NUL ∉ d) ∧ received k' = received k ++ d ∧ answered k' = answered k ∧ True) as Hend.
    { intros k' [-> ->]. exists []. rewrite app_nil_r. by split_and!; [apply not_elem_of_nil | ..]. }
    destruct (rerrno r =? ETIMEDOUT); [| by apply Hend].
    apply wp_bind, wp_must_ctl; [done | |].
    + intros r2 k2 _ _ _ _. intros r3 k3 Hclose. by destruct Hclose.
    + intros e k2 Hr2 Ha2. apply Hend. by rewrite Hr2, Ha2.
Qed.

Lemma handle_in_flows fuel ptrs k :
  flowing ptrs k → kepoll k !! f = Some reading → wp calm True (handle_in fuel f ptrs) k flows.
Proof.
  intros [Ho Hb] He. rewrite He, decide_False in Hb by done. destruct Hb as [_ Hb].
  unfold handle_in. apply wp_bind. eapply wp_mono; [| apply read_burst_flows].
  intros [[buf count |] | e] k1 (d & Hd & Hr & Ha & Hx); cbn [flows];
    [| done | rewrite Hr, Ha, Hb; by apply prefix_app_r].
  destruct Hx as (He1 & -> & -> & Hlen).
  destruct (Nat.eqb_spec (0 + length d) 0) as [Hd0 | Hd0].
  - assert (d = []) as -> by (by destruct d). rewrite app_nil_r in Hr.
    apply wp_bind, wp_must_ctl; [done | |].
    + intros r2 k2 _ _ _ _. intros r3 k3 Hclose. by destruct Hclose.
    + intros e k2 Hr2 Ha2. cbn [flows]. by rewrite Hr2, Ha2, Hr, Ha, Hb.
  - unfold printf_s. change (filled (zeros MAX_BUF) 0 d) with (store (zeros MAX_BUF) d).
    destruct (c_string (store (zeros MAX_BUF) d)) as [msg |] eqn:Hs; [| exact I].
    assert (msg = d) as ->.
    { eapply c_string_filled; [done | | exact Hs]. unfold zeros in Hlen. rewrite length_replicate in Hlen.
      specialize (Hlen ltac:(lia)). lia. }
    apply wp_sys_. intros r2 k2 _ Hk2. destruct (flow_quiet (Printf _) _ _ _ eq_refl Hk2) as [Hr2 Ha2].
    apply kstep_neutral in Hk2 as Hk2'; [| done].
    apply wp_bind, wp_must_ctl; [done | |].
    + intros r3 k3 Hk3 Hv3 Hr3 Ha3.
      destruct (kstep_ctl _ f _ _ _ Hk3 eq_refl) as [[? _] | (_ & _ & _ & He3)]; [done |].
      split.
      * intros g ed [[<- <-] | [_ Hg]]%lookup_insert_Some; [done | by apply Ho].
      * rewrite He3, lookup_insert_eq. rewrite decide_True by done.
        eexists _, d. split_and!; [apply lookup_insert_eq | done |].
        by rewrite Hr3, Ha3, Hr2, Ha2, Hr, Ha, Hb.
    + intros e k3 Hr3 Ha3. cbn [flows]. rewrite Hr3, Ha3, Hr2, Ha2, Hr, Ha, Hb. by apply prefix_app_r.
Qed.

(** The writing loop: all of the message is taken, or a part of it. *)
Lemma write_all_flows R fuel msg pos k :
  wp R True (write_all fuel f msg pos) k (λ x k',
    received k' = received k ∧ kepoll k' = kepoll k ∧
    match x with
    | inl _ => answered k' = answered k ++ drop pos msg
    | inr _ => ∃ d, d `prefix_of` drop pos msg ∧ answered k' = answered k ++ d
    end).
Proof.
  revert pos k. induction fuel as [| fuel IH]; intros pos k; [exact I |].
  cbn [write_all]. apply wp_sys. intros r k1 _ Hk.
  assert (0 <= rv r <= Z.of_nat (length (drop pos msg)) ∨ rv r = -1) as Hrv.
  { apply kstep_Some in Hk as [Hp _]. unfold possible in Hp.
    destruct (Z.eqb_spec (rv r) (-1)); [by right | left]. cbn [andb orb] in Hp.
    apply andb_true_iff in Hp as [[_ ?]%andb_true_iff ?]. lia. }
  apply kstep_neutral in Hk as ->; [| done].
  set (k1 := log (Write f (drop pos msg)) r k).
  assert (received k1 = received k) as Hr1 by apply app_nil_r.
  assert (answered k1 = answered k ++ take (Z.to_nat (rv r)) (drop pos msg)) as Ha1.
  { unfold answered, k1. rewrite accepted_log. by rewrite Z.eqb_refl. }
  destruct (Z.ltb_spec (rv r) 0) as [Hneg | Hpos].
  - assert (rv r = -1) as Hv by lia. rewrite Hv, take_0, app_nil_r in Ha1.
    destruct (rerrno r =? EAGAIN).
    + eapply wp_mono; [| apply IH]. intros x k' (Hr & He & Hx). rewrite Hr, He, Hr1.
      split_and!; [done | done |]. by rewrite Ha1 in Hx.
    + split_and!; [done | done |]. exists []. rewrite app_nil_r. split; [apply prefix_nil | done].
  - cbv zeta. assert (Z.to_nat (rv r) <= length msg - pos)%nat as Hle by (rewrite length_drop in Hrv; lia).
    assert (take (Z.to_nat (rv r)) (drop pos msg) ++ drop (pos + Z.to_nat (rv r)) msg = drop pos msg) as Hsplit.
    { rewrite <- drop_drop. apply take_drop. }
    destruct (Nat.eqb_spec (length msg) (pos + Z.to_nat (rv r))) as [Hl | Hl].
    + split_and!; [done | done |]. rewrite Ha1. f_equal.
      rewrite (drop_ge msg (pos + _)), app_nil_r in Hsplit by lia. exact Hsplit.
    + eapply wp_mono; [| apply IH]. intros x k' (Hr & He & Hx). rewrite Hr, He, Hr1.
      split_and!; [done | done |]. rewrite Ha1 in Hx. destruct x as [[] | e].
      * by rewrite Hx, <- app_assoc, Hsplit.
      * destruct Hx as (d & [z Hz] & ->). exists (take (Z.to_nat (rv r)) (drop pos msg) ++ d).
        rewrite <- app_assoc. split; [| done]. exists z. by rewrite <- app_assoc, <- Hz.
Qed.

Lemma handle_out_flows R fuel ptrs k :
  flowing ptrs k → kepoll k !! f = Some writing → wp R True (handle_out fuel f ptrs) k flows.
Proof.
  intros [Ho Hb] He. rewrite He, decide_True in Hb by done. destruct Hb as (buf & msg & Hp & Hs & Hb).
  unfold handle_out. rewrite Hp.
  change (wp R True (printf_s "write data to client: " buf "" ;;
    msg ← io_ub (c_string buf); write_all fuel f msg 0 ;;
    must (EpollMod f (Z.lor EPOLLIN EPOLLET)) ;; Ret (delete f ptrs)) k flows).
  unfold printf_s. rewrite Hs. apply wp_sys_. intros r1 k1 _ Hk1.
  destruct (flow_quiet (Printf _) _ _ _ eq_refl Hk1) as [Hr1 Ha1].
  change (wp R True (write_all fuel f msg 0 ;;
    must (EpollMod f (Z.lor EPOLLIN EPOLLET)) ;; Ret (delete f ptrs)) k1 flows).
  apply wp_bind. eapply wp_mono; [| apply write_all_flows]. intros x k2 (Hr2 & _ & Hx).
  destruct x as [[] | e].
  - rewrite drop_0 in Hx. apply wp_bind, wp_must_ctl; [done | |].
    + intros r3 k3 Hk3 Hv3 Hr3 Ha3.
      destruct (kstep_ctl _ f _ _ _ Hk3 eq_refl) as [[? _] | (_ & _ & _ & He3)]; [done |].
      split; [intros g ed [_ Hg]%lookup_delete_Some; by apply Ho |].
      rewrite He3, lookup_insert_eq, decide_False by done. split; [done |].
      by rewrite Hr3, Ha3, Hr2, Hx, Hr1, Ha1.
    + intros e k3 Hr3 Ha3. cbn [flows]. by rewrite Hr3, Ha3, Hr2, Hx, Hr1, Ha1, Hb.
  - destruct Hx as (d & Hd & Hx). cbn [flows]. rewrite drop_0 in Hd.
    rewrite Hr2, Hx, Hr1, Ha1, Hb. by apply prefix_app.
Qed.

(** ** The whole iteration *)
Lemma handle_all_flows fuel events ptrs k :
  table listen_sock ptrs k → due events (kepoll k) → NoDup events.*1 → flowing ptrs k →
  wp calm True (handle_all fuel listen_sock events ptrs) k flows.
Proof.
  revert ptrs k. induction events as [| [g ev] events IH]; intros ptrs k Ht Hd Hnd Hf; [exact Hf |].
  cbn [handle_all]. apply Forall_cons in Hd as [Hev Hd]. cbn [fst snd] in Hev.
  rewrite fmap_cons in Hnd. apply NoDup_cons in Hnd as [Hg Hnd]. cbn [fst] in Hg.
  apply wp_bind. eapply (wp_mono _ _ _ _ (λ x k', after listen_sock events x k' ∧ flows x k')).
  { intros [ptrs' |] k1; [| by intros [_ ?]]. intros [[Ht1 Hd1] Hf1]. by apply IH. }
  assert (∀ m : io pointers, wp (each anything) True m k (after listen_sock events) →
    wp calm True m k flows → wp calm True m k (λ x k', after listen_sock events x k' ∧ flows x k')) as Hboth.
  { intros m H1 H2. apply wp_and; [| exact H2]. by eapply wp_results, H1. }
  destruct (Z.eqb_spec g listen_sock) as [-> | Hne].
  { apply Hboth; [by apply accept_one_keeps | by apply accept_flows]. }
  unfold events_handle. destruct (negb (Z.land ev EPOLLIN =? 0)) eqn:Hin.
  - apply Hboth; [by apply handle_in_keeps |]. destruct (decide (g = f)) as [-> | Hgf]; [| by apply handle_in_other].
    apply handle_in_flows; [done |]. destruct (tab_interest _ _ _ Ht f ev Hev) as [_ [? | [-> | [-> _]]]]; done.
  - destruct (negb (Z.land ev EPOLLOUT =? 0)); [| by split].
    destruct (tab_interest _ _ _ Ht g ev Hev) as [_ [? | [-> | [-> Hm]]]]; [done | by vm_compute in Hin |].
    apply Hboth; [by apply (wp_weaken _ False), handle_out_keeps |].
    destruct (decide (g = f)) as [-> | Hgf]; [by apply handle_out_flows | by apply handle_out_other].
Qed.

Lemma run_loop_flows fuel ptrs k :
  table listen_sock ptrs k → flowing ptrs k → wp calm True (run_loop fuel listen_sock ptrs) k flows.
Proof.
  intros Ht Hf. unfold run_loop. apply wp_sys. intros r k1 _ Hk.
  pose proof (same_step k (EpollWait _) r k k1 I Hk ltac:(by split_and!)) as Hs.
  destruct (rv r =? -1) eqn:E; [by apply (same_prefix k); [eapply flowing_prefix |] |].
  pose proof (kstep_EpollWait _ _ _ _ Hk) as Hd. pose proof (kstep_EpollWait_NoDup _ _ _ _ Hk) as Hnd.
  apply kstep_neutral in Hk as ->; [| done].
  apply handle_all_flows; [by eapply table_same | done | done |]. by eapply flowing_same; [| | | apply Hf].
Qed.

(** The server that starts, with an empty trace. *)
Definition started (ptrs : pointers) (k : kern) : Prop :=
  ptrs = ∅ ∧ kopen k = {[listen_sock]} ∧ kepoll k = {[listen_sock := EPOLLIN]} ∧ ktrace k = [].
Definition long_server (fuel : nat) : machine := server (run_loop fuel listen_sock) started.

(** At the head of its loop, what it read from the connection is what the kernel
    took of its answers and the message that waits. *)
Lemma server_flows fuel (p : mstate (long_server fuel)) :
  reachable p → Forall (uncurry calm) (ktrace (pkern p)) → flows (pstate p) (pkern p).
Proof.
  intros Hr Hc. eapply proj2.
  refine (server_trace_invariant _ _ calm (λ x k, after listen_sock [] x k ∧ flows x k) _ _ p Hr Hc).
  - intros ptrs k (-> & Ho & He & Htr). split; [split; [split; rewrite Ho, He | by apply Forall_nil] |].
    + by rewrite lookup_singleton_eq; split; [set_solver |].
    + intros fd ev [<- <-]%lookup_singleton_Some. split; [set_solver | by left].
    + split; [by intros g ed ?%lookup_empty_Some |]. rewrite He, lookup_singleton_ne by done.
      unfold received, answered. by rewrite Htr.
  - intros ptrs k [[Ht _] Hf]. apply wp_and; [| by apply run_loop_flows].
    eapply wp_results; [| by apply run_loop_keeps]. done.
Qed.
End connection.

(** * The client's side *)
Section client.
Context (sock : Z) (input : data).
Hypothesis Hsock : sock ≠ 1.
Hypothesis Htext : NUL ∉ input.
Import LongConnection.Client.

Definition unread (s : turn_state) : data :=
  match s with Sending _ stdin | Receiving _ stdin => stdin end.

(** What the client gave to [write] for the connection is the part of the input
    it has consumed, and what it wrote to the terminal is what it read. *)
Definition relaying (x : turn_state + Z) (k : kern) : Prop :=
  sent_to 1 (ktrace k) = received_from sock (ktrace k) ∧
  match x with
  | inl s => input = sent_to sock (ktrace k) ++ unread s
  | inr _ => sent_to sock (ktrace k) `prefix_of` input
  end.

Lemma client_handle_relays R s k : relaying (inl s) k → wp R True (client_handle sock s) k relaying.
Proof.
  intros [H1 Hi]. unfold client_handle.
  assert (∀ k', sent_to 1 (ktrace k') = received_from sock (ktrace k') →
    sent_to sock (ktrace k') = sent_to sock (ktrace k) →
    wp R True (sys_ (Close sock) ;; Exit 0 : io turn_state) k' relaying) as Hstop.
  { intros k' H1' H2'. apply wp_sys_. intros r k2 _ Hk2. split.
    - rewrite (sent_to_quiet 1 (Close sock) _ _ _ eq_refl Hk2), (received_from_quiet sock (Close sock) _ _ _ eq_refl Hk2). done.
    - rewrite (sent_to_quiet sock (Close sock) _ _ _ eq_refl Hk2), H2'. rewrite Hi. by apply prefix_app_r. }
  destruct s as [recvbuf stdin | recvbuf stdin]; cbn [unread] in Hi.
  - destruct stdin as [| c stdin]; [by apply Hstop |].
    pose proof (line_app (MAXLEN - 1) (c :: stdin)) as Hline.
    destruct (line (MAXLEN - 1) (c :: stdin)) as [l rest]. cbn [fst snd] in Hline.
    case_bool_decide; [by apply Hstop |].
    assert (NUL ∉ l) as Hl.
    { intros Hin. apply Htext. rewrite Hi, <- Hline. rewrite !elem_of_app. tauto. }
    rewrite (c_string_app_nul l []) by done.
    change (wp R True (sys_ (Write sock l) ;; Ret (Receiving recvbuf rest)) k relaying).
    apply wp_sys_. intros r k2 _ Hk2. apply kstep_neutral in Hk2 as ->; [| done]. split; flow_simpl.
    + rewrite (proj2 (Z.eqb_neq sock 1)) by done. by rewrite !app_nil_r.
    + rewrite Z.eqb_refl. cbn [unread]. by rewrite <- app_assoc, Hline.
  - apply wp_sys. intros r k1 _ [-> Hres]%kstep_Read.
    assert (received_from sock (ktrace (log (Read sock (Z.of_nat MAXLEN)) r k)) =
      received_from sock (ktrace k) ++ rdata r) as Hrec by (flow_simpl; by rewrite Z.eqb_refl).
    assert (∀ g, sent_to g (ktrace (log (Read sock (Z.of_nat MAXLEN)) r k)) = sent_to g (ktrace k)) as Hsent
      by (intros g; flow_simpl; apply app_nil_r).
    destruct (Z.eqb_spec (rv r) 0) as [Hv0 | Hv0].
    { apply Hstop; [| apply Hsent]. rewrite Hrec, Hsent, H1.
      destruct Hres as [[? _] | (_ & Hl & _)]; [congruence |].
      destruct (rdata r); [by rewrite app_nil_r | simpl in Hl; lia]. }
    destruct (Z.eqb_spec (rv r) (-1)) as [Hv1 | Hv1].
    + destruct Hres as [[_ Hd] | (? & _)]; [| lia]. rewrite Hd, app_nil_r in Hrec.
      apply wp_sys_. intros r2 k2 _ Hk2. apply kstep_neutral in Hk2 as ->; [| done].
      apply wp_sys_. intros r3 k3 _ Hk3. apply kstep_neutral in Hk3 as ->; [| done].
      split; flow_simpl; rewrite !app_nil_r; by rewrite ?H1, ?Hi.
    + destruct Hres as [[? _] | (_ & Hl & _)]; [done |].
      rewrite Hl, Nat2Z.id. unfold store. rewrite take_app_length.
      apply wp_sys_. intros r2 k2 _ Hk2. apply kstep_neutral in Hk2 as ->; [| done].
      apply wp_sys_. intros r3 k3 _ Hk3. apply kstep_neutral in Hk3 as ->; [| done].
      split; flow_simpl; rewrite !app_nil_r, ?Z.eqb_refl.
      * by rewrite H1.
      * cbn [unread]. rewrite (proj2 (Z.eqb_neq 1 sock)) by done. by rewrite app_nil_r, Hi.
Qed.

Lemma client_relays (p : mstate (client sock input)) : reachable p → relaying (pstate p) (pkern p).
Proof.
  intros (p0 & Hi & Hr)%reachable_anything.
  refine (server_invariant _ _ anything relaying _ _ p0 p Hi Hr).
  - intros s k (-> & _ & Htr). unfold relaying. by rewrite Htr.
  - intros s k. apply client_handle_relays.
Qed.
End client.

(** * Both sides *)

Definition ctrace {S} (p : process S) : list (call * result) := ktrace (pkern p).

(** The server, with any connections, and the client on the connection the
    server has under [f]. *)
Definition conversation (fuel : nat) (listen_sock f sock : Z) (input : data) : machine :=
  network (long_server listen_sock fuel) (LongConnection.Client.client sock input) ctrace ctrace f sock.

Lemma calm_trace f tr :
  NUL ∉ received_from f tr → (∀ r, (Close f, r) ∉ tr) → Forall (uncurry (calm f)) tr.
Proof.
  induction tr as [| [c r] tr IH]; intros Hn Hc; [by constructor |].
  change (received_from f ((c, r) :: tr)) with (received_from f tr ++
    match c with Read f' _ => if f' =? f then rdata r else [] | _ => [] end) in Hn.
  rewrite elem_of_app in Hn. constructor.
  - destruct c; try done; simpl; [intros -> Hin; rewrite Z.eqb_refl in Hn; tauto |].
    intros ->. by eapply Hc, list_elem_of_here.
  - apply IH; [tauto |]. intros r' Hin. by eapply Hc, list_elem_of_further.
Qed.

(** C5. The conversation of the long-connection client with the echo server, end
    to end.  For any input without a NUL, however the two processes, their
    kernels and the network interleave, in whatever pieces each side reads what
    the other's kernel took, whatever parts of an answer the server's [write]s
    take, and whatever the server does for other connections: as long as the
    server has not closed the connection, what the client's terminal shows is the
    beginning of what the server read, a part of the input in its order.  If no
    [write] of the client was short it is a prefix of the input; and once the
    server has read and answered all it was sent, and the client has read all the
    answers, it is all of the input up to the line the client will read next. *)
Theorem long_conversation (fuel : nat) (listen_sock f sock : Z) (input : data)
    (st : mstate (conversation fuel listen_sock f sock input)) :
  f ≠ listen_sock → sock ≠ 1 → NUL ∉ input → reachable st →
  let server := ctrace st.1 in
  let client := ctrace st.2 in
  let shown := sent_to 1 client in
  (∀ r, (Close f, r) ∉ server) →
  shown `prefix_of` received_from f server ∧ shown `sublist_of` input ∧
  (accepted sock client = sent_to sock client →
   shown `prefix_of` input ∧
   ∀ ptrs s, pstate st.1 = inl ptrs → kepoll (pkern st.1) !! f ≠ Some writing →
     pstate st.2 = inl s →
     received_from f server = accepted sock client →
     received_from sock client = accepted f server →
     input = shown ++ unread s).
Proof.
  intros Hf Hsock Hn Hr server client shown Hopen.
  destruct (network_reachable _ _ _ _ _ _ st Hr) as (Hs & Hc & Hd).
  apply andb_true_iff in Hd as [Hd1 Hd2]. apply bool_decide_eq_true in Hd1, Hd2.
  fold server client in Hd1, Hd2.
  destruct (client_relays sock input Hsock Hn st.2 Hc) as [Hshown Hsent].
  change (ktrace (pkern st.2)) with client in Hshown, Hsent. fold shown in Hshown.
  assert (sent_to sock client `prefix_of` input) as Hpre.
  { destruct (pstate st.2) as [s |]; [by exists (unread s) | done]. }
  assert (received_from f server `sublist_of` input) as Hsub.
  { etrans; [by apply prefix_sublist |]. etrans; [apply accepted_sublist | by apply prefix_sublist]. }
  assert (NUL ∉ received_from f server) as Hnul.
  { intros Hin. apply Hn. by eapply elem_of_sublist. }
  pose proof (server_flows listen_sock f Hf fuel st.1 Hs (calm_trace _ _ Hnul Hopen)) as Hfl.
  assert (accepted f server `prefix_of` received_from f server) as Hans.
  { destruct (pstate st.1); [by eapply flowing_prefix | exact Hfl]. }
  assert (shown `prefix_of` received_from f server) as H1 by (rewrite Hshown; by etrans).
  split_and!; [done | by etrans; [apply prefix_sublist |] |].
  intros Hfull. split; [etrans; [exact H1 |]; etrans; [exact Hd1 |]; by rewrite Hfull |].
  intros ptrs s Hp Hquiet Hps Hr1 Hr2. rewrite Hps in Hsent. rewrite Hp in Hfl.
  destruct Hfl as [_ Hb]. unfold received, answered in Hb.
  change (ktrace (pkern st.1)) with server in Hb.
  assert (received_from f server = accepted f server) as Heq.
  { destruct (kepoll (pkern st.1) !! f) as [ev |]; [case_decide; [congruence | by destruct Hb] | done]. }
  by rewrite Hsent, Hshown, Hr2, <- Heq, Hr1, Hfull.
Qed.

(** ** A run: two lines; the first answer is written in two parts and read in two
    pieces, the second of them with the next answer. *)
Module Run.
Definition nl : byte := Ascii.ascii_of_nat 10.
Definition typed : data := text "hi" ++ nl :: text "yo" ++ [nl].
Definition pair : machine := conversation 9 3 4 5 typed.
Definition start : mstate pair :=
  (Process (inl ∅) (Kern {[3]} {[3 := EPOLLIN]} []),
   Process (inl (LongConnection.Client.Sending (zeros LongConnection.Client.MAXLEN) typed))
     (Kern {[0; 1; 2; 5]} ∅ [])).
Definition schedule : list (mlabel pair) :=
  [inl [ready [(3, EPOLLIN)]; ok 4; ok 0; ok 0; ok 0; ok 0; ok 0; ok 0];
   inr [ok 3];
   inl [ready [(4, reading)]; got (text "h"); got (text "i" ++ [nl]); err EAGAIN; ok 0; ok 0];
   inl [ready [(4, writing)]; ok 0; ok 1; err EAGAIN; ok 2; ok 0];
   inr [got (text "h"); ok 1; ok 0];
   inr [ok 3];
   inl [ready [(4, reading)]; got (text "yo" ++ [nl]); err EAGAIN; ok 0; ok 0];
   inl [ready [(4, writing)]; ok 0; ok 3; ok 0];
   inr [got (text "i" ++ nl :: text "yo" ++ [nl]); ok 5; ok 0]].

(** What is evaluated of the end of the run. *)
Definition at_end (st : mstate pair) : bool :=
  bool_decide (accepted 5 (ctrace st.2) = sent_to 5 (ctrace st.2)) &&
  bool_decide (received_from 4 (ctrace st.1) = accepted 5 (ctrace st.2)) &&
  bool_decide (received_from 5 (ctrace st.2) = accepted 4 (ctrace st.1)) &&
  bool_decide (kepoll (pkern st.1) !! 4 ≠ Some writing) &&
  forallb (λ x, match x.1 with Close _ => false | _ => true end) (ctrace st.1) &&
  match pstate st.1, pstate st.2 with inl _, inl s => bool_decide (unread s = []) | _, _ => false end.

Lemma long_conversation_witness :
  ∃ st : mstate pair, reachable st ∧ sent_to 1 (ctrace st.2) = typed.
Proof.
  assert (match exec pair schedule start with Ok st => at_end st | _ => false end = true) as He
    by (vm_compute; reflexivity).
  destruct (exec pair schedule start) as [st | |] eqn:Hrun; [| done | done].
  assert (reachable st) as Hr.
  { eapply (exec_reachable pair schedule start); [| exact Hrun].
    split; [| split; [| vm_compute; reflexivity]].
    - exists ∅, (Kern {[3]} {[3 := EPOLLIN]} []). split; [reflexivity | repeat split].
    - exists (LongConnection.Client.Sending (zeros LongConnection.Client.MAXLEN) typed), (Kern {[0; 1; 2; 5]} ∅ []).
      split; [reflexivity | repeat split]. }
  exists st. split; [exact Hr |].
  unfold at_end in He. repeat (apply andb_true_iff in He as [He ?]).
  repeat match goal with H : bool_decide _ = true |- _ => apply bool_decide_eq_true in H end.
  destruct (pstate st.1) as [ptrs |] eqn:Hp; [| done]. destruct (pstate st.2) as [s |] eqn:Hs; [| done].
  assert (∀ r, (Close 4, r) ∉ ctrace st.1) as Hopen.
  { intros r Hin%list_elem_of_In. match goal with H : forallb _ _ = true |- _ =>
      by apply (proj1 (forallb_forall _ _) H) in Hin end. }
  destruct (long_conversation 9 3 4 5 typed st ltac:(lia) ltac:(lia)
    ltac:(by apply (bool_decide_unpack _)) Hr Hopen) as (_ & _ & Hall).
  destruct (Hall ltac:(done)) as [_ Hend].
  assert (unread s = []) as Hu by (by eapply bool_decide_eq_true_1).
  rewrite (Hend ptrs s), Hu, app_nil_r; done.
Defined.
End Run.
