(* ===== verification/AServer.v ===== *)
(** [boost_doc/IO/aServer.cpp]: an asynchronous TCP server whose connections
    share one input buffer.  The completions of the operations that are pending
    come in any order and with any result, which covers the cancellation of
    those of a socket that is destroyed (its handlers do not keep it). *)
From S2P Require Import Prelude Posix.
Open Scope nat_scope.

Definition buffer_size : nat := 512.

(** A line of the output: a client's address, or what [write_handler] prints of
    the buffer. *)
Inductive line := Client (address : data) | Complete (buffer : data) | Failure (what : data) | End.

Record Server := MkServer {
  buffer_in : data;
  accepting : bool;          (* an accept operation is pending *)
  reads : nat;               (* reads and writes that are pending *)
  writes : nat;
  sent : list data;          (* what completed writes handed to clients *)
  out : list line;
  running : bool
}.

(** The constructor, which starts accepting. *)
Definition construct : Server := MkServer (zeros buffer_size) true 0 0 [] [] true.

Definition start (s : Server) : Server :=
  MkServer (buffer_in s) true (reads s) (writes s) (sent s) (out s) (running s).

Definition print (l : line) (s : Server) : Server :=
  MkServer (buffer_in s) (accepting s) (reads s) (writes s) (sent s) (out s ++ [l]) (running s).

(** The bytes of the greeting, with the NUL that ends the literal. *)
Definition greeting : data := text "hello CSND_Ayo" ++ [NUL].

(** The completion of the accept: an error; a connection; or one whose peer is
    gone, where [remote_endpoint] throws, out of [ios.run] into [main]. *)
Inductive accepted := AcceptError | Connected (address : data) | Gone (what : data).
Definition accept_handler (r : accepted) (s : Server) : Server :=
  let s := MkServer (buffer_in s) false (reads s) (writes s) (sent s) (out s) (running s) in
  match r with
  | AcceptError => s
  | Connected a =>
      let s := print (Client a) s in
      start (MkServer (buffer_in s) (accepting s) (S (reads s)) (S (writes s)) (sent s) (out s) (running s))
  | Gone w =>
      MkServer (buffer_in s) false (reads s) (writes s) (sent s) (out s ++ [Failure w; End]) false
  end.

(** [write_handler], the handler of reads and writes alike: it prints the buffer
    as a string. *)
Definition write_handler (s : Server) : outcome Server :=
  b ← from_option_ub (c_string (buffer_in s));
  Ok (print (Complete b) s).

(** The completions: a read of at most the buffer or an error ([None]), a write
    of some bytes of the greeting or an error, and the end of [ios.run] when
    nothing is pending. *)
Inductive label := LAccept (r : accepted) | LRead (d : option data) | LWrite (n : option nat) | LEnd.

Definition step (l : label) (s : Server) : outcome Server :=
  _ ← await (running s);
  match l with
  | LAccept r =>
      _ ← await (accepting s);
      Ok (accept_handler r s)
  | LRead d =>
      _ ← await (0 <? reads s);
      _ ← await (length (default [] d) <=? buffer_size);
      write_handler (MkServer (store (buffer_in s) (default [] d)) (accepting s) (reads s - 1)
        (writes s) (sent s) (out s) (running s))
  | LWrite n =>
      _ ← await (0 <? writes s);
      write_handler (MkServer (buffer_in s) (accepting s) (reads s) (writes s - 1)
        (sent s ++ [take (default 0 n) greeting]) (out s) (running s))
  | LEnd =>
      _ ← await (negb (accepting s) && (reads s =? 0) && (writes s =? 0));
      Ok (MkServer (buffer_in s) false 0 0 (sent s) (out s ++ [End]) false)
  end.

Definition aserver : machine := Machine Server label (λ s, s = construct) step.

(** * Accounting *)
Definition is_client (l : line) : bool := match l with Client _ => true | _ => false end.
Definition is_complete (l : line) : bool := match l with Complete _ => true | _ => false end.
Definition lines (p : line → bool) (s : Server) : nat := length (List.filter p (out s)).

Lemma lines_app (p : line → bool) (l1 l2 : list line) : length (List.filter p (l1 ++ l2)) = length (List.filter p l1) + length (List.filter p l2).
Proof. by rewrite List.filter_app, length_app. Qed.

Record aserver_inv (s : Server) : Prop := {
  inv_buffer : length (buffer_in s) = buffer_size;
  inv_handlers : 2 * lines is_client s = lines is_complete s + reads s + writes s;
  inv_greetings : lines is_client s = length (sent s) + writes s;
  inv_sent : Forall (λ d, d `prefix_of` greeting) (sent s)
}.

Lemma prefix_take_greeting n : take n greeting `prefix_of` greeting.
Proof. apply prefix_take. Qed.

Lemma write_handler_Ok s s' : write_handler s = Ok s' →
  ∃ b, c_string (buffer_in s) = Some b ∧ s' = print (Complete b) s.
Proof. intros H. unfold write_handler in H. step_inv. eauto. Qed.

(** A step that runs the handler, with its guards as inequalities. *)
Ltac handler_inv :=
  try match goal with H : write_handler _ = Ok _ |- _ => apply write_handler_Ok in H as (? & _ & ->) end;
  repeat match goal with
  | H : (_ <? _) = true |- _ => apply Nat.ltb_lt in H
  | H : (_ <=? _) = true |- _ => apply Nat.leb_le in H
  | H : (_ =? _) = true |- _ => apply Nat.eqb_eq in H
  | H : (_ && _)%bool = true |- _ => apply andb_true_iff in H as [? ?]
  end.

Lemma aserver_inv_reachable (s : mstate aserver) : reachable s → aserver_inv s.
Proof.
  revert s. apply invariant_ind; [intros s ->; split; try done; constructor |].
  intros l s s' _ [Hb Hh Hg Hs] Hstep. change (step l s = Ok s') in Hstep. unfold step, lines in *.
  destruct l as [r | d | n |]; step_inv; handler_inv.
  - destruct r; split; unfold lines; simpl; rewrite ?lines_app; simpl; (done || lia).
  - split; unfold lines; simpl; rewrite ?lines_app; simpl; try done; try lia.
    rewrite store_length; [done | lia].
  - split; unfold lines; simpl; rewrite ?lines_app, ?length_app; simpl; try done; try lia.
    apply Forall_app. split; [done |]. constructor; [apply prefix_take_greeting | done].
  - split; unfold lines; simpl; rewrite ?lines_app; simpl; (done || lia).
Qed.

(** The asynchronous server keeps its books: whatever the order and the
    results of the completions, each connection accounts for two handlers, which
    have run and printed or are pending, and each connection is sent one greeting,
    of which a prefix went out. *)
Theorem aserver_accounts (s : mstate aserver) :
  reachable s →
  2 * lines is_client s = lines is_complete s + reads s + writes s ∧
  lines is_client s = length (sent s) + writes s ∧
  Forall (λ d, d `prefix_of` greeting) (sent s).
Proof. by intros [_ Hh Hg Hs]%aserver_inv_reachable. Qed.

(** Reads that leave the last byte of the buffer alone. *)
Definition polite (l : label) : Prop :=
  match l with LRead (Some d) => length d < buffer_size | _ => True end.
Definition ended_by_nul (s : Server) : Prop :=
  length (buffer_in s) = buffer_size ∧ buffer_in s !! (buffer_size - 1) = Some NUL.

Lemma store_ended b d :
  length b = buffer_size → b !! (buffer_size - 1) = Some NUL → length d < buffer_size →
  length (store b d) = buffer_size ∧ store b d !! (buffer_size - 1) = Some NUL.
Proof.
  intros Hl Hn Hd. split; [rewrite store_length; lia |]. unfold store.
  rewrite lookup_app_r, lookup_drop by lia.
  by replace (length d + (buffer_size - 1 - length d)) with (buffer_size - 1) by lia.
Qed.

Lemma ended_c_string b : length b = buffer_size → b !! (buffer_size - 1) = Some NUL →
  c_string b ≠ None.
Proof.
  intros _ Hn. unfold c_string. rewrite fmap_None, strlen_None. intros H. apply H.
  by eapply list_elem_of_lookup_2.
Qed.

Lemma polite_store d b :
  polite (LRead d) → length b = buffer_size → b !! (buffer_size - 1) = Some NUL →
  length (store b (default [] d)) = buffer_size ∧
  store b (default [] d) !! (buffer_size - 1) = Some NUL.
Proof.
  intros Hp Hl Hn. apply store_ended; [done | done |].
  destruct d; [done | unfold buffer_size; simpl; lia].
Qed.

Lemma ended_step l s s' : polite l → ended_by_nul s → step l s = Ok s' → ended_by_nul s'.
Proof.
  intros Hp [Hl Hn] Hstep. unfold step in Hstep. destruct l as [r | d | n |]; step_inv; handler_inv.
  - by destruct r.
  - by eapply polite_store.
  - done.
  - done.
Qed.

Lemma ended_safe l s : polite l → ended_by_nul s → step l s ≠ UB.
Proof.
  intros Hp [Hl Hn] Hstep. unfold step in Hstep. destruct l as [r | d | n |]; step_inv; unfold write_handler in *;
    step_inv; simpl in *.
  - destruct (polite_store d _ Hp Hl Hn) as [H1 H2]. by eapply ended_c_string.
  - by eapply ended_c_string.
Qed.

(** Clients that send less than the buffer at a time cannot make the server
    misbehave: in every state such completions lead to, no further one is
    undefined. *)
Theorem aserver_safe (s0 s : mstate aserver) (l : label) :
  minit aserver s0 → rtc (msteps aserver polite) s0 s → polite l → mstep aserver l s ≠ UB.
Proof.
  intros -> Hr Hl. apply ended_safe; [done |].
  assert (ended_by_nul construct) as Hi by by split.
  revert Hi. induction Hr as [| s1 s2 s3 (l' & Hp & Hs) _ IH]; [done |].
  intros Hi. apply IH. exact (ended_step l' s1 s2 Hp Hi Hs).
Qed.

(** A client that fills the buffer makes the handler read past its end. *)
Theorem aserver_overruns (d : data) (a : data) :
  length d = buffer_size → NUL ∉ d →
  ∃ s : mstate aserver, reachable s ∧ mstep aserver (LRead (Some d)) s = UB.
Proof.
  intros Hd Hn. eexists. split.
  - eapply (exec_reachable aserver [LAccept (Connected a)] construct _ eq_refl). reflexivity.
  - change (step (LRead (Some d)) (accept_handler (Connected a) construct) = UB).
    unfold step, accept_handler, write_handler. cbn -[store buffer_size]. rewrite Hd. cbn -[store buffer_size zeros].
    replace (store (zeros buffer_size) d) with d.
    + unfold c_string. by rewrite (proj2 (strlen_None d) Hn).
    + unfold store. rewrite drop_ge by (rewrite Hd; done). by rewrite app_nil_r.
Qed.

(** The buffer is shared: what the handler of one client's write prints can be
    what another client sent. *)
Theorem aserver_mixes :
  ∃ s : mstate aserver, reachable s ∧
    out s = [Client (text "A"); Client (text "B"); Complete (text "secret of A"); Complete (text "secret of A")].
Proof.
  eexists. assert (reachable _) as Hr by run_schedule aserver
    [LAccept (Connected (text "A")); LAccept (Connected (text "B"));
     LRead (Some (text "secret of A")); LWrite (Some 15)].
  split; [exact Hr | reflexivity].
Qed.

Lemma aserver_accounts_witness :
  ∃ s : mstate aserver, reachable s ∧ lines is_client s = 2 ∧
    2 * lines is_client s = lines is_complete s + reads s + writes s.
Proof.
  eexists. assert (reachable _) as Hr by run_schedule aserver
    [LAccept (Connected (text "A")); LRead None; LAccept (Connected (text "B"))].
  split_and!; [exact Hr | reflexivity | apply (aserver_accounts _ Hr)].
Defined.

Lemma aserver_safe_witness :
  mstep aserver (LWrite (Some 15)) (accept_handler (Connected (text "A")) construct) ≠ UB.
Proof.
  apply (aserver_safe construct); [reflexivity | | exact I].
  eapply rtc_l; [| apply rtc_refl]. exists (LAccept (Connected (text "A"))). by split.
Defined.
