(* ===== verification/Lang.v ===== *)
(** Small programs of [src/code/lang] and [src/code/boost_doc]: the tokenizer of
    [cut_line.cpp], the copies of [redirect.cpp] and [file_iterator.cpp], the
    reversed sort of [param_iter.cpp], the static members of
    [static_template.cpp], the callback of [Function/function.cpp], the loop of
    [Tool/progress_bar.cpp], the list of [DS/any.cpp] and the serialization of
    [IO/serlizrlisze.cpp]. *)
From S2P Require Import Prelude Text.
From Stdlib Require Import Ascii.
Open Scope Z_scope.

Abbreviation chars := String.list_ascii_of_string.

(** * [cut_line.cpp]: words, and what separates them *)
Module CutLine.
Import Getline.

(** [std::ctype::is(space, c)] in the classic locale. *)
Definition classic_space (c : ascii) : bool :=
  let n := nat_of_ascii c in ((9 <=? n) && (n <=? 13) || (n =? 32))%nat.
(** [csv_whitespace::do_is] for the mask [space]. *)
Definition csv_whitespace (c : ascii) : bool :=
  if Ascii.eqb c " " then false else if Ascii.eqb c "," then true else classic_space c.

Section words.
Context (space : ascii → bool).

(** [s >> token]: leading spaces are skipped, characters are taken up to the
    next space; the extraction fails when there is none. *)
Fixpoint skip_space (l : list ascii) : list ascii :=
  match l with [] => [] | c :: l' => if space c then skip_space l' else l end.
Fixpoint take_word (l : list ascii) : list ascii * list ascii :=
  match l with
  | [] => ([], [])
  | c :: l' => if space c then ([], l) else let '(w, r) := take_word l' in (c :: w, r)
  end.
Definition extract (l : list ascii) : option (list ascii * list ascii) :=
  match skip_space l with [] => None | l => Some (take_word l) end.

(** [while (s >> token) ...]: the tokens, or [None] when the fuel is used up. *)
Fixpoint tokens (fuel : nat) (l : list ascii) : option (list (list ascii)) :=
  match fuel with
  | O => None
  | S fuel =>
      match extract l with
      | None => Some []
      | Some (w, r) => ws ← tokens fuel r; Some (w :: ws)
      end
  end.

(** The reference: the text cut at every space, without the empty pieces. *)
Fixpoint pieces (l : list ascii) : list (list ascii) :=
  match l with
  | [] => [[]]
  | c :: l =>
      if space c then [] :: pieces l
      else match pieces l with [] => [[c]] | w :: ws => (c :: w) :: ws end
  end.
Definition fields (l : list ascii) : list (list ascii) := filter (λ w, w ≠ []) (pieces l).

Lemma pieces_word l : pieces l = (take_word l).1 :: match (take_word l).2 with [] => [] | _ :: r => pieces r end.
Proof.
  induction l as [| c l IH]; [done |]. simpl. destruct (space c) eqn:E; [done |].
  rewrite IH. by destruct (take_word l) as [w [| c' r]].
Qed.

Lemma fields_skip l : fields l = fields (skip_space l).
Proof.
  induction l as [| c l IH]; [done |]. simpl. destruct (space c) eqn:E; [| done].
  unfold fields in *. simpl. rewrite E. by rewrite filter_cons_False by naive_solver.
Qed.

Lemma take_word_rest l : take_word l = ((take_word l).1, []) ∨
  ∃ c r, take_word l = ((take_word l).1, c :: r) ∧ space c = true.
Proof.
  induction l as [| c l IH]; [by left |]. simpl. destruct (space c) eqn:E.
  - right. by exists c, l.
  - destruct (take_word l) as [w r]. simpl in *. destruct IH as [[= ->] | (c' & r' & [= ->] & Hs)]; [by left |].
    right. by exists c', r'.
Qed.

Lemma take_word_length l : (length (take_word l).2 <= length l)%nat.
Proof. induction l as [| c l IH]; simpl; [lia |]. destruct (space c); [done |]. destruct (take_word l). simpl in *. lia. Qed.

Lemma skip_space_length l : (length (skip_space l) <= length l)%nat.
Proof. induction l as [| c l IH]; simpl; [lia |]. destruct (space c); simpl; lia. Qed.

Lemma skip_space_head l c r : skip_space l = c :: r → space c = false.
Proof. induction l as [| a l IH]; simpl; [done |]. destruct (space a) eqn:E; [done | by intros [= -> _]]. Qed.

Lemma fields_nil l : skip_space l = [] → fields l = [].
Proof. intros H. rewrite fields_skip, H. done. Qed.

Lemma fields_cons l c r :
  skip_space l = c :: r → fields l = (take_word (c :: r)).1 :: fields (take_word (c :: r)).2.
Proof.
  intros H. rewrite fields_skip, H. unfold fields at 1. rewrite pieces_word.
  pose proof (skip_space_head l c r H) as Hc.
  assert ((take_word (c :: r)).1 ≠ []) as Hne.
  { simpl. rewrite Hc. by destruct (take_word r). }
  rewrite filter_cons_True by done. f_equal.
  destruct (take_word_rest (c :: r)) as [E | (c' & r' & E & Hs)]; rewrite E; simpl; [done |].
  unfold fields. simpl. rewrite Hs. by rewrite filter_cons_False by naive_solver.
Qed.

Lemma tokens_fields fuel l : (length l < fuel)%nat → tokens fuel l = Some (fields l).
Proof.
  revert l. induction fuel as [| fuel IH]; intros l Hl; [lia |]. cbn [tokens]. unfold extract.
  destruct (skip_space l) as [| c r] eqn:E; [by rewrite fields_nil |].
  rewrite (fields_cons _ _ _ E). pose proof (skip_space_length l) as Hlen. rewrite E in Hlen.
  pose proof (skip_space_head _ _ _ E) as Hc.
  pose proof (take_word_length r) as Hr. simpl in *. rewrite Hc in *.
  destruct (take_word r) as [w r']. simpl in *. by rewrite IH by lia.
Qed.

Lemma pieces_spec l :
  Forall (Forall (λ c, space c = false)) (pieces l) ∧
  concat (pieces l) = filter (λ c, space c = false) l.
Proof.
  induction l as [| c l [Hf Hc]]; [by split; repeat constructor |]. simpl. destruct (space c) eqn:E.
  - rewrite filter_cons_False by congruence. split; [by constructor | done].
  - rewrite filter_cons_True by done. destruct (pieces l) as [| w ws].
    + simpl in *. rewrite <- Hc. split; [by repeat constructor | done].
    + apply Forall_cons in Hf as [Hw Hws]. simpl in *. rewrite <- Hc.
      split; [by repeat constructor | done].
Qed.

Lemma concat_fields ws : concat (filter (λ w : list ascii, w ≠ []) ws) = concat ws.
Proof.
  induction ws as [| w ws IH]; [done |]. rewrite filter_cons. case_decide as Hw; simpl; [by rewrite IH |].
  by destruct w; [| naive_solver].
Qed.
End words.

(** The program: the same text read with the two classifications. *)
Definition in_ : list ascii := chars "Column 1,Column 2,Column 3" ++ newline :: chars "123,456,789".
Definition main (fuel : nat) (input : list ascii) : option (list (list ascii) * list (list ascii)) :=
  t1 ← tokens classic_space fuel input;
  t2 ← tokens csv_whitespace fuel input;
  Some (t1, t2).

(** The two loops of [cut_line.cpp] on any text: with enough fuel each ends
    with the pieces between the separators of its classification, without the
    empty ones.  So no token has a separator in it, no token is empty, and
    together they are the text without its separators; the imbued classification
    keeps the spaces of a field and cuts at commas. *)
Theorem cut_line_tokens (fuel : nat) (input : list ascii) :
  (length input < fuel)%nat →
  main fuel input = Some (fields classic_space input, fields csv_whitespace input) ∧
  ∀ space, (∀ w, w ∈ fields space input → w ≠ [] ∧ Forall (λ c, space c = false) w) ∧
    concat (fields space input) = filter (λ c, space c = false) input.
Proof.
  intros Hf. split; [unfold main; by rewrite !tokens_fields |]. intros space.
  destruct (pieces_spec space input) as [Hall Hc]. rewrite Forall_forall in Hall. split.
  - intros w Hw. unfold fields in Hw. apply list_elem_of_filter in Hw as [Hw Hin]. auto.
  - unfold fields. by rewrite concat_fields.
Qed.

Lemma cut_line_tokens_witness :
  main 60 in_ = Some
    (chars <$> ["Column"; "1,Column"; "2,Column"; "3"; "123,456,789"]%string,
     chars <$> ["Column 1"; "Column 2"; "Column 3"; "123"; "456"; "789"]%string).
Proof.
  etrans; [exact (proj1 (cut_line_tokens 60 in_ ltac:(unfold in_; simpl; lia))) | reflexivity].
Defined.
End CutLine.

(** * [redirect.cpp] and [file_iterator.cpp]: line by line copies *)
Module Copies.
Import Getline.

(** [for (string line; getline(in, line); line.clear()) cout << line << endl;]
    what is written, or [None] when the fuel is used up. *)
Fixpoint copy_lines (fuel : nat) (input : stream) (line : text) : option text :=
  match fuel with
  | O => None
  | S fuel =>
      let '(input, line) := getline input line in
      if failbit input then Some []
      else out ← copy_lines fuel input []; Some (line ++ newline :: out)
  end.

(** [redirect.cpp]: what appears on the screen and in the file; the buffer of a
    file that did not open takes nothing. *)
Definition redirect (fuel : nat) (opened : bool) (input : text) : option (text * text) :=
  out ← copy_lines fuel (Stream input false false) [];
  Some (if opened then ([], out) else (chars "打开文件失败" ++ [newline], [])).

(** [file_iterator.cpp]: what appears on the screen, and in [to.cpp], which is
    opened and passed on but never written. *)
Definition file_iterator (fuel : nat) (from : option text) : option (text * text) :=
  out ← copy_lines fuel (fstream from) [];
  Some (out ++ [newline], []).
(** [skip_space1]: the words of the file, one to a line. *)
Definition skip_space1 (fuel : nat) (input : text) : option text :=
  ws ← CutLine.tokens CutLine.classic_space fuel input;
  Some (concat ((λ w, w ++ [newline]) <$> ws)).

(** The text, with a newline at its end if it has an unfinished last line. *)
Definition finished (l : text) : text :=
  match (split_lines l).2 with [] => l | _ => l ++ [newline] end.

Lemma copy_lines_spec fuel l s :
  (length l < fuel)%nat →
  copy_lines fuel (Stream l false false) s =
    Some (concat (map (λ x, x ++ [newline]) (split_lines l).1) ++
      match (split_lines l).2 with [] => [] | last => last ++ [newline] end).
Proof.
  revert l s. induction fuel as [| fuel IH]; intros l s Hl; [lia |]. cbn [copy_lines].
  pose proof (take_line_split l) as Ht. unfold getline. cbn [eofbit failbit orb rest].
  destruct (take_line l) as [x [r |]] eqn:Et, (split_lines l) as [full last].
  - destruct Ht as (full' & -> & Hr & Hlt). cbn [failbit]. rewrite IH by lia. rewrite Hr. cbn.
    by rewrite <- !app_assoc.
  - destruct Ht as [-> ->]. destruct x as [| c x]; cbn [failbit]; [done |].
    destruct fuel as [| fuel]; [| done]. destruct l; [| simpl in Hl; lia]. done.
Qed.

Lemma copy_lines_finished fuel l :
  (length l < fuel)%nat → copy_lines fuel (Stream l false false) [] = Some (finished l).
Proof.
  intros Hl. rewrite copy_lines_spec by done. f_equal. unfold finished.
  pose proof (split_lines_text l) as Ht. destruct (split_lines l) as [full last]. simpl.
  destruct Ht as (Hl' & _). destruct last; [by symmetry |].
  rewrite Hl'. by rewrite <- app_assoc.
Qed.

(** The two programs copy their input: the loop ends, and the redirected
    output is the input with a newline added if its last line had none; [to.cpp]
    stays empty, the copy goes to the screen, and a missing [from.cpp] is an empty
    one. *)
Theorem copies (fuel : nat) (input : text) (from : option text) :
  (length input < fuel)%nat → (length (default [] from) < fuel)%nat →
  redirect fuel true input = Some ([], finished input) ∧
  file_iterator fuel from = Some (finished (default [] from) ++ [newline], []).
Proof.
  intros H1 H2. unfold redirect, file_iterator. rewrite (copy_lines_finished fuel input) by done. split; [done |].
  destruct from as [l |]; simpl in *; [by rewrite (copy_lines_finished fuel l) |].
  destruct fuel; [lia | done].
Qed.

Lemma copies_witness :
  redirect 4 true ["a"; newline; "b"]%char = Some ([], ["a"; newline; "b"; newline]%char) ∧
  file_iterator 4 None = Some ([newline], []).
Proof. exact (copies 4 ["a"; newline; "b"]%char None ltac:(simpl; lia) ltac:(simpl; lia)). Defined.
End Copies.

(** * [param_iter.cpp]: sorting through reverse iterators *)
Module ParamIter.
Section program.
(** [std::sort] on a range: an ascending permutation of it. *)
Context (sort : list Z → list Z).

(** A range of a vector seen through [rbegin], [rend] is the vector reversed;
    [end.base()], [begin.base()] is the vector itself.  What [func] prints, and the
    vector after it. *)
Definition func (test : list Z) : list (list Z) * list Z :=
  let test := rev (sort (rev test)) in
  ([rev test; test], test).

Definition main (test : list Z) : list (list Z) :=
  let '(out, test') := func test in
  [test] ++ out ++ [test'].

(** Whatever the vector holds, and whichever correct sorting function the
    library has: the program prints the vector, its elements in ascending order,
    and then twice in descending order, the vector having been sorted
    backwards. *)
Theorem sorted_backwards (test : list Z) :
  (∀ l, Sorted Z.le (sort l) ∧ sort l ≡ₚ l) →
  main test = [test; merge_sort Z.le test; rev (merge_sort Z.le test); rev (merge_sort Z.le test)].
Proof.
  intros Hs. unfold main, func. rewrite rev_involutive.
  assert (sort (rev test) = merge_sort Z.le test) as ->; [| done].
  apply (Sorted_unique Z.le); [apply Hs | apply (Sorted_merge_sort _) |].
  destruct (Hs (rev test)) as [_ ->]. rewrite merge_sort_Permutation.
  symmetry. apply Permutation_rev.
Qed.
End program.

Lemma sorted_backwards_witness :
  main (merge_sort Z.le) [3; 1; 2; 6] = [[3; 1; 2; 6]; [1; 2; 3; 6]; [6; 3; 2; 1]; [6; 3; 2; 1]].
Proof.
  rewrite (sorted_backwards (merge_sort Z.le) [3; 1; 2; 6]); [reflexivity |].
  intros l. split; [apply (Sorted_merge_sort _) | apply merge_sort_Permutation].
Defined.
End ParamIter.

(** * [static_template.cpp]: a static member that doubles *)
Module StaticTemplate.
(** [rs += rs] for the type of the member. *)
Class AddAssign (T : Type) := add_self : T → outcome T.
#[global] Instance add_int : AddAssign Z := λ z,
  if (- 2 ^ 31 <=? z + z) && (z + z <? 2 ^ 31) then Ok (z + z) else UB.
#[global] Instance add_string : AddAssign (list ascii) := λ s, Ok (s ++ s).

Section member.
Context {T : Type} `{AddAssign T}.

Definition sv_fun (rs : T) : outcome T := add_self rs.
(** [sRt_fun]: what it returns is the member it leaves. *)
Definition sRt_fun (rs : T) : outcome T := sv_fun rs.

(** The calls of [main]: the values printed. *)
Fixpoint calls (n : nat) (rs : T) : outcome (list T) :=
  match n with
  | O => Ok []
  | S n => rs ← sRt_fun rs; out ← calls n rs; Ok (rs :: out)
  end.
End member.

Definition main : outcome (list Z * list (list ascii)) :=
  ints ← calls 3 1;
  strings ← calls 3 (chars "100");
  Ok (ints, strings).

(** The values for an [int] that starts at [z]: they double until the result does
    not fit, where the addition is undefined. *)
Lemma calls_int n z : 0 < z →
  calls n z = if decide (z * 2 ^ Z.of_nat n < 2 ^ 31 ∨ n = 0%nat)
              then Ok ((λ i, z * 2 ^ Z.of_nat (S i)) <$> seq 0 n) else UB.
Proof.
  revert z. induction n as [| n IH]; intros z Hz; [by rewrite decide_True by by right |].
  cbn [calls]. unfold sRt_fun, sv_fun, add_self, add_int.
  assert (2 ^ Z.of_nat (S n) = 2 * 2 ^ Z.of_nat n) as E by (rewrite Nat2Z.inj_succ, Z.pow_succ_r; lia).
  assert (1 <= 2 ^ Z.of_nat n) as Hp by (pose proof (Z.pow_pos_nonneg 2 (Z.of_nat n)); lia).
  rewrite (proj2 (Z.leb_le (- 2 ^ 31) (z + z))) by lia. cbn [andb].
  destruct (Z.ltb_spec (z + z) (2 ^ 31)) as [Hlt | Hge]; cbn.
  - rewrite IH by lia. destruct (decide (z * 2 ^ Z.of_nat (S n) < 2 ^ 31 ∨ S n = 0%nat)) as [Hd | Hd].
    + rewrite decide_True by (left; nia). simpl. f_equal. f_equal; [lia |].
      rewrite <- fmap_S_seq, <- list_fmap_compose. apply list_fmap_ext. intros i x _. simpl.
      rewrite (Nat2Z.inj_succ (S x)), (Z.pow_succ_r 2 (Z.of_nat (S x))) by lia. lia.
    + rewrite decide_False; [done |]. intros [Hx | ->]; [apply Hd; left; nia |].
      apply Hd. left. simpl in *. lia.
  - rewrite decide_False; [done |]. intros [Hx | Hx]; [nia | done].
Qed.

Fixpoint repeat_text (n : nat) (s : list ascii) : list ascii :=
  match n with O => [] | S n => s ++ repeat_text n s end.
Lemma repeat_text_app m n s : repeat_text (m + n) s = repeat_text m s ++ repeat_text n s.
Proof. induction m as [| m IH]; [done |]. simpl. by rewrite IH, app_assoc. Qed.

Lemma calls_string n s k :
  calls n (repeat_text k s) = Ok ((λ i, repeat_text (k * 2 ^ (S i)) s) <$> seq 0 n).
Proof.
  revert k. induction n as [| n IH]; intros k; [done |]. cbn [calls].
  unfold sRt_fun, sv_fun, add_self, add_string. cbn [mbind outcome_bind].
  rewrite <- repeat_text_app. rewrite IH. cbn [mbind outcome_bind seq fmap list_fmap]. f_equal. f_equal.
  - f_equal. simpl. lia.
  - rewrite <- fmap_S_seq, <- list_fmap_compose. apply list_fmap_ext. intros i x _. simpl. f_equal. lia.
Qed.

(** The static members.  A member of type [int] that starts at a positive
    value prints its doubles; the calls are defined exactly as long as they fit
    in 32 bits (from 1, thirty calls).  A string member holds 2^n copies after n
    calls.  The program prints 2, 4, 8 and the string twice, four and eight
    times. *)
Theorem static_members (n : nat) (z : Z) (s : list ascii) :
  0 < z → (0 < n)%nat →
  calls n z = (if bool_decide (z * 2 ^ Z.of_nat n < 2 ^ 31)
               then Ok ((λ i, z * 2 ^ Z.of_nat (S i)) <$> seq 0 n) else UB) ∧
  calls n s = Ok ((λ i, repeat_text (2 ^ (S i)) s) <$> seq 0 n).
Proof.
  intros Hz Hn. split.
  - rewrite calls_int by done. case_decide as Hd; case_bool_decide as Hb; try done; exfalso.
    + destruct Hd; [done | lia].
    + apply Hd. by left.
  - pose proof (calls_string n s 1) as Hc. simpl in Hc. rewrite app_nil_r in Hc. rewrite Hc.
    f_equal. apply list_fmap_ext. intros i x _. f_equal. simpl. lia.
Qed.

Lemma static_members_witness :
  main = Ok ([2; 4; 8], [chars "100100"; chars "100100100100"; chars "100100100100100100100100"]) ∧
  calls 31 1 = UB.
Proof.
  destruct (static_members 3 1 (chars "100") ltac:(lia) ltac:(lia)) as [H1 H2].
  split; [unfold main; rewrite H1, H2; reflexivity |].
  exact (proj1 (static_members 31 1 [] ltac:(lia) ltac:(lia))).
Defined.

(** [float]: a finite value [m * 2 ^ e], or infinity. Adding a value to itself is
    exact until the result is too large. *)
Inductive float32 := Finite (m e : Z) | Infinite (negative : bool).
#[global] Instance add_float : AddAssign float32 := λ x,
  Ok match x with
     | Finite m e => if Z.shiftl (Z.abs m) (e + 1) <? 2 ^ 128 then Finite m (e + 1) else Infinite (m <? 0)
     | Infinite s => Infinite s
     end.

(** What an element's statement prints: the static members ([info]), the call,
    the value returned. *)
Inductive said (T : Type) := Info (ss : list ascii) (rs : T) | Called | Value (rs : T).
Arguments Info {T}. Arguments Called {T}. Arguments Value {T}.

Fixpoint statements {T} `{AddAssign T} (n : nat) (ss : list ascii) (rs : T) : outcome (list (said T)) :=
  match n with
  | O => Ok []
  | S n => rs' ← sRt_fun rs; out ← statements n ss rs'; Ok (Info ss rs :: Called :: Value rs' :: out)
  end.

(** The owners of an object: [shared_from_this] needs one and adds one. *)
Definition make_shared : nat := 1.
Definition shared_from_this (use_count : nat) : outcome nat := require (0 <? use_count)%nat;; Ok (S use_count).
(** [sp->info()->...;]: the owner that [info] returns lives as long as the statement. *)
Definition element_count : outcome nat := n ← shared_from_this make_shared; Ok (n - 1)%nat.
(** [simple_test]: the count of [x], while [sp1] lives. *)
Definition simple_test : outcome nat := shared_from_this make_shared.

Definition program : outcome (list (said Z) * list (said float32) * list (said (list ascii)) * nat * nat) :=
  ints ← statements 3 (chars "int :: 1") 1;
  floats ← statements 3 (chars "float:: 1") (Finite 10 0);
  strings ← statements 3 (chars "string 1") (chars "100");
  count ← element_count;
  x ← simple_test;
  Ok (ints, floats, strings, count, x).

Definition value_said {T} (x : said T) : option T := match x with Value v => Some v | _ => None end.

(** The values the statements print are those of the calls. *)
Lemma statements_calls {T} `{AddAssign T} n ss (rs : T) :
  omap (M:=list) value_said <$> statements n ss rs = calls n rs.
Proof.
  revert rs. induction n as [| n IH]; intros rs; [done |]. cbn [statements calls].
  destruct (sRt_fun rs) as [rs' | |]; [| done..]. cbn [mbind outcome_bind]. rewrite <- (IH rs').
  by destruct (statements n ss rs').
Qed.

Lemma shiftl_double m e : 0 <= e → Z.shiftl (Z.abs m) (e + 1) = Z.abs m * 2 ^ (e + 1).
Proof. intros He. apply Z.shiftl_mul_pow2. lia. Qed.

Lemma calls_infinite n b : calls n (Infinite b) = Ok (replicate n (Infinite b)).
Proof.
  induction n as [| n IH]; [done |]. cbn [calls]. change (sRt_fun (Infinite b)) with (Ok (Infinite b)).
  cbn [mbind outcome_bind]. by rewrite IH.
Qed.

(** A float member is never undefined: it doubles, and stays infinite once its
    value would need more than 128 bits. *)
Theorem static_float (n : nat) (m e : Z) :
  0 < m → 0 <= e →
  calls n (Finite m e) =
    Ok ((λ i, let e' := e + Z.of_nat (S i) in if m * 2 ^ e' <? 2 ^ 128 then Finite m e' else Infinite false) <$> seq 0 n).
Proof.
  intros Hm. revert e. induction n as [| n IH]; intros e He; [done |]. cbn [calls].
  change (sRt_fun (Finite m e)) with
    (Ok (if Z.shiftl (Z.abs m) (e + 1) <? 2 ^ 128 then Finite m (e + 1) else Infinite (m <? 0))).
  cbn [mbind outcome_bind]. rewrite shiftl_double, Z.abs_eq by lia. change (seq 0 (S n)) with (0%nat :: seq 1 n). rewrite fmap_cons. cbn zeta.
  replace (e + Z.of_nat 1) with (e + 1) by lia. rewrite <- fmap_S_seq, <- list_fmap_compose.
  destruct (Z.ltb_spec (m * 2 ^ (e + 1)) (2 ^ 128)) as [Hlt | Hge].
  - rewrite IH by lia. cbn [mbind outcome_bind]. do 2 f_equal. apply list_fmap_ext. intros i x _. unfold compose. cbn zeta.
    by replace (e + Z.of_nat (S (S x))) with (e + 1 + Z.of_nat (S x)) by lia.
  - replace (m <? 0) with false by (symmetry; apply Z.ltb_ge; lia). rewrite calls_infinite. cbn [mbind outcome_bind].
    do 2 f_equal. assert (Hall : ∀ i, Z.ltb (m * 2 ^ (e + Z.of_nat (S (S i)))) (2 ^ 128) = false).
    { intros i. apply Z.ltb_ge. etrans; [exact Hge |]. apply Z.mul_le_mono_nonneg_l; [lia |].
      apply Z.pow_le_mono_r; lia. }
    transitivity ((λ _ : nat, Infinite false) <$> seq 0 n).
    + rewrite (const_fmap (λ _ : nat, Infinite false) (seq 0 n) (Infinite false)) by done. by rewrite length_seq.
    + apply list_fmap_ext. intros i x _. unfold compose. cbn zeta. by rewrite Hall.
Qed.

Lemma static_float_witness : calls 3 (Finite 10 0) = Ok [Finite 10 1; Finite 10 2; Finite 10 3].
Proof. rewrite (static_float 3 10 0) by lia. reflexivity. Defined.

(** The output of the program, and the owners it counts. *)
Example static_program : program = Ok
  ([Info (chars "int :: 1") 1; Called; Value 2; Info (chars "int :: 1") 2; Called; Value 4;
    Info (chars "int :: 1") 4; Called; Value 8],
   [Info (chars "float:: 1") (Finite 10 0); Called; Value (Finite 10 1);
    Info (chars "float:: 1") (Finite 10 1); Called; Value (Finite 10 2);
    Info (chars "float:: 1") (Finite 10 2); Called; Value (Finite 10 3)],
   [Info (chars "string 1") (chars "100"); Called; Value (chars "100100");
    Info (chars "string 1") (chars "100100"); Called; Value (chars "100100100100");
    Info (chars "string 1") (chars "100100100100"); Called; Value (chars "100100100100100100100100")],
   1%nat, 2%nat).
Proof. vm_compute. reflexivity. Qed.
End StaticTemplate.

(** * [Function/function.cpp]: a callback with the sum of absolute values *)
Module Callback.
Definition is_int (z : Z) : bool := (- 2 ^ 31 <=? z) && (z <? 2 ^ 31).
(** [abs] and [+] on [int]: a result that does not fit is undefined. *)
Definition abs (a : Z) : outcome Z := if is_int (Z.abs a) then Ok (Z.abs a) else UB.
Definition add (a b : Z) : outcome Z := if is_int (a + b) then Ok (a + b) else UB.

Record MathCallBack := Math { ops1 : Z; ops2 : Z; result : Z }.

(** [Add]: the object after it, and what the callback made of the client's
    state. *)
Definition Add {S} (a b : Z) (func : Z → S → S) (s : S) : outcome (MathCallBack * S) :=
  ops1 ← abs a;
  ops2 ← abs b;
  result ← add ops1 ops2;
  Ok (Math ops1 ops2 result, func result s).

(** The program: what it prints for the callback and after it. *)
Definition main : outcome (Z * Z) :=
  '(_, (printed, c1)) ← Add 1 3 (λ result _, (result, result)) (0, 0);
  Ok (printed, c1).

(** [Add] on any two [int]: it is defined exactly when neither is the least
    [int] and the absolute values add up to at most the greatest; the callback
    then runs once, with the sum, which the object keeps. *)
Theorem add_calls_back {S} (a b : Z) (func : Z → S → S) (s : S) :
  is_int a = true → is_int b = true →
  Add a b func s =
    if bool_decide (a ≠ - 2 ^ 31 ∧ b ≠ - 2 ^ 31 ∧ Z.abs a + Z.abs b < 2 ^ 31)
    then Ok (Math (Z.abs a) (Z.abs b) (Z.abs a + Z.abs b), func (Z.abs a + Z.abs b) s) else UB.
Proof.
  unfold is_int. intros [Ha1 Ha2]%andb_true_iff [Hb1 Hb2]%andb_true_iff.
  apply Z.leb_le in Ha1, Hb1. apply Z.ltb_lt in Ha2, Hb2.
  unfold Add, abs, add, is_int.
  rewrite (proj2 (Z.leb_le (- 2 ^ 31) (Z.abs a))), (proj2 (Z.leb_le (- 2 ^ 31) (Z.abs b))) by lia.
  cbn [andb]. destruct (Z.ltb_spec (Z.abs a) (2 ^ 31)); cbn [mbind outcome_bind];
    [| rewrite bool_decide_eq_false_2; [done | lia]].
  destruct (Z.ltb_spec (Z.abs b) (2 ^ 31)); cbn [mbind outcome_bind];
    [| rewrite bool_decide_eq_false_2; [done | lia]].
  rewrite (proj2 (Z.leb_le (- 2 ^ 31) (Z.abs a + Z.abs b))) by lia. cbn [andb].
  destruct (Z.ltb_spec (Z.abs a + Z.abs b) (2 ^ 31)); cbn [mbind outcome_bind].
  - rewrite bool_decide_eq_true_2; [done | lia].
  - rewrite bool_decide_eq_false_2; [done | lia].
Qed.

Lemma add_calls_back_witness :
  main = Ok (4, 4) ∧ Add (- 2 ^ 31) 0 (λ _ s, s) tt = UB.
Proof.
  split; [unfold main; rewrite (add_calls_back 1 3) by reflexivity; reflexivity |].
  by rewrite (add_calls_back (- 2 ^ 31) 0).
Defined.
End Callback.

(** * [Tool/progress_bar.cpp]: a loop over references that indexes by value *)
Module ProgressBar.
(** One iteration for the element [i]: [x] refers to it, and [v[x]] is the element
    its value names, which must exist. *)
Definition visit (i : nat) (v : list Z) : outcome (list Z) :=
  x ← from_option_ub (v !! i);
  _ ← require ((0 <=? x) && (x <? Z.of_nat (length v)));
  y ← from_option_ub (v !! Z.to_nat x);
  _ ← require (y <? 2 ^ 31 - 1);
  Ok (<[Z.to_nat x := y + 1]> v).

(** The elements from [i] on, [n] to go. *)
Fixpoint loop (n i : nat) (v : list Z) : outcome (list Z) :=
  match n with
  | O => Ok v
  | S n => v ← visit i v; loop n (S i) v
  end.
Definition main (n : nat) : outcome (list Z) := let v := replicate n 0 in loop (length v) 0 v.

Lemma loop_zero m k n (j : Z) :
  (k + n <= m)%nat → j + Z.of_nat n < 2 ^ 31 →
  loop n (S k) (j :: replicate m 0) = Ok (j + Z.of_nat n :: replicate m 0).
Proof.
  revert k j. induction n as [| n IH]; intros k j Hk Hj; [by rewrite Z.add_0_r |].
  assert ((j :: replicate m 0) !! S k = Some 0) as E by (apply lookup_replicate_2; lia).
  cbn [loop]. unfold visit at 1. rewrite E. cbn [from_option_ub mbind outcome_bind require].
  change (0 <=? 0) with true. rewrite (proj2 (Z.ltb_lt 0 (Z.of_nat (length (j :: replicate m 0))))) by (simpl; lia).
  transitivity (loop n (S (S k)) (j + 1 :: replicate m 0)); [| rewrite IH by lia; do 2 f_equal; lia].
  change (Z.to_nat 0) with 0%nat.
  change ((j :: replicate m 0) !! 0%nat) with (Some j). cbn [from_option_ub mbind outcome_bind].
  by rewrite (proj2 (Z.ltb_lt j (2 ^ 31 - 1))) by lia.
Qed.

(** The loop over a vector of zeros: it never leaves the vector and does not
    count each element once, but the first one as many times as there are
    elements, because what it increments is the element that the value names. *)
Theorem first_counts_all (n : nat) :
  Z.of_nat (S n) < 2 ^ 31 → main (S n) = Ok (Z.of_nat (S n) :: replicate n 0).
Proof.
  intros Hn. unfold main. rewrite length_replicate.
  transitivity (loop n 1 (1 :: replicate n 0)); [reflexivity |]. rewrite (loop_zero n 0 n 1) by lia. do 2 f_equal. lia.
Qed.

Lemma first_counts_all_witness : main 100 = Ok (100 :: replicate 99 0).
Proof. exact (first_counts_all 99 ltac:(lia)). Defined.
End ProgressBar.

(** * [DS/any.cpp]: a list of values of any type *)
Module AnyList.
(** A [boost::any]: an [int], a string, or a value of some other type. *)
Inductive any := AInt (z : Z) | AString (s : list ascii) | AOther (type : nat).

Definition fill_list (la : list any) : list any := la ++ [AInt 10; AString (chars "dyunze")].

(** What [show_list] prints: a line for each [int] and each string; a string
    through [c_str], up to its first NUL. *)
Inductive line := LInt (z : Z) | LText (s : list ascii).
Fixpoint c_str (s : list ascii) : list ascii :=
  match s with [] => [] | c :: s => if Ascii.eqb c zero then [] else c :: c_str s end.
Fixpoint show_list (la : list any) : list line :=
  match la with
  | [] => []
  | AInt z :: la => LInt z :: show_list la
  | AString s :: la => LText (c_str s) :: show_list la
  | AOther _ :: la => show_list la
  end.
Definition main : list line := show_list (fill_list []).

(** Which lines a list shows: those of its parts, one after the other; a value of
    another type none, a string without NUL all of it. *)
Lemma show_app l1 l2 : show_list (l1 ++ l2) = show_list l1 ++ show_list l2.
Proof. induction l1 as [| [] l1 IH]; simpl; by rewrite ?IH. Qed.
Lemma c_str_whole s : zero ∉ s → c_str s = s.
Proof.
  induction s as [| c s IH]; [done |]. intros [Hc Hs]%not_elem_of_cons. simpl.
  destruct (Ascii.eqb_spec c zero); [congruence |]. by rewrite IH.
Qed.

(** The list that was filled shows what it had, the number and the name. *)
Theorem fill_shows (la : list any) :
  show_list (fill_list la) = show_list la ++ [LInt 10; LText (chars "dyunze")].
Proof. unfold fill_list. by rewrite show_app. Qed.
End AnyList.

(** * [IO/serlizrlisze.cpp]: writing an object to an archive and reading it *)
Module Serialize.
(** What the library's archives promise: values are read back in the order in
    which they were written. *)
Class Archive (A : Type) := {
  put_string : list ascii → A → A;
  put_vector : list Z → A → A;
  put_map : list (list ascii * Z) → A → A;
  get_string : A → option (list ascii * A);
  get_vector : A → option (list Z * A);
  get_map : A → option (list (list ascii * Z) * A);
  empty_archive : A;
  holds : list (list ascii + (list Z + list (list ascii * Z))) → A → Prop
}.
Class ArchiveLaws (A : Type) `{Archive A} := {
  holds_empty : holds [] empty_archive;
  put_string_holds xs s a : holds xs a → holds (xs ++ [inl s]) (put_string s a);
  put_vector_holds xs v a : holds xs a → holds (xs ++ [inr (inl v)]) (put_vector v a);
  put_map_holds xs m a : holds xs a → holds (xs ++ [inr (inr m)]) (put_map m a);
  get_string_holds xs s a : holds (inl s :: xs) a → ∃ a', get_string a = Some (s, a') ∧ holds xs a';
  get_vector_holds xs v a : holds (inr (inl v) :: xs) a → ∃ a', get_vector a = Some (v, a') ∧ holds xs a';
  get_map_holds xs m a : holds (inr (inr m) :: xs) a → ∃ a', get_map a = Some (m, a') ∧ holds xs a'
}.

Record Data := MkData {
  a : Z; _string : list ascii; vi : list Z; msi : list (list ascii * Z) }.
(** The constructor; the map's entries are in the order of their keys. *)
Definition new : Data := MkData 1 (chars "Hello World") [1; 2; 3; 4; 5] [(chars "1", 1); (chars "2", 2)].

Section archive.
Context {A : Type} `{ArchiveLaws A}.

(** [serialize], as it writes and as it reads. *)
Definition save (d : Data) (ar : A) : A := put_map (msi d) (put_vector (vi d) (put_string (_string d) ar)).
Definition load (d : Data) (ar : A) : option (Data * A) :=
  '(s, ar) ← get_string ar;
  '(v, ar) ← get_vector ar;
  '(m, ar) ← get_map ar;
  Some (MkData (a d) s v m, ar).

Definition show (d : Data) : list ascii := _string d.
(** [main] for the object it saves. *)
Definition main (d : Data) : option Data := fst <$> load new (save d empty_archive).

(** Saving an object and loading it into a new one, through any archive that
    reads back what was written: the string, the vector and the map are those of
    the object, but the member [a], which [serialize] leaves out, is the one the
    constructor gives.  The object comes back exactly when its [a] is 1. *)
Theorem serialize_roundtrip (d : Data) :
  main d = Some (MkData 1 (_string d) (vi d) (msi d)) ∧ (main d = Some d ↔ a d = 1).
Proof.
  assert (main d = Some (MkData 1 (_string d) (vi d) (msi d))) as E.
  { unfold main, save, load.
    pose proof (put_map_holds _ (msi d) _ (put_vector_holds _ (vi d) _
      (put_string_holds _ (_string d) _ holds_empty))) as Hh. simpl in Hh.
    destruct (get_string_holds _ _ _ Hh) as (a1 & -> & H1). simpl.
    destruct (get_vector_holds _ _ _ H1) as (a2 & -> & H2). simpl.
    by destruct (get_map_holds _ _ _ H2) as (a3 & -> & _). }
  split; [done |]. rewrite E. destruct d as [x s v m]. simpl. naive_solver.
Qed.
End archive.

(** An archive: the values, in order. *)
Definition queue : Type := list (list ascii + (list Z + list (list ascii * Z))).
#[global] Instance queue_archive : Archive queue := {
  put_string s q := q ++ [inl s];
  put_vector v q := q ++ [inr (inl v)];
  put_map m q := q ++ [inr (inr m)];
  get_string q := match q with inl s :: q => Some (s, q) | _ => None end;
  get_vector q := match q with inr (inl v) :: q => Some (v, q) | _ => None end;
  get_map q := match q with inr (inr m) :: q => Some (m, q) | _ => None end;
  empty_archive := [];
  holds xs q := q = xs
}.
#[global] Instance queue_laws : ArchiveLaws queue.
Proof. split; simpl; intros; subst; eauto. Qed.

Lemma serialize_roundtrip_witness :
  main (A := queue) new = Some new ∧
  main (A := queue) (MkData 7 [] [] []) = Some (MkData 1 [] [] []).
Proof.
  split; [by apply (serialize_roundtrip (A := queue)) |].
  exact (proj1 (serialize_roundtrip (A := queue) (MkData 7 [] [] []))).
Defined.
End Serialize.
