(* ===== verification/Forwarding.v ===== *)
(** References to references and overload resolution, as [lang/forward.cpp] and
    [lang/template_func_overload.cpp] use them: reference collapsing, the
    deduction of a forwarding reference, [std::forward], and the choice between
    the overloads and specialisations the two programs declare. *)
From S2P Require Import Prelude.

(** * Types and value categories *)

(** What stands after a type's name: nothing, [&] or [&&]. *)
Inductive ref := Val | LRef | RRef.
Inductive category := LValue | RValue.
Inductive base := Int | Float | Char.
Record type := Type_ { named : base; reference : ref }.

#[export] Instance ref_eq_dec : EqDecision ref.
Proof. solve_decision. Defined.
#[export] Instance category_eq_dec : EqDecision category.
Proof. solve_decision. Defined.
#[export] Instance base_eq_dec : EqDecision base.
Proof. solve_decision. Defined.

(** A reference added to a type that is one already: [&] wins over [&&]. *)
Definition collapse (t r : ref) : ref :=
  match t, r with
  | t, Val => t
  | Val, r => r
  | RRef, RRef => RRef
  | _, _ => LRef
  end.
Definition add (t : type) (r : ref) : type := Type_ (named t) (collapse (reference t) r).

(** The arguments of the calls in the two [main]s: a variable with its declared
    type, which is an lvalue whatever that type is, a literal, [std::move]. *)
Inductive expr := Var (t : type) | Literal (b : base) | Move (e : expr).
Definition category_of (e : expr) : category := match e with Var _ => LValue | _ => RValue end.
Fixpoint base_of (e : expr) : base := match e with Var t => named t | Literal b => b | Move e => base_of e end.

(** [ParamType] of a parameter [ParamType&&], for an argument. *)
Definition deduce (e : expr) : type :=
  Type_ (base_of e) (match category_of e with LValue => LRef | RValue => Val end).

(** [std::forward<T>(parameter)]: a cast of the named parameter to [T&&]. *)
Definition forward (t : type) : category :=
  match reference (add t RRef) with LRef => LValue | _ => RValue end.

(** * Laws *)
#[export] Instance collapse_assoc : Assoc (=) collapse.
Proof. by intros [] [] []. Qed.
#[export] Instance collapse_comm : Comm (=) collapse.
Proof. by intros [] []. Qed.
#[export] Instance collapse_idemp : IdemP (=) collapse.
Proof. by intros []. Qed.
Lemma collapse_absorbs r : collapse LRef r = LRef.
Proof. by destruct r. Qed.

(** The parameter [ParamType&&] is a reference of the argument's category. *)
Lemma deduce_parameter e :
  reference (add (deduce e) RRef) = match category_of e with LValue => LRef | RValue => RRef end.
Proof. unfold deduce, add. simpl. by destruct (category_of e). Qed.

Lemma forward_deduce e : forward (deduce e) = category_of e.
Proof. unfold forward. rewrite deduce_parameter. by destruct (category_of e). Qed.

Lemma forward_add_rref t : forward (add t RRef) = forward t.
Proof. unfold forward, add. simpl. by rewrite <- (assoc_L collapse). Qed.

Lemma forward_add_lref t : forward (add t LRef) = LValue.
Proof. unfold forward, add. simpl. rewrite (comm_L collapse _ LRef). by rewrite !collapse_absorbs. Qed.

(** * [forward.cpp] *)
Module Forward.
(** The two overloads of [test_forward]. *)
Inductive version := IntRef | IntRRef.
Definition test_forward (c : category) : version := match c with LValue => IntRef | RValue => IntRRef end.

(** [test]: the three calls, with the template arguments as written. *)
Definition test (e : expr) : list version :=
  let ParamType := deduce e in
  [test_forward (forward (add ParamType RRef)); test_forward (forward (add ParamType LRef));
   test_forward (forward ParamType)].

Definition a : expr := Var (Type_ Int Val).
Definition b : expr := Var (Type_ Int LRef).
Definition c : expr := Var (Type_ Int RRef).
Definition main : list (list version) := test <$> [Literal Int; a; b; c; Move a].

(** For every argument the third call goes to the overload that the argument
    itself would go to; so does the first, which the source marks as wrong; the
    second always goes to the one for lvalues. *)
Theorem forward_versions (e : expr) :
  test e = [test_forward (category_of e); IntRef; test_forward (category_of e)].
Proof. unfold test. by rewrite forward_add_rref, forward_add_lref, forward_deduce. Qed.

Example forward_main : main =
  [[IntRRef; IntRef; IntRRef]; [IntRef; IntRef; IntRef]; [IntRef; IntRef; IntRef];
   [IntRef; IntRef; IntRef]; [IntRRef; IntRef; IntRRef]].
Proof. reflexivity. Qed.
End Forward.

(** * [template_func_overload.cpp] *)
Module Overload.
Inductive message := RightTemplate | LeftTemplate | Template | IntRRefVersion | IntRefVersion.

(** The two templates named [fun]: [ParamType&&] takes every argument,
    [ParamType&] the lvalues; of two that fit, the more specialised is called. *)
Inductive template := ByForwarding | ByLRef.
#[export] Instance template_eq_dec : EqDecision template.
Proof. solve_decision. Defined.
Definition viable (c : category) (f : template) : bool :=
  match f with ByForwarding => true | ByLRef => bool_decide (c = LValue) end.
Definition more_specialised (f g : template) : bool :=
  match f, g with ByLRef, ByForwarding => true | _, _ => false end.
Definition at_least (f g : template) : bool := bool_decide (f = g) || more_specialised f g.
Definition best (c : category) (fs : list template) : option template :=
  let viables := filter (λ f, viable c f) fs in
  List.find (λ f, forallb (at_least f) viables) viables.
Definition candidates : list template := [ByForwarding; ByLRef].
Definition fun_ (c : category) : option message :=
  f ← best c candidates; Some (match f with ByForwarding => RightTemplate | ByLRef => LeftTemplate end).

(** [test]: the two full specialisations, for [ParamType] equal to [int] and to
    [int&], and the template, which forwards. *)
Definition test (e : expr) : option (list message) :=
  let ParamType := deduce e in
  match ParamType with
  | Type_ Int Val => Some [IntRRefVersion]
  | Type_ Int LRef => Some [IntRefVersion]
  | _ => m ← fun_ (forward ParamType); Some [Template; m]
  end.

Definition a : expr := Var (Type_ Int Val).
Definition b : expr := Var (Type_ Int LRef).
Definition c : expr := Var (Type_ Int RRef).
Definition x : expr := Var (Type_ Float Val).
Definition y : expr := Var (Type_ Char Val).
Definition main : option (list (list message)) :=
  mapM test [a; b; c; Literal Int; Move a; Move b; Move c;
             Literal Float; x; Move x; Literal Char; y; Move y].

(** The calls that fit are unambiguous: one overload of [fun] is called for each
    category, whatever order the two are declared in. *)
Lemma best_unique (ct : category) (fs : list template) :
  fs ≡ₚ candidates → best ct fs = best ct candidates ∧ is_Some (best ct fs).
Proof.
  intros Hp. symmetry in Hp. apply Permutation_length_2_inv in Hp as [-> | ->]; destruct ct; split; (reflexivity || eexists; reflexivity).
Qed.

(** An argument of type [int] goes to the specialisation of its category; another
    one to the template, and from there to the overload of its category. *)
Theorem overload_chosen (e : expr) :
  test e = Some (match base_of e, category_of e with
                 | Int, LValue => [IntRefVersion]
                 | Int, RValue => [IntRRefVersion]
                 | _, LValue => [Template; LeftTemplate]
                 | _, RValue => [Template; RightTemplate]
                 end).
Proof.
  pose proof (forward_deduce e) as Hf. unfold test. 
  destruct (deduce e) as [bs r] eqn:E. unfold deduce in E. injection E as <- <-.
  rewrite Hf. by destruct (base_of e), (category_of e).
Qed.

Example overload_main : main = Some
  [[IntRefVersion]; [IntRefVersion]; [IntRefVersion]; [IntRRefVersion]; [IntRRefVersion];
   [IntRRefVersion]; [IntRRefVersion];
   [Template; RightTemplate]; [Template; LeftTemplate]; [Template; RightTemplate];
   [Template; RightTemplate]; [Template; LeftTemplate]; [Template; RightTemplate]].
Proof. reflexivity. Qed.
End Overload.
