(* ===== verification/Macro.v ===== *)
(** [lang/macro.cpp] and its preprocessed text, which the repository keeps in
    [lang/macro.cc]: the tokens of a text, and the expansion of the macro
    [CONCAT(arg0, arg1)], whose body pastes its two arguments. *)
From S2P Require Import Prelude.
From Stdlib Require Import Ascii.
Open Scope string_scope.
Open Scope list_scope.
Open Scope nat_scope.

(** * Tokens *)
Inductive token := Id (name : string) | LParen | RParen | Comma | Mark (c : ascii).
#[export] Instance token_eq_dec : EqDecision token.
Proof. solve_decision. Defined.

Definition code (c : ascii) : N := N_of_ascii c.
Definition between (a b c : N) : bool := ((a <=? c) && (c <=? b))%N.
Definition is_letter (c : ascii) : bool :=
  between 65 90 (code c) || between 97 122 (code c) || between 48 57 (code c) || (code c =? 95)%N.
Definition is_space (c : ascii) : bool := (code c =? 32)%N || between 9 13 (code c).
Definition punctuation (c : ascii) : token :=
  if (code c =? 40)%N then LParen else if (code c =? 41)%N then RParen
  else if (code c =? 44)%N then Comma else Mark c.

Definition flush (word : list ascii) : list token :=
  match word with [] => [] | _ => [Id (Stdlib.Strings.String.string_of_list_ascii word)] end.

(** Words, punctuation, white space, and comments to the end of the line. *)
Fixpoint lex (comment : bool) (word : list ascii) (s : list ascii) : list token :=
  match s with
  | [] => flush word
  | c :: s =>
      if comment then lex (negb (code c =? 10)%N) [] s
      else if is_letter c then lex false (word ++ [c]) s
      else if is_space c then flush word ++ lex false [] s
      else match s with
           | c' :: s' => if (code c =? 47)%N && (code c' =? 47)%N then flush word ++ lex true [] s'
                         else flush word ++ punctuation c :: lex false [] s
           | [] => flush word ++ [punctuation c]
           end
  end.
Definition tokens (text : string) : list token := lex false [] (Stdlib.Strings.String.list_ascii_of_string text).

(** * Expansion *)

(** The arguments of a call, up to its closing parenthesis: commas inside
    parentheses do not separate them. *)
Fixpoint arguments (depth : nat) (current : list token) (ts : list token) :
    option (list (list token) * list token) :=
  match ts with
  | [] => None
  | LParen :: ts => arguments (S depth) (current ++ [LParen]) ts
  | RParen :: ts =>
      match depth with
      | O => Some ([current], ts)
      | S depth => arguments depth (current ++ [RParen]) ts
      end
  | Comma :: ts =>
      match depth with
      | O => '(args, rest) ← arguments 0 [] ts; Some (current :: args, rest)
      | S _ => arguments depth (current ++ [Comma]) ts
      end
  | t :: ts => arguments depth (current ++ [t]) ts
  end.

(** [arg0 ## arg1]: the arguments as they are written, the last token of the
    first and the first token of the second made one; only words can be. *)
Definition paste (arg0 arg1 : list token) : option (list token) :=
  match last arg0, arg1 with
  | None, _ => Some arg1
  | _, [] => Some arg0
  | Some (Id x), Id y :: rest => Some (removelast arg0 ++ Id (x +:+ y) :: rest)
  | _, _ => None
  end.

(** [CONCAT] is not expanded again in the result of its expansion, and there is
    no other macro to expand there. [None]: the text is rejected. *)
Fixpoint expand (fuel : nat) (ts : list token) : option (list token) :=
  match ts with
  | [] => Some []
  | t :: ts =>
      match fuel with
      | O => None
      | S fuel =>
          let next := out ← expand fuel ts; Some (t :: out) in
          match t, ts with
          | Id name, LParen :: call =>
              if (name =? "CONCAT")%string then
                '(args, rest) ← arguments 0 [] call;
                match args with
                | [arg0; arg1] => r ← paste arg0 arg1; out ← expand fuel rest; Some (r ++ out)
                | _ => None
                end
              else next
          | _, _ => next
          end
      end
  end.
Definition preprocess (ts : list token) : option (list token) := expand (length ts) ts.

(** [main] of the two files. *)
Definition macro_cpp : string := "
int main() {
  //ENUM2STR( HWIOAssignmentStatus_AssignmentType, AnValue.value );
  CONCAT(Hello, World)                        // -> HelloWorld
    CONCAT(Hello, CONCAT(World, !))             // -> HelloCONCAT(World, !)
    CONCAT(CONCAT(Hello, World) C, CONCAT(!))    // -> CONCAT(Hello, World) CONCAT(!)
    return 0;
}".
Definition macro_cc : string := "
int main() {

  HelloWorld
    HelloCONCAT(World, !)
    CONCAT(Hello, World) CCONCAT(!)
    return 0;
}".
Example macro_output : preprocess (tokens macro_cpp) = Some (tokens macro_cc).
Proof. vm_compute. reflexivity. Qed.

(** * What pasting keeps *)

(** The depth of the parentheses after some tokens; [None] when they close more
    than they opened, or have a comma of their own. *)
Fixpoint nesting (depth : nat) (ts : list token) : option nat :=
  match ts with
  | [] => Some depth
  | LParen :: ts => nesting (S depth) ts
  | RParen :: ts => match depth with O => None | S depth => nesting depth ts end
  | Comma :: ts => match depth with O => None | S _ => nesting depth ts end
  | _ :: ts => nesting depth ts
  end.

Lemma arguments_nested depth depth' current a rest :
  nesting depth a = Some depth' → arguments depth current (a ++ rest) = arguments depth' (current ++ a) rest.
Proof.
  revert depth current. induction a as [| t a IH]; intros depth current Ha; simplify_eq/=.
  - by rewrite app_nil_r.
  - destruct t; try destruct depth; try done; by rewrite (IH _ _ Ha), <- (assoc_L (++)).
Qed.

(** An expansion takes at most as many steps as there are tokens. *)
Lemma arguments_shorter depth current ts args rest :
  arguments depth current ts = Some (args, rest) → length rest < length ts.
Proof.
  revert depth current args. induction ts as [| t ts IH]; intros depth current args H; [done |]. simpl in *.
  destruct t; try destruct depth; try (apply IH in H; lia); [| ].
  - injection H as _ <-. lia.
  - apply bind_Some in H as ([args' rest'] & H & [= _ <-]). apply IH in H. lia.
Qed.

(** The fuel of [preprocess] is enough: more changes nothing. *)
Lemma expand_fuel f1 f2 ts : length ts ≤ f1 → length ts ≤ f2 → expand f1 ts = expand f2 ts.
Proof.
  revert f2 ts. induction f1 as [| f1 IH]; intros f2 ts H1 H2.
  { destruct ts; [by destruct f2 | simpl in H1; lia]. }
  destruct ts as [| t ts]; [by destruct f2 |]. destruct f2 as [| f2]; [simpl in H2; lia |]. simpl in H1, H2.
  assert (expand f1 ts = expand f2 ts) as Hts by (apply IH; lia).
  assert (∀ call, ts = LParen :: call →
    ('(args, rest) ← arguments 0 [] call;
     match args with [arg0; arg1] => r ← paste arg0 arg1; out ← expand f1 rest; Some (r ++ out) | _ => None end) =
    ('(args, rest) ← arguments 0 [] call;
     match args with [arg0; arg1] => r ← paste arg0 arg1; out ← expand f2 rest; Some (r ++ out) | _ => None end)) as Hcall.
  { intros call ->. destruct (arguments 0 [] call) as [[args rest] |] eqn:E; [simpl | done].
    apply arguments_shorter in E. simpl in H1, H2. rewrite (IH f2 rest) by lia. done. }
  cbn [expand]. rewrite Hts. repeat case_match; try done; by apply Hcall.
Qed.

Lemma expand_call f call :
  expand (S f) (Id "CONCAT" :: LParen :: call) =
    '(args, rest) ← arguments 0 [] call;
    match args with [arg0; arg1] => r ← paste arg0 arg1; out ← expand f rest; Some (r ++ out) | _ => None end.
Proof. reflexivity. Qed.

Lemma preprocess_fuel f ts : length ts ≤ f → expand f ts = preprocess ts.
Proof. intros Hf. by apply expand_fuel. Qed.

(** The arguments of [##] are not expanded, before or after they are pasted:
    whatever calls they contain, the tokens on either side of the two that are
    joined come out as they were written. *)
Theorem concat_verbatim (a b rest : list token) (x y : string) :
  nesting 0 (a ++ [Id x]) = Some 0 → nesting 0 (Id y :: b) = Some 0 →
  preprocess (Id "CONCAT" :: LParen :: (a ++ [Id x]) ++ Comma :: (Id y :: b) ++ RParen :: rest) =
    (λ out, a ++ Id (x +:+ y) :: b ++ out) <$> preprocess rest.
Proof.
  intros Ha Hb. unfold preprocess at 1. cbn [length]. rewrite expand_call.
  rewrite (arguments_nested 0 0 [] _ _ Ha). cbn [arguments app].
  rewrite (arguments_nested 0 0 _ b _ Hb). cbn [arguments app mbind option_bind].
  unfold paste. rewrite last_snoc, removelast_last. cbn [mbind option_bind].
  rewrite preprocess_fuel by (rewrite !length_app; simpl; rewrite !length_app; simpl; lia).
  destruct (preprocess rest) as [out |]; [| done]. simpl. by rewrite <- (assoc_L (++)).
Qed.

(** The example of the program: the inner call is not expanded. *)
Lemma concat_verbatim_witness :
  preprocess (tokens "CONCAT(Hello, CONCAT(World, !))") = Some (tokens "HelloCONCAT(World, !)").
Proof.
  change (tokens "CONCAT(Hello, CONCAT(World, !))") with
    (Id "CONCAT" :: LParen :: ([] ++ [Id "Hello"]) ++ Comma ::
       (Id "CONCAT" :: [LParen; Id "World"; Comma; Mark "!"; RParen]) ++ RParen :: []).
  by rewrite (concat_verbatim [] [LParen; Id "World"; Comma; Mark "!"; RParen] [] "Hello" "CONCAT").
Defined.
