(* ===== verification/ThreadDemos.v ===== *)
(** Thread demonstrations of [src/code/concurrent] and [src/code/lang]: the
    function that detached threads and [std::call_once] run ([call_once.cpp]), the
    owners of a shared object ([shared_ptr.cpp]), an asynchronous task
    ([async.cpp]), a packaged task ([package_task.cpp]) and a variable that
    threads share by reference ([thread_param.cpp]). *)
From S2P Require Import Prelude.
Open Scope nat_scope.

(** * [call_once.cpp] *)
Module CallOnce.
(** Where [main] is: starting the first [k] threads that are left, before the
    [j]-th of the three [call_once] calls, printing in one, starting the second
    threads, returned. *)
Inductive pc := First (k : nat) | Once (j : nat) | Printing (j number : nat) | Second (k : nat) | Exited.

Record state := State {
  times : nat;            (* std::atomic<int> *)
  started : nat;          (* detached threads that have not counted yet *)
  counted : list nat;     (* numbers taken, not yet printed by their threads *)
  flag : bool;            (* std::once_flag *)
  printed : list nat;
  main_pc : pc
}.

Section program.
(** The threads of each burst: [hardware_concurrency() - 1]. *)
Context (burst : nat).

Definition init : state := State 0 0 [] false [] (First burst).

(** [LMain]: the main thread; [LCount]: a started thread increments [times];
    [LPrint i]: the thread with the [i]-th taken number prints it. *)
Inductive label := LMain | LCount | LPrint (i : nat).

Definition main_step (s : state) : outcome state :=
  match main_pc s with
  | First (S k) => Ok (State (times s) (S (started s)) (counted s) (flag s) (printed s) (First k))
  | First O => Ok (State (times s) (started s) (counted s) (flag s) (printed s) (Once 0))
  | Once j =>
      if 3 <=? j then Ok (State (times s) (started s) (counted s) (flag s) (printed s) (Second burst))
      else if flag s then Ok (State (times s) (started s) (counted s) (flag s) (printed s) (Once (S j)))
      else Ok (State (S (times s)) (started s) (counted s) (flag s) (printed s) (Printing j (S (times s))))
  | Printing j n => Ok (State (times s) (started s) (counted s) true (printed s ++ [n]) (Once (S j)))
  | Second (S k) => Ok (State (times s) (S (started s)) (counted s) (flag s) (printed s) (Second k))
  | Second O => Ok (State (times s) (started s) (counted s) (flag s) (printed s) Exited)
  | Exited => Blocked
  end.

(** The detached threads run until the process exits. *)
Definition step (l : label) (s : state) : outcome state :=
  match l with
  | LMain => main_step s
  | LCount =>
      _ ← await (match main_pc s with Exited => false | _ => 0 <? started s end);
      Ok (State (S (times s)) (started s - 1) (counted s ++ [S (times s)]) (flag s) (printed s) (main_pc s))
  | LPrint i =>
      _ ← await (match main_pc s with Exited => false | _ => i <? length (counted s) end);
      n ← from_option_ub (counted s !! i);
      Ok (State (times s) (started s) (delete i (counted s)) (flag s) (printed s ++ [n]) (main_pc s))
  end.

Definition call_once : machine := Machine state label (λ s, s = init) step.

(** The number the main thread has taken and not printed, and the calls of
    [once_function] it has begun. *)
Definition taken (p : pc) : list nat := match p with Printing _ n => [n] | _ => [] end.
Definition begun (s : state) : nat := (if flag s then 1 else 0) + length (taken (main_pc s)).
Definition to_start (p : pc) : nat :=
  match p with First k => k + burst | Once _ | Printing _ _ => burst | Second k => k | Exited => 0 end.

Record inv (s : state) : Prop := {
  inv_numbers : printed s ++ counted s ++ taken (main_pc s) ≡ₚ seq 1 (times s);
  inv_count : times s + started s + to_start (main_pc s) = 2 * burst + begun s;
  inv_flag : match main_pc s with
             | First _ => flag s = false | Once j => flag s = bool_decide (j ≠ 0)
             | Printing j _ => j = 0 ∧ flag s = false | _ => flag s = true end
}.

Lemma seq_snoc n : seq 1 (S n) = seq 1 n ++ [S n].
Proof. by rewrite seq_S. Qed.

Lemma once_inv_step l s s' : inv s → step l s = Ok s' → inv s'.
Proof.
  intros [Hn Hc Hf] Hs. destruct l as [| | i]; unfold step in Hs.
  - unfold main_step in Hs. destruct (main_pc s) as [[| k] | j | j n | [| k] |] eqn:E; simplify_eq.
    + split; unfold begun in *; rewrite ?E in *; simpl in *; (done || lia).
    + split; unfold begun in *; rewrite ?E in *; simpl in *; (done || lia).
    + destruct (3 <=? j) eqn:Hj; [| destruct (flag s) eqn:Hfl]; simplify_eq.
      * apply Nat.leb_le in Hj. rewrite bool_decide_eq_true_2 in Hf by lia.
        split; unfold begun in *; rewrite ?E, ?Hf in *; simpl in *; (done || lia).
      * split; unfold begun in *; rewrite ?E, ?Hfl in *; simpl in *; (done || lia).
      * assert (j = 0) as -> by (destruct j; done).
        split; unfold begun in *; rewrite ?E, ?Hfl in *; cbn -[seq] in *; [| lia | done].
        rewrite seq_snoc, <- Hn, app_nil_r. by rewrite !(assoc_L (++)).
    + destruct Hf as [-> Hf].
      split; unfold begun in *; rewrite ?E, ?Hf in *; cbn -[seq] in *; [| lia | done].
      rewrite <- Hn, app_nil_r, <- (assoc_L (++)). apply Permutation_app_head, Permutation_app_comm.
    + split; unfold begun in *; rewrite ?E in *; simpl in *; (done || lia).
    + split; unfold begun in *; rewrite ?E in *; simpl in *; (done || lia).
  - step_inv. destruct (main_pc s) eqn:E; try done;
      apply Nat.ltb_lt in Heqb; split; unfold begun in *; rewrite ?E in *; cbn -[seq] in *;
        try lia; try done; rewrite seq_snoc, <- Hn, ?app_nil_r, ?(assoc_L (++)); try done.
    rewrite <- !(assoc_L (++)). do 2 apply Permutation_app_head. apply Permutation_app_comm.
  - step_inv. destruct (main_pc s) eqn:E; try done;
      split; unfold begun in *; rewrite ?E in *; cbn -[seq] in *; try done;
        rewrite <- Hn, <- (assoc_L (++)); apply Permutation_app_head; rewrite (assoc_L (++));
        apply Permutation_app_tail; symmetry; by apply delete_Permutation.
Qed.

Lemma once_inv_reachable (s : mstate call_once) : reachable s → inv s.
Proof.
  revert s. apply invariant_ind.
  - intros s ->. split; [done | unfold begun; simpl; lia | done].
  - intros l s s' _ Hi Hs. by eapply once_inv_step.
Qed.
End program.

(** C39. Under every schedule the numbers printed are distinct and lie between 1
    and the number of executions begun; the three [call_once] calls run the
    function once between them, so that at most [2 * burst + 1] executions
    happen; when all threads were heard before [main] returned, exactly the
    numbers 1 to [2 * burst + 1] were printed, each once, in some order. *)
Theorem call_once_numbers (burst : nat) (s : mstate (call_once burst)) :
  reachable s →
  NoDup (printed s) ∧ (∀ n, n ∈ printed s → 1 <= n <= times s) ∧ times s <= 2 * burst + 1 ∧
  (main_pc s = Exited → flag s = true ∧
    (started s = 0 → counted s = [] → printed s ≡ₚ seq 1 (2 * burst + 1))).
Proof.
  intros [Hn Hc Hf]%once_inv_reachable. split_and!.
  - assert (NoDup (seq 1 (times s))) as Hd by apply NoDup_seq.
    rewrite <- Hn in Hd. by apply NoDup_app in Hd as [? _].
  - intros n Hin. assert (n ∈ seq 1 (times s)) as Hs by (rewrite <- Hn; set_solver).
    apply elem_of_seq in Hs. lia.
  - unfold begun in Hc. destruct (main_pc s), (flag s); simpl in *; (lia || naive_solver lia).
  - intros E. rewrite E in *. split; [done |]. intros H0 H1. unfold begun in Hc.
    rewrite E, Hf, H0 in Hc. simpl in Hc. rewrite H1 in Hn. cbn -[seq] in Hn.
    rewrite app_nil_r in Hn. by replace (times s) with (2 * burst + 1) in Hn by lia.
Qed.

Lemma call_once_numbers_witness :
  ∃ s : mstate (call_once 1), reachable s ∧ main_pc s = Exited ∧ printed s = [2; 1; 3] ∧ NoDup (printed s).
Proof.
  eexists. assert (reachable (M := call_once 1) _) as Hr by run_schedule (call_once 1)
    [LMain; LMain; LCount; LMain; LMain; LPrint 0; LMain; LMain; LMain; LMain; LCount; LPrint 0; LMain].
  split_and!; [exact Hr | reflexivity | | apply (call_once_numbers 1 _ Hr)].
  reflexivity.
Defined.
End CallOnce.

(** * [shared_ptr.cpp] *)
Module SharedPtr.
(** The steps of [main], named after the statement that comes next, and of the
    thread it starts. *)
Inductive mpc :=
  | MNew | MPrint1 | MCopy | MPrint2 | MCall | MInCall | MReturn | MPrint3 | MThread | MPrint4
  | MDrop1 | MDrop | MDetach | MExited.
Inductive tpc := TNone | TPrint | TDrop | TDone.

(** A line: its label, the count, the value. *)
Record state := State {
  use_count : nat;
  object : option Z;           (* the object, while it exists *)
  main_pc : mpc;
  thread_pc : tpc;
  out : list (nat * nat * Z)
}.
Definition init : state := State 0 None MNew TNone [].

Definition print (label : nat) (s : state) : outcome state :=
  v ← from_option_ub (object s);
  Ok (State (use_count s) (object s) (main_pc s) (thread_pc s) (out s ++ [(label, use_count s, v)])).
(** Copying an owner, and destroying one: the last one destroys the object. *)
Definition copy (s : state) : outcome state :=
  _ ← from_option_ub (object s);
  Ok (State (S (use_count s)) (object s) (main_pc s) (thread_pc s) (out s)).
Definition drop_owner (s : state) : outcome state :=
  _ ← from_option_ub (object s);
  Ok (State (use_count s - 1) (if use_count s =? 1 then None else object s)
    (main_pc s) (thread_pc s) (out s)).
Definition at_main (p : mpc) (s : state) : state := State (use_count s) (object s) p (thread_pc s) (out s).
Definition at_thread (t : tpc) (s : state) : state := State (use_count s) (object s) (main_pc s) t (out s).

Definition main_step (s : state) : outcome state :=
  match main_pc s with
  | MNew => Ok (State 1 (Some 3%Z) MPrint1 (thread_pc s) (out s))
  | MPrint1 => at_main MCopy <$> print 1 s
  | MCopy => at_main MPrint2 <$> copy s
  | MPrint2 => at_main MCall <$> print 2 s
  | MCall => at_main MInCall <$> copy s
  | MInCall => at_main MReturn <$> print 5 s
  | MReturn => at_main MPrint3 <$> drop_owner s
  | MPrint3 => at_main MThread <$> print 3 s
  | MThread => at_main MPrint4 <$> (at_thread TPrint <$> copy s)
  | MPrint4 => at_main MDrop1 <$> print 4 s
  | MDrop1 => at_main MDrop <$> drop_owner s
  | MDrop => at_main MDetach <$> drop_owner s
  | MDetach => Ok (at_main MExited s)
  | MExited => Blocked
  end.
Definition thread_step (s : state) : outcome state :=
  match thread_pc s with
  | TPrint => at_thread TDrop <$> print 5 s
  | TDrop => at_thread TDone <$> drop_owner s
  | _ => Blocked
  end.

Inductive label := LMain | LThread.
Definition step (l : label) (s : state) : outcome state :=
  match l with LMain => main_step s | LThread => thread_step s end.
Definition shared_ptr : machine := Machine state label (λ s, s = init) step.

(** The owners that exist. *)
Definition main_owners (p : mpc) : nat :=
  match p with
  | MNew | MDetach | MExited => 0
  | MPrint1 | MCopy | MDrop => 1
  | MInCall | MReturn => 3
  | _ => 2
  end.
Definition thread_owners (t : tpc) : nat := match t with TPrint | TDrop => 1 | _ => 0 end.
Definition before_thread (p : mpc) : bool :=
  match p with MPrint4 | MDrop1 | MDrop | MDetach | MExited => false | _ => true end.

(** What the main thread has printed, and which lines a schedule may add. *)
Definition main_lines (p : mpc) : list (nat * nat * Z) :=
  match p with
  | MNew | MPrint1 => []
  | MCopy | MPrint2 => [(1, 1, 3%Z)]
  | MCall | MInCall => [(1, 1, 3%Z); (2, 2, 3%Z)]
  | MReturn | MPrint3 => [(1, 1, 3%Z); (2, 2, 3%Z); (5, 3, 3%Z)]
  | _ => [(1, 1, 3%Z); (2, 2, 3%Z); (5, 3, 3%Z); (3, 2, 3%Z)]
  end.
Definition tail_line (x : nat * nat * Z) : Prop :=
  (∃ n, x = (4, n, 3%Z) ∧ 2 <= n <= 3) ∨ (∃ n, x = (5, n, 3%Z) ∧ 1 <= n <= 3).

Record inv (s : state) : Prop := {
  inv_owners : use_count s = main_owners (main_pc s) + thread_owners (thread_pc s);
  inv_object : object s = if use_count s =? 0 then None else Some 3%Z;
  inv_thread : before_thread (main_pc s) = true ↔ thread_pc s = TNone;
  inv_out : ∃ rest, out s = main_lines (main_pc s) ++ rest ∧ Forall tail_line rest ∧
    (before_thread (main_pc s) = true → rest = [])
}.

Ltac tail := first [left; eexists; split; [reflexivity | lia] | right; eexists; split; [reflexivity | lia]].

Lemma shared_inv_step l s s' : inv s → step l s = Ok s' → inv s'.
Proof.
  intros [Ho Hb Ht (rest & Hr & Hf & Hz)] Hs. unfold step in Hs.
  destruct s as [n o p t lines], l; simpl in *; subst n o lines.
  - destruct p, t; try (by destruct Ht as [Ht1 Ht2]; first [specialize (Ht1 eq_refl) | specialize (Ht2 eq_refl)]);
      unfold main_step in Hs; cbn in Hs; simplify_eq; cbn;
      (split; [done | done | done |]);
      first [ by (exists rest; rewrite ?(Hz eq_refl))
            | by (rewrite (Hz eq_refl); exists [])
            | eexists; split; [by rewrite <- ?(assoc_L (++)) |]; split; [apply Forall_app; split; [done |]; constructor; [tail | constructor] | done] ].
  - destruct p, t; try (by destruct Ht as [Ht1 Ht2]; first [specialize (Ht1 eq_refl) | specialize (Ht2 eq_refl)]);
      unfold thread_step in Hs; cbn in Hs; simplify_eq; cbn;
      (split; [done | done | done |]);
      first [ by exists rest
            | eexists; split; [by rewrite <- ?(assoc_L (++)) |]; split; [apply Forall_app; split; [done |]; constructor; [tail | constructor] | done] ].
Qed.

Lemma shared_inv_reachable (s : mstate shared_ptr) : reachable s → inv s.
Proof.
  revert s. apply invariant_ind.
  - intros s ->. split; [done | done | done | by exists []].
  - intros l s s' _ Hi Hs. by eapply shared_inv_step.
Qed.

(** C40. Under every schedule the count is the number of owners that exist, the
    object lives exactly as long as there is one (so that no dereference, copy or
    destruction is undefined), and is destroyed when the last thread is done; the
    main thread's first four lines are those of the comment, and only the two
    lines that run beside the other thread depend on the schedule: the count on
    line 4 is 2 or 3, the thread's 1 to 3. *)
Theorem shared_object (s : mstate shared_ptr) :
  reachable s →
  use_count s = main_owners (main_pc s) + thread_owners (thread_pc s) ∧
  (object s = if use_count s =? 0 then None else Some 3%Z) ∧
  (∀ l, mstep shared_ptr l s ≠ UB) ∧
  (∃ rest, out s = main_lines (main_pc s) ++ rest ∧ Forall tail_line rest) ∧
  (main_pc s = MExited → thread_pc s = TDone → object s = None).
Proof.
  intros [Ho Hb Ht (rest & Hr & Hf & _)]%shared_inv_reachable. split_and!; [done | done | | by exists rest |].
  - intros l Hl. change (step l s = UB) in Hl. unfold step, main_step, thread_step in Hl.
    destruct s as [n o p t lines], l; simpl in *; subst n o.
    + by destruct p, t.
    + by destruct p, t.
  - intros E1 E2. rewrite Hb, Ho, E1, E2. done.
Qed.

Lemma shared_object_witness :
  ∃ s : mstate shared_ptr, reachable s ∧
    out s = [(1, 1, 3%Z); (2, 2, 3%Z); (5, 3, 3%Z); (3, 2, 3%Z); (4, 3, 3%Z); (5, 1, 3%Z)] ∧
    object s = None.
Proof.
  eexists. assert (reachable (M := shared_ptr) _) as Hr by run_schedule shared_ptr
    (replicate 13 LMain ++ [LThread; LThread]).
  split_and!; [exact Hr | reflexivity |].
  destruct (shared_object _ Hr) as (_ & _ & _ & _ & Hend). by apply Hend.
Defined.
End SharedPtr.

(** * [async.cpp] *)
Module Async.
(** The main thread prints, waits for the task's value and prints it; the task
    prints and returns. *)
Inductive line := Start | Returning | Value (z : Z).
Inductive mpc := MPrint | MGet | MValue (z : Z) | MDone.
Inductive tpc := TPrint | TReturn | TDone.
Record state := State { future : option Z; main_pc : mpc; task_pc : tpc; out : list line }.
Definition init : state := State None MPrint TPrint [].

Inductive label := LMain | LTask.
Definition step (l : label) (s : state) : outcome state :=
  match l with
  | LMain =>
      match main_pc s with
      | MPrint => Ok (State (future s) MGet (task_pc s) (out s ++ [Start]))
      | MGet => match future s with
                | Some z => Ok (State (future s) (MValue z) (task_pc s) (out s))
                | None => Blocked
                end
      | MValue z => Ok (State (future s) MDone (task_pc s) (out s ++ [Value z]))
      | MDone => Blocked
      end
  | LTask =>
      match task_pc s with
      | TPrint => Ok (State (future s) (main_pc s) TReturn (out s ++ [Returning]))
      | TReturn => Ok (State (Some 169168%Z) (main_pc s) TDone (out s))
      | TDone => Blocked
      end
  end.
Definition async : machine := Machine state label (λ s, s = init) step.

Definition weight (s : state) : nat :=
  match main_pc s with MPrint => 3 | MGet => 2 | MValue _ => 1 | MDone => 0 end +
  match task_pc s with TPrint => 2 | TReturn => 1 | TDone => 0 end.

(** What has been printed, by where the two threads are. *)
Definition inv (s : state) : Prop :=
  (future s = match task_pc s with TDone => Some 169168%Z | _ => None end) ∧
  match main_pc s, task_pc s with
  | MPrint, TPrint => out s = []
  | MPrint, _ => out s = [Returning]
  | MGet, TPrint => out s = [Start]
  | MGet, _ => out s = [Start; Returning] ∨ out s = [Returning; Start]
  | MValue z, TDone => z = 169168%Z ∧ (out s = [Start; Returning] ∨ out s = [Returning; Start])
  | MDone, TDone =>
      out s = [Start; Returning; Value 169168] ∨ out s = [Returning; Start; Value 169168]
  | _, _ => False
  end.

Lemma async_inv_step l s s' : inv s → step l s = Ok s' → inv s'.
Proof.
  intros [Hf Hi] Hs. unfold step, inv in *. destruct s as [f m t o], l; simpl in *; subst f.
  - destruct m, t; simpl in *; simplify_eq/=; naive_solver.
  - destruct t, m; simpl in *; simplify_eq/=; naive_solver.
Qed.

(** Every run ends, and has then printed the two texts, in either order, and
    the value: the comment in the source shows one of the two outputs. *)
Theorem async_output (s : mstate async) :
  reachable s →
  sn (msteps async (λ _, True)) s ∧
  (quiescent async (λ _, True) s →
    out s = [Start; Returning; Value 169168] ∨ out s = [Returning; Start; Value 169168]).
Proof.
  intros Hr. assert (∀ s : mstate async, reachable s → inv s) as Hinv.
  { apply invariant_ind; [by intros ? -> | intros l s1 s2 _ Hi Hs; by eapply async_inv_step]. }
  split.
  - apply (sn_measure async _ weight); [| done]. intros l s1 s2 Hr1 _ Hs.
    specialize (Hinv s1 Hr1) as [Hf _]. change (step l s1 = Ok s2) in Hs. unfold step, weight in *.
    destruct s1 as [f m t o], l; simpl in *; [destruct m, t | destruct t]; simplify_eq/=; lia.
  - intros Hq. destruct (Hinv s Hr) as [Hf Hi]. pose proof (Hq LMain I) as H1. pose proof (Hq LTask I) as H2.
    simpl in H1, H2. unfold step in H1, H2. destruct s as [f m t o]; simpl in *; subst f.
    destruct m, t; simpl in *; try done; try (by exfalso; eapply H1); by exfalso; eapply H2.
Qed.

Lemma async_output_witness :
  ∃ s : mstate async, reachable s ∧ out s = [Returning; Start; Value 169168] ∧
    sn (msteps async (λ _, True)) s.
Proof.
  eexists. assert (reachable (M := async) _) as Hr by run_schedule async [LTask; LMain; LTask; LMain; LMain].
  split_and!; [exact Hr | reflexivity | apply (async_output _ Hr)].
Defined.
End Async.

(** * [package_task.cpp] *)
Module PackageTask.
(** A packaged task that adds: its shared state and whether its future was
    taken; the failures are the library's exceptions. *)
Inductive error := promise_already_satisfied | future_already_retrieved | no_state.
Record packaged_task := Task { value : option Z; retrieved : bool }.
Definition new : packaged_task := Task None false.

Definition is_int (z : Z) : bool := ((- 2 ^ 31 <=? z) && (z <? 2 ^ 31))%Z.
Definition call (t : packaged_task) (a b : Z) : outcome (packaged_task + error) :=
  match value t with
  | Some _ => Ok (inr promise_already_satisfied)
  | None => if is_int (a + b) then Ok (inl (Task (Some (a + b)%Z) (retrieved t))) else UB
  end.
Definition get_future (t : packaged_task) : packaged_task + error :=
  if retrieved t then inr future_already_retrieved else inl (Task (value t) true).
Definition reset (t : packaged_task) : packaged_task := new.
(** [ret.get()]: it waits for the value of its task. *)
Definition get (t : packaged_task) : outcome Z :=
  match value t with Some z => Ok z | None => Blocked end.

(** Using a task twice: a value for each use, or the exception. *)
Definition twice (between : packaged_task → packaged_task) (a b c d : Z) : outcome (list Z + error) :=
  match get_future new with
  | inr e => Ok (inr e)
  | inl t =>
      r ← call t a b;
      match r with
      | inr e => Ok (inr e)
      | inl t =>
          x ← get t;
          match get_future (between t) with
          | inr e => Ok (inr e)
          | inl t =>
              r ← call t c d;
              match r with
              | inr e => Ok (inr e)
              | inl t => y ← get t; Ok (inl [x; y])
              end
          end
      end
  end.
Definition main : outcome (list Z + error) := twice reset 1 4 12 10.

(** The program prints both sums; without the [reset] in between the future
    could not be taken again. *)
Theorem package_twice (a b c d : Z) :
  is_int (a + b) = true → is_int (c + d) = true →
  twice reset a b c d = Ok (inl [(a + b)%Z; (c + d)%Z]) ∧
  twice (λ t, t) a b c d = Ok (inr future_already_retrieved).
Proof. intros H1 H2. unfold twice, call. simpl. rewrite H1, H2. done. Qed.

Lemma package_twice_witness : main = Ok (inl [5%Z; 22%Z]).
Proof. exact (proj1 (package_twice 1 4 12 10 eq_refl eq_refl)). Defined.
End PackageTask.

(** * [thread_param.cpp] *)
Module ThreadParam.
(** A thread of [func]: outside, inside a read of [value], inside its update, or
    done.  An access in which another thread is at work, one of them writing, is
    a data race. *)
Inductive tpc := TIdle | TRead1 | TUpdate | TRead2 | TDone.
Record state := State { value : Z; threads : list tpc; alive : bool (* [main] has not returned *) }.
Definition init : state := State 1 (replicate 3 TIdle) true.

Definition next (t : tpc) : option tpc :=
  match t with
  | TIdle => Some TRead1 | TRead1 => Some TUpdate | TUpdate => Some TRead2 | TRead2 => Some TDone
  | TDone => None
  end.
Definition writing (t : tpc) : bool := match t with TUpdate => true | _ => false end.
Definition reading (t : tpc) : bool := match t with TRead1 | TRead2 => true | _ => false end.
Definition accessing (t : tpc) : bool := writing t || reading t.

Inductive label := LThread (i : nat) | LMain.
Definition step (l : label) (s : state) : outcome state :=
  match l with
  | LThread i =>
      t ← (match threads s !! i with Some t => Ok t | None => Blocked end);
      t' ← (match next t with Some t' => Ok t' | None => Blocked end);
      let others := delete i (threads s) in
      _ ← require (alive s || negb (accessing t'));
      _ ← require (negb (writing t' && existsb accessing others || reading t' && existsb writing others));
      Ok (State (if writing t then value s + 20 else value s) (<[i := t']> (threads s)) (alive s))
  | LMain => _ ← await (alive s); Ok (State (value s) (threads s) false)
  end.
Definition thread_param : machine := Machine state label (λ s, s = init) step.

(** The threads are neither synchronised with each other nor with [main]: two of
    them can reach the variable at once, and one can reach it after [main] has
    returned, when it does not exist any more. *)
Theorem thread_param_races :
  (∃ s : mstate thread_param, reachable s ∧ alive s = true ∧ mstep thread_param (LThread 1) s = UB) ∧
  (∃ s : mstate thread_param, reachable s ∧ alive s = false ∧ mstep thread_param (LThread 0) s = UB).
Proof.
  split; eexists.
  - assert (reachable (M := thread_param) _) as Hr
      by run_schedule thread_param [LThread 0; LThread 0].
    split_and!; [exact Hr | reflexivity | reflexivity].
  - assert (reachable (M := thread_param) _) as Hr by run_schedule thread_param [LMain].
    split_and!; [exact Hr | reflexivity | reflexivity].
Qed.
End ThreadParam.
