(* ===== verification/PortShare.v ===== *)
(** [network/TCP/REUSE_PORT/client.cpp]: twelve threads that each give the one
    standard input stream the buffer of a file of their own and send the lines
    they read from it.  One statement of a thread is one step: [cin.rdbuf(...)],
    one [getline] with the [write] of its line, the end of the function. *)
From S2P Require Import Prelude.
Open Scope nat_scope.

Section threads.
Context {line : Type}.

(** The buffer of a thread's [fstream]: not opened yet, with the lines left to
    read, or destroyed at the end of the thread's function. *)
Inductive filebuf := Unopened | Opened (lines : list line) | Destroyed.
Inductive pc := WOpen | WRdbuf | WLoop | WClose | WDone.
#[export] Instance pc_eq_dec : EqDecision pc.
Proof. solve_decision. Defined.
Record worker := Worker { at_pc : pc; file : filebuf; sent : list line }.

(** The stream [cin]: whose buffer it has ([None]: its own), and whether it is
    good; and the threads. *)
Record state := State { cin_buf : option nat; good : bool; workers : list worker }.

Context (content : list line) (n : nat).

Definition init : state := State None true (replicate n (Worker WOpen Unopened [])).

(** [getline(cin, line)] and [write]: on a stream that is not good the loop ends;
    at the end of the buffer the stream fails; a buffer that was destroyed must
    not be used.  Without a file's buffer the lines would come from the terminal,
    which cannot happen after [cin.rdbuf]. *)
Definition loop_step (i : nat) (w : worker) (s : state) : outcome state :=
  let leave b := Ok (State (cin_buf s) b (<[i := Worker WClose (file w) (sent w)]> (workers s))) in
  if negb (good s) then leave false
  else
    j ← from_option_ub (cin_buf s);
    o ← from_option_ub (workers s !! j);
    match file o with
    | Opened (l :: rest) =>
        let ws := <[j := Worker (at_pc o) (Opened rest) (sent o)]> (workers s) in
        w ← from_option_ub (ws !! i);
        Ok (State (cin_buf s) true (<[i := Worker WLoop (file w) (sent w ++ [l])]> ws))
    | Opened [] => leave false
    | _ => UB
    end.

Definition step (i : nat) (s : state) : outcome state :=
  w ← (match workers s !! i with Some w => Ok w | None => Blocked end);
  match at_pc w with
  | WOpen => Ok (State (cin_buf s) (good s) (<[i := Worker WRdbuf (Opened content) (sent w)]> (workers s)))
  | WRdbuf => Ok (State (Some i) true (<[i := Worker WLoop (file w) (sent w)]> (workers s)))
  | WLoop => loop_step i w s
  | WClose => Ok (State (cin_buf s) (good s) (<[i := Worker WDone Destroyed (sent w)]> (workers s)))
  | WDone => Blocked
  end.

Definition clients : machine := Machine state nat (λ s, s = init) step.

(** * Invariant: while the stream is good, its buffer belongs to a thread that is
    still in its loop *)
Definition worker_ok (w : worker) : Prop :=
  match file w, at_pc w with
  | Unopened, WOpen | Opened _, (WRdbuf | WLoop | WClose) | Destroyed, WDone => True
  | _, _ => False
  end.
Definition looping (ws : list worker) (j : nat) : Prop := ∃ w, ws !! j = Some w ∧ at_pc w = WLoop.
Record inv (s : state) : Prop := {
  inv_workers : ∀ i w, workers s !! i = Some w → worker_ok w;
  inv_good : ∀ j, cin_buf s = Some j → good s = true → looping (workers s) j;
  inv_set : cin_buf s = None → good s = true ∧ ∀ j, ¬ looping (workers s) j
}.

(** Moving a worker keeps the other workers as they are. *)
Lemma workers_insert (P : worker → Prop) (ws : list worker) i w :
  (∀ j v, ws !! j = Some v → P v) → P w → ∀ j v, <[i := w]> ws !! j = Some v → P v.
Proof. intros Hws Hw j v [(-> & <- & _) | [_ Hj]]%list_lookup_insert_Some; [done | by eapply Hws]. Qed.

Lemma looping_insert (ws : list worker) i w j :
  i < length ws → (i = j → at_pc w = WLoop) → (i ≠ j → looping ws j) → looping (<[i := w]> ws) j.
Proof.
  intros Hi Hw Hws. destruct (decide (i = j)) as [<- | Hne].
  - exists w. rewrite list_lookup_insert_eq by done. auto.
  - destruct (Hws Hne) as (v & Hj & Hv). exists v. by rewrite list_lookup_insert_ne.
Qed.

Lemma not_looping_insert (ws : list worker) i w j :
  at_pc w ≠ WLoop → ¬ looping ws j → ¬ looping (<[i := w]> ws) j.
Proof.
  intros Hw Hj (v & Hv & HP). apply list_lookup_insert_Some in Hv as [(-> & <- & _) | [_ Hv]]; [done |].
  apply Hj. by exists v.
Qed.

Lemma looping_pc (ws : list worker) i w : ws !! i = Some w → looping ws i → at_pc w = WLoop.
Proof. intros Hi (v & Hv & HP). by simplify_eq. Qed.

(** The steps of a loop, from an invariant: the line comes from a thread that is
    in its loop too. *)
Inductive loop_case (i : nat) (w : worker) (s : state) : outcome state → Prop :=
  | case_leave : loop_case i w s (Ok (State (cin_buf s) false (<[i := Worker WClose (file w) (sent w)]> (workers s))))
  | case_line j o l rest w' :
      good s = true → cin_buf s = Some j → workers s !! j = Some o → at_pc o = WLoop → file o = Opened (l :: rest) →
      <[j := Worker WLoop (Opened rest) (sent o)]> (workers s) !! i = Some w' → at_pc w' = WLoop →
      loop_case i w s (Ok (State (cin_buf s) true
        (<[i := Worker WLoop (file w') (sent w' ++ [l])]>
           (<[j := Worker WLoop (Opened rest) (sent o)]> (workers s))))).

Lemma loop_cases i w s : inv s → workers s !! i = Some w → at_pc w = WLoop → loop_case i w s (loop_step i w s).
Proof.
  intros [Hw Hg Hs] Hi HL. unfold loop_step. destruct (good s) eqn:E; [| constructor]. simpl.
  destruct (cin_buf s) as [j |] eqn:Ej.
  2:{ destruct (Hs eq_refl) as [_ Hn]. destruct (Hn i). by exists w. }
  destruct (Hg _ eq_refl eq_refl) as (o & Ho & HoL). pose proof (Hw _ _ Ho) as Hok.
  unfold worker_ok in Hok. rewrite HoL in Hok. simpl. rewrite Ho. simpl.
  destruct (file o) as [| [| l rest] |] eqn:Ef; try done.
  { rewrite <- Ej. constructor. }
  rewrite HoL. destruct (decide (j = i)) as [-> | Hne].
  - rewrite list_lookup_insert_eq by by eapply lookup_lt_Some. simpl. rewrite <- Ej.
    apply (case_line _ _ _ i o l rest (Worker WLoop (Opened rest) (sent o))); eauto. by rewrite list_lookup_insert_eq by by eapply lookup_lt_Some.
  - rewrite list_lookup_insert_ne by done. rewrite Hi. simpl. rewrite <- Ej.
    apply (case_line _ _ _ j o l rest w); eauto. by rewrite list_lookup_insert_ne.
Qed.

Lemma share_inv_step i s s' : inv s → step i s = Ok s' → inv s'.
Proof.
  intros Hinv Hs. pose proof Hinv as [Hw Hg Hn]. unfold step in Hs.
  destruct (workers s !! i) as [w |] eqn:Hi; [| done]. simpl in Hs.
  pose proof (Hw _ _ Hi) as Hok. pose proof (lookup_lt_Some _ _ _ Hi) as Hlt.
  pose proof (looping_pc _ _ _ Hi) as HL.
  destruct (at_pc w) eqn:Hpc; simplify_eq.
  - split; simpl.
    + by apply (workers_insert worker_ok).
    + intros j Hj E. apply looping_insert; [done | | naive_solver]. intros <-. by specialize (HL (Hg _ Hj E)).
    + intros E. destruct (Hn E) as [Hgd Hno]. split; [done |]. intros j. by apply not_looping_insert.
  - split; simpl.
    + apply (workers_insert worker_ok); [done |]. unfold worker_ok in *. rewrite Hpc in Hok. by destruct (file w).
    + intros j [= <-] _. by apply looping_insert.
    + done.
  - pose proof (loop_cases _ _ _ Hinv Hi Hpc) as Hc. rewrite Hs in Hc.
    inversion Hc as [E | j o l rest w' Hgd Hcin Ho HoL Hf Hw' HL' E]; subst; split; simpl.
    + apply (workers_insert worker_ok); [done |]. unfold worker_ok in *. rewrite Hpc in Hok. by destruct (file w).
    + done.
    + intros E'. destruct (Hn E') as [_ Hno]. destruct (Hno i). by exists w.
    + assert (∀ k v, <[j := Worker WLoop (Opened rest) (sent o)]> (workers s) !! k = Some v → worker_ok v) as Hws
        by by apply (workers_insert worker_ok).
      apply (workers_insert worker_ok); [done |]. pose proof (Hws _ _ Hw') as Hok'. unfold worker_ok in *.
      rewrite HL' in Hok'. by destruct (file w').
    + intros k Hk _. apply looping_insert; [by rewrite length_insert | done |]. intros _.
      apply looping_insert; [by eapply lookup_lt_Some | done |]. rewrite Hcin in Hk. by simplify_eq.
    + intros E'. by rewrite Hcin in E'.
  - split; simpl.
    + by apply (workers_insert worker_ok).
    + intros j Hj E. apply looping_insert; [done | | naive_solver]. intros <-. by specialize (HL (Hg _ Hj E)).
    + intros E. destruct (Hn E) as [Hgd Hno]. split; [done |]. intros j. by apply not_looping_insert.
Qed.

Lemma share_inv_reachable (s : mstate clients) : reachable s → inv s.
Proof.
  revert s. apply invariant_ind.
  - intros s ->. split; simpl; [| done |].
    + by intros i w [-> _]%lookup_replicate.
    + intros _. split; [done |]. by intros j (w & [-> _]%lookup_replicate & ?).
  - intros i s s' _ Hi Hs. by eapply share_inv_step.
Qed.

(** * Measures: the lines a thread's file still holds, and the statements it has left *)
Definition left_in (f : filebuf) : nat :=
  match f with Unopened => length content | Opened ls => length ls | Destroyed => 0 end.
Definition lines_of (w : worker) : nat := length (sent w) + left_in (file w).
Definition weight_of (w : worker) : nat :=
  left_in (file w) + match at_pc w with WOpen => 4 | WRdbuf => 3 | WLoop => 2 | WClose => 1 | WDone => 0 end.

(** What moving the thread of [Hi] to [w'] does to a sum over the threads. *)
Ltac account f Hi w' :=
  let H := fresh "Hsum" in
  pose proof (sum_list_with_insert f _ _ _ w' Hi) as H; unfold f at 2 4 in H; simpl in H.

Lemma lines_step i s s' :
  inv s → step i s = Ok s' → sum_list_with lines_of (workers s') ≤ sum_list_with lines_of (workers s).
Proof.
  intros Hinv Hs. pose proof (inv_workers _ Hinv) as Hw. unfold step in Hs.
  destruct (workers s !! i) as [w |] eqn:Hi; [| done]. simpl in Hs. pose proof (Hw _ _ Hi) as Hok. unfold worker_ok in Hok.
  destruct (at_pc w) eqn:Hpc; simplify_eq; simpl.
  - account lines_of Hi (Worker WRdbuf (Opened content) (sent w)). destruct (file w); try done. simpl in *. lia.
  - account lines_of Hi (Worker WLoop (file w) (sent w)). lia.
  - pose proof (loop_cases _ _ _ Hinv Hi Hpc) as Hc. rewrite Hs in Hc.
    inversion Hc as [E | j o l rest w' Hgd Hcin Ho HoL Hf Hw' HL' E]; subst; simpl.
    + account lines_of Hi (Worker WClose (file w) (sent w)). lia.
    + account lines_of Ho (Worker WLoop (Opened rest) (sent o)).
      account lines_of Hw' (Worker WLoop (file w') (sent w' ++ [l])). rewrite Hf in *. rewrite length_app in *. simpl in *. lia.
  - account lines_of Hi (Worker WDone Destroyed (sent w)). lia.
Qed.

Lemma weight_step i s s' :
  inv s → step i s = Ok s' → sum_list_with weight_of (workers s') < sum_list_with weight_of (workers s).
Proof.
  intros Hinv Hs. pose proof (inv_workers _ Hinv) as Hw. unfold step in Hs.
  destruct (workers s !! i) as [w |] eqn:Hi; [| done]. simpl in Hs. pose proof (Hw _ _ Hi) as Hok. unfold worker_ok in Hok.
  destruct (at_pc w) eqn:Hpc; simplify_eq; simpl.
  - account weight_of Hi (Worker WRdbuf (Opened content) (sent w)). rewrite Hpc in *. destruct (file w); try done. simpl in *. lia.
  - account weight_of Hi (Worker WLoop (file w) (sent w)). rewrite Hpc in *. lia.
  - pose proof (loop_cases _ _ _ Hinv Hi Hpc) as Hc. rewrite Hs in Hc.
    inversion Hc as [E | j o l rest w' Hgd Hcin Ho HoL Hf Hw' HL' E]; subst; simpl.
    + account weight_of Hi (Worker WClose (file w) (sent w)). rewrite Hpc in *. lia.
    + account weight_of Ho (Worker WLoop (Opened rest) (sent o)).
      account weight_of Hw' (Worker WLoop (file w') (sent w' ++ [l])). rewrite Hf, HoL, HL' in *. simpl in *. lia.
  - account weight_of Hi (Worker WDone Destroyed (sent w)). rewrite Hpc in *. lia.
Qed.

Definition all_done (s : state) : Prop := Forall (λ w, at_pc w = WDone) (workers s).

(** A thread that has not ended can always move: nothing blocks. *)
Lemma step_moves i w s :
  inv s → workers s !! i = Some w → at_pc w ≠ WDone → ∃ s', step i s = Ok s'.
Proof.
  intros Hinv Hi Hpc. unfold step. rewrite Hi. simpl. destruct (at_pc w) eqn:E; eauto; [| done].
  destruct (loop_cases _ _ _ Hinv Hi E); eauto.
Qed.

Lemma step_safe i s : inv s → step i s ≠ UB.
Proof.
  intros Hinv. unfold step. destruct (workers s !! i) as [w |] eqn:Hi; [simpl | done].
  destruct (at_pc w) eqn:E; try done. by destruct (loop_cases _ _ _ Hinv Hi E).
Qed.

(** One thread: what it has sent and what its file holds make up the file. *)
Definition alone (s : state) : Prop := ∃ w, workers s = [w] ∧
  match file w with
  | Unopened => sent w = [] ∧ cin_buf s = None
  | Opened ls => sent w ++ ls = content ∧
      (at_pc w = WRdbuf ∨ at_pc w = WLoop ∧ cin_buf s = Some 0 ∧ good s = true ∨ at_pc w = WClose ∧ ls = [])
  | Destroyed => sent w = content
  end.

Lemma alone_step i s s' : inv s → alone s → step i s = Ok s' → alone s'.
Proof.
  intros Hinv ([p f se] & Hw & Hok) Hs. pose proof (inv_workers _ Hinv 0) as Hk. unfold step, loop_step in Hs.
  rewrite Hw in Hk, Hs. specialize (Hk _ eq_refl). destruct i as [| i]; [| done]. simpl in *.
  destruct f as [| ls |], p; try done; simpl in *; simplify_eq/=.
  - destruct Hok as [-> _]. exists (Worker WRdbuf (Opened content) []). split; [done |]. simpl. auto.
  - exists (Worker WLoop (Opened ls) se). naive_solver.
  - destruct Hok as [Hse [? | [(_ & Hc & Hg) | [? _]]]]; try done. rewrite Hc, Hg in Hs.
    destruct ls as [| l ls]; simplify_eq/=; eexists; split; try reflexivity; simpl; [by auto |].
    rewrite <- (assoc_L (++)). auto 10.
  - exists (Worker WDone Destroyed se). destruct Hok as [Hse [? | [? | [_ ->]]]]; try naive_solver.
    by rewrite app_nil_r in Hse.
Qed.
End threads.

(** Statement by statement, no schedule makes a thread read through the buffer of
    a file that was destroyed: the thread that destroys it has left its loop, so
    the stream has failed since. *)
Theorem shared_cin_safe {line} (content : list line) (n : nat) (s : mstate (clients content n)) :
  reachable s → ¬ goes_wrong s.
Proof.
  intros Hr%share_inv_reachable (i & Hs). by apply (step_safe content i s Hr).
Qed.

Lemma shared_cin_safe_witness : ¬ goes_wrong (M := clients ["a"%string] 2) (init 2).
Proof. apply (shared_cin_safe ["a"%string] 2), reachable_init. reflexivity. Defined.

(** Every run ends, with every thread at its end, and no more lines were sent
    than the threads' files hold together. *)
Theorem shared_cin_ends {line} (content : list line) (n : nat) (s : mstate (clients content n)) :
  reachable s →
  sn (msteps (clients content n) (λ _, True)) s ∧
  (quiescent (clients content n) (λ _, True) s → all_done s) ∧
  sum_list_with (λ w, length (sent w)) (workers s) ≤ n * length content.
Proof.
  intros Hr. split_and!.
  - apply (sn_measure (clients content n) _ (λ s, sum_list_with (weight_of content) (workers s))); [| done].
    intros i s1 s2 Hr1%share_inv_reachable _ Hs. exact (weight_step content i s1 s2 Hr1 Hs).
  - intros Hq. apply Forall_lookup. intros i w Hi. destruct (decide (at_pc w = WDone)) as [| Hne]; [done |].
    destruct (step_moves content i w s) as [s' Hs]; [by apply (share_inv_reachable content n) | done | done |].
    by destruct (Hq i I s').
  - trans (sum_list_with (lines_of content) (workers s)).
    { unfold lines_of. induction (workers s); simpl; lia. }
    revert s Hr. apply invariant_ind.
    + intros s ->. simpl. unfold lines_of. induction n; simpl in *; lia.
    + intros i s s' Hr%share_inv_reachable Hle Hs. etrans; [| exact Hle]. exact (lines_step content i s s' Hr Hs).
Qed.

(** Two threads, one line: the second thread's [rdbuf] comes before the first
    one's loop, so the first thread sends the second one's line, the second
    sends nothing, and one file is never read. *)
Theorem shared_cin_loses :
  ∃ s : mstate (clients ["a"%string] 2), reachable s ∧ all_done s ∧ sent <$> workers s = [["a"%string]; []].
Proof.
  eexists. assert (reachable (M := clients ["a"%string] 2) _) as Hr
    by run_schedule (clients ["a"%string] 2) [0; 1; 0; 1; 0; 0; 1; 0; 1].
  split_and!; [exact Hr | by repeat constructor | reflexivity].
Qed.

(** A thread of its own sends its whole file. *)
Theorem single_client_sends_all {line} (content : list line) (s : mstate (clients content 1)) :
  reachable s → all_done s → sent <$> workers s = [content].
Proof.
  intros Hr Hd.
  assert (alone content s) as (w & Hw & Hok).
  { clear Hd. revert s Hr. apply invariant_ind.
    - intros s ->. by exists (Worker WOpen Unopened []).
    - intros i s s' Hr%share_inv_reachable Ha Hs. exact (alone_step content i s s' Hr Ha Hs). }
  unfold all_done in Hd. rewrite Hw in *. apply Forall_cons in Hd as [Hd _]. simpl.
  pose proof (inv_workers _ (share_inv_reachable _ _ _ Hr) 0 w) as Hk. rewrite Hw in Hk. specialize (Hk eq_refl).
  unfold worker_ok in Hk. rewrite Hd in Hk. destruct (file w); try done. by rewrite Hok.
Qed.
